(* ===== verification/_CoqProject ===== *)
-Q . S2P
Prelude.v
Primitives.v
Types.v
Results.v
MvMemory.v
VmDb.v
Vm.v
Executor.v
Evaluation.v
Dropper.v
Db.v
OpVm.v
Views.v
Chain.v
Node.v
Hook.v
HookEvm.v
HookTr.v
Runtime.v
Compiler.v
Tools.v
Inference.v
Eels.v
Drivers.v
StateTests.v
BlockTests.v
Fetch.v
Trace.v
TaskGraph.v
Scheduler.v
Workers.v
WorkersInv.v
WorkersSafety.v
WorkersRefine.v
WorkersMem.v
WorkersMemRefine.v
WorkersMemInv.v
WorkersRun.v
WorkersResults.v
WorkersEst.v
WorkersSerial.v
WorkersBlock.v
OpWorkers.v
Sequential.v
Divergence.v
