(* ===== verification/Prelude.v ===== *)
(** * Verification of the Metis SDK parallel executor

    The Metis SDK executes the transactions of an Ethereum block in parallel. Worker
    threads take execution and validation tasks from a shared scheduler; executions
    read and write a multi-version memory that keeps one version per transaction and
    location; an execution whose reads are no longer current is aborted and run
    again; when all transactions are validated the results are assembled, and on
    trouble the block is run sequentially. This library models that program from its
    Rust sources and proves what makes it correct.

    ** The program and the files that model it

    - crates/primitives/src: [Primitives] ([I257] arithmetic of i257.rs, saturating
      conversions and hashers of lib.rs).
    - crates/pe/src/types.rs, lib.rs: [Types] (locations, versions, statuses, flags,
      [AtomicWrapper]). crates/pe/src/result.rs: [Results] (errors and results, and
      the boundary to the EVM).
    - crates/pe/src/mv_memory.rs: [MvMemory].
    - crates/pe/src/vm.rs: [VmDb] (the database an execution reads through, struct
      [VmDB]) and [Vm] (the write set, rewards, [Vm::execute]).
    - crates/pe/src/executor.rs: [Executor] (what [ParallelExecutor::execute] does
      after its threads, and [execute_sequential]); [Evaluation] specifies what it is to
      do after them. crates/pe/src/op_vm.rs and
      op_executor.rs: [OpVm]; they are copies of the Ethereum code, so the shared
      definitions are reused and only what differs is defined again; [OpWorkers] is
      its worker loop. dropper.rs: [Dropper] (the thread that frees what a block leaves).
    - crates/pe/src/scheduler.rs: [TaskGraph] (the task providers) and [Scheduler]
      (each method as a function on the scheduler's state). [Workers] is the loop of
      the worker threads (executor.rs, with the methods of scheduler.rs taken apart
      into atomic accesses) as a transition system over any interleaving;
      [WorkersInv] its invariant, [WorkersSafety] what follows from it,
      [WorkersRefine] its relation to the methods of [Scheduler]. [WorkersMem] adds
      the multi-version memory, with [record], [validate_read_locations] and
      [convert_writes_to_estimates] taken apart into accesses to single locations;
      [WorkersMemRefine] relates these to the operations; [WorkersMemInv],
      [WorkersRun], [WorkersResults] (the results on their way into the slots) and
      [WorkersEst] (the estimates) are the invariants, [WorkersSerial] and
      [WorkersBlock] what follows: parallel execution is execution in block order.
    - [ParallelExecutor::execute] against [execute_sequential]: [Views] reads the
      multi-version memory as a database and relates it to the chain with the committed
      states on top, [Sequential] compares the results of the two executors,
      [Divergence] has blocks on which they differ.
    - crates/pe/src/db.rs and crates/chain/src/state.rs: [Db]. crates/chain/src/
      provider.rs and op_provider.rs: [Chain] (executing a block), [Node] (the
      configurations, executors and builders of a node, and bin/metis.rs). crates/hook/src/handler.rs: [Hook];
      evm.rs, exec.rs and crates/chain/src/hook_provider.rs: [HookEvm], and [HookTr] for
      the interfaces of revm that evm.rs implements.
    - crates/vm/src (compiler.rs, pool.rs, env.rs, error.rs): [Compiler], the pool of
      compilations and the handler that asks for compiled functions; runtime.rs: [Runtime];
      inference.rs: [Inference].
    - crates/tools: [Tools] (hard forks, src/lib.rs) and the test drivers under bins:
      [Eels] (eelstest), [StateTests] (ethertest), [BlockTests] (blocktest); [Fetch]
      (blockfetch) makes fixtures for blocktest from a node, [Trace] (blocktrace) traces
      a block; [Drivers] is how the test drivers find tests and end.

    ** How the code is represented

    Structs are records, enums inductive types, with the source's names where they are
    free. Integers are of [Z] with their width written out, [usize] indices of [nat]
    with 64-bit wrap-around; hash maps and B-trees are finite maps. A method that
    mutates state is a function of the state in the monad [M], which returns, panics
    or has undefined behaviour (an index out of range under [get_unchecked]).
    [debug_assert!] is compiled in. A read error is a value of [result].

    The EVM is not in the sources: an execution is a program of database reads
    ([Results.Prog]) that ends in a result or an error, given by the class [Evm]; the
    chain's state is the class [DatabaseRef], the types of revm the class [Revm], the
    node's state and rules the class [Reth]; the hash of locations is a parameter, as
    is the overlay database of the sequential path. The hash of the code has 64 bits;
    theorems that need it assume that no two locations collide, or only that the basic
    location of no account collides with one of another kind, which idealises it. The interfaces between components
    are classes: [TaskProvider] (both providers are instances), [UsizeCodec],
    [DatabaseRef] ([InMemoryDB] is an instance), [BlockRunner], which the node's block
    executor is written against and which the parallel executor implements.

    In [VmDb] each access to the shared memory sees a memory of its own, so that
    statements hold whatever other threads do in between. In [Workers] one transition
    is one atomic access or one critical section; the outcome of an execution and
    of a validation is chosen freely at each transition. In [WorkersMem] a validation
    gives what it finds in the shared memory, and what executions read and write is
    free; in the runs of [WorkersRun] it is what running the transaction gives, with
    each read answered by some memory the run has gone through.

    ** What is proved

    - Threads ([WorkersSafety], [WorkersRefine]): for any number of threads and any
      interleaving no access is out of range, no assertion fails, no transaction is
      executed twice at a time, no deadlock occurs; when the threads are done without
      an abort every transaction is executed with its result in place; the counter of
      validated transactions is exact; a thread running alone does what the methods of
      [Scheduler] do, and its accesses to the memory what the operations of
      [MvMemory] do ([WorkersMemRefine]).
    - Serializability ([WorkersSerial]): when the threads are done without an abort,
      every read of every transaction is current in the final memory, the data of
      every transaction is what executing it alone on the final memory writes, and
      executing the transactions in block order, one after the other, leaves the same
      data everywhere. Whether a transaction is lazy is decided as in the run; lazy
      and evaluated accounts are related in [Executor].
    - A block from end to end ([WorkersBlock]): from the start of the threads to what
      [execute] returns, the results are those of the executions in block order, with
      running gas totals and each lazy account as the reference of [Evaluation] says it is;
      or there is an error that the reference explains, or the debug assertion about
      empty accounts fails.
    - The two executors ([Sequential]): for chains, caches and EVMs that obey the laws
      stated there, and blocks that pay existing accounts, destroy none, leave none
      empty and give no new code to existing ones (and, by the law on nonces, have no sender
      that authorises itself, EIP-7702), [execute] and [execute_sequential]
      both succeed with the same results, transaction by transaction. [Divergence] shows
      that new code of an existing account, the code of a beneficiary, and what a lazy
      transaction does to other accounts are lost by the parallel one, which also takes
      a lazy transfer from a contract.
    - Optimism ([OpVm], [OpWorkers]): rewards and the sequential path; no block ends with
      results of the threads, of which those that bring a transaction to its end panic.
    - Memory ([MvMemory], [VmDb], [Vm]): what recording, aborting and validating do
      to the memory; validation is sound (a validated execution gives the same result
      when run again on that memory alone, provided it is lazy or not as before, which
      validation does not look at) and not too strict; what the write set holds of the
      changes, and that it misses code given to an account that was read as a contract; rewards and lazy balances are exact.
    - Block ([Executor], [OpVm], [Db], [Chain], [Hook]): gas totals, the evaluation of
      lazy accounts, the sequential fallback, the threads' reads of the node's state through
      the lock of the adapter, interleaved, with panics that poison it ([Db]), commits and balance increments of the node; what tracing a transaction
      changes ([HookEvm]), and that wrapping an EVM is invisible to code written against
      revm's interfaces, which use its parts through references ([HookTr]); which executor a node runs, and that the block it builds and
      the block it executes report different gas ([Node]).
    - Compiler ([Compiler]): a function found for a code hash was compiled from that
      code with the options of the pool (gas metering inverted), even when libraries are
      looked up while they are written; the pool is bounded, what waiting for a compilation answers, and that the
      handlers interpret every frame all the same.
    - Background ([Dropper], [Runtime]): every value handed to the dropper is dropped once,
      in order, and its thread ends; the static runtime is made once and never raced for.
    - Tools ([Eels], [StateTests], [BlockTests], [Drivers], [Fetch], [Inference]): what makes a
      test pass and a driver end with success, a fetched suite read back by the block test driver, the state written to the test database and read back, transactions in order
      from unordered fixtures, the widths of what is built from 256-bit numbers; what
      an inference charges.
    - Data ([Primitives], [Types], [TaskGraph], [Scheduler]): exact arithmetic, the
      packed status cell, each scheduler method on each branch.

    Some theorems state behaviour that differs from what the code intends: the gas a
    block reports, the queueing of released transactions and the counter of the
    dependency graph, the estimates of the Optimism memory, the hook's reward, the
    errors of a compilation, the cases and slots the test drivers pass over.

    ** Fuel and bounds

    [BlockTests.digits] takes fuel 20, the number of digits of a 64-bit number, and
    [parse_to_string] shows that it is enough. [Scheduler.next_task] takes fuel for its loop; [next_task_settles] shows that a
    number of rounds bounded by the distance of the two counters to the block size is
    enough. [drop_stale] takes the number of written locations as fuel, which each
    round reduces. [Dropper.run_thread] takes a number of steps, of which [steps_left] are
    enough. The programs [Prog] are finite trees. Counters are assumed to stay
    below 2^64 where a theorem says so; runs have fewer than 2^64 steps, which keeps
    incarnation numbers from wrapping around.

    ** Not modelled

    The command lines, the JSON and the RPC transport of the tools, and the files they
    write (what they parse, write and are answered is a value); derived and marker
    implementations and methods that give out a field; the components of an Optimism
    node other than its executor, which are those of reth (only what they are given is
    modelled); memory orderings weaker than sequential consistency; examples and
    benchmarks. *)

From Stdlib Require Export ZArith Lia.
From stdpp Require Export base decidable option list list_numbers gmap sets numbers.

(** ** Rust results, panics and undefined behaviour *)

(** [Result<T, E>]. *)
Inductive result (T E : Type) : Type :=
| Ok (t : T)
| Err (e : E).
Arguments Ok {T E} _.
Arguments Err {T E} _.

Definition result_bind {T U E : Type} (m : result T E) (k : T -> result U E) : result U E :=
  match m with
  | Ok t => k t
  | Err e => Err e
  end.

Definition map_err {T E F : Type} (f : E -> F) (m : result T E) : result T F :=
  match m with
  | Ok t => Ok t
  | Err e => Err (f e)
  end.

Definition is_ok {T E : Type} (m : result T E) : bool :=
  match m with Ok _ => true | Err _ => false end.

(** What a Rust call can do: return, panic, or run into undefined behaviour
    (an out-of-range [get_unchecked]). *)
Inductive outcome (A : Type) : Type :=
| Return (a : A)
| Panic
| UB.
Arguments Return {A} _.
Arguments Panic {A}.
Arguments UB {A}.

Definition returns {A : Type} (o : outcome A) : Prop :=
  exists a, o = Return a.

(** A computation over a shared state [S] that may panic or be undefined. *)
Definition M (S A : Type) : Type := S -> outcome (A * S).

#[export] Instance M_ret (S : Type) : MRet (M S) := fun A a s => Return (a, s).

#[export] Instance M_bind (S : Type) : MBind (M S) := fun A B k m s =>
  match m s with
  | Return (a, s') => k a s'
  | Panic => Panic
  | UB => UB
  end.

Definition get {S : Type} : M S S := fun s => Return (s, s).
Definition gets {S A : Type} (f : S -> A) : M S A := fun s => Return (f s, s).
Definition modify {S : Type} (f : S -> S) : M S unit := fun s => Return (tt, f s).
Definition ub {S A : Type} : M S A := fun _ => UB.
Definition panic {S A : Type} : M S A := fun _ => Panic.

(** [debug_assert!(b)], compiled in: a failed assertion panics. *)
Definition debug_assert {S : Type} (b : bool) : M S unit :=
  if b then mret tt else panic.

(** A [for] loop over a list. *)
Fixpoint for_each {S A : Type} (l : list A) (body : A -> M S unit) : M S unit :=
  match l with
  | [] => mret tt
  | a :: l' => body a ≫= fun _ => for_each l' body
  end.

Lemma bind_Return {S A B : Type} (m : M S A) (k : A -> M S B) (s s' : S) (a : A) :
  m s = Return (a, s') -> (m ≫= k) s = k a s'.
Proof. intros H. unfold mbind, M_bind. by rewrite H. Qed.

(** Run the first operation of a sequence, whose outcome is known. *)
Ltac run_with H := rewrite (bind_Return _ _ _ _ _ H).

(** ** Machine integers

    Unsigned integers of width [w] are integers of [Z] in [[0, 2^w)]; every
    operation that can leave the range says what the Rust operation does
    there. Vector indices and the counters that hold them ([usize]) are
    natural numbers, with the 64-bit wrap-around of the atomic operations
    written through [Z]. *)

Definition in_range (w x : Z) : Prop := (0 <= x < 2 ^ w)%Z.

Definition uint_max (w : Z) : Z := (2 ^ w - 1)%Z.
Definition u64_MAX : Z := uint_max 64.
Definition u128_MAX : Z := uint_max 128.
Definition U256_MAX : Z := uint_max 256.

Definition saturating_add (w x y : Z) : Z := Z.min (x + y) (uint_max w).
Definition saturating_sub (x y : Z) : Z := Z.max (x - y) 0.
Definition saturating_mul (w x y : Z) : Z := Z.min (x * y) (uint_max w).
Definition wrapping (w x : Z) : Z := (x mod 2 ^ w)%Z.

Definition usize_wrap (z : Z) : nat := Z.to_nat (z mod 2 ^ 64).
Definition usize_add (a b : nat) : nat := usize_wrap (Z.of_nat a + Z.of_nat b).
Definition usize_sub (a b : nat) : nat := usize_wrap (Z.of_nat a - Z.of_nat b).

Lemma pow2_pos (w : Z) : (0 <= w -> 0 < 2 ^ w)%Z.
Proof. intros Hw. by apply Z.pow_pos_nonneg. Qed.

Lemma saturating_add_range (w x y : Z) :
  (0 <= w)%Z -> in_range w x -> in_range w y -> in_range w (saturating_add w x y).
Proof. unfold in_range, saturating_add, uint_max. lia. Qed.

Lemma saturating_sub_range (w x y : Z) :
  in_range w x -> in_range w y -> in_range w (saturating_sub x y).
Proof. unfold in_range, saturating_sub. lia. Qed.

Lemma saturating_mul_range (w x y : Z) :
  (0 <= w)%Z -> in_range w x -> in_range w y -> in_range w (saturating_mul w x y).
Proof. unfold in_range, saturating_mul, uint_max. nia. Qed.

Lemma usize_add_le (a : nat) : usize_add a 1 <= a + 1.
Proof.
  unfold usize_add, usize_wrap.
  pose proof (Z.mod_le (Z.of_nat a + Z.of_nat 1) (2 ^ 64) ltac:(lia) ltac:(lia)). lia.
Qed.

Lemma usize_add_small (a b : nat) :
  (Z.of_nat a + Z.of_nat b < 2 ^ 64)%Z -> usize_add a b = a + b.
Proof. intros H. unfold usize_add, usize_wrap. rewrite Z.mod_small by lia. lia. Qed.

Lemma usize_sub_small (a b : nat) :
  b <= a -> (Z.of_nat a < 2 ^ 64)%Z -> usize_sub a b = a - b.
Proof. intros Hb Ha. unfold usize_sub, usize_wrap. rewrite Z.mod_small by lia. lia. Qed.

(** The hint database of the development: ranges resolve, index arithmetic that
    does not wrap rewrites. *)
Create HintDb rust.
Create Rewrite HintDb rust.
#[export] Hint Resolve pow2_pos saturating_add_range saturating_sub_range saturating_mul_range : rust.
#[export] Hint Rewrite usize_add_small usize_sub_small using lia : rust.

(** ** Lists *)

(** The total of a weight over a list changes by the weight of the element
    that an update replaces. *)
Lemma sum_list_with_insert {A : Type} (f : A -> nat) (l : list A) (i : nat) (x y : A) :
  l !! i = Some x ->
  sum_list_with f (<[i:=y]> l) + f x = sum_list_with f l + f y.
Proof.
  revert i. induction l as [|z l IH]; intros [|i] Hl; simplify_eq/=; [lia|].
  specialize (IH _ Hl). lia.
Qed.

Lemma sum_list_with_elem_le {A : Type} (f : A -> nat) (l : list A) (i : nat) (x : A) :
  l !! i = Some x -> f x <= sum_list_with f l.
Proof.
  revert i. induction l as [|z l IH]; intros [|i] Hl; simplify_eq/=; [lia|].
  specialize (IH _ Hl). lia.
Qed.

Lemma sum_list_with_two_le {A : Type} (f : A -> nat) (l : list A) (i j : nat) (x y : A) :
  i ≠ j -> l !! i = Some x -> l !! j = Some y -> f x + f y <= sum_list_with f l.
Proof.
  revert i j. induction l as [|z l IH]; intros [|i] [|j] Hij Hi Hj; simplify_eq/=.
  - pose proof (sum_list_with_elem_le f _ _ _ Hj). lia.
  - pose proof (sum_list_with_elem_le f _ _ _ Hi). lia.
  - specialize (IH i j ltac:(lia) Hi Hj). lia.
Qed.

Lemma sum_list_with_pos {A : Type} (f : A -> nat) (l : list A) :
  0 < sum_list_with f l -> exists i x, l !! i = Some x /\ 0 < f x.
Proof.
  induction l as [|z l IH]; simpl; intros H; [lia|].
  destruct (decide (0 < f z)) as [Hz|Hz]; [by exists 0, z|].
  destruct IH as (i & x & Hl & Hx); [lia|]. by exists (S i), x.
Qed.

Lemma sum_list_with_zero {A : Type} (f : A -> nat) (l : list A) :
  (forall i x, l !! i = Some x -> f x = 0) -> sum_list_with f l = 0.
Proof.
  induction l as [|z l IH]; simpl; intros H; [done|].
  rewrite (H 0 z eq_refl). apply IH. intros i x Hl. by apply (H (S i) x).
Qed.

Lemma sum_list_with_ext {A : Type} (f g : A -> nat) (l : list A) :
  (forall x, f x = g x) -> sum_list_with f l = sum_list_with g l.
Proof. intros H. induction l; simpl; auto. Qed.

(** A list of weights at most one that sums to its length is all ones. *)
Lemma sum_list_with_full {A : Type} (f : A -> nat) (l : list A) :
  (forall x, f x <= 1) -> length l <= sum_list_with f l ->
  forall i x, l !! i = Some x -> f x = 1.
Proof.
  intros Hle. assert (Hub : forall k, sum_list_with f k <= length k).
  { induction k as [|z k IH]; simpl; [lia|]. specialize (Hle z). lia. }
  induction l as [|z l IH]; simpl; intros Hlen i x Hl; [done|].
  pose proof (Hub l). pose proof (Hle z).
  destruct i as [|i]; simplify_eq/=; [lia|]. apply (IH ltac:(lia) i x Hl).
Qed.

Lemma lookup_insert_cases {A : Type} (l : list A) (i j : nat) (x y : A) :
  <[i:=x]> l !! j = Some y -> (j = i /\ y = x /\ i < length l) \/ (j ≠ i /\ l !! j = Some y).
Proof.
  intros H. apply list_lookup_insert_Some in H as [(-> & <- & H)|[Hne H]]; [by left|right].
  split; [congruence|done].
Qed.
