(* ===== verification/Primitives.v ===== *)
(** * Primitive types (crates/primitives)

    The signed 257-bit integer [I257] used to fold lazy balance updates, the
    saturating conversions of [lib.rs], and the two hashers that key the shared
    maps of the executor. *)

From S2P Require Import Prelude.
Local Open Scope Z_scope.

(** ** [I257]: a 256-bit magnitude and a sign (i257.rs) *)

Module I257.

Record I257 : Type := mkI257 { value : Z; is_negative : bool }.

Definition abs_value (x : I257) : Z := value x.

Definition sign (x : I257) : Z := if is_negative x then -1 else 1.

Definition ZERO : I257 := mkI257 0 false.

Definition NEGATIVE_ZERO : I257 := mkI257 0 true.

(** [impl From<U256> for I257]. *)
Definition from_U256 (v : Z) : I257 := mkI257 v false.

(** [impl Add for I257]; [U256] subtraction wraps. *)
Definition add (self other : I257) : I257 :=
  if Bool.eqb (is_negative self) (is_negative other) then
    mkI257 (saturating_add 256 (value self) (value other)) (is_negative self)
  else if abs_value self >? abs_value other then
    mkI257 (wrapping 256 (value self - value other)) (is_negative self)
  else
    mkI257 (wrapping 256 (value other - value self)) (is_negative other).

(** [impl Sub for I257]. *)
Definition sub (self other : I257) : I257 :=
  if negb (Bool.eqb (is_negative self) (is_negative other)) then
    mkI257 (saturating_add 256 (value self) (value other)) (is_negative self)
  else if abs_value self >? abs_value other then
    mkI257 (wrapping 256 (value self - value other)) (is_negative self)
  else
    mkI257 (wrapping 256 (value other - value self)) (negb (is_negative self)).

(** The integer an [I257] stands for. *)
Definition to_Z (x : I257) : Z := if is_negative x then - value x else value x.

Definition wf (x : I257) : Prop := in_range 256 (value x).

(** Saturation to the representable interval [[-(2^256-1), 2^256-1]]. *)
Definition clamp (z : Z) : Z := Z.max (- U256_MAX) (Z.min z U256_MAX).

Lemma add_wf (x y : I257) : wf x -> wf y -> wf (add x y).
Proof.
  unfold wf, add, in_range, saturating_add, uint_max, wrapping. intros Hx Hy.
  repeat case_match; simpl; try (pose proof (Z.mod_pos_bound (value y - value x) (2 ^ 256)));
    try (pose proof (Z.mod_pos_bound (value x - value y) (2 ^ 256))); lia.
Qed.

Lemma sub_wf (x y : I257) : wf x -> wf y -> wf (sub x y).
Proof.
  unfold wf, sub, in_range, saturating_add, uint_max, wrapping. intros Hx Hy.
  repeat case_match; simpl; try (pose proof (Z.mod_pos_bound (value y - value x) (2 ^ 256)));
    try (pose proof (Z.mod_pos_bound (value x - value y) (2 ^ 256))); lia.
Qed.

(** The magnitudes are subtracted smaller from larger, so the wrap-around of
    [U256] subtraction never shows. *)
Lemma wrapping_sub_exact (a b : Z) :
  in_range 256 a -> 0 <= b <= a -> wrapping 256 (a - b) = a - b.
Proof. unfold in_range, wrapping. intros. apply Z.mod_small. lia. Qed.

Lemma add_to_Z (x y : I257) :
  wf x -> wf y -> to_Z (add x y) = clamp (to_Z x + to_Z y).
Proof.
  destruct x as [a s], y as [b t]. unfold wf, add, abs_value; simpl. intros Ha Hb.
  pose proof (wrapping_sub_exact a b Ha). pose proof (wrapping_sub_exact b a Hb).
  unfold in_range in Ha, Hb. unfold to_Z, clamp, saturating_add, U256_MAX, uint_max.
  destruct s, t; simpl; try (destruct (Z.gtb_spec a b)); simpl; lia.
Qed.

Lemma sub_to_Z (x y : I257) :
  wf x -> wf y -> to_Z (sub x y) = clamp (to_Z x - to_Z y).
Proof.
  destruct x as [a s], y as [b t]. unfold wf, sub, abs_value; simpl. intros Ha Hb.
  pose proof (wrapping_sub_exact a b Ha). pose proof (wrapping_sub_exact b a Hb).
  unfold in_range in Ha, Hb. unfold to_Z, clamp, saturating_add, U256_MAX, uint_max.
  destruct s, t; simpl; try (destruct (Z.gtb_spec a b)); simpl; lia.
Qed.

Lemma from_U256_to_Z (v : Z) : to_Z (from_U256 v) = v.
Proof. done. Qed.

Lemma abs_value_to_Z (x : I257) : wf x -> abs_value x = Z.abs (to_Z x).
Proof. unfold wf, in_range, abs_value, to_Z. case_match; lia. Qed.

(** C33. [I257] arithmetic is integer arithmetic: on well-formed values [+] and [-] give the
    exact sum and difference, saturated at plus and minus the largest [U256], and
    never a malformed value; the wrapping subtraction of magnitudes inside never
    wraps. *)
Theorem arithmetic_exact (x y : I257) (Hx : wf x) (Hy : wf y) :
  wf (add x y) /\ to_Z (add x y) = clamp (to_Z x + to_Z y) /\
  wf (sub x y) /\ to_Z (sub x y) = clamp (to_Z x - to_Z y).
Proof. auto using add_wf, add_to_Z, sub_wf, sub_to_Z. Qed.

Lemma arithmetic_exact_witness : to_Z (add (mkI257 5 false) (mkI257 7 true)) = -2.
Proof.
  destruct (arithmetic_exact (mkI257 5 false) (mkI257 7 true)) as (_ & Hadd & _).
  - split; [discriminate|reflexivity].
  - split; [discriminate|reflexivity].
  - exact Hadd.
Defined.

End I257.

(** ** Saturating conversions (lib.rs)

    [as_limbs] is the little-endian limb view of the [U256] type of the [ruint]
    crate; the macros only use that the four 64-bit limbs make up the value. *)

Module Saturated.
Section Saturated.
Context (as_limbs : Z -> Z * Z * Z * Z).

Definition limbs_spec : Prop :=
  forall v, in_range 256 v ->
  let '(x0, x1, x2, x3) := as_limbs v in
  in_range 64 x0 /\ in_range 64 x1 /\ in_range 64 x2 /\ in_range 64 x3 /\
  v = x0 + 2 ^ 64 * x1 + 2 ^ 128 * x2 + 2 ^ 192 * x3.

(** [as_u64_saturated!]. *)
Definition as_u64_saturated (v : Z) : Z :=
  let '(x0, x1, x2, x3) := as_limbs v in
  if (x1 =? 0) && (x2 =? 0) && (x3 =? 0) then x0 else u64_MAX.

(** [as_usize_saturated!] on a 64-bit target, where [usize::try_from(u64)]
    always succeeds. *)
Definition as_usize_saturated (v : Z) : Z := as_u64_saturated v.

(** [as_isize_saturated!] on a 64-bit target: [isize::try_from] fails above
    [isize::MAX]. *)
Definition as_isize_saturated (v : Z) : Z :=
  let x := as_u64_saturated v in
  if x <=? uint_max 63 then x else uint_max 63.

Lemma as_u64_saturated_min (v : Z) :
  limbs_spec -> in_range 256 v -> as_u64_saturated v = Z.min v u64_MAX.
Proof.
  intros Hl Hv. specialize (Hl v Hv). unfold as_u64_saturated.
  destruct (as_limbs v) as [[[x0 x1] x2] x3].
  destruct Hl as (H0 & H1 & H2 & H3 & ->). unfold in_range, u64_MAX, uint_max in *.
  destruct (Z.eqb_spec x1 0), (Z.eqb_spec x2 0), (Z.eqb_spec x3 0); simpl; subst; lia.
Qed.

Lemma as_isize_saturated_min (v : Z) :
  limbs_spec -> in_range 256 v -> as_isize_saturated v = Z.min v (uint_max 63).
Proof.
  intros Hl Hv. unfold as_isize_saturated. rewrite as_u64_saturated_min by done.
  unfold u64_MAX, uint_max. case_match; lia.
Qed.

End Saturated.

(** The limb view written out, for concrete evaluation. *)
Definition limbs_of (v : Z) : Z * Z * Z * Z :=
  (v mod 2 ^ 64, (v / 2 ^ 64) mod 2 ^ 64, (v / 2 ^ 128) mod 2 ^ 64, v / 2 ^ 192).

Lemma limbs_of_spec : limbs_spec limbs_of.
Proof.
  intros v Hv. unfold limbs_of, in_range in *.
  pose proof (Z.mod_pos_bound v (2 ^ 64)). pose proof (Z.mod_pos_bound (v / 2 ^ 64) (2 ^ 64)).
  pose proof (Z.mod_pos_bound (v / 2 ^ 128) (2 ^ 64)).
  replace (2 ^ 128) with (2 ^ 64 * 2 ^ 64) in * by done.
  replace (2 ^ 192) with (2 ^ 64 * 2 ^ 64 * 2 ^ 64) in * by done.
  rewrite <- !Z.div_div in * by done.
  pose proof (Z.div_mod v (2 ^ 64) ltac:(done)).
  pose proof (Z.div_mod (v / 2 ^ 64) (2 ^ 64) ltac:(done)).
  pose proof (Z.div_mod (v / 2 ^ 64 / 2 ^ 64) (2 ^ 64) ltac:(done)).
  split_and!; try lia.
Qed.

End Saturated.

(** ** Hashers (lib.rs)

    [SuffixHasher] and [IdentityHasher] as the [u64] they accumulate; a call on
    an input they do not support panics. *)

Module Hashers.

(** [u64::from_be_bytes] and its n-byte generalisation. *)
Definition from_be_bytes (bs : list Z) : Z := foldl (fun acc b => 256 * acc + b) 0 bs.

(** [SuffixHasher::write]: [bytes[bytes.len() - 8..]] panics on fewer than
    eight bytes. *)
Definition SuffixHasher_write (bytes : list Z) : M Z unit :=
  if (length bytes <? 8)%nat then panic
  else modify (fun _ => from_be_bytes (drop (length bytes - 8) bytes)).

Definition SuffixHasher_finish : M Z Z := get.

(** [IdentityHasher]: only the integer writes are supported. *)
Definition IdentityHasher_write_u64 (id : Z) : M Z unit := modify (fun _ => id).
Definition IdentityHasher_write_usize (id : nat) : M Z unit := modify (fun _ => Z.of_nat id).
Definition IdentityHasher_write (bytes : list Z) : M Z unit := panic.
Definition IdentityHasher_finish : M Z Z := get.

Lemma foldl_be_app (bs cs : list Z) (acc : Z) :
  foldl (fun a b => 256 * a + b) acc (bs ++ cs) =
  foldl (fun a b => 256 * a + b) (foldl (fun a b => 256 * a + b) acc bs) cs.
Proof. by rewrite foldl_app. Qed.

Lemma foldl_be_acc (cs : list Z) (acc : Z) :
  foldl (fun a b => 256 * a + b) acc cs =
  acc * 256 ^ Z.of_nat (length cs) + from_be_bytes cs.
Proof.
  unfold from_be_bytes. revert acc. induction cs as [|c cs IH]; intros acc; simpl; [lia|].
  rewrite IH, (IH (256 * 0 + c)). rewrite Nat2Z.inj_succ, Z.pow_succ_r by lia. ring.
Qed.

Lemma from_be_bytes_range (cs : list Z) :
  Forall (in_range 8) cs -> 0 <= from_be_bytes cs < 256 ^ Z.of_nat (length cs).
Proof.
  induction 1 as [|c cs Hc _ IH]; [done|]. unfold from_be_bytes. cbn [foldl].
  rewrite foldl_be_acc. cbn [length]. rewrite Nat2Z.inj_succ, Z.pow_succ_r by lia.
  unfold in_range in Hc. change (2 ^ 8) with 256 in Hc. nia.
Qed.

(** A hash of [n >= 8] bytes is the number they spell in base 256 reduced
    modulo 2^64. *)
Lemma SuffixHasher_write_mod (bytes : list Z) (h : Z) :
  Forall (in_range 8) bytes -> (8 <= length bytes)%nat ->
  SuffixHasher_write bytes h = Return (tt, from_be_bytes bytes mod 2 ^ 64).
Proof.
  intros Hb Hlen. unfold SuffixHasher_write.
  destruct (Nat.ltb_spec (length bytes) 8); [lia|]. unfold modify. do 2 f_equal.
  rewrite <- (take_drop (length bytes - 8) bytes) at 3.
  unfold from_be_bytes at 2. rewrite foldl_be_app, foldl_be_acc.
  rewrite length_drop. replace (length bytes - (length bytes - 8))%nat with 8%nat by lia.
  change (256 ^ Z.of_nat 8) with (2 ^ 64).
  rewrite Z.add_comm, Z.mod_add by done. rewrite Z.mod_small; [done|].
  assert (Hd : Forall (in_range 8) (drop (length bytes - 8) bytes)) by by apply Forall_drop.
  apply from_be_bytes_range in Hd. rewrite length_drop in Hd.
  replace (length bytes - (length bytes - 8))%nat with 8%nat in Hd by lia. exact Hd.
Qed.

End Hashers.
