(* ===== verification/Types.v ===== *)
(** * Shared data types of the executor (crates/pe/src/types.rs, lib.rs)

    Locations, versions, statuses and tasks, the flag set of a finished
    execution, and the packing of a [TxStatus] into an atomic word. The types of
    the EVM ([revm]) that flow through the executor are parameters, collected in
    the class [Revm]. *)

From S2P Require Import Prelude.
Local Open Scope Z_scope.

(** ** External types of the EVM *)

(** What the executor needs of [revm]'s types without looking inside: code, the
    hash of the empty code, account statuses, fork identifiers, the parts of a
    transaction it only passes on, and the [FxHasher] behind
    [hash_deterministic]. *)
Class Revm : Type := {
  Bytecode : Type;
  Bytecode_default : Bytecode;
  KECCAK_EMPTY : Z;
  (** [AccountInfo::default()] and [AccountInfo::is_empty], on balance, nonce and
      code hash. *)
  default_code_hash : Z;
  default_code : option Bytecode;
  is_empty_code_hash : Z -> bool;
  info_is_empty : Z -> Z -> Z -> bool;
  (** [AccountStatus] and its tests. *)
  AccountStatus : Type;
  Status_Touched : AccountStatus;
  status_selfdestructed : AccountStatus -> bool;
  status_touched : AccountStatus -> bool;
  (** The fields of [Account] the executor does not look at. *)
  AccountRest : Type;
  AccountRest_default : AccountRest;
  SpecId : Type;
  is_enabled_in : SpecId -> SpecId -> bool;
  SPURIOUS_DRAGON : SpecId;
  LONDON : SpecId;
  InvalidHeader : Type;
  InvalidTransactionRest : Type;
  TxRest : Type;
  Log : Type;
  HaltReason : Type;
}.

(** ** Locations and values (types.rs) *)

(** [Address], [B256], [U256] and [u64] values are integers of [Z]. *)
Abbreviation Address := Z (only parsing).
Abbreviation LocationHash := Z (only parsing).

Inductive Location : Type :=
| Loc_Basic (a : Address)
| Loc_CodeHash (a : Address)
| Loc_Storage (a : Address) (slot : Z).

#[export] Instance Location_eq_dec : EqDecision Location.
Proof. solve_decision. Defined.

(** [revm::state::AccountInfo]. *)
Record AccountInfo `{Revm} : Type := mkAccountInfo {
  ai_balance : Z;
  ai_nonce : Z;
  ai_code_hash : Z;
  ai_code : option Bytecode;
}.

Arguments mkAccountInfo {_} _ _ _ _.

(** [AccountInfo::default()]. *)
Definition AccountInfo_default `{Revm} : AccountInfo :=
  mkAccountInfo 0 0 default_code_hash default_code.

Inductive LocationValue `{Revm} : Type :=
| LV_Basic (info : AccountInfo)
| LV_CodeHash (h : Z)
| LV_Storage (v : Z)
| LV_LazyRecipient (addition : Z)
| LV_LazySender (subtraction : Z)
| LV_SelfDestructed.

Abbreviation TxIdx := nat (only parsing).
Abbreviation TxIncarnation := nat (only parsing).

Inductive Entry `{Revm} : Type :=
| Data (incarnation : TxIncarnation) (v : LocationValue)
| Estimate.

(** [AccountMeta]: the balance and nonce read, tagged by whether the account
    has code. *)
Inductive AccountMeta : Type :=
| CA (balance nonce : Z)
| EOA (balance nonce : Z).

#[export] Instance AccountMeta_eq_dec : EqDecision AccountMeta.
Proof. solve_decision. Defined.

Definition meta_balance (m : AccountMeta) : Z :=
  match m with CA b _ => b | EOA b _ => b end.

Definition meta_nonce (m : AccountMeta) : Z :=
  match m with CA _ n => n | EOA _ n => n end.

(** ** Versions, origins, statuses, tasks *)

Inductive IncarnationStatus : Type :=
| ReadyToExecute
| Executing
| Executed
| Validated
| Aborted.

#[export] Instance IncarnationStatus_eq_dec : EqDecision IncarnationStatus.
Proof. solve_decision. Defined.

Record TxStatus : Type := mkTxStatus {
  incarnation : TxIncarnation;
  status : IncarnationStatus;
}.

#[export] Instance TxStatus_eq_dec : EqDecision TxStatus.
Proof. solve_decision. Defined.

Record TxVersion : Type := mkTxVersion {
  tx_idx : TxIdx;
  tx_incarnation : TxIncarnation;
}.

#[export] Instance TxVersion_eq_dec : EqDecision TxVersion.
Proof. solve_decision. Defined.

Inductive ReadOrigin : Type :=
| Origin_MvMemory (v : TxVersion)
| Origin_Storage.

#[export] Instance ReadOrigin_eq_dec : EqDecision ReadOrigin.
Proof. solve_decision. Defined.

Inductive Task : Type :=
| Execution (v : TxVersion)
| Validation (v : TxVersion).

#[export] Instance Task_eq_dec : EqDecision Task.
Proof. solve_decision. Defined.

Abbreviation ReadOrigins := (list ReadOrigin) (only parsing).
Abbreviation ReadSet := (gmap Z (list ReadOrigin)) (only parsing).
Abbreviation WriteSet := (gmap Z LocationValue) (only parsing).

Record ReadWriteSet : Type := mkReadWriteSet {
  rw_read : gmap Z (list ReadOrigin);
  rw_write : list LocationHash;
}.

(** ** [FinishExecFlags] (lib.rs)

    The [bitflags!] set as its [u8]; [contains] tests that all bits of the
    argument are present. *)

Abbreviation FinishExecFlags := Z (only parsing).
Definition NeedValidation : FinishExecFlags := 0.
Definition WroteNewLocation : FinishExecFlags := 1.
Definition flags_empty : FinishExecFlags := 0.
Definition flags_contains (self other : FinishExecFlags) : bool := Z.land self other =? other.
Definition flags_union (self other : FinishExecFlags) : FinishExecFlags := Z.lor self other.

(** [NeedValidation] has no bits, so every flag set contains it. *)
Lemma contains_NeedValidation (f : FinishExecFlags) : flags_contains f NeedValidation = true.
Proof. unfold flags_contains, NeedValidation. by rewrite Z.land_0_r. Qed.

(** ** Packing a status into a machine word (types.rs) *)

Definition status_code (s : IncarnationStatus) : Z :=
  match s with
  | ReadyToExecute => 0
  | Executing => 1
  | Executed => 2
  | Validated => 3
  | Aborted => 4
  end.

(** [impl From<usize> for TxStatus]. *)
Definition TxStatus_from_usize (value : Z) : TxStatus :=
  mkTxStatus
    (Z.to_nat (Z.shiftr value 8))
    (let c := Z.land value 255 in
     if c =? 0 then ReadyToExecute
     else if c =? 1 then Executing
     else if c =? 2 then Executed
     else if c =? 3 then Validated
     else Aborted).

(** [impl From<TxStatus> for usize]: the shift drops the bits beyond 64. *)
Definition usize_from_TxStatus (val : TxStatus) : Z :=
  Z.lor (wrapping 64 (Z.shiftl (Z.of_nat (incarnation val)) 8)) (status_code (status val)).

Lemma status_code_range (s : IncarnationStatus) : 0 <= status_code s < 5.
Proof. destruct s; simpl; lia. Qed.

Lemma usize_from_TxStatus_eq (s : TxStatus) :
  usize_from_TxStatus s =
  (Z.of_nat (incarnation s) mod 2 ^ 56) * 2 ^ 8 + status_code (status s).
Proof.
  unfold usize_from_TxStatus, wrapping. rewrite Z.shiftl_mul_pow2 by lia.
  change (2 ^ 64) with (2 ^ 56 * 2 ^ 8). rewrite Z.mul_mod_distr_r by done.
  rewrite <- Z.shiftl_mul_pow2 by lia.
  pose proof (status_code_range (status s)) as Hc.
  rewrite Z.add_nocarry_lxor, Z.lxor_lor; try done.
  all: apply Z.bits_inj'; intros n Hn; rewrite Z.land_spec, Z.bits_0, Z.shiftl_spec by done;
    destruct (decide (n < 8)); [rewrite (Z.testbit_neg_r _ (n - 8)) by lia; done|];
    apply andb_false_iff; right;
    rewrite <- (Z.mod_small (status_code (status s)) (2 ^ 8)) by lia;
    apply Z.mod_pow2_bits_high; lia.
Qed.

Lemma TxStatus_unpack (i : Z) (s : IncarnationStatus) :
  0 <= i -> TxStatus_from_usize (i * 2 ^ 8 + status_code s) = mkTxStatus (Z.to_nat i) s.
Proof.
  intros Hi. pose proof (status_code_range s) as Hc. unfold TxStatus_from_usize.
  rewrite Z.shiftr_div_pow2, Z.div_add_l, (Z.div_small (status_code s)) by lia.
  change 255 with (Z.ones 8). rewrite Z.land_ones by lia.
  rewrite (Z.add_comm (i * 2 ^ 8)), Z.mod_add, Z.mod_small by lia.
  rewrite Z.add_0_r. f_equal. destruct s; reflexivity.
Qed.

Lemma TxStatus_usize_roundtrip (s : TxStatus) :
  TxStatus_from_usize (usize_from_TxStatus s) =
  mkTxStatus (Z.to_nat (Z.of_nat (incarnation s) mod 2 ^ 56)) (status s).
Proof.
  rewrite usize_from_TxStatus_eq. apply TxStatus_unpack.
  apply Z.mod_pos_bound. done.
Qed.

(** ** [AtomicWrapper<T>] (types.rs)

    A cell of [T] kept in an [AtomicUsize]. The conversions are the class
    [UsizeCodec]; [codec_valid] is the set of values that survive the round
    trip. *)

Class UsizeCodec (T : Type) : Type := {
  into_usize : T -> Z;
  from_usize : Z -> T;
  codec_valid : T -> Prop;
  codec_roundtrip : forall t, codec_valid t -> from_usize (into_usize t) = t;
}.

Module AtomicWrapper.
Section AtomicWrapper.
Context {T : Type} `{UsizeCodec T}.

Definition new (v : T) : Z := into_usize v.

Definition load : M Z T := gets from_usize.

Definition store (v : T) : M Z unit := modify (fun _ => into_usize v).

Definition swap (v : T) : M Z T :=
  fun inner => Return (from_usize inner, into_usize v).

(** [compare_exchange] compares the packed words. *)
Definition compare_exchange (current new : T) : M Z (result T T) :=
  fun inner =>
    if inner =? into_usize current
    then Return (Ok (from_usize inner), into_usize new)
    else Return (Err (from_usize inner), inner).

(** The operations and their replies, and the cell of [T] they promise. *)
Inductive command : Type :=
| Load
| Store (v : T)
| Swap (v : T)
| CompareExchange (current new : T).

Inductive reply : Type :=
| RValue (v : T)
| RUnit
| RCas (r : result T T).

Definition run (c : command) : M Z reply :=
  match c with
  | Load => v ← load; mret (RValue v)
  | Store v => _ ← store v; mret RUnit
  | Swap v => w ← swap v; mret (RValue w)
  | CompareExchange cur new => r ← compare_exchange cur new; mret (RCas r)
  end.

Fixpoint run_all (cs : list command) : M Z (list reply) :=
  match cs with
  | [] => mret []
  | c :: cs' => r ← run c; rs ← run_all cs'; mret (r :: rs)
  end.

Definition spec_run `{EqDecision T} (c : command) (cell : T) : reply * T :=
  match c with
  | Load => (RValue cell, cell)
  | Store v => (RUnit, v)
  | Swap v => (RValue cell, v)
  | CompareExchange cur new =>
      if decide (cell = cur) then (RCas (Ok cell), new) else (RCas (Err cell), cell)
  end.

Fixpoint spec_run_all `{EqDecision T} (cs : list command) (cell : T) : list reply * T :=
  match cs with
  | [] => ([], cell)
  | c :: cs' =>
      let '(r, cell') := spec_run c cell in
      let '(rs, cell'') := spec_run_all cs' cell' in
      (r :: rs, cell'')
  end.

Definition command_valid (c : command) : Prop :=
  match c with
  | Load => True
  | Store v | Swap v => codec_valid v
  | CompareExchange cur new => codec_valid cur /\ codec_valid new
  end.

Lemma into_usize_inj (s t : T) :
  codec_valid s -> codec_valid t -> into_usize s = into_usize t -> s = t.
Proof.
  intros Hs Ht Heq. by rewrite <- (codec_roundtrip s Hs), <- (codec_roundtrip t Ht), Heq.
Qed.

Lemma run_spec_run `{EqDecision T} (c : command) (cell : T) :
  codec_valid cell -> command_valid c ->
  run c (into_usize cell) = Return ((spec_run c cell).1, into_usize (spec_run c cell).2)
  /\ codec_valid (spec_run c cell).2.
Proof.
  intros Hv Hc. pose proof (codec_roundtrip cell Hv) as Hrt.
  destruct c as [|v|v|cur new]; cbn in *;
    unfold mbind, M_bind, gets, modify, mret, M_ret; cbn; rewrite ?Hrt; try done.
  unfold compare_exchange. destruct Hc as [Hcur Hnew].
  destruct (Z.eqb_spec (into_usize cell) (into_usize cur)) as [E|E]; case_decide as D; cbn;
    rewrite ?Hrt; try done.
  - exfalso. apply D. by apply into_usize_inj.
  - by subst.
Qed.

Lemma run_all_spec `{EqDecision T} (cs : list command) (cell : T) :
  codec_valid cell -> Forall command_valid cs ->
  run_all cs (new cell) =
  Return ((spec_run_all cs cell).1, into_usize (spec_run_all cs cell).2).
Proof.
  unfold new. intros Hv Hcs. revert cell Hv. induction Hcs as [|c cs Hc _ IH]; intros cell Hv; [done|].
  destruct (run_spec_run c cell Hv Hc) as [Hr Hv']. specialize (IH _ Hv'). cbn.
  destruct (spec_run c cell) as [r cell']; cbn in *.
  run_with Hr. cbn in *. run_with IH.
  by destruct (spec_run_all cs cell').
Qed.

Lemma spec_run_all_valid `{EqDecision T} (cs : list command) (cell : T) :
  codec_valid cell -> Forall command_valid cs -> codec_valid (spec_run_all cs cell).2.
Proof.
  intros Hv Hcs. revert cell Hv. induction Hcs as [|c cs Hc _ IH]; intros cell Hv; [done|]. cbn.
  destruct (run_spec_run c cell Hv Hc) as [_ Hv']. destruct (spec_run c cell) as [r cell'].
  specialize (IH cell' Hv'). by destruct (spec_run_all cs cell').
Qed.

End AtomicWrapper.
Arguments command : clear implicits.
Arguments reply : clear implicits.
End AtomicWrapper.

Definition incarnation_fits (s : TxStatus) : Prop := Z.of_nat (incarnation s) < 2 ^ 56.

#[export] Program Instance TxStatus_codec : UsizeCodec TxStatus := {|
  into_usize := usize_from_TxStatus;
  from_usize := TxStatus_from_usize;
  codec_valid := incarnation_fits;
|}.
Next Obligation.
  intros [i s] Hi. unfold incarnation_fits in Hi; simpl in Hi.
  rewrite TxStatus_usize_roundtrip; simpl. rewrite Z.mod_small, Nat2Z.id by lia. done.
Qed.

(** An [AtomicWrapper<TxStatus>] is an atomic cell of statuses: any sequence of loads,
    stores, swaps and compare-exchanges on the packed word gives the replies, and
    ends with the value, of a plain cell, as long as incarnations stay below 2^56,
    where the packing loses their high bits. *)
Lemma atomic_status_cell (cs : list (AtomicWrapper.command TxStatus)) (s : TxStatus)
    (Hs : incarnation_fits s) (Hcs : Forall AtomicWrapper.command_valid cs) :
  AtomicWrapper.run_all cs (AtomicWrapper.new s) =
  Return ((AtomicWrapper.spec_run_all cs s).1, usize_from_TxStatus (AtomicWrapper.spec_run_all cs s).2) /\
  TxStatus_from_usize (usize_from_TxStatus (AtomicWrapper.spec_run_all cs s).2) =
    (AtomicWrapper.spec_run_all cs s).2.
Proof.
  split; [exact (AtomicWrapper.run_all_spec cs s Hs Hcs)|].
  exact (codec_roundtrip _ (AtomicWrapper.spec_run_all_valid cs s Hs Hcs)).
Qed.

Lemma atomic_status_cell_witness :
  AtomicWrapper.run_all
    [AtomicWrapper.CompareExchange (mkTxStatus 3 Executing) (mkTxStatus 3 Executed); AtomicWrapper.Load]
    (AtomicWrapper.new (mkTxStatus 3 Executing)) =
  Return ([AtomicWrapper.RCas (Ok (mkTxStatus 3 Executing)); AtomicWrapper.RValue (mkTxStatus 3 Executed)],
          3 * 2 ^ 8 + 2).
Proof.
  apply (atomic_status_cell
    [AtomicWrapper.CompareExchange (mkTxStatus 3 Executing) (mkTxStatus 3 Executed); AtomicWrapper.Load]
    (mkTxStatus 3 Executing)).
  - reflexivity.
  - repeat constructor.
Defined.

(** A concrete choice of the external types, for examples. *)
Definition example_revm : Revm := {|
  Bytecode := Z; Bytecode_default := 0; KECCAK_EMPTY := 0;
  default_code_hash := 0; default_code := None;
  is_empty_code_hash := fun h => h =? 0;
  info_is_empty := fun b n h => (b =? 0) && (n =? 0) && (h =? 0);
  AccountStatus := bool * bool; Status_Touched := (false, true);
  status_selfdestructed := fst; status_touched := snd;
  AccountRest := unit; AccountRest_default := tt;
  SpecId := nat; is_enabled_in := fun a b => Nat.leb b a; SPURIOUS_DRAGON := 4%nat; LONDON := 12%nat;
  InvalidHeader := unit; InvalidTransactionRest := unit; TxRest := unit; Log := unit;
  HaltReason := unit;
|}.
