(* ===== verification/Results.v ===== *)
(** * Results, errors and the EVM boundary (crates/pe/src/result.rs)

    The error types of the executor and their conversions, the result of a
    transaction, and the data the executor exchanges with the EVM: accounts,
    transactions, environments.

    The EVM itself is external. A transaction's execution is a finite program
    [Prog] of database reads that ends in a result: whatever it does depends on
    the environment, the transaction and the answers of the database only, and a
    database error ends it with [EVMError::Database]. *)

From Stdlib Require Import String.
From S2P Require Import Prelude Types.
Local Open Scope Z_scope.

(** ** Accounts, transactions, environments *)

(** [EvmStorageSlot]. *)
Record StorageSlot : Type := mkStorageSlot {
  original_value : Z;
  present_value : Z;
}.

Record Account `{Revm} : Type := mkAccount {
  info : AccountInfo;
  storage : gmap Z StorageSlot;
  status_ : AccountStatus;
  account_rest : AccountRest;
}.

Abbreviation EvmState := (gmap Z Account) (only parsing).

Inductive TxKind : Type :=
| Call (to : Address)
| Create.

Definition kind_to (k : TxKind) : option Address :=
  match k with Call to => Some to | Create => None end.

Record TxEnv `{Revm} : Type := mkTxEnv {
  caller : Address;
  kind : TxKind;
  nonce : Z;
  value : Z;
  gas_limit : Z;
  gas_price : Z;
  gas_priority_fee : option Z;
  total_blob_gas : Z;
  max_fee_per_blob_gas : Z;
  tx_type : Z;
  tx_rest : TxRest;
}.

(** The parts of [EvmEnv] the executor reads. *)
Record EvmEnv `{Revm} : Type := mkEvmEnv {
  beneficiary : Address;
  basefee : Z;
  spec : SpecId;
}.

(** [ExecutionResult], with the three accessors used of it. *)
Inductive ExecutionResult `{Revm} : Type :=
| Success (gas_used : Z) (logs : list Log)
| Revert (gas_used : Z)
| Halt (reason : HaltReason) (gas_used : Z).

Arguments mkAccount {_} _ _ _ _.
Arguments mkTxEnv {_} _ _ _ _ _ _ _ _ _ _ _.
Arguments mkEvmEnv {_} _ _ _.

Section Results.
Context `{Revm}.

Definition is_success (r : ExecutionResult) : bool :=
  match r with Success _ _ => true | _ => false end.
Definition result_gas_used (r : ExecutionResult) : Z :=
  match r with Success g _ => g | Revert g => g | Halt _ g => g end.
Definition into_logs (r : ExecutionResult) : list Log :=
  match r with Success _ l => l | _ => [] end.

(** ** Errors *)

Inductive ReadError : Type :=
| StorageError (msg : string)
| Blocking (blocking_tx_idx : TxIdx)
| InconsistentRead
| NonceTooHigh (tx state : Z)
| NonceTooLow (tx state : Z)
| SelfDestructedAccount
| InvalidValueType.

(** [InvalidTransaction]: the variants the executor distinguishes. *)
Inductive InvalidTransaction : Type :=
| IT_NonceTooHigh (tx state : Z)
| IT_NonceTooLow (tx state : Z)
| IT_LackOfFundForMaxFee (fee balance : Z)
| IT_Other (e : InvalidTransactionRest).

Inductive EVMError (DBErr : Type) : Type :=
| EE_Transaction (e : InvalidTransaction)
| EE_Header (e : InvalidHeader)
| EE_Custom (msg : string)
| EE_Database (e : DBErr).

Definition ExecutionError : Type := EVMError ReadError.

Inductive VmExecutionError : Type :=
| VE_Retry
| VE_FallbackToSequential
| VE_Blocking (blocking_tx_idx : TxIdx)
| VE_ExecutionError (e : ExecutionError).

(** [impl From<ReadError> for VmExecutionError]. *)
Definition VmExecutionError_from (err : ReadError) : VmExecutionError :=
  match err with
  | InconsistentRead => VE_Retry
  | SelfDestructedAccount => VE_FallbackToSequential
  | Blocking tx_idx => VE_Blocking tx_idx
  | NonceTooHigh tx state => VE_ExecutionError (EE_Transaction _ (IT_NonceTooHigh tx state))
  | NonceTooLow tx state => VE_ExecutionError (EE_Transaction _ (IT_NonceTooLow tx state))
  | StorageError _ | InvalidValueType => VE_ExecutionError (EE_Database _ err)
  end.

Inductive ParallelExecutorError : Type :=
| PE_NonceMismatch (tx_idx : TxIdx) (tx_nonce executed_nonce : Z)
| PE_StorageError (msg : string)
| PE_ExecutionError (e : ExecutionError)
| PE_UnreachableError.

Inductive AbortReason : Type :=
| AR_FallbackToSequential
| AR_ExecutionError (e : ExecutionError).

(** [evm_err_to_exec_error]; [to_string] prints the database's errors. *)
Definition evm_err_to_exec_error {DBErr : Type} (to_string : DBErr -> string) (err : EVMError DBErr) :
    ParallelExecutorError :=
  match err with
  | EE_Transaction _ e => PE_ExecutionError (EE_Transaction _ e)
  | EE_Header _ e => PE_ExecutionError (EE_Header _ e)
  | EE_Custom _ msg => PE_ExecutionError (EE_Custom _ msg)
  | EE_Database _ e => PE_ExecutionError (EE_Custom _ (to_string e))
  end.

(** [OpTransactionError] and [op_evm_err_to_exec_error]. *)
Inductive OpTransactionError : Type :=
| Op_Base (e : InvalidTransaction)
| Op_DepositSystemTxPostRegolith
| Op_HaltedDepositPostRegolith
| Op_MissingEnvelopedTx.

Inductive OpEVMError (DBErr : Type) : Type :=
| OE_Transaction (e : OpTransactionError)
| OE_Header (e : InvalidHeader)
| OE_Custom (msg : string)
| OE_Database (e : DBErr).

Definition op_evm_err_to_exec_error {DBErr : Type} (to_string : DBErr -> string)
    (err : OpEVMError DBErr) : ParallelExecutorError :=
  match err with
  | OE_Transaction _ e =>
      match e with
      | Op_Base e => PE_ExecutionError (EE_Transaction _ e)
      | Op_DepositSystemTxPostRegolith => PE_ExecutionError (EE_Custom _ "DepositSystemTxPostRegolith")
      | Op_HaltedDepositPostRegolith => PE_ExecutionError (EE_Custom _ "HaltedDepositPostRegolith")
      | Op_MissingEnvelopedTx => PE_ExecutionError (EE_Custom _ "MissingEnvelopedTx")
      end
  | OE_Header _ e => PE_ExecutionError (EE_Header _ e)
  | OE_Custom _ msg => PE_ExecutionError (EE_Custom _ msg)
  | OE_Database _ e => PE_ExecutionError (EE_Custom _ (to_string e))
  end.

(** ** The result of a transaction *)

Record Receipt : Type := mkReceipt {
  receipt_tx_type : Z;
  success : bool;
  cumulative_gas_used : Z;
  receipt_logs : list Log;
}.

Record TxExecutionResult : Type := mkTxExecutionResult {
  receipt : Receipt;
  state : EvmState;
}.

Definition from_raw (tx_type : Z) (result : ExecutionResult) (state : EvmState) : TxExecutionResult :=
  mkTxExecutionResult
    (mkReceipt tx_type (is_success result) (result_gas_used result) (into_logs result)) state.

Definition from_raw_op (tx_type : Z) (result_and_state : ExecutionResult * EvmState) :
    TxExecutionResult :=
  let '(result, state) := result_and_state in
  mkTxExecutionResult
    (mkReceipt tx_type (is_success result) (result_gas_used result) (into_logs result)) state.

Record VmExecutionResult : Type := mkVmExecutionResult {
  execution_result : TxExecutionResult;
  flags : FinishExecFlags;
}.

(** ** The EVM as a program of database reads *)

(** [revm::Database]: what the EVM asks. *)
Inductive Prog (A : Type) : Type :=
| Ret (a : A)
| ReadBasic (address : Address) (k : option AccountInfo -> Prog A)
| ReadCode (code_hash : Z) (k : Bytecode -> Prog A)
| ReadStorage (address : Address) (index : Z) (k : Z -> Prog A)
| ReadBlockHash (number : Z) (k : Z -> Prog A).

(** [revm::DatabaseRef]: what the executor reads of the chain's state, with how
    its errors print. *)
Class DatabaseRef : Type := {
  DbError : Type;
  err_to_string : DbError -> string;
  basic_ref : Address -> result (option AccountInfo) DbError;
  code_by_hash_ref : Z -> result Bytecode DbError;
  storage_ref : Address -> Z -> result Z DbError;
  block_hash_ref : Z -> result Z DbError;
}.

(** What runs transactions: [evm_program] is a mainnet EVM (without the
    beneficiary's reward when [false]) for an environment and a transaction,
    [changed_storage_slots] the accessor of an account, [tx_type_try_from] the
    conversion of the type byte. *)
Class Evm : Type := {
  evm_program : bool -> EvmEnv -> TxEnv -> Prog (result (ExecutionResult * EvmState) (EVMError Empty_set));
  changed_storage_slots : Account -> list (Z * StorageSlot);
  tx_type_try_from : Z -> result Z string;
}.

Definition is_selfdestructed (a : Account) : bool := status_selfdestructed (status_ a).
Definition is_touched (a : Account) : bool := status_touched (status_ a).
Definition account_is_empty (a : Account) : bool :=
  info_is_empty (ai_balance (info a)) (ai_nonce (info a)) (ai_code_hash (info a)).

(** An error that does not come from the database, at any database. *)
Definition lift_error {E : Type} (e : EVMError Empty_set) : EVMError E :=
  match e with
  | EE_Transaction _ e => EE_Transaction _ e
  | EE_Header _ e => EE_Header _ e
  | EE_Custom _ msg => EE_Custom _ msg
  | EE_Database _ e => match e with end
  end.

End Results.

Arguments EE_Transaction {_ _} _.
Arguments EE_Header {_ _} _.
Arguments EE_Custom {_ _} _.
Arguments EE_Database {_ _} _.
Arguments OE_Transaction {_ _} _.
Arguments OE_Header {_ _} _.
Arguments OE_Custom {_ _} _.
Arguments OE_Database {_ _} _.
Arguments Ret {_ _} _.
Arguments ReadBasic {_ _} _ _.
Arguments ReadCode {_ _} _ _.
Arguments ReadStorage {_ _} _ _ _.
Arguments ReadBlockHash {_ _} _ _.
