(* ===== verification/MvMemory.v ===== *)
(** * The multi-version memory (crates/pe/src/mv_memory.rs)

    The memory as a record of maps, its methods as computations over it, and
    what they promise: [record] replaces exactly the entries of one transaction
    and reports exactly the writes to new locations, [validate_read_locations]
    decides whether re-reading would find the same origins.

    The [DashMap]s and [HashMap]s are finite maps. The order in which a hash map
    is iterated is not specified in Rust; here it is that of [map_to_list], and
    the theorems do not depend on it. [BTreeMap::range(..t)] walked from the back
    is the list [range_below]. An unchecked index out of range is [UB]. *)

From S2P Require Import Prelude Types.

Section MvMemory.
Context `{Revm}.

(** ** State *)

Record MvMemory : Type := mkMvMemory {
  data : gmap LocationHash (gmap TxIdx Entry);
  locations : list ReadWriteSet;
  lazy_addresses : gset Address;
  new_bytecodes : gmap Z Bytecode;
}.

Definition set_data (f : gmap LocationHash (gmap TxIdx Entry) -> gmap LocationHash (gmap TxIdx Entry))
    (m : MvMemory) : MvMemory :=
  mkMvMemory (f (data m)) (locations m) (lazy_addresses m) (new_bytecodes m).

(** The entries below [t], the closest first. *)
Definition range_below (m : gmap TxIdx Entry) (t : TxIdx) : list (TxIdx * Entry) :=
  omap (fun i => pair i <$> m !! i) (reverse (seq 0 t)).

(** ** Construction *)

Definition MvMemory_new (block_size : nat) (estimated_locations : gmap LocationHash (list TxIdx))
    (lazy : list Address) : MvMemory :=
  mkMvMemory
    ((fun idxs => list_to_map ((fun i => (i, Estimate)) <$> idxs)) <$> estimated_locations)
    (replicate block_size (mkReadWriteSet ∅ []))
    (list_to_set lazy)
    ∅.

Definition add_lazy_addresses (new_lazy_addresses : list Address) (m : MvMemory) : MvMemory :=
  mkMvMemory (data m) (locations m)
    (foldl (fun s a => {[ a ]} ∪ s) (lazy_addresses m) new_lazy_addresses) (new_bytecodes m).

Definition consume_lazy_addresses (m : MvMemory) : list Address :=
  elements (lazy_addresses m).

(** ** [record] *)

(** [Vec::swap_remove]. *)
Definition swap_remove {A : Type} (i : nat) (l : list A) : list A :=
  match list.last l with
  | Some x => <[i:=x]> (removelast l)
  | None => l
  end.

(** The [while] loop: drop the locations that are not written any more. *)
Fixpoint drop_stale (fuel : nat) (write_set : WriteSet) (tx : TxIdx) (location_idx : nat)
    (write : list LocationHash) (d : gmap LocationHash (gmap TxIdx Entry)) :
    list LocationHash * gmap LocationHash (gmap TxIdx Entry) :=
  match fuel with
  | O => (write, d)
  | S fuel' =>
      match write !! location_idx with
      | None => (write, d)
      | Some prev_location =>
          match write_set !! prev_location with
          | None =>
              drop_stale fuel' write_set tx location_idx (swap_remove location_idx write)
                (alter (delete tx) prev_location d)
          | Some _ => drop_stale fuel' write_set tx (location_idx + 1) write d
          end
      end
  end.

(** The [for] loop: enter the new values. *)
Definition enter_write (ver : TxVersion)
    (acc : gmap LocationHash (gmap TxIdx Entry) * list LocationHash * bool)
    (w : LocationHash * LocationValue) :
    gmap LocationHash (gmap TxIdx Entry) * list LocationHash * bool :=
  let '(d, write, wrote_new_location) := acc in
  let '(location, value) := w in
  let d' := <[location := <[tx_idx ver := Data (tx_incarnation ver) value]>
               (default ∅ (d !! location))]> d in
  if bool_decide (location ∈ write) then (d', write, wrote_new_location)
  else (d', write ++ [location], true).

Definition record (ver : TxVersion) (read_set : ReadSet) (write_set : WriteSet) : M MvMemory bool :=
  fun m =>
    match locations m !! tx_idx ver with
    | None => UB
    | Some locs =>
        let '(write, d) := drop_stale (length (rw_write locs)) write_set (tx_idx ver) 0 (rw_write locs) (data m) in
        let '(d', write', wrote_new_location) :=
          foldl (enter_write ver) (d, write, false) (map_to_list write_set) in
        Return (wrote_new_location,
          mkMvMemory d' (<[tx_idx ver := mkReadWriteSet read_set write']> (locations m))
            (lazy_addresses m) (new_bytecodes m))
    end.

(** ** [validate_read_locations] *)

(** The loop over the origins of one location, against the entries below. *)
Fixpoint match_origins (iter : list (TxIdx * Entry)) (prior_origins : list ReadOrigin) : bool :=
  match prior_origins with
  | [] => true
  | Origin_MvMemory prior_version :: rest =>
      match iter with
      | (closest_idx, Data inc _) :: iter' =>
          if (closest_idx =? tx_idx prior_version)%nat && (tx_incarnation prior_version =? inc)%nat
          then match_origins iter' rest else false
      | _ => false
      end
  | Origin_Storage :: rest =>
      match iter with
      | [] => match_origins [] rest
      | _ => false
      end
  end.

Definition validate_location (m : MvMemory) (tx : TxIdx) (location : LocationHash)
    (prior_origins : list ReadOrigin) : bool :=
  match data m !! location with
  | Some written_txs => match_origins (range_below written_txs tx) prior_origins
  | None => bool_decide (prior_origins = [Origin_Storage])
  end.

Definition validate_read_locations (tx : TxIdx) (m : MvMemory) : outcome bool :=
  match locations m !! tx with
  | None => UB
  | Some locs =>
      Return (forallb (fun '(location, os) => validate_location m tx location os)
                (map_to_list (rw_read locs)))
  end.

(** ** [convert_writes_to_estimates] *)

Definition convert_writes_to_estimates (tx : TxIdx) : M MvMemory unit := fun m =>
  match locations m !! tx with
  | None => UB
  | Some locs =>
      Return (tt, set_data (fun d =>
        foldl (fun d location => alter (fun written_txs => <[tx := Estimate]> written_txs) location d)
          d (rw_write locs)) m)
  end.

End MvMemory.

Section Rewards.
Context `{Revm}.

(** ** Reward policies and the initial memory *)

Inductive RewardPolicy : Type := Ethereum.

Inductive OpRewardPolicy : Type :=
| Optimism (l1_fee_recipient_location_hash base_fee_vault_location_hash : LocationHash).

Definition reward_policy : RewardPolicy := Ethereum.

(** [hash_deterministic] and the constants of [op_revm] are external. The former
    hashes any value that implements [Hash]: locations, and bare addresses. *)
Context (hash_deterministic : Location -> LocationHash) (hash_address : Address -> LocationHash).
Context (L1_FEE_RECIPIENT BASE_FEE_RECIPIENT : Address).

Definition op_reward_policy : OpRewardPolicy :=
  Optimism (hash_deterministic (Loc_Basic L1_FEE_RECIPIENT))
    (hash_deterministic (Loc_Basic BASE_FEE_RECIPIENT)).

Definition build_mv_memory (beneficiary : Address) (block_size : nat) : MvMemory :=
  MvMemory_new block_size
    {[ hash_deterministic (Loc_Basic beneficiary) := seq 0 block_size ]} [beneficiary].

(** [entry(k).or_insert_with(..).push(index)]. *)
Definition push_estimate (k : LocationHash) (index : TxIdx) (e : gmap LocationHash (list TxIdx)) :
    gmap LocationHash (list TxIdx) :=
  <[k := default [] (e !! k) ++ [index]]> e.

Definition build_op_mv_memory (beneficiary : Address) (block_size : nat) : MvMemory :=
  let estimated_locations :=
    foldl (fun e index =>
        push_estimate (hash_address BASE_FEE_RECIPIENT) index
          (push_estimate (hash_address L1_FEE_RECIPIENT) index e))
      ∅ (seq 0 block_size) in
  MvMemory_new block_size estimated_locations
    [beneficiary; L1_FEE_RECIPIENT; BASE_FEE_RECIPIENT].

End Rewards.

Section Theory.
Context `{Revm}.

(** ** Lemmas on the loops *)

Definition entry (m : MvMemory) (location : LocationHash) (t : TxIdx) : option Entry :=
  data m !! location ≫= (.!! t).

Definition entry_in (d : gmap LocationHash (gmap TxIdx Entry)) (location : LocationHash) (t : TxIdx) :
    option Entry :=
  d !! location ≫= (.!! t).

Lemma swap_remove_perm {A : Type} (i : nat) (l : list A) (x : A) :
  l !! i = Some x -> x :: swap_remove i l ≡ₚ l.
Proof.
  destruct l as [|y l _] using rev_ind; [done|]. unfold swap_remove.
  rewrite last_snoc, removelast_last. intros Hi.
  destruct (decide (i = length l)) as [->|Hne].
  - rewrite lookup_app_r in Hi by lia. rewrite Nat.sub_diag in Hi. injection Hi as ->.
    rewrite list_insert_ge by lia. by rewrite Permutation_cons_append.
  - assert (Hlt : i < length l) by (apply lookup_lt_Some in Hi; rewrite length_app in Hi; simpl in Hi; lia).
    rewrite lookup_app_l in Hi by done.
    apply list_elem_of_split_length in Hi as (l1 & l2 & -> & ->).
    rewrite insert_app_r_alt, Nat.sub_diag by lia. simpl.
    rewrite <- Permutation_cons_append, <- !Permutation_middle. by rewrite Permutation_swap.
Qed.

Lemma swap_remove_lookup_lt {A : Type} (i j : nat) (l : list A) :
  j < i -> i < length l -> swap_remove i l !! j = l !! j.
Proof.
  destruct l as [|y l _] using rev_ind; [simpl; lia|]. unfold swap_remove.
  rewrite last_snoc, removelast_last, length_app. simpl. intros Hj Hi.
  rewrite list_lookup_insert_ne by lia. by rewrite lookup_app_l by lia.
Qed.

(** The state of the loop: [write'] and [d'] are what remains of [write] and [d]
    once everything of [write] that is not in [ws] has been dropped. *)
Definition stale_dropped (ws : WriteSet) (tx : TxIdx) (write : list LocationHash)
    (d : gmap LocationHash (gmap TxIdx Entry))
    (r : list LocationHash * gmap LocationHash (gmap TxIdx Entry)) : Prop :=
  NoDup r.1 /\
  (forall x, x ∈ r.1 <-> x ∈ write /\ is_Some (ws !! x)) /\
  (forall x t, entry_in r.2 x t =
     if decide (x ∈ write /\ ws !! x = None /\ t = tx) then None else entry_in d x t).

Lemma stale_dropped_none (ws : WriteSet) (tx : TxIdx) (write : list LocationHash)
    (d : gmap LocationHash (gmap TxIdx Entry)) :
  NoDup write -> (forall x, x ∈ write -> is_Some (ws !! x)) -> stale_dropped ws tx write d (write, d).
Proof.
  intros Hnd Hall. split; [done|split]; simpl.
  - intros x. split; [|tauto]. intros Hx. split; [done|by apply Hall].
  - intros x t. case_decide as Hc; [|done]. destruct Hc as (Hx & Hn & _).
    destruct (Hall x Hx). congruence.
Qed.

Lemma stale_dropped_one (ws : WriteSet) (tx : TxIdx) (loc : LocationHash) (write write1 : list LocationHash)
    (d : gmap LocationHash (gmap TxIdx Entry)) (r : list LocationHash * gmap LocationHash (gmap TxIdx Entry)) :
  loc :: write1 ≡ₚ write -> ws !! loc = None ->
  stale_dropped ws tx write1 (alter (delete tx) loc d) r -> stale_dropped ws tx write d r.
Proof.
  intros Hp Hloc (H1 & H2 & H3).
  assert (Hin : forall x, x ∈ write <-> x = loc \/ x ∈ write1).
  { intros x. rewrite <- elem_of_cons. by rewrite Hp. }
  split; [done|split].
  - intros x. rewrite H2, Hin. split; [tauto|]. intros [[->|?] [? ?]]; [congruence|].
    split; [done|]. by eexists.
  - intros x t. rewrite H3. unfold entry_in. destruct (decide (x = loc)) as [->|Hne].
    + rewrite lookup_alter_eq. destruct (decide (t = tx)) as [->|Ht].
      * rewrite (decide_True (P := loc ∈ write /\ _)) by (rewrite Hin; tauto).
        case_decide; [done|]. destruct (d !! loc); simpl; [|done]. apply lookup_delete_eq.
      * rewrite !decide_False by tauto. destruct (d !! loc); simpl; [|done].
        by rewrite lookup_delete_ne by congruence.
    + rewrite lookup_alter_ne by congruence.
      rewrite (decide_ext _ (x ∈ write /\ ws !! x = None /\ t = tx)); [done|]. rewrite Hin. tauto.
Qed.

(** The loop visits every position: [length write] iterations are enough. *)
Lemma drop_stale_spec (ws : WriteSet) (tx : TxIdx) (fuel k : nat) (write : list LocationHash)
    (d : gmap LocationHash (gmap TxIdx Entry)) :
  NoDup write -> length write - k <= fuel ->
  (forall j x, j < k -> write !! j = Some x -> is_Some (ws !! x)) ->
  stale_dropped ws tx write d (drop_stale fuel ws tx k write d).
Proof.
  revert k write d. induction fuel as [|fuel IH]; intros k write d Hnd Hfuel Hpre.
  all: assert (Hend : length write <= k -> stale_dropped ws tx write d (write, d)) by
    (intros Hle; apply stale_dropped_none; [done|]; intros x Hx;
     apply list_elem_of_lookup in Hx as (j & Hj); eapply Hpre; [|done]; apply lookup_lt_Some in Hj; lia).
  - apply Hend. lia.
  - simpl. destruct (write !! k) as [loc|] eqn:Hk; [|apply Hend; by apply lookup_ge_None].
    assert (Hkl : k < length write) by (by eapply lookup_lt_Some).
    destruct (ws !! loc) as [v|] eqn:Hloc.
    + apply IH; [done|lia|]. intros j x Hj Hx.
      destruct (decide (j = k)) as [->|]; [|eapply Hpre; [|done]; lia].
      rewrite Hk in Hx. injection Hx as <-. by eexists.
    + pose proof (swap_remove_perm k write loc Hk) as Hp.
      assert (Hlen : length write = S (length (swap_remove k write)))
        by (rewrite <- (Permutation_length Hp); done).
      assert (Hnd' : NoDup (loc :: swap_remove k write)) by (by rewrite Hp).
      apply list.NoDup_cons in Hnd' as [Hnotin Hnd'].
      eapply stale_dropped_one; [exact Hp|done|]. apply IH; [done|lia|].
      intros j x Hj Hx. rewrite swap_remove_lookup_lt in Hx by done. by eapply Hpre.
Qed.

Lemma entry_insert (d : gmap LocationHash (gmap TxIdx Entry)) (loc x : LocationHash) (u t : TxIdx)
    (e : Entry) :
  entry_in (<[loc := <[u := e]> (default ∅ (d !! loc))]> d) x t =
  if decide (x = loc /\ t = u) then Some e else entry_in d x t.
Proof.
  unfold entry_in. destruct (decide (x = loc)) as [->|Hne].
  - rewrite lookup_insert_eq. simpl. destruct (decide (t = u)) as [->|Ht].
    + rewrite lookup_insert_eq. by rewrite decide_True.
    + rewrite lookup_insert_ne by congruence. rewrite decide_False by tauto. by destruct (d !! loc).
  - rewrite lookup_insert_ne by congruence. by rewrite decide_False by tauto.
Qed.

(** The second loop. *)
Lemma enter_writes_spec (ver : TxVersion) (kvs : list (LocationHash * LocationValue))
    (d : gmap LocationHash (gmap TxIdx Entry)) (write : list LocationHash) (b : bool) :
  NoDup kvs.*1 -> NoDup write ->
  let r := foldl (enter_write ver) (d, write, b) kvs in
  NoDup r.1.2 /\
  (forall x, x ∈ r.1.2 <-> x ∈ write \/ x ∈ kvs.*1) /\
  (forall x t, entry_in r.1.1 x t =
     match (list_to_map kvs : WriteSet) !! x with
     | Some v => if decide (t = tx_idx ver) then Some (Data (tx_incarnation ver) v) else entry_in d x t
     | None => entry_in d x t
     end) /\
  (r.2 = true <-> b = true \/ exists x, x ∈ kvs.*1 /\ x ∉ write).
Proof.
  revert d write b. induction kvs as [|[loc v] kvs IH]; intros d write b Hnd Hw; simpl.
  - split; [done|split; [|split]].
    + intros x. rewrite elem_of_nil. tauto.
    + intros x t. by rewrite lookup_empty.
    + split; [tauto|]. intros [?|(x & Hx & _)]; [done|by apply elem_of_nil in Hx].
  - cbn in Hnd. apply list.NoDup_cons in Hnd as [Hnotin Hnd].
    set (d1 := <[loc := _]> d).
    pose proof (fun x t => entry_insert d loc x (tx_idx ver) t (Data (tx_incarnation ver) v)) as Hd1. fold d1 in Hd1.
    set (w1 := if bool_decide (loc ∈ write) then write else write ++ [loc]).
    set (b1 := if bool_decide (loc ∈ write) then b else true).
    replace (if bool_decide (loc ∈ write) then (d1, write, b) else (d1, write ++ [loc], true))
      with (d1, w1, b1) by (unfold w1, b1; by case_bool_decide).
    assert (Hw1 : NoDup w1 /\ forall x, x ∈ w1 <-> x ∈ write \/ x = loc).
    { unfold w1. case_bool_decide as Hc; [split; [done|]; intros x; split; [tauto|]; by intros [?| ->]|].
      split; [|intros x; by rewrite elem_of_app, list_elem_of_singleton].
      apply list.NoDup_app. split; [done|split; [|apply NoDup_singleton]].
      intros x Hx Hl. apply list_elem_of_singleton in Hl as ->. done. }
    destruct Hw1 as [Hnd1 Hw1].
    destruct (IH d1 w1 b1 Hnd Hnd1) as (H1 & H2 & H3 & H4). split; [done|split; [|split]].
    + intros x. rewrite H2, Hw1, elem_of_cons. tauto.
    + intros x t. rewrite H3, Hd1. destruct (decide (x = loc)) as [->|Hne].
      * rewrite lookup_insert_eq, not_elem_of_list_to_map_1 by done.
        destruct (decide (t = tx_idx ver)); [by rewrite decide_True|by rewrite decide_False by tauto].
      * rewrite lookup_insert_ne by congruence. rewrite (decide_False (P := x = loc /\ _)) by tauto. done.
    + rewrite H4. unfold b1. case_bool_decide as Hc; split; intros Hx.
      * destruct Hx as [?|(x & Hx & Hn)]; [by left|right]. exists x. rewrite Hw1 in Hn.
        rewrite elem_of_cons. tauto.
      * destruct Hx as [?|(x & Hx & Hn)]; [by left|right]. exists x. rewrite Hw1.
        apply elem_of_cons in Hx as [->|Hx]; [done|]. split; [done|]. intros [?| ->]; done.
      * right. exists loc. by rewrite elem_of_cons; split; [left|].
      * by left.
Qed.

(** ** [record] *)

Lemma record_run (ver : TxVersion) (rs : ReadSet) (ws : WriteSet) (m : MvMemory)
    (locs : ReadWriteSet) :
  locations m !! tx_idx ver = Some locs -> NoDup (rw_write locs) ->
  exists wrote m' write',
    record ver rs ws m = Return (wrote, m') /\
    locations m' = <[tx_idx ver := mkReadWriteSet rs write']> (locations m) /\
    lazy_addresses m' = lazy_addresses m /\ new_bytecodes m' = new_bytecodes m /\
    NoDup write' /\ (forall x, x ∈ write' <-> is_Some (ws !! x)) /\
    (forall x t, entry m' x t =
       if decide (t = tx_idx ver) then
         match ws !! x with
         | Some v => Some (Data (tx_incarnation ver) v)
         | None => if decide (x ∈ rw_write locs) then None else entry m x t
         end
       else entry m x t) /\
    (wrote = true <-> exists x, is_Some (ws !! x) /\ x ∉ rw_write locs).
Proof.
  intros Hl Hnd. unfold record. rewrite Hl.
  pose proof (drop_stale_spec ws (tx_idx ver) (length (rw_write locs)) 0 (rw_write locs) (data m)
    Hnd ltac:(lia) ltac:(lia)) as (H1 & H2 & H3).
  destruct (drop_stale _ _ _ _ _ _) as [write1 d1]. cbn [fst snd] in *.
  pose proof (enter_writes_spec ver (map_to_list ws) d1 write1 false
    (NoDup_fst_map_to_list ws) H1) as (H4 & H5 & H6 & H7).
  destruct (foldl _ _ _) as [[d2 write2] wrote]. cbn [fst snd] in *.
  rewrite list_to_map_to_list in H6.
  assert (Hkeys : forall x, x ∈ (map_to_list ws).*1 <-> is_Some (ws !! x)).
  { intros x. rewrite <- elem_of_dom. rewrite list_elem_of_fmap. split.
    - intros ([k v] & -> & Hkv). apply elem_of_map_to_list in Hkv. by eapply elem_of_dom_2.
    - intros [v Hv]%elem_of_dom. exists (x, v). by rewrite elem_of_map_to_list. }
  do 3 eexists. split; [reflexivity|]. do 3 (split; [done|]). split; [exact H4|].
  split; [|split].
  - intros x. rewrite H5, H2, Hkeys. tauto.
  - intros x t. change (entry_in d2 x t = if decide (t = tx_idx ver) then
      match ws !! x with Some v => Some (Data (tx_incarnation ver) v)
      | None => if decide (x ∈ rw_write locs) then None else entry_in (data m) x t end
      else entry_in (data m) x t).
    rewrite H6, H3. destruct (ws !! x) eqn:Hx; destruct (decide (t = tx_idx ver)); try done.
    + by rewrite decide_False by (intros (_ & ? & _); congruence).
    + destruct (decide (x ∈ rw_write locs)); [by rewrite decide_True|by rewrite decide_False by tauto].
    + by rewrite decide_False by tauto.
  - rewrite H7. split.
    + intros [?|(x & Hx & Hn)]; [done|]. exists x. rewrite Hkeys in Hx. rewrite H2 in Hn. tauto.
    + intros (x & Hx & Hn). right. exists x. rewrite Hkeys, H2. tauto.
Qed.

(** ** The invariant of the memory *)

(** The list of written locations of a transaction has no duplicates, covers all
    its data, and every location on it has an entry of the transaction. *)
Record mv_wf (m : MvMemory) : Prop := mkMvWf {
  wf_nodup : forall t locs, locations m !! t = Some locs -> NoDup (rw_write locs);
  wf_data : forall x t i v, entry m x t = Some (Data i v) ->
    exists locs, locations m !! t = Some locs /\ x ∈ rw_write locs;
  wf_written : forall x t locs, locations m !! t = Some locs -> x ∈ rw_write locs ->
    is_Some (entry m x t);
}.

Lemma list_to_map_estimates (idxs : list TxIdx) (t : TxIdx) (e : Entry) :
  (list_to_map ((fun i => (i, Estimate)) <$> idxs) : gmap TxIdx Entry) !! t = Some e -> e = Estimate.
Proof.
  intros Ht. apply elem_of_list_to_map_2, list_elem_of_fmap in Ht as (i & Hi & _). by injection Hi.
Qed.

Lemma MvMemory_new_estimates (n : nat) (est : gmap LocationHash (list TxIdx)) (lz : list Address)
    (x : LocationHash) (t : TxIdx) (e : Entry) :
  entry (MvMemory_new n est lz) x t = Some e -> e = Estimate.
Proof.
  unfold entry. simpl. rewrite lookup_fmap. destruct (est !! x) as [idxs|]; simpl; [|done].
  apply list_to_map_estimates.
Qed.

Lemma MvMemory_new_wf (n : nat) (est : gmap LocationHash (list TxIdx)) (lz : list Address) :
  mv_wf (MvMemory_new n est lz).
Proof.
  constructor; simpl.
  - intros t locs Ht. apply lookup_replicate in Ht as [-> _]. apply NoDup_nil_2.
  - intros x t i v Hx. apply MvMemory_new_estimates in Hx. done.
  - intros x t locs Ht Hx. apply lookup_replicate in Ht as [-> _]. by apply elem_of_nil in Hx.
Qed.

Lemma record_wf (ver : TxVersion) (rs : ReadSet) (ws : WriteSet) (m m' : MvMemory) (b : bool) :
  mv_wf m -> record ver rs ws m = Return (b, m') -> mv_wf m'.
Proof.
  intros [W1 W2 W3] Hrun. destruct (locations m !! tx_idx ver) as [locs|] eqn:Hl.
  2: { unfold record in Hrun. by rewrite Hl in Hrun. }
  destruct (record_run ver rs ws m locs Hl (W1 _ _ Hl))
    as (b' & m2 & write' & Hrun' & Hlocs & _ & _ & Hnd & Hin & Hent & _).
  rewrite Hrun' in Hrun. injection Hrun as _ <-. constructor; rewrite Hlocs.
  - intros t l Hl'. apply lookup_insert_cases in Hl' as [(-> & -> & _)|[_ Hl']]; [done|by eapply W1].
  - intros x t i v Hx. rewrite Hent in Hx. destruct (decide (t = tx_idx ver)) as [->|Hne].
    + eexists. rewrite list_lookup_insert_eq by (by eapply lookup_lt_Some). split; [done|]. simpl.
      rewrite Hin. destruct (ws !! x); [by eexists|]. case_decide; [done|].
      destruct (W2 _ _ _ _ Hx) as (l & Hl' & Hx'). congruence.
    + rewrite list_lookup_insert_ne by congruence. by eapply W2.
  - intros x t l Hl' Hx. rewrite Hent.
    apply lookup_insert_cases in Hl' as [(-> & -> & _)|[Hne Hl']].
    + simpl in Hx. apply Hin in Hx as [v ->]. rewrite decide_True by done. by eexists.
    + rewrite decide_False by done. by eapply W3.
Qed.

(** ** [convert_writes_to_estimates] *)

Lemma estimate_fold (tx : TxIdx) (xs : list LocationHash) (d : gmap LocationHash (gmap TxIdx Entry))
    (x : LocationHash) (t : TxIdx) :
  entry_in (foldl (fun d loc => alter (fun w => <[tx := Estimate]> w) loc d) d xs) x t =
  if decide (x ∈ xs /\ t = tx) then d !! x ≫= fun _ => Some Estimate else entry_in d x t.
Proof.
  revert d. induction xs as [|y xs IH]; intros d; cbn [foldl].
  - rewrite decide_False; [done|]. intros [Hx _]. by apply elem_of_nil in Hx.
  - rewrite IH. destruct (decide (x = y)) as [->|Hne].
    + rewrite lookup_alter_eq. destruct (decide (t = tx)) as [->|Ht].
      * rewrite (decide_True (P := y ∈ y :: xs /\ _)) by (split; [by left|done]).
        case_decide; [by destruct (d !! y)|].
        unfold entry_in. rewrite lookup_alter_eq. destruct (d !! y); simpl; [|done].
        apply lookup_insert_eq.
      * rewrite !decide_False by tauto. unfold entry_in. rewrite lookup_alter_eq.
        destruct (d !! y); simpl; [|done]. by rewrite lookup_insert_ne by congruence.
    + rewrite (decide_ext _ (x ∈ y :: xs /\ t = tx)) by (rewrite elem_of_cons; tauto).
      unfold entry_in. by rewrite lookup_alter_ne by congruence.
Qed.

Lemma convert_run (tx : TxIdx) (m : MvMemory) (locs : ReadWriteSet) :
  mv_wf m -> locations m !! tx = Some locs ->
  exists m', convert_writes_to_estimates tx m = Return (tt, m') /\
    locations m' = locations m /\ lazy_addresses m' = lazy_addresses m /\
    new_bytecodes m' = new_bytecodes m /\
    (forall x t, entry m' x t =
       if decide (x ∈ rw_write locs /\ t = tx) then Some Estimate else entry m x t).
Proof.
  intros W Hl. unfold convert_writes_to_estimates. rewrite Hl. eexists. split; [reflexivity|].
  do 3 (split; [done|]). intros x t. unfold entry. simpl. fold (entry_in (data m) x t).
  etransitivity; [apply (estimate_fold tx (rw_write locs) (data m) x t)|].
  case_decide as Hc; [|done]. destruct Hc as [Hx ->].
  destruct (wf_written m W _ _ _ Hl Hx) as [e He]. unfold entry in He.
  by destruct (data m !! x).
Qed.

Lemma convert_wf (tx : TxIdx) (m m' : MvMemory) (u : unit) :
  mv_wf m -> convert_writes_to_estimates tx m = Return (u, m') -> mv_wf m'.
Proof.
  intros W Hrun. destruct (locations m !! tx) as [locs|] eqn:Hl.
  2: { unfold convert_writes_to_estimates in Hrun. by rewrite Hl in Hrun. }
  destruct (convert_run tx m locs W Hl) as (m2 & Hrun' & Hlocs & _ & _ & Hent).
  rewrite Hrun' in Hrun. injection Hrun as _ <-.
  constructor; rewrite Hlocs.
  - apply (wf_nodup m W).
  - intros x t i v Hx. rewrite Hent in Hx. case_decide; [done|]. by eapply (wf_data m W).
  - intros x t l Hl' Hx. rewrite Hent. case_decide; [by eexists|]. by eapply (wf_written m W).
Qed.

(** ** [validate_read_locations] *)

(** The entries below, as a descending list. *)
Lemma range_below_lookup (w : gmap TxIdx Entry) (t : TxIdx) (i : TxIdx) (e : Entry) :
  (i, e) ∈ range_below w t <-> i < t /\ w !! i = Some e.
Proof.
  unfold range_below. rewrite list_elem_of_omap. split.
  - intros (j & Hj & Hp). apply elem_of_reverse, elem_of_seq in Hj.
    destruct (w !! j) eqn:E; simplify_eq/=. split; [lia|done].
  - intros [Hi Hw]. exists i. rewrite elem_of_reverse, elem_of_seq, Hw. split; [lia|done].
Qed.

Lemma range_below_S (w : gmap TxIdx Entry) (t : TxIdx) :
  range_below w (S t) = match w !! t with Some e => (t, e) :: range_below w t | None => range_below w t end.
Proof.
  unfold range_below. rewrite seq_S, reverse_snoc. simpl. by destruct (w !! t).
Qed.

(** Its head is the closest entry. *)
Lemma range_below_head (w : gmap TxIdx Entry) (t i : TxIdx) (e : Entry) (l : list (TxIdx * Entry)) :
  range_below w t = (i, e) :: l ->
  i < t /\ w !! i = Some e /\ l = range_below w i /\ (forall j, i < j < t -> w !! j = None).
Proof.
  induction t as [|t IH]; [done|]. rewrite range_below_S. destruct (w !! t) as [e'|] eqn:Ht.
  - intros Hl. simplify_eq. split; [lia|split; [done|split; [done|lia]]].
  - intros Hl. destruct (IH Hl) as (Hi & He & Hr & Hn). split; [lia|split; [done|split; [done|]]].
    intros j Hj. destruct (decide (j = t)) as [->|]; [done|]. apply Hn. lia.
Qed.

Lemma range_below_nil (w : gmap TxIdx Entry) (t : TxIdx) :
  range_below w t = [] <-> forall j, j < t -> w !! j = None.
Proof.
  split.
  - intros Hr j Hj. destruct (w !! j) as [e|] eqn:Hw; [|done].
    assert (Hin : (j, e) ∈ range_below w t) by (by apply range_below_lookup).
    rewrite Hr in Hin. by apply elem_of_nil in Hin.
  - intros Hall. destruct (range_below w t) as [|[i e] l] eqn:Hr; [done|].
    apply range_below_head in Hr as (Hi & He & _). rewrite Hall in He; done.
Qed.

(** What reading records: versions, and storage at most at the end. *)
Definition origins_shape (os : list ReadOrigin) : Prop :=
  exists vs, os = Origin_MvMemory <$> vs \/ os = (Origin_MvMemory <$> vs) ++ [Origin_Storage].

(** An entry holds the data of version [v]. *)
Definition entry_is (p : TxIdx * Entry) (v : TxVersion) : Prop :=
  exists value, p = (tx_idx v, Data (tx_incarnation v) value).

Lemma match_versions (iter : list (TxIdx * Entry)) (vs : list TxVersion) (os : list ReadOrigin) :
  match_origins iter ((Origin_MvMemory <$> vs) ++ os) = true <->
  exists pre rest, iter = pre ++ rest /\ Forall2 entry_is pre vs /\ match_origins rest os = true.
Proof.
  revert iter. induction vs as [|[i inc] vs IH]; intros iter; cbn [fmap list_fmap app match_origins].
  - split; [intros Hm; exists [], iter; eauto|].
    intros (pre & rest & -> & Hp & Hm). by apply Forall2_nil_inv_r in Hp as ->.
  - split.
    + intros Hm. destruct iter as [|[j [inc' v|]] iter]; [done| |done]. cbn [tx_idx tx_incarnation] in Hm.
      destruct (Nat.eqb_spec j i) as [->|]; [|done]. destruct (Nat.eqb_spec inc inc') as [->|]; [|done].
      apply IH in Hm as (pre & rest & -> & Hp & Hm).
      exists ((i, Data inc' v) :: pre), rest. split; [done|split; [|done]].
      constructor; [by exists v|done].
    + intros (pre & rest & -> & Hp & Hm). inversion Hp as [|p ? pre' ? [v ->] Hp']; subst.
      cbn [app tx_idx tx_incarnation]. rewrite !Nat.eqb_refl. apply IH. eauto.
Qed.

(** Re-reading [os] against the entries [iter] below the reader gives the same
    origins: the versions are those of the closest entries, with no estimate
    among them, and storage was reached exactly if nothing else is below. *)
Definition rereads (iter : list (TxIdx * Entry)) (os : list ReadOrigin) : Prop :=
  exists vs pre rest, iter = pre ++ rest /\ Forall2 entry_is pre vs /\
    (os = Origin_MvMemory <$> vs \/ (os = (Origin_MvMemory <$> vs) ++ [Origin_Storage] /\ rest = [])).

Lemma match_origins_rereads (iter : list (TxIdx * Entry)) (os : list ReadOrigin) :
  origins_shape os -> match_origins iter os = true <-> rereads iter os.
Proof.
  intros (vs & Hos). split.
  - intros Hm. exists vs. destruct Hos as [->| ->].
    + rewrite <- (app_nil_r (Origin_MvMemory <$> vs)) in Hm.
      apply match_versions in Hm as (pre & rest & -> & Hp & _). exists pre, rest. eauto.
    + apply match_versions in Hm as (pre & rest & -> & Hp & Hm).
      destruct rest; [|done]. exists pre, []. eauto.
  - intros (vs' & pre & rest & -> & Hp & [->|[-> ->]]).
    + rewrite <- (app_nil_r (Origin_MvMemory <$> vs')). apply match_versions. eauto.
    + apply match_versions. exists pre, []. eauto.
Qed.

(** The entries below [t] at a location. *)
Definition below (m : MvMemory) (t : TxIdx) (x : LocationHash) : list (TxIdx * Entry) :=
  match data m !! x with Some w => range_below w t | None => [] end.

Lemma below_S (m : MvMemory) (t : TxIdx) (x : LocationHash) :
  below m (S t) x = match entry m x t with Some e => (t, e) :: below m t x | None => below m t x end.
Proof. unfold below, entry. destruct (data m !! x) as [w|]; [|done]. cbn. apply range_below_S. Qed.

Lemma validate_location_rereads (m : MvMemory) (t : TxIdx) (x : LocationHash) (os : list ReadOrigin) :
  origins_shape os -> os ≠ [] ->
  validate_location m t x os = true <-> rereads (below m t x) os.
Proof.
  intros Hs Hne. unfold validate_location, below. destruct (data m !! x) as [w|].
  - by apply match_origins_rereads.
  - rewrite bool_decide_eq_true. split.
    + intros ->. exists [], [], []. split; [done|split; [constructor|by right]].
    + intros (vs & pre & rest & Heq & Hp & Hos). symmetry in Heq. apply app_eq_nil in Heq as [-> ->].
      apply Forall2_nil_inv_l in Hp as ->. by destruct Hos as [->|[-> _]].
Qed.

(** ** The initial memory *)

Lemma estimates_lookup (idxs : list TxIdx) (t : TxIdx) :
  (list_to_map ((fun i => (i, Estimate)) <$> idxs) : gmap TxIdx Entry) !! t =
  if decide (t ∈ idxs) then Some Estimate else None.
Proof.
  induction idxs as [|i idxs IH].
  - rewrite decide_False by (apply not_elem_of_nil). done.
  - rewrite fmap_cons, list_to_map_cons. destruct (decide (t = i)) as [->|Hne].
    + rewrite lookup_insert_eq, decide_True by (by left). done.
    + rewrite lookup_insert_ne by congruence. etransitivity; [exact IH|].
      apply decide_ext. rewrite elem_of_cons. tauto.
Qed.

Lemma op_estimates (hash_address : Address -> LocationHash) (l1 base : Address)
    (idxs : list TxIdx) (e : gmap LocationHash (list TxIdx)) :
  let r := foldl (fun e index =>
      push_estimate (hash_address base) index (push_estimate (hash_address l1) index e)) e idxs in
  (forall x, x ≠ hash_address l1 -> x ≠ hash_address base -> r !! x = e !! x) /\
  (forall t, t ∈ idxs \/ t ∈ default [] (e !! hash_address l1) ->
     exists l, r !! hash_address l1 = Some l /\ t ∈ l).
Proof.
  intros r. subst r. revert e. induction idxs as [|i idxs IH]; intros e; cbn [foldl].
  - split; [done|]. intros t [Hx|Hx]; [by apply elem_of_nil in Hx|].
    destruct (e !! hash_address l1) as [l|]; [by exists l|by apply elem_of_nil in Hx].
  - destruct (IH (push_estimate (hash_address base) i (push_estimate (hash_address l1) i e)))
      as [H1 H2]. split.
    + intros x Hx Hy. rewrite H1 by done. unfold push_estimate. by rewrite !lookup_insert_ne by congruence.
    + intros t Ht. apply H2. rewrite elem_of_cons in Ht. unfold push_estimate.
      destruct (decide (hash_address base = hash_address l1)) as [Heq|Hne].
      * rewrite Heq, !lookup_insert_eq. cbn [default from_option id]. rewrite !elem_of_app, !list_elem_of_singleton. tauto.
      * rewrite lookup_insert_ne by done. rewrite lookup_insert_eq. cbn [default from_option id].
        rewrite elem_of_app, list_elem_of_singleton. tauto.
Qed.

(** ** Properties *)

(** Everything the executor does to the memory of a block. *)
Inductive mv_reachable : MvMemory -> Prop :=
| mv_new n est lz : mv_reachable (MvMemory_new n est lz)
| mv_lazy m l : mv_reachable m -> mv_reachable (add_lazy_addresses l m)
| mv_bytecode m h c : mv_reachable m -> mv_reachable
    (mkMvMemory (data m) (locations m) (lazy_addresses m) (<[h := c]> (new_bytecodes m)))
| mv_record m ver rs ws b m' : mv_reachable m -> record ver rs ws m = Return (b, m') -> mv_reachable m'
| mv_convert m t u m' : mv_reachable m -> convert_writes_to_estimates t m = Return (u, m') ->
    mv_reachable m'.

(** C20. Whatever transactions execute, record and abort, the written locations of
    a transaction are listed once, cover all its data in the memory, and all have
    an entry of the transaction: nothing a later incarnation stops writing can be
    left behind. *)
Theorem mv_reachable_wf (m : MvMemory) (Hr : mv_reachable m) : mv_wf m.
Proof.
  induction Hr as [n est lz|m l _ IH|m h c _ IH|m ver rs ws b m' _ IH Hrec|m t u m' _ IH Hc].
  - apply MvMemory_new_wf.
  - destruct IH. by constructor.
  - destruct IH. by constructor.
  - by eapply record_wf.
  - by eapply convert_wf.
Qed.

(** C14. [record] of an incarnation: its read set is stored; what it writes is entered
    with its incarnation number; every location the transaction had written before and
    does not write any more loses its entry, were it data or the estimate an abort has
    left; the entries of other transactions are untouched, and the returned flag says
    exactly whether some location was not among the previously written ones. A location
    that is in neither list keeps what it had, which can only be an initial estimate:
    other than the comment at [Entry] says, those are not removed. *)
Theorem record_spec (ver : TxVersion) (rs : ReadSet) (ws : WriteSet) (m : MvMemory)
    (Hwf : mv_wf m) (Hin : tx_idx ver < length (locations m)) :
  exists wrote m' locs locs',
    record ver rs ws m = Return (wrote, m') /\
    locations m !! tx_idx ver = Some locs /\ locations m' !! tx_idx ver = Some locs' /\
    rw_read locs' = rs /\ (forall x, x ∈ rw_write locs' <-> is_Some (ws !! x)) /\
    (forall x v, ws !! x = Some v -> entry m' x (tx_idx ver) = Some (Data (tx_incarnation ver) v)) /\
    (forall x, ws !! x = None -> x ∈ rw_write locs -> entry m' x (tx_idx ver) = None) /\
    (forall x, ws !! x = None -> x ∉ rw_write locs ->
       entry m' x (tx_idx ver) = entry m x (tx_idx ver) /\
       (entry m x (tx_idx ver) = None \/ entry m x (tx_idx ver) = Some Estimate)) /\
    (forall x t, t ≠ tx_idx ver -> entry m' x t = entry m x t) /\
    (wrote = true <-> exists x, is_Some (ws !! x) /\ x ∉ rw_write locs).
Proof.
  destruct (lookup_lt_is_Some_2 _ _ Hin) as [locs Hl].
  destruct (record_run ver rs ws m locs Hl (wf_nodup m Hwf _ _ Hl))
    as (wrote & m' & write' & Hrun & Hlocs & _ & _ & Hnd & Hw & Hent & Hnew).
  exists wrote, m', locs, (mkReadWriteSet rs write'). do 2 (split; [done|]).
  split; [rewrite Hlocs; by apply list_lookup_insert_eq|]. do 2 (split; [done|]).
  split; [|split; [|split; [|split; [|exact Hnew]]]].
  - intros x v Hx. by rewrite Hent, decide_True, Hx.
  - intros x Hx Hl'. by rewrite Hent, decide_True, Hx, decide_True.
  - intros x Hx Hl'. split; [by rewrite Hent, decide_True, Hx, decide_False|].
    destruct (entry m x (tx_idx ver)) as [[i v|]|] eqn:He; [|by right|by left].
    destruct (wf_data m Hwf _ _ _ _ He) as (l & Hl2 & Hx'). congruence.
  - intros x t Ht. by rewrite Hent, decide_False.
Qed.

(** After a failed validation no data of the aborted transaction can be read:
    [convert_writes_to_estimates] turns exactly its entries at the locations it
    wrote into estimates. *)
Lemma convert_writes_to_estimates_spec (tx : TxIdx) (m : MvMemory)
    (Hwf : mv_wf m) (Hin : tx < length (locations m)) :
  exists m', convert_writes_to_estimates tx m = Return (tt, m') /\
    locations m' = locations m /\
    (forall x, entry m' x tx = None \/ entry m' x tx = Some Estimate) /\
    (forall x, is_Some (entry m' x tx) <-> is_Some (entry m x tx)) /\
    (forall x t, t ≠ tx -> entry m' x t = entry m x t).
Proof.
  destruct (lookup_lt_is_Some_2 _ _ Hin) as [locs Hl].
  destruct (convert_run tx m locs Hwf Hl) as (m' & Hrun & Hlocs & _ & _ & Hent).
  exists m'. do 2 (split; [done|]). split; [|split].
  - intros x. rewrite Hent. case_decide as Hc; [by right|].
    destruct (entry m x tx) as [[i v|]|] eqn:He; [|by right|by left].
    destruct (wf_data m Hwf _ _ _ _ He) as (l & Hl' & Hx). exfalso. apply Hc. split; congruence.
  - intros x. rewrite Hent. case_decide as Hc; [|done]. destruct Hc as [Hx _].
    split; intros _; [by eapply (wf_written m Hwf)|by eexists].
  - intros x t Ht. rewrite Hent, decide_False by tauto. done.
Qed.

(** C13. [validate_read_locations] returns [true] exactly when reading every location
    of the recorded read set again would find the same origins: the same versions
    in the same order with no estimate among them, and storage only if no lower
    transaction writes the location any more. *)
Theorem validate_read_locations_spec (tx : TxIdx) (m : MvMemory) (locs : ReadWriteSet)
    (Hl : locations m !! tx = Some locs)
    (Hshape : forall x os, rw_read locs !! x = Some os -> origins_shape os /\ os ≠ []) :
  exists b, validate_read_locations tx m = Return b /\
    (b = true <-> forall x os, rw_read locs !! x = Some os -> rereads (below m tx x) os).
Proof.
  unfold validate_read_locations. rewrite Hl. eexists. split; [reflexivity|].
  rewrite forallb_forall. split.
  - intros Hall x os Hx. destruct (Hshape x os Hx) as [Hs Hne].
    apply validate_location_rereads; [done|done|]. apply (Hall (x, os)).
    by apply list_elem_of_In, elem_of_map_to_list.
  - intros Hall [x os] Hx. apply list_elem_of_In, elem_of_map_to_list in Hx.
    destruct (Hshape x os Hx) as [Hs Hne]. apply validate_location_rereads; [done|done|]. by apply Hall.
Qed.

(** The initial Ethereum memory estimates that every transaction writes the
    beneficiary's account, and nothing else. *)
Lemma build_mv_memory_entries (hash_deterministic : Location -> LocationHash)
    (beneficiary : Address) (n : nat) (x : LocationHash) (t : TxIdx) :
  entry (build_mv_memory hash_deterministic beneficiary n) x t =
  if decide (x = hash_deterministic (Loc_Basic beneficiary) /\ t < n) then Some Estimate else None.
Proof.
  unfold entry, build_mv_memory. cbn [data MvMemory_new]. rewrite lookup_fmap.
  destruct (decide (x = hash_deterministic (Loc_Basic beneficiary))) as [->|Hne].
  - rewrite lookup_singleton_eq. cbn [fmap option_fmap option_map mbind option_bind].
    rewrite (estimates_lookup (seq 0 n) t).
    apply decide_ext. rewrite elem_of_seq. split; [intros ?; split; [done|lia]|lia].
  - rewrite lookup_singleton_ne by done. by rewrite decide_False by tauto.
Qed.

(** The initial Optimism memory puts its estimates for the fee recipients at the
    hash of the bare address. As that is not the location of their accounts, no
    account has an estimate at the start of a block. *)
Lemma build_op_mv_memory_misses (hash_deterministic : Location -> LocationHash)
    (hash_address : Address -> LocationHash) (l1 base beneficiary : Address) (n : nat)
    (Hhash : forall a b, hash_deterministic (Loc_Basic a) ≠ hash_address b)
    (a : Address) (t : TxIdx) :
  entry (build_op_mv_memory hash_address l1 base beneficiary n) (hash_deterministic (Loc_Basic a)) t
    = None /\
  (t < n -> entry (build_op_mv_memory hash_address l1 base beneficiary n) (hash_address l1) t
    = Some Estimate).
Proof.
  unfold entry, build_op_mv_memory. cbn [data MvMemory_new]. rewrite !lookup_fmap.
  destruct (op_estimates hash_address l1 base (seq 0 n) ∅) as [Hkeys Hl1]. split.
  - rewrite Hkeys by (apply Hhash). done.
  - intros Ht. destruct (Hl1 t) as (idxs & Hlk & Hin); [left; apply elem_of_seq; lia|]. rewrite Hlk.
    cbn [fmap option_fmap option_map mbind option_bind]. rewrite estimates_lookup.
    by rewrite decide_True.
Qed.

End Theory.

(** ** Examples *)

Section Examples.
#[local] Existing Instance example_revm.

(** Two transactions; the first wrote 7 to location 10, the second read it. *)
Definition example_memory : MvMemory :=
  mkMvMemory {[ 10%Z := {[ 0 := Data 0 (LV_Storage 7) ]} ]}
    [mkReadWriteSet ∅ [10%Z]; mkReadWriteSet {[ 10%Z := [Origin_MvMemory (mkTxVersion 0 0)] ]} []] ∅ ∅.

Lemma example_memory_reachable : mv_reachable example_memory.
Proof.
  eapply (mv_record _ (mkTxVersion 1 0) {[ 10%Z := [Origin_MvMemory (mkTxVersion 0 0)] ]} ∅ false).
  - eapply (mv_record _ (mkTxVersion 0 0) ∅ {[ 10%Z := LV_Storage 7 ]} true).
    + apply (mv_new 2 ∅ []).
    + reflexivity.
  - reflexivity.
Qed.

Lemma mv_reachable_wf_witness : mv_wf example_memory.
Proof. exact (mv_reachable_wf example_memory example_memory_reachable). Defined.

Lemma example_memory_wf : mv_wf example_memory.
Proof.
  constructor.
  - intros [|[|t]] locs Hl; simplify_eq/=; [apply NoDup_singleton|apply NoDup_nil_2].
  - intros x t i v Hx. unfold entry, example_memory in Hx. cbn [data] in Hx.
    destruct (decide (x = 10%Z)) as [->|Hne]; [|by rewrite lookup_singleton_ne in Hx].
    rewrite lookup_singleton_eq in Hx. simpl in Hx.
    apply lookup_singleton_Some in Hx as [<- _]. exists (mkReadWriteSet ∅ [10%Z]).
    split; [done|by left].
  - intros x [|[|t]] locs Hl Hx; simplify_eq/=; [|by apply elem_of_nil in Hx].
    apply list_elem_of_singleton in Hx as ->. by eexists.
Qed.

Lemma record_spec_witness :
  exists wrote m', record (mkTxVersion 0 1) ∅ {[ 11%Z := LV_Storage 8 ]} example_memory = Return (wrote, m')
    /\ entry m' 11%Z 0 = Some (Data 1 (LV_Storage 8)) /\ forall x t, t ≠ 0 -> entry m' x t = entry example_memory x t.
Proof.
  destruct (record_spec (mkTxVersion 0 1) ∅ {[ 11%Z := LV_Storage 8 ]} example_memory)
    as (wrote & m' & locs & locs' & H1 & _ & _ & _ & _ & H5 & _ & _ & H8 & _).
  - exact example_memory_wf.
  - simpl. lia.
  - exists wrote, m'. split; [exact H1|]. split; [exact (H5 11%Z (LV_Storage 8) eq_refl)|exact H8].
Defined.

Lemma convert_writes_to_estimates_spec_witness :
  exists m', convert_writes_to_estimates 0 example_memory = Return (tt, m') /\
    forall x, entry m' x 0 = None \/ entry m' x 0 = Some Estimate.
Proof.
  destruct (convert_writes_to_estimates_spec 0 example_memory) as (m' & H1 & _ & H3 & _).
  - exact example_memory_wf.
  - simpl. lia.
  - exists m'. split; [exact H1|exact H3].
Defined.

Definition example_reads : ReadWriteSet :=
  mkReadWriteSet {[ 10%Z := [Origin_MvMemory (mkTxVersion 0 0)] ]} [].

Lemma validate_read_locations_spec_witness :
  exists b, validate_read_locations 1 example_memory = Return b /\
    (b = true <-> forall x os, rw_read example_reads !! x = Some os ->
       rereads (below example_memory 1 x) os).
Proof.
  apply (validate_read_locations_spec 1 example_memory example_reads); [reflexivity|].
  intros x os Hx. unfold example_reads in Hx. cbn [rw_read] in Hx.
  apply lookup_singleton_Some in Hx as [_ <-].
  split; [exists [mkTxVersion 0 0]; by left|done].
Defined.

Lemma build_op_mv_memory_misses_witness :
  entry (build_op_mv_memory (fun a => 2 * a)%Z 5 6 7 3) 11%Z 0 = None.
Proof.
  refine (proj1 (build_op_mv_memory_misses
    (fun l => match l with
              | Loc_Basic a | Loc_CodeHash a | Loc_Storage a _ => 2 * a + 1
              end)%Z (fun a => 2 * a)%Z 5 6 7 3 _ 5 0)).
  intros a b. lia.
Defined.

End Examples.
