(* ===== verification/VmDb.v ===== *)
(** * Reading through the multi-version memory (crates/pe/src/vm.rs, [VmDB])

    The database a transaction executes against: it answers from the lower
    transactions' writes, falls back to the chain's state, and records where
    each value came from.

    Other threads change the memory while a transaction executes. A database
    call locks one entry of [data] at a time, so each of its accesses sees some
    memory: [get_code_hash] and [storage] take the memory they see, [basic]
    takes three, for the account, the code hash and the code. *)

From S2P Require Import Prelude Primitives Types Results MvMemory.
Local Open Scope Z_scope.

Section VmDB.
Context `{Revm} `{!DatabaseRef}.
Context (hash_deterministic : Location -> LocationHash).

(** ** State *)

Record VmDB : Type := mkVmDB {
  db_tx_idx : TxIdx;
  db_tx : TxEnv;
  from_hash : LocationHash;
  to_hash : option LocationHash;
  to_code_hash : option Z;
  is_lazy : bool;
  read_set : gmap LocationHash (list ReadOrigin);
  read_accounts : gmap LocationHash AccountMeta;
}.

Definition set_read_set (f : gmap LocationHash (list ReadOrigin) -> gmap LocationHash (list ReadOrigin))
    (d : VmDB) : VmDB :=
  mkVmDB (db_tx_idx d) (db_tx d) (from_hash d) (to_hash d) (to_code_hash d) (is_lazy d)
    (f (read_set d)) (read_accounts d).

(** A read: an answer and the new state, or an error. *)
Definition Read (A : Type) : Type := VmDB -> result (A * VmDB) ReadError.

Definition rerr {A : Type} (e : ReadError) : Read A := fun _ => Err e.

#[local] Instance Read_ret : MRet Read := fun A a d => Ok (a, d).
#[local] Instance Read_bind : MBind Read := fun A B k m d =>
  match m d with
  | Ok (a, d') => k a d'
  | Err e => Err e
  end.

(** [.map_err(|err| ReadError::StorageError(err.to_string()))?] *)
Definition from_db {A : Type} (r : result A DbError) : Read A := fun d =>
  match r with
  | Ok a => Ok (a, d)
  | Err e => Err (StorageError (err_to_string e))
  end.

Definition origins_at (location : LocationHash) (d : VmDB) : list ReadOrigin :=
  default [] (read_set d !! location).

(** ** Origins *)

(** [push_origin] on the origins of a location. *)
Definition push_origin (location : LocationHash) (origin : ReadOrigin) : Read unit := fun d =>
  match list.last (origins_at location d) with
  | Some prev_origin => if decide (prev_origin = origin) then Ok (tt, d) else Err InconsistentRead
  | None => Ok (tt, set_read_set (fun r => <[location := [origin]]> r) d)
  end.

Definition hash_basic (d : VmDB) (address : Address) : outcome LocationHash :=
  if address =? caller (db_tx d) then Return (from_hash d)
  else match kind (db_tx d) with
       | Call to =>
           if to =? address then
             match to_hash d with Some h => Return h | None => Panic end
           else Return (hash_deterministic (Loc_Basic address))
       | Create => Return (hash_deterministic (Loc_Basic address))
       end.

(** ** [get_code_hash] *)

(** The fallback to the chain's state. *)
Definition code_hash_in_storage (address : Address) : Read (option Z) :=
  _ ← push_origin (hash_deterministic (Loc_CodeHash address)) Origin_Storage;
  a ← from_db (basic_ref address);
  mret (ai_code_hash <$> a).

Definition get_code_hash (m : MvMemory) (address : Address) : Read (option Z) := fun d =>
  let location_hash := hash_deterministic (Loc_CodeHash address) in
  match below m (db_tx_idx d) location_hash with
  | (tx_idx, Data tx_incarnation LV_SelfDestructed) :: _ => Err SelfDestructedAccount
  | (tx_idx, Data tx_incarnation (LV_CodeHash code_hash)) :: _ =>
      (_ ← push_origin location_hash (Origin_MvMemory (mkTxVersion tx_idx tx_incarnation));
       mret (Some code_hash)) d
  | _ => code_hash_in_storage address d
  end.

(** ** [basic] *)

(** The loop over the entries below, closest first. [prev] are the origins of an
    earlier read of the location, [new] those found so far. The result is the
    account written by the transaction the loop stopped at, if any, with what the
    lazy updates above it add up to. *)
Record LazyScan : Type := mkLazyScan {
  scan_account : option AccountInfo;
  balance_addition : I257.I257;
  nonce_addition : Z;
  new_origins : list ReadOrigin;
}.

Fixpoint scan_lazy (prev : list ReadOrigin) (iter : list (TxIdx * Entry)) (acc : LazyScan) :
    result LazyScan ReadError :=
  match iter with
  | [] => Ok acc
  | (blocking_idx, Estimate) :: _ => Err (Blocking blocking_idx)
  | (closest_idx, Data tx_incarnation v) :: iter' =>
      let n := length (new_origins acc) in
      let origin := Origin_MvMemory (mkTxVersion closest_idx tx_incarnation) in
      if negb (bool_decide (prev = [])) && (length prev =? n)%nat then Err InconsistentRead
      else if negb (bool_decide (prev = [])) && negb (bool_decide (prev !! n = Some origin))
      then Err InconsistentRead
      else
        let new := new_origins acc ++ [origin] in
        match v with
        | LV_Basic account =>
            Ok (mkLazyScan (Some account) (balance_addition acc) (nonce_addition acc) new)
        | LV_LazyRecipient addition =>
            scan_lazy prev iter' (mkLazyScan None
              (I257.add (balance_addition acc) (I257.from_U256 addition)) (nonce_addition acc) new)
        | LV_LazySender subtraction =>
            scan_lazy prev iter' (mkLazyScan None
              (I257.sub (balance_addition acc) (I257.from_U256 subtraction))
              (wrapping 64 (nonce_addition acc + 1)) new)
        | _ => Err InvalidValueType
        end
  end.

(** The fallback to the chain's state. *)
Definition scan_storage (address : Address) (prev : list ReadOrigin) (acc : LazyScan) :
    result LazyScan ReadError :=
  match scan_account acc with
  | Some _ => Ok acc
  | None =>
      let bad := negb (length prev =? length (new_origins acc) + 1)%nat
                 || negb (bool_decide (list.last prev = Some Origin_Storage)) in
      if negb (bool_decide (prev = [])) && bad then Err InconsistentRead
      else
        let new := if bool_decide (prev = []) then new_origins acc ++ [Origin_Storage]
                   else new_origins acc in
        match basic_ref address with
        | Ok (Some account) =>
            Ok (mkLazyScan (Some account) (balance_addition acc) (nonce_addition acc) new)
        | Ok None =>
            Ok (mkLazyScan (if I257.sign (balance_addition acc) >? 0 then Some AccountInfo_default else None)
                  (balance_addition acc) (nonce_addition acc) new)
        | Err e => Err (StorageError (err_to_string e))
        end
  end.

(** The code of a code hash: new in this block, or of the chain. *)
Definition code_of_hash (m : MvMemory) (code_hash : Z) : result Bytecode ReadError :=
  match new_bytecodes m !! code_hash with
  | Some code => Ok code
  | None => map_err (fun e => StorageError (err_to_string e)) (code_by_hash_ref code_hash)
  end.

Definition find_code (m : MvMemory) (code_hash : option Z) : Read Bytecode := fun d =>
  match code_hash with
  | Some h => match code_of_hash m h with Ok code => Ok (code, d) | Err e => Err e end
  | None => Ok (Bytecode_default, d)
  end.

(** The sender's nonce has to be the transaction's. *)
Definition check_nonce (d : VmDB) (location_hash : LocationHash) (account_nonce : Z) : result unit ReadError :=
  if (location_hash =? from_hash d) && negb (nonce (db_tx d) =? account_nonce) then
    if (0 <? db_tx_idx d)%nat then
      if nonce (db_tx d) <? account_nonce then Err (NonceTooLow (nonce (db_tx d)) account_nonce)
      else Err (Blocking (db_tx_idx d - 1)%nat)
    else if nonce (db_tx d) <? account_nonce then Err (NonceTooLow (nonce (db_tx d)) account_nonce)
    else Err (NonceTooHigh (nonce (db_tx d)) account_nonce)
  else Ok tt.

Definition insert_account (location_hash : LocationHash) (meta : AccountMeta) : Read unit := fun d =>
  Ok (tt, mkVmDB (db_tx_idx d) (db_tx d) (from_hash d) (to_hash d) (to_code_hash d) (is_lazy d)
            (read_set d) (<[location_hash := meta]> (read_accounts d))).

(** The rest of [basic] once the account is known. *)
Definition finish_basic (m2 m3 : MvMemory) (address : Address) (location_hash : LocationHash)
    (account : AccountInfo) (scan : LazyScan) : Read (option AccountInfo) := fun d =>
  let account_nonce := wrapping 64 (ai_nonce account + nonce_addition scan) in
  match check_nonce d location_hash account_nonce with
  | Err e => Err e
  | Ok _ =>
      let balance := I257.abs_value
        (I257.add (balance_addition scan) (I257.from_U256 (ai_balance account))) in
      (code_hash ← (if decide (Some location_hash = to_hash d) then mret (to_code_hash d)
                    else get_code_hash m2 address);
       code ← find_code m3 code_hash;
       _ ← insert_account location_hash
             (match code_hash with None => EOA balance account_nonce | Some _ => CA balance account_nonce end);
       mret (Some (mkAccountInfo balance account_nonce (default KECCAK_EMPTY code_hash) (Some code)))) d
  end.

(** The entries [basic] scans: none for the first transaction. *)
Definition visible (m : MvMemory) (d : VmDB) (location_hash : LocationHash) : list (TxIdx * Entry) :=
  if (0 <? db_tx_idx d)%nat then below m (db_tx_idx d) location_hash else [].

Definition basic_at (m1 m2 m3 : MvMemory) (address : Address) (location_hash : LocationHash) :
    Read (option AccountInfo) := fun d =>
  let prev := origins_at location_hash d in
  match scan_lazy prev (visible m1 d location_hash) (mkLazyScan None I257.NEGATIVE_ZERO 0 []) with
  | Err e => Err e
  | Ok scan =>
      match scan_storage address prev scan with
      | Err e => Err e
      | Ok scan' =>
          let d' := if bool_decide (prev = [])
                    then set_read_set (fun r => <[location_hash := new_origins scan']> r) d else d in
          match scan_account scan' with
          | Some account => finish_basic m2 m3 address location_hash account scan' d'
          | None => Ok (None, d')
          end
      end
  end.

(** The mock of a lazily updated sender. *)
Definition lazy_sender (d : VmDB) : AccountInfo :=
  mkAccountInfo U256_MAX (nonce (db_tx d)) KECCAK_EMPTY (Some Bytecode_default).

Definition basic (m1 m2 m3 : MvMemory) (address : Address) : VmDB -> outcome (result (option AccountInfo * VmDB) ReadError) :=
  fun d =>
  match hash_basic d address with
  | Return location_hash =>
      Return (
        if is_lazy d && (location_hash =? from_hash d) then Ok (Some (lazy_sender d), d)
        else if is_lazy d && bool_decide (Some location_hash = to_hash d) then Ok (None, d)
        else basic_at m1 m2 m3 address location_hash d)
  | Panic => Panic
  | UB => UB
  end.

(** ** The other reads *)

Definition code_by_hash (code_hash : Z) : Read Bytecode := from_db (code_by_hash_ref code_hash).

Definition storage_read (m : MvMemory) (address : Address) (index : Z) : Read Z :=
  let location_hash := hash_deterministic (Loc_Storage address index) in
  fun d =>
    match visible m d location_hash with
    | (closest_idx, Data tx_incarnation (LV_Storage v)) :: _ =>
        (_ ← push_origin location_hash (Origin_MvMemory (mkTxVersion closest_idx tx_incarnation));
         mret v) d
    | (closest_idx, Estimate) :: _ => Err (Blocking closest_idx)
    | (_, Data _ _) :: _ => Err InvalidValueType
    | [] =>
        (_ ← push_origin location_hash Origin_Storage; from_db (storage_ref address index)) d
    end.

Definition block_hash (number : Z) : Read Z := from_db (block_hash_ref number).

(** ** [VmDB::new] *)

Definition VmDB_new (m1 m2 : MvMemory) (tx_idx : TxIdx) (tx : TxEnv) (from : LocationHash)
    (to : option LocationHash) : outcome (result VmDB ReadError) :=
  let db := mkVmDB tx_idx tx from to None false ∅ ∅ in
  match kind tx with
  | Create => Return (Ok db)
  | Call address =>
      match get_code_hash m1 address db with
      | Err e => Return (Err e)
      | Ok (code_hash, db') =>
          let with_lazy (b : bool) : outcome (result VmDB ReadError) :=
            Return (Ok (mkVmDB tx_idx tx from to code_hash b (read_set db') (read_accounts db'))) in
          match code_hash with
          | Some _ => with_lazy false
          | None =>
              if bool_decide (is_Some (data m2 !! from)) then with_lazy true
              else match to with
                   | Some t => with_lazy (bool_decide (is_Some (data m2 !! t)))
                   | None => Panic
                   end
          end
      end
  end.

(** ** Running the EVM against it *)

(** The [k]-th database call sees the memories [3k], [3k+1] and [3k+2] of [ms].
    The outer layer is what [hash_basic] can do. *)
Fixpoint run_prog {A : Type} (ms : nat -> MvMemory) (k : nat) (p : Prog A) (d : VmDB) :
    outcome (result (A * VmDB) ReadError) :=
  let m1 := ms (3 * k)%nat in
  let m2 := ms (3 * k + 1)%nat in
  let m3 := ms (3 * k + 2)%nat in
  match p with
  | Ret a => Return (Ok (a, d))
  | ReadBasic address cont =>
      match basic m1 m2 m3 address d with
      | Return (Ok (a, d')) => run_prog ms (S k) (cont a) d'
      | Return (Err e) => Return (Err e)
      | Panic => Panic
      | UB => UB
      end
  | ReadCode code_hash cont =>
      match code_by_hash code_hash d with
      | Ok (a, d') => run_prog ms (S k) (cont a) d'
      | Err e => Return (Err e)
      end
  | ReadStorage address index cont =>
      match storage_read m1 address index d with
      | Ok (a, d') => run_prog ms (S k) (cont a) d'
      | Err e => Return (Err e)
      end
  | ReadBlockHash number cont =>
      match block_hash number d with
      | Ok (a, d') => run_prog ms (S k) (cont a) d'
      | Err e => Return (Err e)
      end
  end.


(** ** The read set only grows *)

Definition extends (d d' : VmDB) : Prop :=
  db_tx_idx d' = db_tx_idx d /\ db_tx d' = db_tx d /\ from_hash d' = from_hash d /\
  to_hash d' = to_hash d /\ to_code_hash d' = to_code_hash d /\ is_lazy d' = is_lazy d /\
  (forall x, origins_at x d ≠ [] -> read_set d' !! x = read_set d !! x).

Lemma extends_refl (d : VmDB) : extends d d.
Proof. repeat split; done. Qed.

Lemma extends_trans (d1 d2 d3 : VmDB) : extends d1 d2 -> extends d2 d3 -> extends d1 d3.
Proof.
  intros (? & ? & ? & ? & ? & ? & H7) (? & ? & ? & ? & ? & ? & H14).
  repeat split; try congruence. intros x Hx.
  assert (origins_at x d2 = origins_at x d1) as Heq by (unfold origins_at; by rewrite H7).
  rewrite <- H7 by done. apply H14. by rewrite Heq.
Qed.

Lemma bind_Ok {A B : Type} (m : Read A) (k : A -> Read B) (d d' : VmDB) (b : B) :
  (m ≫= k) d = Ok (b, d') -> exists a d1, m d = Ok (a, d1) /\ k a d1 = Ok (b, d').
Proof. unfold mbind, Read_bind. destruct (m d) as [[a d1]|e]; [eauto|done]. Qed.

Lemma bind_intro {A B : Type} (m : Read A) (k : A -> Read B) (d d1 : VmDB) (a : A)
    (r : result (B * VmDB) ReadError) :
  m d = Ok (a, d1) -> k a d1 = r -> (m ≫= k) d = r.
Proof. unfold mbind, Read_bind. by intros ->. Qed.

Lemma from_db_Ok {A : Type} (r : result A DbError) (d d' : VmDB) (a : A) :
  from_db r d = Ok (a, d') -> r = Ok a /\ d' = d.
Proof. unfold from_db. destruct r; [|done]. intros Heq. by simplify_eq. Qed.

(** What a successful push leaves at the location. *)
Lemma push_origin_Ok (loc : LocationHash) (o : ReadOrigin) (d d' : VmDB) (u : unit) :
  push_origin loc o d = Ok (u, d') ->
  extends d d' /\ (exists os, read_set d' !! loc = Some os /\ list.last os = Some o /\
    (origins_at loc d = [] -> os = [o])) /\
  (forall x, x ≠ loc -> read_set d' !! x = read_set d !! x) /\ read_accounts d' = read_accounts d /\
  (origins_at loc d ≠ [] -> d' = d).
Proof.
  unfold push_origin, origins_at. destruct (read_set d !! loc) as [os|] eqn:Hl; simpl.
  - destruct (list.last os) as [prev|] eqn:Hlast.
    + case_decide as Heq; [|done]. intros Hr. injection Hr as _ <-. subst.
      split; [apply extends_refl|split; [|split; [done|split; [done|done]]]].
      exists os. split; [done|split; [done|]]. by intros ->.
    + apply last_None in Hlast as ->. intros Hr. injection Hr as _ <-.
      split; [|split; [|split; [|split; [done|done]]]].
      * repeat split; try done. unfold origins_at. intros x Hx. cbn [read_set set_read_set].
        destruct (decide (x = loc)) as [->|]; [by rewrite Hl in Hx|by rewrite lookup_insert_ne by congruence].
      * exists [o]. simpl. by rewrite lookup_insert_eq.
      * intros x Hx. simpl. by rewrite lookup_insert_ne by congruence.
  - intros Hr. injection Hr as _ <-. split; [|split; [|split; [|split; [done|done]]]].
    + repeat split; try done. unfold origins_at. intros x Hx. cbn [read_set set_read_set].
      destruct (decide (x = loc)) as [->|]; [by rewrite Hl in Hx|by rewrite lookup_insert_ne by congruence].
    + exists [o]. simpl. by rewrite lookup_insert_eq.
    + intros x Hx. simpl. by rewrite lookup_insert_ne by congruence.
Qed.

(** ** Replaying a read against another memory *)

(** Two memories agree on what a version wrote. *)
Definition versions_agree (m m' : MvMemory) : Prop :=
  forall x t i v v', entry m x t = Some (Data i v) -> entry m' x t = Some (Data i v') -> v = v'.

(** The second memory knows the codes the first knows. *)
Definition codes_agree (m m' : MvMemory) : Prop :=
  forall h c, code_of_hash m h = Ok c -> code_of_hash m' h = Ok c.

Lemma below_entry (m : MvMemory) (t : TxIdx) (x : LocationHash) (i : TxIdx) (e : Entry) :
  (i, e) ∈ below m t x <-> (i < t)%nat /\ entry m x i = Some e.
Proof.
  unfold below, entry. destruct (data m !! x) as [w|]; simpl.
  - apply range_below_lookup.
  - split; [intros Hin; by apply elem_of_nil in Hin|by intros [_ ?]].
Qed.

Lemma below_agree (m m' : MvMemory) (t : TxIdx) (x : LocationHash) (i : TxIdx) (inc : TxIncarnation)
    (v v' : LocationValue) :
  versions_agree m m' -> (i, Data inc v) ∈ below m t x -> (i, Data inc v') ∈ below m' t x -> v = v'.
Proof. intros Ha [_ H1]%below_entry [_ H2]%below_entry. by eapply Ha. Qed.

Lemma validate_location_match (m : MvMemory) (t : TxIdx) (x : LocationHash) (os : list ReadOrigin) :
  validate_location m t x os = true -> match_origins (below m t x) os = true.
Proof.
  unfold validate_location, below. destruct (data m !! x); [done|].
  intros Hb. apply bool_decide_eq_true in Hb as ->. done.
Qed.

Lemma match_version_cons (iter : list (TxIdx * Entry)) (i : TxIdx) (inc : TxIncarnation) (os : list ReadOrigin) :
  match_origins iter (Origin_MvMemory (mkTxVersion i inc) :: os) = true ->
  exists v iter', iter = (i, Data inc v) :: iter' /\ match_origins iter' os = true.
Proof.
  destruct iter as [|[j [inc' v|]] iter']; simpl; [done| |done].
  destruct (Nat.eqb_spec j i) as [->|]; [|done]. destruct (Nat.eqb_spec inc inc') as [->|]; [|done].
  simpl. eauto.
Qed.

Lemma match_storage (iter : list (TxIdx * Entry)) (os : list ReadOrigin) :
  match_origins iter (Origin_Storage :: os) = true -> iter = [].
Proof. by destruct iter. Qed.

(** Locations read with [push_origin]. *)
Definition plain_location (x : LocationHash) : Prop :=
  (exists a, x = hash_deterministic (Loc_CodeHash a)) \/
  (exists a i, x = hash_deterministic (Loc_Storage a i)).

(** The hashes in the record are those of the transaction, and a plain location
    has at most one origin. *)
Record db_ok (d : VmDB) : Prop := mkDbOk {
  ok_from : from_hash d = hash_deterministic (Loc_Basic (caller (db_tx d)));
  ok_to : to_hash d = (fun a => hash_deterministic (Loc_Basic a)) <$> kind_to (kind (db_tx d));
  ok_plain : forall x, plain_location x -> (length (origins_at x d) <= 1)%nat;
}.

(** All recorded origins still match in [m']. *)
Definition still_valid (m' : MvMemory) (d : VmDB) : Prop :=
  forall x os, read_set d !! x = Some os -> validate_location m' (db_tx_idx d) x os = true.

(** The origins match, which is all that replaying a read takes. *)
Definition reads_match (m' : MvMemory) (d : VmDB) : Prop :=
  forall x os, read_set d !! x = Some os -> match_origins (below m' (db_tx_idx d) x) os = true.

Lemma still_valid_match (m' : MvMemory) (d : VmDB) : still_valid m' d -> reads_match m' d.
Proof. intros Hv x os Hx. by apply validate_location_match, Hv. Qed.

Lemma reads_match_extends (m' : MvMemory) (d d' : VmDB) (x : LocationHash) (os : list ReadOrigin) :
  reads_match m' d' -> extends d d' -> read_set d !! x = Some os -> os ≠ [] ->
  match_origins (below m' (db_tx_idx d) x) os = true.
Proof.
  intros Hv (Ht & _ & _ & _ & _ & _ & He) Hx Hne. rewrite <- Ht. apply Hv.
  rewrite He; [done|]. unfold origins_at. by rewrite Hx.
Qed.

Lemma push_origin_plain (loc : LocationHash) (o : ReadOrigin) (d d' : VmDB) (u : unit) :
  db_ok d -> plain_location loc -> push_origin loc o d = Ok (u, d') ->
  extends d d' /\ db_ok d' /\ read_set d' !! loc = Some [o].
Proof.
  intros Hok Hp Hpush. apply push_origin_Ok in Hpush as (He & (os & Hos & Hlast & Hnew) & Hother & _ & Hsame).
  assert (Hone : os = [o]).
  { destruct (origins_at loc d) as [|o1 rest] eqn:Ho; [by apply Hnew|].
    pose proof (ok_plain d Hok loc Hp) as Hlen. rewrite Ho in Hlen. simpl in Hlen.
    assert (Heq : d' = d) by (by apply Hsame). subst d'. unfold origins_at in Ho. rewrite Hos in Ho. simpl in Ho. subst os.
    destruct rest; [|simpl in Hlen; lia]. simpl in Hlast. congruence. }
  subst os. split; [done|split; [|done]]. destruct He as (_ & Htx & Hf & Hto & _).
  constructor; rewrite ?Htx, ?Hf, ?Hto; [apply Hok|apply Hok|].
  intros x Hx. destruct (decide (x = loc)) as [->|Hne].
  - unfold origins_at. rewrite Hos. simpl. lia.
  - unfold origins_at. rewrite Hother by done. by apply (ok_plain d Hok).
Qed.

Lemma visible_below (m : MvMemory) (d : VmDB) (x : LocationHash) :
  visible m d x = below m (db_tx_idx d) x.
Proof.
  unfold visible, below. destruct (db_tx_idx d); simpl; [|done]. by destruct (data m !! x).
Qed.

(** A step of a read: the state it leaves extends the one it found. *)
Definition grows (d d' : VmDB) : Prop := extends d d' /\ db_ok d'.

Lemma storage_grows (m : MvMemory) (a : Address) (i v : Z) (d d' : VmDB) :
  db_ok d -> storage_read m a i d = Ok (v, d') -> grows d d'.
Proof.
  intros Hok Hr. unfold storage_read in Hr.
  assert (Hp : plain_location (hash_deterministic (Loc_Storage a i))) by (right; by eexists _, _).
  destruct (visible m d _) as [|[c [inc [| |val| | |]|]] rest]; try discriminate Hr;
    apply bind_Ok in Hr as ([] & d1 & Hpush & Hdb);
    [apply from_db_Ok in Hdb as [_ ->]|injection Hdb as _ ->];
    by destruct (push_origin_plain _ _ _ _ _ Hok Hp Hpush) as (He & Hok' & Hos).
Qed.

Lemma code_hash_storage_grows (a : Address) (h : option Z) (d d' : VmDB) :
  db_ok d -> code_hash_in_storage a d = Ok (h, d') ->
  grows d d' /\ read_set d' !! hash_deterministic (Loc_CodeHash a) = Some [Origin_Storage].
Proof.
  intros Hok Hf. apply bind_Ok in Hf as ([] & d1 & Hpush & Hf).
  apply bind_Ok in Hf as (x & d2 & Hdb & Hf). injection Hf as _ ->. apply from_db_Ok in Hdb as [_ ->].
  by destruct (push_origin_plain _ _ _ _ _ Hok ltac:(left; by eexists) Hpush) as (He & Hok' & Hos).
Qed.

Lemma code_hash_grows (m : MvMemory) (a : Address) (h : option Z) (d d' : VmDB) :
  db_ok d -> get_code_hash m a d = Ok (h, d') -> grows d d'.
Proof.
  intros Hok Hr. unfold get_code_hash in Hr.
  destruct (below m _ _) as [|[c [inc [| ch | | | |]|]] rest];
    try (by destruct (code_hash_storage_grows _ _ _ _ Hok Hr)); try discriminate Hr.
  apply bind_Ok in Hr as ([] & d1 & Hpush & Hret). injection Hret as _ <-.
  by destruct (push_origin_plain _ _ _ _ _ Hok ltac:(left; by eexists) Hpush) as (He & Hok' & Hos).
Qed.

(** [storage] gives the same answer in a memory where its origin still matches. *)
Lemma storage_replay (m m' : MvMemory) (a : Address) (i v : Z) (d d' df : VmDB) :
  db_ok d -> versions_agree m m' -> storage_read m a i d = Ok (v, d') ->
  extends d' df -> reads_match m' df -> storage_read m' a i d = Ok (v, d').
Proof.
  intros Hok Hag Hr Hext Hv. unfold storage_read in *. rewrite !visible_below in *.
  set (loc := hash_deterministic _) in *.
  assert (Hp : plain_location loc) by (right; by eexists _, _).
  destruct (below m _ loc) as [|[c [inc [| |val| | |]|]] rest] eqn:Hb; try discriminate Hr.
  - apply bind_Ok in Hr as ([] & d1 & Hpush & Hdb). pose proof Hdb as Hdb'.
    apply from_db_Ok in Hdb' as [_ ->].
    destruct (push_origin_plain _ _ _ _ _ Hok Hp Hpush) as ((Ht & _) & _ & Hos).
    pose proof (reads_match_extends m' _ _ _ _ Hv Hext Hos ltac:(done)) as Hm.
    rewrite Ht in Hm. apply match_storage in Hm. rewrite Hm. by eapply bind_intro.
  - apply bind_Ok in Hr as ([] & d1 & Hpush & Hret). injection Hret as <- <-.
    destruct (push_origin_plain _ _ _ _ _ Hok Hp Hpush) as ((Ht & _) & _ & Hos).
    pose proof (reads_match_extends m' _ _ _ _ Hv Hext Hos ltac:(done)) as Hm.
    rewrite Ht in Hm. apply match_version_cons in Hm as (v' & iter' & Hb' & _). rewrite Hb'.
    assert (Heq : LV_Storage val = v').
    { eapply (below_agree m m'); [done|rewrite Hb; by left|rewrite Hb'; by left]. }
    subst v'. by eapply bind_intro.
Qed.

Lemma code_hash_storage_replay (m' : MvMemory) (a : Address) (h : option Z) (d d' df : VmDB) :
  db_ok d -> code_hash_in_storage a d = Ok (h, d') -> extends d' df -> reads_match m' df ->
  get_code_hash m' a d = Ok (h, d').
Proof.
  intros Hok Hf Hext Hv. destruct (code_hash_storage_grows _ _ _ _ Hok Hf) as [[(Ht & _) _] Hos].
  pose proof (reads_match_extends m' _ _ _ _ Hv Hext Hos ltac:(done)) as Hm.
  rewrite Ht in Hm. apply match_storage in Hm. unfold get_code_hash. by rewrite Hm.
Qed.

Lemma code_hash_replay (m m' : MvMemory) (a : Address) (h : option Z) (d d' df : VmDB) :
  db_ok d -> versions_agree m m' -> get_code_hash m a d = Ok (h, d') ->
  extends d' df -> reads_match m' df -> get_code_hash m' a d = Ok (h, d').
Proof.
  intros Hok Hag Hr Hext Hv. unfold get_code_hash in Hr.
  destruct (below m _ _) as [|[c [inc [| ch | | | |]|]] rest] eqn:Hb;
    try (by eapply code_hash_storage_replay); try discriminate Hr.
  apply bind_Ok in Hr as ([] & d1 & Hpush & Hret). injection Hret as <- <-.
  destruct (push_origin_plain _ _ _ _ _ Hok ltac:(left; by eexists) Hpush) as ((Ht & _) & _ & Hos).
  pose proof (reads_match_extends m' _ _ _ _ Hv Hext Hos ltac:(done)) as Hm.
  rewrite Ht in Hm. apply match_version_cons in Hm as (v' & iter' & Hb' & _).
  unfold get_code_hash. rewrite Hb'.
  assert (Heq : LV_CodeHash ch = v').
  { eapply (below_agree m m'); [done|rewrite Hb; by left|rewrite Hb'; by left]. }
  subst v'. by eapply bind_intro.
Qed.

(** ** Replaying [basic] *)

Lemma scan_lazy_extends (prev : list ReadOrigin) (iter : list (TxIdx * Entry)) (acc acc' : LazyScan) :
  scan_lazy prev iter acc = Ok acc' -> exists os, new_origins acc' = new_origins acc ++ os.
Proof.
  revert acc. induction iter as [|[c [inc v|]] iter IH]; intros acc Hs; cbn [scan_lazy] in Hs.
  - injection Hs as ->. exists []. by rewrite app_nil_r.
  - repeat (case_match; try discriminate Hs).
    1: injection Hs as <-; eauto.
    all: destruct (IH _ Hs) as (os & Hos); cbn [new_origins] in Hos; rewrite Hos, <- app_assoc; eauto.
  - discriminate Hs.
Qed.

(** The origins of a scan, with storage if it went past the last entry. *)
Definition scan_origins (acc : LazyScan) (os : list ReadOrigin) : list ReadOrigin :=
  match scan_account acc with Some _ => os | None => os ++ [Origin_Storage] end.

Lemma scan_lazy_replay (prev : list ReadOrigin) (iter iter' : list (TxIdx * Entry))
    (acc acc' : LazyScan) (os rest : list ReadOrigin) :
  scan_lazy prev iter acc = Ok acc' -> scan_account acc = None ->
  (forall i inc v v', (i, Data inc v) ∈ iter -> (i, Data inc v') ∈ iter' -> v = v') ->
  new_origins acc' = new_origins acc ++ os ->
  match_origins iter' (scan_origins acc' os ++ rest) = true ->
  scan_lazy prev iter' acc = Ok acc'.
Proof.
  revert iter' acc os. induction iter as [|[c [inc v|]] iter IH]; intros iter' acc os Hs Hnone Hag Hos Hm.
  - cbn in Hs. injection Hs as ->. unfold scan_origins in Hm. rewrite Hnone in Hm.
    rewrite <- (app_nil_r (new_origins acc')) in Hos at 1. apply app_inv_head in Hos as <-.
    cbn in Hm. apply match_storage in Hm as ->. done.
  - pose proof Hs as Hall. cbn [scan_lazy] in Hs.
    destruct (negb (bool_decide (prev = [])) && (length prev =? length (new_origins acc))%nat) eqn:H1;
      [discriminate Hs|].
    destruct (negb (bool_decide (prev = [])) && _) eqn:H2 in Hs; [discriminate Hs|].
    set (o := Origin_MvMemory (mkTxVersion c inc)) in *.
    assert (Hhead : exists os', os = o :: os').
    { assert (Hx : exists os', new_origins acc' = new_origins acc ++ o :: os').
      { destruct v; try discriminate Hs;
          [injection Hs as <-; exists []; done| |]; apply scan_lazy_extends in Hs as (os' & Hos');
          cbn [new_origins] in Hos'; rewrite <- app_assoc in Hos'; eauto. }
      destruct Hx as (os' & Hx). rewrite Hx in Hos. apply app_inv_head in Hos as <-. eauto. }
    destruct Hhead as (os' & ->).
    assert (Hm' : match_origins iter' (o :: (scan_origins acc' os' ++ rest)) = true).
    { unfold scan_origins in *. by destruct (scan_account acc'). }
    apply match_version_cons in Hm' as (v' & iter'' & -> & Hm'').
    assert (v = v') as <- by (eapply Hag; by left).
    cbn [scan_lazy]. rewrite H1. fold o. rewrite H2.
    destruct v; try discriminate Hs; [exact Hs| |].
    all: eapply (IH iter'' _ os'); [exact Hs|done| | |exact Hm''];
      [intros; eapply Hag; by right|cbn [new_origins]; by rewrite Hos, <- app_assoc].
  - discriminate Hs.
Qed.

(** A scan that has to agree with an earlier one follows its origins. *)
Lemma scan_lazy_prefix (prev : list ReadOrigin) (iter : list (TxIdx * Entry)) (acc acc' : LazyScan) :
  prev ≠ [] -> scan_lazy prev iter acc = Ok acc' -> new_origins acc `prefix_of` prev ->
  new_origins acc' `prefix_of` prev.
Proof.
  intros Hne. revert acc. induction iter as [|[c [inc v|]] iter IH]; intros acc Hs Hpre;
    cbn [scan_lazy] in Hs.
  - by injection Hs as <-.
  - rewrite (bool_decide_eq_false_2 (prev = [])) in Hs by done. cbn [negb andb] in Hs.
    destruct (length prev =? _)%nat; [discriminate Hs|].
    destruct (bool_decide (_ !! _ = _)) eqn:Ho; [|discriminate Hs]. apply bool_decide_eq_true in Ho.
    assert (Hp : new_origins acc ++ [Origin_MvMemory (mkTxVersion c inc)] `prefix_of` prev).
    { destruct Hpre as (k & ->). rewrite lookup_app_r in Ho by lia. rewrite Nat.sub_diag in Ho.
      destruct k as [|o k]; [done|]. injection Ho as ->. exists k. by rewrite <- app_assoc. }
    destruct v; try discriminate Hs; [by injection Hs as <-| |]; by apply (IH _ Hs).
  - discriminate Hs.
Qed.

Lemma scan_storage_Ok (a : Address) (prev : list ReadOrigin) (acc acc' : LazyScan) :
  scan_storage a prev acc = Ok acc' -> prev = [] \/ new_origins acc `prefix_of` prev ->
  (prev = [] -> new_origins acc' = scan_origins acc (new_origins acc)) /\
  (prev ≠ [] -> exists rest, prev = scan_origins acc (new_origins acc) ++ rest).
Proof.
  intros Hs Hpre. unfold scan_storage, scan_origins in *. destruct (scan_account acc) as [acct|].
  - injection Hs as <-. split; [done|]. intros Hne. destruct Hpre as [?|[k ->]]; [done|by exists k].
  - destruct (decide (prev = [])) as [->|Hne].
    + split; [|done]. intros _. cbn [bool_decide negb andb] in Hs.
      rewrite bool_decide_eq_true_2 in Hs by done. cbn [negb andb] in Hs.
      repeat (case_match; try discriminate Hs); by injection Hs as <-.
    + split; [done|]. intros _. rewrite bool_decide_eq_false_2 in Hs by done. cbn [negb andb] in Hs.
      destruct (_ || _) eqn:Hbad; [discriminate Hs|]. apply orb_false_iff in Hbad as [Hlen Hlast].
      apply negb_false_iff, Nat.eqb_eq in Hlen. apply negb_false_iff, bool_decide_eq_true in Hlast.
      destruct Hpre as [?|[k ->]]; [done|]. rewrite length_app in Hlen.
      destruct k as [|o [|? ?]]; simpl in Hlen; try lia.
      rewrite last_snoc in Hlast. injection Hlast as ->. exists []. by rewrite app_nil_r.
Qed.

(** The account part of [basic] gives the same scan in [m']. *)
Lemma scan_replay (m m' : MvMemory) (t : TxIdx) (loc : LocationHash) (a : Address)
    (prev : list ReadOrigin) (scan scan' : LazyScan) :
  versions_agree m m' ->
  scan_lazy prev (below m t loc) (mkLazyScan None I257.NEGATIVE_ZERO 0 []) = Ok scan ->
  scan_storage a prev scan = Ok scan' ->
  match_origins (below m' t loc) (if bool_decide (prev = []) then new_origins scan' else prev) = true ->
  scan_lazy prev (below m' t loc) (mkLazyScan None I257.NEGATIVE_ZERO 0 []) = Ok scan.
Proof.
  intros Hag Hs Hst Hm.
  assert (Hpre : prev = [] \/ new_origins scan `prefix_of` prev).
  { destruct (decide (prev = [])) as [|Hne]; [by left|right].
    eapply scan_lazy_prefix; [done|exact Hs|apply prefix_nil]. }
  destruct (scan_storage_Ok _ _ _ _ Hst Hpre) as [Hnew Hprev].
  assert (Hrest : exists rest, (if bool_decide (prev = []) then new_origins scan' else prev) =
    scan_origins scan (new_origins scan) ++ rest).
  { case_bool_decide as Hc; [exists []; rewrite app_nil_r; by apply Hnew|by apply Hprev]. }
  destruct Hrest as (rest & Hrest). rewrite Hrest in Hm.
  eapply (scan_lazy_replay prev (below m t loc) _ _ _ (new_origins scan) rest);
    [exact Hs|done| |done|exact Hm].
  intros i inc v v'. by apply below_agree.
Qed.

Lemma scan_found_nonempty (prev : list ReadOrigin) (iter : list (TxIdx * Entry)) (acc acc' : LazyScan)
    (account : AccountInfo) :
  scan_account acc = None -> scan_lazy prev iter acc = Ok acc' -> scan_account acc' = Some account ->
  new_origins acc' ≠ [].
Proof.
  revert acc. induction iter as [|[c [inc v|]] iter IH]; intros acc Hn Hs Ha; cbn [scan_lazy] in Hs.
  - injection Hs as ->. congruence.
  - repeat (case_match; try discriminate Hs); [injection Hs as <-| |]; cbn [new_origins] in *.
    + by destruct (new_origins acc).
    + by eapply IH; [|exact Hs|].
    + by eapply IH; [|exact Hs|].
  - discriminate Hs.
Qed.

Lemma scan_storage_nonempty (a : Address) (iter : list (TxIdx * Entry)) (scan scan' : LazyScan) :
  scan_lazy [] iter (mkLazyScan None I257.NEGATIVE_ZERO 0 []) = Ok scan ->
  scan_storage a [] scan = Ok scan' -> new_origins scan' ≠ [].
Proof.
  intros Hs Hst. destruct (scan_storage_Ok _ _ _ _ Hst ltac:(by left)) as [Hnew _].
  rewrite Hnew by done. unfold scan_origins. destruct (scan_account scan) eqn:Ha.
  - by eapply scan_found_nonempty; [|exact Hs|].
  - by destruct (new_origins scan).
Qed.

Context (no_collision : forall a x, plain_location x -> hash_deterministic (Loc_Basic a) ≠ x).

Lemma find_code_Ok (m : MvMemory) (h : option Z) (d d' : VmDB) (c : Bytecode) :
  find_code m h d = Ok (c, d') -> d' = d.
Proof.
  unfold find_code. destruct h as [h|]; [destruct (code_of_hash m h)|]; intros Heq; by simplify_eq.
Qed.

Lemma find_code_replay (m m' : MvMemory) (h : option Z) (d d' : VmDB) (c : Bytecode) :
  codes_agree m m' -> find_code m h d = Ok (c, d') -> find_code m' h d = Ok (c, d').
Proof.
  intros Hag. unfold find_code. destruct h as [h|]; [|done].
  destruct (code_of_hash m h) as [c'|] eqn:E; [|done]. by rewrite (Hag _ _ E).
Qed.

Lemma insert_account_ok (x : LocationHash) (meta : AccountMeta) (d d' : VmDB) (u : unit) :
  insert_account x meta d = Ok (u, d') -> extends d d' /\ (db_ok d -> db_ok d').
Proof.
  intros Hi. injection Hi as _ <-. split; [repeat split; done|]. intros Hok. by destruct Hok.
Qed.

Lemma finish_basic_grows (m2 m3 : MvMemory) (a : Address) (loc : LocationHash) (acct : AccountInfo)
    (scan : LazyScan) (r : option AccountInfo) (d d' : VmDB) :
  db_ok d -> finish_basic m2 m3 a loc acct scan d = Ok (r, d') -> grows d d'.
Proof.
  intros Hok Hf. unfold finish_basic in *. destruct (check_nonce d loc _); [|discriminate Hf].
  apply bind_Ok in Hf as (h & d1 & Hh & Hf). apply bind_Ok in Hf as (c & d2 & Hc & Hf).
  pose proof (find_code_Ok _ _ _ _ _ Hc) as ->.
  apply bind_Ok in Hf as ([] & d3 & Hi & Hret). injection Hret as _ ->.
  destruct (insert_account_ok _ _ _ _ _ Hi) as [He3 Hok3].
  assert (Hg : grows d d1).
  { case_decide; [injection Hh as _ <-; split; [apply extends_refl|done]|by eapply code_hash_grows]. }
  destruct Hg as [He1 Hok1]. split; [by eapply extends_trans|by apply Hok3].
Qed.

Lemma finish_basic_replay (m2 m3 m' : MvMemory) (a : Address) (loc : LocationHash) (acct : AccountInfo)
    (scan : LazyScan) (r : option AccountInfo) (d d' df : VmDB) :
  db_ok d -> versions_agree m2 m' -> codes_agree m3 m' ->
  finish_basic m2 m3 a loc acct scan d = Ok (r, d') -> extends d' df -> reads_match m' df ->
  finish_basic m' m' a loc acct scan d = Ok (r, d').
Proof.
  intros Hok Hv2 Hc3 Hf Hext Hval. unfold finish_basic in *.
  destruct (check_nonce d loc _); [|discriminate Hf].
  apply bind_Ok in Hf as (h & d1 & Hh & Hf). apply bind_Ok in Hf as (c & d2 & Hc & Hf).
  pose proof (find_code_Ok _ _ _ _ _ Hc) as ->.
  pose proof Hf as Hf'. apply bind_Ok in Hf' as ([] & d3 & Hi & Hret). injection Hret as _ ->.
  destruct (insert_account_ok _ _ _ _ _ Hi) as [He3 _].
  eapply bind_intro; [|eapply bind_intro; [by eapply find_code_replay|exact Hf]].
  case_decide; [exact Hh|]. eapply code_hash_replay; [done|done|exact Hh|by eapply extends_trans|done].
Qed.

(** The state [basic] passes on after the scan. *)
Lemma scan_state (m : MvMemory) (a : Address) (loc : LocationHash) (d : VmDB) (scan scan' : LazyScan) :
  let prev := origins_at loc d in
  let os := if bool_decide (prev = []) then new_origins scan' else prev in
  let d1 := if bool_decide (prev = [])
            then set_read_set (fun r => <[loc := new_origins scan']> r) d else d in
  db_ok d -> ~ plain_location loc ->
  scan_lazy prev (below m (db_tx_idx d) loc) (mkLazyScan None I257.NEGATIVE_ZERO 0 []) = Ok scan ->
  scan_storage a prev scan = Ok scan' ->
  grows d d1 /\ read_set d1 !! loc = Some os /\ os ≠ [].
Proof.
  intros prev os d1 Hok Hnp Hs Hst. unfold os, d1. case_bool_decide as Hp.
  - split; [split|].
    + repeat split; try done. intros x Hx. cbn [read_set set_read_set].
      apply lookup_insert_ne. intros <-. by apply Hx.
    + destruct Hok as [? ? Hpl]. constructor; [done|done|]. intros x Hx. unfold origins_at.
      cbn [read_set set_read_set]. rewrite lookup_insert_ne by congruence. by apply Hpl.
    + cbn [read_set set_read_set]. rewrite lookup_insert_eq. split; [done|].
      rewrite Hp in Hs, Hst. by eapply scan_storage_nonempty.
  - split; [split; [apply extends_refl|done]|]. split; [|done].
    unfold prev, origins_at in *. by destruct (read_set d !! loc).
Qed.

Lemma basic_at_grows (m1 m2 m3 : MvMemory) (a : Address) (loc : LocationHash)
    (r : option AccountInfo) (d d' : VmDB) :
  db_ok d -> ~ plain_location loc -> basic_at m1 m2 m3 a loc d = Ok (r, d') -> grows d d'.
Proof.
  intros Hok Hnp Hb. unfold basic_at in Hb. rewrite visible_below in Hb.
  destruct (scan_lazy _ (below m1 _ loc) _) as [scan|] eqn:Hs; [|discriminate Hb].
  destruct (scan_storage a _ scan) as [scan'|] eqn:Hst; [|discriminate Hb].
  destruct (scan_state m1 a loc d scan scan' Hok Hnp Hs Hst) as ([He1 Hok1] & _ & _).
  destruct (scan_account scan').
  - apply finish_basic_grows in Hb as [He Hok2]; [|done]. split; [by eapply extends_trans|done].
  - injection Hb as _ <-. by split.
Qed.

Lemma basic_at_replay (m1 m2 m3 m' : MvMemory) (a : Address) (loc : LocationHash)
    (r : option AccountInfo) (d d' df : VmDB) :
  db_ok d -> ~ plain_location loc ->
  versions_agree m1 m' -> versions_agree m2 m' -> codes_agree m3 m' ->
  basic_at m1 m2 m3 a loc d = Ok (r, d') -> extends d' df -> reads_match m' df ->
  basic_at m' m' m' a loc d = Ok (r, d').
Proof.
  intros Hok Hnp Hv1 Hv2 Hc3 Hb Hext Hval. unfold basic_at in *. rewrite !visible_below in *.
  destruct (scan_lazy _ (below m1 _ loc) _) as [scan|] eqn:Hs; [|discriminate Hb].
  destruct (scan_storage a _ scan) as [scan'|] eqn:Hst; [|discriminate Hb].
  destruct (scan_state m1 a loc d scan scan' Hok Hnp Hs Hst) as ([He1 Hok1] & Hos & Hne).
  set (d1 := if bool_decide _ then set_read_set _ d else d) in *.
  assert (Hfin : extends d1 d' /\
    match scan_account scan' with
    | Some account => finish_basic m' m' a loc account scan' d1
    | None => Ok (None, d1)
    end = Ok (r, d')).
  { destruct (scan_account scan').
    - split; [by eapply finish_basic_grows|by eapply finish_basic_replay].
    - injection Hb as <- <-. split; [apply extends_refl|done]. }
  destruct Hfin as [He' Hfin]. destruct He1 as (Ht & _).
  pose proof (reads_match_extends m' d1 df loc _ Hval (extends_trans _ _ _ He' Hext) Hos Hne) as Hm.
  rewrite Ht in Hm. rewrite (scan_replay m1 m' _ loc a _ scan scan' Hv1 Hs Hst Hm). by rewrite Hst.
Qed.

Lemma hash_basic_ok (d : VmDB) (a : Address) :
  db_ok d -> hash_basic d a = Return (hash_deterministic (Loc_Basic a)).
Proof.
  intros [Hf Ht _]. unfold hash_basic. destruct (Z.eqb_spec a (caller (db_tx d))) as [->|].
  - by rewrite Hf.
  - destruct (kind (db_tx d)) as [to|]; [|done]. destruct (Z.eqb_spec to a) as [->|]; [|done].
    by rewrite Ht.
Qed.

Lemma basic_not_plain (a : Address) : ~ plain_location (hash_deterministic (Loc_Basic a)).
Proof using no_collision. intros Hp. by apply (no_collision a _ Hp). Qed.

Lemma basic_grows (m1 m2 m3 : MvMemory) (a : Address) (r : option AccountInfo) (d d' : VmDB) :
  db_ok d -> basic m1 m2 m3 a d = Return (Ok (r, d')) -> grows d d'.
Proof using no_collision.
  intros Hok Hb. unfold basic in Hb. rewrite hash_basic_ok in Hb by done. injection Hb as Hb.
  assert (Hrefl : grows d d) by (split; [apply extends_refl|done]).
  repeat case_match; simplify_eq; try done. eapply basic_at_grows; [done|apply basic_not_plain|done].
Qed.

Lemma basic_replay (m1 m2 m3 m' : MvMemory) (a : Address) (r : option AccountInfo) (d d' df : VmDB) :
  db_ok d -> versions_agree m1 m' -> versions_agree m2 m' -> codes_agree m3 m' ->
  basic m1 m2 m3 a d = Return (Ok (r, d')) -> extends d' df -> reads_match m' df ->
  basic m' m' m' a d = Return (Ok (r, d')).
Proof using no_collision.
  intros Hok Hv1 Hv2 Hc3 Hb Hext Hval. unfold basic in *. rewrite hash_basic_ok in * by done.
  injection Hb as Hb. f_equal. destruct (is_lazy d && _); [done|].
  destruct (is_lazy d && _); [done|]. apply (basic_at_replay m1 m2 m3 m' a _ r d d' df); try done. apply basic_not_plain.
Qed.

Lemma run_prog_grows {A : Type} (ms : nat -> MvMemory) (p : Prog A) :
  forall k d a df, db_ok d -> run_prog ms k p d = Return (Ok (a, df)) -> grows d df.
Proof using no_collision.
  induction p as [a0|addr cont IH|h cont IH|addr i cont IH|n cont IH];
    intros k d a df Hok Hr; cbn [run_prog] in *.
  - injection Hr as _ <-. split; [apply extends_refl|done].
  - destruct (basic _ _ _ addr d) as [[[r d1]|e]| |] eqn:Hb; try discriminate Hr.
    apply basic_grows in Hb as [He Hok1]; [|done]. destruct (IH _ _ _ _ _ Hok1 Hr) as [He' Hok'].
    split; [by eapply extends_trans|done].
  - destruct (code_by_hash h d) as [[r d1]|e] eqn:Hb; [|discriminate Hr].
    apply from_db_Ok in Hb as [_ ->]. by eapply IH.
  - destruct (storage_read _ addr i d) as [[r d1]|e] eqn:Hb; [|discriminate Hr].
    apply storage_grows in Hb as [He Hok1]; [|done]. destruct (IH _ _ _ _ _ Hok1 Hr) as [He' Hok'].
    split; [by eapply extends_trans|done].
  - destruct (block_hash n d) as [[r d1]|e] eqn:Hb; [|discriminate Hr].
    apply from_db_Ok in Hb as [_ ->]. by eapply IH.
Qed.

Lemma run_prog_replay {A : Type} (ms : nat -> MvMemory) (m' : MvMemory) (p : Prog A) :
  (forall k, versions_agree (ms k) m') -> (forall k, codes_agree (ms k) m') ->
  forall k j d a df, db_ok d -> run_prog ms k p d = Return (Ok (a, df)) -> reads_match m' df ->
  run_prog (fun _ => m') j p d = Return (Ok (a, df)).
Proof using no_collision.
  intros Hv Hc. induction p as [a0|addr cont IH|h cont IH|addr i cont IH|n cont IH];
    intros k j d a df Hok Hr Hval; cbn [run_prog] in *.
  - done.
  - destruct (basic _ _ _ addr d) as [[[r d1]|e]| |] eqn:Hb in Hr; try discriminate Hr.
    destruct (basic_grows _ _ _ _ _ _ _ Hok Hb) as [He Hok1].
    destruct (run_prog_grows _ _ _ _ _ _ Hok1 Hr) as [He1 _].
    rewrite (basic_replay _ _ _ m' _ _ _ _ df Hok (Hv _) (Hv _) (Hc _) Hb He1 Hval). by eapply IH.
  - destruct (code_by_hash h d) as [[r d1]|e] eqn:Hb; [|discriminate Hr].
    apply from_db_Ok in Hb as [_ ->]. by eapply IH.
  - destruct (storage_read _ addr i d) as [[r d1]|e] eqn:Hb in Hr; [|discriminate Hr].
    destruct (storage_grows _ _ _ _ _ _ Hok Hb) as [He Hok1].
    destruct (run_prog_grows _ _ _ _ _ _ Hok1 Hr) as [He1 _].
    rewrite (storage_replay _ m' _ _ _ _ _ df Hok (Hv _) Hb He1 Hval). by eapply IH.
  - destruct (block_hash n d) as [[r d1]|e] eqn:Hb; [|discriminate Hr].
    apply from_db_Ok in Hb as [_ ->]. by eapply IH.
Qed.

(** ** What blocks a transaction *)

Lemma scan_lazy_blocking (prev : list ReadOrigin) (iter : list (TxIdx * Entry)) (acc : LazyScan) (b : TxIdx) :
  scan_lazy prev iter acc = Err (Blocking b) -> (b, Estimate) ∈ iter.
Proof.
  revert acc. induction iter as [|[c [inc v|]] iter IH]; intros acc Hs; cbn [scan_lazy] in Hs;
    [done| |injection Hs as ->; by left].
  repeat (case_match; try discriminate Hs); right; by eapply IH.
Qed.

Lemma push_origin_not_blocking (loc : LocationHash) (o : ReadOrigin) (d : VmDB) (b : TxIdx) :
  push_origin loc o d ≠ Err (Blocking b).
Proof. unfold push_origin. repeat case_match; done. Qed.

Lemma code_hash_not_blocking (m : MvMemory) (a : Address) (d : VmDB) (b : TxIdx) :
  get_code_hash m a d ≠ Err (Blocking b).
Proof.
  unfold get_code_hash, code_hash_in_storage, mbind, Read_bind, from_db, mret, Read_ret.
  pose proof (push_origin_not_blocking (hash_deterministic (Loc_CodeHash a))) as Hp.
  intros Hx. repeat (case_match; simplify_eq/=); try done; by eapply Hp.
Qed.

Lemma check_nonce_blocking (d : VmDB) (loc : LocationHash) (n : Z) (b : TxIdx) :
  check_nonce d loc n = Err (Blocking b) -> (b < db_tx_idx d)%nat.
Proof.
  unfold check_nonce. repeat case_match; intros Hx; simplify_eq.
  match goal with K : (0 <? _)%nat = true |- _ => apply Nat.ltb_lt in K end. lia.
Qed.

Lemma storage_blocking (m : MvMemory) (a : Address) (i : Z) (d : VmDB) (b : TxIdx) :
  storage_read m a i d = Err (Blocking b) -> (b < db_tx_idx d)%nat.
Proof.
  unfold storage_read. rewrite visible_below. intros Hx.
  pose proof (push_origin_not_blocking (hash_deterministic (Loc_Storage a i))) as Hp.
  destruct (below m _ _) as [|[c [inc [| |val| | |]|]] rest] eqn:Hb; try discriminate Hx;
    unfold mbind, Read_bind, from_db, mret, Read_ret in Hx;
    try (repeat (case_match; simplify_eq/=); exfalso; by eapply Hp).
  injection Hx as <-. assert (Hin : (c, Estimate) ∈ below m (db_tx_idx d) (hash_deterministic (Loc_Storage a i)))
    by (rewrite Hb; by left). by apply below_entry in Hin as [? _].
Qed.

Lemma finish_basic_blocking (m2 m3 : MvMemory) (a : Address) (loc : LocationHash) (acct : AccountInfo)
    (scan : LazyScan) (d : VmDB) (b : TxIdx) :
  finish_basic m2 m3 a loc acct scan d = Err (Blocking b) -> (b < db_tx_idx d)%nat.
Proof.
  unfold finish_basic. intros Hx. destruct (check_nonce d loc _) as [[]|e] eqn:Hn.
  - exfalso. unfold mbind, Read_bind, mret, Read_ret, find_code, code_of_hash, map_err, insert_account in Hx.
    destruct (decide (Some loc = to_hash d)).
    + repeat (case_match; simplify_eq/=).
    + destruct (get_code_hash m2 a d) as [[h d1]|e] eqn:Hh; [repeat (case_match; simplify_eq/=)|].
      injection Hx as ->. by apply code_hash_not_blocking in Hh.
  - injection Hx as ->. by apply check_nonce_blocking in Hn.
Qed.

Lemma basic_blocking (m1 m2 m3 : MvMemory) (a : Address) (d : VmDB) (b : TxIdx) :
  basic m1 m2 m3 a d = Return (Err (Blocking b)) -> (b < db_tx_idx d)%nat.
Proof.
  unfold basic, basic_at. intros Hx. destruct (hash_basic d a) as [loc| |]; try discriminate Hx.
  injection Hx as Hx. rewrite visible_below in Hx.
  destruct (is_lazy d && _); [discriminate Hx|]. destruct (is_lazy d && _); [discriminate Hx|].
  destruct (scan_lazy _ _ _) as [scan|e] eqn:Hs.
  - destruct (scan_storage a _ scan) as [scan'|e] eqn:Hst.
    + destruct (scan_account scan'); [|discriminate Hx].
      apply finish_basic_blocking in Hx. by case_match.
    + injection Hx as ->. unfold scan_storage in Hst. repeat (case_match; simplify_eq/=).
  - injection Hx as ->. apply scan_lazy_blocking, below_entry in Hs as [? _]. done.
Qed.

(** A transaction is only ever told to wait for a lower one: an estimate comes
    from below, and a nonce that is too high waits for the predecessor. *)
Lemma run_prog_blocking {A : Type} (ms : nat -> MvMemory) (p : Prog A) (k : nat) (d : VmDB) (b : TxIdx)
    (Hok : db_ok d) (Hr : run_prog ms k p d = Return (Err (Blocking b))) :
  (b < db_tx_idx d)%nat.
Proof using no_collision.
  revert k d Hok Hr. induction p as [a0|addr cont IH|h cont IH|addr i cont IH|n cont IH];
    intros k d Hok Hr; cbn [run_prog] in *; [done| | | |].
  - destruct (basic _ _ _ addr d) as [[[r d1]|e]| |] eqn:Hb; try discriminate Hr.
    + destruct (basic_grows _ _ _ _ _ _ _ Hok Hb) as [(Ht & _) Hok1]. rewrite <- Ht. by eapply IH.
    + injection Hr as ->. by eapply basic_blocking.
  - destruct (code_by_hash h d) as [[r d1]|e] eqn:Hb.
    + apply from_db_Ok in Hb as [_ ->]. by eapply IH.
    + injection Hr as ->. unfold code_by_hash, from_db in Hb. by destruct (code_by_hash_ref h).
  - destruct (storage_read _ addr i d) as [[r d1]|e] eqn:Hb.
    + destruct (storage_grows _ _ _ _ _ _ Hok Hb) as [(Ht & _) Hok1]. rewrite <- Ht. by eapply IH.
    + injection Hr as ->. by eapply storage_blocking.
  - destruct (block_hash n d) as [[r d1]|e] eqn:Hb.
    + apply from_db_Ok in Hb as [_ ->]. by eapply IH.
    + injection Hr as ->. unfold block_hash, from_db in Hb. by destruct (block_hash_ref n).
Qed.

(** [hash_basic] is the only part of a read that could panic. *)
Lemma run_prog_returns {A : Type} (ms : nat -> MvMemory) (p : Prog A) (k : nat) (d : VmDB) :
  db_ok d -> exists r, run_prog ms k p d = Return r.
Proof using no_collision.
  revert k d. induction p as [a0|addr cont IH|h cont IH|addr i cont IH|n cont IH];
    intros k d Hok; cbn [run_prog]; [by eexists| | | |].
  - assert (Hb : exists r, basic (ms (3 * k)%nat) (ms (3 * k + 1)%nat) (ms (3 * k + 2)%nat) addr d = Return r)
      by (unfold basic; rewrite hash_basic_ok by done; by eexists).
    destruct Hb as ([[r d1]|e] & Hb); rewrite Hb; [|by eexists].
    destruct (basic_grows _ _ _ _ _ _ _ Hok Hb) as [_ Hok1]. by apply IH.
  - destruct (code_by_hash h d) as [[r d1]|e] eqn:Hb; [|by eexists].
    apply from_db_Ok in Hb as [_ ->]. by apply IH.
  - destruct (storage_read _ addr i d) as [[r d1]|e] eqn:Hb; [|by eexists].
    destruct (storage_grows _ _ _ _ _ _ Hok Hb) as [_ Hok1]. by apply IH.
  - destruct (block_hash n d) as [[r d1]|e] eqn:Hb; [|by eexists].
    apply from_db_Ok in Hb as [_ ->]. by apply IH.
Qed.

(** ** The database a transaction starts with *)

Lemma fresh_db_ok (t : TxIdx) (tx : TxEnv) (c : option Z) (b : bool) :
  db_ok (mkVmDB t tx (hash_deterministic (Loc_Basic (caller tx)))
    ((fun a => hash_deterministic (Loc_Basic a)) <$> kind_to (kind tx)) c b ∅ ∅).
Proof.
  constructor; [done|done|]. intros x _. unfold origins_at. cbn [read_set]. rewrite lookup_empty. simpl. lia.
Qed.

Lemma VmDB_new_inv (m1 m2 : MvMemory) (t : TxIdx) (tx : TxEnv) (from : LocationHash)
    (to : option LocationHash) (d : VmDB) :
  VmDB_new m1 m2 t tx from to = Return (Ok d) ->
  (kind tx = Create /\ d = mkVmDB t tx from to None false ∅ ∅) \/
  exists a h d1, kind tx = Call a /\
    get_code_hash m1 a (mkVmDB t tx from to None false ∅ ∅) = Ok (h, d1) /\
    d = mkVmDB t tx from to h (is_lazy d) (read_set d1) (read_accounts d1).
Proof.
  unfold VmDB_new. intros Hn. destruct (kind tx) as [a|]; [right|left; by injection Hn as <-].
  destruct (get_code_hash m1 a _) as [[h d1]|e] eqn:Hh; [|discriminate Hn]. exists a, h, d1.
  split; [done|split; [done|]]. repeat case_match; simplify_eq; done.
Qed.

Lemma VmDB_new_ok (m1 m2 : MvMemory) (t : TxIdx) (tx : TxEnv) (d : VmDB) :
  VmDB_new m1 m2 t tx (hash_deterministic (Loc_Basic (caller tx)))
    ((fun a => hash_deterministic (Loc_Basic a)) <$> kind_to (kind tx)) = Return (Ok d) ->
  db_ok d /\ db_tx_idx d = t /\ db_tx d = tx.
Proof.
  intros Hn. pose proof (fresh_db_ok t tx None false) as Hok0.
  apply VmDB_new_inv in Hn as [[_ ->]|(a & h & d1 & Hk & Hh & ->)]; [done|].
  destruct (code_hash_grows _ _ _ _ _ Hok0 Hh) as [_ [_ _ Hpl]]. split; [|done].
  constructor; [done|done|exact Hpl].
Qed.

Lemma VmDB_new_returns (m1 m2 : MvMemory) (t : TxIdx) (tx : TxEnv) :
  exists r, VmDB_new m1 m2 t tx (hash_deterministic (Loc_Basic (caller tx)))
    ((fun a => hash_deterministic (Loc_Basic a)) <$> kind_to (kind tx)) = Return r.
Proof.
  unfold VmDB_new. destruct (kind tx) as [to|]; [|by eexists].
  destruct (get_code_hash m1 to _) as [[h d1]|e]; [|by eexists].
  destruct h; [by eexists|]. simpl. case_bool_decide; by eexists.
Qed.

Lemma VmDB_new_blocking (m1 m2 : MvMemory) (t : TxIdx) (tx : TxEnv) (from : LocationHash)
    (to : option LocationHash) (b : TxIdx) :
  VmDB_new m1 m2 t tx from to ≠ Return (Err (Blocking b)).
Proof.
  unfold VmDB_new. destruct (kind tx) as [a|]; [|done].
  destruct (get_code_hash m1 a _) as [[h d1]|e] eqn:Hh.
  - intros Hx. repeat (case_match; simplify_eq/=).
  - intros Hx. injection Hx as ->. by apply code_hash_not_blocking in Hh.
Qed.

Lemma VmDB_new_replay (m1 m2 m' : MvMemory) (t : TxIdx) (tx : TxEnv) (d df : VmDB) :
  versions_agree m1 m' ->
  VmDB_new m1 m2 t tx (hash_deterministic (Loc_Basic (caller tx)))
    ((fun a => hash_deterministic (Loc_Basic a)) <$> kind_to (kind tx)) = Return (Ok d) ->
  extends d df -> reads_match m' df ->
  VmDB_new m' m2 t tx (hash_deterministic (Loc_Basic (caller tx)))
    ((fun a => hash_deterministic (Loc_Basic a)) <$> kind_to (kind tx)) = Return (Ok d).
Proof.
  intros Hag Hn Hext Hval. pose proof (fresh_db_ok t tx None false) as Hok0.
  pose proof Hn as Hinv. apply VmDB_new_inv in Hinv as [[Hk ->]|(a & h & d1 & Hk & Hh & Hd)].
  { unfold VmDB_new. by rewrite Hk. }
  destruct (code_hash_grows _ _ _ _ _ Hok0 Hh) as [(Ht & Htx & Hf & Hto & _) _].
  set (df1 := mkVmDB (db_tx_idx df) (db_tx df) (from_hash df) (to_hash df) (to_code_hash d1) (is_lazy d1)
    (read_set df) (read_accounts df)).
  assert (Hh' : get_code_hash m' a (mkVmDB t tx (hash_deterministic (Loc_Basic (caller tx)))
    ((fun a => hash_deterministic (Loc_Basic a)) <$> kind_to (kind tx)) None false ∅ ∅) = Ok (h, d1)).
  { eapply (code_hash_replay m1 m' a h _ d1 df1); [done|done|exact Hh| |exact Hval].
    destruct Hext as (H1 & H2 & H3 & H4 & _ & _ & H7). unfold df1.
    repeat split; cbn [db_tx_idx db_tx from_hash to_hash to_code_hash is_lazy read_set]; try done.
    - by rewrite H1, Ht, Hd.
    - by rewrite H2, Htx, Hd.
    - by rewrite H3, Hf, Hd.
    - by rewrite H4, Hto, Hd.
    - intros x Hx. unfold origins_at in *. rewrite Hd in H7. by apply H7. }
  unfold VmDB_new in *. rewrite Hk in *. rewrite Hh in Hn. by rewrite Hh'.
Qed.

(** ** Reads against an unchanged memory validate *)

(** The memory has no estimate, and no value of another kind, as the closest
    entry of a code hash: [get_code_hash] does not look at those. *)
Definition code_hashes_clean (m : MvMemory) (t : TxIdx) : Prop :=
  forall a, match below m t (hash_deterministic (Loc_CodeHash a)) with
            | [] | (_, Data _ (LV_CodeHash _)) :: _ | (_, Data _ LV_SelfDestructed) :: _ => True
            | _ => False
            end.

Lemma match_validates (m : MvMemory) (t : TxIdx) (x : LocationHash) (os : list ReadOrigin) :
  match_origins (below m t x) os = true -> os ≠ [] -> origins_shape os ->
  validate_location m t x os = true.
Proof.
  intros Hm Hne Hs. apply validate_location_rereads; [done|done|]. by apply match_origins_rereads.
Qed.

Lemma fresh_valid (m : MvMemory) (t : TxIdx) (tx : TxEnv) (from : LocationHash)
    (to : option LocationHash) (c : option Z) (b : bool) :
  still_valid m (mkVmDB t tx from to c b ∅ ∅).
Proof. intros x os Hx. cbn [read_set] in Hx. by rewrite lookup_empty in Hx. Qed.

Lemma push_origin_valid (m : MvMemory) (loc : LocationHash) (o : ReadOrigin) (d d' : VmDB) (u : unit) :
  push_origin loc o d = Ok (u, d') -> match_origins (below m (db_tx_idx d) loc) [o] = true ->
  still_valid m d -> still_valid m d'.
Proof.
  intros Hpush Hm Hv. destruct (push_origin_Ok _ _ _ _ _ Hpush) as ((Ht & _) & (os & Hos & _ & Hnew) & Hother & _ & Hsame).
  intros x os' Hx. rewrite Ht. destruct (decide (x = loc)) as [->|Hne].
  - destruct (origins_at loc d) eqn:Ho.
    + rewrite (Hnew eq_refl) in Hos. rewrite Hos in Hx. injection Hx as <-. apply match_validates; [done|done|].
      destruct o as [v|]; [exists [v]; by left|exists []; by right].
    + rewrite (Hsame ltac:(done)) in Hx. by apply Hv.
  - rewrite Hother in Hx by done. by apply Hv.
Qed.

Lemma storage_valid (m : MvMemory) (a : Address) (i v : Z) (d d' : VmDB) :
  storage_read m a i d = Ok (v, d') -> still_valid m d -> still_valid m d'.
Proof.
  intros Hr Hv. unfold storage_read in Hr. rewrite visible_below in Hr.
  destruct (below m _ _) as [|[c [inc [| |val| | |]|]] rest] eqn:Hb; try discriminate Hr;
    apply bind_Ok in Hr as ([] & d1 & Hpush & Hdb);
    [apply from_db_Ok in Hdb as [_ ->]|injection Hdb as _ ->];
    eapply push_origin_valid; eauto; rewrite Hb; simpl; by rewrite ?Nat.eqb_refl.
Qed.

Lemma code_hash_valid (m : MvMemory) (a : Address) (h : option Z) (d d' : VmDB) :
  code_hashes_clean m (db_tx_idx d) ->
  get_code_hash m a d = Ok (h, d') -> still_valid m d -> still_valid m d'.
Proof.
  intros Hc Hr Hv. specialize (Hc a). unfold get_code_hash in Hr.
  destruct (below m _ _) as [|[c [inc [| ch | | | |]|]] rest] eqn:Hb; try done.
  - apply bind_Ok in Hr as ([] & d1 & Hpush & Hf). apply bind_Ok in Hf as (x & d2 & Hdb & Hf).
    injection Hf as _ ->. apply from_db_Ok in Hdb as [_ ->].
    eapply push_origin_valid; eauto. by rewrite Hb.
  - apply bind_Ok in Hr as ([] & d1 & Hpush & Hret). injection Hret as _ ->.
    eapply push_origin_valid; eauto. rewrite Hb. simpl. by rewrite !Nat.eqb_refl.
Qed.

Lemma scan_lazy_matches (prev : list ReadOrigin) (iter : list (TxIdx * Entry)) (acc acc' : LazyScan) :
  scan_account acc = None -> scan_lazy prev iter acc = Ok acc' ->
  exists vs, new_origins acc' = new_origins acc ++ (Origin_MvMemory <$> vs) /\
    match_origins iter (scan_origins acc' (Origin_MvMemory <$> vs)) = true.
Proof.
  revert acc. induction iter as [|[c [inc v|]] iter IH]; intros acc Hn Hs; cbn [scan_lazy] in Hs.
  - injection Hs as ->. exists []. rewrite app_nil_r. split; [done|]. unfold scan_origins. by rewrite Hn.
  - repeat (case_match; try discriminate Hs);
      [injection Hs as <-; exists [mkTxVersion c inc]; unfold scan_origins; simpl; by rewrite !Nat.eqb_refl| |];
      (apply IH in Hs as (vs & Hnew & Hm); [|done]; exists (mkTxVersion c inc :: vs);
       cbn [new_origins] in Hnew; rewrite <- app_assoc in Hnew; split; [done|];
       unfold scan_origins in *; destruct (scan_account acc'); simpl; by rewrite !Nat.eqb_refl).
  - discriminate Hs.
Qed.

Lemma scan_valid (m : MvMemory) (t : TxIdx) (loc : LocationHash) (a : Address) (scan scan' : LazyScan) :
  scan_lazy [] (below m t loc) (mkLazyScan None I257.NEGATIVE_ZERO 0 []) = Ok scan ->
  scan_storage a [] scan = Ok scan' -> validate_location m t loc (new_origins scan') = true.
Proof.
  intros Hs Hst. pose proof (scan_storage_nonempty _ _ _ _ Hs Hst) as Hne.
  destruct (scan_lazy_matches _ _ (mkLazyScan None I257.NEGATIVE_ZERO 0 []) _ eq_refl Hs)
    as (vs & Hnew & Hm). cbn [new_origins app] in Hnew.
  destruct (scan_storage_Ok _ _ _ _ Hst ltac:(by left)) as [Hfin _].
  rewrite Hfin, Hnew in * by done. apply match_validates; [done|done|].
  exists vs. unfold scan_origins. destruct (scan_account scan); [by left|by right].
Qed.

Lemma finish_basic_valid (m : MvMemory) (a : Address) (loc : LocationHash) (acct : AccountInfo)
    (scan : LazyScan) (r : option AccountInfo) (d d' : VmDB) :
  code_hashes_clean m (db_tx_idx d) ->
  finish_basic m m a loc acct scan d = Ok (r, d') -> still_valid m d -> still_valid m d'.
Proof.
  intros Hc Hf Hv. unfold finish_basic in *. destruct (check_nonce d loc _); [|discriminate Hf].
  apply bind_Ok in Hf as (h & d1 & Hh & Hf). apply bind_Ok in Hf as (c & d2 & Hcode & Hf).
  pose proof (find_code_Ok _ _ _ _ _ Hcode) as ->.
  apply bind_Ok in Hf as ([] & d3 & Hi & Hret). injection Hret as _ ->. injection Hi as <-.
  assert (Hv1 : still_valid m d1) by
    (case_decide; [by injection Hh as _ <-|by eapply code_hash_valid]). exact Hv1.
Qed.

Lemma basic_at_valid (m : MvMemory) (a : Address) (loc : LocationHash) (r : option AccountInfo) (d d' : VmDB) :
  code_hashes_clean m (db_tx_idx d) ->
  basic_at m m m a loc d = Ok (r, d') -> still_valid m d -> still_valid m d'.
Proof.
  intros Hc Hb Hv. unfold basic_at in Hb. rewrite visible_below in Hb.
  set (prev := origins_at loc d) in *.
  destruct (scan_lazy prev (below m _ loc) _) as [scan|] eqn:Hs; [|discriminate Hb].
  destruct (scan_storage a prev scan) as [scan'|] eqn:Hst; [|discriminate Hb].
  set (d1 := if bool_decide (prev = []) then _ else d) in *.
  assert (Hv1 : still_valid m d1 /\ db_tx_idx d1 = db_tx_idx d).
  { unfold d1. case_bool_decide as Hp; [|done]. split; [|done]. intros x os Hx.
    cbn [read_set set_read_set db_tx_idx] in *. rewrite Hp in Hs, Hst.
    destruct (decide (x = loc)) as [->|Hne]; [|rewrite lookup_insert_ne in Hx by congruence; by apply Hv].
    rewrite lookup_insert_eq in Hx. injection Hx as <-. by eapply scan_valid. }
  destruct Hv1 as [Hv1 Ht]. rewrite <- Ht in Hc.
  destruct (scan_account scan'); [by eapply finish_basic_valid|by injection Hb as _ <-].
Qed.

Lemma run_prog_valid {A : Type} (m : MvMemory) (p : Prog A) :
  forall k d a df, db_ok d -> code_hashes_clean m (db_tx_idx d) ->
  run_prog (fun _ => m) k p d = Return (Ok (a, df)) -> still_valid m d -> still_valid m df.
Proof using no_collision.
  induction p as [a0|addr cont IH|h cont IH|addr i cont IH|n cont IH];
    intros k d a df Hok Hc Hr Hv; cbn [run_prog] in *.
  - by injection Hr as _ <-.
  - destruct (basic _ _ _ addr d) as [[[r d1]|e]| |] eqn:Hb; try discriminate Hr.
    destruct (basic_grows _ _ _ _ _ _ _ Hok Hb) as [(Ht & _) Hok1].
    apply (IH r (S k) d1 a df Hok1); [by rewrite Ht|done|].
    unfold basic in Hb. rewrite hash_basic_ok in Hb by done. injection Hb as Hb.
    destruct (is_lazy d && _); [by injection Hb as _ <-|].
    destruct (is_lazy d && _); [by injection Hb as _ <-|]. by eapply basic_at_valid.
  - destruct (code_by_hash h d) as [[r d1]|e] eqn:Hb; [|discriminate Hr].
    apply from_db_Ok in Hb as [_ ->]. by eapply IH.
  - destruct (storage_read _ addr i d) as [[r d1]|e] eqn:Hb; [|discriminate Hr].
    destruct (storage_grows _ _ _ _ _ _ Hok Hb) as [(Ht & _) Hok1].
    apply (IH r (S k) d1 a df Hok1); [by rewrite Ht|done|]. by eapply storage_valid.
  - destruct (block_hash n d) as [[r d1]|e] eqn:Hb; [|discriminate Hr].
    apply from_db_Ok in Hb as [_ ->]. by eapply IH.
Qed.

(** ** Properties *)

(** Whether an account has ever been written to. *)
Definition ever_written (m : MvMemory) (a : Address) : Prop := is_Some (data m !! hash_deterministic (Loc_Basic a)).

(** The memory decides that a transaction to [to], which has no code, is executed lazily
    or not as [d] was. *)
Definition same_laziness (m : MvMemory) (tx : TxEnv) (d : VmDB) : Prop :=
  forall to, kind tx = Call to -> to_code_hash d = None ->
  (is_lazy d = true <-> ever_written m (caller tx) \/ ever_written m to).

Lemma VmDB_new_relocate (m m2 m2' : MvMemory) (t : TxIdx) (tx : TxEnv) (d : VmDB) :
  same_laziness m2' tx d ->
  VmDB_new m m2 t tx (hash_deterministic (Loc_Basic (caller tx)))
    ((fun a => hash_deterministic (Loc_Basic a)) <$> kind_to (kind tx)) = Return (Ok d) ->
  VmDB_new m m2' t tx (hash_deterministic (Loc_Basic (caller tx)))
    ((fun a => hash_deterministic (Loc_Basic a)) <$> kind_to (kind tx)) = Return (Ok d).
Proof.
  intros Hl. unfold VmDB_new, same_laziness, ever_written in *. destruct (kind tx) as [to|]; [|done]. cbn [kind_to fmap option_fmap option_map].
  destruct (get_code_hash m to _) as [[[h|] d1]|]; [done| |done]. intros Hn. specialize (Hl to eq_refl).
  assert (Hd : exists b, d = mkVmDB t tx (hash_deterministic (Loc_Basic (caller tx))) (Some (hash_deterministic (Loc_Basic to)))
    None b (read_set d1) (read_accounts d1)) by (case_bool_decide; injection Hn as <-; by eexists).
  destruct Hd as [b ->]. cbn [to_code_hash is_lazy] in Hl. specialize (Hl eq_refl). clear Hn.
  case_bool_decide as Hc; [|case_bool_decide as Hc2]; do 3 f_equal; destruct b; naive_solver.
Qed.

(** C7. Validation is sound. A transaction executes while other threads change the
    memory: its reads see the memories [ms]. If the read set it recorded still
    validates in a memory [m'] (one that agrees on what each version wrote and on
    the code of a code hash), then executing it against [m'] alone, unchanged from
    beginning to end, gives the same result, the same read set and the same
    account metadata, provided [m'] lets it be executed lazily or not as it was: the
    keys this is decided by are not in the read set, and validation does not look at
    them ([laziness_not_validated]). *)
Theorem validated_execution_replays {A : Type} (p : Prog A) (ms : nat -> MvMemory)
    (m1 m2 m' : MvMemory) (t : TxIdx) (tx : TxEnv) (d df : VmDB) (a : A)
    (Hv : forall k, versions_agree (ms k) m') (Hc : forall k, codes_agree (ms k) m')
    (Hv1 : versions_agree m1 m')
    (Hnew : VmDB_new m1 m2 t tx (hash_deterministic (Loc_Basic (caller tx)))
       ((fun a => hash_deterministic (Loc_Basic a)) <$> kind_to (kind tx)) = Return (Ok d))
    (Hrun : run_prog ms 0 p d = Return (Ok (a, df)))
    (Hvalid : still_valid m' df) (Hlazy : same_laziness m' tx d) :
  VmDB_new m' m' t tx (hash_deterministic (Loc_Basic (caller tx)))
    ((fun a => hash_deterministic (Loc_Basic a)) <$> kind_to (kind tx)) = Return (Ok d) /\
  run_prog (fun _ => m') 0 p d = Return (Ok (a, df)).
Proof using no_collision.
  destruct (VmDB_new_ok _ _ _ _ _ Hnew) as [Hok _].
  destruct (run_prog_grows _ _ _ _ _ _ Hok Hrun) as [He _].
  apply still_valid_match in Hvalid. split; [|by eapply run_prog_replay].
  eapply VmDB_new_relocate; [done|by eapply VmDB_new_replay].
Qed.

(** C19. Validation is not spuriously strict: what a transaction reads from a memory
    that does not change validates in that memory, provided the closest entries of
    code hashes are code hashes or self-destructions (an estimate there is taken
    for an absent value and can never validate). *)
Theorem unchanged_memory_validates {A : Type} (p : Prog A) (m : MvMemory) (t : TxIdx) (tx : TxEnv)
    (d df : VmDB) (a : A)
    (Hclean : code_hashes_clean m t)
    (Hnew : VmDB_new m m t tx (hash_deterministic (Loc_Basic (caller tx)))
       ((fun a => hash_deterministic (Loc_Basic a)) <$> kind_to (kind tx)) = Return (Ok d))
    (Hrun : run_prog (fun _ => m) 0 p d = Return (Ok (a, df))) :
  still_valid m df.
Proof using no_collision.
  destruct (VmDB_new_ok _ _ _ _ _ Hnew) as (Hok & Ht & _).
  eapply run_prog_valid; [exact Hok|by rewrite Ht|exact Hrun|].
  destruct (VmDB_new_inv _ _ _ _ _ _ _ Hnew) as [[_ ->]|(to & h & d1 & Hk & Hh & ->)].
  - apply fresh_valid.
  - pose proof (code_hash_grows _ _ _ _ _ (fresh_db_ok t tx None false) Hh) as [(Ht1 & _) _].
    apply code_hash_valid in Hh; [|done|apply fresh_valid].
    intros x os Hx. apply Hh in Hx. by rewrite Ht1 in Hx.
Qed.

(** ** Folding lazy updates *)

(** What a lazy update adds to the balance and the nonce. *)
Definition lazy_delta (v : LocationValue) : option (Z * Z) :=
  match v with
  | LV_LazyRecipient addition => Some (addition, 0)
  | LV_LazySender subtraction => Some (- subtraction, 1)
  | _ => None
  end.

Definition balance_delta (v : LocationValue) : Z := default 0 (fst <$> lazy_delta v).
Definition nonce_delta (v : LocationValue) : Z := default 0 (snd <$> lazy_delta v).

(** A lazy entry: who wrote it, at which incarnation, and a [U256] amount. *)
Definition lazy_entry (e : TxIdx * TxIncarnation * LocationValue) : Prop :=
  is_Some (lazy_delta e.2) /\
  match e.2 with LV_LazyRecipient a | LV_LazySender a => in_range 256 a | _ => False end.

Definition total (f : LocationValue -> Z) (ls : list (TxIdx * TxIncarnation * LocationValue)) : Z :=
  foldr (fun e s => f e.2 + s) 0 ls.

Definition as_entry (e : TxIdx * TxIncarnation * LocationValue) : TxIdx * Entry :=
  (e.1.1, Data e.1.2 e.2).

Definition as_origin (e : TxIdx * TxIncarnation * LocationValue) : ReadOrigin :=
  Origin_MvMemory (mkTxVersion e.1.1 e.1.2).

Lemma total_abs_pos (ls : list (TxIdx * TxIncarnation * LocationValue)) :
  0 <= total (fun v => Z.abs (balance_delta v)) ls.
Proof. induction ls; simpl; lia. Qed.

Lemma total_le_abs (ls : list (TxIdx * TxIncarnation * LocationValue)) :
  total balance_delta ls <= total (fun v => Z.abs (balance_delta v)) ls.
Proof. induction ls; simpl; lia. Qed.

(** One lazy entry moves the scan on by what it adds. *)
Lemma scan_lazy_one (e : TxIdx * TxIncarnation * LocationValue) (iter : list (TxIdx * Entry)) (acc : LazyScan) :
  lazy_entry e -> I257.wf (balance_addition acc) ->
  Z.abs (I257.to_Z (balance_addition acc)) + Z.abs (balance_delta e.2) <= U256_MAX ->
  exists acc1, scan_lazy [] (as_entry e :: iter) acc = scan_lazy [] iter acc1 /\
    scan_account acc1 = None /\ I257.wf (balance_addition acc1) /\
    I257.to_Z (balance_addition acc1) = I257.to_Z (balance_addition acc) + balance_delta e.2 /\
    wrapping 64 (nonce_addition acc1) = wrapping 64 (nonce_addition acc + nonce_delta e.2) /\
    new_origins acc1 = new_origins acc ++ [as_origin e].
Proof.
  destruct e as [[i inc] v]. intros [[p Hp] Hr] Hwf Hsum. cbn [fst snd] in *.
  cbn [as_entry fst snd scan_lazy]. rewrite (bool_decide_eq_true_2 ([] = [])) by done. cbn [negb andb].
  destruct v as [|?|?|x|x|]; try done; unfold balance_delta, nonce_delta in *; cbn in Hsum;
    (eexists; split; [reflexivity|]); cbn [balance_addition nonce_addition new_origins scan_account];
    (split; [done|]).
  - split; [by apply I257.add_wf|]. rewrite I257.add_to_Z, I257.from_U256_to_Z by done.
    unfold I257.clamp. cbn. split; [lia|]. by rewrite Z.add_0_r.
  - split; [by apply I257.sub_wf|]. rewrite I257.sub_to_Z, I257.from_U256_to_Z by done.
    unfold I257.clamp. cbn. split; [lia|]. split; [|done]. unfold wrapping. by rewrite Zmod_mod.
Qed.

Lemma scan_lazy_fold (ls : list (TxIdx * TxIncarnation * LocationValue)) (iter : list (TxIdx * Entry))
    (acc : LazyScan) :
  Forall lazy_entry ls -> I257.wf (balance_addition acc) -> scan_account acc = None ->
  Z.abs (I257.to_Z (balance_addition acc)) + total (fun v => Z.abs (balance_delta v)) ls <= U256_MAX ->
  exists acc', scan_lazy [] ((as_entry <$> ls) ++ iter) acc = scan_lazy [] iter acc' /\
    scan_account acc' = None /\ I257.wf (balance_addition acc') /\
    I257.to_Z (balance_addition acc') = I257.to_Z (balance_addition acc) + total balance_delta ls /\
    wrapping 64 (nonce_addition acc') = wrapping 64 (nonce_addition acc + total nonce_delta ls) /\
    new_origins acc' = new_origins acc ++ (as_origin <$> ls).
Proof.
  revert acc. induction ls as [|e ls IH]; intros acc Hl Hwf Hn Hsum.
  - exists acc. simpl. rewrite app_nil_r, !Z.add_0_r. auto 10.
  - apply list.Forall_cons in Hl as [He Hl]. simpl in Hsum. pose proof (total_abs_pos ls).
    destruct (scan_lazy_one e ((as_entry <$> ls) ++ iter) acc He Hwf ltac:(lia))
      as (acc1 & Hs1 & Hn1 & Hw1 & Hb1 & Hno1 & Ho1).
    destruct (IH acc1 Hl Hw1 Hn1 ltac:(lia)) as (acc' & Hs & Hn' & Hw' & Hb' & Hno' & Ho').
    exists acc'. rewrite fmap_cons. cbn [app]. rewrite Hs1. split; [done|]. do 2 (split; [done|]). simpl.
    split; [lia|split].
    + rewrite Hno'. unfold wrapping in *. rewrite Z.add_mod, Hno1, <- Z.add_mod by lia. f_equal. lia.
    + by rewrite Ho', Ho1, <- app_assoc.
Qed.

(** Reading an account below which lazy updates are stacked gives the balance
    and the nonce that applying the updates in integer arithmetic would give, as
    long as the amounts involved add up to a [U256] and the balance does not go
    below zero; the origins are those of all the updates and of the account. *)
Lemma lazy_read_exact (ls : list (TxIdx * TxIncarnation * LocationValue)) (j : TxIdx)
    (inc : TxIncarnation) (account : AccountInfo) (tail : list (TxIdx * Entry))
    (Hl : Forall lazy_entry ls) (Hb : in_range 256 (ai_balance account))
    (Hsum : ai_balance account + total (fun v => Z.abs (balance_delta v)) ls <= U256_MAX)
    (Hpos : 0 <= ai_balance account + total balance_delta ls) :
  exists scan,
    scan_lazy [] ((as_entry <$> ls) ++ (j, Data inc (LV_Basic account)) :: tail)
      (mkLazyScan None I257.NEGATIVE_ZERO 0 []) = Ok scan /\
    scan_account scan = Some account /\
    I257.abs_value (I257.add (balance_addition scan) (I257.from_U256 (ai_balance account))) =
      ai_balance account + total balance_delta ls /\
    wrapping 64 (ai_nonce account + nonce_addition scan) =
      wrapping 64 (ai_nonce account + total nonce_delta ls) /\
    new_origins scan = (as_origin <$> ls) ++ [Origin_MvMemory (mkTxVersion j inc)].
Proof.
  pose proof (total_abs_pos ls). pose proof (total_le_abs ls). unfold in_range in Hb.
  destruct (scan_lazy_fold ls ((j, Data inc (LV_Basic account)) :: tail)
    (mkLazyScan None I257.NEGATIVE_ZERO 0 []) Hl) as (acc & Hs & Hn & Hw & Hbal & Hno & Hos).
  { unfold I257.wf, in_range. cbn. lia. }
  { done. }
  { cbn [I257.to_Z balance_addition I257.NEGATIVE_ZERO I257.is_negative I257.value]. lia. }
  rewrite Hs. cbn [scan_lazy]. rewrite (bool_decide_eq_true_2 ([] = [])) by done. cbn [negb andb].
  eexists. split; [reflexivity|]. cbn [scan_account balance_addition nonce_addition new_origins] in *.
  split; [done|]. split; [|split].
  - assert (Hwb : I257.wf (I257.from_U256 (ai_balance account))) by (unfold I257.wf, in_range; simpl; lia).
    rewrite I257.abs_value_to_Z by (by apply I257.add_wf). rewrite I257.add_to_Z by done.
    rewrite I257.from_U256_to_Z, Hbal. cbn [I257.to_Z I257.NEGATIVE_ZERO I257.is_negative I257.value].
    unfold I257.clamp. lia.
  - unfold wrapping in *. rewrite Z.add_mod, Hno, <- Z.add_mod by lia. done.
  - by rewrite Hos.
Qed.

End VmDB.

(** ** Examples *)

Section Examples.
#[local] Existing Instance example_revm.

(** A chain without accounts. *)
#[local] Instance example_db : DatabaseRef := {|
  DbError := unit; err_to_string := fun _ => String.EmptyString;
  basic_ref := fun _ => Ok None; code_by_hash_ref := fun _ => Ok 0;
  storage_ref := fun _ _ => Ok 0; block_hash_ref := fun _ => Ok 0;
|}.

Definition example_hash (l : Location) : LocationHash :=
  match l with
  | Loc_Basic a => 3 * a
  | Loc_CodeHash a => 3 * a + 1
  | Loc_Storage a i => 3 * (a + i) + 2
  end.

Lemma example_no_collision (a x : Z) : plain_location example_hash x -> example_hash (Loc_Basic a) ≠ x.
Proof. intros [(b & ->)|(b & i & ->)]; simpl; lia. Qed.

(** A contract creation by account 9 that reads slot 0 of account 1, which the
    first transaction of the block has written. *)
Definition example_tx : TxEnv := mkTxEnv 9 Create 0 0 21000 1 None 0 0 0 tt.
Definition example_prog : Prog Z := ReadStorage 1 0 (fun v => Ret (v + 1)).
Definition example_mem : MvMemory :=
  mkMvMemory {[ 5%Z := {[ 0%nat := Data 0 (LV_Storage 7) ]} ]} [] ∅ ∅.
Definition example_start : VmDB := mkVmDB 1 example_tx 27 None None false ∅ ∅.
Definition example_end : VmDB :=
  mkVmDB 1 example_tx 27 None None false {[ 5%Z := [Origin_MvMemory (mkTxVersion 0 0)] ]} ∅.

Lemma example_end_valid : still_valid example_mem example_end.
Proof.
  intros x os Hx. unfold example_end in Hx. cbn [read_set] in Hx.
  apply lookup_singleton_Some in Hx as [<- <-]. reflexivity.
Qed.

Lemma versions_agree_refl (m : MvMemory) : versions_agree m m.
Proof. intros x t i v v' H1 H2. congruence. Qed.

Lemma validated_execution_replays_witness :
  VmDB_new example_hash example_mem example_mem 1 example_tx (example_hash (Loc_Basic (caller example_tx))) None = Return (Ok example_start) /\
  run_prog example_hash (fun _ => example_mem) 0 example_prog example_start = Return (Ok (8, example_end)).
Proof.
  apply (validated_execution_replays example_hash example_no_collision example_prog
    (fun _ => example_mem) example_mem example_mem example_mem 1 example_tx).
  - intros _. apply versions_agree_refl.
  - intros _ h c Hc. exact Hc.
  - apply versions_agree_refl.
  - reflexivity.
  - reflexivity.
  - exact example_end_valid.
  - intros to Hk. discriminate Hk.
Defined.

(** A transfer is not lazy on an empty memory, and its reads still validate when a lower
    transaction has written its sender, where it would be lazy. *)
Definition example_transfer : TxEnv := mkTxEnv 9 (Call 8) 0 0 21000 1 None 0 0 0 tt.
Definition example_sender_written : MvMemory :=
  mkMvMemory {[ example_hash (Loc_Basic 9) := {[ 0%nat := Data 0 (LV_LazyRecipient 7) ]} ]} [] ∅ ∅.
Definition example_new (m : MvMemory) : outcome (result VmDB ReadError) :=
  VmDB_new example_hash m m 1 example_transfer (example_hash (Loc_Basic 9)) (Some (example_hash (Loc_Basic 8))).

Lemma laziness_not_validated :
  exists d d', example_new (mkMvMemory ∅ [] ∅ ∅) = Return (Ok d) /\ is_lazy d = false /\
    still_valid example_sender_written d /\
    example_new example_sender_written = Return (Ok d') /\ is_lazy d' = true.
Proof.
  exists (mkVmDB 1 example_transfer 27 (Some 24) None false {[ 25 := [Origin_Storage] ]} ∅),
    (mkVmDB 1 example_transfer 27 (Some 24) None true {[ 25 := [Origin_Storage] ]} ∅).
  split; [reflexivity|]. split; [done|]. split; [|split; reflexivity].
  intros x os Hx. cbn [read_set] in Hx. apply lookup_singleton_Some in Hx as [<- <-]. reflexivity.
Qed.

Lemma unchanged_memory_validates_witness : still_valid example_mem example_end.
Proof.
  eapply (unchanged_memory_validates example_hash example_no_collision example_prog example_mem 1
    example_tx example_start example_end 8).
  - intros a. replace (below example_mem 1 (example_hash (Loc_CodeHash a))) with (@nil (TxIdx * Entry)); [done|].
    unfold below, example_mem. cbn [data]. rewrite lookup_singleton_ne; [done|]. simpl. lia.
  - reflexivity.
  - reflexivity.
Defined.

Lemma lazy_read_exact_witness :
  exists scan, scan_lazy []
    [(2%nat, Data 0 (LV_LazySender 30)); (1%nat, Data 0 (LV_LazyRecipient 5));
     (0%nat, Data 1 (LV_Basic (mkAccountInfo 100 4 0 None)))]
    (mkLazyScan None I257.NEGATIVE_ZERO 0 []) = Ok scan /\
  I257.abs_value (I257.add (balance_addition scan) (I257.from_U256 100)) = 75.
Proof.
  destruct (lazy_read_exact [(2%nat, 0%nat, LV_LazySender 30); (1%nat, 0%nat, LV_LazyRecipient 5)] 0 1
    (mkAccountInfo 100 4 0 None) []) as (scan & H1 & _ & H3 & _).
  - constructor; [split; [by eexists|done]|constructor; [split; [by eexists|done]|constructor]].
  - done.
  - vm_compute. discriminate.
  - vm_compute. discriminate.
  - exists scan. split; [exact H1|exact H3].
Defined.

End Examples.
