(* ===== verification/Vm.v ===== *)
(** * Executing a transaction (crates/pe/src/vm.rs, [Vm])

    [Vm::execute]: run the EVM against the multi-version memory, turn the state
    it returns into a write set, add the beneficiary's reward, and record the
    read and write sets. The reads see the memories [views] (other threads write
    meanwhile); the writes go to the memory the transaction finds at the end. *)

From S2P Require Import Prelude Primitives Types Results MvMemory VmDb.
Local Open Scope Z_scope.

Section Vm.
Context `{Revm} `{!DatabaseRef} `{!Evm}.
Context (hash_deterministic : Location -> LocationHash).
Context (evm_env : EvmEnv) (txs : list TxEnv).

(** The fields of [Vm::new] that are computed. *)
Definition beneficiary_location_hash : LocationHash :=
  hash_deterministic (Loc_Basic (beneficiary evm_env)).
Definition vm_reward_policy : RewardPolicy := reward_policy.

(** ** The write set *)

(** [read_account.is_none_or(|meta| matches!(meta, AccountMeta::EOA(_)))]. *)
Definition was_without_code (read_account : option AccountMeta) : bool :=
  match read_account with
  | None | Some (EOA _ _) => true
  | Some (CA _ _) => false
  end.

(** The balance or the nonce differ from what was read. *)
Definition meta_changed (read_account : option AccountMeta) (i : AccountInfo) : bool :=
  match read_account with
  | None => false
  | Some meta =>
      negb (bool_decide (meta = CA (ai_balance i) (ai_nonce i))) &&
      negb (bool_decide (meta = EOA (ai_balance i) (ai_nonce i)))
  end.

(** The account entry of a touched account. *)
Definition write_info (db : VmDB) (address : Address) (account : Account)
    (ws : gmap LocationHash LocationValue) : gmap LocationHash LocationValue :=
  let location := hash_deterministic (Loc_Basic address) in
  let read_account := read_accounts db !! location in
  let has_code := negb (is_empty_code_hash (ai_code_hash (info account))) in
  let is_new_code := has_code && was_without_code read_account in
  if is_new_code || (location =? from_hash db) || bool_decide (read_account = None)
     || meta_changed read_account (info account)
  then
    if is_lazy db then
      if location =? from_hash db then
        <[location := LV_LazySender (wrapping 256 (U256_MAX - ai_balance (info account)))]> ws
      else if bool_decide (Some location = to_hash db) then
        <[location := LV_LazyRecipient (value (db_tx db))]> ws
      else ws
    else if negb (is_enabled_in (spec evm_env) SPURIOUS_DRAGON) || negb (account_is_empty account) then
      <[location := LV_Basic (mkAccountInfo (ai_balance (info account)) (ai_nonce (info account))
                      (ai_code_hash (info account)) (ai_code (info account)))]> ws
    else ws
  else ws.

(** The code of a new contract, with its bytecode in the shared map. *)
Definition write_code (db : VmDB) (address : Address) (account : Account)
    (acc : gmap LocationHash LocationValue * gmap Z Bytecode) :
    gmap LocationHash LocationValue * gmap Z Bytecode :=
  let '(ws, bytecodes) := acc in
  let read_account := read_accounts db !! hash_deterministic (Loc_Basic address) in
  let code_hash := ai_code_hash (info account) in
  if negb (is_empty_code_hash code_hash) && was_without_code read_account then
    (<[hash_deterministic (Loc_CodeHash address) := LV_CodeHash code_hash]> ws,
     match bytecodes !! code_hash with
     | Some _ => bytecodes
     | None => <[code_hash := default Bytecode_default (ai_code (info account))]> bytecodes
     end)
  else (ws, bytecodes).

Definition write_slot (address : Address) (ws : gmap LocationHash LocationValue) (s : Z * StorageSlot) :
    gmap LocationHash LocationValue :=
  <[hash_deterministic (Loc_Storage address s.1) := LV_Storage (present_value s.2)]> ws.

Definition write_account (db : VmDB) (acc : gmap LocationHash LocationValue * gmap Z Bytecode)
    (a : Address * Account) : gmap LocationHash LocationValue * gmap Z Bytecode :=
  let '(ws, bytecodes) := acc in
  let '(address, account) := a in
  if is_selfdestructed account then
    (<[hash_deterministic (Loc_CodeHash address) := LV_SelfDestructed]> ws, bytecodes)
  else
    let '(ws1, bytecodes1) :=
      if is_touched account
      then write_code db address account (write_info db address account ws, bytecodes)
      else (ws, bytecodes) in
    (foldl (write_slot address) ws1 (changed_storage_slots account), bytecodes1).

Definition write_state (db : VmDB) (state : EvmState) (bytecodes : gmap Z Bytecode) :
    gmap LocationHash LocationValue * gmap Z Bytecode :=
  foldl (write_account db) (∅, bytecodes) (map_to_list state).

(** ** [apply_rewards] *)

(** The price per gas the beneficiary gets, a [u128]. *)
Definition reward_gas_price (tx : TxEnv) : Z :=
  let gas_price :=
    match gas_priority_fee tx with
    | Some priority_fee => Z.min (gas_price tx) (saturating_add 128 priority_fee (basefee evm_env))
    | None => gas_price tx
    end in
  if is_enabled_in (spec evm_env) LONDON then saturating_sub gas_price (basefee evm_env) else gas_price.

Definition rewards (tx : TxEnv) (gas_used : Z) : list (LocationHash * Z) :=
  match vm_reward_policy with
  | Ethereum => [(beneficiary_location_hash, saturating_mul 256 (reward_gas_price tx) gas_used)]
  end.

(** Add one reward to a write set. *)
Definition add_reward (ws : gmap LocationHash LocationValue) (reward : LocationHash * Z) :
    result (gmap LocationHash LocationValue) VmExecutionError :=
  let '(recipient, amount) := reward in
  match ws !! recipient with
  | Some (LV_Basic i) =>
      Ok (<[recipient := LV_Basic (mkAccountInfo (saturating_add 256 (ai_balance i) amount)
             (ai_nonce i) (ai_code_hash i) (ai_code i))]> ws)
  | Some (LV_LazySender subtraction) =>
      Ok (<[recipient := LV_LazySender (saturating_sub subtraction amount)]> ws)
  | Some (LV_LazyRecipient addition) =>
      Ok (<[recipient := LV_LazyRecipient (saturating_add 256 addition amount)]> ws)
  | Some _ => Err (VmExecutionError_from InvalidValueType)
  | None => Ok (<[recipient := LV_LazyRecipient amount]> ws)
  end.

Fixpoint add_rewards (ws : gmap LocationHash LocationValue) (rs : list (LocationHash * Z)) :
    result (gmap LocationHash LocationValue) VmExecutionError :=
  match rs with
  | [] => Ok ws
  | r :: rs' => result_bind (add_reward ws r) (fun ws' => add_rewards ws' rs')
  end.

Definition apply_rewards (ws : gmap LocationHash LocationValue) (tx : TxEnv) (gas_used : Z) :
    result (gmap LocationHash LocationValue) VmExecutionError :=
  add_rewards ws (rewards tx gas_used).

(** ** [execute] *)

(** The transactions a lazy one leaves to the end of the block. *)
Definition lazy_parties (tx : TxEnv) : list Address :=
  caller tx :: match kind_to (kind tx) with Some to => [to] | None => [] end.

(** The second half of a successful execution: everything after the EVM. *)
Definition commit (ver : TxVersion) (db : VmDB) (r : ExecutionResult) (st : EvmState) (m : MvMemory) :
    outcome (result VmExecutionResult VmExecutionError * MvMemory) :=
  let '(ws, bytecodes) := write_state db st (new_bytecodes m) in
  let m1 := mkMvMemory (data m) (locations m) (lazy_addresses m) bytecodes in
  match apply_rewards ws (db_tx db) (result_gas_used r) with
  | Err e => Return (Err e, m1)
  | Ok ws' =>
      let m2 := if is_lazy db then add_lazy_addresses (lazy_parties (db_tx db)) m1 else m1 in
      let flags := if (0 <? tx_idx ver)%nat && negb (is_lazy db) then NeedValidation else flags_empty in
      match record ver (read_set db) ws' m2 with
      | Return (wrote_new, m3) =>
          let flags' := if (wrote_new : bool) then flags_union flags WroteNewLocation else flags in
          match tx_type_try_from (tx_type (db_tx db)) with
          | Ok ty => Return (Ok (mkVmExecutionResult (from_raw ty r st) flags'), m3)
          | Err msg => Return (Err (VE_ExecutionError (EE_Custom msg)), m3)
          end
      | Panic => Panic
      | UB => UB
      end
  end.

(** The error of an execution that ended without a database error. *)
Definition execution_failure (ver : TxVersion) (err : EVMError Empty_set) : VmExecutionError :=
  match err with
  | EE_Transaction (IT_LackOfFundForMaxFee _ _) | EE_Transaction (IT_NonceTooHigh _ _) =>
      if (0 <? tx_idx ver)%nat then VE_Blocking (tx_idx ver - 1)%nat
      else VE_ExecutionError (lift_error err)
  | _ => VE_ExecutionError (lift_error err)
  end.

Definition execute (views : nat -> MvMemory) (ver : TxVersion) (m : MvMemory) :
    outcome (result VmExecutionResult VmExecutionError * MvMemory) :=
  match txs !! tx_idx ver with
  | None => UB
  | Some tx =>
      let from := hash_deterministic (Loc_Basic (caller tx)) in
      let to := (fun a => hash_deterministic (Loc_Basic a)) <$> kind_to (kind tx) in
      match VmDB_new hash_deterministic (views 0%nat) (views 1%nat) (tx_idx ver) tx from to with
      | Return (Err e) => Return (Err (VmExecutionError_from e), m)
      | Return (Ok db) =>
          match run_prog hash_deterministic (fun k => views (2 + k)%nat) 0 (evm_program false evm_env tx) db with
          | Return (Err e) => Return (Err (VmExecutionError_from e), m)
          | Return (Ok (Err err, _)) => Return (Err (execution_failure ver err), m)
          | Return (Ok (Ok (r, st), db')) => commit ver db' r st m
          | Panic => Panic
          | UB => UB
          end
      | Panic => Panic
      | UB => UB
      end
  end.


(** ** Rewards *)

(** A value that can hold a balance change. *)
Definition balance_value (v : LocationValue) : Prop :=
  match v with LV_Basic _ | LV_LazySender _ | LV_LazyRecipient _ => True | _ => False end.

Lemma apply_rewards_Ok (ws ws' : gmap LocationHash LocationValue) (tx : TxEnv) (gas : Z) :
  apply_rewards ws tx gas = Ok ws' ->
  (exists v, ws' !! beneficiary_location_hash = Some v /\ balance_value v) /\
  (forall x, x ≠ beneficiary_location_hash -> ws' !! x = ws !! x).
Proof.
  unfold apply_rewards, rewards, vm_reward_policy, reward_policy. cbn [add_rewards result_bind].
  unfold add_reward. destruct (ws !! beneficiary_location_hash) as [[]|]; cbn [result_bind]; intros Heq;
    try discriminate Heq; injection Heq as <-; (split; [eexists; by rewrite lookup_insert_eq|]);
    intros x Hx; by rewrite lookup_insert_ne by congruence.
Qed.

(** The balance a write set gives to an account whose balance was [b]. *)
Definition balance_after (b : Z) (v : option LocationValue) : Z :=
  match v with
  | Some (LV_Basic i) => ai_balance i
  | Some (LV_LazyRecipient addition) => b + addition
  | Some (LV_LazySender subtraction) => b - subtraction
  | _ => b
  end.

(** Adding a reward raises the balance of its recipient by the amount. *)
Lemma add_reward_exact (ws : gmap LocationHash LocationValue) (x : LocationHash) (amount b : Z) :
  (forall v, ws !! x = Some v -> balance_value v) -> 0 <= amount ->
  (forall i, ws !! x = Some (LV_Basic i) -> ai_balance i + amount <= U256_MAX) ->
  (forall a, ws !! x = Some (LV_LazyRecipient a) -> a + amount <= U256_MAX) ->
  (forall s, ws !! x = Some (LV_LazySender s) -> amount <= s) ->
  exists ws', add_reward ws (x, amount) = Ok ws' /\
    balance_after b (ws' !! x) = balance_after b (ws !! x) + amount /\
    (forall y, y ≠ x -> ws' !! y = ws !! y).
Proof.
  intros Hv Ha Hb Hr Hs. unfold add_reward.
  destruct (ws !! x) as [v|] eqn:E; [pose proof (Hv v eq_refl) as Hbv; destruct v; try done|];
    (eexists; split; [reflexivity|]); (split; [rewrite lookup_insert_eq; cbn [balance_after ai_balance]|
      intros y Hy; by rewrite lookup_insert_ne by congruence]).
  - specialize (Hb _ eq_refl). unfold saturating_add. change (uint_max 256) with U256_MAX. lia.
  - specialize (Hr _ eq_refl). unfold saturating_add. change (uint_max 256) with U256_MAX. lia.
  - specialize (Hs _ eq_refl). unfold saturating_sub. lia.
  - lia.
Qed.

(** ** The reward as it is meant *)

(** The price of a unit of gas (EIP-1559), and the part of it that is not burnt, from
    London on. *)
Definition effective_gas_price (tx : TxEnv) : Z :=
  match gas_priority_fee tx with
  | Some priority_fee => Z.min (gas_price tx) (priority_fee + basefee evm_env)
  | None => gas_price tx
  end.

Definition reward_per_gas (tx : TxEnv) : Z :=
  if is_enabled_in (spec evm_env) LONDON then effective_gas_price tx - basefee evm_env else effective_gas_price tx.

Lemma reward_gas_price_meant (tx : TxEnv) :
  gas_price tx <= uint_max 128 -> 0 <= reward_per_gas tx -> reward_gas_price tx = reward_per_gas tx.
Proof.
  unfold reward_gas_price, reward_per_gas, effective_gas_price, saturating_add, saturating_sub. intros Hp Hr.
  destruct (gas_priority_fee tx); destruct (is_enabled_in _ _); lia.
Qed.

(** C22. The beneficiary gets [gas_used] times the effective gas price less the base
    fee (from London on): whatever the transaction itself wrote to the
    beneficiary's account, its balance after the transaction is higher by exactly
    that, when the price covers the base fee, nothing saturates and a lazy sender pays
    at least its reward; and no other location is touched. *)
Theorem apply_rewards_exact (ws : gmap LocationHash LocationValue) (tx : TxEnv) (gas b : Z)
    (Hv : forall v, ws !! beneficiary_location_hash = Some v -> balance_value v)
    (Htyped : gas_price tx <= uint_max 128) (Hprice : 0 <= reward_per_gas tx) (Hgas : 0 <= gas)
    (Hfit : forall i, (ws !! beneficiary_location_hash = Some (LV_Basic i) ->
              ai_balance i + reward_per_gas tx * gas <= U256_MAX))
    (Hadd : forall a, (ws !! beneficiary_location_hash = Some (LV_LazyRecipient a) ->
              a + reward_per_gas tx * gas <= U256_MAX))
    (Hsub : forall s, (ws !! beneficiary_location_hash = Some (LV_LazySender s) ->
              reward_per_gas tx * gas <= s))
    (Hmul : reward_per_gas tx * gas <= U256_MAX) :
  exists ws', apply_rewards ws tx gas = Ok ws' /\
    balance_after b (ws' !! beneficiary_location_hash) =
      balance_after b (ws !! beneficiary_location_hash) + reward_per_gas tx * gas /\
    (forall x, x ≠ beneficiary_location_hash -> ws' !! x = ws !! x).
Proof.
  assert (Hr : saturating_mul 256 (reward_gas_price tx) gas = reward_per_gas tx * gas)
    by (rewrite reward_gas_price_meant by done; unfold saturating_mul; change (uint_max 256) with U256_MAX; lia).
  set (amount := reward_per_gas tx * gas) in *. assert (Ha : 0 <= amount) by (unfold amount; nia).
  destruct (add_reward_exact ws beneficiary_location_hash amount b Hv Ha Hfit Hadd Hsub)
    as (ws' & Hws & Hbal & Hother).
  exists ws'. split; [|done].
  unfold apply_rewards, rewards, vm_reward_policy, reward_policy. cbn [add_rewards]. by rewrite Hr, Hws.
Qed.

(** ** [execute] *)

Context (no_collision : forall a x, plain_location hash_deterministic x ->
  hash_deterministic (Loc_Basic a) ≠ x).

Lemma execute_run (views : nat -> MvMemory) (ver : TxVersion) (m : MvMemory) (tx : TxEnv) :
  txs !! tx_idx ver = Some tx ->
  (exists e, execute views ver m = Return (Err (VmExecutionError_from e), m) /\
     (forall b, e = Blocking b -> (b < tx_idx ver)%nat)) \/
  (exists err, execute views ver m = Return (Err (execution_failure ver err), m)) \/
  (exists db db' r st,
     VmDB_new hash_deterministic (views 0%nat) (views 1%nat) (tx_idx ver) tx
       (hash_deterministic (Loc_Basic (caller tx)))
       ((fun a => hash_deterministic (Loc_Basic a)) <$> kind_to (kind tx)) = Return (Ok db) /\
     run_prog hash_deterministic (fun k => views (2 + k)%nat) 0 (evm_program false evm_env tx) db
       = Return (Ok (Ok (r, st), db')) /\
     db_tx db' = tx /\
     execute views ver m = commit ver db' r st m).
Proof using no_collision.
  intros Htx. unfold execute. rewrite Htx.
  destruct (VmDB_new_returns hash_deterministic (views 0%nat) (views 1%nat) (tx_idx ver) tx) as [r0 Hnew].
  rewrite Hnew. destruct r0 as [db|e].
  2: { left. exists e. split; [done|]. intros b ->. exfalso. by eapply VmDB_new_blocking. }
  destruct (VmDB_new_ok _ _ _ _ _ _ Hnew) as (Hok & Ht & Hdtx).
  destruct (run_prog_returns _ no_collision (fun k => views (2 + k)%nat) (evm_program false evm_env tx) 0 db Hok)
    as [r1 Hrun]. rewrite Hrun. destruct r1 as [[[[r st]|err] db']|e].
  - right; right. exists db, db', r, st. do 2 (split; [done|]). split; [|done].
    destruct (run_prog_grows _ no_collision _ _ _ _ _ _ Hok Hrun) as [(_ & Htx' & _) _]. congruence.
  - right; left. by exists err.
  - left. exists e. split; [done|]. intros b ->. rewrite <- Ht.
    by eapply (run_prog_blocking _ no_collision).
Qed.

Lemma commit_not_blocking (ver : TxVersion) (db : VmDB) (r : ExecutionResult) (st : EvmState)
    (m m' : MvMemory) (b : TxIdx) :
  commit ver db r st m ≠ Return (Err (VE_Blocking b), m').
Proof.
  unfold commit, apply_rewards, rewards, vm_reward_policy, reward_policy. cbn [add_rewards].
  destruct (write_state db st (new_bytecodes m)) as [ws bc]. unfold add_reward.
  intros Hx. repeat (case_match; simplify_eq/=).
Qed.

(** Whatever the EVM does and however the memory changes under it, an execution
    that asks to wait names a lower transaction: the assumption under which the
    scheduler is free of deadlocks. *)
Lemma execute_blocks_on_lower (views : nat -> MvMemory) (ver : TxVersion) (m m' : MvMemory) (b : TxIdx)
    (Hx : execute views ver m = Return (Err (VE_Blocking b), m')) :
  (b < tx_idx ver)%nat.
Proof using no_collision.
  destruct (txs !! tx_idx ver) as [tx|] eqn:Htx; [|unfold execute in Hx; by rewrite Htx in Hx].
  destruct (execute_run views ver m tx Htx) as [(e & He & Hb)|[(err & He)|(db & db' & r & st & _ & _ & _ & He)]];
    rewrite He in Hx.
  - injection Hx as Hx _. apply Hb. by destruct e; simplify_eq/=.
  - injection Hx as Hx _. unfold execution_failure in Hx.
    repeat (case_match; simplify_eq/=);
      match goal with K : (0 <? _)%nat = true |- _ => apply Nat.ltb_lt in K end; lia.
  - by apply commit_not_blocking in Hx.
Qed.

(** What a successful execution leaves in the memory. *)
Lemma commit_Ok (ver : TxVersion) (db : VmDB) (r : ExecutionResult) (st : EvmState) (m m' : MvMemory)
    (res : VmExecutionResult) :
  mv_wf m -> commit ver db r st m = Return (Ok res, m') ->
  exists ws locs locs' ty,
    apply_rewards (write_state db st (new_bytecodes m)).1 (db_tx db) (result_gas_used r) = Ok ws /\
    locations m !! tx_idx ver = Some locs /\
    locations m' !! tx_idx ver = Some locs' /\ rw_read locs' = read_set db /\
    (forall x, x ∈ rw_write locs' <-> is_Some (ws !! x)) /\
    (forall x i v, entry m' x (tx_idx ver) = Some (Data i v) <->
       ws !! x = Some v /\ i = tx_incarnation ver) /\
    (forall x t, t ≠ tx_idx ver -> entry m' x t = entry m x t) /\
    mv_wf m' /\
    execution_result res = from_raw ty r st /\
    (flags_contains (flags res) WroteNewLocation = true <->
       exists x, is_Some (ws !! x) /\ x ∉ rw_write locs).
Proof.
  intros Hwf Hc. unfold commit in Hc.
  destruct (write_state db st (new_bytecodes m)) as [ws0 bc] eqn:Hws.
  destruct (apply_rewards ws0 _ _) as [ws|e] eqn:Hrew; [|discriminate Hc].
  set (m2 := if is_lazy db then _ else _) in Hc.
  assert (Hm2 : mv_wf m2 /\ locations m2 = locations m /\ forall x t, entry m2 x t = entry m x t).
  { unfold m2. destruct (is_lazy db); (split; [destruct Hwf; by constructor|done]). }
  destruct Hm2 as (Hwf2 & Hl2 & Hent2).
  destruct (locations m !! tx_idx ver) as [locs|] eqn:Hl.
  2: { unfold record in Hc. rewrite Hl2, Hl in Hc. discriminate Hc. }
  rewrite <- Hl2 in Hl.
  destruct (record_run ver (read_set db) ws m2 locs Hl (wf_nodup m2 Hwf2 _ _ Hl))
    as (wrote & m3 & write' & Hrun & Hlocs & _ & _ & _ & Hw & Hent & Hnew).
  rewrite Hrun in Hc. destruct (tx_type_try_from _) as [ty|] eqn:Hty; [|discriminate Hc].
  injection Hc as <- <-.
  exists ws, locs, (mkReadWriteSet (read_set db) write'), ty. cbn [fst].
  do 2 (split; [done|]). split; [rewrite Hlocs; apply list_lookup_insert_eq; by eapply lookup_lt_Some|].
  do 2 (split; [done|]). split; [|split; [|split; [by eapply record_wf|split; [done|]]]].
  - intros x i v. rewrite Hent, decide_True by done. destruct (ws !! x) as [v'|].
    + split; [intros Heq|intros [Heq ->]]; simplify_eq; done.
    + split; [|by intros [? _]]. case_decide as Hx; [done|]. intros He.
      destruct (wf_data m2 Hwf2 _ _ _ _ He) as (l & Hl' & Hx'). congruence.
  - intros x t Ht. by rewrite Hent, decide_False, Hent2.
  - cbn [flags]. rewrite <- Hnew. destruct (_ && _); destruct wrote; vm_compute; split; done.
Qed.

(** C15. A successful execution stores its read set for validation, replaces the data
    of the transaction's earlier incarnations by exactly its new write set,
    leaves all other transactions' entries alone, reports [WroteNewLocation]
    exactly when it wrote somewhere its last incarnation did not, and always
    writes the beneficiary's account, so that the estimate the block starts with
    is gone. *)
Theorem execute_success (views : nat -> MvMemory) (ver : TxVersion) (m m' : MvMemory) (res : VmExecutionResult)
    (Hwf : mv_wf m) (Hx : execute views ver m = Return (Ok res, m')) :
  exists tx db db' r st ws locs locs' ty,
    VmDB_new hash_deterministic (views 0%nat) (views 1%nat) (tx_idx ver) tx
      (hash_deterministic (Loc_Basic (caller tx)))
      ((fun a => hash_deterministic (Loc_Basic a)) <$> kind_to (kind tx)) = Return (Ok db) /\
    run_prog hash_deterministic (fun k => views (2 + k)%nat) 0 (evm_program false evm_env tx) db
      = Return (Ok (Ok (r, st), db')) /\
    apply_rewards (write_state db' st (new_bytecodes m)).1 tx (result_gas_used r) = Ok ws /\
    execution_result res = from_raw ty r st /\
    locations m !! tx_idx ver = Some locs /\ locations m' !! tx_idx ver = Some locs' /\
    rw_read locs' = read_set db' /\
    (forall x i v, entry m' x (tx_idx ver) = Some (Data i v) <->
       ws !! x = Some v /\ i = tx_incarnation ver) /\
    (forall x t, t ≠ tx_idx ver -> entry m' x t = entry m x t) /\
    mv_wf m' /\
    (flags_contains (flags res) WroteNewLocation = true <->
       exists x, is_Some (ws !! x) /\ x ∉ rw_write locs) /\
    (exists v, entry m' beneficiary_location_hash (tx_idx ver) = Some (Data (tx_incarnation ver) v) /\
       balance_value v).
Proof using no_collision.
  destruct (txs !! tx_idx ver) as [tx|] eqn:Htx; [|unfold execute in Hx; by rewrite Htx in Hx].
  destruct (execute_run views ver m tx Htx) as [(e & He & _)|[(err & He)|(db & db' & r & st & Hnew & Hrun & Hdtx & He)]];
    rewrite He in Hx; [discriminate Hx|discriminate Hx|].
  destruct (commit_Ok _ _ _ _ _ _ _ Hwf Hx)
    as (ws & locs & locs' & ty & Hrew & Hl & Hl' & Hread & _ & Hent & Hother & Hwf' & Hres & Hfl).
  rewrite Hdtx in Hrew. exists tx, db, db', r, st, ws, locs, locs', ty. repeat (split; [done|]).
  destruct (apply_rewards_Ok _ _ _ _ Hrew) as [(v & Hv & Hbv) _].
  exists v. split; [|done]. by apply Hent.
Qed.

(** ** What the write set covers *)

Lemma write_state_owner (db : VmDB) (a : Address) (x : LocationHash) (l : list (Address * Account))
    (acc : gmap LocationHash LocationValue * gmap Z Bytecode) :
  (forall acc b acct, b ≠ a -> (write_account db acc (b, acct)).1 !! x = acc.1 !! x) -> NoDup l.*1 ->
  exists acc', acc'.1 !! x = acc.1 !! x /\
    (foldl (write_account db) acc l).1 !! x =
    match (list_to_map l : gmap Z Account) !! a with
    | Some acct => (write_account db acc' (a, acct)).1 !! x
    | None => acc.1 !! x
    end.
Proof.
  intros Hother. revert acc. induction l as [|[b acct] l IH]; intros acc Hnd; cbn [foldl].
  - exists acc. done.
  - rewrite fmap_cons in Hnd. apply list.NoDup_cons in Hnd as [Hnotin Hnd].
    rewrite list_to_map_cons. destruct (decide (b = a)) as [->|Hne].
    + exists acc. split; [done|]. rewrite lookup_insert_eq.
      destruct (IH (write_account db acc (a, acct)) Hnd) as (acc' & _ & ->).
      by rewrite not_elem_of_list_to_map_1.
    + destruct (IH (write_account db acc (b, acct)) Hnd) as (acc' & Hacc & ->).
      exists acc'. rewrite lookup_insert_ne by done. rewrite Hother in Hacc |- * by done. done.
Qed.

Context (hash_inj : forall l l', hash_deterministic l = hash_deterministic l' -> l = l').

Definition loc_address (l : Location) : Address :=
  match l with Loc_Basic a | Loc_CodeHash a | Loc_Storage a _ => a end.

Definition is_storage (l : Location) : bool := match l with Loc_Storage _ _ => true | _ => false end.

Lemma hash_ne (l l' : Location) : l ≠ l' -> hash_deterministic l ≠ hash_deterministic l'.
Proof using hash_inj. intros Hne Heq. by apply Hne, hash_inj. Qed.

Lemma write_slots_other (a : Address) (l : Location) (slots : list (Z * StorageSlot))
    (ws : gmap LocationHash LocationValue) :
  loc_address l ≠ a \/ is_storage l = false ->
  foldl (write_slot a) ws slots !! hash_deterministic l = ws !! hash_deterministic l.
Proof using hash_inj.
  intros Hl. revert ws. induction slots as [|s slots IH]; intros ws; [done|]. cbn [foldl].
  rewrite IH. apply lookup_insert_ne. apply hash_ne. intros <-. simpl in Hl. by destruct Hl.
Qed.

Lemma write_slots_own (a : Address) (slots : list (Z * StorageSlot)) (ws : gmap LocationHash LocationValue)
    (i : Z) (slot : StorageSlot) :
  NoDup slots.*1 -> (i, slot) ∈ slots ->
  foldl (write_slot a) ws slots !! hash_deterministic (Loc_Storage a i) = Some (LV_Storage (present_value slot)).
Proof using hash_inj.
  revert ws. induction slots as [|[j sl] slots IH]; intros ws Hnd Hin; [by apply elem_of_nil in Hin|].
  rewrite fmap_cons in Hnd. apply list.NoDup_cons in Hnd as [Hj Hnd]. cbn [foldl].
  apply elem_of_cons in Hin as [Heq|Hin]; [|by apply IH]. injection Heq as <- <-.
  assert (Hkeep : forall ws, foldl (write_slot a) ws slots !! hash_deterministic (Loc_Storage a i) =
    ws !! hash_deterministic (Loc_Storage a i)).
  { clear IH ws Hnd. induction slots as [|[k sk] slots IH]; intros ws; [done|].
    rewrite fmap_cons in Hj. apply not_elem_of_cons in Hj as [Hne Hj]. cbn [foldl].
    rewrite (IH Hj). apply lookup_insert_ne. apply hash_ne. simpl in *. congruence. }
  rewrite Hkeep. apply lookup_insert_eq.
Qed.

Lemma write_info_other (db : VmDB) (a : Address) (acct : Account) (ws : gmap LocationHash LocationValue)
    (l : Location) :
  l ≠ Loc_Basic a -> write_info db a acct ws !! hash_deterministic l = ws !! hash_deterministic l.
Proof using hash_inj.
  intros Hl. pose proof (hash_ne (Loc_Basic a) l (not_eq_sym Hl)). unfold write_info.
  repeat case_match; rewrite ?lookup_insert_ne by done; done.
Qed.

Lemma write_code_other (db : VmDB) (a : Address) (acct : Account)
    (acc : gmap LocationHash LocationValue * gmap Z Bytecode) (l : Location) :
  l ≠ Loc_CodeHash a ->
  (write_code db a acct acc).1 !! hash_deterministic l = acc.1 !! hash_deterministic l.
Proof using hash_inj.
  intros Hl. pose proof (hash_ne (Loc_CodeHash a) l (not_eq_sym Hl)). unfold write_code.
  destruct acc as [ws bc]. destruct (_ && _); cbn [fst]; rewrite ?lookup_insert_ne by done; done.
Qed.

Lemma write_account_other (db : VmDB) (l : Location) (b : Address) (acct : Account)
    (acc : gmap LocationHash LocationValue * gmap Z Bytecode) :
  b ≠ loc_address l ->
  (write_account db acc (b, acct)).1 !! hash_deterministic l = acc.1 !! hash_deterministic l.
Proof using hash_inj.
  intros Hb. destruct acc as [ws bc]. unfold write_account.
  assert (Hlc : l ≠ Loc_CodeHash b) by (intros ->; by apply Hb).
  assert (Hlb : l ≠ Loc_Basic b) by (intros ->; by apply Hb).
  destruct (is_selfdestructed acct); [cbn [fst]; apply lookup_insert_ne; by apply hash_ne, not_eq_sym|].
  destruct (is_touched acct).
  - destruct (write_code _ _ _ _) as [ws1 bc1] eqn:Hwc. cbn [fst].
    rewrite write_slots_other by (left; congruence).
    change ws1 with (ws1, bc1).1. rewrite <- Hwc, write_code_other by done. cbn [fst].
    by apply write_info_other.
  - cbn [fst]. apply write_slots_other. left. congruence.
Qed.

Lemma write_state_at (db : VmDB) (st : EvmState) (bc : gmap Z Bytecode) (l : Location) (acct : Account) :
  st !! loc_address l = Some acct ->
  exists acc', acc'.1 !! hash_deterministic l = None /\
    (write_state db st bc).1 !! hash_deterministic l =
    (write_account db acc' (loc_address l, acct)).1 !! hash_deterministic l.
Proof using hash_inj.
  intros Hst. unfold write_state.
  destruct (write_state_owner db (loc_address l) (hash_deterministic l) (map_to_list st) (∅, bc))
    as (acc' & Hacc & Heq).
  - intros acc b ac Hb. by apply write_account_other.
  - apply NoDup_fst_map_to_list.
  - rewrite list_to_map_to_list, Hst in Heq. exists acc'. rewrite Hacc. cbn [fst]. by rewrite lookup_empty.
Qed.

(** The bytecodes a transaction adds are those of its accounts. *)
Lemma write_account_bytecodes (db : VmDB) (acc : gmap LocationHash LocationValue * gmap Z Bytecode) (b : Address)
    (acct : Account) (h : Z) (c : Bytecode) :
  acc.2 !! h = Some c -> (write_account db acc (b, acct)).2 !! h = Some c.
Proof.
  destruct acc as [ws bc]. unfold write_account, write_code. cbn [snd]. intros Hc. repeat case_match; simplify_eq/=; try done.
  destruct (decide (ai_code_hash (info acct) = h)) as [Heq|Hne]; [congruence|]. by rewrite lookup_insert_ne.
Qed.

Lemma write_account_code (db : VmDB) (acc : gmap LocationHash LocationValue * gmap Z Bytecode) (b : Address)
    (acct : Account) (h : Z) (c : Bytecode) :
  (write_account db acc (b, acct)).2 !! h = Some c ->
  acc.2 !! h = Some c \/ (ai_code_hash (info acct) = h /\ c = default Bytecode_default (ai_code (info acct))).
Proof.
  destruct acc as [ws bc]. unfold write_account, write_code. cbn [snd]. intros Hc. repeat case_match; simplify_eq/=; try (by left).
  apply lookup_insert_Some in Hc as [[-> <-]|[_ Hc]]; [by right|by left].
Qed.

Lemma write_state_bytecodes (db : VmDB) (st : EvmState) (bc : gmap Z Bytecode) (h : Z) :
  (forall c, bc !! h = Some c -> (write_state db st bc).2 !! h = Some c) /\
  (forall c, (write_state db st bc).2 !! h = Some c -> bc !! h = Some c \/
     exists b acct, st !! b = Some acct /\ ai_code_hash (info acct) = h /\ c = default Bytecode_default (ai_code (info acct))) /\
  (forall b acct, st !! b = Some acct -> is_selfdestructed acct = false -> is_touched acct = true ->
     ai_code_hash (info acct) = h -> is_empty_code_hash h = false ->
     was_without_code (read_accounts db !! hash_deterministic (Loc_Basic b)) = true ->
     is_Some ((write_state db st bc).2 !! h)).
Proof.
  assert (Hin : forall b acct, st !! b = Some acct <-> (b, acct) ∈ map_to_list st) by (intros; by rewrite elem_of_map_to_list).
  unfold write_state. setoid_rewrite Hin. clear Hin.
  change bc with (∅ : gmap LocationHash LocationValue, bc).2 at 1 4. generalize (∅ : gmap LocationHash LocationValue, bc) as acc.
  induction (map_to_list st) as [|[b0 a0] l IH]; intros acc; cbn [foldl].
  - split; [done|]. split; [intros c Hc; by left|]. intros b acct Hb. by apply elem_of_nil in Hb.
  - destruct (IH (write_account db acc (b0, a0))) as (Hk & Hf & Ha). split; [|split].
    + intros c Hc. by apply Hk, write_account_bytecodes.
    + intros c Hc. apply Hf in Hc as [[Hc|[Hh Hc]]%write_account_code|(b & acct & Hin & Hrest)]; [by left| |].
      * right. exists b0, a0. split; [by left|done].
      * right. exists b, acct. split; [by right|done].
    + intros b acct [[= -> ->]|Hin]%elem_of_cons Hd Ht Hh He Hw; [|by eapply Ha].
      enough (is_Some ((write_account db acc (b0, a0)).2 !! h)) as [c Hc] by (exists c; by apply Hk).
      destruct acc as [ws bc0]. unfold write_account, write_code. rewrite Hd, Ht, Hh, He, Hw. cbn.
      destruct (bc0 !! h) eqn:Hc; [by eexists|]. rewrite lookup_insert_eq. by eexists.
Qed.

(** C21. What the EVM changed is in the write set of a transaction that is not updated
    lazily: every touched account whose balance or nonce differs from what was read,
    that was never read, or that has code and was not read as a contract, unless it is
    an empty account that the fork clears, with the values of the EVM; the code hash of
    an account that has code and was not read as a contract, the code of that hash
    being in the shared map, where it was or comes from such an account; every changed
    slot of an account that was not destroyed; and a marker for every destroyed one. Code
    that an account gets after it was read as a contract is not recorded, and each
    account of the chain is read so ([Divergence], [new_code_of_account_lost]). *)
Theorem write_state_complete (db : VmDB) (st : EvmState) (bc : gmap Z Bytecode) (a : Address)
    (account : Account) (Hst : st !! a = Some account)
    (Hlazy : is_lazy db = false) (Hslots : NoDup (changed_storage_slots account).*1) :
  let read := read_accounts db !! hash_deterministic (Loc_Basic a) in
  let code_hash := ai_code_hash (info account) in
  let new_code := is_empty_code_hash code_hash = false /\ (read = None \/ exists b n, read = Some (EOA b n)) in
  (is_selfdestructed account = true ->
     (write_state db st bc).1 !! hash_deterministic (Loc_CodeHash a) = Some LV_SelfDestructed) /\
  (is_selfdestructed account = false ->
     forall i slot, (i, slot) ∈ changed_storage_slots account ->
     (write_state db st bc).1 !! hash_deterministic (Loc_Storage a i) =
       Some (LV_Storage (present_value slot))) /\
  (is_selfdestructed account = false -> is_touched account = true ->
     (account_is_empty account = false \/ is_enabled_in (spec evm_env) SPURIOUS_DRAGON = false) ->
     (read = None \/ new_code \/
      exists b n, (read = Some (EOA b n) \/ read = Some (CA b n)) /\ (b, n) ≠ (ai_balance (info account), ai_nonce (info account))) ->
     (write_state db st bc).1 !! hash_deterministic (Loc_Basic a) = Some (LV_Basic (info account))) /\
  (is_selfdestructed account = false -> is_touched account = true -> new_code ->
     (write_state db st bc).1 !! hash_deterministic (Loc_CodeHash a) = Some (LV_CodeHash code_hash) /\
     exists c, (write_state db st bc).2 !! code_hash = Some c /\
       (bc !! code_hash = Some c \/ exists b acct, st !! b = Some acct /\ ai_code_hash (info acct) = code_hash /\
          c = default Bytecode_default (ai_code (info acct)))).
Proof using hash_inj.
  intros read code_hash new_code.
  assert (Hnew : new_code -> negb (is_empty_code_hash code_hash) && was_without_code read = true)
    by (intros [-> [->|(b & n & ->)]]; done).
  split; [|split; [|split]].
  - intros Hd. destruct (write_state_at db st bc (Loc_CodeHash a) account Hst) as ([ws b] & _ & ->).
    unfold write_account. rewrite Hd. cbn [fst loc_address]. apply lookup_insert_eq.
  - intros Hd i slot Hin. destruct (write_state_at db st bc (Loc_Storage a i) account Hst) as ([ws b] & _ & ->).
    unfold write_account. rewrite Hd. cbn [loc_address].
    destruct (if is_touched account then _ else _) as [ws1 b1]. cbn [fst]. by apply write_slots_own.
  - intros Hd Ht He Hch. destruct (write_state_at db st bc (Loc_Basic a) account Hst) as ([ws b] & _ & ->).
    unfold write_account. rewrite Hd, Ht. cbn [loc_address].
    destruct (write_code _ _ _ _) as [ws1 b1] eqn:Hwc. cbn [fst]. rewrite write_slots_other by (by right).
    change ws1 with (ws1, b1).1. rewrite <- Hwc, write_code_other by done. cbn [fst].
    unfold write_info. fold code_hash. fold read. rewrite Hlazy.
    assert (Hc : (negb (is_empty_code_hash code_hash) && was_without_code read) || bool_decide (read = None)
      || meta_changed read (info account) = true).
    { destruct Hch as [->|[Hn|(b' & n & Hr & Hne)]]; [by rewrite orb_true_r|by rewrite Hnew|].
      replace (meta_changed read (info account)) with true; [by rewrite orb_true_r|].
      symmetry. unfold meta_changed. destruct Hr as [->| ->]; rewrite andb_true_iff, !negb_true_iff, !bool_decide_eq_false;
        split; intros [=]; apply Hne; by subst. }
    assert (Hif : forall d, (negb (is_empty_code_hash code_hash) && was_without_code read) || d || bool_decide (read = None)
      || meta_changed read (info account) = true).
    { intros d. destruct (_ && _), d, (bool_decide _), (meta_changed _ _); done. }
    rewrite Hif. replace (negb _ || negb _) with true; [by rewrite lookup_insert_eq; destruct (info account)|].
    destruct He as [-> | ->]; by rewrite ?orb_true_r.
  - intros Hd Ht Hn. split.
    + destruct (write_state_at db st bc (Loc_CodeHash a) account Hst) as ([ws b] & _ & ->).
      unfold write_account. rewrite Hd, Ht. cbn [loc_address]. unfold write_code. fold code_hash. fold read.
      rewrite Hnew by done. cbn [fst]. rewrite write_slots_other by (by right). apply lookup_insert_eq.
    + destruct (write_state_bytecodes db st bc code_hash) as (_ & Hf & Ha).
      specialize (Hnew Hn). apply andb_true_iff in Hnew as [Hne Hw]. apply negb_true_iff in Hne.
      destruct (Ha a account Hst Hd Ht eq_refl Hne Hw) as [c Hc]. exists c. split; [done|by apply Hf].
Qed.

End Vm.

(** ** Examples *)

(** A hash without collisions, for examples. *)
Definition encode_hash (l : Location) : LocationHash :=
  Zpos (encode (match l with
                | Loc_Basic a => inl a
                | Loc_CodeHash a => inr (inl a)
                | Loc_Storage a i => inr (inr (a, i))
                end : Z + (Z + Z * Z))).

Lemma encode_hash_inj (l l' : Location) : encode_hash l = encode_hash l' -> l = l'.
Proof.
  unfold encode_hash. intros Heq. injection Heq as Heq. apply (inj encode) in Heq.
  destruct l, l'; simplify_eq; done.
Qed.

Lemma encode_hash_no_collision (a x : Z) :
  plain_location encode_hash x -> encode_hash (Loc_Basic a) ≠ x.
Proof. intros [(b & ->)|(b & i & ->)] Heq; by apply encode_hash_inj in Heq. Qed.

Section Examples.
#[local] Existing Instance example_revm.
#[local] Existing Instance example_db.

Definition example_env : EvmEnv := mkEvmEnv 100 10 12%nat.
Definition example_caller_account : Account := mkAccount (mkAccountInfo 50 1 0 None) ∅ (false, true) tt.

(** An EVM whose transactions read slot 0 of account 1 and touch their caller. *)
#[local] Instance example_evm : Evm := {|
  evm_program := fun _ _ tx => ReadStorage 1 0 (fun _ =>
    Ret (Ok (Success 21000 [], {[ caller tx := example_caller_account ]})));
  changed_storage_slots := fun _ => [(4, mkStorageSlot 0 6)];
  tx_type_try_from := fun t => Ok t;
|}.

Definition example_txs : list TxEnv := [example_tx; example_tx].

(** The first transaction was aborted after writing the slot. *)
Definition example_blocked_mem : MvMemory :=
  mkMvMemory {[ encode_hash (Loc_Storage 1 0) := {[ 0%nat := Estimate ]} ]}
    (replicate 2 (mkReadWriteSet ∅ [])) ∅ ∅.

Lemma execute_blocks_on_lower_witness :
  execute encode_hash example_env example_txs (fun _ => example_blocked_mem) (mkTxVersion 1 0)
    example_blocked_mem = Return (Err (VE_Blocking 0), example_blocked_mem) /\ (0 < 1)%nat.
Proof.
  split; [vm_compute; reflexivity|].
  apply (execute_blocks_on_lower encode_hash example_env example_txs encode_hash_no_collision
    (fun _ => example_blocked_mem) (mkTxVersion 1 0) example_blocked_mem example_blocked_mem).
  vm_compute. reflexivity.
Defined.

Definition example_empty_mem : MvMemory := MvMemory_new 2 ∅ [].

Lemma execute_success_witness :
  exists res m', execute encode_hash example_env example_txs (fun _ => example_empty_mem) (mkTxVersion 1 0)
    example_empty_mem = Return (Ok res, m') /\ mv_wf m'.
Proof.
  destruct (execute encode_hash example_env example_txs (fun _ => example_empty_mem) (mkTxVersion 1 0)
    example_empty_mem) as [[[res|e] m']| |] eqn:Hx; try (vm_compute in Hx; discriminate Hx).
  exists res, m'. split; [reflexivity|].
  destruct (execute_success encode_hash example_env example_txs encode_hash_no_collision
    (fun _ => example_empty_mem) (mkTxVersion 1 0) example_empty_mem m' res (MvMemory_new_wf 2 ∅ []) Hx)
    as (tx & db & db' & r & st & ws & locs & locs' & ty & _ & _ & _ & _ & _ & _ & _ & _ & _ & Hwf & _).
  exact Hwf.
Defined.

Definition example_paying_tx : TxEnv := mkTxEnv 9 Create 0 0 21000 30 (Some 5) 0 0 0 tt.

Lemma apply_rewards_exact_witness :
  exists ws', apply_rewards encode_hash example_env ∅ example_paying_tx 21000 = Ok ws' /\
    balance_after 0 (ws' !! beneficiary_location_hash encode_hash example_env) = 5 * 21000.
Proof.
  destruct (apply_rewards_exact encode_hash example_env ∅ example_paying_tx 21000 0) as (ws' & Hws & Hbal & _).
  - intros v Hv. by rewrite lookup_empty in Hv.
  - vm_compute. discriminate.
  - vm_compute. discriminate.
  - lia.
  - intros i Hv. by rewrite lookup_empty in Hv.
  - intros i Hv. by rewrite lookup_empty in Hv.
  - intros i Hv. by rewrite lookup_empty in Hv.
  - vm_compute. discriminate.
  - exists ws'. split; [exact Hws|exact Hbal].
Defined.

(** A contract created by the transaction. *)
Definition example_created : Account := mkAccount (mkAccountInfo 50 1 5 (Some 77)) ∅ (false, true) tt.

Lemma write_state_complete_witness :
  (write_state encode_hash example_env example_start {[ 9 := example_created ]} ∅).1
    !! encode_hash (Loc_Storage 9 4) = Some (LV_Storage 6) /\
  (write_state encode_hash example_env example_start {[ 9 := example_created ]} ∅).1
    !! encode_hash (Loc_CodeHash 9) = Some (LV_CodeHash 5).
Proof.
  destruct (write_state_complete encode_hash example_env encode_hash_inj example_start
    {[ 9 := example_created ]} ∅ 9 example_created) as (_ & Hs & _ & Hc).
  - apply lookup_singleton_eq.
  - reflexivity.
  - apply NoDup_singleton.
  - split.
    + apply (Hs eq_refl 4 (mkStorageSlot 0 6)). by left.
    + apply (Hc eq_refl eq_refl). split; [reflexivity|by left].
Defined.

End Examples.
