(* ===== verification/Executor.v ===== *)
(** * The block executor (crates/pe/src/executor.rs)

    What [ParallelExecutor::execute] does once its worker threads are done:
    running totals of the gas, and the full evaluation of the accounts that were
    updated lazily; the dispatch on an abort reason; and [execute_sequential],
    the fallback. The worker threads themselves are [Workers]. *)

From S2P Require Import Prelude Primitives Types Results MvMemory VmDb Vm.
Local Open Scope Z_scope.

Section Executor.
Context `{Revm} `{!DatabaseRef} `{!Evm}.
Context (hash_deterministic : Location -> LocationHash).

(** The result of a step that may panic and may fail. *)
Definition Step (A : Type) : Type := outcome (result A ParallelExecutorError).

Definition step_bind {A B : Type} (m : Step A) (k : A -> Step B) : Step B :=
  match m with
  | Return (Ok a) => k a
  | Return (Err e) => Return (Err e)
  | Panic => Panic
  | UB => UB
  end.

Fixpoint step_fold {A B : Type} (f : B -> A -> Step B) (l : list A) (b : B) : Step B :=
  match l with
  | [] => Return (Ok b)
  | a :: l' => step_bind (f b a) (step_fold f l')
  end.

(** ** Running totals of the gas *)

Definition set_gas (g : Z) (r : TxExecutionResult) : TxExecutionResult :=
  mkTxExecutionResult
    (mkReceipt (receipt_tx_type (receipt r)) (success (receipt r)) g (receipt_logs (receipt r)))
    (state r).

Fixpoint accumulate_gas (total : Z) (rs : list TxExecutionResult) : list TxExecutionResult :=
  match rs with
  | [] => []
  | r :: rs' =>
      let total' := saturating_add 64 total (cumulative_gas_used (receipt r)) in
      set_gas total' r :: accumulate_gas total' rs'
  end.

(** ** Full evaluation of lazily updated accounts *)

(** [BTreeMap::iter]: all entries in ascending order. *)
Definition history (w : gmap TxIdx Entry) : list (TxIdx * Entry) :=
  reverse (range_below w (S (max_list (map_to_list w).*1))).

(** The fee a sender must be able to pay. *)
Definition max_fee (tx : TxEnv) : Z :=
  saturating_add 256
    (saturating_add 256 (saturating_mul 256 (gas_limit tx) (gas_price tx)) (value tx))
    (saturating_mul 256 (total_blob_gas tx) (max_fee_per_blob_gas tx)).

(** One entry of an account's history. *)
Definition eval_entry (tx : TxEnv) (bn : Z * Z) (e : Entry) : Step (Z * Z) :=
  let '(balance, nonce) := bn in
  match e with
  | Data _ (LV_Basic i) =>
      if (ai_balance i =? 0) && (ai_nonce i =? 0) then Panic
      else Return (Ok (ai_balance i, ai_nonce i))
  | Data _ (LV_LazyRecipient addition) => Return (Ok (saturating_add 256 balance addition, nonce))
  | Data _ (LV_LazySender subtraction) =>
      if balance <? max_fee tx then
        Return (Err (PE_ExecutionError (EE_Transaction (IT_LackOfFundForMaxFee (max_fee tx) balance))))
      else Return (Ok (saturating_sub balance subtraction, wrapping 64 (nonce + 1)))
  | _ => Panic
  end.

(** The nonce check of a caller. *)
Definition check_caller_nonce (tx : TxEnv) (address : Address) (idx : TxIdx) (account_nonce : Z) : Step unit :=
  if caller tx =? address then
    if account_nonce =? 0 then Return (Err PE_UnreachableError)
    else if negb (nonce tx =? account_nonce - 1) then
      Return (Err (PE_NonceMismatch idx (nonce tx) (account_nonce - 1)))
    else Return (Ok tt)
  else Return (Ok tt).

(** Write the evaluated account into the state of a transaction's result. *)
Definition put_account (env : EvmEnv) (address : Address) (code_hash : Z) (code : Bytecode)
    (bn : Z * Z) (r : TxExecutionResult) : TxExecutionResult :=
  let '(balance, account_nonce) := bn in
  if is_enabled_in (spec env) SPURIOUS_DRAGON && (code_hash =? KECCAK_EMPTY)
     && (account_nonce =? 0) && (balance =? 0)
  then r
  else
    match state r !! address with
    | Some account =>
        mkTxExecutionResult (receipt r)
          (<[address := mkAccount (mkAccountInfo balance account_nonce (ai_code_hash (info account))
                                     (ai_code (info account)))
                          (storage account) (status_ account) (account_rest account)]> (state r))
    | None =>
        mkTxExecutionResult (receipt r)
          (<[address := mkAccount (mkAccountInfo balance account_nonce code_hash (Some code)) ∅
                          Status_Touched AccountRest_default]> (state r))
    end.

Definition eval_step (env : EvmEnv) (txs : list TxEnv) (address : Address) (code_hash : Z) (code : Bytecode)
    (acc : (Z * Z) * list TxExecutionResult) (ie : TxIdx * Entry) :
    Step ((Z * Z) * list TxExecutionResult) :=
  let '(bn, results) := acc in
  let '(idx, e) := ie in
  match txs !! idx with
  | None => UB
  | Some tx =>
      step_bind (eval_entry tx bn e) (fun bn' =>
      step_bind (check_caller_nonce tx address idx bn'.2) (fun _ =>
      match results !! idx with
      | None => UB
      | Some r => Return (Ok (bn', <[idx := put_account env address code_hash code bn' r]> results))
      end))
  end.

(** What the history starts from: nothing if its first entry is absolute, else
    the chain's account. *)
Definition eval_base (address : Address) (w : list (TxIdx * Entry)) : Z * Z * Z :=
  match w with
  | (_, Data _ (LV_Basic _)) :: _ => (0, 0, KECCAK_EMPTY)
  | _ => match basic_ref address with
         | Ok (Some account) => (ai_balance account, ai_nonce account, ai_code_hash account)
         | _ => (0, 0, KECCAK_EMPTY)
         end
  end.

Definition eval_address (env : EvmEnv) (txs : list TxEnv) (m : MvMemory)
    (results : list TxExecutionResult) (address : Address) : Step (list TxExecutionResult) :=
  match data m !! hash_deterministic (Loc_Basic address) with
  | None => Return (Ok results)
  | Some written =>
      let w := history written in
      let '(balance, account_nonce, code_hash) := eval_base address w in
      match code_by_hash_ref code_hash with
      | Err e => Return (Err (PE_StorageError (err_to_string e)))
      | Ok code =>
          step_bind (step_fold (eval_step env txs address code_hash code) w ((balance, account_nonce), results))
            (fun acc => Return (Ok acc.2))
      end
  end.

Definition eval_lazy (env : EvmEnv) (txs : list TxEnv) (m : MvMemory) (results : list TxExecutionResult) :
    Step (list TxExecutionResult) :=
  step_fold (eval_address env txs m) (consume_lazy_addresses m) results.

(** ** [execute_sequential] *)

(** Reading through [CacheDB]: the chain's state with the states of the
    transactions committed so far on top. The overlay is [revm]'s. *)
Record DbView : Type := mkDbView {
  view_basic : Address -> result (option AccountInfo) DbError;
  view_code : Z -> result Bytecode DbError;
  view_storage : Address -> Z -> result Z DbError;
  view_block_hash : Z -> result Z DbError;
}.

Context (cache_db : list EvmState -> DbView).

Fixpoint run_view {A : Type} (v : DbView) (p : Prog A) : result A DbError :=
  match p with
  | Ret a => Ok a
  | ReadBasic address k => result_bind (view_basic v address) (fun a => run_view v (k a))
  | ReadCode h k => result_bind (view_code v h) (fun a => run_view v (k a))
  | ReadStorage address i k => result_bind (view_storage v address i) (fun a => run_view v (k a))
  | ReadBlockHash n k => result_bind (view_block_hash v n) (fun a => run_view v (k a))
  end.

(** [evm.transact(tx)]. *)
Definition transact (env : EvmEnv) (committed : list EvmState) (tx : TxEnv) :
    result (ExecutionResult * EvmState) (EVMError DbError) :=
  match run_view (cache_db committed) (evm_program true env tx) with
  | Err e => Err (EE_Database e)
  | Ok (Err e) => Err (lift_error e)
  | Ok (Ok r) => Ok r
  end.

Fixpoint sequential_loop (env : EvmEnv) (txs : list TxEnv) (committed : list EvmState)
    (cumulative : Z) : result (list TxExecutionResult) ParallelExecutorError :=
  match txs with
  | [] => Ok []
  | tx :: txs' =>
      match tx_type_try_from (tx_type tx) with
      | Err _ => Err PE_UnreachableError
      | Ok ty =>
          match transact env committed tx with
          | Err e => Err (evm_err_to_exec_error err_to_string e)
          | Ok (result, st) =>
              let r := from_raw ty result st in
              let cumulative' := saturating_add 64 cumulative (cumulative_gas_used (receipt r)) in
              result_bind (sequential_loop env txs' (committed ++ [st]) cumulative')
                (fun rs => Ok (set_gas cumulative' r :: rs))
          end
      end
  end.

Definition execute_sequential (env : EvmEnv) (txs : list TxEnv) :
    result (list TxExecutionResult) ParallelExecutorError :=
  sequential_loop env txs [] 0.

(** ** [execute], after the threads *)

(** Take the result of every transaction out of its slot. *)
Definition take_results (slots : list (option TxExecutionResult)) (n : nat) :
    outcome (list TxExecutionResult) :=
  foldr (fun i acc =>
    match slots !! i with
    | None => UB
    | Some None => Panic
    | Some (Some r) => match acc with Return rs => Return (r :: rs) | o => o end
    end) (Return []) (seq 0 n).

Definition finish_block (env : EvmEnv) (txs : list TxEnv) (abort_reason : option AbortReason)
    (slots : list (option TxExecutionResult)) (m : MvMemory) : Step (list TxExecutionResult) :=
  match abort_reason with
  | Some AR_FallbackToSequential => Return (execute_sequential env txs)
  | Some (AR_ExecutionError err) => Return (Err (PE_ExecutionError err))
  | None =>
      match take_results slots (length txs) with
      | Return rs => eval_lazy env txs m (accumulate_gas 0 rs)
      | Panic => Panic
      | UB => UB
      end
  end.

(** [execute]: an empty block has no results; otherwise the workers leave an abort
    reason, the result slots and the memory. *)
Definition execute_block (env : EvmEnv) (txs : list TxEnv)
    (workers : option AbortReason * list (option TxExecutionResult) * MvMemory) :
    Step (list TxExecutionResult) :=
  match txs with
  | [] => Return (Ok [])
  | _ => let '(abort_reason, slots, m) := workers in finish_block env txs abort_reason slots m
  end.

(** The slots at the start: those left from the last block, with new ones pushed
    to reach the block size. *)
Definition reserve_slots (block_size : nat) (slots : list (option TxExecutionResult)) :
    list (option TxExecutionResult) :=
  slots ++ replicate (block_size - length slots) None.


(** ** Gas *)

(** The total gas of a list of results whose receipts hold their own gas. *)
Definition gas_sum (rs : list TxExecutionResult) : Z :=
  foldr (fun r s => cumulative_gas_used (receipt r) + s) 0 rs.

Definition gas_positive (rs : list TxExecutionResult) : Prop :=
  Forall (fun r => 0 <= cumulative_gas_used (receipt r)) rs.

Lemma gas_sum_pos (rs : list TxExecutionResult) : gas_positive rs -> 0 <= gas_sum rs.
Proof. induction 1 as [|r rs Hr _ IH]; [done|]. cbn [gas_sum foldr]. fold (gas_sum rs). lia. Qed.

Lemma accumulate_gas_lookup (rs : list TxExecutionResult) (total : Z) (i : nat) (r : TxExecutionResult) :
  gas_positive rs -> 0 <= total <= u64_MAX -> rs !! i = Some r ->
  accumulate_gas total rs !! i =
  Some (set_gas (Z.min (total + gas_sum (take (S i) rs)) u64_MAX) r).
Proof.
  intros Hpos. revert total i. induction Hpos as [|r0 rs Hr Hpos IH]; intros total i Ht Hi; [done|].
  cbn [accumulate_gas]. unfold saturating_add. change (uint_max 64) with u64_MAX.
  destruct i as [|i].
  - injection Hi as ->. cbn [lookup list_lookup take gas_sum foldr]. by rewrite Z.add_0_r.
  - cbn [lookup list_lookup take gas_sum foldr] in *. fold (gas_sum (take (S i) rs)).
    rewrite IH; [|unfold u64_MAX, uint_max in *; lia|done]. do 2 f_equal.
    pose proof (gas_sum_pos (take (S i) rs) ltac:(by apply list.Forall_take)).
    lia.
Qed.

Lemma accumulate_gas_length (rs : list TxExecutionResult) (total : Z) :
  length (accumulate_gas total rs) = length rs.
Proof. revert total. induction rs as [|r rs IH]; intros t; [done|]. cbn [accumulate_gas length]. by rewrite IH. Qed.

(** The receipts of a block carry the running total of the gas used: the receipt
    of transaction [i] holds the sum of the gas of transactions [0] to [i], capped
    at the largest [u64], and nothing else of a result changes. *)
Lemma accumulate_gas_spec (rs : list TxExecutionResult) (i : nat) (r : TxExecutionResult)
    (Hpos : gas_positive rs) (Hi : rs !! i = Some r) :
  accumulate_gas 0 rs !! i = Some (set_gas (Z.min (gas_sum (take (S i) rs)) u64_MAX) r).
Proof.
  rewrite (accumulate_gas_lookup rs 0 i r Hpos); [|unfold u64_MAX, uint_max; lia|done]. done.
Qed.

(** What the sequential executor runs each transaction on: the states of the
    transactions before it. *)
Inductive runs_sequentially (env : EvmEnv) : list TxEnv -> list EvmState -> list TxExecutionResult -> Prop :=
| rs_nil committed : runs_sequentially env [] committed []
| rs_cons tx txs committed ty res st rs :
    tx_type_try_from (tx_type tx) = Ok ty -> transact env committed tx = Ok (res, st) ->
    runs_sequentially env txs (committed ++ [st]) rs ->
    runs_sequentially env (tx :: txs) committed (from_raw ty res st :: rs).

Lemma sequential_loop_runs (env : EvmEnv) (txs : list TxEnv) (committed : list EvmState) (total : Z)
    (rs : list TxExecutionResult) :
  sequential_loop env txs committed total = Ok rs <->
  exists raw, runs_sequentially env txs committed raw /\ rs = accumulate_gas total raw.
Proof.
  revert committed total rs. induction txs as [|tx txs IH]; intros committed total rs; cbn [sequential_loop].
  - split; [intros Heq; injection Heq as <-; exists []; split; [constructor|done]|].
    intros (raw & Hr & ->). inversion Hr; subst. done.
  - split.
    + destruct (tx_type_try_from _) as [ty|] eqn:Hty; [|done].
      destruct (transact env committed tx) as [[res st]|e] eqn:Ht; [|done].
      destruct (sequential_loop _ _ _ _) as [rs'|e] eqn:Hl; [|done]. cbn. intros Heq. injection Heq as <-.
      apply IH in Hl as (raw & Hr & ->). exists (from_raw ty res st :: raw).
      split; [by eapply rs_cons|done].
    + intros (raw & Hr & ->). inversion Hr as [|? ? ? ty res st raw' Hty Ht Hr']; subst.
      rewrite Hty, Ht. cbn [accumulate_gas].
      rewrite (proj2 (IH _ _ (accumulate_gas _ raw'))) by eauto. done.
Qed.

(** C17. The sequential fallback runs the transactions one after the other, each on the
    states its predecessors committed, stops at the first error, and totals the
    gas exactly as the parallel executor does. *)
Theorem execute_sequential_spec (env : EvmEnv) (txs : list TxEnv) (rs : list TxExecutionResult) :
  execute_sequential env txs = Ok rs <->
  exists raw, runs_sequentially env txs [] raw /\ rs = accumulate_gas 0 raw.
Proof. apply sequential_loop_runs. Qed.

(** ** Lazy accounts *)

(** The history of an account from the oldest lazy update on, with the
    transactions that made them. *)
Definition forward (ls : list (TxEnv * (TxIdx * TxIncarnation * LocationValue))) (bn : Z * Z) : Step (Z * Z) :=
  step_fold (fun bn e => eval_entry e.1 bn (as_entry e.2).2) ls bn.

(** No lazy sender takes more than the account has. *)
Fixpoint covered (b : Z) (ls : list (TxIdx * TxIncarnation * LocationValue)) : Prop :=
  match ls with
  | [] => True
  | (_, v) :: ls' => 0 <= b + balance_delta v /\ covered (b + balance_delta v) ls'
  end.

Lemma forward_fold (ls : list (TxEnv * (TxIdx * TxIncarnation * LocationValue))) (b n b' n' : Z) :
  Forall lazy_entry ls.*2 -> 0 <= b -> covered b ls.*2 ->
  b + total (fun v => Z.abs (balance_delta v)) ls.*2 <= U256_MAX ->
  forward ls (b, n) = Return (Ok (b', n')) ->
  b' = b + total balance_delta ls.*2 /\ wrapping 64 n' = wrapping 64 (n + total nonce_delta ls.*2).
Proof.
  revert b n. induction ls as [|[tx [[i inc] v]] ls IH]; intros b n Hl Hb Hc Hsum Hf.
  - cbn in Hf. injection Hf as <- <-. cbn. by rewrite !Z.add_0_r.
  - rewrite fmap_cons in *. apply list.Forall_cons in Hl as [[[p Hp] Hr] Hl]. cbn [fst snd] in *.
    cbn [covered fst snd] in Hc. destruct Hc as [Hb1 Hc].
    cbn [total foldr fst snd] in Hsum. fold (total (fun v => Z.abs (balance_delta v)) ls.*2) in Hsum.
    pose proof (total_abs_pos ls.*2) as Hpos.
    unfold forward in Hf. cbn [step_fold as_entry fst snd] in Hf.
    cbn [total foldr fst snd]. fold (total balance_delta ls.*2). fold (total nonce_delta ls.*2).
    destruct v as [|?|?|x|x|]; try done.
    + change (balance_delta (LV_LazyRecipient x)) with x in *.
      change (nonce_delta (LV_LazyRecipient x)) with 0. cbn [eval_entry step_bind] in Hf.
      assert (Hs : saturating_add 256 b x = b + x)
        by (unfold saturating_add; change (uint_max 256) with U256_MAX; lia).
      rewrite Hs in Hf. destruct (IH (b + x) n Hl Hb1 Hc ltac:(lia) Hf) as [-> ->].
      split; [lia|f_equal; lia].
    + change (balance_delta (LV_LazySender x)) with (- x) in *.
      change (nonce_delta (LV_LazySender x)) with 1. cbn [eval_entry step_bind] in Hf.
      destruct (b <? max_fee tx); [discriminate Hf|]. cbn [step_bind] in Hf.
      assert (Hs : saturating_sub b x = b + - x) by (unfold saturating_sub; lia).
      rewrite Hs in Hf. destruct (IH (b + - x) (wrapping 64 (n + 1)) Hl Hb1 Hc ltac:(lia) Hf) as [-> ->].
      split; [lia|]. unfold wrapping. rewrite Zplus_mod_idemp_l. f_equal. lia.
Qed.

Lemma covered_total (ls : list (TxIdx * TxIncarnation * LocationValue)) (b : Z) :
  0 <= b -> covered b ls -> 0 <= b + total balance_delta ls.
Proof.
  revert b. induction ls as [|[p v] ls IH]; intros b Hb Hc; [simpl; lia|].
  destruct Hc as [Hb1 Hc]. specialize (IH _ Hb1 Hc). simpl. lia.
Qed.

Lemma total_reverse (f : LocationValue -> Z) (ls : list (TxIdx * TxIncarnation * LocationValue)) :
  total f (reverse ls) = total f ls.
Proof.
  assert (Happ : forall l k, total f (l ++ k) = total f l + total f k).
  { induction l as [|x l IH]; intros k; [done|]. cbn [app total foldr]. fold (total f (l ++ k)) (total f l).
    rewrite IH. lia. }
  induction ls as [|x ls IH]; [done|]. rewrite reverse_cons, Happ, IH.
  cbn [total foldr]. fold (total f ls). lia.
Qed.

(** C16. The two evaluations of lazily updated accounts agree. At the end of a block the
    executor folds the updates of an account forward, from an absolute balance and
    nonce; during the block a reader folds them backwards through [I257]. If the
    forward evaluation goes through, both give the same balance and nonce, as long
    as senders spend no more than they have and the amounts fit a [U256]. *)
Theorem lazy_evaluations_agree (account : AccountInfo) (j : TxIdx) (inc : TxIncarnation)
    (ls : list (TxEnv * (TxIdx * TxIncarnation * LocationValue))) (b' n' : Z)
    (Hl : Forall lazy_entry ls.*2) (Hb : in_range 256 (ai_balance account))
    (Hcov : covered (ai_balance account) ls.*2)
    (Hsum : ai_balance account + total (fun v => Z.abs (balance_delta v)) ls.*2 <= U256_MAX)
    (Hf : forward ls (ai_balance account, ai_nonce account) = Return (Ok (b', n'))) :
  exists scan,
    scan_lazy [] ((as_entry <$> reverse ls.*2) ++ [(j, Data inc (LV_Basic account))])
      (mkLazyScan None I257.NEGATIVE_ZERO 0 []) = Ok scan /\
    scan_account scan = Some account /\
    I257.abs_value (I257.add (balance_addition scan) (I257.from_U256 (ai_balance account))) = b' /\
    wrapping 64 (ai_nonce account + nonce_addition scan) = wrapping 64 n'.
Proof.
  unfold in_range in Hb.
  destruct (forward_fold ls _ _ b' n' Hl (proj1 Hb) Hcov Hsum Hf) as [-> Hn].
  assert (Hpos : 0 <= ai_balance account + total balance_delta ls.*2).
  { apply covered_total; [lia|done]. }
  destruct (scan_lazy_fold (reverse ls.*2) [(j, Data inc (LV_Basic account))]
    (mkLazyScan None I257.NEGATIVE_ZERO 0 [])) as (acc & Hs & _ & Hw & Hbal & Hno & _).
  { apply Forall_reverse. done. }
  { unfold I257.wf, in_range. cbn [balance_addition I257.NEGATIVE_ZERO I257.value]. lia. }
  { done. }
  { rewrite total_reverse. cbn [I257.to_Z balance_addition I257.NEGATIVE_ZERO I257.is_negative I257.value]. lia. }
  rewrite Hs. cbn [scan_lazy]. rewrite (bool_decide_eq_true_2 ([] = [])) by done. cbn [negb andb].
  eexists. split; [reflexivity|]. cbn [scan_account balance_addition nonce_addition] in *.
  rewrite total_reverse in Hbal, Hno. pose proof (total_le_abs ls.*2). split; [done|split].
  - assert (Hwb : I257.wf (I257.from_U256 (ai_balance account))) by (unfold I257.wf, in_range; simpl; lia).
    rewrite I257.abs_value_to_Z by (by apply I257.add_wf). rewrite I257.add_to_Z by done.
    rewrite I257.from_U256_to_Z, Hbal. cbn [I257.to_Z I257.NEGATIVE_ZERO I257.is_negative I257.value].
    unfold I257.clamp. lia.
  - rewrite Hn. unfold wrapping in *. rewrite Z.add_mod, Hno, <- Z.add_mod by lia. done.
Qed.

(** ** The unchecked accesses after the threads *)

Lemma take_results_all (slots : list (option TxExecutionResult)) (n : nat) :
  (forall i, (i < n)%nat -> exists r, slots !! i = Some (Some r)) ->
  exists rs, take_results slots n = Return rs /\ length rs = n /\
    forall i, (i < n)%nat -> slots !! i = Some (rs !! i).
Proof.
  intros Hall. unfold take_results.
  assert (Hgen : forall k j, (j + k <= n)%nat -> exists rs,
    foldr (fun i acc => match slots !! i with
      | None => UB | Some None => Panic
      | Some (Some r) => match acc with Return rs => Return (r :: rs) | o => o end end)
      (Return []) (seq j k) = Return rs /\ length rs = k /\
    forall i, (i < k)%nat -> slots !! (j + i)%nat = Some (rs !! i)).
  { induction k as [|k IH]; intros j Hj; [exists []; split; [done|split; [done|lia]]|].
    destruct (IH (S j) ltac:(lia)) as (rs & Hrs & Hlen & Hl). destruct (Hall j ltac:(lia)) as (r & Hr).
    exists (r :: rs). cbn [seq foldr]. rewrite Hr, Hrs. split; [done|split; [simpl; lia|]].
    intros [|i] Hi; [rewrite Nat.add_0_r; done|]. rewrite <- Nat.add_succ_comm. apply Hl. lia. }
  destruct (Hgen n 0%nat ltac:(lia)) as (rs & Hrs & Hlen & Hl). eauto.
Qed.

(** ** What the results carry to the block *)

Lemma put_account_receipt (env : EvmEnv) (address : Address) (ch : Z) (code : Bytecode) (bn : Z * Z)
    (r : TxExecutionResult) :
  receipt (put_account env address ch code bn r) = receipt r.
Proof. destruct bn. unfold put_account. by repeat case_match. Qed.

Lemma step_fold_inv {A B : Type} (I : B -> Prop) (f : B -> A -> Step B) (l : list A) (b b' : B) :
  (forall b a b', I b -> f b a = Return (Ok b') -> I b') -> I b ->
  step_fold f l b = Return (Ok b') -> I b'.
Proof.
  intros Hf. revert b. induction l as [|a l IH]; intros b Hb; cbn [step_fold].
  - intros Heq. by injection Heq as <-.
  - destruct (f b a) as [[b1|e]| |] eqn:Hfb; try done. cbn [step_bind]. apply IH. by eapply Hf.
Qed.

Lemma eval_address_receipts (env : EvmEnv) (txs : list TxEnv) (m : MvMemory)
    (rs rs' : list TxExecutionResult) (address : Address) :
  eval_address env txs m rs address = Return (Ok rs') -> receipt <$> rs' = receipt <$> rs.
Proof.
  unfold eval_address. destruct (data m !! _) as [w|]; [|intros Heq; by injection Heq as <-].
  destruct (eval_base _ _) as [[b n] ch]. destruct (code_by_hash_ref ch) as [code|]; [|done].
  destruct (step_fold _ _ _) as [[acc|]| |] eqn:Hf; try done. cbn [step_bind].
  intros Heq. injection Heq as <-.
  apply (step_fold_inv (fun acc => receipt <$> acc.2 = receipt <$> rs)) in Hf; [done| |done].
  clear. intros [bn r1] [i e] [bn' r2] Hr. unfold eval_step. cbn [snd] in *.
  destruct (txs !! i) as [tx|]; [|done]. destruct (eval_entry tx bn e) as [[bn1|]| |]; try done.
  cbn [step_bind]. destruct (check_caller_nonce _ _ _ _) as [[u|]| |]; try done. cbn [step_bind].
  destruct (r1 !! i) as [r|] eqn:Hi; [|done]. intros Heq. injection Heq as <- <-.
  rewrite list_fmap_insert, put_account_receipt, <- Hr. apply list_insert_id.
  by rewrite list_lookup_fmap, Hi.
Qed.

Lemma eval_lazy_receipts (env : EvmEnv) (txs : list TxEnv) (m : MvMemory) (rs rs' : list TxExecutionResult) :
  eval_lazy env txs m rs = Return (Ok rs') -> receipt <$> rs' = receipt <$> rs.
Proof.
  apply (step_fold_inv (fun r => receipt <$> r = receipt <$> rs)); [|done].
  intros r1 a r2 Hr Hf. apply eval_address_receipts in Hf. congruence.
Qed.

(** The receipts of the results are running totals of the gas of one execution per
    transaction. *)
Definition totals_of (n : nat) (rs : list TxExecutionResult) : Prop :=
  exists raw, length raw = n /\ receipt <$> rs = receipt <$> accumulate_gas 0 raw.

Lemma take_results_length (slots : list (option TxExecutionResult)) (n : nat) (rs : list TxExecutionResult) :
  take_results slots n = Return rs -> length rs = n.
Proof.
  unfold take_results. generalize 0%nat as j. revert rs. induction n as [|n IH]; intros rs j; cbn [seq foldr].
  - intros Heq. by injection Heq as <-.
  - destruct (slots !! j) as [[r|]|]; try done.
    destruct (foldr _ _ (seq (S j) n)) as [rs'| |] eqn:Hf; try done.
    intros Heq. injection Heq as <-. cbn [length]. f_equal. by eapply IH.
Qed.

Lemma runs_sequentially_length (env : EvmEnv) (txs : list TxEnv) (committed : list EvmState)
    (raw : list TxExecutionResult) :
  runs_sequentially env txs committed raw -> length raw = length txs.
Proof. induction 1; cbn [length]; congruence. Qed.

Lemma execute_block_totals (env : EvmEnv) (txs : list TxEnv)
    (workers : option AbortReason * list (option TxExecutionResult) * MvMemory)
    (rs : list TxExecutionResult) :
  execute_block env txs workers = Return (Ok rs) -> totals_of (length txs) rs.
Proof.
  unfold execute_block. destruct txs as [|tx txs]; [intros Heq; injection Heq as <-; by exists []|].
  destruct workers as [[[[|err]|] slots] m]; cbn [finish_block].
  - intros Heq. injection Heq as Heq. apply sequential_loop_runs in Heq as (raw & Hr & ->).
    exists raw. split; [by eapply runs_sequentially_length|done].
  - discriminate.
  - destruct (take_results _ _) as [rs0| |] eqn:Ht; try done. intros He.
    exists rs0. split; [by eapply take_results_length|]. by eapply eval_lazy_receipts.
Qed.

End Executor.

(** ** Examples *)

Section Examples.
#[local] Existing Instance example_revm.
#[local] Existing Instance example_db.
#[local] Existing Instance example_evm.

Definition example_result (gas : Z) : TxExecutionResult := from_raw 0 (Success gas []) ∅.

Lemma accumulate_gas_spec_witness :
  accumulate_gas 0 [example_result 21000; example_result 30000] !! 1%nat =
  Some (set_gas 51000 (example_result 30000)).
Proof.
  apply (accumulate_gas_spec [example_result 21000; example_result 30000] 1 (example_result 30000)).
  - repeat constructor; vm_compute; discriminate.
  - reflexivity.
Defined.

Lemma lazy_evaluations_agree_witness :
  exists scan, scan_lazy []
    [(2%nat, Data 0 (LV_LazySender 30000)); (1%nat, Data 0 (LV_LazyRecipient 5));
     (0%nat, Data 1 (LV_Basic (mkAccountInfo 100000 4 0 None)))]
    (mkLazyScan None I257.NEGATIVE_ZERO 0 []) = Ok scan /\
  I257.abs_value (I257.add (balance_addition scan) (I257.from_U256 100000)) = 70005.
Proof.
  destruct (lazy_evaluations_agree (mkAccountInfo 100000 4 0 None) 0 1
    [(example_tx, (1%nat, 0%nat, LV_LazyRecipient 5)); (example_tx, (2%nat, 0%nat, LV_LazySender 30000))]
    70005 5) as (scan & H1 & _ & H3 & _).
  - constructor; [split; [by eexists|done]|constructor; [split; [by eexists|done]|constructor]].
  - done.
  - vm_compute. repeat split; discriminate.
  - vm_compute. discriminate.
  - reflexivity.
  - exists scan. split; [exact H1|exact H3].
Defined.

Definition example_cache (_ : list EvmState) : DbView :=
  mkDbView basic_ref code_by_hash_ref storage_ref block_hash_ref.

(** One transaction that lazily pays 5 to account 7. *)
Definition example_final_mem : MvMemory :=
  mkMvMemory {[ encode_hash (Loc_Basic 7) := {[ 0%nat := Data 0 (LV_LazyRecipient 5) ]} ]}
    [mkReadWriteSet ∅ [encode_hash (Loc_Basic 7)]] {[ 7 ]} ∅.

End Examples.
