(* ===== verification/Evaluation.v ===== *)
(** * The evaluation at the end of a block, specified (crates/pe/src/executor.rs)

    What [ParallelExecutor::execute] is to return once its threads are done, stated
    without its loops: the running totals of the gas, and for each lazily updated
    account its balance and nonce after each transaction that changed it, by recursion
    over the transactions of the block. [finish_block_spec] says for every outcome of
    [finish_block] when it occurs and what it is. *)

From S2P Require Import Prelude Primitives Types Results MvMemory VmDb Vm Executor.
Local Open Scope Z_scope.

Section Evaluation.
Context `{Revm} `{!DatabaseRef} `{!Evm}.
Context (hash_deterministic : Location -> LocationHash) (cache_db : list EvmState -> DbView).
Context (evm_env : EvmEnv) (txs : list TxEnv).
Context (fees_unsigned : forall t tx, txs !! t = Some tx ->
  0 <= gas_limit tx * gas_price tx /\ 0 <= value tx /\ 0 <= total_blob_gas tx * max_fee_per_blob_gas tx).

Local Abbreviation at_ m a t := (entry m (hash_deterministic (Loc_Basic a)) t).
Local Abbreviation before m a t := (below m t (hash_deterministic (Loc_Basic a))).

(** ** The reference *)

(** Balance and nonce on the chain. *)
Definition chain_numbers (a : Address) : Z * Z :=
  match basic_ref a with Ok (Some i) => (ai_balance i, ai_nonce i) | _ => (0, 0) end.

(** Balance and nonce of an account before transaction [t]. *)
Fixpoint account_before (m : MvMemory) (a : Address) (t : nat) : Z * Z :=
  match t with
  | O => chain_numbers a
  | S u =>
      let '(b, n) := account_before m a u in
      match at_ m a u with
      | Some (Data _ (LV_Basic i)) => (ai_balance i, ai_nonce i)
      | Some (Data _ (LV_LazyRecipient x)) => (Z.min (b + x) U256_MAX, n)
      | Some (Data _ (LV_LazySender x)) => (Z.max (b - x) 0, (n + 1) mod 2 ^ 64)
      | _ => (b, n)
      end
  end.

(** What the sender of a transaction must be able to pay. *)
Definition fee_and_value (tx : TxEnv) : Z :=
  Z.min (gas_limit tx * gas_price tx + value tx + total_blob_gas tx * max_fee_per_blob_gas tx) U256_MAX.

(** The entry of transaction [t] is accepted: a lazy sender can pay, and a caller's nonce
    is one above that of its transaction. *)
Definition goes_through (m : MvMemory) (a : Address) (t : nat) : Prop :=
  forall e tx, at_ m a t = Some e -> txs !! t = Some tx ->
  (forall inc x, e = Data inc (LV_LazySender x) -> fee_and_value tx <= (account_before m a t).1) /\
  (caller tx = a -> (account_before m a (S t)).2 ≠ 0 /\ nonce tx = (account_before m a (S t)).2 - 1).

Definition written_empty (m : MvMemory) (a : Address) (t : nat) : Prop :=
  exists inc i, at_ m a t = Some (Data inc (LV_Basic i)) /\ ai_balance i = 0 /\ ai_nonce i = 0.

(** The entries are of this block, absolute or lazy. *)
Definition expected (m : MvMemory) (a : Address) : Prop :=
  forall t e, at_ m a t = Some e -> (t < length txs)%nat /\ exists inc v, e = Data inc v /\ balance_value v.

(** The code hash an account is given that is not in the state of the transaction. *)
Definition base_code (a : Address) (ch : Z) : Prop :=
  ch = KECCAK_EMPTY \/ exists i, basic_ref a = Ok (Some i) /\ ch = ai_code_hash i.

(** The account in the state of a transaction, before and after the evaluation. *)
Definition shows_account (a : Address) (bn : Z * Z) (ch : Z) (code : Bytecode) (o o' : option Account) : Prop :=
  if is_enabled_in (spec evm_env) SPURIOUS_DRAGON && bool_decide (ch = KECCAK_EMPTY /\ bn = (0, 0)) then o' = o
  else o' = Some (match o with
    | Some acc => mkAccount (mkAccountInfo bn.1 bn.2 (ai_code_hash (info acc)) (ai_code (info acc)))
                    (storage acc) (status_ acc) (account_rest acc)
    | None => mkAccount (mkAccountInfo bn.1 bn.2 ch (Some code)) ∅ Status_Touched AccountRest_default
    end).

(** The state of transaction [t], in which each evaluated account it has changed is
    shown as it was after it. *)
Definition shows_accounts (m : MvMemory) (l : list Address) (t : nat) (st st' : EvmState) : Prop :=
  forall a, match (if decide (a ∈ l) then at_ m a t else None) with
  | None => st' !! a = st !! a
  | Some _ => exists ch code, base_code a ch /\ code_by_hash_ref ch = Ok code /\
      shows_account a (account_before m a (S t)) ch code (st !! a) (st' !! a)
  end.

Definition running_total (rs : list TxExecutionResult) (t : nat) : Z :=
  foldl (fun total r => Z.min (total + cumulative_gas_used (receipt r)) u64_MAX) 0 (take (S t) rs).

Record block_results (m : MvMemory) (raw rs : list TxExecutionResult) : Prop := mkBlockResults {
  br_length : length rs = length raw;
  br_result : forall t r r', raw !! t = Some r -> rs !! t = Some r' ->
    receipt r' = mkReceipt (receipt_tx_type (receipt r)) (success (receipt r)) (running_total raw t) (receipt_logs (receipt r)) /\
    shows_accounts m (consume_lazy_addresses m) t (state r) (state r');
}.

(** ** The evaluation of one account *)

Lemma step_fold_app {A B : Type} (f : B -> A -> Step B) (l l' : list A) (b : B) :
  step_fold f (l ++ l') b = step_bind (step_fold f l b) (step_fold f l').
Proof.
  revert b. induction l as [|x l IH]; intros b; [done|]. cbn. destruct (f b x) as [[b'|]| |]; cbn; [apply IH|done..].
Qed.

(** The oldest entry. *)
Lemma before_first (m : MvMemory) (a : Address) (t k : nat) (e : Entry) :
  before m a t = [] -> at_ m a t = Some e -> exists l, reverse (before m a (S t + k)) = (t, e) :: l.
Proof.
  intros Hn He. induction k as [|k [l IH]].
  - exists []. rewrite Nat.add_0_r, below_S, He, Hn. done.
  - rewrite Nat.add_succ_r, below_S. destruct (at_ m a (S t + k)) as [e'|]; [|by exists l].
    exists (l ++ [((S t + k)%nat, e')]). by rewrite reverse_cons, IH.
Qed.

Lemma history_below (m : MvMemory) (a : Address) (w : gmap TxIdx Entry) :
  data m !! hash_deterministic (Loc_Basic a) = Some w ->
  exists N, history w = reverse (before m a N) /\ forall t e, at_ m a t = Some e -> (t < N)%nat.
Proof.
  intros Hw. exists (S (max_list (map_to_list w).*1)). split; [unfold history, below; by rewrite Hw|].
  intros t e He. unfold entry in He. rewrite Hw in He. cbn in He.
  assert (Hin : t ∈ (map_to_list w).*1).
  { apply list_elem_of_fmap. exists (t, e). split; [done|]. by apply elem_of_map_to_list. }
  apply max_list_elem_of_le in Hin. lia.
Qed.

(** What the evaluation starts from matters only if the oldest entry is not absolute. *)
Definition starts_from (m : MvMemory) (a : Address) (bn : Z * Z) : Prop :=
  forall t e, before m a t = [] -> at_ m a t = Some e ->
  bn = chain_numbers a \/ exists inc i, e = Data inc (LV_Basic i).

Lemma eval_base_starts (m : MvMemory) (a : Address) (w : gmap TxIdx Entry) (b n ch : Z) :
  data m !! hash_deterministic (Loc_Basic a) = Some w -> eval_base a (history w) = (b, n, ch) ->
  starts_from m a (b, n) /\ base_code a ch.
Proof.
  intros Hw Hb. split.
  - intros t e Hn He. destruct (history_below m a w Hw) as (N & HN & Hlt). pose proof (Hlt _ _ He) as Ht.
    destruct (before_first m a t (N - S t) e Hn He) as [l Hl]. replace (S t + (N - S t))%nat with N in Hl by lia.
    rewrite HN, Hl in Hb. unfold eval_base in Hb. unfold chain_numbers.
    destruct e as [inc [i| | | | |]|]; try (right; by do 2 eexists); left; by repeat case_match; simplify_eq.
  - unfold eval_base, base_code in *. repeat case_match; simplify_eq; eauto.
Qed.

Lemma max_fee_meant (t : nat) (tx : TxEnv) : txs !! t = Some tx -> max_fee tx = fee_and_value tx.
Proof using fees_unsigned.
  intros Htx. destruct (fees_unsigned _ _ Htx) as (Hg & Hv & Hb). unfold max_fee, fee_and_value, saturating_add, saturating_mul.
  change (uint_max 256) with U256_MAX. assert (0 <= U256_MAX) by done. lia.
Qed.

(** One entry. *)
Lemma eval_entry_spec (m : MvMemory) (a : Address) (t : nat) (tx : TxEnv) (inc : TxIncarnation) (v : LocationValue) (bn : Z * Z) :
  at_ m a t = Some (Data inc v) -> balance_value v -> txs !! t = Some tx ->
  bn = account_before m a t \/ (exists i, v = LV_Basic i) ->
  match eval_entry tx bn (Data inc v) with
  | Return (Ok bn') => bn' = account_before m a (S t) /\ ~ written_empty m a t /\
      (forall inc' x, Data inc v = Data inc' (LV_LazySender x) -> fee_and_value tx <= (account_before m a t).1)
  | Return (Err _) => ~ goes_through m a t
  | Panic => written_empty m a t
  | UB => False
  end.
Proof using fees_unsigned.
  intros He Hv Htx Hbn. cbn [account_before]. rewrite He. pose proof (max_fee_meant t tx Htx) as Hfee.
  destruct v as [i| | |x|x|]; try done; unfold eval_entry; destruct bn as [b n].
  - destruct (Z.eqb_spec (ai_balance i) 0); destruct (Z.eqb_spec (ai_nonce i) 0); cbn [andb];
      [by exists inc, i|..]; (split; [by destruct (account_before m a t)|]); (split; [|done]);
      intros (inc' & i' & Hx & Hb' & Hn'); simplify_eq; lia.
  - destruct Hbn as [<-|[i Hi]]; [|done]. split; [done|]. split; [|done]. intros (? & ? & Hx & _). congruence.
  - destruct Hbn as [Hbn|[i Hi]]; [|done]. rewrite <- Hbn. destruct (Z.ltb_spec b (max_fee tx)) as [Hlt|Hge].
    + intros Hg. destruct (Hg _ _ He Htx) as [Hpay _]. specialize (Hpay inc x eq_refl). rewrite <- Hbn in Hpay. cbn in Hpay. lia.
    + split; [done|]. split; [intros (? & ? & Hx & _); congruence|]. intros _ _ _. cbn. lia.
Qed.

Lemma account_before_first (m : MvMemory) (a : Address) (t : nat) : before m a t = [] -> account_before m a t = chain_numbers a.
Proof.
  induction t as [|t IH]; [done|]. cbn [account_before]. rewrite below_S. destruct (at_ m a t); [done|].
  intros Hn. rewrite IH by done. by destruct (chain_numbers a).
Qed.

(** What the loop over the entries of the first [N] transactions does. *)
Definition evaluated_to (m : MvMemory) (a : Address) (ch : Z) (code : Bytecode) (base : Z * Z) (N : nat)
    (rs : list TxExecutionResult) (out : Step ((Z * Z) * list TxExecutionResult)) : Prop :=
  match out with
  | Return (Ok (bn, rs')) =>
      (forall t, (t < N)%nat -> goes_through m a t /\ ~ written_empty m a t) /\
      (bn = account_before m a N \/ before m a N = [] /\ bn = base) /\
      length rs' = length rs /\
      forall t r', rs' !! t = Some r' -> exists r, rs !! t = Some r /\
        r' = match (if decide (t < N)%nat then at_ m a t else None) with
             | Some _ => put_account evm_env a ch code (account_before m a (S t)) r
             | None => r
             end
  | Return (Err _) => exists t, ~ goes_through m a t
  | Panic => exists t, written_empty m a t
  | UB => False
  end.

Lemma evaluated_step (m : MvMemory) (a : Address) (ch : Z) (code : Bytecode) (base bn : Z * Z) (N : nat) (e : Entry)
    (rs rs1 : list TxExecutionResult) :
  expected m a -> starts_from m a base -> length rs = length txs -> at_ m a N = Some e ->
  evaluated_to m a ch code base N rs (Return (Ok (bn, rs1))) ->
  evaluated_to m a ch code base (S N) rs (eval_step evm_env txs a ch code (bn, rs1) (N, e)).
Proof using fees_unsigned.
  intros Hexp Hbase Hlen He (Hgo & Hbn & Hl & Hrs). destruct (Hexp _ _ He) as (Hlt & inc & v & -> & Hv).
  destruct (lookup_lt_is_Some_2 txs N Hlt) as [tx Htx]. unfold eval_step. rewrite Htx.
  assert (Hbn' : bn = account_before m a N \/ (exists i, v = LV_Basic i)).
  { destruct Hbn as [?|[Hn ->]]; [by left|]. destruct (Hbase _ _ Hn He) as [->|(j & i & [= _ ->])]; [|right; by eexists].
    left. symmetry. by apply account_before_first. }
  pose proof (eval_entry_spec m a N tx inc v bn He Hv Htx Hbn') as Hev.
  destruct (eval_entry tx bn (Data inc v)) as [[bn'|err]| |]; cbn [step_bind]; [|by exists N..|done].
  destruct Hev as (-> & Hne & Hpay).
  assert (Hc : match check_caller_nonce tx a N (account_before m a (S N)).2 with
    | Return (Ok _) => goes_through m a N | Return (Err _) => ~ goes_through m a N | _ => False end).
  { unfold check_caller_nonce. destruct (Z.eqb_spec (caller tx) a) as [Hca|Hca].
    - destruct (Z.eqb_spec (account_before m a (S N)).2 0); [intros Hg; by destruct (Hg _ _ He Htx) as [_ [? _]]|].
      destruct (Z.eqb_spec (nonce tx) ((account_before m a (S N)).2 - 1)); cbn [negb].
      + intros e' tx' He' Htx'. simplify_eq. split; [exact Hpay|done].
      + intros Hg. by destruct (Hg _ _ He Htx) as [_ [_ ?]].
    - intros e' tx' He' Htx'. simplify_eq. split; [exact Hpay|done]. }
  destruct (check_caller_nonce _ _ _ _) as [[u|err]| |]; cbn [step_bind]; [|by exists N|done..].
  assert (Hlt' : (N < length rs1)%nat) by lia. destruct (lookup_lt_is_Some_2 rs1 N Hlt') as [r Hr]. rewrite Hr.
  split; [|split; [by left|split; [by rewrite length_insert|]]].
  - intros t Ht. destruct (decide (t = N)) as [->|]; [done|]. apply Hgo. lia.
  - intros t r' Ht. apply list_lookup_insert_Some in Ht as [(-> & <- & _)|[Hne' Ht]].
    + destruct (Hrs _ _ Hr) as (r0 & Hr0 & ->). exists r0. split; [done|].
      by rewrite decide_False, decide_True, He by lia.
    + destruct (Hrs _ _ Ht) as (r0 & Hr0 & ->). exists r0. split; [done|]. by repeat case_decide; try lia.
Qed.

Lemma eval_fold_spec (m : MvMemory) (a : Address) (ch : Z) (code : Bytecode) (base : Z * Z) (rs : list TxExecutionResult) (N : nat) :
  expected m a -> starts_from m a base -> length rs = length txs ->
  evaluated_to m a ch code base N rs (step_fold (eval_step evm_env txs a ch code) (reverse (before m a N)) (base, rs)).
Proof using fees_unsigned.
  intros Hexp Hbase Hlen. induction N as [|N IH].
  - assert (Hnil : before m a 0 = []) by (unfold below; by destruct (data m !! _)). rewrite Hnil.
    split; [lia|]. split; [by right|]. split; [done|]. intros t r' Hr. exists r'. by rewrite decide_False by lia.
  - rewrite below_S. destruct (at_ m a N) as [e|] eqn:He.
    + rewrite reverse_cons, step_fold_app. destruct (step_fold _ (reverse (before m a N)) _) as [[[bn rs1]|err]| |]; try done.
      cbn [step_bind step_fold]. pose proof (evaluated_step m a ch code base bn N e rs rs1 Hexp Hbase Hlen He IH) as Hs.
      by destruct (eval_step _ _ _ _ _ _ _) as [[[bn' rs2]|]| |].
    + destruct (step_fold _ (reverse (before m a N)) _) as [[[bn rs1]|err]| |]; try done.
      destruct IH as (Hgo & Hbn & Hl & Hrs). split; [|split; [|split; [done|]]].
      * intros t Ht. destruct (decide (t = N)) as [->|]; [|apply Hgo; lia].
        split; [intros e tx He'; congruence|intros (? & ? & Hx & _); congruence].
      * rewrite below_S, He. cbn [account_before]. rewrite He. destruct Hbn as [->|]; [left; by destruct (account_before m a N)|by right].
      * intros t r' Ht. destruct (Hrs _ _ Ht) as (r0 & Hr0 & ->). exists r0. split; [done|].
        destruct (decide (t = N)) as [->|]; [rewrite He; by repeat case_decide|]. by repeat case_decide; try lia.
Qed.

(** The evaluation of an account. *)
Definition unreadable (a : Address) : Prop := exists ch e, base_code a ch /\ code_by_hash_ref ch = Err e.

Lemma eval_address_spec (m : MvMemory) (a : Address) (rs : list TxExecutionResult) :
  expected m a -> length rs = length txs ->
  match eval_address hash_deterministic evm_env txs m rs a with
  | Return (Ok rs') =>
      (forall t, goes_through m a t /\ ~ written_empty m a t) /\ length rs' = length rs /\
      exists ch code, (forall t, is_Some (at_ m a t) -> base_code a ch /\ code_by_hash_ref ch = Ok code) /\
      forall t r', rs' !! t = Some r' -> exists r, rs !! t = Some r /\
        r' = match at_ m a t with Some _ => put_account evm_env a ch code (account_before m a (S t)) r | None => r end
  | Return (Err _) => unreadable a \/ exists t, ~ goes_through m a t
  | Panic => exists t, written_empty m a t
  | UB => False
  end.
Proof using fees_unsigned.
  intros Hexp Hlen. unfold eval_address. destruct (data m !! _) as [w|] eqn:Hw.
  2: { assert (Hno : forall t, at_ m a t = None) by (intros t; unfold entry; by rewrite Hw). split; [|split; [done|]].
       - intros t. split; [intros e tx He; by rewrite Hno in He|intros (? & ? & He & _); by rewrite Hno in He].
       - exists 0, Bytecode_default. split; [intros t [e He]; by rewrite Hno in He|].
         intros t r' Hr. exists r'. by rewrite Hno. }
  destruct (history_below m a w Hw) as (N & HN & Hall). destruct (eval_base a (history w)) as [[b n] ch] eqn:Hb.
  destruct (eval_base_starts m a w b n ch Hw Hb) as [Hbase Hch].
  destruct (code_by_hash_ref ch) as [code|e] eqn:Hcode; [|left; by exists ch, e].
  rewrite HN. pose proof (eval_fold_spec m a ch code (b, n) rs N Hexp Hbase Hlen) as Hf.
  destruct (step_fold _ _ _) as [[[bn rs']|err]| |]; cbn [step_bind]; try done; [|by right].
  destruct Hf as (Hgo & _ & Hl & Hrs). split; [|split; [done|]].
  - intros t. destruct (decide (t < N)%nat) as [Ht|Ht]; [by apply Hgo|].
    split; [intros e tx He|intros (? & ? & He & _)]; apply Hall in He; lia.
  - exists ch, code. split; [done|]. intros t r' Hr. destruct (Hrs _ _ Hr) as (r & Hr0 & ->). exists r. split; [done|].
    destruct (at_ m a t) as [e|] eqn:He; [|by case_decide]. by rewrite decide_True by (by eapply Hall).
Qed.

Lemma put_account_shows (a : Address) (ch : Z) (code : Bytecode) (bn : Z * Z) (r : TxExecutionResult) :
  shows_account a bn ch code (state r !! a) (state (put_account evm_env a ch code bn r) !! a) /\
  forall b, b ≠ a -> state (put_account evm_env a ch code bn r) !! b = state r !! b.
Proof.
  split; [|intros c Hc; unfold put_account; repeat case_match; cbn; by rewrite ?lookup_insert_ne by done].
  destruct bn as [b n]. unfold shows_account, put_account. cbn [fst snd].
  assert (Hd : bool_decide (ch = KECCAK_EMPTY /\ (b, n) = (0, 0)) = (ch =? KECCAK_EMPTY) && (n =? 0) && (b =? 0)).
  { apply eq_true_iff_eq. rewrite bool_decide_eq_true, !andb_true_iff, !Z.eqb_eq.
    split; [intros [-> [= -> ->]]; done|intros [[-> ->] ->]; done]. }
  rewrite Hd. destruct (is_enabled_in _ _), (ch =? _), (n =? 0), (b =? 0); cbn [andb]; try done;
    destruct (state r !! a); cbn; by rewrite lookup_insert_eq.
Qed.

(** ** The evaluation of a block *)

Lemma shows_accounts_nil (m : MvMemory) (t : nat) (st : EvmState) : shows_accounts m [] t st st.
Proof. intros a. rewrite decide_False by apply not_elem_of_nil. done. Qed.

Lemma shows_accounts_snoc (m : MvMemory) (l : list Address) (a : Address) (t : nat) (st : EvmState) (r r' : TxExecutionResult)
    (ch : Z) (code : Bytecode) :
  a ∉ l -> (is_Some (at_ m a t) -> base_code a ch /\ code_by_hash_ref ch = Ok code) ->
  r' = match at_ m a t with Some _ => put_account evm_env a ch code (account_before m a (S t)) r | None => r end ->
  shows_accounts m l t st (state r) -> shows_accounts m (l ++ [a]) t st (state r').
Proof.
  intros Ha Hcode -> Hsh b. specialize (Hsh b). destruct (decide (b = a)) as [->|Hne].
  - rewrite decide_False in Hsh by done. rewrite decide_True by (apply elem_of_app; right; by left).
    destruct (at_ m a t) as [e|]; [|done]. destruct Hcode as [Hch Hc]; [by eexists|]. exists ch, code.
    do 2 (split; [done|]). rewrite <- Hsh. apply put_account_shows.
  - rewrite (decide_ext (b ∈ l ++ [a]) (b ∈ l)) by (rewrite elem_of_app, list_elem_of_singleton; split; [by intros [?| ->]|by left]).
    destruct (at_ m a t); [|done]. by rewrite (proj2 (put_account_shows a ch code _ r) b Hne).
Qed.

(** The outcome of evaluating the accounts of [l], from results whose states are those
    of the executions. *)
Definition evaluated_all (m : MvMemory) (l : list Address) (rs : list TxExecutionResult) (out : Step (list TxExecutionResult)) : Prop :=
  match out with
  | Return (Ok rs') =>
      (forall a t, a ∈ l -> goes_through m a t /\ ~ written_empty m a t) /\ length rs' = length rs /\
      forall t r', rs' !! t = Some r' -> exists r, rs !! t = Some r /\ shows_accounts m l t (state r) (state r')
  | Return (Err _) => exists a, a ∈ l /\ (unreadable a \/ exists t, ~ goes_through m a t)
  | Panic => exists a t, a ∈ l /\ written_empty m a t
  | UB => False
  end.

Lemma eval_lazy_spec (m : MvMemory) (l : list Address) (rs : list TxExecutionResult) :
  NoDup l -> (forall a, a ∈ l -> expected m a) -> length rs = length txs ->
  evaluated_all m l rs (step_fold (eval_address hash_deterministic evm_env txs m) l rs).
Proof using fees_unsigned.
  intros Hnd Hexp Hlen. induction l as [|a l IH] using rev_ind.
  - split; [intros a t Ha; by apply elem_of_nil in Ha|]. split; [done|]. intros t r' Hr. exists r'. split; [done|]. apply shows_accounts_nil.
  - apply list.NoDup_app in Hnd as (Hnd & Hdis & _).
    assert (Ha : a ∉ l) by (intros Hin; apply (Hdis a Hin); by left). rewrite step_fold_app.
    assert (Hsub : forall b, b ∈ l -> b ∈ l ++ [a]) by (intros; apply elem_of_app; by left).
    assert (Hin : a ∈ l ++ [a]) by (apply elem_of_app; right; by left).
    specialize (IH Hnd (fun b Hb => Hexp b (Hsub b Hb))).
    destruct (step_fold _ l rs) as [[rs1|e]| |]; cbn [step_bind step_fold] in *; [|destruct IH as (b & Hb & Hrest); exists b; auto|
      destruct IH as (b & t & Hb & Hrest); exists b, t; auto|done].
    destruct IH as (Hgo & Hl & Hrs). pose proof (eval_address_spec m a rs1 (Hexp a Hin) ltac:(lia)) as Hev.
    destruct (eval_address _ _ _ _ rs1 a) as [[rs2|e]| |]; cbn [step_bind evaluated_all] in *;
      [|by exists a|destruct Hev as [t Ht]; by exists a, t|done].
    destruct Hev as (Hgo2 & Hl2 & ch & code & Hcode & Hrs2). split; [|split; [lia|]].
    + intros b t [Hb|Hb%list_elem_of_singleton]%elem_of_app; [by apply Hgo|subst b; apply Hgo2].
    + intros t r2 Ht. destruct (Hrs2 _ _ Ht) as (r1 & Ht1 & Heq). destruct (Hrs _ _ Ht1) as (r & Hr & Hsh).
      exists r. split; [done|]. eapply shows_accounts_snoc; [done|apply Hcode|exact Heq|exact Hsh].
Qed.

Lemma accumulate_gas_running (rs : list TxExecutionResult) (t : nat) (r : TxExecutionResult) :
  rs !! t = Some r -> accumulate_gas 0 rs !! t = Some (set_gas (running_total rs t) r).
Proof.
  unfold running_total. generalize 0 as total. revert t. induction rs as [|r0 rs IH]; intros t total Ht; [done|].
  cbn [accumulate_gas take foldl]. change (saturating_add 64) with (fun x y => Z.min (x + y) u64_MAX). cbn beta.
  destruct t as [|t]; cbn [lookup list_lookup take foldl] in *; [by simplify_eq|]. by rewrite IH.
Qed.

(** What [execute] makes of the results and the memory its threads have left. *)
Definition finished (m : MvMemory) (raw : list TxExecutionResult) (out : Step (list TxExecutionResult)) : Prop :=
  match out with
  | Return (Ok rs) =>
      block_results m raw rs /\
      forall a t, a ∈ consume_lazy_addresses m -> goes_through m a t /\ ~ written_empty m a t
  | Return (Err _) => exists a, a ∈ consume_lazy_addresses m /\ (unreadable a \/ exists t, ~ goes_through m a t)
  | Panic => exists a t, a ∈ consume_lazy_addresses m /\ written_empty m a t
  | UB => False
  end.

Lemma finish_block_spec (slots : list (option TxExecutionResult)) (m : MvMemory) (raw : list TxExecutionResult) :
  take_results slots (length txs) = Return raw -> (forall a, a ∈ consume_lazy_addresses m -> expected m a) ->
  finished m raw (finish_block hash_deterministic cache_db evm_env txs None slots m).
Proof using fees_unsigned.
  intros Htake Hexp. unfold finish_block. rewrite Htake. pose proof (take_results_length _ _ _ Htake) as Hlen.
  pose proof (eval_lazy_spec m (consume_lazy_addresses m) (accumulate_gas 0 raw) (NoDup_elements _) Hexp
    ltac:(by rewrite accumulate_gas_length)) as Hall.
  unfold eval_lazy. destruct (step_fold _ _ _) as [[rs|e]| |] eqn:Hf; [|exact Hall..].
  destruct Hall as (Hgo & Hl & Hrs). split; [|exact Hgo].
  constructor; [by rewrite Hl, accumulate_gas_length|]. intros t r r' Hr Hr'.
  apply eval_lazy_receipts in Hf as Hrec. apply (f_equal (.!! t)) in Hrec.
  rewrite !list_lookup_fmap, Hr', (accumulate_gas_running _ _ _ Hr) in Hrec. cbn in Hrec.
  split; [congruence|]. destruct (Hrs _ _ Hr') as (r1 & Hr1 & Hsh). rewrite (accumulate_gas_running _ _ _ Hr) in Hr1.
  injection Hr1 as <-. exact Hsh.
Qed.

End Evaluation.
