(* ===== verification/Dropper.v ===== *)
(** * The dropper (crates/pe/src/dropper.rs)

    [AsyncDropper] frees values in the background: [drop] sends a value over a channel
    to a thread that drops whatever it receives. The executor hands its memory,
    scheduler and transactions to it after a block. A destructor may panic, which ends
    the thread and disconnects the channel; a value sent afterwards comes back to the
    caller of [drop], who drops it. *)

From S2P Require Import Prelude Types Results.

Section Dropper.
(** Outside: whether the destructor of a value panics. *)
Context {T : Type} (drop_panics : T -> bool).

(** ** The channel and the thread *)

(** Where the thread is in [receiver.into_iter().for_each(drop)]: waiting for a value,
    dropping one; when that panicked, dropping what is left in the channel while it
    unwinds; at its end; or, a destructor having panicked while unwinding, the process
    aborted. *)
Inductive Handle : Type :=
| D_Recv
| D_Dropping (t : T)
| D_Unwinding (rest : list T)
| D_Finished
| D_Aborted.

(** The sender, the values in the channel, the thread; and what has been dropped so
    far, by the thread and by the callers of [drop]. *)
Record AsyncDropper : Type := mkAsyncDropper {
  sender : bool;
  channel : list T;
  handle : Handle;
  dropped : list T;
  dropped_by_caller : list T;
}.

Definition AsyncDropper_default : AsyncDropper := mkAsyncDropper true [] D_Recv [] [].

Definition receiver_alive (h : Handle) : bool :=
  match h with D_Recv | D_Dropping _ => true | _ => false end.

(** [drop]: [send] never waits; what it gives back is dropped here. *)
Definition drop (t : T) : M AsyncDropper unit := fun s =>
  if receiver_alive (handle s) then
    Return (tt, mkAsyncDropper (sender s) (channel s ++ [t]) (handle s) (dropped s) (dropped_by_caller s))
  else if drop_panics t then Panic
  else Return (tt, mkAsyncDropper (sender s) (channel s) (handle s) (dropped s) (dropped_by_caller s ++ [t])).

(** Dropping the dropper itself: the sender is gone, the thread detached. *)
Definition close (s : AsyncDropper) : AsyncDropper :=
  mkAsyncDropper false (channel s) (handle s) (dropped s) (dropped_by_caller s).

(** A step of the thread; it waits at an empty channel as long as there is a sender. *)
Definition thread_step (s : AsyncDropper) : option AsyncDropper :=
  let go c h d := Some (mkAsyncDropper (sender s) c h d (dropped_by_caller s)) in
  match handle s with
  | D_Recv =>
      match channel s with
      | t :: c => go c (D_Dropping t) (dropped s)
      | [] => if sender s then None else go [] D_Finished (dropped s)
      end
  | D_Dropping t =>
      if drop_panics t then go [] (D_Unwinding (channel s)) (dropped s ++ [t])
      else go (channel s) D_Recv (dropped s ++ [t])
  | D_Unwinding (t :: rest) =>
      if drop_panics t then go (channel s) D_Aborted (dropped s)
      else go (channel s) (D_Unwinding rest) (dropped s ++ [t])
  | D_Unwinding [] => go (channel s) D_Finished (dropped s)
  | D_Finished | D_Aborted => None
  end.

(** Any interleaving of calls of [drop], in the order of their sends, and the thread;
    [sent] are the values handed over. *)
Inductive reachable : list T -> AsyncDropper -> Prop :=
| start : reachable [] AsyncDropper_default
| drops sent s t s' : reachable sent s -> sender s = true -> drop t s = Return (tt, s') -> reachable (sent ++ [t]) s'
| runs sent s s' : reachable sent s -> thread_step s = Some s' -> reachable sent s'
| closes sent s : reachable sent s -> reachable sent (close s).

(** ** Every value is dropped once *)

(** What the thread has in hand. *)
Definition in_hand (h : Handle) : list T :=
  match h with D_Dropping t => [t] | D_Unwinding rest => rest | _ => [] end.

Definition panicked (sent : list T) : Prop := exists t, t ∈ sent /\ drop_panics t = true.

Lemma panicked_app (sent l : list T) : panicked sent -> panicked (sent ++ l).
Proof. intros (t & Ht & Hp). exists t. split; [apply elem_of_app; by left|done]. Qed.

Record dropper_inv (sent : list T) (s : AsyncDropper) : Prop := mkDropperInv {
  di_all : handle s ≠ D_Aborted -> sent = dropped s ++ in_hand (handle s) ++ channel s ++ dropped_by_caller s;
  di_alive : receiver_alive (handle s) = true -> dropped_by_caller s = [];
  di_disconnected : receiver_alive (handle s) = false -> channel s = [];
  di_finished : handle s = D_Finished -> sender s = true -> panicked sent;
  di_unwinding : forall rest, handle s = D_Unwinding rest -> panicked sent;
  di_aborted : handle s = D_Aborted -> panicked sent;
  di_caller : dropped_by_caller s ≠ [] -> panicked sent;
}.

#[local] Hint Resolve panicked_app di_finished di_unwinding di_aborted di_caller : rust.

Lemma disconnected_panicked (sent : list T) (s : AsyncDropper) :
  dropper_inv sent s -> receiver_alive (handle s) = false -> sender s = true -> panicked sent.
Proof. intros Hi Hr Hs. destruct (handle s) eqn:Hh; try done; eauto with rust. Qed.

Lemma drop_inv (sent : list T) (s s' : AsyncDropper) (t : T) :
  dropper_inv sent s -> sender s = true -> drop t s = Return (tt, s') -> dropper_inv (sent ++ [t]) s'.
Proof.
  intros Hi Hsend. pose proof (disconnected_panicked _ _ Hi) as Hp. destruct Hi as [Hall Hal Hdis Hfin Hunw Hab Hc].
  unfold drop. destruct (receiver_alive (handle s)) eqn:Hr; [|destruct (drop_panics t); [done|]];
    intros [= <-]; constructor; cbn; try (by eauto with rust); try congruence.
  - intros Hh. rewrite (Hall Hh), Hal by done. by rewrite !app_nil_r, !app_assoc.
  - intros Hh. rewrite (Hall Hh). by rewrite !app_assoc.
Qed.

Lemma thread_step_inv (sent : list T) (s s' : AsyncDropper) :
  dropper_inv sent s -> thread_step s = Some s' -> dropper_inv sent s'.
Proof.
  intros [Hall Hal Hdis Hfin Hunw Hab Hc]. unfold thread_step. destruct s as [b c h d k]; cbn in *. intros Hs.
  repeat case_match; simplify_eq; specialize (Hall ltac:(done)); cbn in *; (constructor; cbn; [|try done..]);
    try (intros _; rewrite Hall; by rewrite <- ?app_assoc); eauto; try (by intros []).
  intros rest' _. exists t. split; [rewrite Hall; apply elem_of_app; right; by left|done].
Qed.

Lemma dropper_reachable_inv (sent : list T) (s : AsyncDropper) : reachable sent s -> dropper_inv sent s.
Proof.
  induction 1 as [|sent s t s' _ IH Hs Hd|sent s s' _ IH Ht|sent s _ IH].
  - by constructor.
  - by eapply drop_inv.
  - by eapply thread_step_inv.
  - destruct IH. constructor; cbn; by eauto.
Qed.

(** ** The thread comes to its end *)

(** The steps the thread has left once the sender is gone. *)
Definition steps_left (s : AsyncDropper) : nat :=
  match handle s with
  | D_Recv => 2 * length (channel s) + 1
  | D_Dropping _ => 2 * length (channel s) + 2
  | D_Unwinding rest => length rest + 1
  | D_Finished | D_Aborted => 0
  end.

Fixpoint run_thread (n : nat) (s : AsyncDropper) : AsyncDropper :=
  match n with
  | 0 => s
  | S n' => match thread_step s with Some s' => run_thread n' s' | None => s end
  end.

Lemma thread_step_left (s s' : AsyncDropper) :
  thread_step s = Some s' -> steps_left s' < steps_left s /\ sender s' = sender s.
Proof.
  unfold thread_step, steps_left. intros Hs.
  repeat case_match; simplify_eq/=; split; try done; lia.
Qed.

Lemma run_thread_inv (sent : list T) (n : nat) (s : AsyncDropper) :
  dropper_inv sent s -> dropper_inv sent (run_thread n s).
Proof.
  revert s. induction n as [|n IH]; intros s Hs; [done|]. cbn.
  destruct (thread_step s) as [s'|] eqn:Ht; [|done]. apply IH. by eapply thread_step_inv.
Qed.

Lemma run_thread_ends (n : nat) (s : AsyncDropper) :
  sender s = false -> steps_left s <= n ->
  handle (run_thread n s) = D_Finished \/ handle (run_thread n s) = D_Aborted.
Proof.
  revert s. induction n as [|n IH]; intros s Hs Hn; cbn.
  - unfold steps_left in Hn. destruct (handle s); [lia..|by left|by right].
  - destruct (thread_step s) as [s'|] eqn:Ht.
    + apply thread_step_left in Ht as [? Hs']. apply IH; [congruence|lia].
    + unfold thread_step in Ht. rewrite Hs in Ht. by repeat case_match; simplify_eq; auto.
Qed.

Lemma run_thread_caller (n : nat) (s : AsyncDropper) : dropped_by_caller (run_thread n s) = dropped_by_caller s.
Proof.
  revert s. induction n as [|n IH]; intros s; [done|]. cbn. destruct (thread_step s) as [s'|] eqn:Ht; [|done].
  rewrite IH. unfold thread_step in Ht. by repeat case_match; simplify_eq.
Qed.

(** As long as no destructor panics a value goes to the thread. *)
Lemma dropped_now (sent : list T) (s : AsyncDropper) (t : T) :
  reachable sent s -> sender s = true -> (forall t, drop_panics t = false) ->
  exists s', drop t s = Return (tt, s') /\ sender s' = true /\ dropped s' = dropped s /\ channel s' = channel s ++ [t].
Proof.
  intros Hr Hs Hq. unfold drop. destruct (receiver_alive (handle s)) eqn:Hra; [by eexists|].
  destruct (disconnected_panicked _ _ (dropper_reachable_inv _ _ Hr) Hra Hs) as (x & _ & Hx). by rewrite Hq in Hx.
Qed.

(** C39. A value handed to the dropper is dropped once. In whatever way the calls of
    [drop] and the thread interleave, the values handed over are, in order, those the
    thread has dropped, those it has in hand or still in the channel, and those that
    came back and were dropped by the callers. When the dropper is dropped the thread
    goes on to its end with nothing left over. Nothing comes back and the process does
    not abort unless a destructor panics: as long as none does, [drop] always hands
    its value to the thread. *)
Theorem dropped_once (sent : list T) (s : AsyncDropper) (Hr : reachable sent s) :
  (handle s ≠ D_Aborted -> sent = dropped s ++ in_hand (handle s) ++ channel s ++ dropped_by_caller s) /\
  (forall n, steps_left s <= n ->
    handle (run_thread n (close s)) = D_Finished /\ sent = dropped (run_thread n (close s)) ++ dropped_by_caller s \/
    handle (run_thread n (close s)) = D_Aborted /\ panicked sent) /\
  (~ panicked sent -> dropped_by_caller s = [] /\ handle s ≠ D_Aborted /\
    (sender s = true -> forall t, exists s', drop t s = Return (tt, s') /\ channel s' = channel s ++ [t])).
Proof.
  pose proof (dropper_reachable_inv _ _ Hr) as Hi. split; [by apply Hi|]. split.
  - intros n Hn. pose proof (dropper_reachable_inv _ _ (closes _ _ Hr)) as Hc.
    pose proof (run_thread_inv _ n _ Hc) as Hn'.
    destruct (run_thread_ends n (close s) eq_refl Hn) as [Hh|Hh]; [left|right]; (split; [done|]).
    + rewrite (di_all _ _ Hn') by (by rewrite Hh). rewrite Hh, (di_disconnected _ _ Hn') by (by rewrite Hh).
      cbn. by rewrite run_thread_caller.
    + by eapply di_aborted.
  - intros Hq. split; [|split].
    + destruct (dropped_by_caller s) eqn:Hc; [done|]. destruct Hq. eapply di_caller; [done|]. by rewrite Hc.
    + intros Hh. by apply Hq, (di_aborted _ _ Hi).
    + intros Hs t. unfold drop. destruct (receiver_alive (handle s)) eqn:Hra; [by eexists|].
      destruct Hq. by eapply disconnected_panicked.
Qed.

End Dropper.

(** ** The blocks of an executor *)

Section Blocks.
Context `{Revm} {Memory Sched Tx R E : Type} (drop_panics : Memory * Sched * list Tx -> bool).

(** A block that [ParallelExecutor::execute] runs: what it makes for the block, why the
    threads aborted, if they did, and what it then returns. *)
Record BlockRun : Type := mkBlockRun {
  mv_memory : Memory; scheduler : Sched; txs : list Tx;
  abort_reason : option AbortReason; returned : outcome (result R E);
}.

(** What the dropper gets: after a fallback the transactions are still needed, and a
    block whose lazy accounts cannot be evaluated is dropped in place. *)
Definition handed (b : BlockRun) : option (Memory * Sched * list Tx) :=
  match txs b with
  | [] => None
  | _ =>
      match abort_reason b, returned b with
      | Some AR_FallbackToSequential, _ => Some (mv_memory b, scheduler b, [])
      | Some (AR_ExecutionError _), _ => Some (mv_memory b, scheduler b, txs b)
      | None, Return (Ok _) => Some (mv_memory b, scheduler b, txs b)
      | None, _ => None
      end
  end.

(** The end of [execute], with the dropper. *)
Definition drop_block (b : BlockRun) : M (AsyncDropper (T:=Memory * Sched * list Tx)) (result R E) := fun s =>
  match (match handed b with Some t => drop drop_panics t s | None => Return (tt, s) end) with
  | Return (_, s') => match returned b with Return r => Return (r, s') | Panic => Panic | UB => UB end
  | Panic => Panic
  | UB => UB
  end.

Fixpoint drop_blocks (bs : list BlockRun) : M (AsyncDropper (T:=Memory * Sched * list Tx)) (list (result R E)) := fun s =>
  match bs with
  | [] => Return ([], s)
  | b :: bs' =>
      match drop_block b s with
      | Return (x, s1) =>
          match drop_blocks bs' s1 with
          | Return (xs, s2) => Return (x :: xs, s2)
          | Panic => Panic
          | UB => UB
          end
      | Panic => Panic
      | UB => UB
      end
  end.

(** The dropper never changes what [execute] returns nor keeps it waiting, and gets
    what the blocks leave in their order. *)
Lemma blocks_dropped (bs : list BlockRun) (rs : list (result R E)) sent s :
  reachable drop_panics sent s -> sender s = true -> (forall t, drop_panics t = false) -> returned <$> bs = Return <$> rs ->
  exists s', drop_blocks bs s = Return (rs, s') /\ reachable drop_panics (sent ++ omap handed bs) s' /\
    dropped s' = dropped s /\ channel s' = channel s ++ omap handed bs.
Proof.
  intros Hr Hs Hq. revert rs sent s Hr Hs. induction bs as [|b bs IH]; intros [|r rs] sent s Hr Hs Heq; try done.
  - exists s. cbn. by rewrite !app_nil_r.
  - injection Heq as Hb Hrs. cbn [drop_blocks omap list_omap]. unfold drop_block. rewrite Hb.
    destruct (handed b) as [t|].
    + destruct (dropped_now _ sent s t Hr Hs Hq) as (s1 & Hd & Hs1 & Hd1 & Hc1). rewrite Hd.
      destruct (IH rs _ s1 (drops _ _ _ _ _ Hr Hs Hd) Hs1 Hrs) as (s2 & Hbs & Hr2 & Hd2 & Hc2). rewrite Hbs.
      exists s2. rewrite Hd2, Hd1, Hc2, Hc1, <- !app_assoc. rewrite <- app_assoc in Hr2. done.
    + destruct (IH rs _ s Hr Hs Hrs) as (s2 & Hbs & Hr2 & Hd2 & Hc2). rewrite Hbs. by exists s2.
Qed.

End Blocks.

(** ** Examples *)

Section Examples.

(** Values above 9 panic when they are dropped. *)
Definition example_panics (t : nat) : bool := 9 <? t.

(** Two values are handed over, the thread takes the first. *)
Definition example_dropper : AsyncDropper := mkAsyncDropper true [2] (D_Dropping 1) [] [].

Lemma example_reachable : reachable example_panics [1; 2] example_dropper.
Proof.
  apply (runs _ _ (mkAsyncDropper true [1; 2] D_Recv [] [])); [|done].
  apply (drops _ [1] (mkAsyncDropper true [1] D_Recv [] [])); [|done..].
  by apply (drops _ [] AsyncDropper_default); [apply start|..].
Qed.

(** When the dropper is dropped the thread goes on to its end. *)
Lemma dropped_once_witness :
  (handle example_dropper ≠ D_Aborted ->
    [1; 2] = dropped example_dropper ++ in_hand (handle example_dropper) ++ channel example_dropper ++
      dropped_by_caller example_dropper) /\
  run_thread example_panics 4 (close example_dropper) = mkAsyncDropper false [] D_Finished [1; 2] [].
Proof. split; [exact (proj1 (dropped_once example_panics _ _ example_reachable))|reflexivity]. Defined.

(** A value whose destructor panics ends the thread; the next comes back. *)
Example returned_to_caller :
  run_thread example_panics 3 (mkAsyncDropper true [10] D_Recv [] []) = mkAsyncDropper true [] D_Finished [10] [] /\
  drop example_panics 3 (mkAsyncDropper true [] D_Finished [10] []) = Return (tt, mkAsyncDropper true [] D_Finished [10] [3]).
Proof. done. Qed.

End Examples.
