(* ===== verification/Db.v ===== *)
(** * Databases under the executor (crates/pe/src/db.rs, crates/chain/src/state.rs)

    [InMemoryDB], the database of the tests and tools, and [StateStorageAdapter],
    through which the worker threads of a block read the node's [State]. Both
    implement the interface [DatabaseRef] the executor is written against. *)

From Stdlib Require Import String.
From S2P Require Import Prelude Types Results.
Local Open Scope Z_scope.

(** ** [InMemoryDB] *)

Inductive DBError : Type :=
| StorageNotFound (msg : string).

(** [Display] of [DBError]. *)
Definition DBError_to_string (e : DBError) : string :=
  match e with StorageNotFound msg => "Storage error: " ++ msg end.

Section InMemoryDB.
Context `{Revm}.
(** How a hash prints, and the [keccak256] of a number printed in decimal. *)
Context (hex : Z -> string) (keccak256_of_number : Z -> Z).

Record InMemoryDB : Type := mkInMemoryDB {
  accounts : gmap Address Account;
  bytecodes : gmap Z Bytecode;
  block_hashes : gmap Z Z;
}.

Definition mem_basic_ref (db : InMemoryDB) (address : Address) : result (option AccountInfo) DBError :=
  Ok (info <$> accounts db !! address).

Definition mem_code_by_hash_ref (db : InMemoryDB) (code_hash : Z) : result Bytecode DBError :=
  if code_hash =? KECCAK_EMPTY then Ok Bytecode_default
  else match bytecodes db !! code_hash with
       | Some c => Ok c
       | None => Err (StorageNotFound ("code_hash_not_found " ++ hex code_hash))
       end.

Definition mem_storage_ref (db : InMemoryDB) (address : Address) (index : Z) : result Z DBError :=
  Ok (default 0 (account ← accounts db !! address; present_value <$> storage account !! index)).

Definition mem_block_hash_ref (db : InMemoryDB) (number : Z) : result Z DBError :=
  Ok (default (keccak256_of_number number) (block_hashes db !! number)).

#[local] Instance InMemoryDB_ref (db : InMemoryDB) : DatabaseRef := {|
  DbError := DBError;
  err_to_string := DBError_to_string;
  basic_ref := mem_basic_ref db;
  code_by_hash_ref := mem_code_by_hash_ref db;
  storage_ref := mem_storage_ref db;
  block_hash_ref := mem_block_hash_ref db;
|}.

(** Every code hash an account mentions is the empty one or has its code. *)
Definition codes_present (db : InMemoryDB) : Prop :=
  forall a account, accounts db !! a = Some account ->
  ai_code_hash (info account) = KECCAK_EMPTY \/ is_Some (bytecodes db !! ai_code_hash (info account)).

(** Inserting an account into the map of a database. *)
Definition with_account (db : InMemoryDB) (address : Address) (account : Account) : InMemoryDB :=
  mkInMemoryDB (<[address := account]> (accounts db)) (bytecodes db) (block_hashes db).

(** A database built with an account in it answers every read of that account
    from it: its basic information, the present value of each of its slots and zero
    for a slot it lacks; other accounts answer as before; reading an account and
    then its code never fails when the codes are present. *)
Lemma in_memory_reads_back (db : InMemoryDB) (a : Address) (account : Account) (Hc : codes_present db)
    (Ha : ai_code_hash (info account) = KECCAK_EMPTY \/ is_Some (bytecodes db !! ai_code_hash (info account))) :
  let db' := with_account db a account in
  mem_basic_ref db' a = Ok (Some (info account)) /\
  (forall i, mem_storage_ref db' a i = Ok (default 0 (present_value <$> storage account !! i))) /\
  (forall b i, b ≠ a -> mem_basic_ref db' b = mem_basic_ref db b /\ mem_storage_ref db' b i = mem_storage_ref db b i) /\
  (forall b i, mem_basic_ref db' b = Ok (Some i) -> exists c, mem_code_by_hash_ref db' (ai_code_hash i) = Ok c).
Proof.
  cbn zeta. unfold mem_basic_ref, mem_storage_ref, mem_code_by_hash_ref, with_account. cbn [accounts bytecodes].
  split; [by rewrite lookup_insert_eq|]. split; [by intros i; rewrite lookup_insert_eq|].
  split; [by intros b i Hb; rewrite lookup_insert_ne|].
  intros b i Hi. destruct (<[a:=account]> (accounts db) !! b) as [acc|] eqn:Hb; [|done].
  injection Hi as <-.
  assert (Hp : ai_code_hash (info acc) = KECCAK_EMPTY \/ is_Some (bytecodes db !! ai_code_hash (info acc))).
  { apply lookup_insert_Some in Hb as [[-> ->]|[_ Hb]]; [done|by apply (Hc b)]. }
  destruct (Z.eqb_spec (ai_code_hash (info acc)) KECCAK_EMPTY) as [E|E]; [by eexists|].
  destruct Hp as [?|[c ->]]; [done|by eexists].
Qed.

End InMemoryDB.

(** ** [StateStorageAdapter]

    [State] is a cache over the node's database: a read may change it, and panics when
    the database does. The adapter puts it behind a lock, tells the compiler that threads
    may share it ([unsafe impl Sync]), and takes the lock to write for each read. *)

Section Adapter.
Local Open Scope nat_scope.
Context `{Revm}.

(** The four reads of [revm::Database]. *)
Inductive ReadRequest : Type :=
| RqBasic (address : Address)
| RqCode (code_hash : Z)
| RqStorage (address : Address) (index : Z)
| RqBlockHash (number : Z).

Inductive ReadReply : Type :=
| RpBasic (a : option AccountInfo)
| RpCode (c : Bytecode)
| RpStorage (v : Z)
| RpBlockHash (h : Z).

(** [reth]'s [State]: the methods of [revm::Database], which take [&mut self]; no result
    is a panic. *)
Class StateReads (State Error : Type) : Type := {
  state_basic : Address -> State -> option (result (option AccountInfo) Error) * State;
  state_code_by_hash : Z -> State -> option (result Bytecode Error) * State;
  state_storage : Address -> Z -> State -> option (result Z Error) * State;
  state_block_hash : Z -> State -> option (result Z Error) * State;
}.

Section Methods.
Context {State Error : Type} `{!StateReads State Error}.

Definition result_map {A B E : Type} (f : A -> B) (r : result A E) : result B E :=
  result_bind r (fun a => Ok (f a)).

Definition reply {A : Type} (wrap : A -> ReadReply) (f : State -> option (result A Error) * State) (s : State) :
    option (result ReadReply Error) * State :=
  let '(r, t) := f s in (result_map wrap <$> r, t).

(** What a thread does: take the lock and unwrap, call a method on the state, drop the
    guard. *)
Inductive Instr : Type :=
| I_Write
| I_Call (f : State -> option (result ReadReply Error) * State)
| I_Drop.

(** [self.state.write().unwrap()], then one method; the guard lives to the end. *)
Definition with_write {A : Type} (wrap : A -> ReadReply) (f : State -> option (result A Error) * State) : list Instr :=
  [I_Write; I_Call (reply wrap f); I_Drop].

Definition adapter_basic_ref (address : Address) := with_write RpBasic (state_basic address).
Definition adapter_code_by_hash_ref (code_hash : Z) := with_write RpCode (state_code_by_hash code_hash).
Definition adapter_storage_ref (address : Address) (index : Z) := with_write RpStorage (state_storage address index).
Definition adapter_block_hash_ref (number : Z) := with_write RpBlockHash (state_block_hash number).

Definition serve (rq : ReadRequest) : list Instr :=
  match rq with
  | RqBasic a => adapter_basic_ref a
  | RqCode h => adapter_code_by_hash_ref h
  | RqStorage a i => adapter_storage_ref a i
  | RqBlockHash n => adapter_block_hash_ref n
  end.

Fixpoint serve_all (rqs : list ReadRequest) : list Instr :=
  match rqs with [] => [] | rq :: rqs' => serve rq ++ serve_all rqs' end.

(** The state behind the lock: who holds it, and whether somebody panicked with it. *)
Record StateStorageAdapter : Type := mkAdapter {
  adapter_state : State;
  writer : option nat;
  poisoned : bool;
}.

Definition StateStorageAdapter_new (state : State) : StateStorageAdapter := mkAdapter state None false.

(** A thread: what it has left to do, the state as it was when the method it is in
    began, whether it panicked, and the answers it got. *)
Record Reader : Type := mkReader {
  code_left : list Instr;
  entered : option State;
  panicked : bool;
  answers : list (result ReadReply Error);
}.

Record World : Type := mkWorld { adapter : StateStorageAdapter; readers : list Reader }.

(** A panic ends the thread; a guard that is dropped by it poisons the lock. *)
Definition read_panics (i : nat) (r : Reader) (a : StateStorageAdapter) : StateStorageAdapter * Reader :=
  (if decide (writer a = Some i) then mkAdapter (adapter_state a) None true else a, mkReader [] None true (answers r)).

(** One step of a thread: a method begins with the state it finds, and ends by leaving
    another. *)
Definition reader_step (i : nat) (r : Reader) (a : StateStorageAdapter) : option (StateStorageAdapter * Reader) :=
  match code_left r with
  | [] => None
  | I_Write :: k =>
      match writer a with
      | Some _ => None
      | None =>
          if poisoned a then Some (read_panics i r a)
          else Some (mkAdapter (adapter_state a) (Some i) false, mkReader k None (panicked r) (answers r))
      end
  | I_Call f :: k =>
      match entered r with
      | None => Some (a, mkReader (code_left r) (Some (adapter_state a)) (panicked r) (answers r))
      | Some s =>
          let '(x, t) := f s in
          let a' := mkAdapter t (writer a) (poisoned a) in
          match x with
          | None => Some (read_panics i r a')
          | Some y => Some (a', mkReader k None (panicked r) (answers r ++ [y]))
          end
      end
  | I_Drop :: k => Some (mkAdapter (adapter_state a) None (poisoned a), mkReader k None (panicked r) (answers r))
  end.

Definition read_step (i : nat) (w : World) : option World :=
  r ← readers w !! i;
  '(a, r') ← reader_step i r (adapter w);
  Some (mkWorld a (<[i := r']> (readers w))).

(** The start of a block, one list of reads for each thread, and runs of [n] steps. *)
Definition reads_start (s : State) (rqss : list (list ReadRequest)) : World :=
  mkWorld (StateStorageAdapter_new s) ((fun rqs => mkReader (serve_all rqs) None false []) <$> rqss).

Inductive reads_run (w0 : World) : nat -> World -> Prop :=
| reads_none : reads_run w0 0 w0
| reads_step n i w w' : reads_run w0 n w -> read_step i w = Some w' -> reads_run w0 (S n) w'.

(** ** What is assumed of the cache *)

Definition read (rq : ReadRequest) : State -> option (result ReadReply Error) * State :=
  match rq with
  | RqBasic a => reply RpBasic (state_basic a)
  | RqCode h => reply RpCode (state_code_by_hash h)
  | RqStorage a i => reply RpStorage (state_storage a i)
  | RqBlockHash n => reply RpBlockHash (state_block_hash n)
  end.

Lemma serve_read (rq : ReadRequest) : serve rq = [I_Write; I_Call (read rq); I_Drop].
Proof. by destruct rq. Qed.

(** A cache has contents, the answers it or the database under it has; a read answers
    from the contents, and when it returns the cache is still one of the same contents.
    Nothing is assumed of the state a panic leaves. *)
Record cache_laws (good : State -> Prop) (contents : State -> ReadRequest -> option (result ReadReply Error)) : Prop :=
  mkCacheLaws {
  cl_answer : forall s rq, good s -> (read rq s).1 = contents s rq;
  cl_keep : forall s rq y t, good s -> read rq s = (Some y, t) -> good t /\ forall rq', contents t rq' = contents s rq';
}.

Section Runs.
Context (good : State -> Prop) (contents : State -> ReadRequest -> option (result ReadReply Error)).
Context (s : State) (rqss : list (list ReadRequest)).

(** Where a thread is, with [todo] to be answered. *)
Inductive at_point (a : StateStorageAdapter) (i : nat) (todo : list ReadRequest) (r : Reader) : Prop :=
| at_write : panicked r = false -> code_left r = serve_all todo -> entered r = None -> writer a ≠ Some i -> at_point a i todo r
| at_call rq rest : todo = rq :: rest -> panicked r = false -> code_left r = I_Call (read rq) :: I_Drop :: serve_all rest ->
    (entered r = None \/ entered r = Some (adapter_state a)) -> writer a = Some i -> at_point a i todo r
| at_drop : panicked r = false -> code_left r = I_Drop :: serve_all todo -> entered r = None -> writer a = Some i -> at_point a i todo r
| at_end : panicked r = true -> code_left r = [] -> entered r = None -> poisoned a = true -> writer a ≠ Some i -> at_point a i todo r.

Definition reader_ok (a : StateStorageAdapter) (i : nat) (rqs : list ReadRequest) (r : Reader) : Prop :=
  exists done todo, rqs = done ++ todo /\ Some <$> answers r = contents s <$> done /\ at_point a i todo r.

Definition weight (x : Instr) : nat := match x with I_Call _ => 2 | _ => 1 end.
Definition left_steps (r : Reader) : nat :=
  sum_list_with weight (code_left r) - match entered r with Some _ => 1 | None => 0 end.

Record reads_ok (n : nat) (w : World) : Prop := mkReadsOk {
  ro_length : length (readers w) = length rqss;
  ro_readers : forall i rqs r, rqss !! i = Some rqs -> readers w !! i = Some r -> reader_ok (adapter w) i rqs r;
  ro_state : poisoned (adapter w) = false ->
    good (adapter_state (adapter w)) /\ forall rq, contents (adapter_state (adapter w)) rq = contents s rq;
  ro_poisoned : poisoned (adapter w) = true ->
    writer (adapter w) = None /\ exists rqs rq, rqs ∈ rqss /\ rq ∈ rqs /\ contents s rq = None;
  ro_writer : forall i, writer (adapter w) = Some i -> i < length rqss;
  ro_steps : n + sum_list_with left_steps (readers w) <= 4 * sum_list_with length rqss;
}.

(** What a thread does with the lock leaves the others where they are. *)
Lemma at_point_other (a a' : StateStorageAdapter) (j : nat) (todo : list ReadRequest) (r : Reader) :
  (writer a' = Some j <-> writer a = Some j) -> (poisoned a = true -> poisoned a' = true) ->
  (writer a = Some j -> adapter_state a' = adapter_state a) -> at_point a j todo r -> at_point a' j todo r.
Proof.
  intros Hw Hp Hs [H1 H2 H3 H4|rq rest H1 H2 H3 H4 H5|H1 H2 H3 H4|H1 H2 H3 H4 H5].
  - apply at_write; [done..|]. by rewrite Hw.
  - eapply at_call; [done..| |by apply Hw]. by rewrite Hs.
  - apply at_drop; [done..|]. by apply Hw.
  - apply at_end; [done..|by apply Hp|]. by rewrite Hw.
Qed.

Lemma serve_all_weight (rqs : list ReadRequest) : sum_list_with weight (serve_all rqs) = 4 * length rqs.
Proof. induction rqs as [|rq rqs IH]; [done|]. cbn [serve_all]. rewrite sum_list_with_app, serve_read, IH. cbn. lia. Qed.

Lemma reads_start_ok : good s -> reads_ok 0 (reads_start s rqss).
Proof.
  intros Hg. constructor; cbn; try done.
  - by rewrite length_fmap.
  - intros i rqs r Hi Hr. rewrite list_lookup_fmap, Hi in Hr. injection Hr as <-.
    exists [], rqs. split; [done|]. split; [done|]. by apply at_write.
  - clear. induction rqss as [|rqs l IH]; [done|]. rewrite !fmap_cons. cbn [sum_list_with].
    assert (Hw : left_steps (mkReader (serve_all rqs) None false []) = 4 * length rqs).
    { unfold left_steps. cbn [code_left entered]. rewrite serve_all_weight. lia. }
    lia.
Qed.

(** The invariant after thread [i] went from [r] to [r'] and the lock from that of [w] to [a]. *)
Lemma reads_update (n i : nat) (w : World) (a : StateStorageAdapter) (rqs : list ReadRequest) (r r' : Reader) :
  reads_ok n w -> rqss !! i = Some rqs -> readers w !! i = Some r -> reader_ok a i rqs r' ->
  (forall j, j ≠ i -> writer a = Some j <-> writer (adapter w) = Some j) ->
  (poisoned (adapter w) = true -> poisoned a = true) ->
  (forall j, j ≠ i -> writer (adapter w) = Some j -> adapter_state a = adapter_state (adapter w)) ->
  (poisoned a = false -> good (adapter_state a) /\ forall rq, contents (adapter_state a) rq = contents s rq) ->
  (poisoned a = true -> writer a = None /\ exists rqs rq, rqs ∈ rqss /\ rq ∈ rqs /\ contents s rq = None) ->
  S (left_steps r') <= left_steps r ->
  reads_ok (S n) (mkWorld a (<[i := r']> (readers w))).
Proof.
  intros HO Hi Hr Hok Hw Hp Hs Hst Hpo Hm. constructor; cbn [adapter readers].
  - by rewrite length_insert, (ro_length _ _ HO).
  - intros j rqs' x Hj Hx. apply lookup_insert_cases in Hx as [(-> & -> & _)|[Hne Hx]]; [by simplify_eq|].
    destruct (ro_readers _ _ HO j rqs' x Hj Hx) as (done & todo & He & Ha & Hpt). exists done, todo. split; [done|]. split; [done|].
    eapply at_point_other; [..|exact Hpt]; [by apply Hw|done|by apply Hs].
  - done.
  - done.
  - intros j Hj. destruct (decide (j = i)) as [->|Hne]; [by eapply lookup_lt_Some|]. apply (ro_writer _ _ HO). by apply Hw.
  - pose proof (sum_list_with_insert left_steps _ _ _ r' Hr). pose proof (ro_steps _ _ HO). lia.
Qed.

(** A step keeps the invariant; a poisoned lock answers nobody. *)
Lemma read_step_ok (Hc : cache_laws good contents) (n i : nat) (w w' : World) :
  reads_ok n w -> read_step i w = Some w' ->
  reads_ok (S n) w' /\ (poisoned (adapter w) = true -> answers <$> readers w' = answers <$> readers w).
Proof.
  intros HO Hs. unfold read_step in Hs. destruct (readers w !! i) as [r|] eqn:Hr; [|done]. cbn in Hs.
  destruct (reader_step i r (adapter w)) as [[a r']|] eqn:Hrs; [|done]. cbn in Hs. injection Hs as <-. cbn [readers].
  destruct (lookup_lt_is_Some_2 rqss i) as [rqs Hi]; [rewrite <- (ro_length _ _ HO); by eapply lookup_lt_Some|].
  destruct (ro_readers _ _ HO _ _ _ Hi Hr) as (dn & todo & He & Ha & Hpt). unfold reader_step in Hrs.
  pose proof (reads_update n i w a rqs r r' HO Hi Hr) as Hup.
  destruct Hpt as [Hp Hk Hen Hw|rq rest -> Hp Hk Hen Hw|Hp Hk Hen Hw|Hp Hk Hen Hpo Hw]; rewrite Hk in Hrs.
  - destruct todo as [|rq rest]; [done|]. cbn [serve_all] in Hrs. rewrite serve_read in Hrs. cbn in Hrs.
    destruct (writer (adapter w)) as [j|] eqn:Hwr; [done|]. destruct (poisoned (adapter w)) eqn:Hpo.
    + unfold read_panics in Hrs. destruct (decide _) as [E|_]; [congruence|]. injection Hrs as <- <-. split.
      * apply Hup; try done; try congruence; try (by rewrite Hwr); try (intros _; by apply (ro_poisoned _ _ HO)).
        -- exists dn, (rq :: rest). split; [done|]. split; [done|]. apply at_end; try done. by rewrite Hwr.
        -- unfold left_steps. rewrite Hk, Hen. cbn [serve_all]. rewrite serve_read. cbn. lia.
      * intros _. rewrite list_fmap_insert. cbn. apply list_insert_id. by rewrite list_lookup_fmap, Hr.
    + injection Hrs as <- <-. split; [|done]. apply Hup; try done.
      * exists dn, (rq :: rest). split; [done|]. split; [done|]. eapply at_call; try done. by left.
      * cbn. intros j Hj. split; congruence.
      * intros _. by apply (ro_state _ _ HO).
      * unfold left_steps. rewrite Hk, Hen. cbn [serve_all]. rewrite serve_read. cbn. lia.
  - assert (Hnp : poisoned (adapter w) = false).
    { destruct (poisoned (adapter w)) eqn:Hpo; [|done]. destruct (ro_poisoned _ _ HO Hpo). congruence. }
    split; [|by rewrite Hnp]. destruct (entered r) as [x|] eqn:Henr.
    + destruct Hen as [?|[= ->]]; [done|]. destruct (ro_state _ _ HO Hnp) as [Hg Hcs].
      pose proof (cl_answer _ _ Hc _ rq Hg) as Hans. rewrite Hcs in Hans.
      destruct (read rq (adapter_state (adapter w))) as [[y|] t] eqn:Hread; cbn in Hans.
      * destruct (cl_keep _ _ Hc _ _ _ _ Hg Hread) as [Hgt Hct]. injection Hrs as <- <-. apply Hup; try done.
        -- exists (dn ++ [rq]), rest. split; [by rewrite <- app_assoc|].
           split; [cbn; by rewrite !fmap_app, Ha; cbn; rewrite Hans|]. by apply at_drop.
        -- cbn. intros j Hj. congruence.
        -- intros _. split; [done|]. intros rq'. cbn. by rewrite Hct.
        -- cbn. congruence.
        -- unfold left_steps. rewrite Hk, Henr. cbn. lia.
      * unfold read_panics in Hrs. destruct (decide _) as [_|E]; [|cbn in E; congruence]. injection Hrs as <- <-. apply Hup; try done.
        -- exists dn, (rq :: rest). split; [done|]. split; [done|]. by apply at_end.
        -- cbn. intros j Hj. rewrite Hw. split; congruence.
        -- cbn. intros j Hj. congruence.
        -- intros _. split; [done|]. exists rqs, rq. split; [by eapply list_elem_of_lookup_2|]. split; [|done].
           rewrite He. apply elem_of_app. right. by left.
        -- unfold left_steps. rewrite Hk, Henr. cbn. lia.
    + injection Hrs as <- <-. apply Hup; try done.
      * exists dn, (rq :: rest). split; [done|]. split; [done|]. eapply at_call; try done. by right.
      * intros _. by apply (ro_state _ _ HO).
      * congruence.
      * unfold left_steps. rewrite Hk, Henr. cbn. lia.
  - assert (Hnp : poisoned (adapter w) = false).
    { destruct (poisoned (adapter w)) eqn:Hpo; [|done]. destruct (ro_poisoned _ _ HO Hpo). congruence. }
    split; [|by rewrite Hnp]. injection Hrs as <- <-. apply Hup; try done.
    + exists dn, todo. split; [done|]. split; [done|]. by apply at_write.
    + cbn. intros j Hj. rewrite Hw. split; congruence.
    + intros _. by apply (ro_state _ _ HO).
    + cbn. congruence.
    + unfold left_steps. rewrite Hk, Hen. cbn. lia.
  - done.
Qed.

Lemma reads_run_ok (Hc : cache_laws good contents) (n : nat) (w : World) :
  good s -> reads_run (reads_start s rqss) n w -> reads_ok n w.
Proof.
  intros Hg. induction 1 as [|n i w w' _ IH Hs]; [by apply reads_start_ok|]. by apply (read_step_ok Hc n i w w').
Qed.

Lemma reads_exclusive (n : nat) (w : World) : reads_ok n w ->
  forall i j q r, readers w !! i = Some q -> readers w !! j = Some r -> is_Some (entered q) -> is_Some (entered r) -> i = j.
Proof.
  intros HO. assert (H1 : forall i q, readers w !! i = Some q -> is_Some (entered q) -> writer (adapter w) = Some i).
  { intros i q Hq [x Hx]. destruct (lookup_lt_is_Some_2 rqss i) as [rqs Hi];
      [rewrite <- (ro_length _ _ HO); by eapply lookup_lt_Some|].
    destruct (ro_readers _ _ HO _ _ _ Hi Hq) as (dn & todo & _ & _ & []); congruence. }
  intros i j q r Hq Hr Eq Er. pose proof (H1 _ _ Hq Eq). pose proof (H1 _ _ Hr Er). congruence.
Qed.

Lemma reads_answered (n : nat) (w : World) : reads_ok n w ->
  forall i rqs r, rqss !! i = Some rqs -> readers w !! i = Some r ->
    Some <$> answers r = contents s <$> take (length (answers r)) rqs /\ (panicked r = true -> poisoned (adapter w) = true).
Proof.
  intros HO i rqs r Hi Hr. destruct (ro_readers _ _ HO _ _ _ Hi Hr) as (dn & todo & -> & Ha & Hpt).
  split; [|destruct Hpt; congruence]. pose proof (f_equal length Ha) as Hl. rewrite !length_fmap in Hl.
  by rewrite Hl, take_app_length.
Qed.

(** A thread that cannot move waits for the one with the lock, or is at its end. *)
Lemma reads_progress (n : nat) (w : World) : reads_ok n w ->
  (exists i w', read_step i w = Some w') \/
  forall i rqs r, rqss !! i = Some rqs -> readers w !! i = Some r ->
    panicked r = true \/ Some <$> answers r = contents s <$> rqs.
Proof.
  intros HO.
  assert (Hmove : forall i r, readers w !! i = Some r -> is_Some (reader_step i r (adapter w)) -> exists i w', read_step i w = Some w').
  { intros i r Hr [[a r'] Hs]. exists i. unfold read_step. rewrite Hr. cbn. rewrite Hs. cbn. by eexists. }
  destruct (writer (adapter w)) as [j|] eqn:Hw.
  - left. pose proof (ro_writer _ _ HO j Hw) as Hj. destruct (lookup_lt_is_Some_2 _ _ Hj) as [rqs Hi].
    rewrite <- (ro_length _ _ HO) in Hj. destruct (lookup_lt_is_Some_2 _ _ Hj) as [r Hr]. apply (Hmove j r Hr).
    destruct (ro_readers _ _ HO _ _ _ Hi Hr) as (dn & todo & _ & _ & Hpt). unfold reader_step.
    destruct Hpt as [? ? ? ?|rq rest ? ? Hk ? ?|? Hk ? ?|]; try done; rewrite Hk; [|by eexists].
    destruct (entered r); [|by eexists]. destruct (read rq _) as [[]]; by eexists.
  - destruct (decide (Exists (fun r => code_left r ≠ []) (readers w))) as [He|Hn].
    + left. apply list.Exists_exists in He as (r & Hin & Hne). apply list_elem_of_lookup_1 in Hin as [i Hr].
      apply (Hmove i r Hr). destruct (lookup_lt_is_Some_2 rqss i) as [rqs Hi];
        [rewrite <- (ro_length _ _ HO); by eapply lookup_lt_Some|].
      destruct (ro_readers _ _ HO _ _ _ Hi Hr) as (dn & todo & _ & _ & Hpt). unfold reader_step.
      destruct Hpt as [? Hk ? ?|rq rest ? ? ? ? ?|? ? ? ?|]; try congruence. destruct todo as [|rq rest]; [by rewrite Hk in Hne|].
      rewrite Hk. cbn [serve_all]. rewrite serve_read. cbn. rewrite Hw. destruct (poisoned (adapter w)); by eexists.
    + right. intros i rqs r Hi Hr. assert (Hk0 : code_left r = []).
      { destruct (decide (code_left r = [])) as [?|Hne]; [done|]. destruct Hn. apply list.Exists_exists. exists r.
        split; [by eapply list_elem_of_lookup_2|done]. }
      destruct (ro_readers _ _ HO _ _ _ Hi Hr) as (dn & todo & -> & Ha & Hpt).
      destruct Hpt as [? Hk ? ?|? ? ? ? Hk ? ?|? Hk ? ?|]; [|congruence|congruence|by left].
      right. destruct todo as [|rq rest]; [by rewrite app_nil_r|]. rewrite Hk in Hk0. cbn [serve_all] in Hk0.
      by rewrite serve_read in Hk0.
Qed.

(** C32. The worker threads share the node's state soundly, though every read mutates it
    and the type is declared to be [Sync] by hand. However their steps interleave, at
    most one thread at a time is inside a method of the state; the answers a thread has
    got are, in order, those the state gave at the start of the block; a thread panics
    only after a read that panics there, by which the lock is poisoned, and from then on
    no read is answered; and no run has more than four steps a read, at the end of which
    every thread has panicked or has all its answers: the lock is never stuck. *)
Theorem adapter_reads_fixed (n : nat) (w : World) (Hc : cache_laws good contents) (Hg : good s)
    (Hr : reads_run (reads_start s rqss) n w) :
  (forall i j q r, readers w !! i = Some q -> readers w !! j = Some r -> is_Some (entered q) -> is_Some (entered r) -> i = j) /\
  (forall i rqs r, rqss !! i = Some rqs -> readers w !! i = Some r ->
     Some <$> answers r = contents s <$> take (length (answers r)) rqs /\ (panicked r = true -> poisoned (adapter w) = true)) /\
  (poisoned (adapter w) = true -> exists rqs rq, rqs ∈ rqss /\ rq ∈ rqs /\ contents s rq = None) /\
  (poisoned (adapter w) = true -> forall i w', read_step i w = Some w' -> answers <$> readers w' = answers <$> readers w) /\
  n <= 4 * sum_list_with length rqss /\
  ((exists i w', read_step i w = Some w') \/
   forall i rqs r, rqss !! i = Some rqs -> readers w !! i = Some r ->
     panicked r = true \/ Some <$> answers r = contents s <$> rqs).
Proof.
  pose proof (reads_run_ok Hc n w Hg Hr) as HO. split; [by apply (reads_exclusive n)|].
  split; [by apply (reads_answered n)|]. split; [intros Hp; by apply (ro_poisoned _ _ HO)|].
  split; [intros Hp i w' Hs; by eapply (proj2 (read_step_ok Hc n i w w' HO Hs))|].
  split; [pose proof (ro_steps _ _ HO); lia|]. by apply (reads_progress n).
Qed.

End Runs.
End Methods.
End Adapter.

(** ** Examples *)

Section Examples.
#[local] Existing Instance example_revm.

Definition example_contract : Account :=
  mkAccount (mkAccountInfo 10 1 5 None) {[ 0 := mkStorageSlot 0 42 ]} (false, false) tt.

Example in_memory_example :
  mem_storage_ref (with_account (mkInMemoryDB ∅ {[ 5 := 77 ]} ∅) 1 example_contract) 1 0 = Ok 42.
Proof.
  destruct (in_memory_reads_back (fun _ => "0x05"%string) (mkInMemoryDB ∅ {[ 5 := 77 ]} ∅) 1 example_contract)
    as (_ & Hs & _).
  - intros a account Ha. discriminate Ha.
  - right. by eexists.
  - rewrite (Hs 0). reflexivity.
Defined.

(** A cache of the slots of one account over a database with ten times its number in each
    slot, which panics for slot 13. *)
Definition slot_database (i : Z) : option (result Z unit) := if i =? 13 then None else Some (Ok (10 * i)).

#[local] Instance caching_reads : StateReads (gmap Z Z) unit := {|
  state_basic := fun _ s => (Some (Ok None), s);
  state_code_by_hash := fun _ s => (Some (Ok 0), s);
  state_storage := fun _ i s =>
    match s !! i with
    | Some v => (Some (Ok v), s)
    | None =>
        match slot_database i with
        | Some (Ok v) => (Some (Ok v), <[i := v]> s)
        | r => (r, ∅)
        end
    end;
  state_block_hash := fun n s => (Some (Ok n), s);
|}.

Definition caching_good (s : gmap Z Z) : Prop := forall i v, s !! i = Some v -> slot_database i = Some (Ok v).
Definition caching_contents (s : gmap Z Z) (rq : ReadRequest) : option (result ReadReply unit) :=
  match rq with
  | RqBasic _ => Some (Ok (RpBasic None))
  | RqCode _ => Some (Ok (RpCode 0))
  | RqStorage _ i => result_map RpStorage <$> slot_database i
  | RqBlockHash n => Some (Ok (RpBlockHash n))
  end.

Lemma caching_laws : cache_laws caching_good caching_contents.
Proof.
  split.
  - intros s [a|h|a i|n] Hg; [done|done| |done]. unfold read, reply, state_storage, caching_reads, caching_contents.
    destruct (s !! i) as [v|] eqn:Hi; [by rewrite (Hg _ _ Hi)|]. by destruct (slot_database i) as [[]|].
  - intros s [a|h|a i|n] y t Hg Hr; [by injection Hr as _ <-|by injection Hr as _ <-| |by injection Hr as _ <-].
    unfold read, reply, state_storage, caching_reads in Hr. split; [|done].
    destruct (s !! i) as [v|] eqn:Hi; [by injection Hr as _ <-|].
    destruct (slot_database i) as [[v|e]|] eqn:Hd; simplify_eq/=; [|done].
    intros j u [[<- <-]|[_ Hj]]%lookup_insert_Some; [done|by apply Hg].
Qed.

(** Two threads; the second one's first read panics, so that the first one's second
    read does, too. *)
Definition example_requests : list (list ReadRequest) := [[RqStorage 3 4; RqStorage 3 5]; [RqStorage 3 13; RqBlockHash 9]].

Fixpoint read_steps (l : list nat) (w : @World _ (gmap Z Z) unit) : option World :=
  match l with [] => Some w | i :: l' => w' ← read_step i w; read_steps l' w' end.

Lemma read_steps_run (l : list nat) (s : gmap Z Z) (rqss : list (list ReadRequest)) (n : nat) (w w' : World) :
  reads_run (reads_start s rqss) n w -> read_steps l w = Some w' -> reads_run (reads_start s rqss) (length l + n) w'.
Proof.
  revert n w. induction l as [|i l IH]; intros n w Hr Hs; [by injection Hs as <-|]. cbn in Hs.
  destruct (read_step i w) as [w1|] eqn:Hi; [|done]. cbn. rewrite <- Nat.add_succ_r. eapply IH; [|exact Hs]. by eapply reads_step.
Qed.

Definition example_world (l : list nat) : World := default (reads_start ∅ example_requests) (read_steps l (reads_start ∅ example_requests)).

Lemma caching_empty : caching_good ∅.
Proof. intros i v Hi. by rewrite lookup_empty in Hi. Qed.

Lemma example_world_reached :
  reads_run (reads_start ∅ example_requests) 8 (example_world [0; 0; 0; 0; 1; 1; 1; 0]%nat).
Proof. apply (read_steps_run [0; 0; 0; 0; 1; 1; 1; 0]%nat ∅ example_requests 0%nat _ _ (reads_none _)). by vm_compute. Qed.

Lemma adapter_reads_fixed_witness :
  let w := example_world [0; 0; 0; 0; 1; 1; 1; 0]%nat in
  (exists r, readers w !! 0%nat = Some r /\ answers r = [Ok (RpStorage 40)] /\ panicked r = true /\
    Some <$> answers r = caching_contents ∅ <$> [RqStorage 3 4]) /\
  poisoned (adapter w) = true /\ (exists rqs rq, rqs ∈ example_requests /\ rq ∈ rqs /\ caching_contents ∅ rq = None).
Proof.
  pose proof (adapter_reads_fixed caching_good caching_contents ∅ example_requests 8
    (example_world [0; 0; 0; 0; 1; 1; 1; 0]%nat) caching_laws caching_empty example_world_reached) as (_ & Ha & Hp & _).
  cbv zeta. split; [|split; [by vm_compute|apply Hp; by vm_compute]].
  eexists. split; [by vm_compute|]. split; [done|]. split; [done|].
  exact (proj1 (Ha 0%nat _ _ eq_refl ltac:(by vm_compute))).
Defined.

End Examples.
