(* ===== verification/OpVm.v ===== *)
(** * The Optimism variant (crates/pe/src/op_vm.rs, op_executor.rs)

    [OpVmDB], the write-set construction and the parallel executor are copies of
    the Ethereum ones and share their definitions; what differs is modelled here:
    the EVM is built for a default fork and ignores the block environment, fees
    go to three recipients, and deposit transactions pay none. *)

From S2P Require Import Prelude Primitives Types Results MvMemory VmDb Vm Executor.
Local Open Scope Z_scope.

(** What the Optimism executor uses of [op_revm]: its EVM, built with
    [Default::default()] for the fork and no block environment; the type byte of
    deposits; the enveloped bytes of a wrapped transaction; the data fee. *)
Class OpEvm `{Revm} : Type := {
  Bytes : Type;
  op_evm_program : bool -> TxEnv -> Prog (result (ExecutionResult * EvmState) (EVMError Empty_set));
  op_transact_error : EVMError Empty_set -> OpTransactionError;
  DEPOSIT_TRANSACTION_TYPE : Z;
  enveloped_tx : TxEnv -> option Bytes;
  calculate_tx_l1_cost : Bytes -> Z;
}.

Section OpVm.
Context `{Revm} `{!DatabaseRef} `{!Evm} `{!OpEvm}.
Context (hash_deterministic : Location -> LocationHash).
Context (L1_FEE_RECIPIENT BASE_FEE_RECIPIENT : Address).
Context (evm_env : EvmEnv) (txs : list TxEnv).

(** ** [OpVmDB] *)

Definition OpVmDB : Type := VmDB.
Definition OpVmDB_new := VmDB_new hash_deterministic.
Definition op_hash_basic := hash_basic hash_deterministic.
Definition op_push_origin := push_origin.
Definition op_get_code_hash := get_code_hash hash_deterministic.
Definition op_basic := basic hash_deterministic.
Definition op_code_by_hash := code_by_hash.
Definition op_storage := storage_read hash_deterministic.
Definition op_block_hash := block_hash.

(** ** Rewards *)

Definition op_rewards (tx : TxEnv) (gas_used : Z) : outcome (list (LocationHash * Z)) :=
  match op_reward_policy hash_deterministic L1_FEE_RECIPIENT BASE_FEE_RECIPIENT with
  | Optimism l1_fee_recipient_location_hash base_fee_vault_location_hash =>
      if tx_type tx =? DEPOSIT_TRANSACTION_TYPE then Return []
      else
        match enveloped_tx tx with
        | None => Panic
        | Some enveloped =>
            Return
              [(beneficiary_location_hash hash_deterministic evm_env,
                saturating_mul 256 (reward_gas_price evm_env tx) gas_used);
               (l1_fee_recipient_location_hash, calculate_tx_l1_cost enveloped);
               (base_fee_vault_location_hash, saturating_mul 256 (basefee evm_env) gas_used)]
        end
  end.

Definition op_apply_rewards (ws : gmap LocationHash LocationValue) (tx : TxEnv) (gas_used : Z) :
    outcome (result (gmap LocationHash LocationValue) VmExecutionError) :=
  match op_rewards tx gas_used with
  | Return rs => Return (add_rewards ws rs)
  | Panic => Panic
  | UB => UB
  end.

(** ** [OpVm] *)

(** The executor's view of the block: with the location of the beneficiary and the
    policy of rewards, which are computed once. *)
Record OpVm : Type := mkOpVm {
  vm_memory : MvMemory;
  vm_env : EvmEnv;
  vm_txs : list TxEnv;
  vm_beneficiary_location_hash : LocationHash;
  vm_op_reward_policy : OpRewardPolicy;
}.

Definition OpVm_new (m : MvMemory) : OpVm :=
  mkOpVm m evm_env txs (beneficiary_location_hash hash_deterministic evm_env)
    (op_reward_policy hash_deterministic L1_FEE_RECIPIENT BASE_FEE_RECIPIENT).

(** ** [OpVm::execute] *)

Definition op_write_state := write_state hash_deterministic evm_env.

Definition op_commit (ver : TxVersion) (db : VmDB) (r : ExecutionResult) (st : EvmState) (m : MvMemory) :
    outcome (result VmExecutionResult VmExecutionError * MvMemory) :=
  let '(ws, bytecodes) := op_write_state db st (new_bytecodes m) in
  let m1 := mkMvMemory (data m) (locations m) (lazy_addresses m) bytecodes in
  match op_apply_rewards ws (db_tx db) (result_gas_used r) with
  | Return (Err e) => Return (Err e, m1)
  | Return (Ok ws') =>
      let m2 := if is_lazy db then add_lazy_addresses (lazy_parties (db_tx db)) m1 else m1 in
      let flags := if (0 <? tx_idx ver)%nat && negb (is_lazy db) then NeedValidation else flags_empty in
      match record ver (read_set db) ws' m2 with
      | Return (wrote_new, m3) =>
          let flags' := if (wrote_new : bool) then flags_union flags WroteNewLocation else flags in
          match tx_type_try_from (tx_type (db_tx db)) with
          | Ok ty => Return (Ok (mkVmExecutionResult (from_raw ty r st) flags'), m3)
          | Err msg => Return (Err (VE_ExecutionError (EE_Custom msg)), m3)
          end
      | Panic => Panic
      | UB => UB
      end
  | Panic => Panic
  | UB => UB
  end.

Definition op_execute (views : nat -> MvMemory) (ver : TxVersion) (m : MvMemory) :
    outcome (result VmExecutionResult VmExecutionError * MvMemory) :=
  match txs !! tx_idx ver with
  | None => UB
  | Some tx =>
      let from := hash_deterministic (Loc_Basic (caller tx)) in
      let to := (fun a => hash_deterministic (Loc_Basic a)) <$> kind_to (kind tx) in
      match OpVmDB_new (views 0%nat) (views 1%nat) (tx_idx ver) tx from to with
      | Return (Err e) => Return (Err (VmExecutionError_from e), m)
      | Return (Ok db) =>
          match run_prog hash_deterministic (fun k => views (2 + k)%nat) 0 (op_evm_program false tx) db with
          | Return (Err e) => Return (Err (VmExecutionError_from e), m)
          | Return (Ok (Err err, _)) => Return (Err (execution_failure ver err), m)
          | Return (Ok (Ok (r, st), db')) => op_commit ver db' r st m
          | Panic => Panic
          | UB => UB
          end
      | Panic => Panic
      | UB => UB
      end
  end.

(** ** The executor *)

Context (cache_db : list EvmState -> DbView).

(** [evm.transact(OpTransaction::new(tx))] with its errors. *)
Definition op_transact (committed : list EvmState) (tx : TxEnv) :
    result (ExecutionResult * EvmState) (OpEVMError DbError) :=
  match run_view (cache_db committed) (op_evm_program true tx) with
  | Err e => Err (OE_Database e)
  | Ok (Err (EE_Header e)) => Err (OE_Header e)
  | Ok (Err (EE_Custom msg)) => Err (OE_Custom msg)
  | Ok (Err e) => Err (OE_Transaction (op_transact_error e))
  | Ok (Ok r) => Ok r
  end.

Fixpoint op_sequential_loop (txs : list TxEnv) (committed : list EvmState) (cumulative : Z) :
    result (list TxExecutionResult) ParallelExecutorError :=
  match txs with
  | [] => Ok []
  | tx :: txs' =>
      match tx_type_try_from (tx_type tx) with
      | Err _ => Err PE_UnreachableError
      | Ok ty =>
          match op_transact committed tx with
          | Err e => Err (op_evm_err_to_exec_error err_to_string e)
          | Ok (res, st) =>
              let r := from_raw_op ty (res, st) in
              let cumulative' := saturating_add 64 cumulative (cumulative_gas_used (receipt r)) in
              result_bind (op_sequential_loop txs' (committed ++ [st]) cumulative')
                (fun rs => Ok (set_gas cumulative' r :: rs))
          end
      end
  end.

Definition op_execute_sequential (_evm_env : EvmEnv) (txs : list TxEnv) :
    result (list TxExecutionResult) ParallelExecutorError :=
  op_sequential_loop txs [] 0.

Definition op_finish_block (abort_reason : option AbortReason)
    (slots : list (option TxExecutionResult)) (m : MvMemory) : Step (list TxExecutionResult) :=
  match abort_reason with
  | Some AR_FallbackToSequential => Return (op_execute_sequential evm_env txs)
  | Some (AR_ExecutionError err) => Return (Err (PE_ExecutionError err))
  | None =>
      match take_results slots (length txs) with
      | Return rs => eval_lazy hash_deterministic evm_env txs m (accumulate_gas 0 rs)
      | Panic => Panic
      | UB => UB
      end
  end.

(** ** Who is paid *)

(** On Optimism a deposit pays nobody. Any other transaction pays the beneficiary its
    tip, the L1 fee recipient the data cost and the base fee vault the base fee of
    the gas used: here when the transaction itself wrote to none of the three and
    the amounts fit. Without enveloped bytes, the execution panics. *)
Lemma op_apply_rewards_spec (ws : gmap LocationHash LocationValue) (tx : TxEnv) (gas : Z)
    (Hne1 : beneficiary evm_env ≠ L1_FEE_RECIPIENT) (Hne2 : beneficiary evm_env ≠ BASE_FEE_RECIPIENT)
    (Hne3 : L1_FEE_RECIPIENT ≠ BASE_FEE_RECIPIENT)
    (Hinj : forall a b, hash_deterministic (Loc_Basic a) = hash_deterministic (Loc_Basic b) -> a = b)
    (Hfresh : forall a, a ∈ [beneficiary evm_env; L1_FEE_RECIPIENT; BASE_FEE_RECIPIENT] ->
       ws !! hash_deterministic (Loc_Basic a) = None) :
  (tx_type tx = DEPOSIT_TRANSACTION_TYPE -> op_apply_rewards ws tx gas = Return (Ok ws)) /\
  (tx_type tx ≠ DEPOSIT_TRANSACTION_TYPE -> enveloped_tx tx = None -> op_apply_rewards ws tx gas = Panic) /\
  (forall e, tx_type tx ≠ DEPOSIT_TRANSACTION_TYPE -> enveloped_tx tx = Some e ->
     exists ws', op_apply_rewards ws tx gas = Return (Ok ws') /\
       ws' !! hash_deterministic (Loc_Basic (beneficiary evm_env)) =
         Some (LV_LazyRecipient (saturating_mul 256 (reward_gas_price evm_env tx) gas)) /\
       ws' !! hash_deterministic (Loc_Basic L1_FEE_RECIPIENT) =
         Some (LV_LazyRecipient (calculate_tx_l1_cost e)) /\
       ws' !! hash_deterministic (Loc_Basic BASE_FEE_RECIPIENT) =
         Some (LV_LazyRecipient (saturating_mul 256 (basefee evm_env) gas))).
Proof.
  unfold op_apply_rewards, op_rewards, op_reward_policy. split; [|split].
  - intros ->. by rewrite Z.eqb_refl.
  - intros Hd He. rewrite (proj2 (Z.eqb_neq _ _)) by done. by rewrite He.
  - intros e Hd He. rewrite (proj2 (Z.eqb_neq _ _)) by done. rewrite He.
    unfold beneficiary_location_hash.
    set (hb := hash_deterministic (Loc_Basic (beneficiary evm_env))).
    set (hl := hash_deterministic (Loc_Basic L1_FEE_RECIPIENT)).
    set (hf := hash_deterministic (Loc_Basic BASE_FEE_RECIPIENT)).
    assert (Hbl : hb ≠ hl) by (intros Heq; apply Hne1, Hinj, Heq).
    assert (Hbf : hb ≠ hf) by (intros Heq; apply Hne2, Hinj, Heq).
    assert (Hlf : hl ≠ hf) by (intros Heq; apply Hne3, Hinj, Heq).
    assert (Hb : ws !! hb = None) by (apply Hfresh; by left).
    assert (Hl : ws !! hl = None) by (apply Hfresh; right; by left).
    assert (Hf : ws !! hf = None) by (apply Hfresh; right; right; by left).
    cbn [add_rewards]. unfold add_reward at 1. rewrite Hb. cbn [result_bind].
    unfold add_reward at 1. rewrite lookup_insert_ne, Hl by done. cbn [result_bind].
    unfold add_reward at 1. rewrite !lookup_insert_ne, Hf by done. cbn [result_bind].
    eexists. split; [reflexivity|]. split; [|split].
    + rewrite !lookup_insert_ne by done. by rewrite lookup_insert_eq.
    + rewrite lookup_insert_ne by done. by rewrite lookup_insert_eq.
    + by rewrite lookup_insert_eq.
Qed.

(** ** Executions on Optimism *)

(** No execution of a transaction by the Optimism executor succeeds, whatever the
    EVM does and whatever the memories hold: [OpTransaction::new] carries no enveloped
    bytes and [TxType] has no code for deposits. A deposit is executed and recorded,
    and then refused because of its type; any other transaction panics when its data
    fee is computed from the enveloped bytes. *)
Lemma op_execute_never_succeeds (views : nat -> MvMemory) (ver : TxVersion) (m m' : MvMemory) (r : VmExecutionResult)
    (Hbytes : forall tx, enveloped_tx tx = None)
    (Htype : is_ok (tx_type_try_from DEPOSIT_TRANSACTION_TYPE) = false) :
  op_execute views ver m ≠ Return (Ok r, m').
Proof.
  unfold op_execute. destruct (txs !! tx_idx ver) as [tx|]; [|done].
  destruct (OpVmDB_new _ _ _ _ _ _) as [[db|]| |]; try done.
  destruct (run_prog _ _ _ _ db) as [[[[[x st]|err] db']|]| |]; try done. unfold op_commit.
  destruct (op_write_state db' st (new_bytecodes m)) as [ws bc].
  unfold op_apply_rewards, op_rewards. destruct (op_reward_policy _ _ _) as [l1 vault].
  destruct (Z.eqb_spec (tx_type (db_tx db')) DEPOSIT_TRANSACTION_TYPE) as [->|_]; [|by rewrite Hbytes].
  cbn [add_rewards]. destruct (record _ _ _ _) as [[wrote m3]| |]; try done.
  by destruct (tx_type_try_from DEPOSIT_TRANSACTION_TYPE).
Qed.

End OpVm.

Section Examples.
#[local] Existing Instance example_revm.
#[local] Existing Instance example_db.
#[local] Existing Instance example_evm.

#[local] Instance example_op_evm : OpEvm := {|
  Bytes := list Z;
  op_evm_program := fun b tx => evm_program b example_env tx;
  op_transact_error := fun _ => Op_MissingEnvelopedTx;
  DEPOSIT_TRANSACTION_TYPE := 126;
  enveloped_tx := fun _ => Some [1; 2];
  calculate_tx_l1_cost := fun b => 16 * Z.of_nat (length b);
|}.

Lemma op_apply_rewards_spec_witness :
  exists ws', op_apply_rewards encode_hash 200 300 example_env ∅ example_tx 21000 = Return (Ok ws') /\
    ws' !! encode_hash (Loc_Basic 200) = Some (LV_LazyRecipient 32).
Proof.
  destruct (op_apply_rewards_spec encode_hash 200 300 example_env ∅ example_tx 21000) as (_ & _ & H3).
  - discriminate.
  - discriminate.
  - discriminate.
  - intros a b Heq. apply encode_hash_inj in Heq. congruence.
  - intros a _. apply lookup_empty.
  - destruct (H3 [1; 2]) as (ws' & Hws & _ & Hl1 & _); [discriminate|reflexivity|].
    exists ws'. split; [exact Hws|exact Hl1].
Defined.

(** Wrapped as the executor wraps them, and with the types [TxType] knows. *)
Definition bare_op_evm : OpEvm := {|
  Bytes := list Z;
  op_evm_program := fun b tx => evm_program b example_env tx;
  op_transact_error := fun _ => Op_MissingEnvelopedTx;
  DEPOSIT_TRANSACTION_TYPE := 126;
  enveloped_tx := fun _ => None;
  calculate_tx_l1_cost := fun b => 16 * Z.of_nat (length b);
|}.

Definition typed_evm : Evm := {|
  evm_program := @evm_program _ example_evm;
  changed_storage_slots := @changed_storage_slots _ example_evm;
  tx_type_try_from := fun t => if (0 <=? t) && (t <=? 4) then Ok t else Err String.EmptyString;
|}.

Definition deposit_tx : TxEnv := mkTxEnv 9 Create 0 0 21000 1 None 0 0 126 tt.

(** A plain transaction panics, a deposit is refused. *)
Lemma op_execute_never_succeeds_witness :
  op_execute (H1 := typed_evm) (H2 := bare_op_evm) encode_hash 200 300 example_env [example_tx; deposit_tx]
    (fun _ => example_empty_mem) (mkTxVersion 0 0) example_empty_mem = Panic /\
  (forall r m', op_execute (H1 := typed_evm) (H2 := bare_op_evm) encode_hash 200 300 example_env [example_tx; deposit_tx]
    (fun _ => example_empty_mem) (mkTxVersion 1 0) example_empty_mem ≠ Return (Ok r, m')).
Proof.
  split; [vm_compute; reflexivity|]. intros r m'.
  apply (op_execute_never_succeeds (H1 := typed_evm) (H2 := bare_op_evm) encode_hash 200 300 example_env
    [example_tx; deposit_tx] (fun _ => example_empty_mem) (mkTxVersion 1 0) example_empty_mem m' r).
  - reflexivity.
  - reflexivity.
Defined.

End Examples.
