(* ===== verification/Views.v ===== *)
(** * The multi-version memory as a database (vm.rs against [CacheDB])

    A transaction that is executed against a memory at rest gets from [VmDB] the
    answers of one database: the account resolved from the entries below it, its code
    hash, its slots. Here that database is related to the view the sequential executor
    has, the chain's state with the committed states on top: if the two agree before a
    transaction, the EVM does the same on both, and they agree again after it. *)

From S2P Require Import Prelude Primitives Types Results MvMemory VmDb Vm Executor Evaluation.
Local Open Scope Z_scope.

(** ** Resolving the entries of an account *)

Section Resolve.
Context `{Revm}.

(** Balance and nonce of an account: the closest absolute entry, or the chain's
    account, with the additions above it. *)
Fixpoint resolve (base : option (Z * Z)) (iter : list (TxIdx * Entry)) : option (Z * Z) :=
  match iter with
  | [] => base
  | (_, Data _ (LV_Basic i)) :: _ => Some (ai_balance i, ai_nonce i)
  | (_, Data _ (LV_LazyRecipient x)) :: iter' =>
      (fun bn => (saturating_add 256 bn.1 x, bn.2)) <$> resolve base iter'
  | _ => None
  end.

Definition info_typed (i : AccountInfo) : Prop := in_range 256 (ai_balance i) /\ in_range 64 (ai_nonce i).

(** Absolute accounts, and additions to accounts that exist. *)
Definition resolvable (e : TxIdx * Entry) : Prop :=
  match e.2 with
  | Data _ (LV_Basic i) => info_typed i
  | Data _ (LV_LazyRecipient x) => in_range 256 x
  | _ => False
  end.

Definition add_pending (b : Z) (bn : Z * Z) : Z * Z := (Z.min U256_MAX (bn.1 + b), bn.2).

(** A pending balance the scan carries. *)
Definition pending (x : I257.I257) : Prop := I257.wf x /\ 0 <= I257.to_Z x.

Lemma pending_zero : pending I257.NEGATIVE_ZERO.
Proof. split; [|done]. split; [done|]. done. Qed.

Lemma pending_add (x : I257.I257) (v : Z) :
  pending x -> in_range 256 v ->
  pending (I257.add x (I257.from_U256 v)) /\
  I257.to_Z (I257.add x (I257.from_U256 v)) = Z.min U256_MAX (I257.to_Z x + v).
Proof.
  intros [Hw Hp] Hv. assert (Hwv : I257.wf (I257.from_U256 v)) by exact Hv.
  pose proof (I257.add_to_Z _ _ Hw Hwv) as Hz. rewrite I257.from_U256_to_Z in Hz.
  unfold I257.clamp in Hz. unfold in_range in Hv. assert (Hm : U256_MAX = 2 ^ 256 - 1) by done.
  split; [split; [by apply I257.add_wf|]|]; lia.
Qed.

Lemma resolve_typed (base : option (Z * Z)) (iter : list (TxIdx * Entry)) (b n : Z) :
  Forall resolvable iter -> (forall b n, base = Some (b, n) -> in_range 256 b /\ in_range 64 n) ->
  resolve base iter = Some (b, n) -> in_range 256 b /\ in_range 64 n.
Proof.
  intros Hall Hbase. revert b n. induction Hall as [|[t e] iter He _ IH]; intros b n Hr; [by apply Hbase|].
  destruct e as [inc v|]; [|done]. destruct v as [i| | |x| |]; try done; cbn in Hr, He.
  - simplify_eq. exact He.
  - destruct (resolve base iter) as [[b' n']|]; [|done]. cbn in Hr. simplify_eq. destruct (IH _ _ eq_refl) as [Hb Hn].
    split; [|done]. by apply saturating_add_range.
Qed.

(** What the scan of [basic] finds is the resolved account. *)
Lemma scan_lazy_resolve (prev : list ReadOrigin) (iter : list (TxIdx * Entry)) (acc acc' : LazyScan) (base : option (Z * Z)) :
  Forall resolvable iter -> (forall b n, base = Some (b, n) -> in_range 256 b /\ in_range 64 n) ->
  scan_account acc = None -> pending (balance_addition acc) -> nonce_addition acc = 0 ->
  scan_lazy prev iter acc = Ok acc' ->
  pending (balance_addition acc') /\ nonce_addition acc' = 0 /\
  add_pending (I257.to_Z (balance_addition acc)) <$> resolve base iter =
  add_pending (I257.to_Z (balance_addition acc')) <$>
    (match scan_account acc' with Some i => Some (ai_balance i, ai_nonce i) | None => base end) /\
  (forall i, scan_account acc' = Some i -> info_typed i).
Proof.
  intros Hall Hbase. revert acc. induction Hall as [|[t e] iter He Hall IH]; intros acc Hnone Hp Hna Hs; cbn [scan_lazy] in Hs.
  - simplify_eq. rewrite Hnone. split; [done|]. split; [done|]. split; [done|]. by intros i Hi.
  - destruct e as [inc v|]; [|done]. destruct (negb _ && _); [done|]. destruct (negb _ && _); [done|].
    destruct v as [i| | |x| |]; try done; cbn [resolvable snd] in He.
    + simplify_eq/=. split; [done|]. split; [done|]. split; [done|]. by intros i' [= <-].
    + destruct (pending_add _ x Hp He) as [Hp' Hz]. apply IH in Hs; [|done|done|done].
      cbn [balance_addition] in Hs. destruct Hs as (Hp2 & Hn2 & Heq & Ht). do 2 (split; [done|]). split; [|done].
      rewrite <- Heq, Hz. cbn [resolve]. destruct (resolve base iter) as [[b n]|] eqn:Hr; [|done]. cbn. f_equal.
      destruct (resolve_typed _ _ _ _ Hall Hbase Hr) as [Hb _]. destruct Hp as [_ Hp].
      unfold add_pending. cbn. f_equal. unfold saturating_add, in_range in *. change (uint_max 256) with U256_MAX.
      assert (Hm : U256_MAX = 2 ^ 256 - 1) by done. lia.
Qed.

End Resolve.

(** ** The answers of [VmDB] *)

Section Answers.
Context `{Revm} `{!DatabaseRef}.
Context (hash_deterministic : Location -> LocationHash).
Context (hash_inj : forall l l', hash_deterministic l = hash_deterministic l' -> l = l').

Lemma no_collision (a : Address) (x : LocationHash) :
  plain_location hash_deterministic x -> hash_deterministic (Loc_Basic a) ≠ x.
Proof using hash_inj. intros [(b & ->)|(b & i & ->)] Heq; by apply hash_inj in Heq. Qed.

Local Abbreviation basic_hash a := (hash_deterministic (Loc_Basic a)).

Definition chain_account (a : Address) : option AccountInfo := match basic_ref a with Ok o => o | Err _ => None end.

Definition mem_basic (m : MvMemory) (t : TxIdx) (a : Address) : option (Z * Z) :=
  resolve ((fun i => (ai_balance i, ai_nonce i)) <$> chain_account a) (below m t (basic_hash a)).

Definition mem_code (m : MvMemory) (t : TxIdx) (a : Address) : option Z :=
  match below m t (hash_deterministic (Loc_CodeHash a)) with
  | (_, Data _ (LV_CodeHash h)) :: _ => Some h
  | _ => ai_code_hash <$> chain_account a
  end.

(** The code that belongs to a code hash. *)
Definition mem_bytecode (m : MvMemory) (h : option Z) : result Bytecode ReadError :=
  match h with Some h' => code_of_hash m h' | None => Ok Bytecode_default end.

Definition absolute (e : TxIdx * Entry) : Prop := match e.2 with Data _ (LV_Basic _) => True | _ => False end.

(** A memory without lazily sending transactions. *)
Record resolvable_below (m : MvMemory) (t : TxIdx) : Prop := mkResolvable {
  rb_entries : forall a, Forall resolvable (below m t (basic_hash a));
  rb_absolute : forall a, chain_account a = None -> Forall absolute (below m t (basic_hash a));
}.

Context (chain_typed : forall a i, chain_account a = Some i -> info_typed i).

(** What a transaction knows of the accounts it has read is what the memory holds. *)
Record db_reads (m : MvMemory) (d : VmDB) : Prop := mkDbReads {
  dr_ok : db_ok hash_deterministic d;
  dr_lazy : is_lazy d = false;
  dr_accounts : forall a meta, read_accounts d !! basic_hash a = Some meta ->
    mem_basic m (db_tx_idx d) a = Some (meta_balance meta, meta_nonce meta);
  dr_to : forall a, to_hash d = Some (basic_hash a) -> to_code_hash d = mem_code m (db_tx_idx d) a;
}.

Lemma push_origin_accounts (loc : LocationHash) (o : ReadOrigin) (d d' : VmDB) (u : unit) :
  push_origin loc o d = Ok (u, d') -> read_accounts d' = read_accounts d.
Proof. unfold push_origin. intros Hp. repeat case_match; by simplify_eq. Qed.

Lemma code_hash_in_storage_mem (a : Address) (h : option Z) (d d' : VmDB) :
  code_hash_in_storage hash_deterministic a d = Ok (h, d') ->
  h = ai_code_hash <$> chain_account a /\ read_accounts d' = read_accounts d.
Proof.
  intros Hb. unfold code_hash_in_storage in Hb. apply bind_Ok in Hb as ([] & d2 & Hp & Hb).
  apply bind_Ok in Hb as (x & d3 & Hx & Hb). apply from_db_Ok in Hx as [Hx ->]. unfold chain_account. rewrite Hx.
  injection Hb as <- <-. split; [done|]. by eapply push_origin_accounts.
Qed.

Lemma get_code_hash_mem (m : MvMemory) (a : Address) (h : option Z) (d d' : VmDB) :
  get_code_hash hash_deterministic m a d = Ok (h, d') ->
  h = mem_code m (db_tx_idx d) a /\ read_accounts d' = read_accounts d.
Proof.
  intros Hg. unfold get_code_hash in Hg. unfold mem_code. pose proof (code_hash_in_storage_mem a h d d') as Hstore.
  destruct (below m _ _) as [|[t [inc v|]] l]; [by apply Hstore| |by apply Hstore].
  destruct v; try done; try (by apply Hstore). apply bind_Ok in Hg as ([] & d2 & Hp & Hb). injection Hb as <- <-.
  split; [done|]. by eapply push_origin_accounts.
Qed.

Lemma scan_absolute (prev : list ReadOrigin) (iter : list (TxIdx * Entry)) (acc acc' : LazyScan) :
  Forall absolute iter -> scan_lazy prev iter acc = Ok acc' -> scan_account acc' = None -> acc' = acc.
Proof.
  intros [|[t e] l He _]; cbn; [by intros [= <-]|]. destruct e as [inc v|]; [|done]. destruct v; try done.
  repeat case_match; try done. by intros [= <-].
Qed.

(** The scan and the fallback together. *)
Lemma scan_mem (m : MvMemory) (t : TxIdx) (a : Address) (prev : list ReadOrigin) (scan scan' : LazyScan) :
  resolvable_below m t ->
  scan_lazy prev (below m t (basic_hash a)) (mkLazyScan None I257.NEGATIVE_ZERO 0 []) = Ok scan ->
  scan_storage a prev scan = Ok scan' ->
  nonce_addition scan' = 0 /\ pending (balance_addition scan') /\
  (forall i, scan_account scan' = Some i -> info_typed i) /\
  mem_basic m t a = (fun i => (Z.min U256_MAX (ai_balance i + I257.to_Z (balance_addition scan')), ai_nonce i))
    <$> scan_account scan'.
Proof using chain_typed.
  intros [Hent Habs] Hs Hst. set (base := (fun i => (ai_balance i, ai_nonce i)) <$> chain_account a).
  assert (Hbase : forall b n, base = Some (b, n) -> in_range 256 b /\ in_range 64 n).
  { intros b n Hb. unfold base in Hb. destruct (chain_account a) as [i|] eqn:Hi; [|done]. cbn in Hb. simplify_eq.
    exact (chain_typed _ _ Hi). }
  destruct (scan_lazy_resolve prev _ (mkLazyScan None I257.NEGATIVE_ZERO 0 []) scan base (Hent a) Hbase eq_refl
    pending_zero eq_refl Hs) as (Hp & Hna & Heq & Ht).
  assert (Hmem : add_pending (I257.to_Z (balance_addition scan)) <$>
      (match scan_account scan with Some i => Some (ai_balance i, ai_nonce i) | None => base end) = mem_basic m t a).
  { rewrite <- Heq. unfold mem_basic. fold base. destruct (resolve base _) as [[b n]|] eqn:Hr; [|done]. cbn. f_equal.
    destruct (resolve_typed _ _ _ _ (Hent a) Hbase Hr) as [Hb _]. unfold add_pending. cbn. f_equal.
    unfold in_range in Hb. change U256_MAX with (2 ^ 256 - 1). lia. }
  unfold scan_storage in Hst. destruct (scan_account scan) as [i|] eqn:Hi.
  { simplify_eq. rewrite Hi in *. split; [done|]. split; [done|]. split; [done|]. by rewrite <- Hmem. }
  destruct (negb _ && _); [done|]. unfold base, chain_account in *. destruct (basic_ref a) as [[i|]|] eqn:Hba; [| |done].
  - simplify_eq/=. split; [done|]. split; [done|]. split; [|by rewrite <- Hmem].
    intros i' [= <-]. apply (chain_typed a). unfold chain_account. by rewrite Hba.
  - assert (scan = mkLazyScan None I257.NEGATIVE_ZERO 0 []) as ->.
    { eapply scan_absolute; [apply (Habs a)|exact Hs|exact Hi]. unfold chain_account. by rewrite Hba. }
    cbn in Hst. simplify_eq/=. split; [done|]. split; [done|]. split; [done|]. by rewrite <- Hmem.
Qed.

Lemma find_code_mem (m : MvMemory) (h : option Z) (c : Bytecode) (d d' : VmDB) :
  find_code m h d = Ok (c, d') -> mem_bytecode m h = Ok c /\ d' = d.
Proof. unfold find_code, mem_bytecode. intros Hf. repeat case_match; by simplify_eq. Qed.

Lemma finish_basic_mem (m : MvMemory) (a : Address) (account : AccountInfo) (scan : LazyScan) (ans : option AccountInfo)
    (d d' : VmDB) :
  info_typed account -> nonce_addition scan = 0 -> pending (balance_addition scan) ->
  (forall b, to_hash d = Some (basic_hash b) -> to_code_hash d = mem_code m (db_tx_idx d) b) ->
  finish_basic hash_deterministic m m a (basic_hash a) account scan d = Ok (ans, d') ->
  let b := Z.min U256_MAX (ai_balance account + I257.to_Z (balance_addition scan)) in
  let h := mem_code m (db_tx_idx d) a in
  (exists c, mem_bytecode m h = Ok c /\ ans = Some (mkAccountInfo b (ai_nonce account) (default KECCAK_EMPTY h) (Some c))) /\
  exists meta, meta_balance meta = b /\ meta_nonce meta = ai_nonce account /\
    read_accounts d' = <[basic_hash a := meta]> (read_accounts d).
Proof using chain_typed.
  intros [Hb Hn] Hna Hp Hto Hf. cbn zeta. unfold finish_basic in Hf.
  assert (Hnonce : wrapping 64 (ai_nonce account + nonce_addition scan) = ai_nonce account).
  { rewrite Hna, Z.add_0_r. unfold wrapping. unfold in_range in Hn. apply Z.mod_small. lia. }
  assert (Hbal : I257.abs_value (I257.add (balance_addition scan) (I257.from_U256 (ai_balance account))) =
    Z.min U256_MAX (ai_balance account + I257.to_Z (balance_addition scan))).
  { destruct (pending_add _ _ Hp Hb) as [[Hw Hpos] Hz]. rewrite I257.abs_value_to_Z by done. lia. }
  rewrite Hnonce, Hbal in Hf. destruct (check_nonce d _ _); [|done].
  apply bind_Ok in Hf as (h & d1 & Hh & Hf). apply bind_Ok in Hf as (c & d2 & Hc & Hf).
  apply find_code_mem in Hc as [Hc ->]. apply bind_Ok in Hf as ([] & d3 & Hi & Hf).
  assert (Hcode : h = mem_code m (db_tx_idx d) a /\ read_accounts d1 = read_accounts d).
  { case_decide as Ht; [|by apply get_code_hash_mem]. injection Hh as <- <-. split; [|done]. by apply Hto. }
  destruct Hcode as [-> Hra]. unfold insert_account in Hi. injection Hi as <-. injection Hf as <- <-. split; [by exists c|].
  cbn [read_accounts]. rewrite Hra. eexists. split; [|split; [|done]]; by destruct (mem_code m _ a).
Qed.

(** A read of an account. *)
Lemma basic_mem (m : MvMemory) (a : Address) (ans : option AccountInfo) (d d' : VmDB) :
  resolvable_below m (db_tx_idx d) -> db_reads m d ->
  basic hash_deterministic m m m a d = Return (Ok (ans, d')) ->
  db_reads m d' /\
  match mem_basic m (db_tx_idx d) a with
  | Some (b, n) => exists c, mem_bytecode m (mem_code m (db_tx_idx d) a) = Ok c /\
      ans = Some (mkAccountInfo b n (default KECCAK_EMPTY (mem_code m (db_tx_idx d) a)) (Some c))
  | None => ans = None
  end.
Proof using hash_inj chain_typed.
  intros Hrb [Hok Hl Hacc Hto] Hb. destruct (basic_grows _ no_collision _ _ _ _ _ _ _ Hok Hb) as [He Hok'].
  unfold basic in Hb. rewrite hash_basic_ok in Hb by done. rewrite Hl in Hb. cbn [andb] in Hb. injection Hb as Hb.
  unfold basic_at in Hb. rewrite visible_below in Hb.
  destruct (scan_lazy _ _ _) as [scan|] eqn:Hs; [|done]. destruct (scan_storage a _ scan) as [scan'|] eqn:Hst; [|done].
  destruct (scan_mem m (db_tx_idx d) a _ _ _ Hrb Hs Hst) as (Hna & Hp & Ht & Hmem). rewrite Hmem.
  set (d1 := if bool_decide _ then _ else d) in Hb.
  assert (Hd1 : db_tx_idx d1 = db_tx_idx d /\ to_hash d1 = to_hash d /\ to_code_hash d1 = to_code_hash d /\
    read_accounts d1 = read_accounts d) by (unfold d1; by case_bool_decide).
  destruct Hd1 as (Hd1 & Hd2 & Hd3 & Hd4). destruct He as (E1 & _ & _ & E4 & E5 & E6 & _).
  assert (Hrest : forall accts, read_accounts d' = accts ->
    (forall b meta, accts !! basic_hash b = Some meta -> mem_basic m (db_tx_idx d) b = Some (meta_balance meta, meta_nonce meta)) ->
    db_reads m d').
  { intros accts <- Ha. constructor; [done|congruence|by rewrite E1|]. intros b Hb'. rewrite E5, E1. apply Hto. congruence. }
  destruct (scan_account scan') as [account|] eqn:Ha.
  - apply finish_basic_mem in Hb; [|by apply Ht|done|done|by rewrite Hd1, Hd2, Hd3]. rewrite Hd1 in Hb.
    destruct Hb as [Hans (meta & Hmb & Hmn & Hra)]. split; [|done]. eapply Hrest; [exact Hra|]. rewrite Hd4.
    intros b meta' [[Heq <-]|[_ Hm]]%lookup_insert_Some; [|by apply Hacc].
    apply hash_inj in Heq as [= <-]. rewrite Hmem. cbn. by rewrite Hmb, Hmn.
  - injection Hb as <- <-. split; [|done]. by eapply Hrest.
Qed.

Lemma storage_mem (m : MvMemory) (a : Address) (i x : Z) (d d' : VmDB) :
  db_reads m d -> storage_read hash_deterministic m a i d = Ok (x, d') ->
  db_reads m d' /\ db_tx_idx d' = db_tx_idx d /\
  match below m (db_tx_idx d) (hash_deterministic (Loc_Storage a i)) with
  | (_, Data _ (LV_Storage v)) :: _ => x = v
  | [] => storage_ref a i = Ok x
  | _ => False
  end.
Proof using hash_inj.
  intros [Hok Hl Hacc Hto] Hs. destruct (storage_grows _ _ _ _ _ _ _ Hok Hs) as [(E1 & _ & _ & E4 & E5 & E6 & _) Hok'].
  unfold storage_read in Hs. rewrite visible_below in Hs.
  assert (Hr : read_accounts d' = read_accounts d /\
    match below m (db_tx_idx d) (hash_deterministic (Loc_Storage a i)) with
    | (_, Data _ (LV_Storage v)) :: _ => x = v
    | [] => storage_ref a i = Ok x
    | _ => False
    end).
  { destruct (below m _ _) as [|[t [inc v|]] l]; [| |done].
    - apply bind_Ok in Hs as ([] & d1 & Hp & Hs). apply from_db_Ok in Hs as [Hs ->]. split; [|done].
      by eapply push_origin_accounts.
    - destruct v; try done. apply bind_Ok in Hs as ([] & d1 & Hp & Hs). injection Hs as <- <-. split; [|done].
      by eapply push_origin_accounts. }
  destruct Hr as [Hr Hx]. split; [|done]. constructor; [done|congruence|by rewrite Hr, E1|].
  intros b Hb. rewrite E5, E1. apply Hto. congruence.
Qed.

(** ** Views that agree with the memory *)

(** A view that loads the code of an account with the account. *)
Definition load_code (v : DbView) (i : AccountInfo) : AccountInfo :=
  match view_code v (ai_code_hash i) with
  | Ok c => mkAccountInfo (ai_balance i) (ai_nonce i) (ai_code_hash i) (Some c)
  | Err _ => i
  end.

Definition loaded (v : DbView) : DbView :=
  mkDbView (fun a => result_bind (view_basic v a) (fun o => Ok (load_code v <$> o))) (view_code v) (view_storage v)
    (view_block_hash v).

Context (code_of : Z -> Bytecode).

(** The memory [m] below [t] and the view [v] give the same accounts, slots and
    block hashes, and the view has the codes of its accounts. *)
Record agree (m : MvMemory) (t : TxIdx) (v : DbView) : Prop := mkAgree {
  ag_resolvable : resolvable_below m t;
  ag_basic : forall a, match mem_basic m t a with
    | Some (b, n) => exists i, view_basic v a = Ok (Some i) /\ ai_balance i = b /\ ai_nonce i = n /\
        ai_code_hash i = default KECCAK_EMPTY (mem_code m t a)
    | None => view_basic v a = Ok None /\ mem_code m t a = None
    end;
  ag_code : forall a i, view_basic v a = Ok (Some i) -> view_code v (ai_code_hash i) = Ok (code_of (ai_code_hash i));
  ag_chain_code : forall h c, code_by_hash_ref h = Ok c -> view_code v h = Ok c;
  ag_storage : forall a i, match below m t (hash_deterministic (Loc_Storage a i)) with
    | (_, Data _ (LV_Storage x)) :: _ => view_storage v a i = Ok x
    | [] => view_storage v a i = storage_ref a i
    | _ => False
    end;
  ag_block_hash : forall n, view_block_hash v n = block_hash_ref n;
}.

Context (empty_code : code_of KECCAK_EMPTY = Bytecode_default).
Context (chain_codes : forall h c, code_by_hash_ref h = Ok c -> c = code_of h).

(** A program that runs through on the memory runs through on the view, with the
    same result. *)
Lemma run_prog_view {A : Type} (m : MvMemory) (t : TxIdx) (v : DbView) (p : Prog A) (k : nat) (d d' : VmDB) (x : A) :
  agree m t v -> (forall h c, new_bytecodes m !! h = Some c -> c = code_of h) -> db_reads m d -> db_tx_idx d = t ->
  run_prog hash_deterministic (fun _ => m) k p d = Return (Ok (x, d')) ->
  run_view (loaded v) p = Ok x /\ db_reads m d' /\ db_tx_idx d' = t.
Proof using hash_inj chain_typed empty_code chain_codes.
  intros Hag Hcodes. revert k d. induction p as [y|a cont IH|h cont IH|a i cont IH|n cont IH]; intros k d Hd Ht Hr;
    cbn [run_prog] in Hr; cbn [run_view].
  - by simplify_eq.
  - destruct (basic _ _ _ _ a d) as [[[ans d1]|]| |] eqn:Hb; try done.
    destruct (basic_grows _ no_collision _ _ _ _ _ _ _ (dr_ok _ _ Hd) Hb) as [(E1 & _) _].
    destruct (basic_mem m a ans d d1 ltac:(rewrite Ht; apply Hag) Hd Hb) as [Hd1 Hans]. rewrite Ht in Hans.
    assert (Hv : view_basic (loaded v) a = Ok ans); [|rewrite Hv; cbn; eapply IH; [done|congruence|done]].
    pose proof (ag_basic _ _ _ Hag a) as Hba. cbn [loaded view_basic].
    destruct (mem_basic m t a) as [[b n]|]; [|destruct Hba as [-> _]; by subst].
    destruct Hba as (i & Hvi & <- & <- & Hh). rewrite Hvi. cbn. destruct Hans as (c & Hc & ->). do 2 f_equal. unfold load_code.
    rewrite (ag_code _ _ _ Hag _ _ Hvi), Hh. do 2 f_equal. unfold mem_bytecode, code_of_hash in Hc.
    destruct (mem_code m t a) as [h|]; cbn; [|by rewrite empty_code; injection Hc as <-].
    destruct (new_bytecodes m !! h) as [c'|] eqn:Hnb; [injection Hc as <-; symmetry; by apply Hcodes|].
    destruct (code_by_hash_ref h) as [c'|] eqn:Hch; [|done]. cbn in Hc. injection Hc as <-. symmetry. by apply chain_codes.
  - unfold code_by_hash, from_db in Hr. destruct (code_by_hash_ref h) as [c|] eqn:Hc; [|done].
    cbn [loaded view_code]. rewrite (ag_chain_code _ _ _ Hag _ _ Hc). cbn. by eapply IH.
  - destruct (storage_read _ _ a i d) as [[y d1]|] eqn:Hs; [|done].
    destruct (storage_mem _ _ _ _ _ _ Hd Hs) as (Hd1 & E1 & Hx). rewrite Ht in *.
    assert (Hv : view_storage (loaded v) a i = Ok y); [|rewrite Hv; cbn; by eapply IH].
    pose proof (ag_storage _ _ _ Hag a i) as Hst. cbn [loaded view_storage].
    destruct (below m t _) as [|[u [inc w|]] l]; [congruence| |done]. destruct w; try done. congruence.
  - unfold block_hash, from_db in Hr. destruct (block_hash_ref n) as [y|] eqn:Hn; [|done].
    cbn [loaded view_block_hash]. rewrite (ag_block_hash _ _ _ Hag), Hn. cbn. by eapply IH.
Qed.
End Answers.

(** ** The write set against the committed state *)

Section Writes.
Context `{Revm} `{!DatabaseRef} `{!Evm}.
Context (hash_deterministic : Location -> LocationHash) (evm_env : EvmEnv).
Context (hash_inj : forall l l', hash_deterministic l = hash_deterministic l' -> l = l').

Local Abbreviation basic_hash a := (hash_deterministic (Loc_Basic a)).
Local Abbreviation writes db st := (write_state hash_deterministic evm_env db st ∅).1.

Lemma write_state_absent (db : VmDB) (st : EvmState) (l : Location) :
  st !! loc_address l = None -> writes db st !! hash_deterministic l = None.
Proof using hash_inj.
  intros Hst. unfold write_state.
  destruct (write_state_owner hash_deterministic evm_env db (loc_address l) (hash_deterministic l) (map_to_list st) (∅, ∅))
    as (acc' & _ & Heq).
  - intros acc b ac Hb. by apply write_account_other.
  - apply NoDup_fst_map_to_list.
  - rewrite list_to_map_to_list, Hst in Heq. rewrite Heq. apply lookup_empty.
Qed.

(** An account the EVM has only loaded. *)
Lemma write_state_untouched (db : VmDB) (st : EvmState) (l : Location) (account : Account) :
  st !! loc_address l = Some account -> is_selfdestructed account = false -> is_touched account = false ->
  changed_storage_slots account = [] -> writes db st !! hash_deterministic l = None.
Proof using hash_inj.
  intros Hst Hsd Ht Hc. destruct (write_state_at _ evm_env hash_inj db st ∅ l account Hst) as ([ws bc] & Hnone & ->).
  unfold write_account. rewrite Hsd, Ht, Hc. exact Hnone.
Qed.

(** When the account's entry is written. *)
Definition info_written (db : VmDB) (a : Address) (account : Account) : bool :=
  let read_account := read_accounts db !! basic_hash a in
  (negb (is_empty_code_hash (ai_code_hash (info account))) && was_without_code read_account)
  || (basic_hash a =? from_hash db) || bool_decide (read_account = None) || meta_changed read_account (info account).

(** The account is not one the fork clears. *)
Definition kept (account : Account) : Prop :=
  negb (is_enabled_in (spec evm_env) SPURIOUS_DRAGON) || negb (account_is_empty account) = true.

Lemma write_state_basic (db : VmDB) (st : EvmState) (a : Address) (account : Account) :
  st !! a = Some account -> is_selfdestructed account = false -> is_touched account = true -> is_lazy db = false ->
  kept account ->
  writes db st !! basic_hash a = if info_written db a account then Some (LV_Basic (info account)) else None.
Proof using hash_inj.
  intros Hst Hsd Ht Hl Hk.
  destruct (write_state_at _ evm_env hash_inj db st ∅ (Loc_Basic a) account Hst) as ([ws bc] & Hnone & ->).
  unfold write_account. rewrite Hsd, Ht. cbn [loc_address] in *.
  destruct (write_code _ _ _ _ _) as [ws1 b1] eqn:Hwc. cbn [fst]. rewrite write_slots_other by (by right || done).
  change ws1 with (ws1, b1).1. rewrite <- Hwc, write_code_other by done. cbn [fst] in *. unfold write_info.
  rewrite Hl. unfold kept in Hk. rewrite Hk. fold (info_written db a account). destruct (info_written db a account); [|done].
  rewrite lookup_insert_eq. by destruct (info account).
Qed.

Lemma write_state_code (db : VmDB) (st : EvmState) (a : Address) (account : Account) :
  st !! a = Some account -> is_selfdestructed account = false -> is_touched account = true ->
  writes db st !! hash_deterministic (Loc_CodeHash a) =
  if negb (is_empty_code_hash (ai_code_hash (info account))) && was_without_code (read_accounts db !! basic_hash a)
  then Some (LV_CodeHash (ai_code_hash (info account))) else None.
Proof using hash_inj.
  intros Hst Hsd Ht.
  destruct (write_state_at _ evm_env hash_inj db st ∅ (Loc_CodeHash a) account Hst) as ([ws bc] & Hnone & ->).
  unfold write_account. rewrite Hsd, Ht. cbn [loc_address] in *. unfold write_code. cbn [fst] in Hnone.
  destruct (negb _ && _); cbn [fst]; rewrite write_slots_other by (by right || done).
  - apply lookup_insert_eq.
  - by rewrite write_info_other.
Qed.

Lemma write_state_slot (db : VmDB) (st : EvmState) (a : Address) (account : Account) (i : Z) (slot : StorageSlot) :
  st !! a = Some account -> is_selfdestructed account = false -> NoDup (changed_storage_slots account).*1 ->
  (i, slot) ∈ changed_storage_slots account ->
  writes db st !! hash_deterministic (Loc_Storage a i) = Some (LV_Storage (present_value slot)).
Proof using hash_inj.
  intros Hst Hsd Hnd Hin.
  destruct (write_state_at _ evm_env hash_inj db st ∅ (Loc_Storage a i) account Hst) as ([ws bc] & _ & ->).
  unfold write_account. rewrite Hsd. cbn [loc_address]. destruct (if is_touched account then _ else _) as [ws1 b1].
  cbn [fst]. by apply write_slots_own.
Qed.

Lemma write_slots_none (a : Address) (slots : list (Z * StorageSlot)) (ws : gmap LocationHash LocationValue) (i : Z) :
  i ∉ slots.*1 -> foldl (write_slot hash_deterministic a) ws slots !! hash_deterministic (Loc_Storage a i) =
  ws !! hash_deterministic (Loc_Storage a i).
Proof using hash_inj.
  revert ws. induction slots as [|[j s] slots IH]; intros ws Hi; [done|]. rewrite fmap_cons in Hi.
  apply not_elem_of_cons in Hi as [Hne Hi]. cbn [foldl]. rewrite (IH _ Hi). apply lookup_insert_ne.
  intros [= Heq]%hash_inj. by apply Hne.
Qed.

Lemma write_state_no_slot (db : VmDB) (st : EvmState) (a : Address) (account : Account) (i : Z) :
  st !! a = Some account -> is_selfdestructed account = false -> i ∉ (changed_storage_slots account).*1 ->
  writes db st !! hash_deterministic (Loc_Storage a i) = None.
Proof using hash_inj.
  intros Hst Hsd Hin.
  destruct (write_state_at _ evm_env hash_inj db st ∅ (Loc_Storage a i) account Hst) as ([ws bc] & Hnone & ->).
  unfold write_account. rewrite Hsd. cbn [loc_address] in *. destruct (if is_touched account then _ else _) as [ws1 b1] eqn:Hw.
  cbn [fst] in *. rewrite write_slots_none by done. destruct (is_touched account); [|by simplify_eq].
  change ws1 with (ws1, b1).1. rewrite <- Hw, write_code_other by done. cbn [fst]. by rewrite write_info_other.
Qed.

End Writes.

(** ** The evaluation at the end of the block *)

Section Evaluated.
Context `{Revm} `{!DatabaseRef} `{!Evm}.
Context (hash_deterministic : Location -> LocationHash) (evm_env : EvmEnv) (txs : list TxEnv).
Context (m : MvMemory) (a : Address).

Local Abbreviation at_ t := (entry m (hash_deterministic (Loc_Basic a)) t).
Local Abbreviation before t := (below m t (hash_deterministic (Loc_Basic a))).

Context (entries_resolvable : forall t e, at_ t = Some e -> resolvable (t, e)).
Context (entries_absolute : forall t e, chain_account a = None -> at_ t = Some e -> absolute (t, e)).

(** The evaluation starts from the chain's account unless the first entry is
    absolute. *)
Lemma eval_base_first (t k : nat) (e : Entry) (b n ch : Z) :
  eval_base a (reverse (before (S t + k))) = (b, n, ch) -> before t = [] -> at_ t = Some e ->
  absolute (t, e) \/ (fun i => (ai_balance i, ai_nonce i)) <$> chain_account a = Some (b, n).
Proof using entries_absolute.
  intros Hb Hn He. destruct (before_first hash_deterministic m a t k e Hn He) as [l Hl]. rewrite Hl in Hb.
  destruct (chain_account a) as [i|] eqn:Hc; [|left; by apply entries_absolute].
  unfold eval_base in Hb. unfold chain_account in Hc. destruct (basic_ref a) as [o|]; [subst o|done].
  destruct e as [inc v|]; [|right; cbn in *; congruence]. destruct v; try (right; cbn in *; congruence). by left.
Qed.

Lemma eval_fold_length (ch : Z) (code : Bytecode) (l : list (TxIdx * Entry)) (acc acc' : (Z * Z) * list TxExecutionResult) :
  step_fold (eval_step evm_env txs a ch code) l acc = Return (Ok acc') -> length acc'.2 = length acc.2.
Proof using.
  apply (step_fold_inv (fun x => length x.2 = length acc.2)); [|done].
  intros [bn r1] [i e] [bn' r2] Hr. unfold eval_step. cbn [snd] in *.
  destruct (txs !! i) as [tx|]; [|done]. destruct (eval_entry tx bn e) as [[bn1|]| |]; try done.
  cbn [step_bind]. destruct (check_caller_nonce _ _ _ _) as [[u|]| |]; try done. cbn [step_bind].
  destruct (r1 !! i) as [r|]; [|done]. intros [= <- <-]. by rewrite length_insert.
Qed.

(** What the evaluation has done below [N]. *)
Record evaluated (ch : Z) (code : Bytecode) (bn0 : Z * Z) (rs0 : list TxExecutionResult) (N : nat)
    (acc : (Z * Z) * list TxExecutionResult) : Prop := mkEvaluated {
  ev_numbers : match before N with [] => acc.1 = bn0 | _ => mem_basic hash_deterministic m N a = Some acc.1 end;
  ev_results : forall t r', acc.2 !! t = Some r' -> exists r, rs0 !! t = Some r /\
    match at_ t with
    | Some _ => if decide (t < N)%nat then exists bn, mem_basic hash_deterministic m (S t) a = Some bn /\
                  r' = put_account evm_env a ch code bn r
                else r' = r
    | None => r' = r
    end;
}.

Lemma eval_step_numbers (N : nat) (tx : TxEnv) (e : Entry) (bn0 bn bn' : Z * Z) :
  at_ N = Some e ->
  (before N = [] -> absolute (N, e) \/ (fun i => (ai_balance i, ai_nonce i)) <$> chain_account a = Some bn0) ->
  match before N with [] => bn = bn0 | _ => mem_basic hash_deterministic m N a = Some bn end ->
  eval_entry tx bn e = Return (Ok bn') -> mem_basic hash_deterministic m (S N) a = Some bn'.
Proof using entries_resolvable.
  intros He Hbase Hbn Hev. unfold mem_basic. rewrite below_S, He. pose proof (entries_resolvable _ _ He) as Hr.
  destruct e as [inc v|]; [|done]. destruct bn as [b n]. destruct v as [i| | |x| |]; try done; cbn [eval_entry] in Hev; cbn [resolve].
  - by destruct (_ && _); simplify_eq.
  - simplify_eq. unfold mem_basic in Hbn. destruct (before N) as [|p l] eqn:Hb; [|by rewrite Hbn].
    cbn [resolve]. destruct (Hbase eq_refl) as [?|Hc]; [done|]. by rewrite Hc, <- Hbn.
Qed.

Lemma eval_evaluated (ch : Z) (code : Bytecode) (b n : Z) (rs0 : list TxExecutionResult) (k N : nat)
    (acc : (Z * Z) * list TxExecutionResult) :
  eval_base a (reverse (before (N + k))) = (b, n, ch) ->
  step_fold (eval_step evm_env txs a ch code) (reverse (before N)) ((b, n), rs0) = Return (Ok acc) ->
  evaluated ch code (b, n) rs0 N acc.
Proof using entries_resolvable entries_absolute.
  revert k acc. induction N as [|N IH]; intros k acc Hbase Hf.
  - assert (Hnil : before 0 = []) by (unfold below; by destruct (data m !! _)). rewrite Hnil in Hf. cbn in Hf. simplify_eq. constructor.
    + by rewrite Hnil.
    + intros t r' Hr. exists r'. split; [done|]. destruct (at_ t); [|done]. by rewrite decide_False by lia.
  - assert (Hprev : eval_base a (reverse (before (N + S k))) = (b, n, ch)) by (by rewrite Nat.add_succ_r).
    rewrite below_S in Hf. destruct (at_ N) as [e|] eqn:He.
    2: { destruct (IH _ _ Hprev Hf) as [Hn Hr]. constructor; [by unfold mem_basic in *; rewrite below_S, He|].
         intros t r' Ht. destruct (Hr _ _ Ht) as (r & Hr0 & Hx). exists r. split; [done|]. destruct (at_ t) eqn:Hat; [|done].
         assert (t ≠ N) by (intros ->; congruence). repeat case_decide; try lia; done. }
    rewrite reverse_cons, step_fold_app in Hf.
    destruct (step_fold _ (reverse (before N)) _) as [[[bn rs]|]| |] eqn:Hf0; try done. cbn [step_bind] in Hf.
    destruct (IH _ _ Hprev eq_refl) as [Hn Hr]. cbn [fst snd] in *. cbn [step_fold] in Hf. unfold eval_step in Hf.
    destruct (txs !! N) as [tx|]; [|done]. destruct (eval_entry tx bn e) as [[bn'|]| |] eqn:Hev; try done. cbn [step_bind] in Hf.
    destruct (check_caller_nonce _ _ _ _) as [[u|]| |]; try done. cbn [step_bind] in Hf.
    destruct (rs !! N) as [rN|] eqn:HrN; [|done]. cbn [step_bind] in Hf. injection Hf as <-.
    assert (Hnew : mem_basic hash_deterministic m (S N) a = Some bn').
    { eapply eval_step_numbers; [done| |exact Hn|exact Hev]. intros Hnil. by apply (eval_base_first N k e b n ch). }
    constructor; cbn [fst snd].
    + by rewrite below_S, He.
    + intros t r' Ht. apply list_lookup_insert_Some in Ht as [(-> & <- & _)|[Hne Ht]].
      * destruct (Hr _ _ HrN) as (r & Hr0 & Hx). exists r. split; [done|]. rewrite He, decide_True in * by lia.
        rewrite decide_False in Hx by lia. subst rN. by exists bn'.
      * destruct (Hr _ _ Ht) as (r & Hr0 & Hx). exists r. split; [done|]. destruct (at_ t); [|done]. repeat case_decide; try lia; done.
Qed.

(** The account as the memory has it after transaction [t] goes into the state of
    [t], where [t] has changed it. *)
Lemma eval_address_states (rs rs' : list TxExecutionResult) :
  eval_address hash_deterministic evm_env txs m rs a = Return (Ok rs') ->
  exists ch code, forall t r', rs' !! t = Some r' -> exists r, rs !! t = Some r /\
    match at_ t with
    | Some _ => exists bn, mem_basic hash_deterministic m (S t) a = Some bn /\ r' = put_account evm_env a ch code bn r
    | None => r' = r
    end.
Proof using entries_resolvable entries_absolute.
  unfold eval_address. destruct (data m !! _) as [w|] eqn:Hw.
  2: { intros [= <-]. exists 0, Bytecode_default. intros t r' Hr. exists r'. split; [done|]. unfold entry. by rewrite Hw. }
  set (N := S (max_list (map_to_list w).*1)). unfold history. fold N.
  assert (Hb : range_below w N = before N) by (unfold below; by rewrite Hw). rewrite Hb.
  destruct (eval_base _ _) as [[b n] ch] eqn:Hbase. destruct (code_by_hash_ref ch) as [code|]; [|done].
  destruct (step_fold _ _ _) as [[acc|]| |] eqn:Hf; try done. intros [= <-]. exists ch, code. intros t r' Hr.
  rewrite <- (Nat.add_0_r N) in Hbase. destruct (eval_evaluated _ _ _ _ _ _ _ _ Hbase Hf) as [_ Hres].
  destruct (Hres _ _ Hr) as (r & Hr0 & Hx). exists r. split; [done|]. destruct (at_ t) as [e|] eqn:He; [|done].
  rewrite decide_True in Hx; [done|]. unfold entry in He. rewrite Hw in He. cbn in He. unfold N.
  assert (Hin : t ∈ (map_to_list w).*1).
  { apply list_elem_of_fmap. exists (t, e). split; [done|]. by apply elem_of_map_to_list. }
  apply max_list_elem_of_le in Hin. lia.
Qed.

(** The evaluation goes through: the entries are of the block, no account is written
    empty, and the nonces of the callers are one above those of their
    transactions. *)
Lemma eval_address_returns (rs : list TxExecutionResult) :
  (forall t e, at_ t = Some e -> (t < length txs)%nat) ->
  (forall t inc i, at_ t = Some (Data inc (LV_Basic i)) -> ai_balance i ≠ 0 \/ ai_nonce i ≠ 0) ->
  (forall t tx e, at_ t = Some e -> txs !! t = Some tx -> caller tx = a ->
     0 <= nonce tx /\ exists b, mem_basic hash_deterministic m (S t) a = Some (b, nonce tx + 1)) ->
  (exists c, code_by_hash_ref KECCAK_EMPTY = Ok c) ->
  (forall i, basic_ref a = Ok (Some i) -> exists c, code_by_hash_ref (ai_code_hash i) = Ok c) ->
  length rs = length txs ->
  exists rs', eval_address hash_deterministic evm_env txs m rs a = Return (Ok rs').
Proof using entries_resolvable entries_absolute.
  intros Hblock Halive Hnonce Hke Hcode Hlen. unfold eval_address. destruct (data m !! _) as [w|] eqn:Hw; [|by eexists].
  set (N := S (max_list (map_to_list w).*1)). unfold history. fold N.
  assert (Hb : range_below w N = before N) by (unfold below; by rewrite Hw). rewrite Hb.
  destruct (eval_base _ _) as [[b n] ch] eqn:Hbase.
  assert (exists code, code_by_hash_ref ch = Ok code) as [code ->].
  { unfold eval_base in Hbase. repeat case_match; simplify_eq; first [exact Hke|by apply Hcode]. }
  enough (forall M k, (M + k = N)%nat -> exists acc,
    step_fold (eval_step evm_env txs a ch code) (reverse (before M)) ((b, n), rs) = Return (Ok acc)) as Hall.
  { destruct (Hall N 0%nat ltac:(lia)) as [acc ->]. by eexists. }
  induction M as [|M IH]; intros k HN; [unfold below; rewrite Hw; by eexists|].
  destruct (IH (S k) ltac:(lia)) as [[bn rs1] Hf]. rewrite below_S. destruct (at_ M) as [e|] eqn:He; [|by eexists].
  rewrite reverse_cons, step_fold_app, Hf. cbn [step_bind step_fold]. unfold eval_step.
  assert (Hev : evaluated ch code (b, n) rs M (bn, rs1)) by (apply (eval_evaluated ch code b n rs (S k)); [replace (M + S k)%nat with N by lia; done|done]).
  destruct (lookup_lt_is_Some_2 txs M (Hblock _ _ He)) as [tx Htx]. rewrite Htx.
  assert (exists bn', eval_entry tx bn e = Return (Ok bn')) as [bn' Hbn'].
  { pose proof (entries_resolvable _ _ He) as Hr. destruct e as [inc v|]; [|done]. destruct bn as [b1 n1].
    destruct v as [i| | |x| |]; try done; cbn [eval_entry]; [|by eexists]. apply Halive in He.
    destruct (_ && _) eqn:Hz; [lia|by eexists]. }
  rewrite Hbn'. cbn [step_bind].
  assert (check_caller_nonce tx a M bn'.2 = Return (Ok tt)) as ->.
  { unfold check_caller_nonce. destruct (Z.eqb_spec (caller tx) a) as [Hc|]; [|done].
    destruct (Hnonce _ _ _ He Htx Hc) as (Hpos & b1 & Hmem).
    assert (Hnew : mem_basic hash_deterministic m (S M) a = Some bn').
    { eapply eval_step_numbers; [done| |exact (ev_numbers _ _ _ _ _ _ Hev)|exact Hbn'].
      intros Hnil. apply (eval_base_first M k e b n ch); [|done|done]. replace (S M + k)%nat with N by lia. done. }
    rewrite Hnew in Hmem. injection Hmem as ->. cbn [snd]. destruct (Z.eqb_spec (nonce tx + 1) 0); [lia|].
    replace (nonce tx + 1 - 1) with (nonce tx) by lia. by rewrite Z.eqb_refl. }
  cbn [step_bind]. destruct (rs1 !! M) as [r|] eqn:HrM; [by eexists|]. exfalso.
  apply lookup_ge_None in HrM. apply lookup_lt_Some in Htx.
  assert (length rs1 = length rs); [|lia]. apply eval_fold_length in Hf. exact Hf.
Qed.

(** What writing the account back does to the state. *)
Lemma put_account_other (ch : Z) (code : Bytecode) (bn : Z * Z) (r : TxExecutionResult) (b : Address) :
  b ≠ a -> state (put_account evm_env a ch code bn r) !! b = state r !! b.
Proof using. intros Hne. destruct bn. unfold put_account. repeat case_match; try done; cbn; by apply lookup_insert_ne. Qed.

Lemma put_account_same (ch : Z) (code : Bytecode) (r : TxExecutionResult) (acc : Account) :
  state r !! a = Some acc ->
  state (put_account evm_env a ch code (ai_balance (info acc), ai_nonce (info acc)) r) !! a = Some acc.
Proof using.
  intros Hr. unfold put_account. destruct (_ && _); [done|]. rewrite Hr. cbn. rewrite lookup_insert_eq. by destruct acc as [[] ? ? ?].
Qed.

Lemma put_account_numbers (ch : Z) (code : Bytecode) (b n : Z) (r : TxExecutionResult) :
  (b = 0 /\ n = 0) \/ exists acc, state (put_account evm_env a ch code (b, n) r) !! a = Some acc /\
    ai_balance (info acc) = b /\ ai_nonce (info acc) = n.
Proof using.
  unfold put_account. destruct (_ && (b =? 0)) eqn:Hz; [left; lia|right].
  destruct (state r !! a) as [acc|]; cbn; rewrite lookup_insert_eq; by eexists.
Qed.

End Evaluated.
