(* ===== verification/Chain.v ===== *)
(** * Block execution in the node (crates/chain/src/provider.rs, op_provider.rs)

    [ParallelBlockExecutor] runs a block through the parallel executor and applies
    what surrounds it: changes before and after the transactions, requests,
    receipts and gas totals. The node's state and the chain's rules are [reth]'s
    and come in through the class [Reth]; the parallel executor comes in through
    the interface [BlockRunner]. *)

From S2P Require Import Prelude Types Results MvMemory VmDb Vm Executor OpVm.
Local Open Scope Z_scope.

(** ** Plain integer arithmetic

    [+] on a fixed width panics on overflow when the build checks it, and wraps
    otherwise. *)

Definition u_add (checks : bool) (w x y : Z) : outcome Z :=
  if x + y <=? uint_max w then Return (x + y)
  else if checks then Panic else Return (wrapping w (x + y)).

Fixpoint u_sum (checks : bool) (w : Z) (l : list Z) (acc : Z) : outcome Z :=
  match l with
  | [] => Return acc
  | x :: l' => match u_add checks w acc x with
               | Return acc' => u_sum checks w l' acc'
               | Panic => Panic
               | UB => UB
               end
  end.

Definition sum_Z (l : list Z) : Z := foldr Z.add 0 l.

Lemma sum_Z_pos (l : list Z) : Forall (fun x => 0 <= x) l -> 0 <= sum_Z l.
Proof. induction 1 as [|x l Hx _ IH]; [done|]. cbn [sum_Z foldr]. fold (sum_Z l). lia. Qed.

Lemma u_sum_exact (checks : bool) (w : Z) (l : list Z) (acc : Z) :
  Forall (fun x => 0 <= x) l -> acc + sum_Z l <= uint_max w -> u_sum checks w l acc = Return (acc + sum_Z l).
Proof.
  intros Hl. revert acc. induction Hl as [|x l Hx Hl IH]; intros acc Hs; cbn [u_sum sum_Z foldr] in *.
  - by rewrite Z.add_0_r.
  - fold (sum_Z l) in *. pose proof (sum_Z_pos l Hl). unfold u_add.
    rewrite (proj2 (Z.leb_le (acc + x) (uint_max w))) by lia.
    rewrite IH by lia. f_equal. lia.
Qed.

(** [value.try_into().unwrap_or(u64::MAX)]. *)
Definition u64_or_max (v : Z) : Z := if v <=? u64_MAX then v else u64_MAX.

(** ** What the node provides *)

Record BlockEnv : Type := mkBlockEnv {
  number : Z;
  timestamp : Z;
  block_beneficiary : Address;
  block_basefee : Z;
}.

Class Reth `{Revm} : Type := {
  State : Type;
  set_state_clear_flag : bool -> State -> State;
  commit_state : EvmState -> State -> State;
  increment_balances : gmap Z Z -> State -> result unit unit * State;
  drain_balances : list Address -> State -> result (list Z) unit * State;
  (** Transactions of a block. *)
  BlockTx : Type;
  blob_gas_used : BlockTx -> option Z;
  to_tx_env : BlockTx -> TxEnv;
  (** Execution-layer requests. *)
  Requests : Type;
  Requests_default : Requests;
  push_request_with_type : Z -> list Z -> Requests -> Requests;
  requests_extend : Requests -> Requests -> Requests;
  DEPOSIT_REQUEST_TYPE : Z;
  (** The phases the wrapped executor and the system calls do, with their errors. *)
  NodeError : Type;
  pre_execution_changes : State -> result unit NodeError * State;
  parse_deposits_from_receipts : list Receipt -> result (list Z) NodeError;
  apply_post_execution_changes : State -> result Requests NodeError * State;
  (** The chain's rules. *)
  CfgEnv_default_spec : SpecId;
  is_spurious_dragon_active_at_block : Z -> bool;
  is_prague_active_at_timestamp : Z -> bool;
  dao_transitions_at_block : Z -> bool;
  DAO_HARDFORK_ACCOUNTS : list Address;
  DAO_HARDFORK_BENEFICIARY : Address;
  Ommer : Type;
  Withdrawal : Type;
  post_block_balance_increments : BlockEnv -> list Ommer -> option (list Withdrawal) -> gmap Z Z;
}.

(** The interface of the parallel executor towards the block executor: it reads the
    state (whose cache the reads may fill) and returns one result per transaction
    whose receipts carry running totals. *)
Class BlockRunner `{Revm} `{!Reth} : Type := {
  run_block : EvmEnv -> list TxEnv -> State -> outcome (result (list TxExecutionResult) ParallelExecutorError * State);
  run_block_totals : forall env txs st st' rs,
    run_block env txs st = Return (Ok rs, st') -> totals_of (length txs) rs;
}.

Section Chain.
Context `{Revm} `{!Reth}.
Context (overflow_checks : bool).

Record BlockExecutionCtx : Type := mkBlockExecutionCtx {
  block : BlockEnv;
  ommers : list Ommer;
  withdrawals : option (list Withdrawal);
}.

Inductive BlockExecutionError : Type :=
| Internal (e : ParallelExecutorError)
| IncrementBalanceFailed
| FromNode (e : NodeError).

Record BlockExecutionResult (R : Type) : Type := mkBlockExecutionResult {
  receipts : list R;
  requests : Requests;
  gas_used : Z;
  block_blob_gas_used : Z;
}.
Arguments mkBlockExecutionResult {_} _ _ _ _.
Arguments receipts {_} _.
Arguments requests {_} _.
Arguments gas_used {_} _.
Arguments block_blob_gas_used {_} _.

(** A step of the block executor on the node's state. *)
Definition BE (A : Type) : Type := State -> outcome (result A BlockExecutionError * State).

#[local] Instance BE_ret : MRet BE := fun A a st => Return (Ok a, st).
#[local] Instance BE_bind : MBind BE := fun A B k m st =>
  match m st with
  | Return (Ok a, st') => k a st'
  | Return (Err e, st') => Return (Err e, st')
  | Panic => Panic
  | UB => UB
  end.

Definition node {A E : Type} (f : E -> BlockExecutionError) (op : State -> result A E * State) : BE A :=
  fun st => let '(r, st') := op st in Return (map_err f r, st').

Definition pure_outcome {A : Type} (o : outcome A) : BE A :=
  fun st => match o with Return a => Return (Ok a, st) | Panic => Panic | UB => UB end.

Definition pure_result {A E : Type} (f : E -> BlockExecutionError) (r : result A E) : BE A :=
  fun st => Return (map_err f r, st).

Definition modify_state (f : State -> State) : BE unit := fun st => Return (Ok tt, f st).

(** ** [ParallelBlockExecutor] *)

Section Ethereum.
Context `{!BlockRunner}.

(** The block's environment: the default configuration with the block. *)
Definition block_evm_env (b : BlockEnv) : EvmEnv :=
  mkEvmEnv (block_beneficiary b) (block_basefee b) CfgEnv_default_spec.

(** Consume the results: commit each state, add to the gas, keep the receipt. *)
Fixpoint commit_results {R : Type} (into_receipt : Receipt -> outcome R) (rs : list TxExecutionResult)
    (total : Z) : BE (Z * list R) :=
  match rs with
  | [] => mret (total, [])
  | r :: rs' =>
      modify_state (commit_state (state r)) ≫= fun _ =>
      pure_outcome (u_add overflow_checks 64 total (cumulative_gas_used (receipt r))) ≫= fun total' =>
      pure_outcome (into_receipt (receipt r)) ≫= fun rc =>
      commit_results into_receipt rs' total' ≫= fun '(t, rcs) => mret (t, rc :: rcs)
  end.

Definition run_transactions (env : EvmEnv) (txs : list TxEnv) : BE (list TxExecutionResult) :=
  fun st => match run_block env txs st with
            | Return (r, st') => Return (map_err Internal r, st')
            | Panic => Panic
            | UB => UB
            end.

Definition block_execute (ctx : BlockExecutionCtx) (transactions : list BlockTx) :
    BE (BlockExecutionResult Receipt) :=
  modify_state (set_state_clear_flag
    (is_spurious_dragon_active_at_block (u64_or_max (number (block ctx))))) ≫= fun _ =>
  pure_outcome (u_sum overflow_checks 64 (omap blob_gas_used transactions) 0) ≫= fun total_blob_gas_used =>
  run_transactions (block_evm_env (block ctx)) (to_tx_env <$> transactions) ≫= fun results =>
  commit_results Return results 0 ≫= fun '(total_gas_used, rcs) =>
  mret (mkBlockExecutionResult rcs Requests_default total_gas_used total_blob_gas_used).

Definition calc_requests (ctx : BlockExecutionCtx) (rcs : list Receipt) : BE Requests :=
  if is_prague_active_at_timestamp (u64_or_max (timestamp (block ctx))) then
    pure_result FromNode (parse_deposits_from_receipts rcs) ≫= fun deposit_requests =>
    let requests :=
      match deposit_requests with
      | [] => Requests_default
      | _ => push_request_with_type DEPOSIT_REQUEST_TYPE deposit_requests Requests_default
      end in
    node FromNode apply_post_execution_changes ≫= fun more =>
    mret (requests_extend more requests)
  else mret Requests_default.

(** The irregular state change of the DAO fork. *)
Definition dao_drain (increments : gmap Z Z) : BE (gmap Z Z) :=
  node (fun _ => IncrementBalanceFailed) (drain_balances DAO_HARDFORK_ACCOUNTS) ≫= fun drained =>
  pure_outcome (u_sum overflow_checks 128 drained 0) ≫= fun drained_balance =>
  pure_outcome (u_add overflow_checks 128 (default 0 (increments !! DAO_HARDFORK_BENEFICIARY)) drained_balance)
    ≫= fun b => mret (<[DAO_HARDFORK_BENEFICIARY := b]> increments).

Definition post_execution (ctx : BlockExecutionCtx) : BE unit :=
  let balance_increments := post_block_balance_increments (block ctx) (ommers ctx) (withdrawals ctx) in
  (if dao_transitions_at_block (u64_or_max (number (block ctx)))
   then dao_drain balance_increments else mret balance_increments) ≫= fun increments =>
  node (fun _ => IncrementBalanceFailed) (increment_balances increments).

Definition execute_transactions (ctx : BlockExecutionCtx) (transactions : list BlockTx) :
    BE (BlockExecutionResult Receipt) :=
  block_execute ctx transactions ≫= fun res =>
  calc_requests ctx (receipts res) ≫= fun reqs =>
  post_execution ctx ≫= fun _ =>
  mret (mkBlockExecutionResult (receipts res) reqs (gas_used res) (block_blob_gas_used res)).

Definition chain_execute_block (ctx : BlockExecutionCtx) (transactions : list BlockTx) :
    BE (BlockExecutionResult Receipt) :=
  node FromNode pre_execution_changes ≫= fun _ => execute_transactions ctx transactions.

End Ethereum.

(** ** [OpParallelBlockExecutor] *)

Inductive OpReceipt : Type :=
| OpLegacy (r : Receipt)
| OpEip2930 (r : Receipt)
| OpEip1559 (r : Receipt)
| OpEip7702 (r : Receipt).

(** The match on [TxType], whose codes are 0 to 4; blob transactions (3) panic. *)
Definition op_into_receipt (r : Receipt) : outcome OpReceipt :=
  if receipt_tx_type r =? 0 then Return (OpLegacy r)
  else if receipt_tx_type r =? 1 then Return (OpEip2930 r)
  else if receipt_tx_type r =? 2 then Return (OpEip1559 r)
  else if receipt_tx_type r =? 4 then Return (OpEip7702 r)
  else Panic.

Section Optimism.
Context `{!BlockRunner}.

Definition op_block_execute (ctx : BlockExecutionCtx) (transactions : list BlockTx) :
    BE (BlockExecutionResult OpReceipt) :=
  modify_state (set_state_clear_flag
    (is_spurious_dragon_active_at_block (u64_or_max (number (block ctx))))) ≫= fun _ =>
  pure_outcome (u_sum overflow_checks 64 (omap blob_gas_used transactions) 0) ≫= fun total_blob_gas_used =>
  run_transactions (block_evm_env (block ctx)) (to_tx_env <$> transactions) ≫= fun results =>
  commit_results op_into_receipt results 0 ≫= fun '(total_gas_used, rcs) =>
  mret (mkBlockExecutionResult rcs Requests_default total_gas_used total_blob_gas_used).

Definition op_post_execution (ctx : BlockExecutionCtx) : BE unit :=
  node (fun _ => IncrementBalanceFailed)
    (increment_balances (post_block_balance_increments (block ctx) [] None)).

Definition op_execute_transactions (ctx : BlockExecutionCtx) (transactions : list BlockTx) :
    BE (BlockExecutionResult OpReceipt) :=
  op_block_execute ctx transactions ≫= fun res =>
  op_post_execution ctx ≫= fun _ =>
  mret (mkBlockExecutionResult (receipts res) (requests res) (gas_used res) (block_blob_gas_used res)).

Definition op_chain_execute_block (ctx : BlockExecutionCtx) (transactions : list BlockTx) :
    BE (BlockExecutionResult OpReceipt) :=
  node FromNode pre_execution_changes ≫= fun _ => op_execute_transactions ctx transactions.

End Optimism.

(** ** Theory *)

Section Theory.
Context `{!BlockRunner}.

Definition gas_of (rs : list TxExecutionResult) : list Z := (fun r => cumulative_gas_used (receipt r)) <$> rs.

Definition commit_all (rs : list TxExecutionResult) (st : State) : State :=
  foldl (fun s r => commit_state (state r) s) st rs.

Lemma commit_results_run {R : Type} (f : Receipt -> outcome R) (rs : list TxExecutionResult) (total : Z)
    (st st' : State) (x : result (Z * list R) BlockExecutionError) :
  commit_results f rs total st = Return (x, st') <->
  exists t rcs, x = Ok (t, rcs) /\ u_sum overflow_checks 64 (gas_of rs) total = Return t /\
    Forall2 (fun r rc => f (receipt r) = Return rc) rs rcs /\ st' = commit_all rs st.
Proof.
  revert total st st' x. induction rs as [|r rs IH]; intros total st st' x.
  - cbn. split.
    + intros Heq. injection Heq as <- <-. exists total, []. by repeat split.
    + intros (t & rcs & -> & Ht & Hf & ->). injection Ht as <-. by inversion Hf.
  - cbn [commit_results gas_of fmap list_fmap u_sum commit_all foldl].
    unfold mbind at 1 2 3, BE_bind, modify_state, pure_outcome.
    destruct (u_add _ _ _ _) as [tot| |]; [|split; [done|by intros (?&?&?&?&_)]..].
    destruct (f (receipt r)) as [rc| |] eqn:Hf.
    2,3: split; [done|]; intros (t & rcs & _ & _ & Hall & _); inversion Hall; congruence.
    specialize (IH tot (commit_state (state r) st)).
    split.
    + unfold mbind, BE_bind. destruct (commit_results f rs tot _) as [[y s]| |] eqn:Hc; try done.
      destruct (proj1 (IH s y) eq_refl) as (t & rcs & -> & Ht & Hall & Hs).
      intros Heq. injection Heq as <- <-. exists t, (rc :: rcs). split; [done|]. split; [done|].
      split; [by constructor|done].
    + intros (t & rcs & -> & Ht & Hall & ->). inversion Hall as [|? rc' ? rcs' Hrc Hall']; subst.
      unfold mbind, BE_bind. replace rc' with rc by congruence.
      by rewrite (proj2 (IH (commit_all rs (commit_state (state r) st)) (Ok (t, rcs')))) by eauto 10.
Qed.

Lemma Forall2_receipts (rs : list TxExecutionResult) (rcs : list Receipt) :
  Forall2 (fun r rc => Return (receipt r) = Return rc) rs rcs <-> rcs = receipt <$> rs.
Proof.
  split; [induction 1; cbn; congruence|]. intros ->. induction rs; constructor; auto.
Qed.

Lemma totals_of_length (n : nat) (rs : list TxExecutionResult) : totals_of n rs -> length rs = n.
Proof.
  intros (raw & <- & Heq). apply (f_equal length) in Heq.
  by rewrite !length_fmap, accumulate_gas_length in Heq.
Qed.

(** The state the transactions run on. *)
Definition state_cleared (ctx : BlockExecutionCtx) (st : State) : State :=
  set_state_clear_flag (is_spurious_dragon_active_at_block (u64_or_max (number (block ctx)))) st.

Lemma block_execute_inv (ctx : BlockExecutionCtx) (txs : list BlockTx) (st st' : State)
    (res : BlockExecutionResult Receipt) :
  block_execute ctx txs st = Return (Ok res, st') ->
  exists rs st1, run_block (block_evm_env (block ctx)) (to_tx_env <$> txs) (state_cleared ctx st) = Return (Ok rs, st1) /\
    u_sum overflow_checks 64 (gas_of rs) 0 = Return (gas_used res) /\
    receipts res = receipt <$> rs /\ st' = commit_all rs st1.
Proof.
  unfold block_execute, mbind, BE_bind, modify_state, pure_outcome, run_transactions.
  fold (state_cleared ctx st). destruct (u_sum _ _ (omap _ _) _) as [blob| |]; try done.
  destruct (run_block _ _ _) as [[[rs|e] st1]| |]; try done. cbn [map_err].
  destruct (commit_results Return rs 0 st1) as [[x s]| |] eqn:Hc; try done.
  apply commit_results_run in Hc as (t & rcs & -> & Ht & Hall & ->). intros Heq. injection Heq as <- <-.
  apply Forall2_receipts in Hall as ->. by exists rs, st1.
Qed.

(** C25. Executing a block's transactions: when the parallel executor returns results and
    the totals fit a [u64], every result is kept as a receipt, one per transaction in
    order, and every state is committed exactly once in transaction order; when the
    executor fails, its error is reported and nothing is committed. *)
Theorem block_execute_spec (ctx : BlockExecutionCtx) (txs : list BlockTx) (st st1 : State)
    (r : result (list TxExecutionResult) ParallelExecutorError)
    (Hrun : run_block (block_evm_env (block ctx)) (to_tx_env <$> txs) (state_cleared ctx st) = Return (r, st1))
    (Hblob : Forall (fun x => 0 <= x) (omap blob_gas_used txs))
    (Hblob_fits : sum_Z (omap blob_gas_used txs) <= u64_MAX) :
  match r with
  | Err e => block_execute ctx txs st = Return (Err (Internal e), st1)
  | Ok rs =>
      length rs = length txs /\
      (Forall (fun x => 0 <= x) (gas_of rs) -> sum_Z (gas_of rs) <= u64_MAX ->
       block_execute ctx txs st =
         Return (Ok (mkBlockExecutionResult (receipt <$> rs) Requests_default (sum_Z (gas_of rs))
                       (sum_Z (omap blob_gas_used txs))), commit_all rs st1))
  end.
Proof.
  assert (Hsum : u_sum overflow_checks 64 (omap blob_gas_used txs) 0 = Return (sum_Z (omap blob_gas_used txs)))
    by (by rewrite u_sum_exact).
  unfold block_execute, mbind, BE_bind, modify_state, pure_outcome, run_transactions.
  fold (state_cleared ctx st). rewrite Hsum, Hrun. destruct r as [rs|e]; [|done]. cbn [map_err].
  split; [|intros Hpos Hfits].
  - apply run_block_totals, totals_of_length in Hrun. by rewrite length_fmap in Hrun.
  - rewrite (proj2 (commit_results_run Return rs 0 st1 (commit_all rs st1)
      (Ok (sum_Z (gas_of rs), receipt <$> rs)))); [done|].
    exists (sum_Z (gas_of rs)), (receipt <$> rs). split; [done|]. split; [by rewrite u_sum_exact|].
    split; [by apply Forall2_receipts|done].
Qed.

(** The sum of the running totals of a list of results. *)
Fixpoint running_sum (t : Z) (raw : list TxExecutionResult) : Z :=
  match raw with
  | [] => 0
  | r :: raw' => (t + cumulative_gas_used (receipt r)) + running_sum (t + cumulative_gas_used (receipt r)) raw'
  end.

Lemma running_sum_ge (raw : list TxExecutionResult) (t : Z) :
  gas_positive raw -> 0 <= t -> Z.of_nat (length raw) * t + gas_sum raw <= running_sum t raw.
Proof.
  intros Hp. revert t. induction Hp as [|r raw Hr Hp IH]; intros t Ht; [cbn; lia|].
  cbn [running_sum length gas_sum foldr]. fold (gas_sum raw).
  specialize (IH (t + cumulative_gas_used (receipt r)) ltac:(lia)). nia.
Qed.

Lemma running_sum_gt (raw : list TxExecutionResult) :
  (2 <= length raw)%nat -> Forall (fun r => 0 < cumulative_gas_used (receipt r)) raw -> gas_sum raw < running_sum 0 raw.
Proof.
  intros H2 Hlt. destruct raw as [|r1 [|r2 raw]]; [simpl in H2; lia..|].
  apply list.Forall_cons in Hlt as [Hr1 Hlt]. apply list.Forall_cons in Hlt as [Hr2 Hlt].
  cbn [running_sum gas_sum foldr]. fold (gas_sum raw).
  assert (Hp : gas_positive raw) by (eapply list.Forall_impl; [exact Hlt|]; cbn; lia).
  pose proof (running_sum_ge raw (0 + cumulative_gas_used (receipt r1) + cumulative_gas_used (receipt r2)) Hp
    ltac:(lia)). nia.
Qed.

Lemma gas_of_receipts (rs rs' : list TxExecutionResult) :
  receipt <$> rs = receipt <$> rs' -> gas_of rs = gas_of rs'.
Proof.
  intros Heq. unfold gas_of. change (fun r => cumulative_gas_used (receipt r)) with (cumulative_gas_used ∘ receipt).
  by rewrite !list_fmap_compose, Heq.
Qed.

Lemma gas_of_accumulate (raw : list TxExecutionResult) (t : Z) :
  gas_positive raw -> 0 <= t -> running_sum t raw <= u64_MAX ->
  sum_Z (gas_of (accumulate_gas t raw)) = running_sum t raw /\
  Forall (fun x => 0 <= x) (gas_of (accumulate_gas t raw)).
Proof.
  intros Hp. revert t. induction Hp as [|r raw Hr Hp IH]; intros t Ht Hfit; [done|].
  cbn [running_sum] in Hfit. set (t' := t + cumulative_gas_used (receipt r)) in *.
  pose proof (running_sum_ge raw t' Hp ltac:(lia)) as Hge. pose proof (gas_sum_pos raw Hp).
  assert (Hs : saturating_add 64 t (cumulative_gas_used (receipt r)) = t').
  { unfold saturating_add. change (uint_max 64) with u64_MAX. nia. }
  cbn [accumulate_gas running_sum]. fold t'. rewrite Hs. destruct (IH t' ltac:(lia) ltac:(lia)) as [IH1 IH2].
  cbn [gas_of fmap list_fmap set_gas receipt cumulative_gas_used]. fold (gas_of (accumulate_gas t' raw)).
  split; [cbn [sum_Z foldr]; fold (sum_Z (gas_of (accumulate_gas t' raw))); lia|constructor; [lia|done]].
Qed.

(** The gas a block reports is the sum of the running totals of its receipts, not
    the gas of the block: with the gas of the transactions [raw], the receipts hold
    the running totals, and the reported gas is the sum of those; for two or more
    transactions that use gas it exceeds the gas the block used. *)
Lemma block_gas_overcounted (ctx : BlockExecutionCtx) (txs : list BlockTx) (st st' : State)
    (res : BlockExecutionResult Receipt) (Hok : block_execute ctx txs st = Return (Ok res, st')) :
  exists raw, length raw = length txs /\ receipts res = receipt <$> accumulate_gas 0 raw /\
    (gas_positive raw -> running_sum 0 raw <= u64_MAX ->
     gas_used res = running_sum 0 raw /\
     ((2 <= length raw)%nat -> Forall (fun r => 0 < cumulative_gas_used (receipt r)) raw ->
      gas_sum raw < gas_used res)).
Proof.
  destruct (block_execute_inv _ _ _ _ _ Hok) as (rs & st1 & Hrun & Hgas & Hrc & _).
  apply run_block_totals in Hrun as (raw & Hlen & Heq). rewrite length_fmap in Hlen.
  exists raw. split; [done|]. split; [congruence|]. intros Hpos Hfit.
  destruct (gas_of_accumulate raw 0 Hpos ltac:(lia) Hfit) as [Hsum Hnn].
  rewrite (gas_of_receipts _ _ Heq), u_sum_exact in Hgas; [|done|unfold u64_MAX in Hfit; lia].
  injection Hgas as Hgas. rewrite Hsum in Hgas. split; [lia|]. intros H2 Hlt.
  pose proof (running_sum_gt raw H2 Hlt). lia.
Qed.

(** Everything a map of balance increments pays out. *)
Definition map_total (m : gmap Z Z) : Z := map_fold (fun _ v acc => v + acc) 0 m.

Lemma map_total_insert (m : gmap Z Z) (k v : Z) :
  map_total (<[k := v]> m) = map_total m - default 0 (m !! k) + v.
Proof.
  unfold map_total. destruct (m !! k) as [u|] eqn:Hk.
  - assert (Hi : forall x, map_total (<[k := x]> (delete k m)) = x + map_total (delete k m)).
    { intros x. unfold map_total. rewrite map_fold_insert_L; [done|intros; lia|by rewrite lookup_delete_eq]. }
    pose proof (Hi u) as Hu. specialize (Hi v). unfold map_total in *.
    rewrite insert_delete_eq in Hi, Hu. rewrite (insert_id m k u Hk) in Hu. cbn. lia.
  - rewrite map_fold_insert_L; [cbn; lia|intros; lia|done].
Qed.

(** After the transactions the balance increments of the block are paid out. At the
    block of the DAO fork the listed accounts are drained first, and exactly what was
    drained is credited on top, to the refund contract: the increments paid total
    those of the block plus the drained balances. *)
Lemma post_execution_pays (ctx : BlockExecutionCtx) (st st1 : State) (drained : list Z)
    (Hdao : dao_transitions_at_block (u64_or_max (number (block ctx))) = true)
    (Hdrain : drain_balances DAO_HARDFORK_ACCOUNTS st = (Ok drained, st1))
    (Hpos : Forall (fun x => 0 <= x) drained)
    (Hbase : 0 <= default 0 (post_block_balance_increments (block ctx) (ommers ctx) (withdrawals ctx)
                               !! DAO_HARDFORK_BENEFICIARY))
    (Hfits : default 0 (post_block_balance_increments (block ctx) (ommers ctx) (withdrawals ctx)
                          !! DAO_HARDFORK_BENEFICIARY) + sum_Z drained <= u128_MAX) :
  let base := post_block_balance_increments (block ctx) (ommers ctx) (withdrawals ctx) in
  exists paid,
    post_execution ctx st = node (fun _ => IncrementBalanceFailed) (increment_balances paid) st1 /\
    map_total paid = map_total base + sum_Z drained /\
    paid !! DAO_HARDFORK_BENEFICIARY = Some (default 0 (base !! DAO_HARDFORK_BENEFICIARY) + sum_Z drained) /\
    (forall a, a ≠ DAO_HARDFORK_BENEFICIARY -> paid !! a = base !! a).
Proof.
  cbn zeta. set (base := post_block_balance_increments _ _ _) in *.
  exists (<[DAO_HARDFORK_BENEFICIARY := default 0 (base !! DAO_HARDFORK_BENEFICIARY) + sum_Z drained]> base).
  split; [|split; [rewrite map_total_insert; lia|split; [by rewrite lookup_insert_eq|]]].
  - unfold post_execution. fold base. rewrite Hdao.
    unfold dao_drain, mbind, BE_bind, node, pure_outcome, mret, BE_ret. rewrite Hdrain. cbn [map_err].
    rewrite u_sum_exact by (done || (unfold u128_MAX in Hfits; lia)).
    unfold u_add. rewrite Z.add_0_l.
    rewrite (proj2 (Z.leb_le _ _)) by (unfold u128_MAX in Hfits; lia). done.
  - intros a Ha. by rewrite lookup_insert_ne.
Qed.

End Theory.

End Chain.

(** ** The parallel executor implements the interface

    The threads leave an abort reason, the slots and the memory; [db_of] is how the
    state answers reads, [cache_of] the overlay of the fallback on it, and [after]
    the state with its cache filled. *)

Section Runner.
Context `{Revm} `{!Reth} `{!Evm}.
Context (hash_deterministic : Location -> LocationHash).
Context (db_of : State -> DatabaseRef).
Context (cache_of : forall st, list EvmState -> @DbView _ (db_of st)).
Context (workers : EvmEnv -> list TxEnv -> State -> option AbortReason * list (option TxExecutionResult) * MvMemory).
Context (after : EvmEnv -> list TxEnv -> State -> State).

Definition parallel_run (env : EvmEnv) (txs : list TxEnv) (st : State) :
    outcome (result (list TxExecutionResult) ParallelExecutorError * State) :=
  match execute_block (H0 := db_of st) hash_deterministic (cache_of st) env txs (workers env txs st) with
  | Return r => Return (r, after env txs st)
  | Panic => Panic
  | UB => UB
  end.

Lemma parallel_run_totals (env : EvmEnv) (txs : list TxEnv) (st st' : State) (rs : list TxExecutionResult) :
  parallel_run env txs st = Return (Ok rs, st') -> totals_of (length txs) rs.
Proof.
  unfold parallel_run. destruct (execute_block _ _ _ _ _) as [r| |] eqn:He; try done.
  intros Hr. injection Hr as -> _. by eapply execute_block_totals.
Qed.

Definition ParallelRunner : BlockRunner :=
  {| run_block := parallel_run; run_block_totals := parallel_run_totals |}.
End Runner.

(** ** Examples *)

Section Examples.
#[local] Existing Instance example_revm.
#[local] Existing Instance example_db.
#[local] Existing Instance example_evm.

(** A node whose state is the number of commits and increments made. *)
#[local] Instance example_reth : Reth := {|
  State := nat; set_state_clear_flag := fun _ st => st; commit_state := fun _ st => S st;
  increment_balances := fun _ st => (Ok tt, S st); drain_balances := fun _ st => (Ok [100; 50], st);
  BlockTx := TxEnv; blob_gas_used := fun tx => Some (total_blob_gas tx); to_tx_env := fun tx => tx;
  Requests := list Z; Requests_default := []; push_request_with_type := fun t d r => r ++ t :: d;
  requests_extend := fun more r => r ++ more; DEPOSIT_REQUEST_TYPE := 0;
  NodeError := unit; pre_execution_changes := fun st => (Ok tt, st);
  parse_deposits_from_receipts := fun _ => Ok []; apply_post_execution_changes := fun st => (Ok [], st);
  CfgEnv_default_spec := 17%nat; is_spurious_dragon_active_at_block := fun _ => true;
  is_prague_active_at_timestamp := fun _ => true; dao_transitions_at_block := fun n => n =? 1920000;
  DAO_HARDFORK_ACCOUNTS := [5; 6]; DAO_HARDFORK_BENEFICIARY := 7;
  Ommer := unit; Withdrawal := unit; post_block_balance_increments := fun _ _ _ => {[ 7 := 3 ]};
|}.

(** Threads that execute every transaction with its whole gas limit. *)
#[local] Instance example_runner : BlockRunner :=
  ParallelRunner encode_hash (fun _ => example_db) (fun _ => example_cache)
    (fun _ txs _ => (None, (fun tx => Some (example_result (gas_limit tx))) <$> txs,
                     mkMvMemory ∅ (replicate (length txs) (mkReadWriteSet ∅ [])) ∅ ∅))
    (fun _ _ st => st).

Definition example_ctx : BlockExecutionCtx := mkBlockExecutionCtx (mkBlockEnv 1920000 0 1 1) [] None.

Lemma block_execute_spec_witness :
  block_execute true example_ctx [example_tx; example_tx] 0%nat =
  Return (Ok (mkBlockExecutionResult _ [receipt (example_result 21000); receipt (example_result 42000)] Requests_default 63000 0), 2%nat).
Proof.
  apply (block_execute_spec true example_ctx [example_tx; example_tx] 0%nat 0%nat
    (Ok [example_result 21000; example_result 42000])).
  - reflexivity.
  - repeat constructor; vm_compute; discriminate.
  - vm_compute. discriminate.
  - repeat constructor; vm_compute; discriminate.
  - vm_compute. discriminate.
Defined.

Lemma block_gas_overcounted_witness :
  exists raw, length raw = 2%nat /\
    [receipt (example_result 21000); receipt (example_result 42000)] = receipt <$> accumulate_gas 0 raw /\
    (gas_positive raw -> running_sum 0 raw <= u64_MAX -> 63000 = running_sum 0 raw).
Proof.
  destruct (block_gas_overcounted true example_ctx [example_tx; example_tx] 0%nat 2%nat
    (mkBlockExecutionResult _ [receipt (example_result 21000); receipt (example_result 42000)] Requests_default 63000 0))
    as (raw & Hlen & Hrc & Hgas).
  - reflexivity.
  - exists raw. split; [exact Hlen|split; [exact Hrc|]]. intros Hp Hf. exact (proj1 (Hgas Hp Hf)).
Defined.

Lemma post_execution_pays_witness :
  exists paid, post_execution true example_ctx 0%nat = Return (Ok tt, 1%nat) /\
    paid !! 7 = Some 153 /\ map_total paid = 153.
Proof.
  destruct (post_execution_pays true example_ctx 0%nat 0%nat [100; 50]) as (paid & Heq & Htot & Hben & _).
  - reflexivity.
  - reflexivity.
  - repeat constructor; lia.
  - vm_compute. discriminate.
  - vm_compute. discriminate.
  - exists paid. split; [exact Heq|split; [exact Hben|exact Htot]].
Defined.

End Examples.
