(* ===== verification/Node.v ===== *)
(** * The node (crates/chain/src/provider.rs, op_provider.rs, bin/metis.rs)

    Which block executor a node runs. The configurations and executors of the node
    wrap those of [reth] and forward almost everything; the wrapped ones are
    parameters, given by the operations of the traits [ConfigureEvm] and
    [BlockExecutor]. Shown here: what the wrappers change, and that a block the node
    builds transaction by transaction and the same block it executes as a whole report
    different gas. *)

From S2P Require Import Prelude Types Results MvMemory VmDb Vm Executor OpVm Chain.
Local Open Scope Z_scope.

Arguments mkBlockExecutionResult {_ _ _} _ _ _ _.
Arguments receipts {_ _ _} _.
Arguments gas_used {_ _ _} _.

(** ** Configurations *)

(** What [reth]'s configurations are made of. *)
Class RethConfig : Type := {
  Header : Type; NextBlockEnvAttributes : Type; SealedBlock : Type; SealedHeader : Type; Payload : Type;
  ConfigEvmEnv : Type; ExecutionCtx : Type; TxIterator : Type; ConfigError : Type;
  ExecutorFactory : Type; BlockAssembler : Type;
}.

(** The traits [ConfigureEvm] and [ConfigureEngineEvm]. *)
Record ConfigureEvm `{RethConfig} : Type := mkConfigureEvm {
  block_executor_factory : ExecutorFactory;
  block_assembler : BlockAssembler;
  evm_env : Header -> result ConfigEvmEnv ConfigError;
  next_evm_env : Header -> NextBlockEnvAttributes -> result ConfigEvmEnv ConfigError;
  context_for_block : SealedBlock -> result ExecutionCtx ConfigError;
  context_for_next_block : SealedHeader -> NextBlockEnvAttributes -> result ExecutionCtx ConfigError;
  evm_env_for_payload : Payload -> result ConfigEvmEnv ConfigError;
  context_for_payload : Payload -> result ExecutionCtx ConfigError;
  tx_iterator_for_payload : Payload -> result TxIterator ConfigError;
}.

Section Config.
Context `{RethConfig} {ChainSpec EvmFactory EthEvmConfig : Type}.
Context (MyEvmFactory : EvmFactory).
(** [EthEvmConfig]: its constructors, its two fields, its implementation of the traits. *)
Context (EthEvmConfig_new : ChainSpec -> EthEvmConfig) (EthEvmConfig_new_with_evm_factory : ChainSpec -> EvmFactory -> EthEvmConfig).
Context (executor_factory : EthEvmConfig -> ExecutorFactory) (assembler : EthEvmConfig -> BlockAssembler).
Context (eth : EthEvmConfig -> ConfigureEvm).

Record ParallelEthEvmConfig : Type := mkParallelEthEvmConfig { config : EthEvmConfig }.

Definition ParallelEthEvmConfig_new_with_evm_factory (chain_spec : ChainSpec) (f : EvmFactory) : ParallelEthEvmConfig :=
  mkParallelEthEvmConfig (EthEvmConfig_new_with_evm_factory chain_spec f).

Definition ParallelEthEvmConfig_new (chain_spec : ChainSpec) : ParallelEthEvmConfig :=
  mkParallelEthEvmConfig (EthEvmConfig_new chain_spec).

Definition ParallelEthEvmConfig_configure (self : ParallelEthEvmConfig) : ConfigureEvm := {|
  block_executor_factory := executor_factory (config self);
  block_assembler := assembler (config self);
  evm_env := evm_env (eth (config self));
  next_evm_env := next_evm_env (eth (config self));
  context_for_block := context_for_block (eth (config self));
  context_for_next_block := context_for_next_block (eth (config self));
  evm_env_for_payload := evm_env_for_payload (eth (config self));
  context_for_payload := context_for_payload (eth (config self));
  tx_iterator_for_payload := tx_iterator_for_payload (eth (config self));
|}.

(** The executor builders: [ParallelExecutorBuilder] and [HookExecutorBuilder]. *)
Definition parallel_build_evm (chain_spec : ChainSpec) : ConfigureEvm :=
  ParallelEthEvmConfig_configure (ParallelEthEvmConfig_new_with_evm_factory chain_spec MyEvmFactory).

Definition hook_build_evm (chain_spec : ChainSpec) : ConfigureEvm :=
  eth (EthEvmConfig_new_with_evm_factory chain_spec MyEvmFactory).

(** [OpParallelEvmConfig] is its own factory of block executors ([create_executor]
    below); the rest is the wrapped configuration's. *)
Context {OpEvmConfig : Type} (OpEvmConfig_optimism : ChainSpec -> OpEvmConfig) (op : OpEvmConfig -> ConfigureEvm).

Record OpParallelEvmConfig : Type := mkOpParallelEvmConfig { op_config : OpEvmConfig }.

Definition OpParallelEvmConfig_new (chain_spec : ChainSpec) : OpParallelEvmConfig :=
  mkOpParallelEvmConfig (OpEvmConfig_optimism chain_spec).

Definition OpParallelEvmConfig_configure (as_factory : OpParallelEvmConfig -> ExecutorFactory) (self : OpParallelEvmConfig) :
    ConfigureEvm := {|
  block_executor_factory := as_factory self;
  block_assembler := block_assembler (op (op_config self));
  evm_env := evm_env (op (op_config self));
  next_evm_env := next_evm_env (op (op_config self));
  context_for_block := context_for_block (op (op_config self));
  context_for_next_block := context_for_next_block (op (op_config self));
  evm_env_for_payload := evm_env_for_payload (op (op_config self));
  context_for_payload := context_for_payload (op (op_config self));
  tx_iterator_for_payload := tx_iterator_for_payload (op (op_config self));
|}.

(** [OpParallelExecutorBuilder]. *)
Definition op_build_evm (as_factory : OpParallelEvmConfig -> ExecutorFactory) (chain_spec : ChainSpec) : ConfigureEvm :=
  OpParallelEvmConfig_configure as_factory (OpParallelEvmConfig_new chain_spec).

(** [EthEvmConfig] answers with its fields. *)
Context (eth_factory : forall c, block_executor_factory (eth c) = executor_factory c).
Context (eth_assembler : forall c, block_assembler (eth c) = assembler c).

(** The configuration of the parallel node is that of the other one, the factory of
    the block executors included: [ParallelBlockExecutor] is never made. *)
Lemma parallel_config_same (chain_spec : ChainSpec) : parallel_build_evm chain_spec = hook_build_evm chain_spec.
Proof using eth_factory eth_assembler.
  unfold parallel_build_evm, hook_build_evm, ParallelEthEvmConfig_configure. cbn [config ParallelEthEvmConfig_new_with_evm_factory].
  set (c := EthEvmConfig_new_with_evm_factory chain_spec MyEvmFactory). rewrite <- eth_factory, <- eth_assembler. by destruct (eth c).
Qed.

(** ** [main] (bin/metis.rs) *)

(** The nodes [main] can launch, by the variables ENABLE_OP_EXECUTOR and
    ENABLE_PARALLEL_EXECUTOR. *)
Inductive LaunchedNode (OpNode OpParallelNode : Type) : Type :=
| Launch_OpParallel (n : OpParallelNode)
| Launch_Op (n : OpNode)
| Launch_Ethereum (build_evm : ChainSpec -> ConfigureEvm).
Arguments Launch_OpParallel {_ _} _.
Arguments Launch_Op {_ _} _.
Arguments Launch_Ethereum {_ _} _.

Definition main {RollupArgs OpNode OpParallelNode : Type} (OpNode_new : RollupArgs -> OpNode)
    (OpParallelNode_new : OpNode -> OpParallelNode) (enable_op enable_parallel : bool) (rollup_args : RollupArgs) :
    LaunchedNode OpNode OpParallelNode :=
  if enable_op then
    if enable_parallel then Launch_OpParallel (OpParallelNode_new (OpNode_new rollup_args))
    else Launch_Op (OpNode_new rollup_args)
  else if enable_parallel then Launch_Ethereum parallel_build_evm
  else Launch_Ethereum hook_build_evm.

(** An Ethereum node is the same with and without ENABLE_PARALLEL_EXECUTOR. *)
Lemma enable_parallel_no_effect {RollupArgs OpNode OpParallelNode : Type} (new : RollupArgs -> OpNode)
    (newp : OpNode -> OpParallelNode) (p : bool) (args : RollupArgs) :
  exists build, main new newp false p args = Launch_Ethereum build /\ forall spec, build spec = hook_build_evm spec.
Proof using eth_factory eth_assembler.
  destruct p; eexists; (split; [done|]); intros spec; [apply parallel_config_same|done].
Qed.

(** ** The Optimism node (op_provider.rs) *)

(** The arguments of a rollup node that [OpParallelNode] uses; the others are in
    [other_args]. *)
Record RollupArgs (Url SafetyLevel Other : Type) : Type := mkRollupArgs {
  disable_txpool_gossip : bool;
  compute_pending_block : bool;
  discovery_v4 : bool;
  enable_tx_conditional : bool;
  supervisor_http : Url;
  supervisor_safety_level : SafetyLevel;
  sequencer : option Url;
  sequencer_headers : list String.string;
  min_suggested_priority_fee : Z;
  other_args : Other;
}.
Arguments disable_txpool_gossip {_ _ _} _.
Arguments compute_pending_block {_ _ _} _.
Arguments discovery_v4 {_ _ _} _.
Arguments enable_tx_conditional {_ _ _} _.
Arguments supervisor_http {_ _ _} _.
Arguments supervisor_safety_level {_ _ _} _.
Arguments sequencer {_ _ _} _.
Arguments sequencer_headers {_ _ _} _.
Arguments min_suggested_priority_fee {_ _ _} _.

Section OpNode.
Context {Url SafetyLevel Other DaConfig : Type}.
Local Abbreviation Args := (RollupArgs Url SafetyLevel Other).

Record OpNode : Type := mkOpNode { args : Args; da_config : DaConfig }.
Record OpParallelNode : Type := mkOpParallelNode { op_node : OpNode }.
Definition OpParallelNode_new (n : OpNode) : OpParallelNode := mkOpParallelNode n.

(** What the builders of the components are given. *)
Record ComponentsBuilder : Type := mkComponentsBuilder {
  pool_tx_conditional : bool;
  pool_supervisor : Url * SafetyLevel;
  executor : ChainSpec -> ConfigureEvm;
  payload : bool * DaConfig;
  network_disable_gossip : bool;
  network_disable_discovery_v4 : bool;
}.

Record AddOns : Type := mkAddOns {
  add_sequencer : option Url;
  add_sequencer_headers : list String.string;
  add_da_config : DaConfig;
  add_tx_conditional : bool;
  add_min_priority_fee : Z;
}.

Definition components_builder (as_factory : OpParallelEvmConfig -> ExecutorFactory) (self : OpParallelNode) :
    ComponentsBuilder :=
  let a := args (op_node self) in
  mkComponentsBuilder (enable_tx_conditional a) (supervisor_http a, supervisor_safety_level a) (op_build_evm as_factory)
    (compute_pending_block a, da_config (op_node self)) (disable_txpool_gossip a) (negb (discovery_v4 a)).

Definition add_ons (self : OpParallelNode) : AddOns :=
  let a := args (op_node self) in
  mkAddOns (sequencer a) (sequencer_headers a) (da_config (op_node self)) (enable_tx_conditional a)
    (min_suggested_priority_fee a).

(** With both variables set a node is launched whose blocks go to the parallel
    executor: its configuration gives itself out as the factory of block executors,
    and forwards everything else to the wrapped configuration. *)
Lemma launched_op_node (as_factory : OpParallelEvmConfig -> ExecutorFactory) (new : Args -> OpNode) (a : Args) (spec : ChainSpec) :
  exists n, main new OpParallelNode_new true true a = Launch_OpParallel n /\ op_node n = new a /\
    block_executor_factory (executor (components_builder as_factory n) spec) =
      as_factory (mkOpParallelEvmConfig (OpEvmConfig_optimism spec)) /\
    block_assembler (executor (components_builder as_factory n) spec) = block_assembler (op (OpEvmConfig_optimism spec)).
Proof. eexists. split; [done|]. done. Qed.

End OpNode.

End Config.

(** ** Block executors *)

Section Executors.
Context `{Revm} `{!Reth} (overflow_checks : bool).
Context (StateHook : Type).

(** The trait [BlockExecutor]. [Ex] is an executor with its EVM; the operations of the
    wrapped executor fail with errors of the node. *)
Record BlockExecutor (R : Type) : Type := mkBlockExecutor {
  Ex : Type;
  db_of_evm : Ex -> State;
  with_db : State -> Ex -> Ex;
  apply_pre_execution_changes : Ex -> result unit NodeError * Ex;
  execute_transaction_with_result_closure : forall A : Type,
    BlockTx -> (ExecutionResult -> A) -> Ex -> result (Z * A) NodeError * Ex;
  execute_transaction_with_commit_condition : BlockTx -> (ExecutionResult -> bool) -> Ex -> result (option Z) NodeError * Ex;
  execute_transaction_without_commit : BlockTx -> Ex -> result (ExecutionResult * EvmState) NodeError * Ex;
  commit_transaction : ExecutionResult * EvmState -> BlockTx -> Ex -> result Z NodeError * Ex;
  finish : Ex -> result (BlockExecutionResult R) NodeError * Ex;
  set_state_hook : option StateHook -> Ex -> Ex;
  execute_block : list BlockTx -> Ex -> outcome (result (BlockExecutionResult R) BlockExecutionError * Ex);
}.
#[local] Arguments Ex {_} _.
#[local] Arguments db_of_evm {_} _ _.
#[local] Arguments with_db {_} _ _ _.
#[local] Arguments apply_pre_execution_changes {_} _ _.
#[local] Arguments execute_transaction_with_result_closure {_} _ {_} _ _ _.
#[local] Arguments execute_transaction_with_commit_condition {_} _ _ _ _.
#[local] Arguments execute_transaction_without_commit {_} _ _ _.
#[local] Arguments commit_transaction {_} _ _ _ _.
#[local] Arguments finish {_} _ _.
#[local] Arguments set_state_hook {_} _ _ _.
#[local] Arguments execute_block {_} _ _ _.

(** A step of [Chain] on the state behind the EVM. *)
Definition on_db {A R : Type} (x : BlockExecutor R) (step : State -> outcome (result A BlockExecutionError * State)) (e : Ex x) :
    outcome (result A BlockExecutionError * Ex x) :=
  match step (db_of_evm x e) with
  | Return (r, st) => Return (r, with_db x st e)
  | Panic => Panic
  | UB => UB
  end.

Section Wrappers.
Context `{!BlockRunner} (ctx : BlockExecutionCtx).

(** [ParallelBlockExecutor] forwards everything but whole blocks. *)
Definition ParallelBlockExecutor (executor : BlockExecutor Receipt) : BlockExecutor Receipt := {|
  Ex := Ex executor;
  db_of_evm := db_of_evm executor;
  with_db := with_db executor;
  apply_pre_execution_changes := apply_pre_execution_changes executor;
  execute_transaction_with_result_closure := fun A tx f => execute_transaction_with_result_closure executor tx f;
  execute_transaction_with_commit_condition := execute_transaction_with_commit_condition executor;
  execute_transaction_without_commit := execute_transaction_without_commit executor;
  commit_transaction := commit_transaction executor;
  finish := finish executor;
  set_state_hook := set_state_hook executor;
  execute_block := fun txs => on_db executor (chain_execute_block overflow_checks ctx txs);
|}.

Definition OpParallelBlockExecutor (inner : BlockExecutor OpReceipt) : BlockExecutor OpReceipt := {|
  Ex := Ex inner;
  db_of_evm := db_of_evm inner;
  with_db := with_db inner;
  apply_pre_execution_changes := apply_pre_execution_changes inner;
  execute_transaction_with_result_closure := fun A tx f => execute_transaction_with_result_closure inner tx f;
  execute_transaction_with_commit_condition := execute_transaction_with_commit_condition inner;
  execute_transaction_without_commit := execute_transaction_without_commit inner;
  commit_transaction := commit_transaction inner;
  finish := finish inner;
  set_state_hook := set_state_hook inner;
  execute_block := fun txs => on_db inner (op_chain_execute_block overflow_checks ctx txs);
|}.

End Wrappers.

(** [create_executor] of [OpParallelEvmConfig], the factory of the Optimism node:
    [OpBlockExecutor::new] makes the executor that is wrapped. *)
Definition create_executor `{!BlockRunner} {Evm : Type} (OpBlockExecutor_new : Evm -> BlockExecutionCtx -> BlockExecutor OpReceipt)
    (evm : Evm) (ctx : BlockExecutionCtx) : BlockExecutor OpReceipt :=
  OpParallelBlockExecutor ctx (OpBlockExecutor_new evm ctx).

(** ** Building a block *)

(** The calls with which a block is built: the changes before it, the transactions one
    by one, the end. *)
Fixpoint execute_each {R : Type} (x : BlockExecutor R) (txs : list BlockTx) (e : Ex x) : result unit NodeError * Ex x :=
  match txs with
  | [] => (Ok tt, e)
  | tx :: txs' =>
      match execute_transaction_with_commit_condition x tx (fun _ => true) e with
      | (Ok _, e') => execute_each x txs' e'
      | (Err err, e') => (Err err, e')
      end
  end.

Definition build {R : Type} (x : BlockExecutor R) (txs : list BlockTx) (e : Ex x) :
    result (BlockExecutionResult R) NodeError * Ex x :=
  match apply_pre_execution_changes x e with
  | (Ok _, e1) => match execute_each x txs e1 with (Ok _, e2) => finish x e2 | (Err err, e2) => (Err err, e2) end
  | (Err err, e1) => (Err err, e1)
  end.

Lemma build_finishes {R : Type} (x : BlockExecutor R) (txs : list BlockTx) (e e' : Ex x) (res : BlockExecutionResult R) :
  build x txs e = (Ok res, e') -> exists e3, finish x e3 = (Ok res, e').
Proof.
  unfold build. destruct (apply_pre_execution_changes x e) as [[u|err] e1]; [|intros [=]].
  destruct (execute_each x txs e1) as [[u'|err] e2]; [|intros [=]]. by exists e2.
Qed.

(** The gas of a receipt, of the Optimism chain. *)
Definition op_cumulative (r : OpReceipt) : Z :=
  match r with OpLegacy r | OpEip2930 r | OpEip1559 r | OpEip7702 r => cumulative_gas_used r end.

(** [finish] of [reth]'s executors reports the running total of the last receipt. *)
Definition reports_last (x : BlockExecutor OpReceipt) : Prop :=
  forall e e' res, finish x e = (Ok res, e') -> gas_used res = default 0 (list.last (op_cumulative <$> receipts res)).

Context `{!BlockRunner} (ctx : BlockExecutionCtx).

Lemma op_into_receipt_cumulative (r : Receipt) (rc : OpReceipt) :
  op_into_receipt r = Return rc -> op_cumulative rc = cumulative_gas_used r.
Proof. unfold op_into_receipt. intros Hr. repeat case_match; by simplify_eq. Qed.

Lemma op_receipts_gas (rs : list TxExecutionResult) (rcs : list OpReceipt) :
  Forall2 (fun r rc => op_into_receipt (receipt r) = Return rc) rs rcs -> op_cumulative <$> rcs = gas_of rs.
Proof. induction 1 as [|r rc rs rcs Hr _ IH]; [done|]. cbn. by rewrite (op_into_receipt_cumulative _ _ Hr), IH. Qed.

(** What a whole block reports. *)
Lemma op_execute_block_gas (x : BlockExecutor OpReceipt) (txs : list BlockTx) (e e' : Ex x) (res : BlockExecutionResult OpReceipt) :
  execute_block (OpParallelBlockExecutor ctx x) txs e = Return (Ok res, e') ->
  length (receipts res) = length txs /\
  u_sum overflow_checks 64 (op_cumulative <$> receipts res) 0 = Return (gas_used res).
Proof.
  cbn. unfold on_db, op_chain_execute_block, op_execute_transactions, op_block_execute, op_post_execution.
  unfold mbind, BE_bind, modify_state, pure_outcome, node, run_transactions, mret, BE_ret. intros Hx.
  destruct (pre_execution_changes (db_of_evm x e)) as [[u|err] st1]; [|done]. cbn [map_err] in Hx.
  destruct (u_sum _ _ (omap _ _) _) as [blob| |]; try done.
  destruct (run_block _ _ _) as [[[rs|err] st2]| |] eqn:Hrun; try done. cbn [map_err] in Hx.
  destruct (commit_results _ op_into_receipt rs 0 st2) as [[y st3]| |] eqn:Hc; try done.
  apply commit_results_run in Hc as (t & rcs & -> & Ht & Hall & ->).
  destruct (increment_balances _ _) as [[v|err] st4]; [|done]. cbn [map_err] in Hx. injection Hx as <- _.
  apply run_block_totals, totals_of_length in Hrun. rewrite length_fmap in Hrun. cbn [receipts gas_used].
  rewrite (op_receipts_gas _ _ Hall). split; [|done]. by rewrite <- (list.Forall2_length _ _ _ Hall).
Qed.

Lemma last_le_sum (l : list Z) : Forall (fun x => 0 < x) l -> default 0 (list.last l) <= sum_Z l.
Proof.
  induction 1 as [|x l Hx Hl IH]; [done|]. rewrite list.last_cons. cbn [sum_Z foldr]. fold (sum_Z l).
  assert (0 <= sum_Z l) by (apply sum_Z_pos; eapply list.Forall_impl; [exact Hl|]; cbn; lia).
  destruct (list.last l); cbn in *; lia.
Qed.

Lemma last_lt_sum (l : list Z) : (2 <= length l)%nat -> Forall (fun x => 0 < x) l -> default 0 (list.last l) < sum_Z l.
Proof.
  intros H2 Hl. destruct l as [|x [|y l]]; [cbn in H2; lia..|]. apply list.Forall_cons in Hl as [Hx Hl].
  pose proof (last_le_sum (y :: l) Hl) as Hle. rewrite list.last_cons. cbn [sum_Z foldr] in *. rewrite list.last_cons in *.
  destruct (list.last l); cbn in *; lia.
Qed.

(** A block an Optimism node with the parallel executor builds does not pass its own
    execution. The node builds the block transaction by transaction, which the wrapper
    forwards, and the block's gas is the running total of the last receipt; executing
    the block as a whole, with exactly the same receipts, reports the sum of the
    running totals of all receipts. For two or more transactions that use gas, the
    second is larger. *)
Lemma built_block_gas_differs (inner : BlockExecutor OpReceipt) (txs : list BlockTx) (e e1 e2 : Ex inner)
    (built executed : BlockExecutionResult OpReceipt)
    (Hlast : reports_last inner)
    (Hbuild : build (OpParallelBlockExecutor ctx inner) txs e = (Ok built, e1))
    (Hexec : execute_block (OpParallelBlockExecutor ctx inner) txs e = Return (Ok executed, e2))
    (Hsame : receipts built = receipts executed) (Htwo : (2 <= length txs)%nat)
    (Hgas : Forall (fun r => 0 < op_cumulative r) (receipts executed))
    (Hfits : sum_Z (op_cumulative <$> receipts executed) <= u64_MAX) :
  gas_used executed = sum_Z (op_cumulative <$> receipts executed) /\ gas_used built < gas_used executed.
Proof.
  destruct (op_execute_block_gas inner txs e e2 executed Hexec) as [Hlen Hsum].
  assert (Hpos : Forall (fun x => 0 < x) (op_cumulative <$> receipts executed)) by (by apply list.Forall_fmap).
  rewrite u_sum_exact in Hsum; [|eapply list.Forall_impl; [exact Hpos|]; cbn; lia|exact Hfits]. injection Hsum as Hsum.
  split; [lia|]. destruct (build_finishes _ _ _ _ _ Hbuild) as [e3 Hfin]. apply Hlast in Hfin. rewrite Hfin, Hsame.
  rewrite <- Hsum, Z.add_0_l. apply last_lt_sum; [by rewrite length_fmap, Hlen|done].
Qed.

End Executors.
