(* ===== verification/Hook.v ===== *)
(** * The hook EVM's reward (crates/hook/src/handler.rs)

    The node's sequential path runs transactions with [MyHandler], which replaces
    the payment of the beneficiary; the parallel executor pays it in
    [apply_rewards]. Here the two payments are compared. *)

From S2P Require Import Prelude Types Results MvMemory VmDb Vm Chain.
Local Open Scope Z_scope.

Section Hook.
Context `{Revm}.
Context (overflow_checks : bool).

(** The journal of the EVM's context and its [balance_incr]; the transaction's
    [effective_gas_price], a method of [revm]'s [Transaction]. *)
Context {Journal JournalError : Type}.
Context (balance_incr : Address -> Z -> Journal -> result unit JournalError * Journal).
Context (effective_gas_price : TxEnv -> Z -> Z).

(** [a * b] on [u128]. *)
Definition u128_mul (x y : Z) : outcome Z :=
  if x * y <=? u128_MAX then Return (x * y)
  else if overflow_checks then Panic else Return (wrapping 128 (x * y)).

Definition reward_beneficiary (env : EvmEnv) (tx : TxEnv) (gas_used : Z) :
    M Journal (result unit JournalError) :=
  fun journal =>
    let coinbase_gas_price := effective_gas_price tx (basefee env) in
    match u128_mul coinbase_gas_price gas_used with
    | Return amount => Return (balance_incr (beneficiary env) amount journal)
    | Panic => Panic
    | UB => UB
    end.

(** What [Transaction::effective_gas_price] computes: the offered price, bounded for
    fee-market transactions by the base fee plus the priority fee. *)
Definition effective_gas_price_spec : Prop :=
  forall tx base_fee, effective_gas_price tx base_fee =
    match gas_priority_fee tx with
    | Some priority_fee => Z.min (gas_price tx) (saturating_add 128 base_fee priority_fee)
    | None => gas_price tx
    end.

(** The hook pays the beneficiary more than the parallel executor does: for a
    transaction whose price covers the base fee, after London, the hook credits the
    whole effective gas price, that is what [rewards] credits plus the base fee of
    the gas used, which is to be burnt. *)
Lemma hook_reward_includes_base_fee (hash_deterministic : Location -> LocationHash)
    (env : EvmEnv) (tx : TxEnv) (gas : Z) (journal : Journal)
    (Hspec : effective_gas_price_spec)
    (Hlondon : is_enabled_in (spec env) LONDON = true)
    (Hcovers : basefee env <= effective_gas_price tx (basefee env))
    (Hbase : 0 <= basefee env) (Hgas : in_range 64 gas)
    (Hfits : effective_gas_price tx (basefee env) * gas <= u128_MAX) :
  exists paid, rewards hash_deterministic env tx gas = [(beneficiary_location_hash hash_deterministic env, paid)] /\
    reward_beneficiary env tx gas journal =
    Return (balance_incr (beneficiary env) (paid + basefee env * gas) journal).
Proof.
  set (p := effective_gas_price tx (basefee env)) in *.
  assert (Hp : reward_gas_price env tx = p - basefee env).
  { unfold reward_gas_price. rewrite Hlondon. unfold p in *. rewrite Hspec in *.
    unfold saturating_sub, saturating_add in *. destruct (gas_priority_fee tx); lia. }
  exists ((p - basefee env) * gas). unfold in_range in Hgas. split.
  - unfold rewards, vm_reward_policy, reward_policy. rewrite Hp. unfold saturating_mul.
    rewrite Z.min_l; [done|]. change (uint_max 256) with U256_MAX.
    assert (u128_MAX <= U256_MAX) by (vm_compute; discriminate). nia.
  - unfold reward_beneficiary, u128_mul. fold p. rewrite (proj2 (Z.leb_le _ _)) by lia.
    do 3 f_equal. lia.
Qed.

End Hook.

Section Examples.
#[local] Existing Instance example_revm.

Definition example_price (tx : TxEnv) (base_fee : Z) : Z :=
  match gas_priority_fee tx with
  | Some priority_fee => Z.min (gas_price tx) (saturating_add 128 base_fee priority_fee)
  | None => gas_price tx
  end.

Definition example_fee_tx : TxEnv := mkTxEnv 9 Create 0 0 21000 10 (Some 2) 0 0 2 tt.
Definition example_fee_env : EvmEnv := mkEvmEnv 1 7 LONDON.

Lemma hook_reward_includes_base_fee_witness :
  exists paid,
    rewards encode_hash example_fee_env example_fee_tx 21000 =
      [(encode_hash (Loc_Basic 1), paid)] /\
    reward_beneficiary true (fun a x j => (Ok tt, (a, x) :: j)) example_price example_fee_env
      example_fee_tx 21000 [] =
    Return (@Ok unit unit tt, [(1, paid + 7 * 21000)]).
Proof.
  destruct (hook_reward_includes_base_fee true (fun a x j => (@Ok unit unit tt, (a, x) :: j)) example_price
    encode_hash example_fee_env example_fee_tx 21000 [])
    as (paid & Hr & Hp).
  - intros tx base_fee. reflexivity.
  - reflexivity.
  - vm_compute. discriminate.
  - vm_compute. discriminate.
  - split; [lia|reflexivity].
  - vm_compute. discriminate.
  - exists paid. split; [exact Hr|exact Hp].
Defined.

End Examples.
