(* ===== verification/HookEvm.v ===== *)
(** * The hook EVM (crates/hook/src/evm.rs, exec.rs, crates/chain/src/hook_provider.rs)

    [MyEvm] wraps the EVM of revm and runs transactions with [MyHandler], whose
    payment of the beneficiary is in [Hook]; with an inspector it hands them to the
    wrapped EVM. The EVM is outside of the sources: a class gives its context and
    the parts of a run before and after the payment. *)

From S2P Require Import Prelude Types Results MvMemory VmDb Vm Chain Hook.
Local Open Scope Z_scope.

(** What revm provides: the EVM with its context (environment, transaction,
    database) and inspector, the phases of [Handler::run] (up to the payment, under
    the inspector or not, after it, and on an error), the payment of the mainnet
    handler, and the journal. *)
Class RevmEvm `{Revm} : Type := {
  Evm : Type;
  Db : Type;
  Inspector : Type;
  RevmError : Type;
  FrameResult : Type;
  NoOpInspector : Inspector;
  evm_build : Db -> EvmEnv -> Inspector -> Evm;
  with_inspector : Inspector -> Evm -> Evm;
  ctx_env : Evm -> EvmEnv;
  ctx_chain_id : Evm -> Z;
  ctx_tx : Evm -> TxEnv;
  ctx_db : Evm -> Db;
  set_tx : TxEnv -> Evm -> Evm;
  set_env : EvmEnv -> Evm -> Evm;
  with_db : Db -> Evm -> Evm;
  db_commit : EvmState -> Db -> Db;
  inner_finalize : Evm -> EvmState * Evm;
  balance_incr : Address -> Z -> Evm -> result unit RevmError * Evm;
  frame_gas_used : FrameResult -> Z;
  before_reward : bool -> Evm -> result FrameResult RevmError * Evm;
  mainnet_reward : FrameResult -> Evm -> result unit RevmError * Evm;
  after_reward : FrameResult -> Evm -> result ExecutionResult RevmError * Evm;
  catch_error : RevmError -> Evm -> result ExecutionResult RevmError * Evm;
  system_call_one : Address -> Address -> list Byte.byte -> Evm -> result ExecutionResult RevmError * Evm;
}.

Section MyEvm.
Context `{RevmEvm}.
Context (overflow_checks : bool) (effective_gas_price : TxEnv -> Z -> Z).

(** ** Running a transaction with a handler *)

Definition Reward : Type := FrameResult -> M Evm (result unit RevmError).

(** [Handler::run], and [inspect_run] when [inspected]. *)
Definition handler_run (reward : Reward) (inspected : bool) : M Evm (result ExecutionResult RevmError) :=
  fun c =>
    match before_reward inspected c with
    | (Err e, c1) => Return (catch_error e c1)
    | (Ok frame, c1) =>
        match reward frame c1 with
        | Return (Ok _, c2) =>
            match after_reward frame c2 with
            | (Err e, c3) => Return (catch_error e c3)
            | (Ok r, c3) => Return (Ok r, c3)
            end
        | Return (Err e, c2) => Return (catch_error e c2)
        | Panic => Panic
        | UB => UB
        end
    end.

(** [MyHandler] and the mainnet handler. *)
Definition my_reward : Reward := fun frame c =>
  reward_beneficiary overflow_checks balance_incr effective_gas_price (ctx_env c) (ctx_tx c) (frame_gas_used frame) c.
Definition mainnet : Reward := fun frame c => Return (mainnet_reward frame c).

(** ** The EVM *)

Record MyEvm : Type := mkMyEvm {
  inner : Evm;
  inspect : bool;
}.

Definition MyEvm_new (evm : Evm) (b : bool) : MyEvm := mkMyEvm evm b.
Definition into_inner (e : MyEvm) : Evm := inner e.
Definition set_inner (e : MyEvm) (c : Evm) : MyEvm := mkMyEvm c (inspect e).

Definition evm_block (e : MyEvm) : Address * Z := (beneficiary (ctx_env (inner e)), basefee (ctx_env (inner e))).
Definition chain_id (e : MyEvm) : Z := ctx_chain_id (inner e).
Definition set_inspector_enabled (enabled : bool) (e : MyEvm) : MyEvm := mkMyEvm (inner e) enabled.
Definition finish (e : MyEvm) : Db * EvmEnv := (ctx_db (inner e), ctx_env (inner e)).

(** Lift a run of the wrapped EVM to the wrapper. *)
Definition on_inner {A : Type} (run : M Evm A) : M MyEvm A := fun e =>
  match run (inner e) with
  | Return (a, c) => Return (a, set_inner e c)
  | Panic => Panic
  | UB => UB
  end.

(** [ExecuteEvm] (exec.rs); setting the block keeps the hard fork. *)
Definition evm_set_block (block : Address * Z) (e : MyEvm) : MyEvm :=
  set_inner e (set_env (mkEvmEnv block.1 block.2 (spec (ctx_env (inner e)))) (inner e)).
Definition transact_one (tx : TxEnv) : M MyEvm (result ExecutionResult RevmError) := fun e =>
  on_inner (handler_run my_reward false) (set_inner e (set_tx tx (inner e))).
Definition finalize (e : MyEvm) : EvmState * MyEvm :=
  let '(st, c) := inner_finalize (inner e) in (st, set_inner e c).

(** A run followed by the state it leaves, when it succeeds. *)
Definition and_state (run : M MyEvm (result ExecutionResult RevmError)) :
    M MyEvm (result (ExecutionResult * EvmState) RevmError) := fun e =>
  match run e with
  | Return (Ok r, e1) => let '(st, e2) := finalize e1 in Return (Ok (r, st), e2)
  | Return (Err err, e1) => Return (Err err, e1)
  | Panic => Panic
  | UB => UB
  end.

Definition transact (tx : TxEnv) : M MyEvm (result (ExecutionResult * EvmState) RevmError) :=
  and_state (transact_one tx).
Definition replay : M MyEvm (result (ExecutionResult * EvmState) RevmError) :=
  and_state (on_inner (handler_run my_reward false)).
Definition evm_commit (st : EvmState) (e : MyEvm) : MyEvm :=
  set_inner e (with_db (db_commit st (ctx_db (inner e))) (inner e)).

(** [InspectEvm]. *)
Definition set_inspector (i : Inspector) (e : MyEvm) : MyEvm := set_inner e (with_inspector i (inner e)).
Definition inspect_one_tx (tx : TxEnv) : M MyEvm (result ExecutionResult RevmError) := fun e =>
  on_inner (handler_run my_reward true) (set_inner e (set_tx tx (inner e))).

(** [inner.inspect_tx]: the wrapped EVM runs its own handler. *)
Definition inner_inspect_tx (tx : TxEnv) : M MyEvm (result (ExecutionResult * EvmState) RevmError) :=
  and_state (fun e => on_inner (handler_run mainnet true) (set_inner e (set_tx tx (inner e)))).

(** [Evm::transact_raw] and the system call, which pays nobody. *)
Definition transact_raw (tx : TxEnv) : M MyEvm (result (ExecutionResult * EvmState) RevmError) := fun e =>
  if inspect e then inner_inspect_tx tx e else transact tx e.
Definition transact_system_call (caller contract : Address) (data : list Byte.byte) :
    M MyEvm (result (ExecutionResult * EvmState) RevmError) :=
  and_state (on_inner (fun c => Return (system_call_one caller contract data c))).

(** [MyEvmFactory] (hook_provider.rs). *)
Definition create_evm (db : Db) (env : EvmEnv) : MyEvm := MyEvm_new (evm_build db env NoOpInspector) false.
Definition create_evm_with_inspector (db : Db) (env : EvmEnv) (i : Inspector) : MyEvm :=
  MyEvm_new (with_inspector i (into_inner (create_evm db env))) true.

(** ** Properties *)

(** The mainnet handler pays the effective price less the base fee after London. *)
Definition mainnet_reward_spec : Prop :=
  forall frame c, is_enabled_in (spec (ctx_env c)) LONDON = true ->
    mainnet_reward frame c =
    balance_incr (beneficiary (ctx_env c))
      ((effective_gas_price (ctx_tx c) (basefee (ctx_env c)) - basefee (ctx_env c)) * frame_gas_used frame) c.

(** The rest of a run after the beneficiary was paid. *)
Definition conclude (frame : FrameResult) (paid : result unit RevmError * Evm) :
    M MyEvm (result (ExecutionResult * EvmState) RevmError) :=
  and_state (fun e =>
    let '(r, c) :=
      match paid with
      | (Ok _, c) => match after_reward frame c with (Err err, c') => catch_error err c' | done => done end
      | (Err err, c) => catch_error err c
      end in
    Return (r, set_inner e c)).

Lemma handler_run_paid (reward : Reward) (b : bool) (frame : FrameResult) (c c1 : Evm) paid (e : MyEvm) :
  before_reward b c = (Ok frame, c1) ->
  reward frame c1 = Return paid ->
  and_state (on_inner (handler_run reward b)) (set_inner e c) = conclude frame paid (set_inner e c).
Proof.
  intros Hb Hr. unfold conclude, and_state, on_inner, handler_run. cbn. rewrite Hb, Hr.
  destruct paid as [[?|err] c2]; [|by destruct (catch_error err c2) as [[?|?] ?]].
  destruct (after_reward frame c2) as [[?|err] c3]; [done|by destruct (catch_error err c3) as [[?|?] ?]].
Qed.

(** Tracing a transaction changes what it does. An EVM created with an inspector
    runs transactions with the mainnet handler, one created without it with
    [MyHandler]: even when the inspector only looks on, the beneficiary is credited
    with the base fee of the gas used in one case and not in the other. *)
Lemma tracing_changes_reward (db : Db) (env : EvmEnv) (i : Inspector) (tx : TxEnv) (frame : FrameResult) (c1 c2 : Evm)
    (Hmain : mainnet_reward_spec)
    (Hrun : before_reward false (set_tx tx (evm_build db env NoOpInspector)) = (Ok frame, c1))
    (Hlook : before_reward true (set_tx tx (with_inspector i (evm_build db env NoOpInspector))) = (Ok frame, c2))
    (Henv : ctx_env c2 = ctx_env c1) (Htx : ctx_tx c2 = ctx_tx c1)
    (Hlondon : is_enabled_in (spec (ctx_env c1)) LONDON = true)
    (Hfits : effective_gas_price (ctx_tx c1) (basefee (ctx_env c1)) * frame_gas_used frame <= u128_MAX) :
  exists amount,
    transact_raw tx (create_evm_with_inspector db env i) =
      conclude frame (balance_incr (beneficiary (ctx_env c1)) amount c2) (create_evm_with_inspector db env i) /\
    transact_raw tx (create_evm db env) =
      conclude frame (balance_incr (beneficiary (ctx_env c1)) (amount + basefee (ctx_env c1) * frame_gas_used frame) c1)
        (create_evm db env).
Proof.
  exists ((effective_gas_price (ctx_tx c1) (basefee (ctx_env c1)) - basefee (ctx_env c1)) * frame_gas_used frame). split.
  - etransitivity; [eapply (handler_run_paid mainnet) with (1 := Hlook)|reflexivity].
    unfold mainnet. by rewrite Hmain, Henv, Htx by (by rewrite Henv).
  - etransitivity; [eapply (handler_run_paid my_reward) with (1 := Hrun)|reflexivity].
    unfold my_reward, reward_beneficiary, u128_mul.
    rewrite (proj2 (Z.leb_le _ _)) by done. cbn. do 2 f_equal. lia.
Qed.

End MyEvm.

(** ** Examples *)

Section Examples.
#[local] Existing Instance example_revm.

(** EVMs that keep the credits; every transaction uses 21000 gas. *)
#[local] Instance example_revm_evm : RevmEvm := {|
  Evm := EvmEnv * TxEnv * list (Address * Z); Db := unit; Inspector := unit; RevmError := unit; FrameResult := Z;
  NoOpInspector := tt;
  evm_build := fun _ env _ => (env, example_fee_tx, []);
  with_inspector := fun _ c => c;
  ctx_env := fun c => c.1.1; ctx_chain_id := fun _ => 1; ctx_tx := fun c => c.1.2; ctx_db := fun _ => tt;
  set_tx := fun tx c => (c.1.1, tx, c.2); set_env := fun env c => (env, c.1.2, c.2);
  with_db := fun _ c => c; db_commit := fun _ d => d;
  inner_finalize := fun c => (∅, c);
  balance_incr := fun a x c => (Ok tt, (c.1, (a, x) :: c.2));
  frame_gas_used := fun g => g;
  before_reward := fun _ c => (Ok 21000, c);
  mainnet_reward := fun g c => (Ok tt, (c.1, (beneficiary c.1.1, (example_price c.1.2 (basefee c.1.1) - basefee c.1.1) * g) :: c.2));
  after_reward := fun g c => (Ok (Success g []), c);
  catch_error := fun e c => (Err e, c);
  system_call_one := fun _ _ _ c => (Ok (Success 0 []), c);
|}.

Definition example_db : Db := tt.
Definition example_inspector : Inspector := tt.
Definition example_frame : FrameResult := 21000.
Definition example_evm : Evm := (example_fee_env, example_fee_tx, []).

(** The credits a run leaves in the EVM. *)
Definition example_credits {A : Type} (o : outcome (A * MyEvm)) : option (list (Address * Z)) :=
  match o with Return (_, e) => Some (inner e).2 | _ => None end.

(** At a base fee of 7 the beneficiary gets 2 per gas traced, 9 untraced. *)
Lemma tracing_changes_reward_witness :
  (exists amount,
    transact_raw true example_price example_fee_tx (create_evm_with_inspector example_db example_fee_env example_inspector) =
      conclude example_frame (balance_incr 1 amount example_evm)
        (create_evm_with_inspector example_db example_fee_env example_inspector) /\
    transact_raw true example_price example_fee_tx (create_evm example_db example_fee_env) =
      conclude example_frame (balance_incr 1 (amount + 7 * 21000) example_evm)
        (create_evm example_db example_fee_env)) /\
  example_credits (transact_raw true example_price example_fee_tx
    (create_evm_with_inspector example_db example_fee_env example_inspector)) = Some [(1, 2 * 21000)] /\
  example_credits (transact_raw true example_price example_fee_tx (create_evm example_db example_fee_env)) =
    Some [(1, 9 * 21000)].
Proof.
  split.
  - apply (tracing_changes_reward true example_price example_db example_fee_env example_inspector example_fee_tx
      example_frame example_evm example_evm); [|reflexivity..|vm_compute; discriminate].
    intros frame c _. reflexivity.
  - split; reflexivity.
Defined.

End Examples.
