(* ===== verification/HookTr.v ===== *)
(** * The hook EVM as an EVM of revm (crates/hook/src/evm.rs)

    Handlers and inspectors of revm run on anything that implements [EvmTr] and
    [InspectorEvmTr]: access to the parts of an EVM, and the steps of its frames.
    [MyEvm] implements them by what the EVM inside does, a definition here for each
    method. A mutable reference to a part is a lens: what it shows, and the EVM after
    something was written through it. *)

From S2P Require Import Prelude Types Results MvMemory VmDb Vm Chain Hook HookEvm.

(** ** Mutable references *)

Record Lens (E X : Type) : Type := mkLens { view : E -> X; put : X -> E -> E }.
Arguments mkLens {E X} _ _.
Arguments view {E X} _ _.
Arguments put {E X} _ _ _.

Record lawful {E X : Type} (l : Lens E X) : Prop := mkLawful {
  view_put : forall x e, view l (put l x e) = x;
  put_view : forall e, put l (view l e) e = e;
  put_put : forall x y e, put l y (put l x e) = put l y e;
}.

(** Two references at once, to parts that do not overlap. *)
Definition apart {E X Y : Type} (l : Lens E X) (k : Lens E Y) : Prop :=
  (forall x e, view k (put l x e) = view k e) /\ (forall y e, view l (put k y e) = view l e) /\
  forall x y e, put k y (put l x e) = put l x (put k y e).

Definition both {E X Y : Type} (l : Lens E X) (k : Lens E Y) : Lens E (X * Y) :=
  mkLens (fun e => (view l e, view k e)) (fun xy e => put k xy.2 (put l xy.1 e)).

Definition within {E X Y : Type} (l : Lens E X) (k : Lens X Y) : Lens E Y :=
  mkLens (fun e => view k (view l e)) (fun y e => put l (put k y (view l e)) e).

Lemma both_lawful {E X Y : Type} (l : Lens E X) (k : Lens E Y) :
  lawful l -> lawful k -> apart l k -> lawful (both l k).
Proof.
  intros [Hvp Hpv Hpp] [Kvp Kpv Kpp] (Ha & Hb & Hc). constructor; cbn.
  - intros [x y] e. cbn. by rewrite Hb, Hvp, Kvp.
  - intros e. cbn. by rewrite Hpv, Kpv.
  - intros [x y] [x' y'] e. cbn. by rewrite (Hc x y), Hpp, !Hc, Kpp.
Qed.

Lemma within_lawful {E X Y : Type} (l : Lens E X) (k : Lens X Y) : lawful l -> lawful k -> lawful (within l k).
Proof.
  intros [Hvp Hpv Hpp] [Kvp Kpv Kpp]. constructor; cbn; intros.
  - by rewrite Hvp.
  - by rewrite Kpv.
  - by rewrite Hvp, Kpp, Hpp.
Qed.

(** ** The interface *)

(** What revm's frames are made of, and what their steps answer. *)
Class RevmFrames : Type := {
  Context : Type; Instructions : Type; Precompiles : Type; FrameStack : Type; Frame : Type;
  FrameInit : Type; FrameInitOrResult : Type; CallResult : Type; ContextDbError : Type;
}.

(** A frame that was started is referred to where it is, or has a result at once. *)
Inductive FrameInitResult `{RevmFrames} (E : Type) : Type :=
| F_Item (frame : Lens E Frame)
| F_Result (res : CallResult).
Arguments F_Item {_ _} _.
Arguments F_Result {_ _} _.

(** [EvmTr] and [InspectorEvmTr], a method each; [ctx_mut] is a provided one. *)
Class EvmTr `{RevmFrames} (I E : Type) : Type := {
  ctx : Lens E Context;
  ctx_mut : Lens E Context;
  ctx_ref : E -> Context;
  ctx_instructions : Lens E (Context * Instructions);
  ctx_precompiles : Lens E (Context * Precompiles);
  frame_stack : Lens E FrameStack;
  frame_init : FrameInit -> E -> result (FrameInitResult E) ContextDbError * E;
  frame_run : E -> result FrameInitOrResult ContextDbError * E;
  frame_return_result : CallResult -> E -> result (option CallResult) ContextDbError * E;
  all : E -> Context * Instructions * Precompiles * FrameStack;
  all_mut : Lens E (Context * Instructions * Precompiles * FrameStack);
  inspector : Lens E I;
  ctx_inspector : Lens E (Context * I);
  ctx_inspector_frame : Lens E (Context * I * Frame);
  ctx_inspector_frame_instructions : Lens E (Context * I * Frame * Instructions);
  all_inspector : E -> Context * Instructions * Precompiles * FrameStack * I;
  all_mut_inspector : Lens E (Context * Instructions * Precompiles * FrameStack * I);
}.

(** ** Code that is written against the interface *)

(** The names of the methods that give a mutable reference, and of those that give a
    shared one. *)
Inductive Ref `{RevmFrames} {I : Type} : Type -> Type :=
| R_ctx : Ref Context
| R_ctx_mut : Ref Context
| R_ctx_instructions : Ref (Context * Instructions)
| R_ctx_precompiles : Ref (Context * Precompiles)
| R_frame_stack : Ref FrameStack
| R_all_mut : Ref (Context * Instructions * Precompiles * FrameStack)
| R_inspector : Ref I
| R_ctx_inspector : Ref (Context * I)
| R_ctx_inspector_frame : Ref (Context * I * Frame)
| R_ctx_inspector_frame_instructions : Ref (Context * I * Frame * Instructions)
| R_all_mut_inspector : Ref (Context * Instructions * Precompiles * FrameStack * I).
Arguments Ref {_} _ _.

Inductive SharedRef `{RevmFrames} {I : Type} : Type -> Type :=
| S_ctx_ref : SharedRef Context
| S_all : SharedRef (Context * Instructions * Precompiles * FrameStack)
| S_all_inspector : SharedRef (Context * Instructions * Precompiles * FrameStack * I).
Arguments SharedRef {_} _ _.

(** The method of an implementation. *)
Definition method `{RevmFrames} {I E X : Type} `{!EvmTr I E} (r : Ref I X) : Lens E X :=
  match r in Ref _ X return Lens E X with
  | R_ctx => ctx
  | R_ctx_mut => ctx_mut
  | R_ctx_instructions => ctx_instructions
  | R_ctx_precompiles => ctx_precompiles
  | R_frame_stack => frame_stack
  | R_all_mut => all_mut
  | R_inspector => inspector
  | R_ctx_inspector => ctx_inspector
  | R_ctx_inspector_frame => ctx_inspector_frame
  | R_ctx_inspector_frame_instructions => ctx_inspector_frame_instructions
  | R_all_mut_inspector => all_mut_inspector
  end.

Definition shared `{RevmFrames} {I E X : Type} `{!EvmTr I E} (r : SharedRef I X) : E -> X :=
  match r in SharedRef _ X return E -> X with
  | S_ctx_ref => ctx_ref
  | S_all => all
  | S_all_inspector => all_inspector
  end.

(** A program looks at what a shared reference shows, uses a mutable one (reads, writes,
    drops it), starts a frame, using the reference to it if there is one, and runs and
    returns from frames. *)
Inductive TrProg `{RevmFrames} (I : Type) (A : Type) : Type :=
| P_Done (a : A)
| P_Look (X : Type) (r : SharedRef I X) (k : X -> TrProg I A)
| P_Use (X B : Type) (r : Ref I X) (f : X -> B * X) (k : B -> TrProg I A)
| P_Init (B : Type) (frame_input : FrameInit) (f : Frame -> B * Frame) (k : result (B + CallResult) ContextDbError -> TrProg I A)
| P_Run (k : result FrameInitOrResult ContextDbError -> TrProg I A)
| P_Return (res : CallResult) (k : result (option CallResult) ContextDbError -> TrProg I A).
Arguments P_Done {_ _ _} _.
Arguments P_Look {_ _ _ _} _ _.
Arguments P_Use {_ _ _ _ _} _ _ _.
Arguments P_Init {_ _ _ _} _ _ _.
Arguments P_Run {_ _ _} _.
Arguments P_Return {_ _ _} _ _.

Definition use {E X B : Type} (l : Lens E X) (f : X -> B * X) (e : E) : B * E :=
  let '(b, x) := f (view l e) in (b, put l x e).

Fixpoint run `{RevmFrames} {I E A : Type} `{!EvmTr I E} (p : TrProg I A) (e : E) : A * E :=
  match p with
  | P_Done a => (a, e)
  | P_Look r k => run (k (shared r e)) e
  | P_Use r f k => let '(b, e') := use (method r) f e in run (k b) e'
  | P_Init x f k =>
      match frame_init x e with
      | (Ok (F_Item frame), e') => let '(b, e2) := use frame f e' in run (k (Ok (inl b))) e2
      | (Ok (F_Result res), e') => run (k (Ok (inr res))) e'
      | (Err err, e') => run (k (Err err)) e'
      end
  | P_Run k => let '(r, e') := frame_run e in run (k r) e'
  | P_Return res k => let '(r, e') := frame_return_result res e in run (k r) e'
  end.

(** ** [MyEvm] *)

Section Wrapper.
Context `{RevmEvm} `{!RevmFrames}.

(** Outside: the fields of revm's EVM, the database of its context, and revm's
    implementation of the interface. *)
Context (f_ctx : Lens Evm Context) (f_inspector : Lens Evm Inspector) (f_instruction : Lens Evm Instructions)
  (f_precompiles : Lens Evm Precompiles) (f_frame_stack : Lens Evm FrameStack) (f_database : Lens Context Db).
Context `{inner_tr : !EvmTr Inspector Evm}.

(** A reference into the EVM inside, reached through [self.inner]. *)
Definition via {X : Type} (l : Lens Evm X) : Lens MyEvm X :=
  mkLens (fun e => view l (inner e)) (fun x e => set_inner e (put l x (inner e))).

(** [ctx], [ctx_mut], and what dereferencing gives. *)
Definition my_ctx (e : MyEvm) : Context := view f_ctx (inner e).
Definition my_ctx_mut : Lens MyEvm Context := via f_ctx.
Definition deref (e : MyEvm) : Context := my_ctx e.
Definition deref_mut : Lens MyEvm Context := my_ctx_mut.

(** [components] and [components_mut] of the trait [Evm]. *)
Definition components (e : MyEvm) : Db * Inspector * Precompiles :=
  (view f_database (view f_ctx (inner e)), view f_inspector (inner e), view f_precompiles (inner e)).
Definition components_mut : Lens MyEvm (Db * Inspector * Precompiles) :=
  via (both (both (within f_ctx f_database) f_inspector) f_precompiles).

(** [EvmTr] for [MyEvm], in the order of the source. *)
Definition tr_ctx : Lens MyEvm Context := via ctx_mut.
Definition tr_ctx_ref (e : MyEvm) : Context := ctx_ref (inner e).
Definition tr_ctx_instructions : Lens MyEvm (Context * Instructions) := via ctx_instructions.
Definition tr_ctx_precompiles : Lens MyEvm (Context * Precompiles) := via ctx_precompiles.
Definition tr_frame_stack : Lens MyEvm FrameStack := via frame_stack.
Definition tr_frame_init (frame_input : FrameInit) (e : MyEvm) : result (FrameInitResult MyEvm) ContextDbError * MyEvm :=
  match frame_init frame_input (inner e) with
  | (Ok (F_Item frame), i) => (Ok (F_Item (via frame)), set_inner e i)
  | (Ok (F_Result res), i) => (Ok (F_Result res), set_inner e i)
  | (Err err, i) => (Err err, set_inner e i)
  end.
Definition tr_frame_run (e : MyEvm) : result FrameInitOrResult ContextDbError * MyEvm :=
  let '(r, i) := frame_run (inner e) in (r, set_inner e i).
Definition tr_frame_return_result (res : CallResult) (e : MyEvm) : result (option CallResult) ContextDbError * MyEvm :=
  let '(r, i) := frame_return_result res (inner e) in (r, set_inner e i).
Definition tr_all (e : MyEvm) : Context * Instructions * Precompiles * FrameStack :=
  (ctx_ref (inner e), view f_instruction (inner e), view f_precompiles (inner e), view f_frame_stack (inner e)).
Definition tr_all_mut : Lens MyEvm (Context * Instructions * Precompiles * FrameStack) :=
  both (both (both (via f_ctx) (via f_instruction)) (via f_precompiles)) (via f_frame_stack).

(** [InspectorEvmTr] for [MyEvm]. *)
Definition tr_inspector : Lens MyEvm Inspector := via inspector.
Definition tr_ctx_inspector : Lens MyEvm (Context * Inspector) := via ctx_inspector.
Definition tr_ctx_inspector_frame : Lens MyEvm (Context * Inspector * Frame) := via ctx_inspector_frame.
Definition tr_ctx_inspector_frame_instructions : Lens MyEvm (Context * Inspector * Frame * Instructions) :=
  via ctx_inspector_frame_instructions.
Definition tr_all_inspector (e : MyEvm) : Context * Instructions * Precompiles * FrameStack * Inspector :=
  (ctx_ref (inner e), view f_instruction (inner e), view f_precompiles (inner e), view f_frame_stack (inner e),
   view f_inspector (inner e)).
Definition tr_all_mut_inspector : Lens MyEvm (Context * Instructions * Precompiles * FrameStack * Inspector) :=
  both (both (both (both (via f_ctx) (via f_instruction)) (via f_precompiles)) (via f_frame_stack)) (via f_inspector).

#[export] Instance MyEvm_tr : EvmTr Inspector MyEvm := {|
  ctx := tr_ctx;
  ctx_mut := tr_ctx;
  ctx_ref := tr_ctx_ref;
  ctx_instructions := tr_ctx_instructions;
  ctx_precompiles := tr_ctx_precompiles;
  frame_stack := tr_frame_stack;
  frame_init := tr_frame_init;
  frame_run := tr_frame_run;
  frame_return_result := tr_frame_return_result;
  all := tr_all;
  all_mut := tr_all_mut;
  inspector := tr_inspector;
  ctx_inspector := tr_ctx_inspector;
  ctx_inspector_frame := tr_ctx_inspector_frame;
  ctx_inspector_frame_instructions := tr_ctx_inspector_frame_instructions;
  all_inspector := tr_all_inspector;
  all_mut_inspector := tr_all_mut_inspector;
|}.

(** ** The wrapper is transparent *)

Lemma via_lawful {X : Type} (l : Lens Evm X) : lawful l -> lawful (via l).
Proof.
  intros [Hvp Hpv Hpp]. constructor; cbn; intros; [by rewrite Hvp| |by rewrite Hpp].
  rewrite Hpv. by destruct e.
Qed.

(** The EVM inside: [ctx_mut] refers to what [ctx] does, and what is given out all at
    once are the fields: looking, a look at each; writing, a write to each. *)
Record inner_laws : Prop := mkInnerLaws {
  il_ctx_view : forall i : Evm, view ctx_mut i = view ctx i;
  il_ctx_put : forall x (i : Evm), put ctx_mut x i = put ctx x i;
  il_ctx_ref : forall i : Evm, ctx_ref i = view f_ctx i;
  il_all : forall i : Evm, all i = (view f_ctx i, view f_instruction i, view f_precompiles i, view f_frame_stack i);
  il_all_inspector : forall i : Evm, all_inspector i =
    (view f_ctx i, view f_instruction i, view f_precompiles i, view f_frame_stack i, view f_inspector i);
  il_all_mut_view : forall i : Evm, view all_mut i = all i;
  il_all_mut_put : forall c n p s (i : Evm), put all_mut (c, n, p, s) i =
    put f_frame_stack s (put f_precompiles p (put f_instruction n (put f_ctx c i)));
  il_all_mut_inspector_view : forall i : Evm, view all_mut_inspector i = all_inspector i;
  il_all_mut_inspector_put : forall c n p s j (i : Evm), put all_mut_inspector (c, n, p, s, j) i =
    put f_inspector j (put f_frame_stack s (put f_precompiles p (put f_instruction n (put f_ctx c i))));
}.

(** Using a reference of the wrapper is using that of the EVM inside. *)
Lemma method_inner {X B : Type} (r : Ref Inspector X) (f : X -> B * X) (e : MyEvm) (Hl : inner_laws) :
  use (method r) f e = (let '(b, i) := use (method r) f (inner e) in (b, set_inner e i)).
Proof.
  unfold use. destruct r; cbn [method MyEvm_tr]; cbn; unfold tr_ctx, tr_all_mut, tr_all_mut_inspector; cbn; try (by destruct (f _)).
  - by rewrite (il_ctx_view Hl); destruct (f _); rewrite (il_ctx_put Hl).
  - rewrite (il_all_mut_view Hl), (il_all Hl). destruct (f _) as [b [[[c n] p] s]]. by rewrite (il_all_mut_put Hl).
  - rewrite (il_all_mut_inspector_view Hl), (il_all_inspector Hl). destruct (f _) as [b [[[[c n] p] s] j]].
    by rewrite (il_all_mut_inspector_put Hl).
Qed.

Lemma shared_inner {X : Type} (r : SharedRef Inspector X) (e : MyEvm) (Hl : inner_laws) : shared r e = shared r (inner e).
Proof.
  destruct r; cbn; [done| |]; unfold tr_all, tr_all_inspector; by rewrite (il_ctx_ref Hl), ?(il_all Hl), ?(il_all_inspector Hl).
Qed.

(** Writes through the reference to a frame that was started reach the frame. *)
Lemma use_via {X B : Type} (l : Lens Evm X) (f : X -> B * X) (e : MyEvm) :
  use (via l) f e = (let '(b, i) := use l f (inner e) in (b, set_inner e i)).
Proof. unfold use, via. cbn. by destruct (f _). Qed.

(** C37. Wrapping an EVM in [MyEvm] changes nothing for code that is written against
    revm's interface, such as its handlers and inspectors: whatever references it takes
    and writes through, the one to a frame just started among them, whatever frames it
    starts, runs and returns from, it gets the answers it gets from the EVM inside,
    errors included, leaves that EVM in the same state, and does not touch the flag of
    the wrapper. Assumed of the EVM inside is only which fields [all] and the three like
    it are references to, and that [ctx_mut] is another name of [ctx]. *)
Theorem wrapper_transparent {A : Type} (p : TrProg Inspector A) (e : MyEvm) (Hl : inner_laws) :
  run p e = (let '(a, i) := run p (inner e) in (a, mkMyEvm i (inspect e))).
Proof.
  revert e. induction p as [a|X r k IH|X B r f k IH|B x f k IH|k IH|res k IH]; intros e; cbn [run].
  - by destruct e.
  - by rewrite shared_inner, IH.
  - rewrite method_inner by done. destruct (use _ _ (inner e)) as [b i]. by rewrite IH.
  - cbn [frame_init MyEvm_tr]. unfold tr_frame_init. destruct (frame_init x (inner e)) as [[[frame|res]|err] i]; [|by rewrite IH..].
    rewrite use_via. cbn [inner set_inner]. destruct (use frame f i) as [b i2]. by rewrite IH.
  - cbn [frame_run MyEvm_tr]. unfold tr_frame_run. destruct (frame_run (inner e)) as [r i]. by rewrite IH.
  - cbn [frame_return_result MyEvm_tr]. unfold tr_frame_return_result.
    destruct (frame_return_result res (inner e)) as [r i]. by rewrite IH.
Qed.

(** The references [MyEvm] builds itself are lawful when the fields do not overlap:
    what is written is read back, and nothing else changes. *)
Lemma components_mut_lawful :
  lawful f_ctx -> lawful f_database -> lawful f_inspector -> lawful f_precompiles ->
  apart f_ctx f_inspector -> apart f_ctx f_precompiles -> apart f_inspector f_precompiles ->
  lawful components_mut /\ forall e, view components_mut e = components e.
Proof.
  intros Hc Hd Hi Hp Hci Hcp Hip. split; [|done]. apply via_lawful, both_lawful; [apply both_lawful|done|].
  - by apply within_lawful.
  - done.
  - destruct Hci as (Ha & Hb & Hx). repeat split; cbn; intros; rewrite ?Ha, ?Hb; [done..|apply Hx].
  - destruct Hcp as (Ha & Hb & Hx), Hip as (Ha' & Hb' & Hx').
    repeat split; cbn; intros; rewrite ?Ha', ?Ha, ?Hb, ?Hb', ?Hx', ?Hx; done.
Qed.

End Wrapper.

(** ** Examples *)

Section Examples.
#[local] Existing Instances example_revm example_revm_evm.

(** A frame is an entry of the list of credits; running one counts the entries. A frame
    for nothing has its result at once. *)
#[local] Instance example_frames : RevmFrames := {|
  Context := EvmEnv * TxEnv; Instructions := unit; Precompiles := unit; FrameStack := list (Address * Z);
  Frame := Address * Z; FrameInit := Address * Z; FrameInitOrResult := nat; CallResult := Z; ContextDbError := unit;
|}.

Definition no_part {E : Type} : Lens E unit := mkLens (fun _ => tt) (fun _ e => e).
Definition example_ctx : Lens Evm Context := mkLens fst (fun c e => (c, e.2)).
Definition example_stack : Lens Evm FrameStack := mkLens snd (fun l e => (e.1, l)).
Definition example_top : Lens Evm Frame :=
  mkLens (fun e => default (0, 0)%Z (head e.2)) (fun x e => (e.1, x :: tail e.2)).

#[local] Instance example_tr : EvmTr Inspector Evm := {|
  ctx := example_ctx;
  ctx_mut := example_ctx;
  ctx_ref := fun e => e.1;
  ctx_instructions := both example_ctx no_part;
  ctx_precompiles := both example_ctx no_part;
  frame_stack := example_stack;
  frame_init := fun x e =>
    if (x.2 =? 0)%Z then (Ok (F_Result 0%Z), e) else (Ok (F_Item example_top), (e.1, x :: e.2));
  frame_run := fun e => (Ok (length e.2), e);
  frame_return_result := fun r e => (Ok None, (e.1, tail e.2));
  all := fun e => (e.1, tt, tt, e.2);
  all_mut := both (both (both example_ctx no_part) no_part) example_stack;
  inspector := no_part;
  ctx_inspector := both example_ctx no_part;
  ctx_inspector_frame := both (both example_ctx no_part) example_top;
  ctx_inspector_frame_instructions := both (both (both example_ctx no_part) example_top) no_part;
  all_inspector := fun e => (e.1, tt, tt, e.2, tt);
  all_mut_inspector := both (both (both (both example_ctx no_part) no_part) example_stack) no_part;
|}.

Lemma example_laws : inner_laws example_ctx no_part no_part no_part example_stack.
Proof. constructor; reflexivity. Qed.

(** Start a frame, change it through the reference to it, add another through the
    references to everything, try to start one for nothing, and run. *)
Definition example_prog : TrProg Inspector nat :=
  P_Init (5, 1)%Z (fun _ => (tt, (5, 2)%Z)) (fun _ =>
    P_Use R_all_mut (fun x => (tt, (x.1, (6, 3)%Z :: x.2))) (fun _ =>
      P_Init (7, 0)%Z (fun y => (tt, y)) (fun _ =>
        P_Run (fun r => P_Done (match r with Ok n => n | Err _ => 0 end))))).

Definition example_wrapped : MyEvm := mkMyEvm (example_fee_env, example_fee_tx, []) true.

#[local] Instance example_my_tr : EvmTr Inspector MyEvm :=
  MyEvm_tr example_ctx no_part no_part no_part example_stack.

Lemma wrapper_transparent_witness :
  run example_prog example_wrapped =
    (let '(a, i) := run example_prog (inner example_wrapped) in (a, mkMyEvm i (inspect example_wrapped))) /\
  run example_prog example_wrapped = (2, mkMyEvm (example_fee_env, example_fee_tx, [(6, 3); (5, 2)]%Z) true).
Proof.
  split; [|reflexivity].
  exact (wrapper_transparent example_ctx no_part no_part no_part example_stack example_prog example_wrapped example_laws).
Defined.

End Examples.
