(* ===== verification/Runtime.v ===== *)
(** * The runtime of the virtual machine (crates/vm/src/runtime.rs)

    [get_runtime] and [get_compiler_context] give out references to values in
    [static mut] variables that the first caller makes, under a [Once]. Here the threads
    that call such a function interleave freely; the accesses to the variable are
    steps of their own, so that it can be said that they do not race. *)

From S2P Require Import Prelude.

Section Once.
(** Outside: what the [n]-th attempt to make the value gives; nothing when [unwrap]
    panics on it. *)
Context {T : Type} (make : nat -> option T).

(** ** The machine *)

(** [std::sync::Once]: a closure that panics poisons it. *)
Inductive OnceState : Type :=
| Incomplete
| Running (i : nat)
| Complete
| Poisoned.

(** Where a thread is: at [call_once], in the closure (about to write the variable), at
    [as_ref().unwrap()] (about to read it), or at its end. *)
Inductive Pc : Type :=
| G_CallOnce
| G_Init
| G_AsRef
| G_Got (r : T)
| G_Panicked.

Record Statics : Type := mkStatics {
  once : OnceState;
  variable : option T;
  attempts : nat;
  threads : list Pc;
}.

Definition Statics_init (k : nat) : Statics := mkStatics Incomplete None 0 (replicate k G_CallOnce).

(** One step of thread [i]; at [call_once] it waits while another runs the closure. *)
Definition get_step (i : nat) (g : Statics) : option Statics :=
  let goto pc := <[i := pc]> (threads g) in
  match threads g !! i with
  | Some G_CallOnce =>
      match once g with
      | Incomplete => Some (mkStatics (Running i) (variable g) (attempts g) (goto G_Init))
      | Running _ => None
      | Complete => Some (mkStatics Complete (variable g) (attempts g) (goto G_AsRef))
      | Poisoned => Some (mkStatics Poisoned (variable g) (attempts g) (goto G_Panicked))
      end
  | Some G_Init =>
      match make (attempts g) with
      | Some r => Some (mkStatics Complete (Some r) (S (attempts g)) (goto G_AsRef))
      | None => Some (mkStatics Poisoned (variable g) (S (attempts g)) (goto G_Panicked))
      end
  | Some G_AsRef =>
      Some (mkStatics (once g) (variable g) (attempts g)
        (goto (match variable g with Some r => G_Got r | None => G_Panicked end)))
  | Some (G_Got _) | Some G_Panicked | None => None
  end.

Inductive reachable (k : nat) : Statics -> Prop :=
| start : reachable k (Statics_init k)
| steps g i g' : reachable k g -> get_step i g = Some g' -> reachable k g'.

(** ** The invariant *)

(** Where a thread can be, given the [Once]. *)
Definition pc_ok (g : Statics) (i : nat) (pc : Pc) : Prop :=
  match pc with
  | G_CallOnce => True
  | G_Init => once g = Running i
  | G_AsRef => once g = Complete
  | G_Got r => once g = Complete /\ variable g = Some r
  | G_Panicked => once g = Poisoned
  end.

Definition once_ok (g : Statics) : Prop :=
  match once g with
  | Incomplete => attempts g = 0
  | Running i => attempts g = 0 /\ threads g !! i = Some G_Init
  | Complete => attempts g = 1 /\ variable g = make 0 /\ is_Some (make 0)
  | Poisoned => attempts g = 1 /\ make 0 = None
  end.

Definition statics_inv (g : Statics) : Prop :=
  once_ok g /\ forall i pc, threads g !! i = Some pc -> pc_ok g i pc.

(** Moving one thread leaves the others where the invariant wants them. *)
Lemma threads_ok (g : Statics) (i : nat) (o : OnceState) (v : option T) (a : nat) (pc : Pc) :
  (forall j q, threads g !! j = Some q -> pc_ok g j q) ->
  pc_ok (mkStatics o v a (<[i:=pc]> (threads g))) i pc ->
  (forall j q, j ≠ i -> pc_ok g j q -> pc_ok (mkStatics o v a (<[i:=pc]> (threads g))) j q) ->
  forall j q, <[i:=pc]> (threads g) !! j = Some q -> pc_ok (mkStatics o v a (<[i:=pc]> (threads g))) j q.
Proof.
  intros Hg Hi Ho j q Hj. apply lookup_insert_cases in Hj as [(-> & -> & _)|[Hne Hj]]; [done|].
  by apply Ho, Hg.
Qed.

(** The threads that a step leaves alone, by cases on where they are. *)
Ltac others_ok :=
  apply threads_ok; [done|try done|intros j q; destruct q; cbn; intros; destruct_and?; split_and?; done || congruence].

Lemma get_step_inv (i : nat) (g g' : Statics) : statics_inv g -> get_step i g = Some g' -> statics_inv g'.
Proof.
  intros [Ho Hpc]. unfold get_step. destruct (threads g !! i) as [pc|] eqn:Hi; [|done].
  pose proof (Hpc _ _ Hi) as Hme. pose proof (lookup_lt_Some _ _ _ Hi) as Hlt. unfold once_ok in Ho.
  destruct pc; cbn in Hme; [destruct (once g) eqn:Hc|rewrite Hme in Ho; destruct (make (attempts g)) eqn:Hm
    |rewrite Hme in Ho| |]; intros Hs; simplify_eq/=.
  - split; [split; [done|by apply list_lookup_insert_eq]|others_ok].
  - split; [done|others_ok].
  - split; [done|others_ok].
  - destruct Ho as [Ha _]. rewrite Ha in *. split; [unfold once_ok; cbn; by rewrite Hm|others_ok].
  - destruct Ho as [Ha _]. rewrite Ha in *. split; [unfold once_ok; cbn; by rewrite Hm|others_ok].
  - destruct Ho as (Ha & Hv & [r Hr]). rewrite Hr in Hv. rewrite Hv.
    split; [unfold once_ok; cbn; rewrite Hme, Hr; by eauto|others_ok].
Qed.

Lemma statics_reachable_inv (k : nat) (g : Statics) : reachable k g -> statics_inv g /\ length (threads g) = k.
Proof.
  induction 1 as [|g i g' _ [IH Hl] Hs].
  - split; [split; [done|]|apply length_replicate]. intros i pc Hi. by apply lookup_replicate in Hi as [-> _].
  - split; [by eapply get_step_inv|]. rewrite <- Hl. unfold get_step in Hs.
    repeat case_match; simplify_eq/=; by rewrite ?length_insert.
Qed.

(** ** Termination *)

Definition finished (pc : Pc) : bool := match pc with G_Got _ | G_Panicked => true | _ => false end.

Definition pc_left (pc : Pc) : nat := match pc with G_CallOnce => 3 | G_Init => 2 | G_AsRef => 1 | _ => 0 end.

Lemma get_step_left (i : nat) (g g' : Statics) :
  get_step i g = Some g' -> sum_list_with pc_left (threads g') < sum_list_with pc_left (threads g).
Proof.
  unfold get_step. intros Hs. destruct (threads g !! i) as [pc|] eqn:Hi; [|done].
  assert (Hgo : forall pc', pc_left pc' < pc_left pc ->
    sum_list_with pc_left (<[i:=pc']> (threads g)) < sum_list_with pc_left (threads g)).
  { intros pc' Hlt. pose proof (sum_list_with_insert pc_left _ _ _ pc' Hi). lia. }
  repeat case_match; simplify_eq/=; apply Hgo; cbn; lia.
Qed.

(** C40. The references [get_runtime] gives out are those of one value, made once. In
    whatever way the callers interleave: the variable is never written by a thread
    while another writes or reads it; all callers that return return the same
    reference, to what the first attempt made, and no second attempt is ever made; if
    the first attempt fails every caller panics, if it succeeds none does; and as long
    as a caller has not come to its end some caller can go on, so that after at most
    three steps each they all have. *)
Theorem static_made_once (k : nat) (g : Statics) (Hr : reachable k g) :
  (forall i j pc, threads g !! i = Some G_Init -> threads g !! j = Some pc -> pc = G_Init \/ pc = G_AsRef -> i = j) /\
  attempts g <= 1 /\
  (forall i r, threads g !! i = Some (G_Got r) -> make 0 = Some r) /\
  (forall i, threads g !! i = Some G_Panicked -> make 0 = None) /\
  ((exists i pc, threads g !! i = Some pc /\ finished pc = false) -> exists i g', get_step i g = Some g') /\
  (forall i g', get_step i g = Some g' -> sum_list_with pc_left (threads g') < sum_list_with pc_left (threads g) <= 3 * k).
Proof.
  destruct (statics_reachable_inv _ _ Hr) as [[Ho Hpc] Hlen]. unfold once_ok in Ho. split; [|split; [|split; [|split; [|split]]]].
  - intros i j pc Hi Hj Hd. apply Hpc in Hi, Hj. cbn in Hi. destruct Hd as [-> | ->]; cbn in Hj; congruence.
  - destruct (once g); destruct_and?; lia.
  - intros i r Hi. destruct (Hpc _ _ Hi) as [Hc Hv]. rewrite Hc in Ho. destruct Ho as (_ & Hm & _). congruence.
  - intros i Hi. pose proof (Hpc _ _ Hi) as Hc. cbn in Hc. rewrite Hc in Ho. apply Ho.
  - intros (i & pc & Hi & Hf). destruct (once g) as [|j| |] eqn:Hc.
    2: { destruct Ho as [_ Hj]. exists j. unfold get_step. rewrite Hj. destruct (make _); by eexists. }
    all: exists i; unfold get_step; rewrite Hi, ?Hc; destruct pc; cbn in Hf; try done; try (by eexists).
    all: destruct (make (attempts g)); eexists; reflexivity.
  - intros i g' Hs. split; [by eapply get_step_left|]. rewrite <- Hlen. clear.
    induction (threads g) as [|pc l IH]; cbn; [done|]. assert (pc_left pc <= 3) by (destruct pc; cbn; lia). lia.
Qed.

End Once.

(** ** The two variables *)

(** Outside: the runtimes [Runtime::new] makes, and the contexts of the compiler. *)
Definition get_runtime_step {Runtime : Type} (Runtime_new : nat -> option Runtime) (i : nat) (g : Statics (T:=Runtime)) : option (Statics (T:=Runtime)) :=
  get_step Runtime_new i g.
Definition get_compiler_context_step {Context : Type} (CompilerContext_create : nat -> Context) (i : nat) (g : Statics (T:=Context)) :
    option (Statics (T:=Context)) :=
  get_step (fun n => Some (CompilerContext_create n)) i g.

(** Making a context cannot fail: nobody panics. *)
Lemma compiler_context_total {Context : Type} (create : nat -> Context) (k i : nat) (g : Statics (T:=Context)) :
  reachable (fun n => Some (create n)) k g -> threads g !! i ≠ Some G_Panicked.
Proof.
  intros Hr Hi. destruct (statics_reachable_inv _ _ _ Hr) as [[Ho Hpc] _]. specialize (Hpc _ _ Hi). cbn in Hpc.
  unfold once_ok in Ho. rewrite Hpc in Ho. by destruct Ho.
Qed.

(** ** Examples *)

(** The second of two callers is in the closure while the first waits. *)
Definition example_make (n : nat) : option nat := Some (n + 7).
Definition example_waiting : Statics (T:=nat) := mkStatics (Running 1) None 0 [G_CallOnce; G_Init].
Definition example_end : Statics (T:=nat) := mkStatics Complete (Some 7) 1 [G_Got 7; G_Got 7].

Lemma example_end_reachable : reachable example_make 2 example_end.
Proof.
  apply (steps _ _ (mkStatics Complete (Some 7) 1 [G_AsRef; G_Got 7]) 0); [|done].
  apply (steps _ _ (mkStatics Complete (Some 7) 1 [G_AsRef; G_AsRef]) 1); [|done].
  apply (steps _ _ (mkStatics Complete (Some 7) 1 [G_CallOnce; G_AsRef]) 0); [|done].
  apply (steps _ _ example_waiting 1); [|done].
  by apply (steps _ _ (Statics_init 2) 1); [apply start|].
Qed.

Example first_waits : get_step example_make 0 example_waiting = None.
Proof. done. Qed.

Lemma static_made_once_witness : threads example_end !! 0 = Some (G_Got 7) /\ example_make 0 = Some 7.
Proof.
  split; [reflexivity|].
  exact (proj1 (proj2 (proj2 (static_made_once example_make 2 example_end example_end_reachable))) 0 7 eq_refl).
Defined.
