(* ===== verification/Compiler.v ===== *)
(** * The bytecode compiler (crates/vm: compiler.rs, pool.rs, env.rs, error.rs)

    Contracts can be compiled to native code. [ExtCompileWorker] answers whether there
    is a compiled function for a code hash and spawns compilations; [CompilePool]
    runs them as tasks that share a compiler, a cache and, ahead of time, a directory
    of libraries; [CompilerHandler] asks the worker before every call frame. A task goes
    from one call to the file system to the next in steps of its own, and a lookup reads
    a library in one step and enters it into the cache in another, so that lookups meet
    libraries that are being written. Assumed of the loader is that it rejects a file the
    linker has not finished. A function is the value the backend made; that the library it
    is in is closed when the cache forgets it is not modelled, as no caller runs it.

    The compiler itself (revmc), the loader of libraries and the file system are
    outside: the class [Revmc] has what the compiler makes of code, and the outcome
    of each call to the outside is an input, [Io]. *)

From Stdlib Require Import String.
From S2P Require Import Prelude Types Dropper.
Local Open Scope string_scope.

(** ** Options *)

Inductive OptimizationLevel : Type := Opt_None | Opt_Less | Opt_Default | Opt_Aggressive.

Record CompileOptions : Type := mkCompileOptions {
  is_aot : bool;
  opt_level : OptimizationLevel;
  no_gas : bool;
  no_len_checks : bool;
}.

Definition CompileOptions_default : CompileOptions := mkCompileOptions false Opt_Aggressive false false.

Record ExtCompileOptions : Type := mkExtCompileOptions {
  ext_is_aot : bool;
  ext_threshold : Z;
  ext_pool_size : nat;
  ext_cache_size : nat;
}.

Definition ExtCompileOptions_default : ExtCompileOptions := mkExtCompileOptions true 1 3 128.

(** How a compiler is set up: [gas_metering(yes)], [stack_bound_checks(yes)], the
    level of the backend and the name of the module. *)
Record EvmCompiler : Type := mkEvmCompiler {
  backend_aot : bool;
  backend_level : OptimizationLevel;
  gas_metering : bool;
  stack_bound_checks : bool;
  compiler_module : string;
}.

(** ** Environment (env.rs) *)

(** The environment variables that are read. *)
Record Vars : Type := mkVars {
  HOME : option string;
  METIS_VM_WORKER_STORE : option string;
  COMPILE_NAME : option string;
}.

Definition join (p q : string) : string := p ++ "/" ++ q.

Definition default_path (e : Vars) : string :=
  join (default "." (HOME e)) (default ".metisvm" (METIS_VM_WORKER_STORE e)).
Definition module_name (e : Vars) : string := default "default_module" (COMPILE_NAME e).
Definition store_path (e : Vars) : string := join (default_path e) "output".
Definition db_path (e : Vars) : string := join (default_path e) "db".
Definition sc_db_path (e : Vars) : string := join (default_path e) "scdb".

(** ** Errors (error.rs) *)

Inductive Error : Type :=
| BackendInit (msg : string)
| IO (msg : string)
| Compile (msg : string)
| Assembly (msg : string)
| Link (msg : string)
| LibLoading (msg : string)
| GetSymbol (msg : string)
| LockPoison (msg : string)
| Join (msg : string)
| Internal (msg : string)
| DisableCompiler.

(** What the compiler makes of code. *)
Class Revmc (SpecId : Type) : Type := {
  EvmCompilerFn : Type;
  Object : Type;
  jit : EvmCompiler -> string -> list Byte.byte -> SpecId -> result EvmCompilerFn string;
  translate : EvmCompiler -> string -> list Byte.byte -> SpecId -> result Object string;
  (** The function a library linked from an object exports under a name. *)
  exported : Object -> string -> option EvmCompilerFn;
}.

(** What a linker that fails leaves: the output as it was, an unfinished one, or none. *)
Inductive FailedLink : Type := Not_started | Left_unfinished | Output_removed.

(** Outcomes of the calls to the outside during one operation: the backend, creating
    the directory, writing the object, linking, removing the object, looking for the
    library and loading it. *)
Record Io : Type := mkIo {
  io_backend : result unit string;
  io_mkdir : result unit string;
  io_write : result unit string;
  io_link : result unit (string * FailedLink);
  io_remove : result unit string;
  io_exists : result unit string;
  io_load : result unit string;
}.

Section Compiler.
Context {SpecId : Type} `{!Revmc SpecId} (env : Vars).

(** ** Compiling *)

(** A library: one that is being written, or one linked from an object. *)
Inductive Library : Type :=
| Unfinished
| Linked (obj : Object).

(** The store: the files [a.o] and [a.so] by code hash. *)
Record Store : Type := mkStore { objects : gmap Z Object; libraries : gmap Z Library }.

Definition set_library (h : Z) (l : Library) (s : Store) : Store := mkStore (objects s) (<[h := l]> (libraries s)).

Record Compiler : Type := mkCompiler { opts : CompileOptions; compiler : EvmCompiler }.

Definition Compiler_new (io : Io) (o : CompileOptions) : result Compiler Error :=
  match io_backend io with
  | Err msg => Err (BackendInit msg)
  | Ok _ => Ok (mkCompiler o (mkEvmCompiler (is_aot o) Opt_Aggressive (no_gas o) (negb (no_len_checks o)) (module_name env)))
  end.

Definition jit_compile (c : Compiler) (bytecode : list Byte.byte) (spec_id : SpecId) : result EvmCompilerFn Error :=
  map_err Compile (jit (compiler c) (module_name env) bytecode spec_id).

(** The compiler [aot_compile] sets up for itself. *)
Definition aot_compiler (c : Compiler) : EvmCompiler :=
  mkEvmCompiler true (opt_level (opts c)) (no_gas (opts c)) (negb (no_len_checks (opts c))) (module_name env).

Definition aot_compile (io : Io) (c : Compiler) (code_hash : Z) (bytecode : list Byte.byte) (spec_id : SpecId)
    (s : Store) : result unit Error * Store :=
  match io_backend io with
  | Err msg => (Err (BackendInit msg), s)
  | Ok _ =>
      match translate (aot_compiler c) (module_name env) bytecode spec_id with
      | Err msg => (Err (Compile msg), s)
      | Ok obj =>
          match io_mkdir io with
          | Err msg => (Err (IO msg), s)
          | Ok _ =>
              match io_write io with
              | Err msg => (Err (Assembly msg), s)
              | Ok _ =>
                  let s1 := mkStore (<[code_hash := obj]> (objects s)) (libraries s) in
                  match io_link io with
                  | Err (msg, Not_started) => (Err (Link msg), s1)
                  | Err (msg, Left_unfinished) => (Err (Link msg), set_library code_hash Unfinished s1)
                  | Err (msg, Output_removed) => (Err (Link msg), mkStore (objects s1) (delete code_hash (libraries s1)))
                  | Ok _ =>
                      let s2 := set_library code_hash (Linked obj) s1 in
                      match io_remove io with
                      | Err msg => (Err (IO msg), s2)
                      | Ok _ => (Ok tt, mkStore (delete code_hash (objects s2)) (libraries s2))
                      end
                  end
              end
          end
      end
  end.

(** How far [aot_compile] is. *)
Inductive aot_pc : Type :=
| A_Compile
| A_Mkdir (obj : Object)
| A_Write (obj : Object)
| A_Link (obj : Object)
| A_Linking (obj : Object)
| A_Remove.

(** One call of [aot_compile]; the linker starts to write its output, and ends. *)
Definition aot_step (io : Io) (c : Compiler) (code_hash : Z) (bytecode : list Byte.byte) (spec_id : SpecId) (a : aot_pc)
    (s : Store) : (aot_pc + result unit Error) * Store :=
  match a with
  | A_Compile =>
      match io_backend io with
      | Err msg => (inr (Err (BackendInit msg)), s)
      | Ok _ =>
          match translate (aot_compiler c) (module_name env) bytecode spec_id with
          | Err msg => (inr (Err (Compile msg)), s)
          | Ok obj => (inl (A_Mkdir obj), s)
          end
      end
  | A_Mkdir obj => match io_mkdir io with Err msg => (inr (Err (IO msg)), s) | Ok _ => (inl (A_Write obj), s) end
  | A_Write obj =>
      match io_write io with
      | Err msg => (inr (Err (Assembly msg)), s)
      | Ok _ => (inl (A_Link obj), mkStore (<[code_hash := obj]> (objects s)) (libraries s))
      end
  | A_Link obj =>
      match io_link io with
      | Err (msg, Not_started) => (inr (Err (Link msg)), s)
      | _ => (inl (A_Linking obj), set_library code_hash Unfinished s)
      end
  | A_Linking obj =>
      match io_link io with
      | Err (msg, Output_removed) => (inr (Err (Link msg)), mkStore (objects s) (delete code_hash (libraries s)))
      | Err (msg, _) => (inr (Err (Link msg)), s)
      | Ok _ => (inl A_Remove, set_library code_hash (Linked obj) s)
      end
  | A_Remove =>
      match io_remove io with
      | Err msg => (inr (Err (IO msg)), s)
      | Ok _ => (inr (Ok tt), mkStore (delete code_hash (objects s)) (libraries s))
      end
  end.

(** [n] of these. *)
Fixpoint aot_run (io : Io) (c : Compiler) (code_hash : Z) (bytecode : list Byte.byte) (spec_id : SpecId) (n : nat)
    (a : aot_pc) (s : Store) : (aot_pc + result unit Error) * Store :=
  match n with
  | 0 => (inl a, s)
  | S n' =>
      match aot_step io c code_hash bytecode spec_id a s with
      | (inl a', s') => aot_run io c code_hash bytecode spec_id n' a' s'
      | (inr r, s') => (inr r, s')
      end
  end.

(** Six steps that nobody disturbs are the whole. *)
Lemma aot_run_compile (io : Io) (c : Compiler) (h : Z) (b : list Byte.byte) (spec_id : SpecId) (s : Store) :
  aot_run io c h b spec_id 6 A_Compile s =
  (let '(r, s') := aot_compile io c h b spec_id s in (inr r, s')).
Proof.
  unfold aot_compile. cbn [aot_run aot_step]. destruct (io_backend io); [|done]. destruct (translate _ _ _ _) as [obj|]; [|done].
  cbn [aot_run aot_step]. destruct (io_mkdir io); [|done]. cbn [aot_run aot_step]. destruct (io_write io); [|done].
  cbn [aot_run aot_step]. unfold set_library. cbn [objects libraries].
  destruct (io_link io) as [|[msg []]] eqn:Hl; cbn [aot_run aot_step]; rewrite ?Hl; unfold set_library; cbn [objects libraries].
  - rewrite insert_insert_eq. cbn [aot_run aot_step]. by destruct (io_remove io).
  - done.
  - done.
  - by rewrite delete_insert_eq.
Qed.

(** ** The cache *)

(** [moka] caches: maps that may forget entries. *)
Inductive CompileCache : Type :=
| JIT (jit_cache : gmap Z EvmCompilerFn)
| AOT (aot_cache : gmap Z (EvmCompilerFn * Object)).

Definition cache_is_aot (c : CompileCache) : bool := match c with AOT _ => true | JIT _ => false end.

Definition cache_get (c : CompileCache) (code_hash : Z) : option EvmCompilerFn :=
  match c with
  | JIT jit_cache => jit_cache !! code_hash
  | AOT aot_cache => fst <$> aot_cache !! code_hash
  end.

Definition cache_forget (code_hash : Z) (c : CompileCache) : CompileCache :=
  match c with
  | JIT jit_cache => JIT (delete code_hash jit_cache)
  | AOT aot_cache => AOT (delete code_hash aot_cache)
  end.

(** ** The pool *)

(** A task: what it is to compile, and how far it is. It holds a permit of the
    semaphore from [T_Check] on, and the compiler's mutex at [T_Compile]. *)
Inductive task_pc : Type :=
| T_Acquire
| T_Check
| T_Lock
| T_Compile (a : aot_pc)
| T_Done (r : result unit Error).

Record Task : Type := mkTask {
  t_spec_id : SpecId;
  t_code_hash : Z;
  t_bytecode : list Byte.byte;
  t_pc : task_pc;
}.

Record CompilePool : Type := mkCompilePool {
  threshold : Z;
  cache : CompileCache;
  semaphore : nat;
  pool_compiler : Compiler;
  locked_by : option nat;
  tasks : list Task;
  store : Store;
}.

Definition new_with_config (io : Io) (thr : Z) (max_concurrent_tasks : nat) (o : CompileOptions) (s : Store) :
    result CompilePool Error :=
  result_bind (Compiler_new io o) (fun c =>
    Ok (mkCompilePool thr (if is_aot o then AOT ∅ else JIT ∅) max_concurrent_tasks c None [] s)).

Definition CompilePool_new (io : Io) (aot : bool) (thr : Z) (max_concurrent_tasks : nat) (s : Store) :
    result CompilePool Error :=
  new_with_config io thr max_concurrent_tasks
    (mkCompileOptions aot (opt_level CompileOptions_default) (no_gas CompileOptions_default)
       (no_len_checks CompileOptions_default)) s.

(** [spawn] hands a task to the runtime. *)
Definition pool_spawn (spec_id : SpecId) (code_hash : Z) (bytecode : list Byte.byte) (p : CompilePool) : CompilePool :=
  mkCompilePool (threshold p) (cache p) (semaphore p) (pool_compiler p) (locked_by p)
    (tasks p ++ [mkTask spec_id code_hash bytecode T_Acquire]) (store p).

Definition set_task (i : nat) (t : Task) (pc : task_pc) (p : CompilePool) (c : CompileCache) (sem : nat)
    (l : option nat) (s : Store) : CompilePool :=
  mkCompilePool (threshold p) c sem (pool_compiler p) l
    (<[i := mkTask (t_spec_id t) (t_code_hash t) (t_bytecode t) pc]> (tasks p)) s.

(** What a task does once it has the compiler: the outcome, the cache, the store. *)
Definition compile_task (io : Io) (t : Task) (p : CompilePool) : result unit Error * CompileCache * Store :=
  let c := pool_compiler p in
  if is_aot (opts c) then
    let '(r, s) := aot_compile io c (t_code_hash t) (t_bytecode t) (t_spec_id t) (store p) in (r, cache p, s)
  else
    match jit_compile c (t_bytecode t) (t_spec_id t) with
    | Err e => (Err e, cache p, store p)
    | Ok f =>
        (Ok tt, match cache p with
                | JIT jit_cache => JIT (<[t_code_hash t := f]> jit_cache)
                | AOT aot_cache => AOT aot_cache
                end, store p)
    end.

(** One step of that: just in time there is only one. *)
Definition compile_step (io : Io) (t : Task) (a : aot_pc) (p : CompilePool) :
    (aot_pc + result unit Error) * CompileCache * Store :=
  if is_aot (opts (pool_compiler p)) then
    let '(next, s) := aot_step io (pool_compiler p) (t_code_hash t) (t_bytecode t) (t_spec_id t) a (store p) in
    (next, cache p, s)
  else let '(r, c, s) := compile_task io t p in (inr r, c, s).

(** One step of task [i]; at its end it gives back the permit and the mutex. *)
Definition task_step (io : Io) (i : nat) (p : CompilePool) : option CompilePool :=
  match tasks p !! i with
  | None => None
  | Some t =>
      match t_pc t with
      | T_Acquire =>
          match semaphore p with
          | 0 => None
          | S k => Some (set_task i t T_Check p (cache p) k (locked_by p) (store p))
          end
      | T_Check =>
          if (t_code_hash t =? 0)%Z
          then Some (set_task i t (T_Done (Ok tt)) p (cache p) (S (semaphore p)) (locked_by p) (store p))
          else Some (set_task i t T_Lock p (cache p) (semaphore p) (locked_by p) (store p))
      | T_Lock =>
          match locked_by p with
          | Some _ => None
          | None => Some (set_task i t (T_Compile A_Compile) p (cache p) (semaphore p) (Some i) (store p))
          end
      | T_Compile a =>
          match compile_step io t a p with
          | (inl a', c, s) => Some (set_task i t (T_Compile a') p c (semaphore p) (locked_by p) s)
          | (inr r, c, s) => Some (set_task i t (T_Done r) p c (S (semaphore p)) None s)
          end
      | T_Done _ => None
      end
  end.

(** ** The worker *)

Inductive FetchedFnResult : Type :=
| Found (f : EvmCompilerFn)
| NotFound.

Record ExtCompileWorker : Type := mkExtCompileWorker {
  pool : option CompilePool;
  worker_module_name : string;
  worker_store_path : string;
}.

Definition worker_disable : ExtCompileWorker := mkExtCompileWorker None (module_name env) (store_path env).

Definition worker_new_with_opts (io : Io) (o : ExtCompileOptions) (s : Store) : result ExtCompileWorker Error :=
  result_bind (CompilePool_new io (ext_is_aot o) (ext_threshold o) (ext_pool_size o) s) (fun p =>
    Ok (mkExtCompileWorker (Some p) (module_name env) (store_path env))).

Definition worker_aot (io : Io) (s : Store) : result ExtCompileWorker Error :=
  worker_new_with_opts io (mkExtCompileOptions true (ext_threshold ExtCompileOptions_default)
    (ext_pool_size ExtCompileOptions_default) (ext_cache_size ExtCompileOptions_default)) s.
Definition worker_jit (io : Io) (s : Store) : result ExtCompileWorker Error :=
  worker_new_with_opts io (mkExtCompileOptions false (ext_threshold ExtCompileOptions_default)
    (ext_pool_size ExtCompileOptions_default) (ext_cache_size ExtCompileOptions_default)) s.

Definition set_cache (c : CompileCache) (p : CompilePool) : CompilePool :=
  mkCompilePool (threshold p) c (semaphore p) (pool_compiler p) (locked_by p) (tasks p) (store p).

(** What a lookup finds, before the cache is changed: a cached function, a loaded one
    with its library, nothing, or an error. *)
Inductive Looked : Type :=
| L_Cached (f : EvmCompilerFn)
| L_Loaded (f : EvmCompilerFn) (obj : Object)
| L_Nothing
| L_Error (e : Error).

Definition look (io : Io) (name : string) (code_hash : Z) (p : CompilePool) : Looked :=
  if (code_hash =? 0)%Z then L_Nothing
  else match cache_get (cache p) code_hash with
  | Some f => L_Cached f
  | None =>
      match cache p, io_exists io, libraries (store p) !! code_hash with
      | AOT _, Ok _, Some lib =>
          match io_load io, lib with
          | Err msg, _ => L_Error (LibLoading msg)
          | Ok _, Unfinished => L_Error (LibLoading "unfinished")
          | Ok _, Linked obj =>
              match exported obj name with
              | None => L_Error (LibLoading name)
              | Some f => L_Loaded f obj
              end
          end
      | _, _, _ => L_Nothing
      end
  end.

(** A loaded library enters the cache. *)
Definition cache_insert (code_hash : Z) (f : EvmCompilerFn) (obj : Object) (p : CompilePool) : CompilePool :=
  match cache p with
  | AOT aot_cache => set_cache (AOT (<[code_hash := (f, obj)]> aot_cache)) p
  | JIT _ => p
  end.

(** [get_function] on the pool. *)
Definition fetch (io : Io) (name : string) (code_hash : Z) (p : CompilePool) :
    result FetchedFnResult Error * CompilePool :=
  match look io name code_hash p with
  | L_Cached f => (Ok (Found f), p)
  | L_Loaded f obj => (Ok (Found f), cache_insert code_hash f obj p)
  | L_Nothing => (Ok NotFound, p)
  | L_Error e => (Err e, p)
  end.

Definition with_pool (w : ExtCompileWorker) (p : CompilePool) : ExtCompileWorker :=
  mkExtCompileWorker (Some p) (worker_module_name w) (worker_store_path w).

Definition get_function (io : Io) (code_hash : Z) (w : ExtCompileWorker) :
    result FetchedFnResult Error * ExtCompileWorker :=
  match pool w with
  | None => (Err DisableCompiler, w)
  | Some p => let '(r, p') := fetch io (worker_module_name w) code_hash p in (r, with_pool w p')
  end.

Definition spawn (spec_id : SpecId) (code_hash : Z) (bytecode : list Byte.byte) (w : ExtCompileWorker) :
    result unit Error * ExtCompileWorker :=
  match pool w with
  | None => (Ok tt, w)
  | Some p => (Ok tt, with_pool w (pool_spawn spec_id code_hash bytecode p))
  end.

(** The task [block] waits for, when nothing else moves: nine steps are the most a task
    has. *)
Fixpoint task_steps (io : Io) (i n : nat) (p : CompilePool) : CompilePool :=
  match n with 0 => p | S n' => task_steps io i n' (default p (task_step io i p)) end.

Definition await_task (io : Io) (i : nat) (p : CompilePool) : CompilePool := task_steps io i 9 p.

Definition block (io io' : Io) (spec_id : SpecId) (code_hash : Z) (bytecode : list Byte.byte) (w : ExtCompileWorker) :
    result FetchedFnResult Error * ExtCompileWorker :=
  match pool w with
  | None => (Err DisableCompiler, w)
  | Some p =>
      get_function io' code_hash
        (with_pool w (await_task io (length (tasks p)) (pool_spawn spec_id code_hash bytecode p)))
  end.

(** ** The handler *)

(** [frame_call] of a frame with code of hash [code_hash] and bytes [bytecode];
    [run_interpreter] is what interpreting the frame does to the EVM. *)
Definition frame_call {Evm Action : Type} (run_interpreter : Evm -> Action * Evm) (io : Io) (spec_id : SpecId)
    (code_hash : option Z) (bytecode : list Byte.byte) (w : ExtCompileWorker) (evm : Evm) :
    Action * Evm * ExtCompileWorker :=
  match code_hash with
  | Some h =>
      match get_function io h w with
      | (Ok NotFound, w1) => (run_interpreter evm, (spawn spec_id h bytecode w1).2)
      | (Ok (Found _), w1) => (run_interpreter evm, w1)
      | (Err _, w1) => (run_interpreter evm, w1)
      end
  | None => (run_interpreter evm, w)
  end.

(** [CompilerHandler] is the worker it asks for compiled functions. *)
Record CompilerHandler : Type := mkCompilerHandler { handler_worker : ExtCompileWorker }.

Definition CompilerHandler_default : CompilerHandler := mkCompilerHandler worker_disable.
Definition CompilerHandler_new (w : ExtCompileWorker) : CompilerHandler := mkCompilerHandler w.
Definition CompilerHandler_aot (io : Io) (s : Store) : result CompilerHandler Error :=
  result_bind (worker_aot io s) (fun w => Ok (mkCompilerHandler w)).
Definition CompilerHandler_jit (io : Io) (s : Store) : result CompilerHandler Error :=
  result_bind (worker_jit io s) (fun w => Ok (mkCompilerHandler w)).

(** The handler of the parallel executor: the same frames, and no reward, which the
    executor adds to the write set itself. *)
Record WithoutRewardBeneficiaryHandler : Type := mkWithoutRewardBeneficiaryHandler { vm_worker : ExtCompileWorker }.

Definition WithoutReward_default : WithoutRewardBeneficiaryHandler := mkWithoutRewardBeneficiaryHandler worker_disable.
Definition WithoutReward_new (w : ExtCompileWorker) : WithoutRewardBeneficiaryHandler :=
  mkWithoutRewardBeneficiaryHandler w.

Definition WithoutReward_reward_beneficiary {Evm FrameResult E : Type} (_ : WithoutRewardBeneficiaryHandler) (evm : Evm)
    (exec_result : FrameResult) : result unit E * Evm * FrameResult := (Ok tt, evm, exec_result).

Definition WithoutReward_frame_call {Evm Action : Type} (run_interpreter : Evm -> Action * Evm) (io : Io) (spec_id : SpecId)
    (code_hash : option Z) (bytecode : list Byte.byte) (h : WithoutRewardBeneficiaryHandler) (evm : Evm) :
    Action * Evm * WithoutRewardBeneficiaryHandler :=
  match code_hash with
  | Some hash =>
      match get_function io hash (vm_worker h) with
      | (Ok NotFound, w) => (run_interpreter evm, mkWithoutRewardBeneficiaryHandler (spawn spec_id hash bytecode w).2)
      | (Ok (Found _), w) => (run_interpreter evm, mkWithoutRewardBeneficiaryHandler w)
      | (Err _, w) => (run_interpreter evm, mkWithoutRewardBeneficiaryHandler w)
      end
  | None => (run_interpreter evm, h)
  end.

(** ** The executors that share a worker *)

(** [ParallelExecutor], and [OpParallelExecutor], which has the same fields, with
    slots of results, the reason of an abort, and a dropper. *)
Record ParallelExecutor (R Reason Parts : Type) : Type := mkParallelExecutor {
  execution_results : list (option R);
  abort_reason : option Reason;
  dropper : AsyncDropper (T:=Parts);
  executor_worker : ExtCompileWorker;
}.

Section Executors.
Context {R Reason Parts : Type}.

Definition ParallelExecutor_default : ParallelExecutor R Reason Parts :=
  mkParallelExecutor R Reason Parts [] None AsyncDropper_default worker_disable.

(** [compiler]: a worker that cannot be made is a panic. *)
Definition ParallelExecutor_compiler (io : Io) (s : Store) : outcome (ParallelExecutor R Reason Parts) :=
  match worker_aot io s with
  | Ok w => Return (mkParallelExecutor R Reason Parts [] None AsyncDropper_default w)
  | Err _ => Panic
  end.

Definition OpParallelExecutor_default : ParallelExecutor R Reason Parts := ParallelExecutor_default.
Definition OpParallelExecutor_compiler : Io -> Store -> outcome (ParallelExecutor R Reason Parts) := ParallelExecutor_compiler.

(** With the compiler or without, an executor starts with no slot, no reason and an
    open dropper; only one made with [compiler] has a pool. *)
Lemma compiler_executor (io : Io) (s : Store) (x : ParallelExecutor R Reason Parts) :
  ParallelExecutor_compiler io s = Return x ->
  is_Some (pool (executor_worker _ _ _ x)) /\ pool (executor_worker _ _ _ ParallelExecutor_default) = None /\
  execution_results _ _ _ x = [] /\ abort_reason _ _ _ x = None /\ sender (dropper _ _ _ x) = true.
Proof.
  unfold ParallelExecutor_compiler, worker_aot, worker_new_with_opts, result_bind.
  destruct (CompilePool_new _ _ _ _ _) as [p|e]; [|done]. intros [= <-]. split; [by exists p|done].
Qed.

End Executors.

(** ** Runs of the pool *)

Section Runs.
(** [is_code h b]: [b] is the code of hash [h]. *)
Context (is_code : Z -> list Byte.byte -> Prop) (name : string).

(** Spawns with the code of the hash, steps of tasks, lookups, each of which loads a
    library and later enters it into the cache, and forgotten entries, in any order; with
    the functions loaded so far. *)
Inductive pool_reachable (p0 : CompilePool) : list (Z * EvmCompilerFn * Object) -> CompilePool -> Prop :=
| pool_init : pool_reachable p0 [] p0
| pool_spawns l p spec_id h b : pool_reachable p0 l p -> is_code h b -> pool_reachable p0 l (pool_spawn spec_id h b p)
| pool_steps l p io i p' : pool_reachable p0 l p -> task_step io i p = Some p' -> pool_reachable p0 l p'
| pool_loads l p io h f obj : pool_reachable p0 l p -> look io name h p = L_Loaded f obj -> pool_reachable p0 ((h, f, obj) :: l) p
| pool_inserts l p h f obj : pool_reachable p0 l p -> (h, f, obj) ∈ l -> pool_reachable p0 l (cache_insert h f obj p)
| pool_forgets l p h : pool_reachable p0 l p -> pool_reachable p0 l (set_cache (cache_forget h (cache p)) p).

(** The compilers a pool with options [o] is to use: just in time with full optimization,
    ahead of time with the level asked for. Metering is on when [no_gas] is. *)
Definition jit_setup (o : CompileOptions) : EvmCompiler :=
  mkEvmCompiler false Opt_Aggressive (no_gas o) (negb (no_len_checks o)) (module_name env).
Definition aot_setup (o : CompileOptions) : EvmCompiler :=
  mkEvmCompiler true (opt_level o) (no_gas o) (negb (no_len_checks o)) (module_name env).

(** The function comes from the code of the hash, compiled for some hard fork. *)
Definition jit_of (o : CompileOptions) (h : Z) (f : EvmCompilerFn) : Prop :=
  exists b spec_id, is_code h b /\ jit (jit_setup o) (module_name env) b spec_id = Ok f.
Definition library_of (o : CompileOptions) (h : Z) (obj : Object) : Prop :=
  exists b spec_id, is_code h b /\ translate (aot_setup o) (module_name env) b spec_id = Ok obj.

Definition cache_ok (o : CompileOptions) (k : CompileCache) : Prop :=
  match k with
  | JIT m => is_aot o = false /\ forall h f, m !! h = Some f -> jit_of o h f
  | AOT m => is_aot o = true /\
      forall h f obj, m !! h = Some (f, obj) -> library_of o h obj /\ exported obj name = Some f
  end.

Definition libraries_ok (o : CompileOptions) (s : Store) : Prop :=
  forall h obj, libraries s !! h = Some (Linked obj) -> library_of o h obj.

(** Holding a permit, and the compiler. *)
Definition permit (t : Task) : nat := match t_pc t with T_Acquire | T_Done _ => 0 | _ => 1 end.
Definition compiling (t : Task) : Prop := exists a, t_pc t = T_Compile a.

(** The object a task has made. *)
Definition in_hand (o : CompileOptions) (h : Z) (a : aot_pc) : Prop :=
  match a with
  | A_Mkdir obj | A_Write obj | A_Link obj | A_Linking obj => library_of o h obj
  | A_Compile | A_Remove => True
  end.

Definition task_ok (o : CompileOptions) (t : Task) : Prop :=
  is_code (t_code_hash t) (t_bytecode t) /\ forall a, t_pc t = T_Compile a -> in_hand o (t_code_hash t) a.

Record pool_ok (n : nat) (o : CompileOptions) (p : CompilePool) : Prop := mkPoolOk {
  po_opts : opts (pool_compiler p) = o;
  po_compiler : is_aot o = false -> compiler (pool_compiler p) = jit_setup o;
  po_cache : cache_ok o (cache p);
  po_store : libraries_ok o (store p);
  po_tasks : forall i t, tasks p !! i = Some t -> task_ok o t;
  po_permits : semaphore p + sum_list_with permit (tasks p) = n;
  po_lock : forall i t, tasks p !! i = Some t -> (compiling t <-> locked_by p = Some i);
  po_holder : forall i, locked_by p = Some i -> i < length (tasks p);
}.

(** What was loaded. *)
Definition loaded_ok (o : CompileOptions) (l : list (Z * EvmCompilerFn * Object)) : Prop :=
  forall h f obj, (h, f, obj) ∈ l -> is_aot o = true /\ library_of o h obj /\ exported obj name = Some f.

Lemma set_library_ok (o : CompileOptions) (h : Z) (lib : Library) (s : Store) :
  libraries_ok o s -> (forall obj, lib = Linked obj -> library_of o h obj) -> libraries_ok o (set_library h lib s).
Proof.
  intros Hs Hl h' obj Hx. cbn in Hx. apply lookup_insert_Some in Hx as [[<- Heq]|[_ H']]; [by apply Hl|by apply Hs].
Qed.

Lemma aot_step_ok (io : Io) (c : Compiler) (h : Z) (b : list Byte.byte) (spec_id : SpecId) (a : aot_pc) (s s' : Store)
    (next : aot_pc + result unit Error) :
  is_code h b -> in_hand (opts c) h a -> libraries_ok (opts c) s -> aot_step io c h b spec_id a s = (next, s') ->
  libraries_ok (opts c) s' /\ forall a', next = inl a' -> in_hand (opts c) h a'.
Proof.
  intros Hb Ha Hs Hst. unfold aot_step in Hst. destruct a as [|obj|obj|obj|obj|]; cbn in Ha.
  - destruct (io_backend io); [|by simplify_eq]. destruct (translate _ _ _ _) as [obj|] eqn:Ht; simplify_eq; [|done].
    split; [done|]. intros a' [= <-]. by exists b, spec_id.
  - destruct (io_mkdir io); simplify_eq; [|done]. split; [done|]. by intros a' [= <-].
  - destruct (io_write io); simplify_eq; [|done]. split; [done|]. by intros a' [= <-].
  - assert (Hu : libraries_ok (opts c) (set_library h Unfinished s)) by (by apply set_library_ok).
    destruct (io_link io) as [|[msg []]]; simplify_eq; (split; [done|]); by intros a' [= <-].
  - destruct (io_link io) as [|[msg []]]; simplify_eq; (split; [|by intros a' [= <-]]); try done.
    + apply set_library_ok; [done|]. by intros obj' [= <-].
    + intros h' obj' H'. cbn in H'. apply lookup_delete_Some in H' as [_ H']. by apply Hs.
  - destruct (io_remove io); by simplify_eq.
Qed.

Lemma compile_step_ok (n : nat) (o : CompileOptions) (io : Io) (t : Task) (a : aot_pc) (p : CompilePool)
    (next : aot_pc + result unit Error) (k : CompileCache) (s : Store) :
  pool_ok n o p -> task_ok o t -> t_pc t = T_Compile a -> compile_step io t a p = (next, k, s) ->
  cache_ok o k /\ libraries_ok o s /\ forall a', next = inl a' -> in_hand o (t_code_hash t) a'.
Proof.
  intros HO [Hb Hin] Hpc. unfold compile_step. pose proof (po_cache _ _ _ HO) as Hk. pose proof (po_store _ _ _ HO) as Hs.
  pose proof (po_opts _ _ _ HO) as <-. destruct (is_aot _) eqn:Haot.
  - destruct (aot_step _ _ _ _ _ _ _) as [nx s'] eqn:Ha. intros [= <- <- <-]. split; [done|].
    by eapply aot_step_ok; [exact Hb|by apply Hin| |exact Ha].
  - unfold compile_task, jit_compile. rewrite Haot, (po_compiler _ _ _ HO Haot).
    destruct (jit _ _ _ _) as [f|] eqn:Hj; intros [= <- <- <-]; (split; [|split; [done|done]]); [|done].
    destruct (cache p) as [m|m]; [|done]. destruct Hk as [_ Hk]. split; [done|].
    intros h f' [[<- <-]|[_ Hf]]%lookup_insert_Some; [|by apply Hk]. by exists (t_bytecode t), (t_spec_id t).
Qed.

(** The invariant holds when task [i] goes from [t] to [pc]. *)
Lemma set_task_ok (n i sem : nat) (o : CompileOptions) (t : Task) (pc : task_pc) (p : CompilePool) (k : CompileCache)
    (l : option nat) (s : Store) :
  pool_ok n o p -> tasks p !! i = Some t -> cache_ok o k -> libraries_ok o s ->
  (forall a, pc = T_Compile a -> in_hand o (t_code_hash t) a) ->
  sem + permit (mkTask (t_spec_id t) (t_code_hash t) (t_bytecode t) pc) = semaphore p + permit t ->
  ((exists a, pc = T_Compile a) <-> l = Some i) ->
  (forall j, j ≠ i -> l = Some j <-> locked_by p = Some j) ->
  pool_ok n o (set_task i t pc p k sem l s).
Proof.
  intros HO Ht Hk Hs Hin Hsem Hpc Hl. constructor; cbn [set_task pool_compiler cache store tasks semaphore locked_by]; try done; try apply HO.
  - intros j u Hu. apply lookup_insert_cases in Hu as [(-> & -> & _)|[_ Hu]]; [|by eapply (po_tasks _ _ _ HO)].
    split; [exact (proj1 (po_tasks _ _ _ HO _ _ Ht))|exact Hin].
  - pose proof (sum_list_with_insert permit _ _ _ (mkTask (t_spec_id t) (t_code_hash t) (t_bytecode t) pc) Ht).
    pose proof (po_permits _ _ _ HO). lia.
  - intros j u Hu. apply lookup_insert_cases in Hu as [(-> & -> & _)|[Hne Hu]]; [done|].
    rewrite Hl by done. by apply (po_lock _ _ _ HO).
  - intros j Hj. rewrite length_insert. destruct (decide (j = i)) as [->|Hne]; [by eapply lookup_lt_Some|].
    apply (po_holder _ _ _ HO). by apply Hl.
Qed.

Lemma task_step_ok (n : nat) (o : CompileOptions) (io : Io) (i : nat) (p p' : CompilePool) :
  pool_ok n o p -> task_step io i p = Some p' -> pool_ok n o p'.
Proof.
  intros HO Hs. unfold task_step in Hs. destruct (tasks p !! i) as [t|] eqn:Ht; [|done].
  pose proof (po_lock _ _ _ HO _ _ Ht) as Hlock. pose proof (po_tasks _ _ _ HO _ _ Ht) as Htask. unfold compiling in Hlock.
  destruct (t_pc t) eqn:Hpc; cbn in Hs.
  - destruct (semaphore p) eqn:Hsem; [done|]. injection Hs as <-.
    apply set_task_ok; try done; try apply HO; [unfold permit; rewrite Hpc; cbn; lia|].
    split; [by intros [? ?]|]. intros Hl. by apply Hlock in Hl as [? ?].
  - destruct (t_code_hash t =? 0)%Z; injection Hs as <-;
      (apply set_task_ok; try done; try apply HO; [unfold permit; rewrite Hpc; cbn; lia|]);
      (split; [by intros [? ?]|]); intros Hl; by apply Hlock in Hl as [? ?].
  - destruct (locked_by p) eqn:Hl; [done|]. injection Hs as <-.
    apply set_task_ok; try done; try apply HO; [by intros a [= <-]|unfold permit; rewrite Hpc; cbn; lia|split; [done|by eexists]|].
    intros j Hj. split; [congruence|]. by rewrite Hl.
  - assert (Hheld : locked_by p = Some i) by (apply Hlock; by eexists).
    destruct (compile_step io t a p) as [[next k] s] eqn:Hc.
    destruct (compile_step_ok n o io t a p next k s HO Htask Hpc Hc) as (Hk & Hst & Hin).
    destruct next as [a'|r]; injection Hs as <-; apply set_task_ok; try done;
      try (unfold permit; rewrite Hpc; cbn; lia).
    + intros a0 [= <-]. by apply Hin.
    + split; [done|by eexists].
    + split; [by intros [? ?]|done].
    + intros j Hj. split; [done|]. rewrite Hheld. congruence.
  - done.
Qed.

Lemma set_cache_ok (n : nat) (o : CompileOptions) (k : CompileCache) (p : CompilePool) :
  pool_ok n o p -> cache_ok o k -> pool_ok n o (set_cache k p).
Proof. intros [] Hk. by constructor. Qed.

Lemma look_ok (n : nat) (o : CompileOptions) (io : Io) (h : Z) (p : CompilePool) :
  pool_ok n o p ->
  match look io name h p with
  | L_Cached f => if is_aot o then exists obj, library_of o h obj /\ exported obj name = Some f else jit_of o h f
  | L_Loaded f obj => is_aot o = true /\ library_of o h obj /\ exported obj name = Some f
  | L_Nothing | L_Error _ => True
  end.
Proof.
  intros HO. pose proof (po_cache _ _ _ HO) as Hk. pose proof (po_store _ _ _ HO) as Hs.
  unfold look. destruct (h =? 0)%Z; [done|]. destruct (cache p) as [m|m]; destruct Hk as [Ha Hk]; cbn; rewrite Ha.
  - destruct (m !! h) eqn:Hm; [by apply Hk|done].
  - destruct (m !! h) as [[f obj]|] eqn:Hm; cbn; [exists obj; by apply Hk|].
    destruct (io_exists io); [|done]. destruct (libraries (store p) !! h) as [lib|] eqn:Hl; [|done].
    destruct (io_load io); [|done]. destruct lib as [|obj]; [done|].
    destruct (exported obj name) eqn:He; [|done]. split; [done|]. split; [by apply Hs|done].
Qed.

Lemma cache_insert_ok (n : nat) (o : CompileOptions) (h : Z) (f : EvmCompilerFn) (obj : Object) (p : CompilePool) :
  pool_ok n o p -> library_of o h obj -> exported obj name = Some f -> pool_ok n o (cache_insert h f obj p).
Proof.
  intros HO Hl He. unfold cache_insert. destruct (cache p) as [m|m] eqn:Hc; [done|]. apply set_cache_ok; [done|].
  pose proof (po_cache _ _ _ HO) as Hk. rewrite Hc in Hk. destruct Hk as [Ha Hk]. split; [done|].
  intros h' f' obj' [[<- Heq]|[_ H']]%lookup_insert_Some; [|by apply Hk]. by simplify_eq.
Qed.

Lemma forget_ok (o : CompileOptions) (h : Z) (k : CompileCache) : cache_ok o k -> cache_ok o (cache_forget h k).
Proof.
  destruct k as [m|m]; intros [Ha Hk]; (split; [done|]).
  - intros h' f [_ Hf]%lookup_delete_Some. by apply Hk.
  - intros h' f obj [_ Hf]%lookup_delete_Some. by apply Hk.
Qed.

Lemma spawn_ok (n : nat) (o : CompileOptions) (spec_id : SpecId) (h : Z) (b : list Byte.byte) (p : CompilePool) :
  pool_ok n o p -> is_code h b -> pool_ok n o (pool_spawn spec_id h b p).
Proof.
  intros HO Hb. pose proof (po_holder _ _ _ HO) as Hl. constructor; cbn [pool_spawn pool_compiler cache store tasks semaphore locked_by]; try apply HO.
  - intros i t [Ht|(_ & Ht)]%lookup_app_Some; [by eapply (po_tasks _ _ _ HO)|].
    apply list_lookup_singleton_Some in Ht as [_ <-]. by split.
  - rewrite sum_list_with_app. cbn. pose proof (po_permits _ _ _ HO). lia.
  - intros i t [Ht|(Hge & Ht)]%lookup_app_Some; [by apply (po_lock _ _ _ HO)|].
    apply list_lookup_singleton_Some in Ht as [Hi <-]. unfold compiling. cbn. split; [by intros [? ?]|].
    intros H'%Hl. lia.
  - intros i Hi%Hl. rewrite length_app. lia.
Qed.

Lemma new_ok (io : Io) (thr : Z) (n : nat) (o : CompileOptions) (s : Store) (p : CompilePool) :
  new_with_config io thr n o s = Ok p -> libraries_ok o s -> pool_ok n o p.
Proof.
  unfold new_with_config, Compiler_new. destruct (io_backend io); [|done]. cbn. intros Hp Hs. injection Hp as <-.
  constructor; cbn in *; try done; try lia; [by intros ->|by destruct (is_aot o) eqn:Ha].
Qed.

Lemma pool_reachable_ok (n : nat) (o : CompileOptions) (p0 p : CompilePool) (l : list (Z * EvmCompilerFn * Object)) :
  pool_ok n o p0 -> pool_reachable p0 l p -> pool_ok n o p /\ loaded_ok o l.
Proof.
  intros H0. induction 1 as [|l p spec_id h b _ [IH Hl] Hb|l p io i p' _ [IH Hl] Hs|l p io h f obj _ [IH Hl] Hk|
    l p h f obj _ [IH Hl] Hin|l p h _ [IH Hl]].
  - split; [done|]. intros h f obj Hin. by apply elem_of_nil in Hin.
  - split; [by apply spawn_ok|done].
  - split; [by eapply task_step_ok|done].
  - split; [done|]. intros h' f' obj' [[= -> -> ->]|Hin]%elem_of_cons; [|by apply Hl].
    pose proof (look_ok n o io h p IH) as Hok. by rewrite Hk in Hok.
  - split; [|done]. destruct (Hl _ _ _ Hin) as (_ & Hlib & He). by apply cache_insert_ok.
  - split; [|done]. apply set_cache_ok; [done|]. apply forget_ok, IH.
Qed.

Lemma steps_reachable (io : Io) (i n : nat) (p0 p : CompilePool) (l : list (Z * EvmCompilerFn * Object)) :
  pool_reachable p0 l p -> pool_reachable p0 l (task_steps io i n p).
Proof.
  revert p. induction n as [|n IH]; intros p Hp; [done|]. cbn. apply IH.
  destruct (task_step io i p) eqn:Ht; [by eapply pool_steps|done].
Qed.

(** The invariant holds of a lookup that loads and inserts at once. *)
Lemma fetch_reachable (io : Io) (h : Z) (p0 p : CompilePool) (l : list (Z * EvmCompilerFn * Object)) :
  pool_reachable p0 l p -> exists l', pool_reachable p0 l' (fetch io name h p).2.
Proof.
  intros Hp. unfold fetch. destruct (look io name h p) as [f|f obj| |e] eqn:Hl; [by exists l| |by exists l..].
  exists ((h, f, obj) :: l). apply pool_inserts; [by eapply pool_loads|by left].
Qed.

(** A library that is being linked is not loaded. *)
Lemma unfinished_not_loaded (io : Io) (h : Z) (p : CompilePool) (f : EvmCompilerFn) (obj : Object) :
  libraries (store p) !! h = Some Unfinished -> look io name h p ≠ L_Loaded f obj.
Proof. intros Hl. unfold look. rewrite Hl. by repeat case_match. Qed.

(** ** Properties *)

(** C35. Whatever is spawned, however the steps of compilations and lookups interleave
    (a library is looked up while it is being written, and a loaded one enters the cache
    late) and whatever the cache forgets, a function the pool finds for a code hash was
    compiled from the code of that hash, for some hard fork: just in time by a compiler
    with full optimization, ahead of time with the level of the pool's options; in both
    cases with the checks of the stack they ask for, and with gas metering exactly if
    they ask for no gas, which is the wrong way round ([default_compiler_unmetered]).
    Libraries left by earlier processes are assumed to be such, and unfinished libraries
    to be rejected by the loader. *)
Theorem found_function_compiled (io0 : Io) (thr : Z) (n : nat) (o : CompileOptions) (s : Store) (p0 p : CompilePool)
    (l : list (Z * EvmCompilerFn * Object)) (Hnew : new_with_config io0 thr n o s = Ok p0)
    (Hs : forall h obj, libraries s !! h = Some (Linked obj) -> exists b spec_id, is_code h b /\
       translate (mkEvmCompiler true (opt_level o) (no_gas o) (negb (no_len_checks o)) (module_name env))
         (module_name env) b spec_id = Ok obj)
    (Hr : pool_reachable p0 l p) (io : Io) (h : Z) (f : EvmCompilerFn)
    (Hf : (fetch io name h p).1 = Ok (Found f)) :
  exists b spec_id, is_code h b /\
    if is_aot o then exists obj,
      translate (mkEvmCompiler true (opt_level o) (no_gas o) (negb (no_len_checks o)) (module_name env))
        (module_name env) b spec_id = Ok obj /\ exported obj name = Some f
    else jit (mkEvmCompiler false Opt_Aggressive (no_gas o) (negb (no_len_checks o)) (module_name env))
      (module_name env) b spec_id = Ok f.
Proof.
  destruct (pool_reachable_ok n o p0 p l (new_ok _ _ _ _ _ _ Hnew Hs) Hr) as [HO _].
  pose proof (look_ok n o io h p HO) as Hl. unfold fetch in Hf.
  destruct (look io name h p) as [f'|f' obj| |e]; simplify_eq/=.
  - destruct (is_aot o).
    + destruct Hl as (obj & (b & spec_id & Hb & Ht) & He). exists b, spec_id. split; [done|]. by exists obj.
    + destruct Hl as (b & spec_id & Hb & Hj). by exists b, spec_id.
  - destruct Hl as (-> & (b & spec_id & Hb & Ht) & He). exists b, spec_id. split; [done|]. by exists obj.
Qed.

(** C36. However the compilations interleave, at most as many of them hold a permit as
    the pool was created with, no permit is lost, and only one of them at a time is
    compiling, whatever the size of the pool. *)
Theorem compile_pool_bounded (io0 : Io) (thr : Z) (n : nat) (o : CompileOptions) (s : Store) (p0 p : CompilePool)
    (l : list (Z * EvmCompilerFn * Object)) (Hnew : new_with_config io0 thr n o s = Ok p0)
    (Hs : libraries_ok o s) (Hr : pool_reachable p0 l p) :
  semaphore p + sum_list_with permit (tasks p) = n /\
  (forall i j t u, tasks p !! i = Some t -> tasks p !! j = Some u -> compiling t -> compiling u -> i = j).
Proof.
  destruct (pool_reachable_ok n o p0 p l (new_ok _ _ _ _ _ _ Hnew Hs) Hr) as [HO _].
  split; [apply HO|]. intros i j t u Ht Hu Hct Hcu.
  apply (po_lock _ _ _ HO _ _ Ht) in Hct. apply (po_lock _ _ _ HO _ _ Hu) in Hcu. congruence.
Qed.

End Runs.

(** ** Waiting for a compilation *)

Lemma task_steps_some (io : Io) (i n : nat) (p p' : CompilePool) :
  task_step io i p = Some p' -> task_steps io i (S n) p = task_steps io i n p'.
Proof. intros Hp. cbn [task_steps]. by rewrite Hp. Qed.

Lemma task_steps_none (io : Io) (i n : nat) (p : CompilePool) : task_step io i p = None -> task_steps io i n p = p.
Proof. intros Hp. induction n as [|n IH]; [done|]. cbn [task_steps]. by rewrite Hp. Qed.

(** The pool [p] with one more task, at [pc]. *)
Definition with_task (p : CompilePool) (t : Task) (pc : task_pc) (sem : nat) (l : option nat) (k : CompileCache) (st : Store) :
    CompilePool :=
  mkCompilePool (threshold p) k sem (pool_compiler p) l
    (tasks p ++ [mkTask (t_spec_id t) (t_code_hash t) (t_bytecode t) pc])%list st.

Lemma with_task_lookup (p : CompilePool) (t : Task) (pc : task_pc) (sem : nat) (l : option nat) (k : CompileCache) (st : Store) :
  tasks (with_task p t pc sem l k st) !! length (tasks p) = Some (mkTask (t_spec_id t) (t_code_hash t) (t_bytecode t) pc).
Proof. by apply list_lookup_middle. Qed.

Lemma set_task_with (p : CompilePool) (t : Task) (pc pc' : task_pc) (sem sem' : nat) (l l' : option nat) (k k' : CompileCache)
    (st st' : Store) :
  set_task (length (tasks p)) (mkTask (t_spec_id t) (t_code_hash t) (t_bytecode t) pc) pc' (with_task p t pc sem l k st)
    k' sem' l' st' = with_task p t pc' sem' l' k' st'.
Proof. unfold set_task, with_task. cbn. by rewrite insert_app_r_alt, Nat.sub_diag by done. Qed.

(** The steps of the compilation itself. *)
Lemma compile_outcome (io : Io) (t : Task) (p : CompilePool) (sem : nat) (r : result unit Error) (k : CompileCache) (st : Store) :
  compile_task io t p = (r, k, st) ->
  task_steps io (length (tasks p)) 6 (with_task p t (T_Compile A_Compile) sem (Some (length (tasks p))) (cache p) (store p)) =
  with_task p t (T_Done r) (S sem) None k st.
Proof.
  set (i := length (tasks p)). intros Hc.
  assert (Hend : forall n r k st, task_steps io i n (with_task p t (T_Done r) (S sem) None k st) =
    with_task p t (T_Done r) (S sem) None k st).
  { intros. apply task_steps_none. unfold task_step, i. by rewrite with_task_lookup. }
  assert (Hstep : forall a s, task_step io i (with_task p t (T_Compile a) sem (Some i) (cache p) s) =
    match compile_step io t a (with_task p t (T_Compile a) sem (Some i) (cache p) s) with
    | (inl a', c, s') => Some (with_task p t (T_Compile a') sem (Some i) c s')
    | (inr r, c, s') => Some (with_task p t (T_Done r) (S sem) None c s')
    end).
  { intros a s. unfold task_step, i. rewrite with_task_lookup. cbn [t_pc].
    assert (Ht : compile_step io (mkTask (t_spec_id t) (t_code_hash t) (t_bytecode t) (T_Compile a)) a
      (with_task p t (T_Compile a) sem (Some i) (cache p) s) =
      compile_step io t a (with_task p t (T_Compile a) sem (Some i) (cache p) s)) by done.
    unfold i in Ht. rewrite Ht. destruct (compile_step _ _ _ _) as [[[a'|r'] c] s']; by rewrite set_task_with. }
  unfold compile_task in Hc. destruct (is_aot (opts (pool_compiler p))) eqn:Haot.
  - destruct (aot_compile _ _ _ _ _ _) as [r' st'] eqn:Ha. injection Hc as -> <- ->.
    pose proof (aot_run_compile io (pool_compiler p) (t_code_hash t) (t_bytecode t) (t_spec_id t) (store p)) as Hrun.
    rewrite Ha in Hrun. revert Hrun. generalize 6, A_Compile, (store p).
    induction n as [|n IH]; intros a s Hrun; [done|]. cbn [aot_run] in Hrun.
    specialize (Hstep a s). unfold compile_step in Hstep. cbn [pool_compiler with_task store cache] in Hstep. rewrite Haot in Hstep.
    destruct (aot_step _ _ _ _ _ _ _) as [[a'|r'] s']; rewrite (task_steps_some _ _ _ _ _ Hstep).
    + by apply IH.
    + injection Hrun as -> ->. apply Hend.
  - specialize (Hstep A_Compile (store p)). unfold compile_step, compile_task in Hstep.
    cbn [pool_compiler with_task store cache] in Hstep. rewrite Haot, Hc in Hstep.
    rewrite (task_steps_some _ _ _ _ _ Hstep). apply Hend.
Qed.

(** A task that nobody disturbs compiles and ends. *)
Lemma await_task_outcome (io : Io) (spec_id : SpecId) (h : Z) (b : list Byte.byte) (p : CompilePool)
    (r : result unit Error) (k : CompileCache) (st : Store) :
  0 < semaphore p -> locked_by p = None -> h ≠ 0%Z ->
  compile_task io (mkTask spec_id h b T_Acquire) p = (r, k, st) ->
  await_task io (length (tasks p)) (pool_spawn spec_id h b p) =
  mkCompilePool (threshold p) k (semaphore p) (pool_compiler p) None
    (tasks p ++ [mkTask spec_id h b (T_Done r)])%list st.
Proof.
  intros Hsem Hl Hh Hc. destruct (semaphore p) as [|sem] eqn:Hs; [lia|]. apply Z.eqb_neq in Hh.
  set (t := mkTask spec_id h b T_Acquire) in *.
  assert (H0 : pool_spawn spec_id h b p = with_task p t T_Acquire (S sem) None (cache p) (store p)).
  { unfold pool_spawn, with_task. by rewrite Hs, Hl. }
  unfold await_task. rewrite H0.
  rewrite (task_steps_some _ _ _ _ (with_task p t T_Check sem None (cache p) (store p)))
    by (unfold task_step; rewrite with_task_lookup; cbn [t_pc semaphore with_task]; by rewrite set_task_with).
  rewrite (task_steps_some _ _ _ _ (with_task p t T_Lock sem None (cache p) (store p))).
  2: { unfold task_step. rewrite with_task_lookup. cbn [t_pc]. change (t_code_hash (mkTask _ _ _ _)) with h. by rewrite Hh, set_task_with. }
  rewrite (task_steps_some _ _ _ _ (with_task p t (T_Compile A_Compile) sem (Some (length (tasks p))) (cache p) (store p))).
  2: { unfold task_step. rewrite with_task_lookup. cbn [t_pc locked_by with_task]. by rewrite set_task_with. }
  by rewrite (compile_outcome _ _ _ _ _ _ _ Hc).
Qed.

(** What [block] gives when nothing else uses the pool. Just in time: the function
    compiled from the code, or, when the compiler fails, what the cache had before.
    Ahead of time: the function the new library exports when every step succeeds;
    when the compilation fails and leaves no library the failure is not reported,
    the answer is [NotFound]. *)
Lemma block_outcome (io io' : Io) (spec_id : SpecId) (h : Z) (b : list Byte.byte) (w : ExtCompileWorker) (p : CompilePool)
    (Hp : pool w = Some p) (Hsem : 0 < semaphore p) (Hl : locked_by p = None) (Hh : h ≠ 0%Z) :
  (forall m, cache p = JIT m -> is_aot (opts (pool_compiler p)) = false ->
    (block io io' spec_id h b w).1 =
      Ok (match jit (compiler (pool_compiler p)) (module_name env) b spec_id with
          | Ok f => Found f
          | Err _ => match m !! h with Some f => Found f | None => NotFound end
          end)) /\
  (forall m obj f st, cache p = AOT m -> is_aot (opts (pool_compiler p)) = true -> m !! h = None ->
    aot_compile io (pool_compiler p) h b spec_id (store p) = (Ok tt, st) ->
    translate (aot_compiler (pool_compiler p)) (module_name env) b spec_id = Ok obj ->
    io_exists io' = Ok tt -> io_load io' = Ok tt -> exported obj (worker_module_name w) = Some f ->
    (block io io' spec_id h b w).1 = Ok (Found f)) /\
  (forall m e st, cache p = AOT m -> is_aot (opts (pool_compiler p)) = true -> m !! h = None ->
    aot_compile io (pool_compiler p) h b spec_id (store p) = (Err e, st) -> libraries st !! h = None ->
    (block io io' spec_id h b w).1 = Ok NotFound).
Proof.
  assert (Hblock : forall r k st, compile_task io (mkTask spec_id h b T_Acquire) p = (r, k, st) ->
    (block io io' spec_id h b w).1 = (fetch io' (worker_module_name w) h (mkCompilePool (threshold p) k (semaphore p)
      (pool_compiler p) None (tasks p ++ [mkTask spec_id h b (T_Done r)])%list st)).1).
  { intros r k st Hc. unfold block. rewrite Hp, (await_task_outcome _ _ _ _ _ _ _ _ Hsem Hl Hh Hc).
    unfold get_function. cbn [pool with_pool worker_module_name]. by destruct (fetch _ _ _ _). }
  apply Z.eqb_neq in Hh. unfold compile_task in Hblock. cbn [t_code_hash t_bytecode t_spec_id] in Hblock.
  unfold jit_compile in Hblock. split; [|split].
  - intros m Hm Ha. rewrite Ha, Hm in Hblock. unfold fetch, look in Hblock. rewrite Hh in Hblock.
    destruct (jit _ _ _ _) as [f|msg]; rewrite (Hblock _ _ _ eq_refl); cbn.
    + by rewrite lookup_insert_eq.
    + by destruct (m !! h).
  - intros m obj f st Hm Ha Hmh Hc Ht He Hload Hex. rewrite Ha, Hm, Hc in Hblock.
    rewrite (Hblock _ _ _ eq_refl). unfold fetch, look. rewrite Hh. cbn. rewrite Hmh. cbn. rewrite He.
    assert (Hst : libraries st !! h = Some (Linked obj)).
    { unfold aot_compile in Hc. rewrite Ht in Hc. repeat (case_match; simplify_eq/=). by rewrite lookup_insert_eq. }
    by rewrite Hst, Hload, Hex.
  - intros m e st Hm Ha Hmh Hc Hst. rewrite Ha, Hm, Hc in Hblock.
    rewrite (Hblock _ _ _ eq_refl). unfold fetch, look. rewrite Hh. cbn. rewrite Hmh. cbn. rewrite Hst.
    by destruct (io_exists io').
Qed.

(** [n] frames with the same code, while no compilation makes progress. *)
Fixpoint frame_calls {Evm Action : Type} (run_interpreter : Evm -> Action * Evm) (io : Io) (spec_id : SpecId) (h : Z)
    (b : list Byte.byte) (n : nat) (w : ExtCompileWorker) (evm : Evm) : list Action * Evm * ExtCompileWorker :=
  match n with
  | 0 => ([], evm, w)
  | S n' =>
      let '(a, evm1, w1) := frame_call run_interpreter io spec_id (Some h) b w evm in
      let '(acts, evm2, w2) := frame_calls run_interpreter io spec_id h b n' w1 evm1 in
      (a :: acts, evm2, w2)
  end.

(** Interpreting [n] frames. *)
Fixpoint interpret_n {Evm Action : Type} (run_interpreter : Evm -> Action * Evm) (n : nat) (evm : Evm) : list Action * Evm :=
  match n with
  | 0 => ([], evm)
  | S n' => let '(a, evm1) := run_interpreter evm in
            let '(acts, evm2) := interpret_n run_interpreter n' evm1 in (a :: acts, evm2)
  end.

Lemma frame_call_interprets {Evm Action : Type} (run_interpreter : Evm -> Action * Evm) (io : Io) (spec_id : SpecId)
    (h : option Z) (b : list Byte.byte) (w : ExtCompileWorker) (evm : Evm) :
  (frame_call run_interpreter io spec_id h b w evm).1 = run_interpreter evm.
Proof.
  unfold frame_call. destruct h as [h|]; [|done].
  by destruct (get_function io h w) as [[[f|]|e] w1]; destruct (run_interpreter evm).
Qed.

(** The two handlers treat a frame alike, and the parallel executor's, which leaves
    the beneficiary's reward out, leaves the EVM and the frame's result alone. *)
Lemma vm_handler_frame {Evm Action FrameResult E : Type} (run_interpreter : Evm -> Action * Evm) (io : Io)
    (spec_id : SpecId) (hash : option Z) (b : list Byte.byte) (h : WithoutRewardBeneficiaryHandler) (evm : Evm)
    (r : FrameResult) :
  WithoutReward_frame_call run_interpreter io spec_id hash b h evm =
    (let '(x, w) := frame_call run_interpreter io spec_id hash b (vm_worker h) evm in
     (x, mkWithoutRewardBeneficiaryHandler w)) /\
  (WithoutReward_frame_call run_interpreter io spec_id hash b h evm).1 = run_interpreter evm /\
  WithoutReward_reward_beneficiary h evm r = (Ok tt : result unit E, evm, r).
Proof.
  assert (Hf : WithoutReward_frame_call run_interpreter io spec_id hash b h evm =
    (let '(x, w) := frame_call run_interpreter io spec_id hash b (vm_worker h) evm in
     (x, mkWithoutRewardBeneficiaryHandler w))).
  { unfold WithoutReward_frame_call, frame_call. destruct hash as [hash|]; [|by destruct h, (run_interpreter evm)].
    by destruct (get_function io hash (vm_worker h)) as [[[f|]|e] w1]; destruct (run_interpreter evm). }
  split; [done|split; [|done]]. rewrite Hf.
  pose proof (frame_call_interprets run_interpreter io spec_id hash b (vm_worker h) evm) as Hi.
  by destruct (frame_call run_interpreter io spec_id hash b (vm_worker h) evm).
Qed.

(** Without a pool, as in the default handlers, frames change nothing but the EVM. *)
Lemma default_handler_inert {Evm Action : Type} (run_interpreter : Evm -> Action * Evm) (io : Io) (spec_id : SpecId)
    (hash : option Z) (b : list Byte.byte) (evm : Evm) :
  frame_call run_interpreter io spec_id hash b (handler_worker CompilerHandler_default) evm =
    (run_interpreter evm, worker_disable) /\
  WithoutReward_frame_call run_interpreter io spec_id hash b WithoutReward_default evm =
    (run_interpreter evm, WithoutReward_default).
Proof. by destruct hash. Qed.

(** Compiled code is never run: the handler interprets every frame, whatever the
    state of the worker, so that compiling cannot change an execution. Nor is a
    compilation ever shared: while a function is not there, every one of [n] calls
    queues another compilation of the same code, whatever the threshold. *)
Lemma frames_interpreted {Evm Action : Type} (run_interpreter : Evm -> Action * Evm) (io : Io) (spec_id : SpecId) (h : Z)
    (b : list Byte.byte) (n : nat) (w : ExtCompileWorker) (evm : Evm) :
  (frame_calls run_interpreter io spec_id h b n w evm).1 = interpret_n run_interpreter n evm /\
  forall p m, pool w = Some p -> cache p = JIT m -> m !! h = None ->
    (tasks <$> pool (frame_calls run_interpreter io spec_id h b n w evm).2) =
      Some (tasks p ++ replicate n (mkTask spec_id h b T_Acquire))%list.
Proof.
  revert w evm. induction n as [|n IH]; intros w evm.
  - split; [done|]. intros p m Hp _ _. cbn. rewrite Hp. cbn. by rewrite app_nil_r.
  - pose proof (frame_call_interprets run_interpreter io spec_id (Some h) b w evm) as Hf.
    cbn [frame_calls interpret_n].
    destruct (frame_call run_interpreter io spec_id (Some h) b w evm) as [[a evm1] w1] eqn:Hc. cbn in Hf. rewrite <- Hf.
    destruct (IH w1 evm1) as [IH1 IH2].
    destruct (frame_calls run_interpreter io spec_id h b n w1 evm1) as [[acts evm2] w2]. cbn in IH1, IH2. rewrite <- IH1.
    split; [done|]. intros p m Hp Hm Hmh. cbn [snd].
    assert (Hw1 : w1 = with_pool w (pool_spawn spec_id h b p)).
    { unfold frame_call, get_function, fetch, look in Hc. rewrite Hp, Hm in Hc. cbn in Hc. rewrite Hmh in Hc.
      destruct (run_interpreter evm). by destruct (h =? 0)%Z; cbn in Hc; injection Hc as _ _ <-. }
    rewrite (IH2 (pool_spawn spec_id h b p) m); [|by rewrite Hw1|done|done]. cbn. by rewrite <- app_assoc.
Qed.

(** The compiler is set up by handing [no_gas] to [gas_metering]: with the default
    options the code it makes does not meter gas, and asking for no gas metering
    turns it on; the checks of the stack are as asked for. *)
Lemma default_compiler_unmetered (io : Io) (aot : bool) (thr : Z) (n : nat) (s : Store) (p : CompilePool)
    (Hnew : CompilePool_new io aot thr n s = Ok p) :
  gas_metering (compiler (pool_compiler p)) = false /\ gas_metering (aot_compiler (pool_compiler p)) = false /\
  stack_bound_checks (compiler (pool_compiler p)) = true.
Proof.
  unfold CompilePool_new, new_with_config, Compiler_new in Hnew. destruct (io_backend io); [|done]. by injection Hnew as <-.
Qed.

End Compiler.

(** ** Examples *)

Section Examples.

(** A compiler that keeps the code, and fails on empty code. *)
#[local] Instance example_revmc : Revmc nat := {|
  EvmCompilerFn := list Byte.byte * nat; Object := list Byte.byte * nat;
  jit := fun _ _ b s => match b with [] => Err "empty" | _ => Ok (b, s) end;
  translate := fun _ _ b s => match b with [] => Err "empty" | _ => Ok (b, s) end;
  exported := fun o _ => Some o;
|}.

Definition example_vars : Vars := mkVars None None None.
Definition example_io : Io := mkIo (Ok tt) (Ok tt) (Ok tt) (Ok tt) (Ok tt) (Ok tt) (Ok tt).
Definition example_code : list Byte.byte := [Byte.x60; Byte.x00].
Definition example_store : Store := mkStore ∅ ∅.

(** The hash of the example code is 7. *)
Definition example_is_code (h : Z) (b : list Byte.byte) : Prop := h = 7%Z /\ b = example_code.

Definition example_pool (aot : bool) : CompilePool :=
  mkCompilePool 1 (if aot then AOT ∅ else JIT ∅) 3
    (mkCompiler (mkCompileOptions aot Opt_Aggressive false false)
       (mkEvmCompiler aot Opt_Aggressive false true (module_name example_vars))) None [] example_store.

Lemma example_pool_new (aot : bool) : CompilePool_new example_vars example_io aot 1 3 example_store = Ok (example_pool aot).
Proof. done. Qed.

Lemma example_store_empty : libraries_ok example_vars example_is_code (opts (pool_compiler (example_pool true))) example_store.
Proof. done. Qed.

(** The pool after the example code has been compiled ahead of time. *)
Definition example_compiled : CompilePool :=
  await_task example_vars example_io 0 (pool_spawn 20%nat 7 example_code (example_pool true)).

Lemma example_compiled_reachable :
  pool_reachable example_vars example_is_code (module_name example_vars) (example_pool true) [] example_compiled.
Proof. apply steps_reachable, pool_spawns; [apply pool_init|done]. Qed.

Lemma found_function_compiled_witness :
  exists b spec_id, example_is_code 7 b /\ exists obj,
    translate (mkEvmCompiler true Opt_Aggressive false true "default_module") "default_module" b spec_id = Ok obj /\
    exported obj "default_module" = Some (example_code, 20%nat).
Proof.
  exact (found_function_compiled example_vars example_is_code (module_name example_vars) example_io 1 3
    (opts (pool_compiler (example_pool true))) example_store (example_pool true) example_compiled []
    eq_refl example_store_empty example_compiled_reachable example_io 7
    (example_code, 20%nat) ltac:(vm_compute; reflexivity)).
Defined.

Lemma compile_pool_bounded_witness :
  semaphore example_compiled + sum_list_with permit (tasks example_compiled) = 3.
Proof.
  exact (proj1 (compile_pool_bounded example_vars example_is_code (module_name example_vars) example_io 1 3
    (opts (pool_compiler (example_pool true))) example_store (example_pool true) example_compiled []
    eq_refl example_store_empty example_compiled_reachable)).
Defined.

Definition example_worker (aot : bool) : ExtCompileWorker :=
  mkExtCompileWorker (Some (example_pool aot)) (module_name example_vars) (store_path example_vars).

(** The failure to compile empty code is not reported. *)
Lemma block_outcome_witness :
  (block example_vars example_io example_io 20%nat 7 example_code (example_worker false)).1 = Ok (Found (example_code, 20%nat)) /\
  (block example_vars example_io example_io 20%nat 7 [] (example_worker true)).1 = Ok NotFound.
Proof.
  split.
  - apply (proj1 (block_outcome example_vars example_io example_io 20%nat 7 example_code (example_worker false)
      (example_pool false) eq_refl ltac:(vm_compute; lia) eq_refl ltac:(lia)) ∅ eq_refl eq_refl).
  - apply (proj2 (proj2 (block_outcome example_vars example_io example_io 20%nat 7 [] (example_worker true)
      (example_pool true) eq_refl ltac:(vm_compute; lia) eq_refl ltac:(lia))) ∅ (Compile "empty") example_store
      eq_refl eq_refl eq_refl eq_refl eq_refl).
Defined.

Lemma frames_interpreted_witness :
  tasks <$> pool (frame_calls (fun k : nat => (k, S k)) example_io 20%nat 7 example_code 2 (example_worker false) 0).2 =
  Some (replicate 2 (mkTask 20%nat 7 example_code T_Acquire)).
Proof.
  exact (proj2 (frames_interpreted (fun k : nat => (k, S k)) example_io 20%nat 7 example_code 2 (example_worker false) 0)
    (example_pool false) ∅ eq_refl eq_refl eq_refl).
Defined.

Lemma default_compiler_unmetered_witness :
  gas_metering (compiler (pool_compiler (example_pool false))) = false.
Proof. exact (proj1 (default_compiler_unmetered example_vars example_io false 1 3 example_store _ (example_pool_new false))). Defined.

End Examples.
