(* ===== verification/Tools.v ===== *)
(** * Hard forks of the test drivers (crates/tools/src/lib.rs)

    The names test fixtures use for hard forks, what they stand for, and the fork of
    a mainnet block by its number and time. *)

From S2P Require Import Prelude.
Local Open Scope Z_scope.

(** [revm]'s hard forks that the tools name, in order. *)
Inductive SpecId : Type :=
| FRONTIER | HOMESTEAD | TANGERINE | SPURIOUS_DRAGON | BYZANTIUM | PETERSBURG | ISTANBUL
| BERLIN | LONDON | MERGE | SHANGHAI | CANCUN | PRAGUE | OSAKA.

Definition rank (s : SpecId) : nat :=
  match s with
  | FRONTIER => 0 | HOMESTEAD => 1 | TANGERINE => 2 | SPURIOUS_DRAGON => 3 | BYZANTIUM => 4 | PETERSBURG => 5
  | ISTANBUL => 6 | BERLIN => 7 | LONDON => 8 | MERGE => 9 | SHANGHAI => 10 | CANCUN => 11 | PRAGUE => 12 | OSAKA => 13
  end%nat.

(** [spec.is_enabled_in(other)]. *)
Definition is_enabled_in (spec other : SpecId) : bool := (rank other <=? rank spec)%nat.

Module SpecName.

Inductive SpecName : Type :=
| Frontier | FrontierToHomesteadAt5 | Homestead | HomesteadToDaoAt5 | HomesteadToEIP150At5 | EIP150 | EIP158
| EIP158ToByzantiumAt5 | Byzantium | ByzantiumToConstantinopleAt5 | ByzantiumToConstantinopleFixAt5 | Constantinople
| ConstantinopleFix | Istanbul | Berlin | BerlinToLondonAt5 | London | Paris | Merge | Shanghai | Cancun | Prague
| Osaka | Unknown.

#[global] Instance SpecName_eq_dec : EqDecision SpecName.
Proof. solve_decision. Defined.

Definition to_spec_id (self : SpecName) : outcome SpecId :=
  match self with
  | Frontier => Return FRONTIER
  | Homestead | FrontierToHomesteadAt5 => Return HOMESTEAD
  | EIP150 | HomesteadToDaoAt5 | HomesteadToEIP150At5 => Return TANGERINE
  | EIP158 => Return SPURIOUS_DRAGON
  | Byzantium | EIP158ToByzantiumAt5 => Return BYZANTIUM
  | ConstantinopleFix | ByzantiumToConstantinopleFixAt5 => Return PETERSBURG
  | Istanbul => Return ISTANBUL
  | Berlin => Return BERLIN
  | London | BerlinToLondonAt5 => Return LONDON
  | Paris | Merge => Return MERGE
  | Shanghai => Return SHANGHAI
  | Cancun => Return CANCUN
  | Prague => Return PRAGUE
  | Osaka => Return OSAKA
  | ByzantiumToConstantinopleAt5 | Constantinople => Panic
  | Unknown => Panic
  end.

End SpecName.

Definition get_block_spec (timestamp block_number : Z) : SpecId :=
  if 1710338135 <=? timestamp then CANCUN
  else if 1681338455 <=? timestamp then SHANGHAI
  else if 15537394 <=? block_number then MERGE
  else if 12965000 <=? block_number then LONDON
  else if 12244000 <=? block_number then BERLIN
  else if 9069000 <=? block_number then ISTANBUL
  else if 7280000 <=? block_number then PETERSBURG
  else if 4370000 <=? block_number then BYZANTIUM
  else if 2675000 <=? block_number then SPURIOUS_DRAGON
  else if 2463000 <=? block_number then TANGERINE
  else if 1150000 <=? block_number then HOMESTEAD
  else FRONTIER.

(** Along a chain the fork only advances, and stops at Cancun. *)
Lemma get_block_spec_monotone (t t' n n' : Z) :
  t <= t' -> n <= n' -> (rank (get_block_spec t n) <= rank (get_block_spec t' n') <= 11)%nat.
Proof.
  intros Ht Hn. unfold get_block_spec.
  repeat match goal with |- context [if ?a <=? ?b then _ else _] => destruct (Z.leb_spec a b) end; cbn; lia.
Qed.

(** ** Panics *)

#[export] Instance outcome_ret : MRet outcome := @Return.
#[export] Instance outcome_bind : MBind outcome := fun A B k m =>
  match m with Return a => k a | Panic => Panic | UB => UB end.

(** [U256::to::<u64>()]: panics when the value does not fit. *)
Definition to_u64 (v : Z) : outcome Z := if v <=? u64_MAX then Return v else Panic.

(** [assert_eq!]. *)
Definition assert (b : bool) : outcome unit := if b then Return tt else Panic.

Lemma to_u64_fits (v : Z) : v <= u64_MAX -> to_u64 v = Return v.
Proof. intros Hv. unfold to_u64. by rewrite (proj2 (Z.leb_le _ _)). Qed.
