(* ===== verification/Inference.v ===== *)
(** * The inference precompile (crates/vm/src/inference.rs)

    A precompiled contract that hands its input to a language model and returns the
    completion. The model is a parameter: an engine whose state a completion may
    change, and whose answer carries the number of tokens that is paid for. *)

From Stdlib Require Import String.
From S2P Require Import Prelude Tools.
Local Open Scope Z_scope.

Definition Bytes : Type := list Z.

Definition INFERENCE_PRECOMPILE_ADDRESS : Z := 0x999.
Definition GAS_PER_INFERENCE_TOKEN : Z := 100.

(** ** [String::from_utf8] *)

Definition between (lo hi b : Z) : bool := (lo <=? b) && (b <=? hi).

(** The ranges of the bytes after a first byte, [None] when it starts no character. *)
Definition continuation (b : Z) : option (list (Z * Z)) :=
  if between 0 0x7f b then Some []
  else if between 0xc2 0xdf b then Some [(0x80, 0xbf)]
  else if b =? 0xe0 then Some [(0xa0, 0xbf); (0x80, 0xbf)]
  else if b =? 0xed then Some [(0x80, 0x9f); (0x80, 0xbf)]
  else if between 0xe1 0xef b then Some [(0x80, 0xbf); (0x80, 0xbf)]
  else if b =? 0xf0 then Some [(0x90, 0xbf); (0x80, 0xbf); (0x80, 0xbf)]
  else if between 0xf1 0xf3 b then Some [(0x80, 0xbf); (0x80, 0xbf); (0x80, 0xbf)]
  else if b =? 0xf4 then Some [(0x80, 0x8f); (0x80, 0xbf); (0x80, 0xbf)]
  else None.

(** [pending] are the ranges of the bytes the current character still needs. *)
Fixpoint utf8_from (pending : list (Z * Z)) (bs : Bytes) : bool :=
  match bs, pending with
  | [], _ => match pending with [] => true | _ => false end
  | b :: bs', (lo, hi) :: pending' => between lo hi b && utf8_from pending' bs'
  | b :: bs', [] => match continuation b with Some ranges => utf8_from ranges bs' | None => false end
  end.

Definition from_utf8 (bs : Bytes) : option Bytes := if utf8_from [] bs then Some bs else None.

(** ** The precompile *)

Inductive PrecompileError : Type :=
| OutOfGas
| InvalidUtf8
| EngineFailed.

Record PrecompileOutput : Type := mkPrecompileOutput { gas_used : Z; bytes : Bytes }.

Record Completion : Type := mkCompletion { content : Bytes; total_tokens : Z }.

Section Inference.
Context {Engine : Type} (completion : Bytes -> Engine -> result Completion unit * Engine) (overflow_checks : bool).

(** [GAS_PER_INFERENCE_TOKEN * total_tokens as u64]. *)
Definition token_gas (tokens : Z) : outcome Z :=
  let g := GAS_PER_INFERENCE_TOKEN * (tokens mod 2 ^ 64) in
  if g <=? u64_MAX then Return g else if overflow_checks then Panic else Return (g mod 2 ^ 64).

Definition inference (input : Bytes) (gas_limit : Z) : M Engine (result PrecompileOutput PrecompileError) := fun engine =>
  match from_utf8 input with
  | None => Return (Err InvalidUtf8, engine)
  | Some prompt =>
      match completion prompt engine with
      | (Err _, engine') => Return (Err EngineFailed, engine')
      | (Ok c, engine') =>
          gas_used ← token_gas (total_tokens c);
          Return (if gas_limit <? gas_used then (Err OutOfGas, engine') else (Ok (mkPrecompileOutput gas_used (content c)), engine'))
      end
  end.

(** What is charged is within the limit, and it is the price of the tokens as long as
    that fits 64 bits. *)
Lemma inference_charges (input : Bytes) (gas_limit : Z) (engine engine' : Engine) (out : PrecompileOutput) :
  inference input gas_limit engine = Return (Ok out, engine') ->
  gas_used out <= gas_limit /\ from_utf8 input = Some input /\
  exists c, completion input engine = (Ok c, engine') /\ bytes out = content c /\
    (0 <= total_tokens c <= u64_MAX / 100 -> gas_used out = 100 * total_tokens c).
Proof.
  unfold inference, from_utf8. destruct (utf8_from [] input); [|done].
  destruct (completion input engine) as [[c|e] e'] eqn:Hc; [|done].
  unfold mbind, outcome_bind. destruct (token_gas (total_tokens c)) as [g| |] eqn:Hg; try done.
  destruct (Z.ltb_spec gas_limit g) as [|Hle]; [done|]. intros Heq. injection Heq as <- <-. split; [exact Hle|].
  split; [done|]. exists c. do 2 (split; [done|]). intros Ht. unfold token_gas, GAS_PER_INFERENCE_TOKEN in Hg. cbn [gas_used].
  assert (Hm : 100 * (u64_MAX / 100) <= u64_MAX) by (apply Z.mul_div_le; lia).
  rewrite Z.mod_small in Hg by (unfold u64_MAX, uint_max in *; lia). rewrite (proj2 (Z.leb_le _ _)) in Hg by lia.
  by injection Hg as <-.
Qed.

(** The model runs to its end before gas is looked at: a call with no gas at all does
    the same work. *)
Lemma inference_runs_unpaid (input : Bytes) (engine engine' : Engine) (c : Completion) :
  utf8_from [] input = true -> completion input engine = (Ok c, engine') -> 0 < total_tokens c <= u64_MAX / 100 ->
  inference input 0 engine = Return (Err OutOfGas, engine').
Proof.
  intros Hu Hc Ht. unfold inference, from_utf8. rewrite Hu, Hc. unfold mbind, outcome_bind, token_gas, GAS_PER_INFERENCE_TOKEN.
  assert (Hm : 100 * (u64_MAX / 100) <= u64_MAX) by (apply Z.mul_div_le; lia).
  rewrite Z.mod_small by (unfold u64_MAX, uint_max in *; lia). rewrite (proj2 (Z.leb_le _ _)) by lia.
  by rewrite (proj2 (Z.ltb_lt _ _)) by lia.
Qed.

(** ** The provider *)

Definition PrecompileFn : Type := Bytes -> Z -> M Engine (result PrecompileOutput PrecompileError).

(** Outside: the precompiles of a fork. *)
Context (eth_precompiles : SpecId -> gmap Z PrecompileFn).

Definition inference_precompiles : gmap Z PrecompileFn :=
  <[INFERENCE_PRECOMPILE_ADDRESS := inference]> (eth_precompiles PRAGUE).

Record InferencePrecompiles : Type := mkInferencePrecompiles { precompiles : gmap Z PrecompileFn; provider_spec : SpecId }.

(** Outside: [EthPrecompiles::set_spec], whose answer is thrown away. *)
Context (eth_set_spec : SpecId -> InferencePrecompiles -> InferencePrecompiles).

Definition set_spec (spec : SpecId) (self : InferencePrecompiles) : bool * InferencePrecompiles :=
  (true,
   if (rank spec =? rank PRAGUE)%nat then mkInferencePrecompiles inference_precompiles spec
   else eth_set_spec spec self).

Definition contains (address : Z) (self : InferencePrecompiles) : bool := bool_decide (is_Some (precompiles self !! address)).

Definition warm_addresses (self : InferencePrecompiles) : list Z := (map_to_list (precompiles self)).*1.

(** After [set_spec] the precompile is there under Prague, and under no other fork,
    not even a later one; all other addresses are those of the fork. *)
Lemma set_spec_contains (spec : SpecId) (self : InferencePrecompiles) (address : Z) :
  precompiles (eth_set_spec spec self) = eth_precompiles spec ->
  contains address (set_spec spec self).2 = true <->
  (address = INFERENCE_PRECOMPILE_ADDRESS /\ spec = PRAGUE) \/ is_Some (eth_precompiles spec !! address).
Proof.
  intros Heth. unfold contains, set_spec. rewrite bool_decide_eq_true.
  assert (Hp : (rank spec =? rank PRAGUE)%nat = true <-> spec = PRAGUE) by (destruct spec; cbn; split; done).
  destruct (rank spec =? rank PRAGUE)%nat; cbn.
  - rewrite (proj1 Hp eq_refl). unfold inference_precompiles. rewrite lookup_insert_is_Some'. split.
    + intros [<-|Ho]; [by left|by right].
    + intros [[-> _]|Ho]; [by left|by right].
  - rewrite Heth. split; [by right|]. intros [[_ Hs]|Ho]; [by apply Hp in Hs|done].
Qed.

Lemma warm_addresses_contains (self : InferencePrecompiles) (address : Z) :
  address ∈ warm_addresses self <-> contains address self = true.
Proof.
  unfold warm_addresses, contains. rewrite bool_decide_eq_true, list_elem_of_fmap. split.
  - intros ([a f] & -> & Hin). apply elem_of_map_to_list in Hin. by exists f.
  - intros [f Hf]. exists (address, f). split; [done|]. by apply elem_of_map_to_list.
Qed.

End Inference.

(** ** The engine and the runtime *)

(** The engine is made by the first caller, inside a runtime of tokio; [block_on]
    panics on a thread that is inside one already. *)
Section Engine.
Context {Engine : Type} (completion : Bytes -> Engine -> result Completion unit * Engine) (overflow_checks : bool).

(** Outside: loading a model, and the precompiles of a new provider. *)
Context (LlamaEngine_new : string -> option Engine) (eth_default : gmap Z (PrecompileFn (Engine:=Engine))) (default_spec : SpecId).

Definition DEFAULT_MODEL_PATH : string := "/root/models/qwen2.5-1.5b-instruct-q5_k_m.gguf".

(** The static engine, and the variable METIS_VM_MODEL_PATH of the environment. *)
Record Host : Type := mkHost { LLAMA_ENGINE : option Engine; METIS_VM_MODEL_PATH : option string }.

(** [inside]: whether the thread is inside a runtime. *)
Definition block_on {A : Type} (inside : bool) (future : bool -> M Host A) : M Host A :=
  if inside then panic else future true.

Definition get_or_init_engine (inside : bool) : M Host Engine := fun host =>
  match LLAMA_ENGINE host with
  | Some engine => Return (engine, host)
  | None =>
      block_on inside (fun _ host =>
        let model_path := default DEFAULT_MODEL_PATH (METIS_VM_MODEL_PATH host) in
        match LlamaEngine_new model_path with
        | Some engine => Return (engine, mkHost (Some engine) (METIS_VM_MODEL_PATH host))
        | None => Panic
        end) host
  end.

(** The completion, under the lock of the engine. *)
Definition complete (prompt : Bytes) : bool -> M Host (result Completion unit) := fun inside host =>
  match get_or_init_engine inside host with
  | Return (engine, host') =>
      let '(r, engine') := completion prompt engine in
      Return (r, mkHost (Some engine') (METIS_VM_MODEL_PATH host'))
  | Panic => Panic
  | UB => UB
  end.

(** The precompile as it is called, on a thread inside a runtime or not. *)
Definition inference_call (inside : bool) (input : Bytes) (gas_limit : Z) :
    M Host (result PrecompileOutput PrecompileError) := fun host =>
  match from_utf8 input with
  | None => Return (Err InvalidUtf8, host)
  | Some prompt =>
      match block_on inside (complete prompt) host with
      | Return (Err _, host') => Return (Err EngineFailed, host')
      | Return (Ok c, host') =>
          gas_used ← token_gas overflow_checks (total_tokens c);
          Return (if gas_limit <? gas_used then (Err OutOfGas, host') else (Ok (mkPrecompileOutput gas_used (content c)), host'))
      | Panic => Panic
      | UB => UB
      end
  end.

Definition InferencePrecompiles_new (inside : bool) : M Host InferencePrecompiles := fun host =>
  match get_or_init_engine inside host with
  | Return (_, host') => Return (mkInferencePrecompiles eth_default default_spec, host')
  | Panic => Panic
  | UB => UB
  end.
Definition InferencePrecompiles_default : bool -> M Host InferencePrecompiles := InferencePrecompiles_new.

(** With the engine there, and outside of a runtime, the precompile is [inference]
    on the engine. *)
Lemma inference_call_engine (input : Bytes) (gas_limit : Z) (engine : Engine) (path : option string) :
  inference_call false input gas_limit (mkHost (Some engine) path) =
  match inference completion overflow_checks input gas_limit engine with
  | Return (r, engine') => Return (r, mkHost (Some engine') path)
  | Panic => Panic
  | UB => UB
  end.
Proof.
  unfold inference_call, inference, block_on, complete, get_or_init_engine. cbn.
  destruct (from_utf8 input); [|done]. destruct (completion _ engine) as [[c|e] engine']; [|done].
  unfold mbind, outcome_bind. destruct (token_gas _ _); [|done..]. by destruct (_ <? _).
Qed.

(** A text is never answered from inside a runtime, nor before a provider has been
    made: the call panics; the engine cannot be made by the call, which would start a
    runtime within a runtime. *)
Lemma inference_call_panics (inside : bool) (input : Bytes) (gas_limit : Z) (host : Host) :
  utf8_from [] input = true -> inside = true \/ LLAMA_ENGINE host = None -> inference_call inside input gas_limit host = Panic.
Proof.
  intros Hu Hd. unfold inference_call, from_utf8. rewrite Hu. destruct inside; [done|].
  destruct Hd as [|Hd]; [done|]. unfold block_on at 1, complete, get_or_init_engine. by rewrite Hd.
Qed.

(** After [new] the engine is there, whatever happened before, and it is not made
    again; a model that cannot be loaded is a panic. *)
Lemma new_makes_engine (inside : bool) (host host' : Host) (self : InferencePrecompiles) :
  InferencePrecompiles_new inside host = Return (self, host') ->
  precompiles self = eth_default /\ METIS_VM_MODEL_PATH host' = METIS_VM_MODEL_PATH host /\
  exists engine, LLAMA_ENGINE host' = Some engine /\
    (LLAMA_ENGINE host = Some engine \/
     LLAMA_ENGINE host = None /\ inside = false /\
       LlamaEngine_new (default DEFAULT_MODEL_PATH (METIS_VM_MODEL_PATH host)) = Some engine) /\
    InferencePrecompiles_new true host' = Return (self, host').
Proof.
  unfold InferencePrecompiles_new, get_or_init_engine. destruct (LLAMA_ENGINE host) as [engine|] eqn:He.
  - intros [= <- <-]. do 2 (split; [done|]). exists engine. rewrite He. split; [done|split; [by left|done]].
  - unfold block_on. destruct inside; [done|]. destruct (LlamaEngine_new _) as [engine|]; [|done].
    intros [= <- <-]. do 2 (split; [done|]). exists engine. split; [done|split; [by right|done]].
Qed.

End Engine.

(** ** Examples *)

(** Text, a character of three bytes, an overlong encoding, a surrogate, an end
    within a character. *)
Lemma from_utf8_examples :
  utf8_from [] [0x68; 0x69] = true /\ utf8_from [] [0xe2; 0x82; 0xac] = true /\ utf8_from [] [0xc0; 0x80] = false /\
  utf8_from [] [0xed; 0xa0; 0x80] = false /\ utf8_from [] [0xe2; 0x82] = false.
Proof. done. Qed.

(** A model that answers with its input, one token per byte. *)
Definition echo (input : Bytes) (calls : nat) : result Completion unit * nat :=
  (Ok (mkCompletion input (Z.of_nat (length input))), S calls).

Lemma inference_example :
  inference echo true [0x68; 0x69] 500 0%nat = Return (Ok (mkPrecompileOutput 200 [0x68; 0x69]), 1%nat) /\
  inference echo true [0x68; 0x69] 199 0%nat = Return (Err OutOfGas, 1%nat) /\
  inference echo true [0xff] 500 0%nat = Return (Err InvalidUtf8, 0%nat).
Proof. done. Qed.

(** A precompile that is called before a provider was made, and after. *)
Definition example_load (path : string) : option nat := if String.eqb path DEFAULT_MODEL_PATH then Some 0%nat else None.

Lemma inference_call_example :
  inference_call echo true example_load false [0x68] 500 (mkHost None None) = Panic /\
  (exists self, InferencePrecompiles_new example_load ∅ PRAGUE false (mkHost None None) = Return (self, mkHost (Some 0%nat) None)) /\
  inference_call echo true example_load false [0x68] 500 (mkHost (Some 0%nat) None) =
    Return (Ok (mkPrecompileOutput 100 [0x68]), mkHost (Some 1%nat) None) /\
  InferencePrecompiles_new example_load ∅ PRAGUE false (mkHost None (Some "other"%string)) = Panic.
Proof. split; [done|]. split; [by eexists|]. done. Qed.
