(* ===== verification/Eels.v ===== *)
(** * The EELS test driver (crates/tools/bins/eelstest/main.rs)

    Runs blockchain tests against the node's execution stage: it writes the state
    before the blocks to a database, inserts and executes the blocks, and compares
    the database with the state the test expects.

    The database, the block codec and the execution stage are reth's: the class
    [TestDb] has the operations the driver uses of the database, [TestDbLaws] what
    they do. *)

From Stdlib Require Import String.
From S2P Require Import Prelude Tools.
Local Open Scope Z_scope.

(** ** Forks *)

Module ForkSpec.

Inductive ForkSpec : Type :=
| Frontier | FrontierToHomesteadAt5 | Homestead | HomesteadToDaoAt5 | HomesteadToEIP150At5 | EIP150 | EIP158
| EIP158ToByzantiumAt5 | Byzantium | ByzantiumToConstantinopleAt5 | ByzantiumToConstantinopleFixAt5 | Constantinople
| ConstantinopleFix | Istanbul | Berlin | BerlinToLondonAt5 | London | Merge | Shanghai | MergeEOF | MergeMeterInitCode
| MergePush0 | Cancun | Unknown.

(** [impl From<ForkSpec> for ChainSpec]: the fork activated from the start. *)
Definition chain_spec (fork_spec : ForkSpec) : outcome SpecId :=
  match fork_spec with
  | Frontier => Return FRONTIER
  | Homestead | FrontierToHomesteadAt5 => Return HOMESTEAD
  | EIP150 | HomesteadToDaoAt5 | HomesteadToEIP150At5 => Return TANGERINE
  | EIP158 => Return SPURIOUS_DRAGON
  | Byzantium | EIP158ToByzantiumAt5 | ConstantinopleFix | ByzantiumToConstantinopleFixAt5 => Return BYZANTIUM
  | Istanbul => Return ISTANBUL
  | Berlin => Return BERLIN
  | London | BerlinToLondonAt5 => Return LONDON
  | Merge | MergeEOF | MergeMeterInitCode | MergePush0 => Return MERGE
  | Shanghai => Return SHANGHAI
  | Cancun => Return CANCUN
  | ByzantiumToConstantinopleAt5 | Constantinople => Panic
  | Unknown => Panic
  end.

(** The networks [execute_test] leaves out. *)
Definition excluded (network : ForkSpec) : bool :=
  match network with
  | ByzantiumToConstantinopleAt5 | Frontier | Homestead | Byzantium | Istanbul | Berlin | London | Constantinople
  | ConstantinopleFix | MergeEOF | MergeMeterInitCode | MergePush0 | Shanghai | Unknown => true
  | _ => false
  end.

(** Those it runs have a chain specification. *)
Lemma included_chain_spec (network : ForkSpec) :
  excluded network = false -> exists s, chain_spec network = Return s.
Proof. destruct network; cbn; try discriminate; eauto. Qed.

(** A fork the state tests run as Petersburg is run as Byzantium. *)
Lemma constantinople_fix_differs :
  excluded ByzantiumToConstantinopleFixAt5 = false /\
  chain_spec ByzantiumToConstantinopleFixAt5 = Return BYZANTIUM /\
  SpecName.to_spec_id SpecName.ByzantiumToConstantinopleFixAt5 = Return PETERSBURG.
Proof. done. Qed.

End ForkSpec.
Import ForkSpec (ForkSpec).

(** ** Test data *)

Definition Bytes : Type := list Byte.byte.

(** The header of a test; hashes, addresses and the bloom filter are opaque words. *)
Record Header : Type := mkHeader {
  bloom : Z; coinbase : Z; difficulty : Z; extra_data : Bytes; gas_limit : Z; gas_used : Z; hash : Z; mix_hash : Z;
  nonce_bytes : list Z; number : Z; parent_hash : Z; receipt_trie : Z; state_root : Z; timestamp : Z;
  transactions_trie : Z; uncle_hash : Z; base_fee_per_gas : option Z; withdrawals_root : option Z;
  blob_gas_used : option Z; excess_blob_gas : option Z; parent_beacon_block_root : option Z; requests_root : option Z;
  target_blobs_per_block : option Z;
}.

(** [alloy_consensus::Header] with its hash. *)
Record SealedHeader : Type := mkSealedHeader {
  h_base_fee_per_gas : option Z; h_beneficiary : Z; h_difficulty : Z; h_extra_data : Bytes; h_gas_limit : Z; h_gas_used : Z;
  h_mix_hash : Z; h_nonce : Z; h_number : Z; h_timestamp : Z; h_transactions_root : Z; h_receipts_root : Z;
  h_ommers_hash : Z; h_state_root : Z; h_parent_hash : Z; h_logs_bloom : Z; h_withdrawals_root : option Z;
  h_blob_gas_used : option Z; h_excess_blob_gas : option Z; h_parent_beacon_block_root : option Z;
  h_requests_hash : option Z; h_seal : Z;
}.

Definition map_to_u64 (v : option Z) : outcome (option Z) :=
  match v with None => Return None | Some x => x' ← to_u64 x; Return (Some x') end.

(** [u64::from_be_bytes]. *)
Definition from_be_bytes (bs : list Z) : Z := foldl (fun acc b => acc * 256 + b) 0 bs.

(** [impl From<Header> for SealedHeader]. *)
Definition sealed_header (value : Header) : outcome SealedHeader :=
  base_fee ← map_to_u64 (base_fee_per_gas value);
  limit ← to_u64 (gas_limit value);
  used ← to_u64 (gas_used value);
  num ← to_u64 (number value);
  time ← to_u64 (timestamp value);
  blob ← map_to_u64 (blob_gas_used value);
  excess ← map_to_u64 (excess_blob_gas value);
  Return (mkSealedHeader base_fee (coinbase value) (difficulty value) (extra_data value) limit used (mix_hash value)
    (from_be_bytes (nonce_bytes value)) num time (transactions_trie value) (receipt_trie value) (uncle_hash value)
    (state_root value) (parent_hash value) (bloom value) (withdrawals_root value) blob excess
    (parent_beacon_block_root value) (requests_root value) (hash value)).

(** The conversion panics when a number does not fit 64 bits, and else keeps it. *)
Lemma sealed_header_numbers (v : Header) (s : SealedHeader) :
  sealed_header v = Return s ->
  h_gas_limit s = gas_limit v /\ h_gas_used s = gas_used v /\ h_number s = number v /\ h_timestamp s = timestamp v /\
  h_base_fee_per_gas s = base_fee_per_gas v /\ h_blob_gas_used s = blob_gas_used v /\
  h_excess_blob_gas s = excess_blob_gas v /\ Forall (fun x => x <= u64_MAX) [gas_limit v; gas_used v; number v; timestamp v].
Proof.
  assert (Hu : forall x y, to_u64 x = Return y -> y = x /\ x <= u64_MAX).
  { intros x y. unfold to_u64. destruct (Z.leb_spec x u64_MAX); [|done]. intros Heq. by injection Heq as <-. }
  assert (Ho : forall x y, map_to_u64 x = Return y -> y = x).
  { intros [x|] y; cbn; [|congruence]. destruct (to_u64 x) eqn:Hx; try done. cbn. intros Heq. injection Heq as <-.
    by apply Hu in Hx as [-> _]. }
  unfold sealed_header, mbind, outcome_bind.
  repeat match goal with
  | |- match ?m with _ => _ end = Return _ -> _ => destruct m eqn:?; try done
  end. intros Heq. injection Heq as <-. cbn.
  repeat match goal with
  | H : to_u64 _ = Return _ |- _ => apply Hu in H as [-> ?]
  | H : map_to_u64 _ = Return _ |- _ => apply Ho in H as ->
  end. repeat split; try done. by repeat constructor.
Qed.

(** An account and a state; a [BTreeMap] is its list of entries in ascending order. *)
Record Account : Type := mkAccount {
  balance : Z;
  code : Bytes;
  nonce : Z;
  storage : list (Z * Z);
}.

Definition State : Type := list (Z * Account).

(** [reth_primitives::Account]. *)
Record RethAccount : Type := mkRethAccount {
  acc_balance : Z;
  acc_nonce : Z;
  bytecode_hash : option Z;
}.

Inductive AssertionMsg : Type :=
| MissingAccount (address : Z)
| MissingSlot (slot value : Z).

(** ** The database *)

(** The tables of reth's database that the driver uses. [seek_by_key_subkey] of the
    storage table, whose entries of one address are sorted by slot, gives the first
    entry at the slot or after it. *)
Class TestDb : Type := {
  Tx : Type;
  DatabaseError : Type;
  ProviderError : Type;
  RlpError : Type;
  keccak256 : Bytes -> Z;
  hash_address : Z -> Z;
  hash_slot : Z -> Z;
  put_PlainAccountState : Z -> RethAccount -> Tx -> result unit DatabaseError * Tx;
  put_HashedAccounts : Z -> RethAccount -> Tx -> result unit DatabaseError * Tx;
  put_Bytecodes : Z -> Bytes -> Tx -> result unit DatabaseError * Tx;
  put_PlainStorageState : Z -> Z * Z -> Tx -> result unit DatabaseError * Tx;
  put_HashedStorages : Z -> Z * Z -> Tx -> result unit DatabaseError * Tx;
  get_PlainAccountState : Z -> Tx -> result (option RethAccount) DatabaseError;
  cursor_dup_read : Tx -> result unit DatabaseError;
  seek_by_key_subkey : Z -> Z -> Tx -> result (option (Z * Z)) DatabaseError;
}.

Inductive TestError `{TestDb} : Type :=
| Skipped
| MissingPostState
| Io
| Database (e : DatabaseError)
| Assertion (m : AssertionMsg)
| Provider (e : ProviderError)
| RlpDecode (e : RlpError)
| SerdeDeserialize
| Custom (msg : string).

Section Driver.
Context `{TestDb}.

(** A step on the database that may fail and may panic. *)
Definition T (A : Type) : Type := M Tx (result A TestError).

Definition t_bind {A B : Type} (m : T A) (k : A -> T B) : T B := fun tx =>
  match m tx with
  | Return (Ok a, tx') => k a tx'
  | Return (Err e, tx') => Return (Err e, tx')
  | Panic => Panic
  | UB => UB
  end.

Definition db_put (p : Tx -> result unit DatabaseError * Tx) : T unit := fun tx =>
  let '(r, tx') := p tx in Return (map_err Database r, tx').

Fixpoint try_for_each {A : Type} (f : A -> T unit) (l : list A) : T unit :=
  match l with
  | [] => fun tx => Return (Ok tt, tx)
  | a :: l' => t_bind (f a) (fun _ => try_for_each f l')
  end.

(** One slot of [write_to_db]. *)
Definition write_slot (address : Z) (kv : Z * Z) : T unit :=
  t_bind (db_put (put_PlainStorageState address kv)) (fun _ =>
  db_put (put_HashedStorages (hash_address address) (hash_slot kv.1, kv.2))).

Definition is_empty (b : Bytes) : bool := match b with [] => true | _ => false end.

(** One account of [write_to_db]. *)
Definition write_account (a : Z * Account) : T unit := fun tx =>
  let '(address, account) := a in
  let code_hash := if is_empty (code account) then None else Some (keccak256 (code account)) in
  n ← to_u64 (nonce account);
  let reth_account := mkRethAccount (balance account) n code_hash in
  t_bind (db_put (put_PlainAccountState address reth_account)) (fun _ =>
  t_bind (db_put (put_HashedAccounts (hash_address address) reth_account)) (fun _ =>
  t_bind (match code_hash with
          | Some h => db_put (put_Bytecodes h (code account))
          | None => fun tx => Return (Ok tt, tx)
          end) (fun _ =>
  try_for_each (write_slot address) (filter (fun kv => kv.2 ≠ 0) (storage account))))) tx.

Definition write_to_db : State -> T unit := try_for_each write_account.

(** The slots of [assert_db]. *)
Fixpoint assert_slots (address : Z) (slots : list (Z * Z)) (tx : Tx) : outcome (result unit TestError) :=
  match slots with
  | [] => Return (Ok tt)
  | (slot, value) :: slots' =>
      match seek_by_key_subkey address slot tx with
      | Err e => Return (Err (Database e))
      | Ok (Some (k, v)) =>
          if k =? slot then _ ← assert (value =? v); assert_slots address slots' tx
          else Return (Err (Assertion (MissingSlot slot value)))
      | Ok None => Return (Err (Assertion (MissingSlot slot value)))
      end
  end.

Definition assert_db (self : Account) (address : Z) (tx : Tx) : outcome (result unit TestError) :=
  match get_PlainAccountState address tx with
  | Err e => Return (Err (Database e))
  | Ok None => Return (Err (Assertion (MissingAccount address)))
  | Ok (Some account) =>
      _ ← assert (balance self =? acc_balance account);
      n ← to_u64 (nonce self);
      _ ← assert (n =? acc_nonce account);
      _ ← assert (match bytecode_hash account with
                  | Some h => keccak256 (code self) =? h
                  | None => is_empty (code self)
                  end);
      match cursor_dup_read tx with
      | Err e => Return (Err (Database e))
      | Ok _ => assert_slots address (storage self) tx
      end
  end.

(** ** Running a test *)

(** The rest of reth the driver uses: a fresh provider, inserting and decoding
    blocks, recovering senders, static files, and the execution stage. *)
Context {Block StageError : Type}.
Context (new_provider : SpecId -> Tx) (genesis_block : SealedHeader -> Block) (try_recover : Block -> bool).
Context (insert_block : Block -> Tx -> result unit ProviderError * Tx) (decode : Bytes -> result Block RlpError).
Context (increment_receipts commit_headers : Tx -> outcome Tx) (block_number : Block -> Z).
Context (execution_stage : SpecId -> option Z -> Tx -> result unit StageError * Tx).

Record TestBlock : Type := mkTestBlock { rlp : Bytes }.

Record BlockchainTest : Type := mkBlockchainTest {
  genesis_block_header : Header;
  blocks : list TestBlock;
  post_state : option State;
  post_state_hash : option Z;
  pre : State;
  network : ForkSpec;
}.

Definition skipped_names : list string :=
  ["test_push0_stack_overflow"; "test_warm_coinbase"; "test_tx_selfdestruct_balance_bug";
   "test_reentrancy_selfdestruct_revert"; "test_many_withdrawals"; "test_access_list"; "test_modexp";
   "test_call_and_callcode_gas_calculation"; "test_dup"; "test_yul_example"; "test_chainid";
   "test_multiple_withdrawals_same_address"; "test_withdrawing_to_precompiles";
   "fork_Paris-blockchain_test-EIP-198-case3-raw-input-out-of-gas";
   "test_dynamic_create2_selfdestruct_collision.py"]%string.

Definition contains (name pattern : string) : bool :=
  match String.index 0 pattern name with Some _ => true | None => false end.

Definition should_skip (name : string) : bool := existsb (contains name) skipped_names.

(** [insert_block(block.try_recover().unwrap())?]. *)
Definition insert_recovered (b : Block) : T unit := fun tx =>
  if try_recover b then let '(r, tx') := insert_block b tx in Return (map_err Provider r, tx') else Panic.

Definition on_files (f : Tx -> outcome Tx) : T unit := fun tx => tx' ← f tx; Return (Ok tt, tx').

(** Decode and insert the blocks; the last one. *)
Fixpoint insert_blocks (last : option Block) (bs : list TestBlock) : T (option Block) := fun tx =>
  match bs with
  | [] => Return (Ok last, tx)
  | b :: bs' =>
      match decode (rlp b) with
      | Err e => Return (Err (RlpDecode e), tx)
      | Ok decoded => t_bind (insert_recovered decoded) (fun _ => insert_blocks (Some decoded) bs') tx
      end
  end.

Definition run_stage (s : SpecId) (last_block : option Block) : T unit := fun tx =>
  let '(r, tx') := execution_stage s (block_number <$> last_block) tx in
  Return (match r with Ok _ => Ok tt | Err _ => Err (Custom "error in execution stage") end, tx').

(** Everything up to the comparison with the expected state. *)
Definition prepare (s : SpecId) (case : BlockchainTest) : T unit := fun tx =>
  genesis ← sealed_header (genesis_block_header case);
  t_bind (insert_recovered (genesis_block genesis)) (fun _ =>
  t_bind (write_to_db (pre case)) (fun _ =>
  t_bind (on_files increment_receipts) (fun _ =>
  t_bind (insert_blocks None (blocks case)) (fun last_block =>
  t_bind (on_files commit_headers) (fun _ => run_stage s last_block))))) tx.

Fixpoint assert_state (l : State) (tx : Tx) : outcome (result unit TestError) :=
  match l with
  | [] => Return (Ok tt)
  | (address, account) :: l' =>
      r ← assert_db account address tx;
      match r with Ok _ => assert_state l' tx | Err e => Return (Err e) end
  end.

(** The comparison. *)
Definition check_post (case : BlockchainTest) (tx : Tx) : outcome (result unit TestError) :=
  match post_state case, post_state_hash case with
  | Some st, None => assert_state st tx
  | None, Some _ => Return (Ok tt)
  | _, _ => Return (Err MissingPostState)
  end.

Definition execute_case (name : string) (case : BlockchainTest) : outcome (result unit TestError) :=
  if should_skip name then Return (Ok tt)
  else
    s ← ForkSpec.chain_spec (network case);
    match prepare s case (new_provider s) with
    | Return (Ok _, tx) => check_post case tx
    | Return (Err e, _) => Return (Err e)
    | Panic => Panic
    | UB => UB
    end.

(** The cases of a file, in the order the threads take them up. *)
Fixpoint execute_test (cases : list (string * BlockchainTest)) : outcome (result unit TestError) :=
  match cases with
  | [] => Return (Ok tt)
  | (name, case) :: cases' =>
      if ForkSpec.excluded (network case) then execute_test cases'
      else r ← execute_case name case; match r with Ok _ => execute_test cases' | Err e => Return (Err e) end
  end.

(** A test that gives only the hash of the state it expects passes whatever the state
    after its blocks is. *)
Lemma hash_unchecked (case : BlockchainTest) (tx tx' : Tx) :
  post_state case = None -> check_post case tx = check_post case tx'.
Proof. unfold check_post. by intros ->. Qed.

End Driver.

(** ** Properties *)

(** What the operations of the database do, where they succeed: the accounts and the
    slots it holds. *)
Class TestDbLaws `{TestDb} : Type := {
  accounts : Tx -> Z -> option RethAccount;
  slots : Tx -> Z -> Z * Z -> Prop;
  put_account_law : forall a x tx tx', put_PlainAccountState a x tx = (Ok tt, tx') ->
    (forall b, accounts tx' b = if decide (b = a) then Some x else accounts tx b) /\
    (forall b e, slots tx' b e <-> slots tx b e);
  put_slot_law : forall a kv tx tx', put_PlainStorageState a kv tx = (Ok tt, tx') ->
    (forall b, accounts tx' b = accounts tx b) /\
    (forall b e, slots tx' b e <-> slots tx b e \/ (b = a /\ e = kv));
  put_other_law : forall tx tx',
    (exists a x, put_HashedAccounts a x tx = (Ok tt, tx')) \/ (exists h c, put_Bytecodes h c tx = (Ok tt, tx')) \/
    (exists a kv, put_HashedStorages a kv tx = (Ok tt, tx')) ->
    (forall b, accounts tx' b = accounts tx b) /\ (forall b e, slots tx' b e <-> slots tx b e);
  get_law : forall a tx r, get_PlainAccountState a tx = Ok r -> r = accounts tx a;
  seek_law : forall a k tx r, seek_by_key_subkey a k tx = Ok r ->
    match r with
    | None => forall k' v', slots tx a (k', v') -> k' < k
    | Some (k', v') => slots tx a (k', v') /\ k <= k' /\ forall k'' v'', slots tx a (k'', v'') -> k <= k'' -> k' <= k''
    end;
}.

Section Roundtrip.
Context `{TestDbLaws}.

(** The account written for [account]. *)
Definition reth_account (account : Account) : RethAccount :=
  mkRethAccount (balance account) (nonce account)
    (if is_empty (code account) then None else Some (keccak256 (code account))).

Definition nonzero (kv : Z * Z) : Prop := kv.2 ≠ 0.
#[local] Instance nonzero_dec (kv : Z * Z) : Decision (nonzero kv) := _.

(** [tx'] has what [tx] has, with these slots of [a] added. *)
Definition adds (a : Z) (l : list (Z * Z)) (tx tx' : Tx) : Prop :=
  (forall b, accounts tx' b = accounts tx b) /\ (forall b e, slots tx' b e <-> slots tx b e \/ (b = a /\ e ∈ l)).

Lemma db_put_Ok (p : Tx -> result unit DatabaseError * Tx) (tx tx' : Tx) :
  db_put p tx = Return (Ok tt, tx') -> p tx = (Ok tt, tx').
Proof. unfold db_put. destruct (p tx) as [[[]|e] tx1]; cbn; congruence. Qed.

Lemma t_bind_Ok {A B : Type} (m : T A) (k : A -> T B) (tx tx' : Tx) (b : B) :
  t_bind m k tx = Return (Ok b, tx') -> exists a tx1, m tx = Return (Ok a, tx1) /\ k a tx1 = Return (Ok b, tx').
Proof. unfold t_bind. destruct (m tx) as [[[a|e] tx1]| |]; try done. eauto. Qed.

Lemma write_slot_adds (a : Z) (kv : Z * Z) (tx tx' : Tx) :
  write_slot a kv tx = Return (Ok tt, tx') -> adds a [kv] tx tx'.
Proof.
  unfold write_slot. intros ([] & tx1 & Hp%db_put_Ok & Hh%db_put_Ok)%t_bind_Ok.
  destruct (put_slot_law _ _ _ _ Hp) as [Ha1 Hs1]. destruct (put_other_law tx1 tx') as [Ha2 Hs2]; [by right; right; do 2 eexists|].
  split; [intros b; by rewrite Ha2|]. intros b e. by rewrite Hs2, Hs1, list_elem_of_singleton.
Qed.

Lemma write_slots_adds (a : Z) (l : list (Z * Z)) (tx tx' : Tx) :
  try_for_each (write_slot a) l tx = Return (Ok tt, tx') -> adds a l tx tx'.
Proof.
  revert tx. induction l as [|kv l IH]; intros tx; cbn [try_for_each].
  - intros Heq. injection Heq as <-. split; [done|]. intros b e. rewrite elem_of_nil. tauto.
  - intros ([] & tx1 & Hw%write_slot_adds & Hl%IH)%t_bind_Ok. destruct Hw as [Ha1 Hs1], Hl as [Ha2 Hs2].
    split; [intros b; by rewrite Ha2|]. intros b e. rewrite Hs2, Hs1, list_elem_of_singleton, elem_of_cons. tauto.
Qed.

(** What writing an account leaves. *)
Lemma write_account_effect (a : Z) (account : Account) (tx tx' : Tx) :
  write_account (a, account) tx = Return (Ok tt, tx') ->
  nonce account <= u64_MAX /\
  (forall b, accounts tx' b = if decide (b = a) then Some (reth_account account) else accounts tx b) /\
  (forall b e, slots tx' b e <-> slots tx b e \/ (b = a /\ e ∈ storage account /\ nonzero e)).
Proof.
  unfold write_account, to_u64. destruct (Z.leb_spec (nonce account) u64_MAX) as [Hn|]; [|done]. cbn [mbind outcome_bind].
  intros ([] & tx1 & H1%db_put_Ok & ([] & tx2 & H2%db_put_Ok & ([] & tx3 & H3 & H4%write_slots_adds)%t_bind_Ok)%t_bind_Ok)%t_bind_Ok.
  destruct (put_account_law _ _ _ _ H1) as [A1 S1].
  destruct (put_other_law tx1 tx2) as [A2 S2]; [by left; do 2 eexists|]. destruct H4 as [A4 S4].
  assert (Hcode : (forall b, accounts tx3 b = accounts tx2 b) /\ (forall b e, slots tx3 b e <-> slots tx2 b e)).
  { destruct (is_empty (code account)); [by injection H3 as <-|]. apply db_put_Ok in H3.
    apply put_other_law. right. left. by do 2 eexists. }
  destruct Hcode as [A3 S3]. split; [done|]. split.
  - intros b. by rewrite A4, A3, A2, A1.
  - intros b e. rewrite S4, S3, S2, S1, list_elem_of_filter. unfold nonzero. tauto.
Qed.

Lemma write_to_db_effect (s : State) (tx tx' : Tx) :
  NoDup s.*1 -> write_to_db s tx = Return (Ok tt, tx') ->
  (forall a account, (a, account) ∈ s -> nonce account <= u64_MAX /\ accounts tx' a = Some (reth_account account)) /\
  (forall b, b ∉ s.*1 -> accounts tx' b = accounts tx b) /\
  (forall b e, slots tx' b e <-> slots tx b e \/ exists account, (b, account) ∈ s /\ e ∈ storage account /\ nonzero e).
Proof.
  unfold write_to_db. revert tx. induction s as [|[a account] s IH]; intros tx Hnd; cbn [try_for_each].
  - intros Heq. injection Heq as <-. split; [by intros ? ? ?%elem_of_nil|]. split; [done|].
    intros b e. split; [by left|]. by intros [?|(? & ?%elem_of_nil & _)].
  - apply list.NoDup_cons in Hnd as [Ha Hnd].
    intros ([] & tx1 & (Hn & A1 & S1)%write_account_effect & Hl)%t_bind_Ok.
    destruct (IH tx1 Hnd Hl) as (In & Out & S2). split; [|split].
    + intros b acc [Heq|Hb]%elem_of_cons; [|by apply In]. injection Heq as -> ->. split; [done|].
      rewrite Out, A1 by done. by rewrite decide_True.
    + intros b Hb. cbn in Hb. apply not_elem_of_cons in Hb as [Hne Hb]. rewrite Out, A1 by done. by rewrite decide_False.
    + intros b e. rewrite S2, S1. split.
      * intros [[?|(-> & ? & ?)]|(acc & Hb & ?)]; [by left|right; exists account; split; [left|]; done|].
        right. exists acc. split; [by right|done].
      * intros [?|(acc & [Heq|Hb]%elem_of_cons & ?)]; [by left; left| |right; by exists acc].
        injection Heq as -> ->. left. by right.
Qed.

Lemma elem_of_keys {A B : Type} (l : list (A * B)) (k : A) (v v' : B) :
  NoDup l.*1 -> (k, v) ∈ l -> (k, v') ∈ l -> v = v'.
Proof.
  induction l as [|[k0 v0] l IH]; [by intros _ ?%elem_of_nil|]. cbn. intros [Hk Hnd]%list.NoDup_cons.
  assert (Hno : forall w, (k0, w) ∉ l) by (intros w Hw; apply Hk, list_elem_of_fmap; by exists (k0, w)).
  intros [?|Hv]%elem_of_cons [?|Hv']%elem_of_cons; simplify_eq; try done; [by apply Hno in Hv'|by apply Hno in Hv|].
  by apply IH.
Qed.

(** The slots of an account against a database that holds its slots that are not 0. *)
Lemma assert_slots_written (a : Z) (all l : list (Z * Z)) (tx : Tx) :
  NoDup all.*1 -> (forall e, slots tx a e <-> e ∈ all /\ nonzero e) -> (forall k, is_ok (seek_by_key_subkey a k tx) = true) ->
  l ⊆ all ->
  (Forall nonzero l -> assert_slots a l tx = Return (Ok tt)) /\
  (Exists (fun kv => kv.2 = 0) l -> exists slot, (slot, 0) ∈ l /\ assert_slots a l tx = Return (Err (Assertion (MissingSlot slot 0)))).
Proof.
  intros Hnd Hs Hseek. induction l as [|[k v] l IH]; intros Hsub.
  { split; [done|]. by intros ?%Exists_nil. }
  destruct IH as [IHok IHbad]; [intros e He; apply Hsub; by right|].
  assert (Hin : (k, v) ∈ all) by (apply Hsub; by left). cbn [assert_slots].
  specialize (Hseek k). destruct (seek_by_key_subkey a k tx) as [r|] eqn:Hr; [|done]. apply seek_law in Hr.
  destruct (decide (v = 0)) as [->|Hv].
  - assert (Hmiss : match r with
      | Some (k0, v0) => if k0 =? k then _ ← assert (0 =? v0); assert_slots a l tx
                         else Return (Err (Assertion (MissingSlot k 0)))
      | None => Return (Err (Assertion (MissingSlot k 0))) end = Return (Err (Assertion (MissingSlot k 0)))).
    { destruct r as [[k' v']|]; [|done]. destruct Hr as (Hsl & _). apply Hs in Hsl as [Hin' Hnz].
      destruct (Z.eqb_spec k' k) as [->|]; [|done]. destruct Hnz. cbn. by eapply elem_of_keys. }
    rewrite Hmiss. split; [intros Hall; apply list.Forall_cons in Hall as [Hnz _]; by destruct Hnz|].
    intros _. exists k. split; [by left|done].
  - assert (Hk : slots tx a (k, v)) by (by apply Hs).
    assert (Hfound : r = Some (k, v)).
    { destruct r as [[k' v']|]; [|specialize (Hr _ _ Hk); lia]. destruct Hr as (Hsl & Hle & Hmin).
      specialize (Hmin _ _ Hk ltac:(lia)). assert (k' = k) as -> by lia. apply Hs in Hsl as [Hin' _].
      by rewrite (elem_of_keys all k v' v). }
    rewrite Hfound, Z.eqb_refl. cbn. rewrite Z.eqb_refl. cbn. split.
    + intros Hall. apply list.Forall_cons in Hall as [_ Hall]. by apply IHok.
    + intros [?|Hex]%Exists_cons; [done|]. destruct (IHbad Hex) as (slot & Hsl & Hres). exists slot. split; [by right|done].
Qed.

(** C27. What the driver writes, it finds again, with one exception. After a state has
    been written to a database that has none of its accounts' slots, comparing each
    account with the database succeeds if all its slots are different from 0. A slot
    given as 0 is not written, but looked for: the account is then reported to miss
    it. The comparison never panics. *)
Theorem state_roundtrip (s : State) (tx tx' : Tx) (address : Z) (account : Account)
    (Hkeys : NoDup s.*1) (Hslots : forall a acc, (a, acc) ∈ s -> NoDup (storage acc).*1)
    (Hnew : forall a e, a ∈ s.*1 -> ~ slots tx a e) (Hw : write_to_db s tx = Return (Ok tt, tx'))
    (Hget : forall a, is_ok (get_PlainAccountState a tx') = true) (Hcursor : is_ok (cursor_dup_read tx') = true)
    (Hseek : forall a k, is_ok (seek_by_key_subkey a k tx') = true) (Hin : (address, account) ∈ s) :
  (Forall nonzero (storage account) -> assert_db account address tx' = Return (Ok tt)) /\
  (Exists (fun kv => kv.2 = 0) (storage account) -> exists slot, (slot, 0) ∈ storage account /\
     assert_db account address tx' = Return (Err (Assertion (MissingSlot slot 0)))).
Proof.
  destruct (write_to_db_effect s tx tx' Hkeys Hw) as (Hacc & _ & Hsl). destruct (Hacc _ _ Hin) as [Hn Ha].
  assert (Hmine : forall e, slots tx' address e <-> e ∈ storage account /\ nonzero e).
  { intros e. rewrite Hsl. split.
    - intros [Hold|(acc & Hin' & He)]; [destruct (Hnew address e); [apply list_elem_of_fmap; by exists (address, account)|done]|].
      by rewrite (elem_of_keys s address account acc).
    - intros He. right. by exists account. }
  assert (Hdb : assert_db account address tx' = assert_slots address (storage account) tx').
  { unfold assert_db. specialize (Hget address). destruct (get_PlainAccountState address tx') as [r|] eqn:Hr; [|done].
    apply get_law in Hr as ->. rewrite Ha. unfold reth_account. cbn [acc_balance acc_nonce bytecode_hash].
    rewrite Z.eqb_refl. cbn [assert mbind outcome_bind]. rewrite to_u64_fits by done. cbn [mbind outcome_bind].
    rewrite Z.eqb_refl. cbn [assert mbind outcome_bind].
    destruct (is_empty (code account)); rewrite ?Z.eqb_refl; cbn [assert mbind outcome_bind];
      by destruct (cursor_dup_read tx'). }
  rewrite Hdb. apply (assert_slots_written address (storage account)); try done. by eapply Hslots.
Qed.

End Roundtrip.

(** ** Examples *)

(** A database in memory. *)
Fixpoint seek_first (k : Z) (l : list (Z * Z)) : option (Z * Z) :=
  match l with
  | [] => None
  | e :: l' =>
      match seek_first k l' with
      | Some b => if (k <=? e.1) && (e.1 <=? b.1) then Some e else Some b
      | None => if k <=? e.1 then Some e else None
      end
  end.

Lemma seek_first_spec (k : Z) (l : list (Z * Z)) :
  match seek_first k l with
  | None => forall k' v', (k', v') ∈ l -> k' < k
  | Some (k', v') => (k', v') ∈ l /\ k <= k' /\ forall k'' v'', (k'', v'') ∈ l -> k <= k'' -> k' <= k''
  end.
Proof.
  induction l as [|[k0 v0] l IH]; cbn [seek_first fst]; [by intros ? ? ?%elem_of_nil|].
  destruct (seek_first k l) as [[k1 v1]|]; cbn [fst].
  - destruct IH as (Hin & Hle & Hmin). destruct (Z.leb_spec k k0), (Z.leb_spec k0 k1); cbn;
      (split; [first [by left|by right]|split; [lia|]]); intros k2 v2 [Heq|Hin2]%elem_of_cons Hk; simplify_eq; try lia;
      specialize (Hmin _ _ Hin2 Hk); lia.
  - destruct (Z.leb_spec k k0).
    + split; [by left|]. split; [lia|]. intros k2 v2 [Heq|Hin2]%elem_of_cons Hk; simplify_eq; [lia|].
      specialize (IH _ _ Hin2). lia.
    + intros k2 v2 [Heq|Hin2]%elem_of_cons; simplify_eq; [lia|by eapply IH].
Qed.

#[local] Instance example_test_db : TestDb := {|
  Tx := gmap Z RethAccount * gmap Z (list (Z * Z)); DatabaseError := unit; ProviderError := unit; RlpError := unit;
  keccak256 := fun b => Z.of_nat (length b); hash_address := fun a => a; hash_slot := fun s => s;
  put_PlainAccountState := fun a x tx => (Ok tt, (<[a := x]> tx.1, tx.2));
  put_HashedAccounts := fun _ _ tx => (Ok tt, tx);
  put_Bytecodes := fun _ _ tx => (Ok tt, tx);
  put_PlainStorageState := fun a kv tx => (Ok tt, (tx.1, <[a := kv :: default [] (tx.2 !! a)]> tx.2));
  put_HashedStorages := fun _ _ tx => (Ok tt, tx);
  get_PlainAccountState := fun a tx => Ok (tx.1 !! a);
  cursor_dup_read := fun _ => Ok tt;
  seek_by_key_subkey := fun a k tx => Ok (seek_first k (default [] (tx.2 !! a)));
|}.

#[local] Instance example_test_db_laws : TestDbLaws.
Proof.
  refine {| accounts := fun (tx : Tx) a => tx.1 !! a; slots := fun (tx : Tx) a e => e ∈ default [] (tx.2 !! a) |}.
  - intros a x tx tx' Heq. injection Heq as <-. split; [|done]. intros b. cbn.
    destruct (decide (b = a)) as [->|Hne]; [apply lookup_insert_eq|by rewrite lookup_insert_ne by congruence].
  - intros a kv tx tx' Heq. injection Heq as <-. split; [done|]. intros b e. cbn.
    destruct (decide (b = a)) as [->|Hne].
    + rewrite lookup_insert_eq. cbn. rewrite elem_of_cons. tauto.
    + rewrite lookup_insert_ne by congruence. tauto.
  - intros tx tx' [(a & x & Heq)|[(a & x & Heq)|(a & x & Heq)]]; injection Heq as <-; done.
  - intros a tx r Heq. by injection Heq as <-.
  - intros a k tx r Heq. injection Heq as <-. pose proof (seek_first_spec k (default [] (tx.2 !! a))) as Hs.
    by destruct (seek_first _ _) as [[k' v']|].
Defined.

Definition example_good : Account := mkAccount 10 [] 1 [(3, 5); (7, 2)].
Definition example_zero : Account := mkAccount 0 [Byte.x60] 0 [(1, 4); (2, 0)].
Definition example_state : State := [(1, example_good); (2, example_zero)].
Definition example_start : Tx := (∅, ∅).
Definition example_written : Tx :=
  match write_to_db example_state example_start with Return (_, tx) => tx | _ => example_start end.

Lemma state_roundtrip_witness :
  assert_db example_good 1 example_written = Return (Ok tt) /\
  exists slot, assert_db example_zero 2 example_written = Return (Err (Assertion (MissingSlot slot 0))).
Proof.
  assert (Hkeys : NoDup example_state.*1) by (by apply (bool_decide_unpack _)).
  assert (Hslots : forall a acc, (a, acc) ∈ example_state -> NoDup (storage acc).*1).
  { intros a acc [Heq|[Heq|?%elem_of_nil]%elem_of_cons]%elem_of_cons; [..|done]; injection Heq as _ ->;
      by apply (bool_decide_unpack _). }
  assert (Hnew : forall a e, a ∈ example_state.*1 -> ~ slots example_start a e).
  { intros a e _. cbn. rewrite lookup_empty. apply not_elem_of_nil. }
  split.
  - apply (state_roundtrip example_state example_start example_written 1 example_good Hkeys Hslots Hnew);
      [reflexivity|reflexivity..| |]; [left|repeat constructor; cbn; unfold nonzero; cbn; lia].
  - destruct (state_roundtrip example_state example_start example_written 2 example_zero Hkeys Hslots Hnew)
      as [_ (slot & _ & Hs)]; [reflexivity|reflexivity..|right; left|by right; left|by exists slot].
Defined.
