(* ===== verification/Drivers.v ===== *)
(** * The test drivers as programs (crates/tools/src/lib.rs, crates/tools/bins)

    What the binaries eelstest, ethertest and blocktest do with the paths they are
    given: [find_all_json_tests] looks for test files under each, a thread executes
    them, and the outcomes make the exit status of the process. *)

From Stdlib Require Import String Ascii.
From S2P Require Import Prelude Tools Eels.
From stdpp Require Import sorting.

(** ** Paths in order *)

(** The lexicographic order of lists, from a comparison of their elements. *)
Fixpoint lex {A : Type} (c : A -> A -> comparison) (l k : list A) : comparison :=
  match l, k with
  | [], [] => Eq
  | [], _ :: _ => Lt
  | _ :: _, [] => Gt
  | x :: l', y :: k' => match c x y with Eq => lex c l' k' | o => o end
  end.

Class Ordering {A : Type} (c : A -> A -> comparison) : Prop := {
  ordering_eq : forall x y, c x y = Eq <-> x = y;
  ordering_opp : forall x y, c y x = CompOpp (c x y);
  ordering_trans : forall x y z, c x y = Lt -> c y z = Lt -> c x z = Lt;
}.

#[export] Instance N_ordering : Ordering N.compare.
Proof.
  constructor; [apply N.compare_eq_iff|intros x y; apply N.compare_antisym|].
  intros x y z. rewrite !N.compare_lt_iff. apply N.lt_trans.
Qed.

#[export] Instance lex_ordering {A : Type} (c : A -> A -> comparison) `{!Ordering c} : Ordering (lex c).
Proof.
  constructor.
  - intros x. induction x as [|a x IH]; intros [|b y]; cbn; try done.
    destruct (c a b) eqn:Hab.
    + apply ordering_eq in Hab as ->. rewrite IH. split; [by intros ->|by intros [= ->]].
    + split; [done|]. intros [= -> _]. by rewrite (proj2 (ordering_eq b b) eq_refl) in Hab.
    + split; [done|]. intros [= -> _]. by rewrite (proj2 (ordering_eq b b) eq_refl) in Hab.
  - intros x. induction x as [|a x IH]; intros [|b y]; cbn; try done.
    rewrite (ordering_opp a b). destruct (c a b); cbn; [apply IH|done..].
  - intros x. induction x as [|a x IH]; intros [|b y] [|d z]; cbn; try done.
    destruct (c a b) eqn:Hab; try done; destruct (c b d) eqn:Hbd; try done.
    + apply ordering_eq in Hab as ->. rewrite Hbd. apply IH.
    + apply ordering_eq in Hab as ->. by rewrite Hbd.
    + apply ordering_eq in Hbd as ->. by rewrite Hab.
    + by rewrite (ordering_trans _ _ _ Hab Hbd).
Qed.

(** A path is the list of its components, which are compared byte by byte. *)
Definition Path : Type := list string.

Definition codes (p : Path) : list (list N) := (fun n => N_of_ascii <$> list_ascii_of_string n) <$> p.
Definition path_le (p q : Path) : Prop := lex (lex N.compare) (codes p) (codes q) ≠ Gt.

#[export] Instance path_le_dec (p q : Path) : Decision (path_le p q).
Proof. unfold path_le. apply _. Defined.

Lemma codes_inj (p q : Path) : codes p = codes q -> p = q.
Proof.
  apply list_fmap_eq_inj. intros n k Hnk. rewrite <- (string_of_list_ascii_of_string n), <- (string_of_list_ascii_of_string k).
  f_equal. revert Hnk. apply list_fmap_eq_inj. intros a b Hab. by rewrite <- (ascii_N_embedding a), <- (ascii_N_embedding b), Hab.
Qed.

#[export] Instance path_le_total : Total path_le.
Proof.
  intros p q. unfold path_le. rewrite (ordering_opp (codes p) (codes q)).
  destruct (lex _ _ _); cbn; [by left|by left|by right].
Qed.

#[export] Instance path_le_trans : Transitive path_le.
Proof.
  intros p q r. unfold path_le. intros Hpq Hqr Hpr.
  destruct (lex _ (codes p) (codes q)) eqn:Hc; [apply ordering_eq in Hc; congruence| |done].
  destruct (lex _ (codes q) (codes r)) eqn:Hd; [apply ordering_eq in Hd; congruence| |done].
  by rewrite (ordering_trans _ _ _ Hc Hd) in Hpr.
Qed.

#[export] Instance path_le_antisymm : AntiSymm eq path_le.
Proof.
  intros p q. unfold path_le. rewrite (ordering_opp (codes p) (codes q)). intros Hpq Hqp.
  destruct (lex _ _ _) eqn:Hc; [|done..]. by apply ordering_eq, codes_inj in Hc.
Qed.

(** ** [find_all_json_tests] *)

(** What is at a path: a file, a directory with what it lists, or a directory that
    cannot be read. *)
Inductive Tree : Type :=
| File
| Dir (entries : list (string * Tree))
| Unreadable.

(** The name up to the last dot, and after it. *)
Fixpoint rsplit_dot (s : string) : option (string * string) :=
  match s with
  | EmptyString => None
  | String c s' =>
      match rsplit_dot s' with
      | Some (before, after) => Some (String c before, after)
      | None => if Ascii.eqb c "." then Some (EmptyString, s') else None
      end
  end.

(** [Path::extension]: a name that starts with its only dot has none. *)
Definition extension (p : Path) : option string :=
  match last p with
  | None => None
  | Some name =>
      if String.eqb name ".." then None
      else match rsplit_dot name with
           | Some (String c before, after) => Some after
           | _ => None
           end
  end.

(** [WalkDir]: the entry itself and, below a directory that can be read, all others;
    what cannot be read is an error, which the driver leaves out. *)
Fixpoint walk (p : Path) (t : Tree) : list Path :=
  p :: match t with
       | Dir entries => concat ((fun e => walk (p ++ [e.1]) e.2) <$> entries)
       | File | Unreadable => []
       end.

(** [fs]: what the file system has at a path. *)
Definition find_all_json_tests (fs : Path -> option Tree) (path : Path) : list Path :=
  merge_sort path_le
    match fs path with
    | Some File => [path]
    | Some t => filter (fun p => extension p = Some "json"%string) (walk path t)
    | None => []
    end.

(** ** The processes *)

(** How a process ends that does not panic. *)
Inductive Exit : Type :=
| ExitSuccess
| ExitFailure.

Section Main.
Context {E : Type} (execute_test : Path -> outcome (result unit E)) (find : Path -> list Path).

(** The thread of a path: its errors, in order. *)
Fixpoint run_tests (tests : list Path) : outcome (list E) :=
  match tests with
  | [] => Return []
  | t :: tests' =>
      r ← execute_test t; es ← run_tests tests';
      Return (match r with Ok _ => es | Err e => e :: es end)
  end.

(** A panic of the thread is a panic of [main], which unwraps its join. *)
Fixpoint total_errors (paths : list Path) : outcome (list E) :=
  match paths with
  | [] => Return []
  | p :: paths' => es ← run_tests (find p); rest ← total_errors paths'; Return (es ++ rest)
  end.

(** [main] of eelstest and of ethertest. *)
Definition main (paths : list Path) : outcome Exit :=
  es ← total_errors paths; Return (match es with [] => ExitSuccess | _ => ExitFailure end).

(** [main] of blocktest: an error is a panic of the thread. *)
Fixpoint run_strictly (tests : list Path) : outcome unit :=
  match tests with
  | [] => Return tt
  | t :: tests' => r ← execute_test t; match r with Ok _ => run_strictly tests' | Err _ => Panic end
  end.

Fixpoint main_strict (paths : list Path) : outcome Exit :=
  match paths with
  | [] => Return ExitSuccess
  | p :: paths' => _ ← run_strictly (find p); main_strict paths'
  end.

(** ** Exit statuses *)

Lemma returns_bind {A B : Type} (o : outcome A) (k : A -> outcome B) :
  returns (o ≫= k) <-> exists a, o = Return a /\ returns (k a).
Proof.
  unfold mbind, outcome_bind. destruct o as [a| |]; split.
  - intros Hr. by exists a.
  - by intros (? & [= <-] & ?).
  - by intros [? ?].
  - by intros (? & ? & _).
  - by intros [? ?].
  - by intros (? & ? & _).
Qed.

Definition passes (t : Path) : Prop := execute_test t = Return (Ok tt).

Lemma run_tests_empty (tests : list Path) : run_tests tests = Return [] <-> Forall passes tests.
Proof.
  unfold passes. induction tests as [|x l IH]; [done|]. rewrite Forall_cons, <- IH. cbn. unfold mbind, outcome_bind.
  destruct (execute_test x) as [[[]|e]| |].
  - destruct (run_tests l); intuition congruence.
  - destruct (run_tests l); intuition congruence.
  - intuition congruence.
  - intuition congruence.
Qed.

Lemma total_errors_cons (p : Path) (l : list Path) :
  total_errors (p :: l) = Return [] <-> run_tests (find p) = Return [] /\ total_errors l = Return [].
Proof.
  cbn. unfold mbind, outcome_bind. destruct (run_tests (find p)) as [es| |]; [|intuition congruence..].
  destruct (total_errors l) as [rest| |]; [|intuition congruence..]. split.
  - intros [= Hes]. by apply app_nil in Hes as [-> ->].
  - by intros [[= ->] [= ->]].
Qed.

Lemma total_errors_empty (paths : list Path) :
  total_errors paths = Return [] <-> forall p t, p ∈ paths -> t ∈ find p -> passes t.
Proof.
  transitivity (Forall (fun p => Forall passes (find p)) paths).
  - induction paths as [|p l IH]; [done|]. by rewrite Forall_cons, <- IH, <- run_tests_empty, total_errors_cons.
  - split.
    + intros Hall p t Hp Ht. rewrite Forall_forall in Hall. specialize (Hall p Hp). rewrite Forall_forall in Hall.
      by apply Hall.
    + intros Hall. rewrite Forall_forall. intros p Hp. rewrite Forall_forall. intros t Ht. by apply (Hall p t).
Qed.

Lemma main_success (paths : list Path) :
  main paths = Return ExitSuccess <-> forall p t, p ∈ paths -> t ∈ find p -> passes t.
Proof.
  rewrite <- total_errors_empty. unfold main, mbind, outcome_bind. destruct (total_errors paths) as [[|e es]| |]; done.
Qed.

Lemma run_strictly_spec (tests : list Path) : run_strictly tests = Return tt <-> Forall passes tests.
Proof.
  unfold passes. induction tests as [|x l IH]; [done|]. rewrite Forall_cons, <- IH. cbn. unfold mbind, outcome_bind.
  destruct (execute_test x) as [[[]|e]| |]; intuition congruence.
Qed.

(** The strict driver is the other one with every failure a panic. *)
Lemma main_strict_success (paths : list Path) :
  main_strict paths = Return ExitSuccess <-> main paths = Return ExitSuccess.
Proof.
  rewrite main_success, <- total_errors_empty. induction paths as [|p l IH]; [done|].
  rewrite total_errors_cons, <- IH, run_tests_empty, <- run_strictly_spec. cbn. unfold mbind, outcome_bind.
  destruct (run_strictly (find p)) as [[]| |]; intuition congruence.
Qed.

(** No driver ends with success when a test does not pass, and eelstest and ethertest
    panic only when a test does. *)
Lemma run_tests_returns (tests : list Path) : returns (run_tests tests) <-> Forall (fun t => returns (execute_test t)) tests.
Proof.
  induction tests as [|x l IH]; [by split; [constructor|by eexists]|].
  rewrite Forall_cons, <- IH. cbn. rewrite returns_bind. split.
  - intros (r & Hr & (es & Hes & _)%returns_bind). split; by eexists.
  - intros [[r Hr] [es Hes]]. exists r. split; [done|]. rewrite returns_bind. exists es. split; [done|by eexists].
Qed.

Lemma main_returns (paths : list Path) :
  returns (main paths) <-> forall p t, p ∈ paths -> t ∈ find p -> returns (execute_test t).
Proof.
  transitivity (Forall (fun p => Forall (fun t => returns (execute_test t)) (find p)) paths).
  - unfold main. rewrite returns_bind. transitivity (returns (total_errors paths)).
    { split; [intros (es & Hes & _); by eexists|]. intros [es Hes]. exists es. split; [done|by eexists]. }
    induction paths as [|p l IH]; [by split; [constructor|by eexists]|].
    rewrite Forall_cons, <- IH, <- run_tests_returns. cbn. rewrite returns_bind. split.
    + intros (es & Hes & (rest & Hrest & _)%returns_bind). split; by eexists.
    + intros [[es Hes] [rest Hrest]]. exists es. split; [done|]. rewrite returns_bind. exists rest. split; [done|by eexists].
  - rewrite Forall_forall. split.
    + intros Hall p t Hp Ht. specialize (Hall p Hp). rewrite Forall_forall in Hall. by apply Hall.
    + intros Hall p Hp. rewrite Forall_forall. intros t Ht. by apply (Hall p t).
Qed.

End Main.

(** ** What is found *)

(** [q] leads from the tree [t] to an entry, through directories that can be read. *)
Inductive located : Tree -> Path -> Prop :=
| located_here t : located t []
| located_below entries n t q : (n, t) ∈ entries -> located t q -> located (Dir entries) (n :: q).

Section Tree_induction.
Context (P : Tree -> Prop) (HFile : P File) (HDir : forall entries, Forall (fun e => P e.2) entries -> P (Dir entries))
  (HUnreadable : P Unreadable).

(** Induction on a tree, with the hypothesis for every entry of a directory. *)
Fixpoint Tree_entries_ind (t : Tree) : P t :=
  match t with
  | File => HFile
  | Dir entries =>
      HDir entries ((fix all es : Forall (fun e => P e.2) es :=
        match es with [] => List.Forall_nil _ | e :: es' => List.Forall_cons _ e es' (Tree_entries_ind e.2) (all es') end) entries)
  | Unreadable => HUnreadable
  end.
End Tree_induction.

Lemma elem_of_walk (t : Tree) (p x : Path) : x ∈ walk p t <-> exists q, x = p ++ q /\ located t q.
Proof.
  revert p. induction t as [|entries IH|] using Tree_entries_ind; intros p; cbn.
  - rewrite list_elem_of_singleton. split; [intros ->; exists []; rewrite app_nil_r; by eauto using located_here|].
    intros (q & -> & Hq). inversion Hq. by rewrite app_nil_r.
  - rewrite Forall_forall in IH. rewrite elem_of_cons, list_elem_of_In, in_concat. split.
    + intros [->|(l & Hl & Hx)]; [exists []; rewrite app_nil_r; by eauto using located_here|].
      apply list_elem_of_In, list_elem_of_fmap in Hl as ([n t] & -> & Hin). apply list_elem_of_In, (IH _ Hin) in Hx as (q & -> & Hq).
      exists (n :: q). rewrite <- app_assoc. split; [done|]. by eapply located_below.
    + intros (q & -> & Hq). inversion Hq as [|? n t q' Hin Hq']; subst; [left; by rewrite app_nil_r|right].
      exists (walk (p ++ [n]) t). split.
      * apply list_elem_of_In, list_elem_of_fmap. by exists (n, t).
      * apply list_elem_of_In, (IH _ Hin). exists q'. by rewrite <- app_assoc.
  - rewrite list_elem_of_singleton. split; [intros ->; exists []; rewrite app_nil_r; by eauto using located_here|].
    intros (q & -> & Hq). inversion Hq. by rewrite app_nil_r.
Qed.

(** A test below a path: the file itself, whatever its name, or an entry with the
    extension, be it a file or not, below a directory. *)
Definition test_at (fs : Path -> option Tree) (p t : Path) : Prop :=
  (fs p = Some File /\ t = p) \/
  exists tree q, fs p = Some tree /\ tree ≠ File /\ located tree q /\ t = p ++ q /\ extension t = Some "json"%string.

Lemma find_spec (fs : Path -> option Tree) (p : Path) :
  Sorted path_le (find_all_json_tests fs p) /\ forall t, t ∈ find_all_json_tests fs p <-> test_at fs p t.
Proof.
  unfold find_all_json_tests, test_at. split; [apply Sorted_merge_sort, _|]. intros t. rewrite merge_sort_Permutation.
  destruct (fs p) as [tree|]; [|split; [by intros ?%not_elem_of_nil|by intros [[? _]|(? & ? & ? & _)]]].
  destruct tree as [|entries|]; [rewrite list_elem_of_singleton|rewrite list_elem_of_filter, elem_of_walk..].
  - split; [intros ->; by left|]. intros [[_ ->]|(? & ? & [= <-] & ? & _)]; done.
  - split; [intros (He & q & -> & Hq); right; exists (Dir entries), q; by auto|].
    intros [[? _]|(? & q & [= <-] & _ & Hq & -> & He)]; by eauto.
  - split; [intros (He & q & -> & Hq); right; exists Unreadable, q; by auto|].
    intros [[? _]|(? & q & [= <-] & _ & Hq & -> & He)]; by eauto.
Qed.

(** A path at which there is nothing has no tests, and so they pass. *)
Lemma nothing_passes {E : Type} (execute_test : Path -> outcome (result unit E)) (fs : Path -> option Tree) (p : Path) :
  fs p = None -> main execute_test (find_all_json_tests fs) [p] = Return ExitSuccess.
Proof. intros Hp. unfold main, total_errors, find_all_json_tests. by rewrite Hp. Qed.

(** ** eelstest *)

Section Eelstest.
Context `{TestDb} {Block StageError : Type}.
Context (new_provider : SpecId -> Tx) (genesis_block : SealedHeader -> Block) (try_recover : Block -> bool).
Context (insert_block : Block -> Tx -> result unit ProviderError * Tx) (decode : Bytes -> result Block RlpError).
Context (increment_receipts commit_headers : Tx -> outcome Tx) (block_number : Block -> Z).
Context (execution_stage : SpecId -> option Z -> Tx -> result unit StageError * Tx).

(** Outside: the text of a file, if it can be read, and the cases in it. *)
Context (read_to_string : Path -> option string) (from_str : string -> option (list (string * BlockchainTest))).

Local Abbreviation run_case := (execute_case new_provider genesis_block try_recover insert_block decode increment_receipts
  commit_headers block_number execution_stage).

(** [execute_test] on a path: reading is unwrapped, a text that is no test an error. *)
Definition execute_test_at (t : Path) : outcome (result unit TestError) :=
  match read_to_string t with
  | None => Panic
  | Some s =>
      match from_str s with
      | None => Return (Err SerdeDeserialize)
      | Some cases =>
          execute_test new_provider genesis_block try_recover insert_block decode increment_receipts commit_headers
            block_number execution_stage cases
      end
  end.

(** eelstest, run on [paths]. *)
Definition eelstest_main (fs : Path -> option Tree) (paths : list Path) : outcome Exit :=
  main execute_test_at (find_all_json_tests fs) paths.

Lemma execute_test_passes (cases : list (string * BlockchainTest)) :
  execute_test new_provider genesis_block try_recover insert_block decode increment_receipts commit_headers block_number
    execution_stage cases = Return (Ok tt) <->
  forall name case, (name, case) ∈ cases -> ForkSpec.excluded (network case) = false -> run_case name case = Return (Ok tt).
Proof.
  induction cases as [|[n c] l IH]; [by split; [intros _ ? ? ?%not_elem_of_nil|]|]. cbn [execute_test].
  destruct (ForkSpec.excluded (network c)) eqn:Hx.
  - rewrite IH. split; intros Hall name case Hin Hn.
    + apply elem_of_cons in Hin as [[= -> ->]|Hin]; [congruence|by apply Hall].
    + by apply Hall; [right|].
  - unfold mbind, outcome_bind. split.
    + destruct (run_case n c) as [[[]|e]| |] eqn:Hc; try done. intros Hl name case [[= -> ->]|Hin]%elem_of_cons Hn; [done|].
      by apply (proj1 IH Hl).
    + intros Hall. rewrite (Hall n c); [|by left|done]. apply IH. intros name case Hin Hn. by apply Hall; [right|].
Qed.

(** C38. eelstest ends with success exactly when every test it finds passes: whatever
    order directories are listed in, every file it is given, and every entry named
    *.json below a directory it is given, can be read, holds tests, and every case of
    it that is not of an excluded fork comes out as [execute_case] demands. Otherwise
    it fails, or panics when some test does. What cannot be found is not missed: a
    path at which there is nothing is no failure. *)
Theorem eelstest_verdict (fs : Path -> option Tree) (paths : list Path) :
  (eelstest_main fs paths = Return ExitSuccess <->
   forall p t, p ∈ paths -> test_at fs p t ->
     exists s cases, read_to_string t = Some s /\ from_str s = Some cases /\
       forall name case, (name, case) ∈ cases -> ForkSpec.excluded (network case) = false ->
         run_case name case = Return (Ok tt)) /\
  (returns (eelstest_main fs paths) <-> forall p t, p ∈ paths -> test_at fs p t -> returns (execute_test_at t)) /\
  ((forall p, p ∈ paths -> fs p = None) -> eelstest_main fs paths = Return ExitSuccess).
Proof.
  assert (Hfind : forall p t, t ∈ find_all_json_tests fs p <-> test_at fs p t) by (intros; apply find_spec).
  assert (Hmain : eelstest_main fs paths = Return ExitSuccess <->
    forall p t, p ∈ paths -> test_at fs p t -> passes execute_test_at t).
  { unfold eelstest_main. rewrite main_success. by setoid_rewrite Hfind. }
  split; [|split].
  - rewrite Hmain. unfold passes, execute_test_at. split; intros Hall p t Hp Ht; specialize (Hall p t Hp Ht).
    + destruct (read_to_string t) as [s|]; [|done]. destruct (from_str s) as [cases|] eqn:Hs; [|done].
      exists s, cases. do 2 (split; [done|]). by apply execute_test_passes.
    + destruct Hall as (s & cases & -> & -> & Hc). by apply execute_test_passes.
  - unfold eelstest_main. rewrite main_returns. by setoid_rewrite Hfind.
  - intros Hnone. apply Hmain. intros p t Hp [[Hf _]|(tree & q & Hf & _)]; by rewrite Hnone in Hf.
Qed.

End Eelstest.

(** ** ethertest and blocktest *)

Section Others.
Context {E : Type} (execute_test : Path -> outcome (result unit E)).

Definition ethertest_main (fs : Path -> option Tree) (paths : list Path) : outcome Exit :=
  main execute_test (find_all_json_tests fs) paths.
Definition blocktest_main (fs : Path -> option Tree) (paths : list Path) : outcome Exit :=
  main_strict execute_test (find_all_json_tests fs) paths.

(** They succeed on the same tests. *)
Lemma drivers_agree (fs : Path -> option Tree) (paths : list Path) :
  blocktest_main fs paths = Return ExitSuccess <-> ethertest_main fs paths = Return ExitSuccess.
Proof. apply main_strict_success. Qed.

(** The sender of a fixture's transaction, from its private key; outside: the curve
    and the address of a public key. *)
Definition recover_address {Key PublicKey Address : Type} (from_slice : list Byte.byte -> option Key)
    (to_encoded_point : Key -> list Byte.byte) (from_raw_public_key : list Byte.byte -> Address)
    (private_key : list Byte.byte) : option Address :=
  key ← from_slice private_key; Some (from_raw_public_key (drop 1 (to_encoded_point key))).

(** An address that may be the empty string. *)
Definition deserialize_maybe_empty {Address ParseError : Type} (parse : string -> result Address ParseError) (s : string) :
    result (option Address) ParseError :=
  if String.eqb s EmptyString then Ok None
  else match parse s with Ok a => Ok (Some a) | Err e => Err e end.

End Others.

(** ** Examples *)

(** A directory with two tests, another file, and a directory named like a test. *)
Definition example_tree : Tree :=
  Dir [("b.json", File); ("a.txt", File); (".json", File); ("sub", Dir [("z.tar.json", File)]); ("a.json", Dir [])]%string.
Definition example_fs (p : Path) : option Tree :=
  if decide (p = ["tests"%string]) then Some example_tree else if decide (p = ["one.txt"%string]) then Some File else None.

Example find_example :
  find_all_json_tests example_fs ["tests"%string] =
    [["tests"; "a.json"]; ["tests"; "b.json"]; ["tests"; "sub"; "z.tar.json"]]%string /\
  find_all_json_tests example_fs ["one.txt"%string] = [["one.txt"%string]] /\ find_all_json_tests example_fs ["no"%string] = [].
Proof. by vm_compute. Qed.

(** A test that fails makes the drivers fail, the strict one by a panic. *)
Definition example_test (t : Path) : outcome (result unit nat) :=
  Return (if decide (last t = Some "b.json"%string) then Err 5 else Ok tt).

Example main_example :
  main example_test (find_all_json_tests example_fs) [["tests"%string]] = Return ExitFailure /\
  main_strict example_test (find_all_json_tests example_fs) [["tests"%string]] = Panic /\
  main example_test (find_all_json_tests example_fs) [["one.txt"%string]; ["no"%string]] = Return ExitSuccess.
Proof. by vm_compute. Qed.
