(* ===== verification/StateTests.v ===== *)
(** * The state and block test drivers (crates/tools/bins/ethertest, blocktest)

    Both drivers turn test fixtures, whose numbers are 256 bits wide, into
    environments and transactions, hand them to the executors, and compare what comes
    back. The executors are parameters here; fixtures are as deserialized. *)

From Stdlib Require Import String Ascii.
From S2P Require Import Prelude Tools.
Local Open Scope Z_scope.

Definition Bytes : Type := list Byte.byte.

Inductive TxKind : Type :=
| Call (to : Z)
| Create.

(** [x.try_into().unwrap_or(MAX)], [as_u64_saturated!] and [saturating_to]. *)
Definition saturated (w v : Z) : Z := if v <=? uint_max w then v else uint_max w.

Lemma saturated_range (w v : Z) : 0 <= w -> 0 <= v -> in_range w (saturated w v).
Proof.
  intros Hw Hv. pose proof (pow2_pos w Hw). unfold saturated, in_range, uint_max.
  destruct (Z.leb_spec v (2 ^ w - 1)); lia.
Qed.

(** [u128::try_from(x).expect(..)]. *)
Definition expect_u128 (v : Z) : outcome Z := if v <=? u128_MAX then Return v else Panic.

(** The transaction given to the executors. *)
Record TxEnv : Type := mkTxEnv {
  tx_type : Z;
  tx_data : Bytes;
  tx_gas_limit : Z;
  tx_gas_price : Z;
  tx_gas_priority_fee : option Z;
  tx_nonce : Z;
  tx_value : Z;
  tx_blob_hashes : list Z;
  tx_max_fee_per_blob_gas : Z;
  tx_kind : TxKind;
  tx_access_list : list (Z * list Z);
  tx_authorization_list : list Z;
  tx_caller : Z;
}.

(** [TxEnv::derive_tx_type] of [revm]: whether there is a type, and the type it sets. *)
Class RevmTxEnv : Type := { derive_tx_type : TxEnv -> bool * Z }.

Definition with_type (ty : Z) (tx : TxEnv) : TxEnv :=
  mkTxEnv ty (tx_data tx) (tx_gas_limit tx) (tx_gas_price tx) (tx_gas_priority_fee tx) (tx_nonce tx) (tx_value tx)
    (tx_blob_hashes tx) (tx_max_fee_per_blob_gas tx) (tx_kind tx) (tx_access_list tx) (tx_authorization_list tx) (tx_caller tx).

(** A transaction after the call. *)
Definition derived `{RevmTxEnv} (tx : TxEnv) : TxEnv := with_type (derive_tx_type tx).2 tx.

(** An instance, for examples: blobs and authorizations need a recipient; a priority fee
    makes type 2, an access list type 1. *)
Definition example_types : RevmTxEnv := {|
  derive_tx_type := fun tx =>
    let called := match tx_kind tx with Call _ => true | Create => false end in
    let plain := match tx_gas_priority_fee tx, tx_access_list tx with Some _, _ => 2 | None, _ :: _ => 1 | None, [] => tx_type tx end in
    if negb (bool_decide (tx_blob_hashes tx = [])) || (0 <? tx_max_fee_per_blob_gas tx) then (called, if called then 3 else plain)
    else if bool_decide (tx_authorization_list tx = []) then (true, plain)
    else (called, if called then 4 else plain)
|}.

(** Its fields have the widths of their types. *)
Definition tx_typed (tx : TxEnv) : Prop :=
  in_range 64 (tx_gas_limit tx) /\ in_range 128 (tx_gas_price tx) /\ in_range 64 (tx_nonce tx) /\
  (forall f, tx_gas_priority_fee tx = Some f -> in_range 128 f) /\ in_range 128 (tx_max_fee_per_blob_gas tx).

Definition unsigned (v : option Z) : Prop := forall x, v = Some x -> 0 <= x.

(** An optional fee of 128 bits, as an option and with 0 for none. *)
Definition expect_option (v : option Z) : outcome (option Z) :=
  match v with Some b => b' ← expect_u128 b; Return (Some b') | None => Return None end.

Definition expect_or_zero (v : option Z) : outcome Z := match v with Some b => expect_u128 b | None => Return 0 end.

Definition fits_u128 (v : option Z) : Prop := forall f, v = Some f -> ~ u128_MAX < f.

Lemma expect_u128_fits (b : Z) :
  0 <= b -> (u128_MAX < b /\ expect_u128 b = Panic) \/ (~ u128_MAX < b /\ expect_u128 b = Return b /\ in_range 128 b).
Proof.
  intros Hb. unfold expect_u128, u128_MAX, uint_max, in_range. destruct (Z.leb_spec b (2 ^ 128 - 1)); [right|left; done].
  split; [lia|]. split; [done|lia].
Qed.

Lemma expect_option_fits (v : option Z) (Hv : unsigned v) :
  (exists f, v = Some f /\ u128_MAX < f /\ expect_option v = Panic) \/
  (exists p, expect_option v = Return p /\ (forall f, p = Some f -> in_range 128 f) /\ fits_u128 v).
Proof.
  destruct v as [b|]; [|right; by exists None]. unfold expect_option.
  destruct (expect_u128_fits b (Hv b eq_refl)) as [[Hbig ->]|(Hs & -> & Hr)]; [left; by exists b|right; exists (Some b)].
  split; [done|]. split; [|by intros f [= <-]]. by intros f [= <-].
Qed.

Lemma expect_or_zero_fits (v : option Z) (Hv : unsigned v) :
  (exists f, v = Some f /\ u128_MAX < f /\ expect_or_zero v = Panic) \/
  (exists p, expect_or_zero v = Return p /\ in_range 128 p /\ fits_u128 v).
Proof.
  destruct v as [b|]; [|right; by exists 0]. unfold expect_or_zero.
  destruct (expect_u128_fits b (Hv b eq_refl)) as [[Hbig ->]|(Hs & -> & Hr)]; [left; by exists b|right; exists b].
  split; [done|]. split; [done|]. by intros f [= <-].
Qed.

(** [x.or(y).unwrap_or_default()]. *)
Definition first_or_zero (x y : option Z) : Z := default 0 (match x with Some p => Some p | None => y end).

Lemma first_unsigned (x y : option Z) : unsigned x -> unsigned y -> 0 <= first_or_zero x y.
Proof. intros Hx Hy. destruct x as [p|]; [by apply Hx|]. destruct y as [p|]; [by apply Hy|done]. Qed.

(** The environment of a block. *)
Record EvmEnv : Type := mkEvmEnv {
  chain_id : Z;
  spec : SpecId;
  max_blobs_per_tx : option Z;
  number : Z;
  beneficiary : Z;
  gas_limit : Z;
  timestamp : Z;
  basefee : Z;
  difficulty : Z;
  prevrandao : option Z;
  blob_excess_gas : option Z;
}.

(** ** The state test driver *)

Module Ether.

Record TestEnv : Type := mkTestEnv {
  current_coinbase : Z; current_difficulty : Z; current_gas_limit : Z; current_number : Z; current_timestamp : Z;
  current_base_fee : option Z; current_random : option Z; parent_blob_gas_used : option Z;
  parent_excess_blob_gas : option Z; current_excess_blob_gas : option Z;
}.

Record TestTransaction : Type := mkTestTransaction {
  data : list Bytes; gas_limits : list Z; gas_price : option Z; nonce : Z; secret_key : Z; sender : option Z; to : option Z;
  values : list Z; max_fee_per_gas : option Z; max_priority_fee_per_gas : option Z;
  access_lists : list (option (list (Z * list Z))); authorization_list : option (list Z);
  blob_versioned_hashes : list Z; max_fee_per_blob_gas : option Z;
}.

Record TestIndexes : Type := mkTestIndexes { ix_data : nat; ix_gas : nat; ix_value : nat }.

Record TestAccountInfo : Type := mkTestAccountInfo { balance : Z; code : Bytes; acc_nonce : Z; storage : gmap Z Z }.

Record PostStateTest : Type := mkPostStateTest {
  expect_exception : option string;
  indexes : TestIndexes;
  hash : Z;
  logs : Z;
  state : list (Z * TestAccountInfo);
}.

Section Driver.
(** Outside: the environment [EvmEnv::default()], the excess blob gas of EIP-4844 and
    the address of a private key. *)
Context (default_env : EvmEnv) (calc_excess_blob_gas : Z -> Z -> Z) (recover_address : Z -> option Z).

Definition setup_env (env : TestEnv) (spec_id : SpecId) : outcome EvmEnv :=
  excess ← match current_excess_blob_gas env with
           | Some g => g' ← to_u64 g; Return (Some g')
           | None =>
               match parent_blob_gas_used env, parent_excess_blob_gas env with
               | Some used, Some excess => u ← to_u64 used; e ← to_u64 excess; Return (Some (calc_excess_blob_gas u e))
               | _, _ => Return (blob_excess_gas default_env)
               end
           end;
  Return (mkEvmEnv 1 spec_id (Some (if is_enabled_in spec_id PRAGUE then 9 else 6)) (current_number env)
    (current_coinbase env) (saturated 64 (current_gas_limit env)) (current_timestamp env)
    (saturated 64 (default 0 (current_base_fee env))) (current_difficulty env) (current_random env) excess).

(** The environment of a case: after the merge there is always randomness. *)
Definition case_env (env : TestEnv) (spec_id : SpecId) : outcome EvmEnv :=
  e ← setup_env env spec_id;
  Return (if is_enabled_in spec_id MERGE && bool_decide (prevrandao e = None)
          then mkEvmEnv (chain_id e) (spec e) (max_blobs_per_tx e) (number e) (beneficiary e) (gas_limit e) (timestamp e)
                 (basefee e) (difficulty e) (Some 0) (blob_excess_gas e)
          else e).

Definition unwrap {A : Type} (o : option A) : outcome A := match o with Some a => Return a | None => Panic end.

(** The sender, or the address of the secret key. *)
Definition caller (t : TestTransaction) : outcome Z :=
  match sender t with Some a => Return a | None => unwrap (recover_address (secret_key t)) end.

Definition build_tx (t : TestTransaction) (ix : TestIndexes) : outcome TxEnv :=
  d ← unwrap (data t !! ix_data ix);
  g ← unwrap (gas_limits t !! ix_gas ix);
  priority ← expect_option (max_priority_fee_per_gas t);
  blob_fee ← expect_or_zero (max_fee_per_blob_gas t);
  c ← caller t;
  Return (mkTxEnv 0 d (saturated 64 g)
    (saturated 128 (first_or_zero (gas_price t) (max_fee_per_gas t))) priority
    (saturated 64 (nonce t)) (default 0 (values t !! ix_value ix)) (blob_versioned_hashes t) blob_fee
    (match to t with Some a => Call a | None => Create end)
    (default [] (default None (access_lists t !! ix_data ix))) (default [] (authorization_list t)) c).

(** ** Hashes *)

(** [PlainAccount], the account of a cached state. *)
Record PlainAccount : Type := mkPlainAccount { pa_balance : Z; pa_nonce : Z; pa_code_hash : Z; pa_storage : gmap Z Z }.

(** Outside: keccak, the RLP encodings, big-endian bytes, and the root of a secure trie
    over keys and values. *)
Context {Log : Type} (keccak256 : Bytes -> Z) (encode_list : list Log -> Bytes) (encode_u256 : Z -> Bytes).
Context (encode_account : Z -> Z -> Z -> Z -> Bytes) (to_be_bytes : Z -> Bytes) (address_bytes : Z -> Bytes).
Context (sec_trie_root : list (Bytes * Bytes) -> Z).

Definition log_rlp_hash (l : list Log) : Z := keccak256 (encode_list l).

(** The slots that are not 0. *)
Definition nonzero_slots (m : gmap Z Z) : gmap Z Z := filter (fun kv => kv.2 ≠ 0) m.

Record TrieAccount : Type := mkTrieAccount { ta_nonce : Z; ta_balance : Z; root_hash : Z; ta_code_hash : Z }.

Definition TrieAccount_new (acc : PlainAccount) : TrieAccount :=
  mkTrieAccount (pa_nonce acc) (pa_balance acc)
    (sec_trie_root ((fun kv => (to_be_bytes kv.1, encode_u256 kv.2)) <$> map_to_list (nonzero_slots (pa_storage acc))))
    (pa_code_hash acc).

Definition state_merkle_trie_root (accounts : list (Z * PlainAccount)) : Z :=
  sec_trie_root ((fun a => let t := TrieAccount_new a.2 in
    (address_bytes a.1, encode_account (ta_nonce t) (ta_balance t) (root_hash t) (ta_code_hash t))) <$> accounts).

(** ** A case *)

(** Outside: the cache of a state with its insertions (which make [Bytecode]s of raw
    code), the state built from it, the
    executor with the receipt and the state it returns, committing, the cached
    accounts. *)
Context {CacheState EvmState St ExecError : Type} (cache_new : CacheState).
Context (insert_contract : Z -> Bytes -> CacheState -> CacheState).
Context (insert_account_with_storage : Z -> PlainAccount -> Bytes -> CacheState -> CacheState).
Context (build_state : CacheState -> bool -> St) `{Types : RevmTxEnv}.
Context (execute : EvmEnv -> TxEnv -> St -> result (bool * list Log * EvmState) ExecError).
Context (commit : EvmState -> St -> St) (load_cache_account : St -> Z -> option PlainAccount).
Context (trie_account : St -> list (Z * PlainAccount)).

Definition insert_pre (a : Z * TestAccountInfo) (cache_state : CacheState) : CacheState :=
  let code_hash := keccak256 (code a.2) in
  insert_account_with_storage a.1 (mkPlainAccount (balance a.2) (saturated 64 (acc_nonce a.2)) code_hash (storage a.2))
    (code a.2) (insert_contract code_hash (code a.2) cache_state).

(** The state a case starts from. *)
Definition pre_state (pre : list (Z * TestAccountInfo)) (spec_id : SpecId) : St :=
  build_state (foldl (fun c a => insert_pre a c) cache_new pre) (is_enabled_in spec_id SPURIOUS_DRAGON).

Definition cached_account (st : St) (address : Z) : PlainAccount :=
  default (mkPlainAccount 0 0 (keccak256 []) ∅) (load_cache_account st address).

(** An account of the expected state against the state: balance, nonce and slots that
    are not 0. *)
Definition account_matches (st : St) (a : Z * TestAccountInfo) : bool :=
  let db_account := cached_account st a.1 in
  let got_storage := nonzero_slots (pa_storage db_account) in
  bool_decide (size (storage a.2) = size got_storage) && bool_decide (storage a.2 = got_storage) &&
  (balance a.2 =? pa_balance db_account) && (saturated 64 (acc_nonce a.2) =? pa_nonce db_account).

(** The checks on the outcome of a case; a failed check panics. *)
Definition check_case (c : PostStateTest) (st : St) (res : result (bool * list Log * EvmState) ExecError) : outcome unit :=
  match res with
  | Ok (success, got_logs, changes) =>
      _ ← assert (negb (bool_decide (is_Some (expect_exception c)) && success));
      _ ← assert (log_rlp_hash got_logs =? logs c);
      let st' := commit changes st in
      _ ← assert (forallb (account_matches st') (state c));
      assert (state_merkle_trie_root (trie_account st') =? hash c)
  | Err _ => assert (bool_decide (is_Some (expect_exception c)))
  end.

Record Test : Type := mkTest {
  env : TestEnv;
  transaction : TestTransaction;
  pre : list (Z * TestAccountInfo);
  post : list (SpecName.SpecName * list PostStateTest);
}.

(** A case: [false] when the closure returns, which ends the cases of the fork. *)
Definition run_case (t : Test) (spec_id : SpecId) (c : PostStateTest) : outcome bool :=
  e ← case_env (env t) spec_id;
  tx ← build_tx (transaction t) (indexes c);
  if (derive_tx_type tx).1 then
    _ ← check_case c (pre_state (pre t) spec_id) (execute e (derived tx) (pre_state (pre t) spec_id));
    Return true
  else if bool_decide (is_Some (expect_exception c)) then Return false
  else Panic.

Fixpoint run_cases (t : Test) (spec_id : SpecId) (cs : list PostStateTest) : outcome unit :=
  match cs with
  | [] => Return tt
  | c :: cs' => go_on ← run_case t spec_id c; if go_on : bool then run_cases t spec_id cs' else Return tt
  end.

(** The cases of one fork name. *)
Definition run_fork (t : Test) (spec_name : SpecName.SpecName) (cs : list PostStateTest) : outcome unit :=
  if bool_decide (spec_name = SpecName.Constantinople) then Return tt
  else spec_id ← SpecName.to_spec_id spec_name; run_cases t spec_id cs.

Fixpoint run_forks (t : Test) (forks : list (SpecName.SpecName * list PostStateTest)) : outcome unit :=
  match forks with
  | [] => Return tt
  | (spec_name, cs) :: forks' => _ ← run_fork t spec_name cs; run_forks t forks'
  end.

Fixpoint run_suites (suites : list (string * Test)) : outcome unit :=
  match suites with
  | [] => Return tt
  | (_, t) :: suites' => _ ← run_forks t (post t); run_suites suites'
  end.

Definition skipped_files : list string :=
  ["ValueOverflow.json"; "ValueOverflowParis.json"; "RevertPrecompiledTouch_storage.json"; "RevertPrecompiledTouch.json";
   "typeTwoBerlin.json"; "HighGasPrice.json"; "CREATE_HighNonce.json"; "CREATE_HighNonceMinus1.json";
   "CreateTransactionHighNonce.json"; "basefeeExample.json"; "eip1559.json"; "mergeTest.json"; "emptyBlobhashList.json";
   "RevertInCreateInInit_Paris.json"; "RevertInCreateInInit.json"; "dynamicAccountOverwriteEmpty.json";
   "dynamicAccountOverwriteEmpty_Paris.json"; "RevertInCreateInInitCreate2Paris.json"; "create2collisionStorage.json";
   "RevertInCreateInInitCreate2.json"; "create2collisionStorageParis.json"; "InitCollision.json"; "InitCollisionParis.json";
   "warm_coinbase_call_out_of_gas.json"; "warm_coinbase_gas_usage.json"; "initcode_transaction_before_prague.json";
   "invalid_tx_non_existing_sender.json"; "tx_non_existing_sender.json"; "block_apply_withdrawal.json";
   "block_apply_ommers_reward.json"; "known_block_hash.json"; "eip7516_blob_base_fee.json";
   "create_tx_collision_storage.json"; "create_collision_storage.json"]%string.

Definition should_skip (file_name : string) : bool := bool_decide (file_name ∈ skipped_files).

(** A file, by its name and what its content deserializes to. The suites and forks of
    a file run in parallel on data of their own, and a panic in any of them is the
    outcome: here they are run in order. *)
Definition execute_test {E : Type} (file_name : string) (content : result (list (string * Test)) E) : outcome (result unit E) :=
  if should_skip file_name then Return (Ok tt)
  else match content with
       | Err e => Return (Err e)
       | Ok suites => _ ← run_suites suites; Return (Ok tt)
       end.

(** ** Properties *)

(** The outcome of a case is what the fixture expects. *)
Definition as_expected (t : Test) (spec_id : SpecId) (c : PostStateTest) : Prop :=
  exists e tx, case_env (env t) spec_id = Return e /\ build_tx (transaction t) (indexes c) = Return tx /\
  (derive_tx_type tx).1 = true /\
  let st := pre_state (pre t) spec_id in
  match execute e (derived tx) st with
  | Ok (success, got_logs, changes) =>
      (success = true -> expect_exception c = None) /\ log_rlp_hash got_logs = logs c /\
      (forall a, a ∈ state c -> account_matches (commit changes st) a = true) /\
      state_merkle_trie_root (trie_account (commit changes st)) = hash c
  | Err _ => is_Some (expect_exception c)
  end.

Lemma check_case_spec (c : PostStateTest) (st : St) (res : result (bool * list Log * EvmState) ExecError) :
  check_case c st res = Return tt <->
  match res with
  | Ok (success, got_logs, changes) =>
      (success = true -> expect_exception c = None) /\ log_rlp_hash got_logs = logs c /\
      (forall a, a ∈ state c -> account_matches (commit changes st) a = true) /\
      state_merkle_trie_root (trie_account (commit changes st)) = hash c
  | Err _ => is_Some (expect_exception c)
  end.
Proof.
  unfold check_case, assert. destruct res as [[[success got_logs] changes]|e]; [|case_bool_decide; split; done].
  assert (He : negb (bool_decide (is_Some (expect_exception c)) && success) = true <->
    (success = true -> expect_exception c = None)).
  { destruct (expect_exception c), success; cbn; split; intros Hc; try done; by discriminate (Hc eq_refl). }
  assert (Ha : forallb (account_matches (commit changes st)) (state c) = true <->
    forall a, a ∈ state c -> account_matches (commit changes st) a = true).
  { rewrite forallb_forall. split; intros Hall a Hin; apply Hall; by apply list_elem_of_In. }
  rewrite <- He, <- Ha. destruct (negb _); cbn; [|split; [done|by intros (? & _)]].
  destruct (Z.eqb_spec (log_rlp_hash got_logs) (logs c)); cbn; [|split; [done|by intros (_ & ? & _)]].
  destruct (forallb _ _); cbn; [|split; [done|by intros (_ & _ & ? & _)]].
  destruct (Z.eqb_spec (state_merkle_trie_root (trie_account (commit changes st))) (hash c)); split; try done. by intros (_ & _ & _ & ?).
Qed.

(** The root of a state does not see slots that are 0. *)
Lemma trie_account_nonzero (x y : PlainAccount) :
  pa_nonce x = pa_nonce y -> pa_balance x = pa_balance y -> pa_code_hash x = pa_code_hash y ->
  nonzero_slots (pa_storage x) = nonzero_slots (pa_storage y) -> TrieAccount_new x = TrieAccount_new y.
Proof. unfold TrieAccount_new. by intros -> -> -> ->. Qed.

Lemma run_case_expected (t : Test) (spec_id : SpecId) (c : PostStateTest) :
  run_case t spec_id c = Return true -> as_expected t spec_id c.
Proof.
  unfold run_case, as_expected, mbind, outcome_bind. destruct (case_env _ _) as [e| |]; try done.
  destruct (build_tx _ _) as [tx| |]; try done. destruct (derive_tx_type tx).1 eqn:Hty; [|by destruct (bool_decide _)].
  destruct (check_case _ _ _) as [[]| |] eqn:Hc; try done. intros _. exists e, tx. do 3 (split; [done|]).
  by apply check_case_spec.
Qed.

(** C30. When the driver goes through the cases of a fork without a panic, then either
    every case came out as its fixture expects, or there is a first case whose
    transaction has no valid type and which expects an exception: the cases before
    it came out as expected, and the cases after it were not run, whatever they
    are. *)
Theorem state_tests_verdict (t : Test) (spec_id : SpecId) (cs : list PostStateTest)
    (Hrun : run_cases t spec_id cs = Return tt) :
  (forall c, c ∈ cs -> as_expected t spec_id c) \/
  exists before c after, cs = before ++ c :: after /\ run_case t spec_id c = Return false /\
    is_Some (expect_exception c) /\ (forall b, b ∈ before -> as_expected t spec_id b) /\
    forall after', run_cases t spec_id (before ++ c :: after') = Return tt.
Proof.
  induction cs as [|c cs IH]; [by left; intros c ?%elem_of_nil|]. cbn [run_cases mbind outcome_bind] in Hrun.
  unfold mbind, outcome_bind in Hrun. destruct (run_case t spec_id c) as [[]| |] eqn:Hc; try done.
  - destruct (IH Hrun) as [Hall|(before & d & after & -> & Hd & Hex & Hbefore & Hafter)].
    + left. intros d [->|Hd]%elem_of_cons; [by apply run_case_expected|by apply Hall].
    + right. exists (c :: before), d, after. do 3 (split; [done|]). split.
      * intros b [->|Hb]%elem_of_cons; [by apply run_case_expected|by apply Hbefore].
      * intros after'. cbn. unfold mbind, outcome_bind. rewrite Hc. apply Hafter.
  - right. exists [], c, cs. split; [done|]. split; [done|]. split; [|split].
    + unfold run_case, mbind, outcome_bind in Hc. destruct (case_env _ _); try done. destruct (build_tx _ _) as [tx| |]; try done.
      destruct (derive_tx_type tx).1; [by destruct (check_case _ _ _)|]. by case_bool_decide.
    + by intros b ?%elem_of_nil.
    + intros after'. cbn. unfold mbind, outcome_bind. by rewrite Hc.
Qed.

Lemma caller_known (t : TestTransaction) :
  (sender t = None /\ recover_address (secret_key t) = None /\ caller t = Panic) \/
  exists c, caller t = Return c /\ ~ (sender t = None /\ recover_address (secret_key t) = None).
Proof.
  unfold caller, unwrap. destruct (sender t) as [a|]; [right; exists a; split; [done|by intros []]|].
  destruct (recover_address _) as [a|]; [right; exists a; split; [done|by intros []]|by left].
Qed.

(** What makes building a transaction panic. *)
Definition unbuildable (t : TestTransaction) (ix : TestIndexes) : Prop :=
  data t !! ix_data ix = None \/ gas_limits t !! ix_gas ix = None \/
  (exists f, max_priority_fee_per_gas t = Some f /\ u128_MAX < f) \/
  (exists f, max_fee_per_blob_gas t = Some f /\ u128_MAX < f) \/
  (sender t = None /\ recover_address (secret_key t) = None).

(** The numbers of a fixture are unsigned. *)
Definition fixture_unsigned (t : TestTransaction) : Prop :=
  Forall (fun g => 0 <= g) (gas_limits t) /\ unsigned (gas_price t) /\ unsigned (max_fee_per_gas t) /\ 0 <= nonce t /\
  unsigned (max_priority_fee_per_gas t) /\ unsigned (max_fee_per_blob_gas t).

(** C31. Building the transaction of a case from 256-bit fixture values gives a
    transaction whose gas limit, gas price, fees and nonce fit the widths of their
    types; it panics exactly when an index of the case is out of range, a priority or
    blob fee does not fit 128 bits, or there is neither a sender nor a valid key.
    Gas limit, gas price and nonce never panic: they saturate. *)
Theorem build_tx_typed (t : TestTransaction) (ix : TestIndexes) (Hfix : fixture_unsigned t) :
  (unbuildable t ix -> build_tx t ix = Panic) /\
  (~ unbuildable t ix -> exists tx, build_tx t ix = Return tx /\ tx_typed tx /\ tx_value tx = default 0 (values t !! ix_value ix)).
Proof.
  destruct Hfix as (Hg & Hp & Hf & Hn & Hpr & Hb). unfold build_tx, mbind, outcome_bind, unwrap, unbuildable.
  destruct (data t !! ix_data ix) as [d|]; [|split; [done|intros []; by left]].
  destruct (gas_limits t !! ix_gas ix) as [g|] eqn:Hgl; [|split; [done|intros []; by right; left]].
  destruct (expect_option_fits _ Hpr) as [(f & Hp1 & Hbig & ->)|(priority & -> & Hpri & Hsmall)];
    [split; [done|intros []; right; right; left; by exists f]|].
  destruct (expect_or_zero_fits _ Hb) as [(f & Hb1 & Hbig & ->)|(blob & -> & Hblob & Hsmall')];
    [split; [done|intros []; right; right; right; left; by exists f]|].
  destruct (caller_known t) as [(Hs & Hr & ->)|(c & -> & Hc)]; [split; [done|intros []; by right; right; right; right]|].
  split; [intros [?|[?|[(f & Hx & ?)|[(f & Hx & ?)|?]]]]; [done|done|by destruct (Hsmall f Hx)|by destruct (Hsmall' f Hx)|done]|].
  intros _. eexists. split; [done|]. split; [|done]. refine (conj _ (conj _ (conj _ (conj _ _)))); cbn; try done.
  - apply saturated_range; [done|]. by apply (list.Forall_lookup_1 _ _ _ _ Hg Hgl).
  - apply saturated_range; [done|]. by apply first_unsigned.
  - by apply saturated_range.
Qed.

End Driver.

(** ** A fixture *)

Definition example_tx : TestTransaction :=
  mkTestTransaction [[Byte.x60]] [2 ^ 70; 21000] (Some 7) 3 1 None (Some 9) [5] None (Some 2) [] None [] None.

Definition example_env : TestEnv := mkTestEnv 1 0 (2 ^ 65) 10 20 (Some 7) None (Some 1) (Some 2) None.

Definition example_default : EvmEnv := mkEvmEnv 1 PRAGUE None 0 0 u64_MAX 1 0 0 (Some 0) (Some 0).

Definition example_recover (key : Z) : option Z := if key =? 1 then Some 77 else None.

(** An executor that moves the value, on states that are balances. *)
Definition example_execute (_ : EvmEnv) (tx : TxEnv) (st : Z) : result (bool * list Z * Z) string :=
  if st <? tx_value tx then Err "balance"%string else Ok (true, [tx_value tx], st - tx_value tx).

(** A transaction has a type when it has a value. *)
#[local] Instance value_types : RevmTxEnv := {| derive_tx_type := fun tx => (negb (tx_value tx =? 0), 0) |}.

Definition example_test : Test := mkTest example_env example_tx [(9, mkTestAccountInfo 20 [] 0 ∅)] [].

Definition example_case (exc : option string) (ix : TestIndexes) (h l : Z) : PostStateTest :=
  mkPostStateTest exc ix h l [(9, mkTestAccountInfo 15 [] (2 ^ 64) ∅)].

Definition example_passing : PostStateTest := example_case None (mkTestIndexes 0 0 0) 15 1.

(** A case of a type that is not valid: here, when the value is missing. *)
Definition example_untyped : PostStateTest := example_case (Some "TR_TypeNotSupported"%string) (mkTestIndexes 0 1 7) 0 0.

Definition example_after : PostStateTest := example_case None (mkTestIndexes 0 1 0) 999 999.

Definition example_cases : list PostStateTest := [example_passing; example_untyped; example_after].

Definition example_run : outcome unit :=
  run_cases example_default Z.add example_recover (fun b => Z.of_nat (length b)) (fun l : list Z => replicate (length l) Byte.x00)
    (fun _ => []) (fun _ b _ _ => replicate (Z.to_nat b) Byte.x00) (fun _ => []) (fun _ => [])
    (fun l => foldr (fun kv acc => Z.of_nat (length kv.2) + acc) 0 l) 0 (fun _ _ c => c) (fun _ i _ c => pa_balance i + c)
    (fun c _ => c) example_execute (fun changes _ => changes)
    (fun st a => Some (mkPlainAccount st u64_MAX 0 {[ 1 := 0 ]})) (fun st => [(9, mkPlainAccount st 0 0 ∅)])
    example_test PRAGUE example_cases.

(** The second case ends the cases of the fork: the third, which would fail, is not
    run. *)
Lemma state_tests_verdict_witness : example_run = Return tt /\
  exists before c after, example_cases = before ++ c :: after /\ is_Some (expect_exception c).
Proof.
  assert (Hrun : example_run = Return tt) by (vm_compute; reflexivity). split; [exact Hrun|].
  destruct (state_tests_verdict _ _ _ _ _ _ _ _ _ _ _ _ _ _ _ _ _ _ _ _ _ Hrun) as [Hall|(before & c & after & Heq & _ & Hex & _)].
  - exists [example_passing], example_untyped, [example_after]. split; [reflexivity|]. eexists. reflexivity.
  - exists before, c, after. split; [exact Heq|exact Hex].
Defined.

Lemma build_tx_typed_witness :
  exists tx, build_tx example_recover example_tx (mkTestIndexes 0 0 0) = Return tx /\ tx_typed tx /\ tx_value tx = 5.
Proof.
  assert (Hu : fixture_unsigned example_tx).
  { refine (conj _ (conj _ (conj _ (conj _ (conj _ _))))); try (by intros x [= <-]); [|done]. repeat constructor; done. }
  apply (proj2 (build_tx_typed example_recover example_tx (mkTestIndexes 0 0 0) Hu)).
  intros [H|[H|[(f & H & Hf)|[(f & H & _)|[_ H]]]]]; try discriminate. by injection H as <-.
Defined.

Lemma example_tx_built :
  build_tx example_recover example_tx (mkTestIndexes 0 0 0) =
  Return (mkTxEnv 0 [Byte.x60] u64_MAX 7 (Some 2) 3 5 [] 0 (Call 9) [] [] 77).
Proof. reflexivity. Qed.

End Ether.
