(* ===== verification/BlockTests.v ===== *)
(** * The block test driver (crates/tools/bins/blocktest)

    A suite is a block: its environment, its transactions under their positions as
    decimal keys, and the logs and accounts expected. The driver runs the block with
    the sequential and with the parallel executor and compares both with the suite and
    with each other. Hash maps are lists of their entries in the order they are
    iterated, or finite maps where they are only looked up. *)

From Stdlib Require Import String Ascii.
From S2P Require Import Prelude Types Results Tools StateTests.
Local Open Scope Z_scope.

(** ** Decimal keys *)

(** [char::to_digit(10)]. *)
Definition to_digit (c : ascii) : option Z :=
  let d := Z.of_nat (nat_of_ascii c) - 48 in if (0 <=? d) && (d <=? 9) then Some d else None.

Definition of_digit (d : Z) : ascii := ascii_of_nat (Z.to_nat (d + 48)).

Lemma to_of_digit (d : Z) : 0 <= d <= 9 -> to_digit (of_digit d) = Some d.
Proof.
  intros Hd. unfold to_digit, of_digit. rewrite nat_ascii_embedding by lia. rewrite Z2Nat.id by lia.
  replace (d + 48 - 48) with d by lia. by destruct (Z.leb_spec 0 d), (Z.leb_spec d 9); try lia.
Qed.

(** The digits of [s] after the value [acc]; no value beyond 64 bits. *)
Fixpoint parse_digits (s : string) (acc : Z) : option Z :=
  match s with
  | EmptyString => Some acc
  | String c s' =>
      match to_digit c with
      | Some d => if 10 * acc + d <=? u64_MAX then parse_digits s' (10 * acc + d) else None
      | None => None
      end
  end.

(** [s.parse::<usize>()]: not empty, with at most one plus sign in front. *)
Definition parse_usize (s : string) : option Z :=
  match s with
  | EmptyString => None
  | String c s' =>
      if (c =? "+")%char then match s' with EmptyString => None | _ => parse_digits s' 0 end
      else parse_digits s 0
  end.

(** The decimal digits of [n] in front of [acc]. *)
Fixpoint digits (fuel : nat) (n : Z) (acc : string) : string :=
  match fuel with
  | O => acc
  | S fuel' =>
      if n <? 10 then String (of_digit n) acc
      else digits fuel' (n / 10) (String (of_digit (n mod 10)) acc)
  end.

(** [n.to_string()]: a [usize] has at most 20 digits. *)
Definition to_string (n : nat) : string := digits 20 (Z.of_nat n) EmptyString.

Lemma parse_digits_digits (fuel : nat) (n : Z) (acc : string) :
  0 <= n <= u64_MAX -> n < 10 ^ Z.of_nat fuel -> parse_digits (digits fuel n acc) 0 = parse_digits acc n.
Proof.
  revert n acc. induction fuel as [|fuel IH]; intros n acc Hn Hf; [cbn in Hf; by replace n with 0 by lia|].
  cbn [digits]. destruct (Z.ltb_spec n 10) as [Hlt|Hge].
  - cbn [parse_digits]. rewrite to_of_digit by lia. by rewrite (proj2 (Z.leb_le _ _)) by lia.
  - pose proof (Z.div_mod n 10 ltac:(lia)) as Hdm. pose proof (Z.mod_pos_bound n 10 ltac:(lia)) as Hm.
    rewrite Nat2Z.inj_succ, Z.pow_succ_r in Hf by lia. rewrite IH by lia.
    cbn [parse_digits]. rewrite to_of_digit by lia. rewrite (proj2 (Z.leb_le _ _)) by lia. f_equal. lia.
Qed.

Lemma digits_start (fuel : nat) (n : Z) (acc : string) :
  (0 < fuel)%nat -> 0 <= n -> n < 10 ^ Z.of_nat fuel -> exists d s, digits fuel n acc = String (of_digit d) s /\ 0 <= d <= 9.
Proof.
  revert n acc. induction fuel as [|fuel IH]; intros n acc Hfuel Hn Hf; [lia|]. cbn [digits].
  destruct (Z.ltb_spec n 10) as [Hlt|Hge]; [exists n, acc; split; [done|lia]|].
  pose proof (Z.div_mod n 10 ltac:(lia)) as Hdm. pose proof (Z.mod_pos_bound n 10 ltac:(lia)) as Hm.
  rewrite Nat2Z.inj_succ, Z.pow_succ_r in Hf by lia. apply IH; [|lia|lia].
  destruct fuel; [cbn in Hf; lia|lia].
Qed.

Lemma of_digit_not_plus (d : Z) : 0 <= d <= 9 -> (of_digit d =? "+")%char = false.
Proof.
  intros Hd. destruct (Ascii.eqb_spec (of_digit d) "+") as [Heq|]; [|done].
  pose proof (to_of_digit d Hd) as Hp. by rewrite Heq in Hp.
Qed.

(** Parsing the decimal string of a number gives the number. *)
Lemma parse_to_string (n : nat) : Z.of_nat n < 2 ^ 64 -> parse_usize (to_string n) = Some (Z.of_nat n).
Proof.
  intros Hn. assert (Hf : Z.of_nat n < 10 ^ Z.of_nat 20) by (change (10 ^ Z.of_nat 20) with 100000000000000000000; lia).
  destruct (digits_start 20 (Z.of_nat n) EmptyString) as (d & s & Heq & Hd); [lia|lia|done|].
  pose proof (parse_digits_digits 20 (Z.of_nat n) EmptyString) as Hp.
  unfold to_string, parse_usize. rewrite Heq in *. rewrite of_digit_not_plus by done. apply Hp; [|done].
  unfold u64_MAX, uint_max. lia.
Qed.

Lemma to_string_inj (i j : nat) :
  Z.of_nat i < 2 ^ 64 -> Z.of_nat j < 2 ^ 64 -> to_string i = to_string j -> i = j.
Proof. intros Hi Hj Heq. pose proof (parse_to_string i Hi) as Hp. rewrite Heq, parse_to_string in Hp by done. injection Hp. lia. Qed.

(** ** Maps keyed by positions *)

Definition by_index {A B : Type} (f : A -> B) (l : list A) : gmap string B :=
  list_to_map (imap (fun i x => (to_string i, f x)) l).

Lemma by_index_keys {A B : Type} (f : A -> B) (l : list A) :
  Z.of_nat (length l) < 2 ^ 64 -> NoDup (imap (fun i x => (to_string i, f x)) l).*1.
Proof.
  intros Hlen. apply NoDup_alt. intros i j k. rewrite !list_lookup_fmap, !list_lookup_imap.
  destruct (l !! i) as [x|] eqn:Hi, (l !! j) as [y|] eqn:Hj; try done. apply lookup_lt_Some in Hi, Hj. cbn.
  intros Hx%Some_inj Hy%Some_inj. apply to_string_inj; [lia|lia|]. exact (eq_trans Hx (eq_sym Hy)).
Qed.

Lemma by_index_lookup {A B : Type} (f : A -> B) (l : list A) (i : nat) :
  Z.of_nat (length l) < 2 ^ 64 -> Z.of_nat i < 2 ^ 64 -> by_index f l !! to_string i = f <$> l !! i.
Proof.
  intros Hlen Hi. destruct (l !! i) as [x|] eqn:Hx; cbn [fmap option_fmap option_map].
  - apply elem_of_list_to_map_1; [by apply by_index_keys|]. apply elem_of_lookup_imap. by exists i, x.
  - apply not_elem_of_list_to_map_1. intros ([k y] & Heq & Hin)%list_elem_of_fmap.
    apply elem_of_lookup_imap in Hin as (j & z & Hjz & Hj). pose proof (f_equal fst Hjz) as Hk. cbn [fst] in Heq, Hk.
    apply lookup_lt_Some in Hj as Hlt. assert (i = j) as ->; [|by rewrite Hx in Hj].
    apply to_string_inj; [done|lia|]. exact (eq_trans Heq Hk).
Qed.

Lemma by_index_size {A B : Type} (f : A -> B) (l : list A) : Z.of_nat (length l) < 2 ^ 64 -> size (by_index f l) = length l.
Proof.
  intros Hlen. unfold by_index. rewrite <- (length_imap (fun i x => (to_string i, f x)) l).
  rewrite <- length_map_to_list. apply Permutation_length, map_to_list_to_map. by apply by_index_keys.
Qed.

(** Two such maps are the same exactly when the lists are. *)
Lemma by_index_inj {A B C : Type} (f : A -> C) (g : B -> C) (l : list A) (l' : list B) :
  Z.of_nat (length l) < 2 ^ 64 -> Z.of_nat (length l') < 2 ^ 64 ->
  by_index f l = by_index g l' <-> f <$> l = g <$> l'.
Proof.
  intros Hl Hl'. split; intros Heq.
  - apply list_eq. intros i. rewrite !list_lookup_fmap. destruct (decide (Z.of_nat i < 2 ^ 64)) as [Hi|Hi].
    + by rewrite <- !by_index_lookup, Heq.
    + rewrite !lookup_ge_None_2 by lia. done.
  - apply map_eq. intros k. assert (Heq' : imap (fun i x => (to_string i, f x)) l = imap (fun i x => (to_string i, g x)) l').
    { transitivity (imap (fun i x => (to_string i, x)) (f <$> l)); [by rewrite imap_fmap|]. rewrite Heq. by rewrite imap_fmap. }
    unfold by_index. by rewrite Heq'.
Qed.

(** ** Suites *)

Record TestEnv : Type := mkTestEnv {
  block_number : Z; current_coinbase : Z; current_difficulty : Z; current_gas_limit : Z; current_timestamp : Z;
  base_fee_per_gas : option Z; mix_hash : option Z;
}.

Record TestTransaction : Type := mkTestTransaction {
  data : Bytes; gas_limit : Z; gas_price : option Z; nonce : Z; sender : option Z; to : option Z; value : Z;
  max_fee_per_gas : option Z; access_list : option (list (Z * list Z));
}.

(** [TestTransaction::default()]. *)
Definition TestTransaction_default : TestTransaction := mkTestTransaction [] 0 None 0 None None 0 None None.

Record Account : Type := mkAccount {
  balance : Z; code : Bytes; code_hash : option Z; acc_nonce : Z; storage : list (Z * Z);
}.

Record ExpectLog : Type := mkExpectLog { address : Z; log_data : Bytes; topics : list Z }.

Record Suite : Type := mkSuite {
  env : TestEnv;
  transactions : list (string * TestTransaction);
  pre : list (Z * Account);
  post : option (list (Z * Account));
  logs : gmap string (gmap string ExpectLog);
  block_hashes : list (string * Z);
}.

(** ** The transactions of a block *)

(** [transactions[id.parse::<usize>().unwrap() - 1] = tx]. *)
Definition place (ts : list TestTransaction) (e : string * TestTransaction) : outcome (list TestTransaction) :=
  match parse_usize e.1 with
  | Some id =>
      if (0 <? id) && (id <=? Z.of_nat (length ts)) then Return (<[Z.to_nat (id - 1) := e.2]> ts) else Panic
  | None => Panic
  end.

Fixpoint place_all (ts : list TestTransaction) (es : list (string * TestTransaction)) : outcome (list TestTransaction) :=
  match es with
  | [] => Return ts
  | e :: es' => ts' ← place ts e; place_all ts' es'
  end.

Definition sort_transactions (es : list (string * TestTransaction)) : outcome (list TestTransaction) :=
  place_all (replicate (length es) TestTransaction_default) es.

(** The entries of a suite's transactions: each under its position from 1. *)
Definition numbered (ts : list TestTransaction) : list (string * TestTransaction) :=
  imap (fun i t => (to_string (S i), t)) ts.

Lemma numbered_elem (ts : list TestTransaction) (e : string * TestTransaction) :
  e ∈ numbered ts <-> exists i t, e = (to_string (S i), t) /\ ts !! i = Some t.
Proof. apply elem_of_lookup_imap. Qed.

(** Placing entries that are where they belong changes exactly their positions. *)
Lemma place_all_numbered (ts cur : list TestTransaction) (es : list (string * TestTransaction)) :
  Z.of_nat (length ts) < 2 ^ 64 -> length cur = length ts -> (forall e, e ∈ es -> e ∈ numbered ts) ->
  exists res, place_all cur es = Return res /\ length res = length ts /\
    forall i t, ts !! i = Some t -> ((to_string (S i), t) ∈ es \/ cur !! i = Some t) -> res !! i = Some t.
Proof.
  intros Hn. revert cur. induction es as [|e es IH]; intros cur Hlen Hes.
  { exists cur. split; [done|]. split; [done|]. by intros i t Ht [?%elem_of_nil|]. }
  destruct (proj1 (numbered_elem ts e) (Hes e (list_elem_of_here _ _))) as (i & t & -> & Hi).
  pose proof (lookup_lt_Some _ _ _ Hi) as Hlt. cbn [place_all]. unfold place. cbn [fst snd].
  rewrite parse_to_string by lia. rewrite (proj2 (Z.ltb_lt _ _)) by lia. rewrite (proj2 (Z.leb_le _ _)) by lia.
  replace (Z.to_nat (Z.of_nat (S i) - 1)) with i by lia. cbn [andb]. unfold mbind, outcome_bind.
  destruct (IH (<[i := t]> cur)) as (res & Hres & Hl & Hat).
  { by rewrite length_insert. }
  { intros e He. apply Hes. by apply list_elem_of_further. }
  exists res. split; [done|]. split; [done|]. intros j u Hj Hor. apply (Hat j u Hj).
  destruct (decide (j = i)) as [->|Hne]; [right; rewrite list_lookup_insert_eq by lia; congruence|].
  rewrite list_lookup_insert_ne by done. destruct Hor as [Hin|]; [|by right]. left.
  apply elem_of_cons in Hin as [Heq|]; [|done]. exfalso. apply Hne.
  pose proof (f_equal fst Heq) as Hk. cbn [fst] in Hk. apply to_string_inj in Hk; [lia| |].
  - apply lookup_lt_Some in Hj. lia.
  - lia.
Qed.

Lemma sort_transactions_numbered (ts : list TestTransaction) (es : list (string * TestTransaction)) :
  Z.of_nat (length ts) < 2 ^ 64 -> es ≡ₚ numbered ts -> sort_transactions es = Return ts.
Proof.
  intros Hn Hes.
  assert (Hlen : length es = length ts) by (rewrite Hes; apply length_imap).
  destruct (place_all_numbered ts (replicate (length es) TestTransaction_default) es) as (res & Hr & Hl & Hat).
  - done.
  - by rewrite length_replicate.
  - intros e He. by rewrite <- Hes.
  - unfold sort_transactions. rewrite Hr. f_equal. apply list_eq_same_length with (length ts); [done..|].
    intros i x y Hi Hx Hy. assert (res !! i = Some y); [|congruence]. apply (Hat i y Hy). left. rewrite Hes.
    apply numbered_elem. by exists i, y.
Qed.

(** C29. The transactions of a suite are found in block order whatever order the hash
    map of the fixture is iterated in: when they are keyed by the decimals 1, 2, ...,
    no key fails to parse, no index is out of range, and the vector the driver fills
    holds exactly the block's transactions in order, none left at its default. *)
Theorem transactions_in_order (ts : list TestTransaction) (es : list (string * TestTransaction))
    (Hn : Z.of_nat (length ts) < 2 ^ 64) (Hes : es ≡ₚ numbered ts) :
  sort_transactions es = Return ts.
Proof. by apply sort_transactions_numbered. Qed.

(** The outcome of [derive_tx_type] is ignored. *)
Definition build_tx `{RevmTxEnv} (t : TestTransaction) : TxEnv :=
  derived (mkTxEnv 0 (data t) (saturated 64 (gas_limit t)) (saturated 128 (first_or_zero (gas_price t) (max_fee_per_gas t))) None
    (saturated 64 (nonce t)) (value t) [] 0 (match to t with Some a => StateTests.Call a | None => StateTests.Create end)
    (default [] (access_list t)) [] (default 0 (sender t))).

(** The block's environment: everything not set stays at [EvmEnv::default()]. *)
Definition block_env (default_env : EvmEnv) (e : TestEnv) : EvmEnv :=
  let spec_id := get_block_spec (saturated 64 (current_timestamp e)) (saturated 64 (block_number e)) in
  mkEvmEnv 1 spec_id (max_blobs_per_tx default_env) (block_number e) (current_coinbase e)
    (saturated 64 (current_gas_limit e)) (current_timestamp e) (saturated 64 (default 0 (base_fee_per_gas e)))
    (current_difficulty e) (Some (default 0 (mix_hash e))) (blob_excess_gas default_env).

(** ** A suite *)

#[local] Instance byte_eq_dec : EqDecision Byte.byte := Byte.byte_eq_dec.
#[local] Instance Bytes_eq_dec : EqDecision Bytes := @list_eq_dec _ Byte.byte_eq_dec.

Section Driver.
(** Outside: the hash function and bytecode of [revm], the cache of a state with its
    two insertions, the state built from it, what a log consists of, and the two
    executors. *)
Context `{Revm} `{Types : RevmTxEnv} {CacheState Db : Type}.
Context (default_env : EvmEnv) (keccak256 : Bytes -> Z) (new_raw : Bytes -> Bytecode).
Context (insert_contract : Z -> Bytecode -> CacheState -> CacheState).
Context (insert_account_with_storage : Z -> AccountInfo -> list (Z * Z) -> CacheState -> CacheState).
Context (build_state : CacheState -> bool -> list (Z * Z) -> Db).
Context (log_parts : Log -> ExpectLog) `{!EqDecision Receipt}.
Context (execute_sequential execute : Db -> EvmEnv -> list TxEnv -> result (list TxExecutionResult) ParallelExecutorError).

Definition insert_pre (a : Z * Account) (cache_state : CacheState) : outcome CacheState :=
  let hash := keccak256 (code a.2) in
  _ ← match code_hash a.2 with Some h => assert (h =? hash) | None => Return tt end;
  let bytecode := new_raw (code a.2) in
  Return (insert_account_with_storage a.1 (mkAccountInfo (balance a.2) (acc_nonce a.2) hash (Some bytecode)) (storage a.2)
    (insert_contract hash bytecode cache_state)).

Fixpoint insert_all (l : list (Z * Account)) (cache_state : CacheState) : outcome CacheState :=
  match l with
  | [] => Return cache_state
  | a :: l' => c ← insert_pre a cache_state; insert_all l' c
  end.

Fixpoint parse_hashes (l : list (string * Z)) : outcome (list (Z * Z)) :=
  match l with
  | [] => Return []
  | (k, v) :: l' =>
      match parse_usize k with Some k' => rest ← parse_hashes l'; Return ((k', v) :: rest) | None => Panic end
  end.

(** The data, topics and address of a log against the expected one. *)
Definition check_log (expect_logs : gmap string ExpectLog) (i : nat) (log : Log) : outcome unit :=
  match expect_logs !! to_string i with
  | Some e =>
      let l := log_parts log in
      _ ← assert (bool_decide (log_data e = log_data l));
      _ ← assert (bool_decide (topics e = topics l));
      assert (address e =? address l)
  | None => Panic
  end.

(** A check of each element with its index. *)
Fixpoint check_each {A : Type} (f : nat -> A -> outcome unit) (i : nat) (l : list A) : outcome unit :=
  match l with
  | [] => Return tt
  | x :: l' => _ ← f i x; check_each f (S i) l'
  end.

Definition check_logs (suite : Suite) (idx : nat) (r : TxExecutionResult) : outcome unit :=
  match logs suite !! to_string idx with
  | Some expect_logs =>
      _ ← assert (size expect_logs =? length (receipt_logs (receipt r)))%nat;
      check_each (check_log expect_logs) 0 (receipt_logs (receipt r))
  | None => Panic
  end.

(** The nonce of an account in the state of a result, 0 when it is not there. *)
Definition result_nonce (r : TxExecutionResult) (a : Z) : Z :=
  match state r !! a with Some account => ai_nonce (info account) | None => 0 end.

Definition check_post (r : TxExecutionResult) (_ : nat) (a : Z * Account) : outcome unit :=
  assert (acc_nonce a.2 =? result_nonce r a.1).

Definition check_execute_results (results : list TxExecutionResult) (suite : Suite) : outcome unit :=
  _ ← check_each (check_logs suite) 0 results;
  match post suite, list.last results with
  | Some post_state, Some r => check_each (check_post r) 0 post_state
  | _, _ => Return tt
  end.

Definition check_receipts (_ : nat) (sp : TxExecutionResult * TxExecutionResult) : outcome unit :=
  assert (bool_decide (receipt sp.1 = receipt sp.2)).

Definition unwrap_ok {A : Type} (r : result A ParallelExecutorError) : outcome A :=
  match r with Ok a => Return a | Err _ => Panic end.

(** The state a suite runs on. *)
Definition suite_db (suite : Suite) (cache_state : CacheState) (hashes : list (Z * Z)) : Db :=
  build_state cache_state
    (Tools.is_enabled_in (spec (block_env default_env (env suite))) Tools.SPURIOUS_DRAGON) hashes.

(** A suite, on the accounts of the suites before it: the accounts with its own, or a
    panic. *)
Definition execute_suite (suite : Suite) (cache_state : CacheState) : outcome CacheState :=
  cache_state' ← insert_all (pre suite) cache_state;
  ts ← sort_transactions (transactions suite);
  let e := block_env default_env (env suite) in
  let txs := build_tx <$> ts in
  hashes ← parse_hashes (block_hashes suite);
  let db := suite_db suite cache_state' hashes in
  sequential_results ← unwrap_ok (execute_sequential db e txs);
  _ ← check_execute_results sequential_results suite;
  parallel_results ← unwrap_ok (execute db e txs);
  _ ← check_execute_results parallel_results suite;
  _ ← check_each check_receipts 0 (zip sequential_results parallel_results);
  Return cache_state'.

Fixpoint execute_test (suites : list Suite) (cache_state : CacheState) : outcome unit :=
  match suites with
  | [] => Return tt
  | s :: suites' => c ← execute_suite s cache_state; execute_test suites' c
  end.

(** ** Properties *)

Lemma check_each_spec {A : Type} (f : nat -> A -> outcome unit) (i : nat) (l : list A) :
  check_each f i l = Return tt <-> forall j x, l !! j = Some x -> f (i + j)%nat x = Return tt.
Proof.
  revert i. induction l as [|x l IH]; intros i; cbn; [done|]. unfold mbind, outcome_bind. split.
  - destruct (f i x) as [[]| |] eqn:Hf; try done. intros Hl [|j] y Hy; cbn in Hy.
    + injection Hy as <-. by rewrite Nat.add_0_r.
    + rewrite <- Nat.add_succ_comm. by apply IH.
  - intros Hall. pose proof (Hall 0%nat x eq_refl) as H0. rewrite Nat.add_0_r in H0. rewrite H0. apply IH.
    intros j y Hy. rewrite Nat.add_succ_comm. by apply Hall.
Qed.

Lemma check_log_spec (expect_logs : gmap string ExpectLog) (i : nat) (log : Log) :
  check_log expect_logs i log = Return tt <-> expect_logs !! to_string i = Some (log_parts log).
Proof.
  unfold check_log, assert, mbind, outcome_bind. destruct (expect_logs !! _) as [e|]; [|done].
  destruct e as [a d t], (log_parts log) as [a' d' t']. cbn.
  case_bool_decide; cbn; [|split; [done|congruence]]. case_bool_decide; cbn; [|split; [done|congruence]].
  destruct (Z.eqb_spec a a'); split; congruence.
Qed.

(** What a fixture says of the logs of a transaction: position to log. *)
Definition logs_fixture : list Log -> gmap string ExpectLog := by_index log_parts.

(** The checks of the logs compare exactly: nothing missing, nothing besides. *)
Lemma check_logs_spec (suite : Suite) (idx : nat) (r : TxExecutionResult) :
  Z.of_nat (length (receipt_logs (receipt r))) < 2 ^ 64 ->
  check_logs suite idx r = Return tt <-> logs suite !! to_string idx = Some (logs_fixture (receipt_logs (receipt r))).
Proof.
  intros Hlen. unfold check_logs, assert, mbind, outcome_bind. destruct (logs suite !! _) as [el|]; [|done].
  set (ls := receipt_logs (receipt r)) in *. split.
  - destruct (Nat.eqb_spec (size el) (length ls)) as [Hsz|]; [|done]. intros Hc. f_equal. symmetry.
    apply map_subseteq_size_eq; [|unfold logs_fixture; rewrite by_index_size by done; lia]. apply map_subseteq_spec. intros k e Hk.
    apply elem_of_list_to_map_2, elem_of_lookup_imap in Hk as (i & l & [= -> ->] & Hi).
    apply check_log_spec. by apply (proj1 (check_each_spec _ _ _) Hc).
  - intros [= ->]. rewrite (proj2 (Nat.eqb_eq _ _)) by by apply by_index_size. apply check_each_spec.
    intros i l Hi. apply check_log_spec. apply lookup_lt_Some in Hi as Hlt.
    exact (eq_trans (by_index_lookup log_parts ls i ltac:(lia) ltac:(lia)) (f_equal (fmap log_parts) Hi)).
Qed.

(** The logs of every result are those of the suite, and the accounts of the post
    state have their nonces in the state of the last result. *)
Definition matches (suite : Suite) (rs : list TxExecutionResult) : Prop :=
  (forall idx r, rs !! idx = Some r -> logs suite !! to_string idx = Some (logs_fixture (receipt_logs (receipt r)))) /\
  (forall ps r a, post suite = Some ps -> list.last rs = Some r -> a ∈ ps -> acc_nonce a.2 = result_nonce r a.1).

(** No result has as many logs as a [usize] can count. *)
Definition countable_logs (rs : list TxExecutionResult) : Prop :=
  forall r, r ∈ rs -> Z.of_nat (length (receipt_logs (receipt r))) < 2 ^ 64.

Lemma bind_tt (m : outcome unit) {A : Type} (k : unit -> outcome A) (a : A) :
  mbind k m = Return a <-> m = Return tt /\ k tt = Return a.
Proof. destruct m as [[]| |]; cbn; split; try done; by intros []. Qed.

Lemma check_post_spec (r : TxExecutionResult) (ps : list (Z * Account)) :
  check_each (check_post r) 0 ps = Return tt <-> forall a, a ∈ ps -> acc_nonce a.2 = result_nonce r a.1.
Proof.
  rewrite check_each_spec. unfold check_post, assert. split.
  - intros Hall a [j Hj]%list_elem_of_lookup. specialize (Hall j a Hj).
    by destruct (Z.eqb_spec (acc_nonce a.2) (result_nonce r a.1)).
  - intros Hall j a Hj. rewrite (proj2 (Z.eqb_eq _ _)); [done|]. by apply Hall, (list_elem_of_lookup_2 _ j).
Qed.

Lemma check_execute_results_spec (rs : list TxExecutionResult) (suite : Suite) :
  countable_logs rs -> check_execute_results rs suite = Return tt <-> matches suite rs.
Proof.
  intros Hc. unfold check_execute_results, matches. rewrite bind_tt, check_each_spec.
  assert (Hlogs : (forall j x, rs !! j = Some x -> check_logs suite (0 + j) x = Return tt) <->
    forall idx r, rs !! idx = Some r -> logs suite !! to_string idx = Some (logs_fixture (receipt_logs (receipt r)))).
  { split; intros Hall j x Hj; apply (check_logs_spec suite j x (Hc x (list_elem_of_lookup_2 _ _ _ Hj))); by apply Hall. }
  rewrite Hlogs. apply and_iff_compat_l. destruct (post suite) as [ps|], (list.last rs) as [r|]; try done.
  rewrite check_post_spec. split; [by intros Hall ps' r' a [= <-] [= <-]; apply Hall|]. intros Hall a. by apply Hall.
Qed.

Lemma check_receipts_spec (ss ps : list TxExecutionResult) :
  check_each check_receipts 0 (zip ss ps) = Return tt <->
  forall i s p, ss !! i = Some s -> ps !! i = Some p -> receipt s = receipt p.
Proof.
  rewrite check_each_spec. unfold check_receipts, assert. split.
  - intros Hall i s p Hs Hp. specialize (Hall i (s, p)). rewrite lookup_zip_Some in Hall. specialize (Hall (conj Hs Hp)).
    cbn in Hall. by case_bool_decide.
  - intros Hall i [s p] [Hs Hp]%lookup_zip_Some. cbn in *. by rewrite bool_decide_eq_true_2 by by eapply Hall.
Qed.

(** C26. A suite passes exactly when its accounts have the hashes they state, its
    transactions and block hashes have their keys, and both executors, on the same
    state, environment and transactions, return results whose logs are position for
    position those of the suite with none besides, whose last state has the expected
    nonces, and whose receipts agree wherever both executors have one. The accounts
    of the suite are then added to those of the suites before it. *)
Theorem suite_verdict (suite : Suite) (c c' : CacheState) (ts : list TestTransaction) (hashes : list (Z * Z))
    (Hpre : insert_all (pre suite) c = Return c') (Hts : sort_transactions (transactions suite) = Return ts)
    (Hh : parse_hashes (block_hashes suite) = Return hashes)
    (e : EvmEnv) (He : e = block_env default_env (env suite)) (db : Db) (Hdb : db = suite_db suite c' hashes)
    (Hlogs : forall rs, execute_sequential db e (build_tx <$> ts) = Ok rs \/ execute db e (build_tx <$> ts) = Ok rs ->
       countable_logs rs) :
  execute_suite suite c = Return c' <->
  exists ss ps, execute_sequential db e (build_tx <$> ts) = Ok ss /\ execute db e (build_tx <$> ts) = Ok ps /\
    matches suite ss /\ matches suite ps /\ forall i s p, ss !! i = Some s -> ps !! i = Some p -> receipt s = receipt p.
Proof.
  unfold execute_suite. rewrite Hpre. cbn [mbind outcome_bind]. rewrite Hts. cbn [mbind outcome_bind]. rewrite Hh.
  cbn [mbind outcome_bind]. rewrite <- He, <- Hdb.
  destruct (execute_sequential db e (build_tx <$> ts)) as [ss|] eqn:Hs; [|split; [done|by intros (? & ? & ? & _)]].
  cbn [unwrap_ok mbind outcome_bind]. rewrite (bind_tt (check_execute_results ss suite)).
  rewrite check_execute_results_spec by (apply Hlogs; by left).
  destruct (execute db e (build_tx <$> ts)) as [ps|] eqn:Hp; cbn [unwrap_ok mbind outcome_bind];
    [|split; [by intros []|by intros (? & ? & _ & ? & _)]].
  rewrite (bind_tt (check_execute_results ps suite)). rewrite check_execute_results_spec by (apply Hlogs; by right).
  rewrite bind_tt, check_receipts_spec. split.
  - intros (Hms & Hmp & Hr & _). by exists ss, ps.
  - by intros (? & ? & [= <-] & [= <-] & Hms & Hmp & Hr).
Qed.

End Driver.

(** ** Examples *)

Section Examples.
#[local] Existing Instances example_revm example_types.

#[local] Instance example_receipt_eq_dec : EqDecision Receipt.
Proof. intros x y. unfold Decision. repeat decide equality. Defined.

Definition example_transaction (n : Z) : TestTransaction :=
  mkTestTransaction [] 21000 (Some 1) n (Some 5) (Some 6) (2 ^ 66) None None.

Definition example_transactions : list TestTransaction := example_transaction <$> seqZ 0 11.

(** The fixture's keys, the last first: "11", "10", "9", ... *)
Lemma transactions_in_order_witness :
  (reverse (numbered example_transactions)).*1 =
    ["11"; "10"; "9"; "8"; "7"; "6"; "5"; "4"; "3"; "2"; "1"]%string /\
  sort_transactions (reverse (numbered example_transactions)) = Return example_transactions.
Proof.
  split; [vm_compute; reflexivity|]. apply transactions_in_order; [vm_compute; reflexivity|]. apply reverse_Permutation.
Defined.

(** Each transaction raises the nonce of account 5, and logs once when it is not the
    first. *)
Definition example_result (n : Z) : TxExecutionResult :=
  mkTxExecutionResult (mkReceipt 0 true (21000 * (n + 1)) (replicate (Z.to_nat n) tt))
    {[ 5 := Results.mkAccount (mkAccountInfo 0 (n + 1) 0 None) ∅ Status_Touched tt ]}.

Definition example_executor (_ : list (Z * Z)) (_ : EvmEnv) (txs : list TxEnv) :
    result (list TxExecutionResult) ParallelExecutorError :=
  Ok ((fun tx => example_result (tx_nonce tx)) <$> txs).

Definition example_log (_ : Log) : ExpectLog := mkExpectLog 6 [Byte.x01] [4].

Definition example_keccak (b : Bytes) : Z := Z.of_nat (length b).

Definition example_raw (b : Bytes) : Bytecode := Z.of_nat (length b).

Definition example_suite : Suite :=
  mkSuite (mkTestEnv 20000000 1 0 (2 ^ 70) 1700000000 (Some 1) None)
    [("2", example_transaction 1); ("1", example_transaction 0)]%string [(5, mkAccount 9 [Byte.x00] (Some 1) 0 [])]
    (Some [(5, mkAccount 0 [] None 2 [])])
    (<["0" := ∅]> {["1" := {["0" := mkExpectLog 6 [Byte.x01] [4]]}]})%string [("19999999", 3)]%string.

Definition example_execute_suite : outcome (list (Z * Z)) :=
  execute_suite Ether.example_default example_keccak example_raw (fun _ _ c => c)
    (fun a i _ c => (a, ai_nonce i) :: c) (fun c _ _ => c) example_log example_executor example_executor example_suite [].

Lemma suite_verdict_witness : exists ss, example_execute_suite = Return [(5, 0)] /\
  example_executor [(5, 0)] (block_env Ether.example_default (env example_suite))
    (build_tx <$> [example_transaction 0; example_transaction 1]) = Ok ss /\ matches example_log example_suite ss.
Proof.
  assert (Hrun : example_execute_suite = Return [(5, 0)]) by (vm_compute; reflexivity).
  destruct (suite_verdict Ether.example_default example_keccak example_raw (fun _ _ c => c)
    (fun a i _ c => (a, ai_nonce i) :: c) (fun c _ _ => c) example_log example_executor example_executor example_suite
    [] [(5, 0)] [example_transaction 0; example_transaction 1] [(19999999, 3)] ltac:(vm_compute; reflexivity)
    ltac:(vm_compute; reflexivity) ltac:(vm_compute; reflexivity) _ eq_refl [(5, 0)] eq_refl) as [Hverdict _].
  - intros rs Hrs r Hr. assert (Hl : (length (receipt_logs (receipt r)) <= 1)%nat); [|lia].
    assert (rs = [example_result 0; example_result 1]) as -> by (destruct Hrs as [Hrs|Hrs]; injection Hrs as <-; reflexivity).
    apply elem_of_cons in Hr as [->|Hr]; [apply Nat.leb_le; reflexivity|]. apply elem_of_cons in Hr as [->|Hr]; [apply Nat.leb_le; reflexivity|]. by apply elem_of_nil in Hr.
  - destruct (Hverdict Hrun) as (ss & ps & Hs & _ & Hm & _). exists ss. split; [exact Hrun|]. split; [exact Hs|exact Hm].
Defined.

(** Two suites that pass on their own do not when they run one after the other, in
    the same file: the second sees the accounts of the first. *)
Definition example_strict (db : list (Z * Z)) (_ : EvmEnv) (txs : list TxEnv) :
    result (list TxExecutionResult) ParallelExecutorError :=
  if (length db <=? 1)%nat then Ok [] else Err PE_UnreachableError.

Definition other_suite : Suite :=
  mkSuite (env example_suite) [] [(7, mkAccount 1 [] None 0 [])] None ∅ [].

Lemma suites_share_accounts :
  let run := execute_test Ether.example_default example_keccak example_raw
    (fun _ _ (c : list (Z * Z)) => c) (fun a i _ c => (a, ai_nonce i) :: c) (fun c _ _ => c) example_log example_strict
    example_strict in
  run [example_suite] [] = Return tt /\ run [other_suite] [] = Return tt /\ run [example_suite; other_suite] [] = Panic.
Proof. by vm_compute. Qed.

End Examples.
