(* ===== verification/Fetch.v ===== *)
(** * The block fetcher (crates/tools/bins/blockfetch)

    The fetcher replays a block of a node it reaches over RPC and writes a suite for
    the block test driver: the block's transactions under their positions, the logs
    they gave, the accounts they touched as they were before, and block hashes. What
    the node answers is a parameter, as is the EVM that replays. *)

From Stdlib Require Import String Ascii.
From S2P Require Import Prelude Types Results Tools StateTests BlockTests.
Local Open Scope Z_scope.

(** ** What a node answers *)

Record Header : Type := mkHeader {
  h_number : Z; h_timestamp : Z; h_beneficiary : Z; h_difficulty : Z; h_gas_limit : Z; h_base_fee : option Z;
  h_hash : Z; h_parent_hash : Z; h_mix_hash : Z;
}.

(** A transaction with its sender, [alloy_rpc_types_eth::Transaction]. *)
Record RpcTransaction : Type := mkRpcTransaction {
  r_signer : Z; r_gas_limit : Z; r_gas_price : option Z; r_max_fee_per_gas : Z; r_value : Z; r_input : Bytes;
  r_max_priority_fee_per_gas : option Z; r_nonce : Z; r_access_list : option (list (Z * list Z)); r_to : option Z;
}.

Inductive BlockTransactions : Type :=
| Full (txs : list RpcTransaction)
| Hashes (items : list Z)
| Uncle.

Record Block : Type := mkBlock { header : Header; block_transactions : BlockTransactions }.

Record RpcAccount : Type := mkRpcAccount { rpc_balance : Z; rpc_code_hash : Z; rpc_nonce : Z }.

(** A call fails with an error of the node; a missing block or receipt is one too. *)
Inductive FetchError (E : Type) : Type :=
| Rpc (e : E)
| NoBlock
| NoReceipt (item : Z)
| Replay.
Arguments Rpc {E} _.
Arguments NoBlock {E}.
Arguments NoReceipt {E} _.
Arguments Replay {E}.

Class RpcProvider : Type := {
  RpcError : Type;
  BlockId : Type;
  get_block : BlockId -> result (option Block) RpcError;
  get_transaction_by_hash : Z -> result (option RpcTransaction) RpcError;
  (** The gas used of a transaction's receipt. *)
  get_transaction_receipt : Z -> result (option Z) RpcError;
  (** At a block number. *)
  get_code_at : Z -> Z -> result Bytes RpcError;
  get_storage_at : Z -> Z -> Z -> result Z RpcError;
  get_account : Z -> Z -> result RpcAccount RpcError;
}.

(** ** Transactions *)

(** The outcome of [derive_tx_type] is ignored. *)
Definition tx_into_env `{RevmTxEnv} (tx : RpcTransaction) : TxEnv :=
  derived (mkTxEnv 0 (r_input tx) (r_gas_limit tx) (default (r_max_fee_per_gas tx) (r_gas_price tx)) (r_max_priority_fee_per_gas tx)
    (r_nonce tx) (r_value tx) [] 0 (match r_to tx with Some a => StateTests.Call a | None => StateTests.Create end)
    (default [] (r_access_list tx)) [] (r_signer tx)).

(** A transaction of the suite, all fields. *)
Record TestTransaction : Type := mkTestTransaction {
  f_data : Bytes; f_gas_limit : Z; f_gas_price : option Z; f_nonce : Z; f_sender : option Z; f_to : option Z; f_value : Z;
  f_max_fee_per_gas : option Z; f_max_priority_fee_per_gas : option Z; f_max_fee_per_blob_gas : option Z;
  f_access_list : option (list (Z * list Z));
}.

(** [tx.max_fee_per_gas()] is the gas price of a [TxEnv]. *)
Definition test_transaction (tx : TxEnv) : TestTransaction :=
  mkTestTransaction (tx_data tx) (tx_gas_limit tx) (Some (tx_gas_price tx)) (tx_nonce tx) (Some (tx_caller tx))
    (match tx_kind tx with StateTests.Call a => Some a | StateTests.Create => None end) (tx_value tx) (Some (tx_gas_price tx))
    (tx_gas_priority_fee tx) (Some (tx_max_fee_per_blob_gas tx)) (Some (tx_access_list tx)).

(** A log of the suite, all fields. *)
Record ExpectLog : Type := mkExpectLog {
  e_address : Z; e_data : Bytes; e_topics : list Z; e_block_hash : option Z; e_block_number : option Z;
  e_transaction_hash : option Z; e_transaction_index : option Z; e_log_index : option Z; e_removed : option bool;
}.

(** Outside: what a log consists of. *)
Definition Log : Type := (Z * Bytes * list Z)%type.

Definition expect_log (b : Header) (idx : nat) (l : Log) : ExpectLog :=
  let '(a, d, t) := l in
  mkExpectLog a d t (Some (h_hash b)) (Some (h_number b)) None (Some (Z.of_nat idx)) (Some (Z.of_nat idx)) (Some false).

Record TestAccount : Type := mkTestAccount {
  t_balance : Z; t_code : option Bytes; t_code_hash : Z; t_nonce : Z; t_storage : list (Z * Z);
}.

(** The suite that is written. *)
Record FetchedSuite : Type := mkFetchedSuite {
  s_env : TestEnv;
  s_transactions : list (string * TestTransaction);
  s_logs : list (string * list (string * ExpectLog));
  s_block_hashes : list (string * Z);
  s_pre : list (Z * TestAccount);
}.

Definition test_transactions (txs : list TxEnv) : list (string * TestTransaction) :=
  imap (fun idx tx => (to_string (idx + 1), test_transaction tx)) txs.

Definition test_logs (b : Header) (logs : list (list Log)) : list (string * list (string * ExpectLog)) :=
  imap (fun idx ls => (to_string idx, imap (fun i l => (to_string i, expect_log b i l)) ls)) logs.

Definition test_env (b : Header) : TestEnv :=
  mkTestEnv (h_number b) (h_beneficiary b) (h_difficulty b) (h_gas_limit b) (h_timestamp b) (h_base_fee b)
    (Some (h_mix_hash b)).

(** ** The fetcher *)

Section Fetch.
Context `{RpcProvider} `{Types : RevmTxEnv}.
(** Outside: the EVM on a state (an error, or gas and logs), and the cached accounts
    with their slots. *)
Context {St : Type} (default_env : EvmEnv) (replay_commit : EvmEnv -> TxEnv -> St -> result (Z * list Log) unit * St).
Context (prev_state : Z -> bool -> St) (trie_account : St -> list (Z * list Z)).

(** [anyhow::Result], in a program that may panic. *)
Definition F (A : Type) : Type := outcome (result A (FetchError RpcError)).

#[local] Instance F_ret : MRet F := fun A a => Return (Ok a).
#[local] Instance F_bind : MBind F := fun A B k m =>
  match m with Return (Ok a) => k a | Return (Err e) => Return (Err e) | Panic => Panic | UB => UB end.

Definition rpc {A : Type} (r : result A RpcError) : F A := Return (map_err Rpc r).

Definition ok_or {A : Type} (e : FetchError RpcError) (o : option A) : F A :=
  match o with Some a => Return (Ok a) | None => Return (Err e) end.

Definition fetch_block (block_id : BlockId) : F Block := o ← rpc (get_block block_id); ok_or NoBlock o.

Definition replay_env (b : Header) : EvmEnv :=
  mkEvmEnv 1 (get_block_spec (h_timestamp b) (h_number b)) (max_blobs_per_tx default_env) (h_number b) (h_beneficiary b)
    (h_gas_limit b) (h_timestamp b) (default 0 (h_base_fee b)) (h_difficulty b) (prevrandao default_env)
    (blob_excess_gas default_env).

(** What the loops have collected: the transactions and their logs. *)
Record Replayed : Type := mkReplayed { txs : list TxEnv; logs : list (list Log); evm_state : St }.

(** One transaction; [gas] is what its receipt says, where there is one. *)
Definition replay_one (e : EvmEnv) (tx : RpcTransaction) (gas : option Z) (r : Replayed) : F Replayed :=
  let env := tx_into_env tx in
  match replay_commit e env (evm_state r) with
  | (Err _, _) => Return (Err Replay)
  | (Ok (gas_used, ls), st') =>
      if match gas with Some g => gas_used =? g | None => true end
      then Return (Ok (mkReplayed (txs r ++ [env]) (logs r ++ [ls]) st'))
      else Panic
  end.

Fixpoint replay_full (e : EvmEnv) (l : list RpcTransaction) (r : Replayed) : F Replayed :=
  match l with
  | [] => Return (Ok r)
  | tx :: l' => r' ← replay_one e tx None r; replay_full e l' r'
  end.

Fixpoint replay_hashes (e : EvmEnv) (items : list Z) (r : Replayed) : F Replayed :=
  match items with
  | [] => Return (Ok r)
  | item :: items' =>
      o ← rpc (get_transaction_by_hash item);
      match o with
      | None => Panic
      | Some tx =>
          receipt ← rpc (get_transaction_receipt item);
          g ← ok_or (NoReceipt item) receipt;
          r' ← replay_one e tx (Some g) r; replay_hashes e items' r'
      end
  end.

Definition replay_block (b : Block) : F Replayed :=
  let h := header b in
  let e := replay_env h in
  let st := prev_state (saturating_sub (h_number h) 1) (Tools.is_enabled_in (spec e) Tools.SPURIOUS_DRAGON) in
  match block_transactions b with
  | Full l => replay_full e l (mkReplayed [] [] st)
  | Hashes items => replay_hashes e items (mkReplayed [] [] st)
  | Uncle => Panic
  end.

(** The hashes: every number is given the hash of the block [block_id] names. *)
Fixpoint fetch_hashes (block_id : BlockId) (numbers : list nat) : F (list (string * Z)) :=
  match numbers with
  | [] => Return (Ok [])
  | number :: numbers' =>
      b ← fetch_block block_id;
      rest ← fetch_hashes block_id numbers';
      mret ((to_string number, h_hash (header b)) :: rest)
  end.

(** [block.header.number.saturating_sub(256)..block.header.number]. *)
Definition previous_numbers (number : Z) : list nat :=
  let first := Z.to_nat (saturating_sub number 256) in seq first (Z.to_nat number - first).

Fixpoint fetch_slots (address at_ : Z) (keys : list Z) : F (list (Z * Z)) :=
  match keys with
  | [] => Return (Ok [])
  | k :: keys' => v ← rpc (get_storage_at address k at_); rest ← fetch_slots address at_ keys'; mret ((k, v) :: rest)
  end.

(** The accounts before the block; one the node does not answer for is left out. *)
Fixpoint fetch_pre (at_ : Z) (l : list (Z * list Z)) : F (list (Z * TestAccount)) :=
  match l with
  | [] => Return (Ok [])
  | (address, keys) :: l' =>
      code ← rpc (get_code_at address at_);
      storage ← fetch_slots address at_ keys;
      rest ← fetch_pre at_ l';
      mret (match get_account address at_ with
            | Ok a => (address, mkTestAccount (rpc_balance a) (Some code) (rpc_code_hash a) (rpc_nonce a) storage) :: rest
            | Err _ => rest
            end)
  end.

(** [main]: the suite to write, or what stopped it; the file itself is not modelled. *)
Definition fetch (block_id : BlockId) : F FetchedSuite :=
  b ← fetch_block block_id;
  let h := header b in
  r ← replay_block b;
  hashes ← fetch_hashes block_id (previous_numbers (h_number h));
  accounts ← fetch_pre (saturating_sub (h_number h) 1) (trie_account (evm_state r));
  mret (mkFetchedSuite (test_env h) (test_transactions (txs r)) (test_logs h (logs r)) hashes accounts).

(** ** What the driver reads *)

(** The suite the block test driver deserializes from what was written: the fields
    of the same names, and no [post]. *)
Definition read_transaction (t : TestTransaction) : BlockTests.TestTransaction :=
  BlockTests.mkTestTransaction (f_data t) (f_gas_limit t) (f_gas_price t) (f_nonce t) (f_sender t) (f_to t) (f_value t)
    (f_max_fee_per_gas t) (f_access_list t).

Definition read_log (l : ExpectLog) : BlockTests.ExpectLog := BlockTests.mkExpectLog (e_address l) (e_data l) (e_topics l).

Definition read_account (a : TestAccount) : BlockTests.Account :=
  BlockTests.mkAccount (t_balance a) (default [] (t_code a)) (Some (t_code_hash a)) (t_nonce a) (t_storage a).

Definition read_suite (s : FetchedSuite) : Suite :=
  mkSuite (s_env s) (prod_map id read_transaction <$> s_transactions s) (prod_map id read_account <$> s_pre s) None
    (list_to_map (prod_map id (fun ls => list_to_map (prod_map id read_log <$> ls)) <$> s_logs s)) (s_block_hashes s).

(** ** Properties *)

Lemma F_bind_Ok {A B : Type} (m : F A) (k : A -> F B) (b : B) :
  mbind k m = Return (Ok b) <-> exists a, m = Return (Ok a) /\ k a = Return (Ok b).
Proof. destruct m as [[a|e]| |]; cbn; (split; [intros Hk; first [done|by exists a]|by intros (a' & [= <-] & Hk)]). Qed.

(** As many logs as transactions, and every transaction is of the widths of its
    types. *)
Definition replayed_ok (r : Replayed) : Prop := length (logs r) = length (txs r).

Lemma replay_one_ok (e : EvmEnv) (tx : RpcTransaction) (gas : option Z) (r r' : Replayed) :
  replay_one e tx gas r = Return (Ok r') -> replayed_ok r ->
  replayed_ok r' /\ txs r' = txs r ++ [tx_into_env tx].
Proof.
  unfold replay_one, replayed_ok. destruct (replay_commit _ _ _) as [[[g ls]|] st]; [|done].
  destruct (match gas with Some _ => _ | None => _ end); [|done]. intros [= <-] Hr. cbn. split; [|done]. rewrite !length_app. cbn. lia.
Qed.

Lemma replay_full_ok (e : EvmEnv) (l : list RpcTransaction) (r r' : Replayed) :
  replay_full e l r = Return (Ok r') -> replayed_ok r -> replayed_ok r' /\ txs r' = txs r ++ (tx_into_env <$> l).
Proof.
  revert r. induction l as [|tx l IH]; intros r; cbn [replay_full fmap list_fmap].
  - intros [= <-] Hr. by rewrite app_nil_r.
  - rewrite F_bind_Ok. intros (r1 & H1 & H2) Hr. apply replay_one_ok in H1 as [Hr1 Ht1]; [|done].
    apply IH in H2 as [Hr2 Ht2]; [|done]. split; [done|]. by rewrite Ht2, Ht1, <- app_assoc.
Qed.

Lemma replay_hashes_ok (e : EvmEnv) (items : list Z) (r r' : Replayed) :
  replay_hashes e items r = Return (Ok r') -> replayed_ok r ->
  replayed_ok r' /\ exists l, Forall2 (fun item tx => get_transaction_by_hash item = Ok (Some tx)) items l /\
    txs r' = txs r ++ (tx_into_env <$> l).
Proof.
  revert r. induction items as [|item items IH]; intros r; cbn [replay_hashes].
  - intros [= <-] Hr. split; [done|]. exists []. by rewrite app_nil_r.
  - rewrite F_bind_Ok. intros ([tx|] & H0 & Hk) Hr; [|done]. apply F_bind_Ok in Hk as (rc & _ & Hk).
    apply F_bind_Ok in Hk as (g & _ & Hk). apply F_bind_Ok in Hk as (r1 & H1 & H2).
    apply replay_one_ok in H1 as [Hr1 Ht1]; [|done]. apply IH in H2 as (Hr2 & l & Hl & Ht2); [|done]. split; [done|].
    exists (tx :: l). split; [|by rewrite Ht2, Ht1, <- app_assoc]. constructor; [|done].
    unfold rpc in H0. by destruct (get_transaction_by_hash item); simplify_eq/=.
Qed.

Lemma replay_block_ok (b : Block) (r : Replayed) :
  replay_block b = Return (Ok r) -> replayed_ok r /\ exists l, txs r = tx_into_env <$> l.
Proof.
  unfold replay_block. destruct (block_transactions b) as [l|items|]; [| |done]; intros Hr.
  - apply replay_full_ok in Hr as [Hr Ht]; [|done]. split; [done|by exists l].
  - apply replay_hashes_ok in Hr as (Hr & l & _ & Ht); [|done]. split; [done|by exists l].
Qed.

(** The driver builds the transaction that was fetched, but for the priority fee and for
    the type, which is derived without the fee. *)
Definition without_priority_fee (tx : TxEnv) : TxEnv :=
  derived (mkTxEnv 0 (tx_data tx) (tx_gas_limit tx) (tx_gas_price tx) None (tx_nonce tx) (tx_value tx) (tx_blob_hashes tx)
    (tx_max_fee_per_blob_gas tx) (tx_kind tx) (tx_access_list tx) (tx_authorization_list tx) (tx_caller tx)).

Lemma saturated_id (w v : Z) : in_range w v -> saturated w v = v.
Proof. unfold in_range, saturated, uint_max. intros Hv. by rewrite (proj2 (Z.leb_le _ _)) by lia. Qed.

Lemma build_read_transaction (tx : RpcTransaction) :
  tx_typed (tx_into_env tx) ->
  build_tx (read_transaction (test_transaction (tx_into_env tx))) = without_priority_fee (tx_into_env tx).
Proof.
  intros (Hg & Hp & Hn & _). unfold build_tx, without_priority_fee. cbn in *. rewrite !saturated_id by done. cbn.
  do 2 f_equal. by destruct (r_to tx).
Qed.

Lemma read_transactions_numbered (l : list TxEnv) :
  prod_map id read_transaction <$> test_transactions l = numbered ((fun tx => read_transaction (test_transaction tx)) <$> l).
Proof.
  unfold test_transactions, numbered. rewrite fmap_imap, imap_fmap. apply imap_ext. intros i x _. unfold prod_map, compose. cbn.
  by rewrite Nat.add_1_r.
Qed.

Lemma fetch_hashes_Ok (block_id : BlockId) (b : Block) (ns : list nat) (hs : list (string * Z)) :
  fetch_block block_id = Return (Ok b) -> fetch_hashes block_id ns = Return (Ok hs) ->
  hs = (fun n => (to_string n, h_hash (header b))) <$> ns.
Proof.
  intros Hb. revert hs. induction ns as [|n ns IH]; intros hs; cbn [fetch_hashes fmap list_fmap]; [by intros [= <-]|].
  rewrite F_bind_Ok. intros (b' & Hb' & Hk). rewrite Hb in Hb'. injection Hb' as <-.
  apply F_bind_Ok in Hk as (rest & Hrest & [= <-]). f_equal. by apply IH.
Qed.

Lemma parse_hashes_numbers (ns : list nat) (v : Z) :
  Forall (fun n => Z.of_nat n < 2 ^ 64) ns ->
  parse_hashes ((fun n => (to_string n, v)) <$> ns) = Return ((fun n => (Z.of_nat n, v)) <$> ns).
Proof.
  induction 1 as [|n ns Hn _ IH]; [done|]. cbn [fmap list_fmap parse_hashes]. rewrite parse_to_string by done.
  change (list_fmap nat _) with (@fmap list _ nat (string * Z)%type) in *. by rewrite IH.
Qed.

Lemma previous_numbers_bound (number : Z) :
  0 <= number < 2 ^ 64 -> Forall (fun n => Z.of_nat n < 2 ^ 64) (previous_numbers number).
Proof.
  intros Hn. apply Forall_forall. intros n Hin. apply in_seq in Hin.
  unfold saturating_sub in Hin. lia.
Qed.

Lemma fetch_slots_Ok (address at_ : Z) (keys : list Z) (slots : list (Z * Z)) :
  fetch_slots address at_ keys = Return (Ok slots) ->
  Forall2 (fun k kv => kv.1 = k /\ get_storage_at address k at_ = Ok kv.2) keys slots.
Proof.
  revert slots. induction keys as [|k keys IH]; intros slots; cbn [fetch_slots]; [intros [= <-]; constructor|].
  rewrite F_bind_Ok. intros (v & Hv & Hk). apply F_bind_Ok in Hk as (rest & Hrest & [= <-]). constructor; [|by apply IH].
  split; [done|]. unfold rpc in Hv. by destruct (get_storage_at address k at_); simplify_eq/=.
Qed.

(** The account a node answers with for an address and its slots. *)
Definition node_account (at_ address : Z) (keys : list Z) (x : TestAccount) : Prop :=
  exists a code, get_account address at_ = Ok a /\ get_code_at address at_ = Ok code /\
    t_balance x = rpc_balance a /\ t_nonce x = rpc_nonce a /\ t_code_hash x = rpc_code_hash a /\ t_code x = Some code /\
    Forall2 (fun k kv => kv.1 = k /\ get_storage_at address k at_ = Ok kv.2) keys (t_storage x).

Lemma fetch_pre_Ok (at_ : Z) (l : list (Z * list Z)) (pre : list (Z * TestAccount)) :
  fetch_pre at_ l = Return (Ok pre) ->
  (forall address x, (address, x) ∈ pre -> exists keys, (address, keys) ∈ l /\ node_account at_ address keys x) /\
  (forall address keys, (address, keys) ∈ l -> is_ok (get_account address at_) = true ->
     exists x, (address, x) ∈ pre /\ node_account at_ address keys x).
Proof.
  revert pre. induction l as [|[address keys] l IH]; intros pre; cbn [fetch_pre].
  { intros [= <-]. split; intros ? ? Hin; by apply elem_of_nil in Hin. }
  rewrite F_bind_Ok. intros (code & Hc & Hk). apply F_bind_Ok in Hk as (slots & Hs & Hk). apply F_bind_Ok in Hk as (rest & Hr & [= <-]).
  apply fetch_slots_Ok in Hs. destruct (IH _ Hr) as [Hf Hb]. unfold rpc in Hc.
  destruct (get_code_at address at_) as [c|] eqn:Hcode; [|done]. injection Hc as ->.
  destruct (get_account address at_) as [a|] eqn:Ha.
  - assert (Hnew : node_account at_ address keys (mkTestAccount (rpc_balance a) (Some code) (rpc_code_hash a) (rpc_nonce a) slots))
      by (exists a, code; done).
    split.
    + intros b x [[= -> ->]|Hin]%elem_of_cons; [exists keys; split; [by left|done]|].
      destruct (Hf _ _ Hin) as (ks & Hk & Hx). exists ks. split; [by right|done].
    + intros b ks [[= -> ->]|Hin]%elem_of_cons Hok; [eexists; split; [by left|exact Hnew]|].
      destruct (Hb _ _ Hin Hok) as (x & Hx & Hn). exists x. split; [by right|done].
  - split.
    + intros b x Hin. destruct (Hf _ _ Hin) as (ks & Hk & Hx). exists ks. split; [by right|done].
    + intros b ks [[= -> ->]|Hin]%elem_of_cons Hok; [by rewrite Ha in Hok|by apply Hb].
Qed.

(** The environment of the replay with the block's randomness. *)
Definition with_randomness (r : option Z) (e : EvmEnv) : EvmEnv :=
  mkEvmEnv (chain_id e) (spec e) (max_blobs_per_tx e) (number e) (beneficiary e) (StateTests.gas_limit e) (timestamp e)
    (basefee e) (difficulty e) r (blob_excess_gas e).

(** The header's numbers are of 64 bits. *)
Definition header_typed (h : Header) : Prop :=
  in_range 64 (h_number h) /\ in_range 64 (h_timestamp h) /\ in_range 64 (h_gas_limit h) /\
  in_range 64 (default 0 (h_base_fee h)).

Lemma block_env_test_env (h : Header) :
  header_typed h -> block_env default_env (test_env h) = with_randomness (Some (h_mix_hash h)) (replay_env h).
Proof. intros (Hn & Ht & Hg & Hb). unfold block_env, with_randomness. cbn. by rewrite !saturated_id. Qed.

(** A log of the fetcher as the driver compares it. *)
Definition log_of (l : Log) : BlockTests.ExpectLog := BlockTests.mkExpectLog l.1.1 l.1.2 l.2.

Lemma read_logs_by_index (h : Header) (ls : list (list Log)) :
  list_to_map (prod_map id (fun l => list_to_map (prod_map id read_log <$> l)) <$> test_logs h ls) =
  by_index (by_index log_of) ls.
Proof.
  unfold by_index at 1, test_logs. rewrite fmap_imap. f_equal. apply imap_ext. intros idx l _. unfold prod_map, compose. cbn.
  f_equal. unfold by_index. rewrite fmap_imap. f_equal. apply imap_ext. intros i [[a d] t] _. done.
Qed.

(** ** The suite, written and read back *)

Context `{Revm} (log_parts : Types.Log -> BlockTests.ExpectLog).

Lemma read_transactions_built (l : list TxEnv) (rpcs : list RpcTransaction) :
  l = tx_into_env <$> rpcs -> Forall tx_typed l ->
  build_tx <$> ((fun tx => read_transaction (test_transaction tx)) <$> l) = without_priority_fee <$> l.
Proof.
  intros -> Ht. rewrite <- list_fmap_compose. apply list_fmap_ext. intros i tx Hi. unfold compose.
  apply list_lookup_fmap_Some in Hi as (rtx & -> & Hi). apply build_read_transaction.
  eapply list.Forall_lookup_1; [exact Ht|]. rewrite list_lookup_fmap, Hi. done.
Qed.

Lemma fetched_logs_match (s : Suite) (ls : list (list Log)) (rs : list TxExecutionResult) :
  BlockTests.logs s = by_index (by_index log_of) ls -> post s = None ->
  Z.of_nat (length ls) < 2 ^ 64 -> Forall (fun l => Z.of_nat (length l) < 2 ^ 64) ls ->
  Z.of_nat (length rs) < 2 ^ 64 -> countable_logs rs ->
  matches log_parts s rs <->
  forall idx x, rs !! idx = Some x -> exists l, ls !! idx = Some l /\ log_parts <$> receipt_logs (receipt x) = log_of <$> l.
Proof.
  intros Hs Hp Hl Hls Hlen Hc. unfold matches. rewrite Hs, Hp.
  assert (Hone : forall idx x, rs !! idx = Some x ->
    by_index (by_index log_of) ls !! to_string idx = Some (logs_fixture log_parts (receipt_logs (receipt x))) <->
    exists l, ls !! idx = Some l /\ log_parts <$> receipt_logs (receipt x) = log_of <$> l).
  { intros idx x Hx. apply lookup_lt_Some in Hx as Hlt. rewrite by_index_lookup by lia.
    destruct (ls !! idx) as [l|] eqn:Hi; cbn; [|split; [done|by intros (? & ? & _)]].
    pose proof (list.Forall_lookup_1 _ _ _ _ Hls Hi) as Hll. pose proof (Hc x (list_elem_of_lookup_2 _ _ _ Hx)) as Hxl.
    assert (Hinj : by_index log_of l = by_index log_parts (receipt_logs (receipt x)) <->
      log_of <$> l = log_parts <$> receipt_logs (receipt x)) by by apply by_index_inj. unfold logs_fixture. split.
    - intros Heq%Some_inj. exists l. split; [done|]. symmetry. by apply Hinj.
    - intros (l' & Hl' & Heq). apply Some_inj in Hl' as <-. f_equal. by apply Hinj. }
  split.
  - intros [Hall _] idx x Hx. by apply Hone, Hall.
  - intros Hall. split; [|done]. intros idx x Hx. by apply Hone, Hall.
Qed.

(** C28. A block written by the fetcher and read back by the block test driver: the
    keys parse and no index is out of range; the transactions come out in block
    order, each as it was fetched except that its priority fee is gone and its type is
    the one derived without the fee; the environment is the one of the replay with the
    block's randomness; every block number before the block is paired with the hash of
    the block itself, not its own; the accounts are those the replay has loaded and the
    node answers for, with the balance, nonce, code hash, code and the loaded slots they
    have at the block before; and the results of an executor match the suite exactly when
    their logs are those of the replay. *)
Theorem fetched_suite_read (block_id : BlockId) (b : Block) (s : FetchedSuite)
    (Hb : get_block block_id = Ok (Some b)) (Hf : fetch block_id = Return (Ok s)) (Hh : header_typed (header b))
    (Hfit : forall r, replay_block b = Return (Ok r) -> Forall tx_typed (txs r) /\ Z.of_nat (length (txs r)) < 2 ^ 64 /\
       Forall (fun l => Z.of_nat (length l) < 2 ^ 64) (logs r)) :
  exists r, replay_block b = Return (Ok r) /\
    (exists ts, sort_transactions (transactions (read_suite s)) = Return ts /\ build_tx <$> ts = without_priority_fee <$> txs r) /\
    block_env default_env (env (read_suite s)) = with_randomness (Some (h_mix_hash (header b))) (replay_env (header b)) /\
    parse_hashes (block_hashes (read_suite s)) =
      Return ((fun n => (Z.of_nat n, h_hash (header b))) <$> previous_numbers (h_number (header b))) /\
    (let parent := Z.max (h_number (header b) - 1) 0 in
     (forall address x, (address, x) ∈ pre (read_suite s) -> exists keys y,
        (address, keys) ∈ trie_account (evm_state r) /\ node_account parent address keys y /\ x = read_account y) /\
     (forall address keys, (address, keys) ∈ trie_account (evm_state r) -> is_ok (get_account address parent) = true ->
        exists y, node_account parent address keys y /\ (address, read_account y) ∈ pre (read_suite s))) /\
    forall rs, Z.of_nat (length rs) < 2 ^ 64 -> countable_logs rs ->
      matches log_parts (read_suite s) rs <->
      forall idx x, rs !! idx = Some x ->
        exists l, logs r !! idx = Some l /\ log_parts <$> receipt_logs (receipt x) = log_of <$> l.
Proof.
  unfold fetch in Hf. assert (Hb' : fetch_block block_id = Return (Ok b)) by (unfold fetch_block, rpc; by rewrite Hb).
  rewrite Hb' in Hf. cbn [mbind F_bind] in Hf. apply F_bind_Ok in Hf as (r & Hr & Hf).
  apply F_bind_Ok in Hf as (hashes & Hhs & Hf). apply F_bind_Ok in Hf as (accounts & Hpre & [= <-]).
  destruct (Hfit r Hr) as (Ht & Hn & Hls). destruct (replay_block_ok b r Hr) as (Hlen & rpcs & Htxs). unfold replayed_ok in Hlen.
  apply fetch_pre_Ok in Hpre as [Hf Hback].
  exists r. split; [done|]. split; [|split; [|split; [|split; [split|]]]].
  - eexists. split; [|by eapply read_transactions_built]. apply sort_transactions_numbered; [by rewrite length_fmap|].
    cbn. by rewrite read_transactions_numbered.
  - by apply block_env_test_env.
  - cbn. rewrite (fetch_hashes_Ok _ _ _ _ Hb' Hhs). apply parse_hashes_numbers, previous_numbers_bound, Hh.
  - intros address x Hin. apply list_elem_of_fmap in Hin as ([a' y] & [= -> ->] & Hin).
    destruct (Hf _ _ Hin) as (keys & Hk & Hy). by exists keys, y.
  - intros address keys Hin Hok. destruct (Hback _ _ Hin Hok) as (y & Hy & Hn'). exists y. split; [done|].
    apply list_elem_of_fmap. by exists (address, y).
  - intros rs Hrs Hc. apply fetched_logs_match; try done; [|by rewrite Hlen]. apply read_logs_by_index.
Qed.

End Fetch.

(** ** Examples *)

Section Examples.
#[local] Existing Instances example_revm example_types.

Definition example_rpc_tx (n : Z) : RpcTransaction :=
  mkRpcTransaction 5 21000 None 9 (2 ^ 70) [] (Some 2) n None (Some 6).

(** A node that knows one block, by its number. *)
#[local] Instance example_provider : RpcProvider := {|
  RpcError := unit; BlockId := Z;
  get_block := fun id => if id =? 2 then
      Ok (Some (mkBlock (mkHeader 2 1700000000 1 0 30000000 (Some 7) 222 111 5)
        (Full [example_rpc_tx 0; example_rpc_tx 1]))) else Ok None;
  get_transaction_by_hash := fun _ => Ok None; get_transaction_receipt := fun _ => Ok None;
  get_code_at := fun _ _ => Ok []; get_storage_at := fun a k n => Ok (a + k + n);
  get_account := fun a n => if a =? 5 then Ok (mkRpcAccount 100 0 0) else Err tt;
|}.

(** A replay whose second transaction logs. *)
Definition example_replay (_ : EvmEnv) (tx : TxEnv) (st : list Z) : result (Z * list Log) unit * list Z :=
  (Ok (21000, replicate (Z.to_nat (tx_nonce tx)) (6, [Byte.x01], [4])), tx_caller tx :: st).

Definition example_fetch : F FetchedSuite :=
  fetch Ether.example_default example_replay (fun _ _ => []) (fun _ => [(5, [1]); (6, [])]) 2.

Definition example_fetched : FetchedSuite := match example_fetch with Return (Ok s) => s | _ => mkFetchedSuite (test_env (mkHeader 0 0 0 0 0 None 0 0 0)) [] [] [] [] end.

Lemma example_tx_typed (n : Z) : 0 <= n < 10 -> tx_typed (tx_into_env (example_rpc_tx n)).
Proof. intros Hn. unfold tx_typed, in_range. cbn. split_and!; try lia. intros f [= <-]. lia. Qed.

(** The hashes written for the blocks 0 and 1 are both the hash of block 2, the
    transactions of type 2 are read as legacy ones, and the account the node does not
    answer for is missing. *)
Lemma fetched_suite_read_witness :
  parse_hashes (block_hashes (read_suite example_fetched)) = Return [(0, 222); (1, 222)] /\
  (exists ts, sort_transactions (transactions (read_suite example_fetched)) = Return ts /\
     tx_type <$> (build_tx <$> ts) = [0; 0] /\ tx_type <$> (tx_into_env <$> [example_rpc_tx 0; example_rpc_tx 1]) = [2; 2]) /\
  (exists y, node_account 1 5 [1] y /\ (5, read_account y) ∈ pre (read_suite example_fetched)) /\
  matches (fun _ => BlockTests.mkExpectLog 6 [Byte.x01] [4]) (read_suite example_fetched) [example_result 0; example_result 1].
Proof.
  destruct (fetched_suite_read Ether.example_default example_replay (fun _ _ => []) (fun _ => [(5, [1]); (6, [])])
    (fun _ => BlockTests.mkExpectLog 6 [Byte.x01] [4]) (2 : @BlockId example_provider)
    (mkBlock (mkHeader 2 1700000000 1 0 30000000 (Some 7) 222 111 5) (Full [example_rpc_tx 0; example_rpc_tx 1]))
    example_fetched eq_refl ltac:(vm_compute; reflexivity)) as (r & Hr & (ts & Hts & Hbuilt) & _ & Hh & [_ Hpre] & Hm).
  - repeat split; vm_compute; first [done|by intros].
  - intros r Hr. injection Hr as <-. split; [|split; [vm_compute; reflexivity|]].
    + constructor; [by apply example_tx_typed|]. constructor; [by apply example_tx_typed|constructor].
    + constructor; [reflexivity|]. constructor; [reflexivity|constructor].
  - injection Hr as <-. split; [exact Hh|]. split; [|split].
    + exists ts. split; [exact Hts|]. rewrite Hbuilt. split; reflexivity.
    + apply (Hpre 5 [1]); [by left|reflexivity].
    + apply Hm; [vm_compute; reflexivity| |].
      * intros x Hx. apply elem_of_cons in Hx as [->|Hx]; [vm_compute; reflexivity|].
        apply elem_of_cons in Hx as [->|Hx]; [vm_compute; reflexivity|]. by apply elem_of_nil in Hx.
      * intros [|[|idx]] x Hx; cbn in Hx; try done; injection Hx as <-; eexists; split; reflexivity.
Defined.

End Examples.
