(* ===== verification/Trace.v ===== *)
(** * The block tracer (crates/tools/bins/blocktrace)

    The tracer runs the transactions of a block of a node through an EVM that writes a
    trace of each to a file of its own. The files of the directory "traces" are a map
    from the number in their name to what was written. *)

From S2P Require Import Prelude Tools StateTests Fetch.
Local Open Scope Z_scope.

(** What stops the tracer with an error. *)
Inductive TraceError : Type :=
| BlockNotFound
| RequestFailed.

Section Trace.
(** Outside: the node's answer for a number, with the position of each transaction
    where it is given; whether a transaction can be built; the EVM, which gives a trace
    whether the transaction succeeds or not. *)
Context {Trace St : Type} (empty_trace : Trace) (default_env : EvmEnv) (overflow_checks : bool).
Context (get_block_by_number : Z -> result (option (Header * option (list (option Z * RpcTransaction)))) unit).
Context (build : TxEnv -> option TxEnv) (prev_state : Z -> St) (inspect_one : EvmEnv -> TxEnv -> St -> Trace * St).

(** The environment: always that of Shanghai. *)
Definition trace_env (h : Header) : EvmEnv :=
  mkEvmEnv 1 SHANGHAI (max_blobs_per_tx default_env) (h_number h) (h_beneficiary h) (h_gas_limit h) (h_timestamp h)
    (default 0 (h_base_fee h)) (h_difficulty h) (prevrandao default_env) (blob_excess_gas default_env).

(** [block_number - 1] on [u64]. *)
Definition previous (block_number : Z) : outcome Z :=
  if 0 <? block_number then Return (block_number - 1) else if overflow_checks then Panic else Return u64_MAX.

(** What the builder is given; its type is left to [build]. *)
Definition tx_builder (tx : RpcTransaction) : TxEnv :=
  mkTxEnv 0 (r_input tx) (r_gas_limit tx) (default (r_max_fee_per_gas tx) (r_gas_price tx)) (r_max_priority_fee_per_gas tx)
    (r_nonce tx) (r_value tx) [] 0 (match r_to tx with Some a => StateTests.Call a | None => StateTests.Create end)
    (default [] (r_access_list tx)) [] (r_signer tx).

Fixpoint trace_all (e : EvmEnv) (l : list (option Z * RpcTransaction)) (st : St) (files : gmap Z Trace) :
    outcome (gmap Z Trace) :=
  match l with
  | [] => Return files
  | (idx, tx) :: l' =>
      match build (tx_builder tx) with
      | None => Panic
      | Some env => let '(t, st') := inspect_one e env st in trace_all e l' st' (<[default 0 idx := t]> files)
      end
  end.

(** One round of the loop; it starts with an empty file for number 0. *)
Definition trace_block (block_number : Z) (files : gmap Z Trace) : outcome (result (gmap Z Trace) TraceError) :=
  match get_block_by_number block_number with
  | Err _ => Return (Err RequestFailed)
  | Ok None => Return (Err BlockNotFound)
  | Ok (Some (h, transactions)) =>
      p ← previous block_number;
      match transactions with
      | None => Panic
      | Some l => files' ← trace_all (trace_env h) l (prev_state p) (<[0 := empty_trace]> files); Return (Ok files')
      end
  end.

(** [main]: the loop over [block_number..block_number + 1]. *)
Definition trace_main (block_number : Z) (files : gmap Z Trace) : outcome (result (gmap Z Trace) TraceError) :=
  if block_number <? u64_MAX then trace_block block_number files
  else if overflow_checks then Panic else Return (Ok files).

(** The traces of the transactions in order. *)
Fixpoint traces (e : EvmEnv) (l : list (option Z * RpcTransaction)) (st : St) : list Trace :=
  match l with
  | [] => []
  | (_, tx) :: l' => let '(t, st') := inspect_one e (default (tx_builder tx) (build (tx_builder tx))) st in t :: traces e l' st'
  end.

Definition buildable (l : list (option Z * RpcTransaction)) : Prop :=
  Forall (fun x => is_Some (build (tx_builder x.2))) l.

Lemma trace_all_spec (e : EvmEnv) (l : list (option Z * RpcTransaction)) (st : St) (files : gmap Z Trace) :
  buildable l -> NoDup ((fun x => default 0 x.1) <$> l) ->
  exists files', trace_all e l st files = Return files' /\
    (forall k, k ∉ ((fun x => default 0 x.1) <$> l) -> files' !! k = files !! k) /\
    forall i x t, l !! i = Some x -> traces e l st !! i = Some t -> files' !! default 0 x.1 = Some t.
Proof.
  intros Hb. revert st files. induction Hb as [|[idx tx] l [env Henv] Hb IH]; intros st files Hnd; [by exists files|].
  cbn [fmap list_fmap fst] in Hnd. apply list.NoDup_cons in Hnd as [Hnew Hnd]. cbn [trace_all traces]. cbn [snd] in Henv.
  rewrite Henv. cbn [default]. destruct (inspect_one e env st) as [t st'] eqn:Hins.
  destruct (IH st' (<[default 0 idx := t]> files) Hnd) as (files' & Hrun & Hrest & Hat). exists files'.
  split; [done|]. split.
  - intros k Hk. cbn [fmap list_fmap] in Hk. apply not_elem_of_cons in Hk as [Hne Hk]. rewrite Hrest by done.
    by rewrite lookup_insert_ne.
  - intros [|i] x u Hx Hu; cbn [traces] in Hu; try rewrite Henv in Hu; cbn [default from_option id] in Hu; rewrite Hins in Hu; cbn in Hx, Hu; [|exact (Hat i x u Hx Hu)]. injection Hx as <-. injection Hu as <-. cbn.
    rewrite Hrest by done. by rewrite lookup_insert_eq.
Qed.

(** When the node numbers the transactions, every transaction's trace ends up in the
    file of its number. *)
Lemma trace_block_files (block_number : Z) (files : gmap Z Trace) (h : Header) (l : list (option Z * RpcTransaction)) :
  get_block_by_number block_number = Ok (Some (h, Some l)) -> 0 < block_number -> buildable l ->
  NoDup ((fun x => default 0 x.1) <$> l) ->
  exists files', trace_block block_number files = Return (Ok files') /\
    forall i x t, l !! i = Some x -> traces (trace_env h) l (prev_state (block_number - 1)) !! i = Some t ->
      files' !! default 0 x.1 = Some t.
Proof.
  intros Hg Hn Hb Hnd. unfold trace_block, previous. rewrite Hg, (proj2 (Z.ltb_lt _ _) Hn). cbn [mbind outcome_bind].
  destruct (trace_all_spec (trace_env h) l (prev_state (block_number - 1)) (<[0 := empty_trace]> files) Hb Hnd)
    as (files' & Hrun & _ & Hat). exists files'. rewrite Hrun. by split.
Qed.

(** When it does not, all go to the same file, and only the last trace is left. *)
Lemma trace_unnumbered (e : EvmEnv) (l : list RpcTransaction) (st : St) (files files' : gmap Z Trace) (k : Z) :
  trace_all e ((fun tx => (None, tx)) <$> l) st files = Return files' -> k ≠ 0 -> files' !! k = files !! k.
Proof.
  revert st files. induction l as [|tx l IH]; intros st files Hr Hk; cbn in Hr; [by simplify_eq|].
  destruct (build (tx_builder tx)) as [env|]; [|done]. destruct (inspect_one e env st) as [t st'] eqn:Hins.
  rewrite (IH _ _ Hr Hk). by rewrite lookup_insert_ne.
Qed.

End Trace.

Lemma trace_example :
  let run := trace_block (Trace := Z) (St := unit) (-1) Ether.example_default true
    (fun n => if n =? 7 then Ok (Some (mkHeader 7 0 0 0 0 None 0 0 0,
       Some [(Some 1, example_rpc_tx 4); (Some 0, example_rpc_tx 3)])) else Err tt)
    Some (fun _ => tt) (fun _ tx st => (tx_nonce tx, st)) in
  run 7 ∅ = Return (Ok {[0 := 3; 1 := 4]}) /\ run 0 ∅ = Return (Err RequestFailed).
Proof. split; vm_compute; reflexivity. Qed.
