(* ===== verification/TaskGraph.v ===== *)
(** * Task providers (crates/pe/src/scheduler.rs)

    The [TaskProvider] interface, the counter-based [NormalProvider], and the
    [DAGProvider] with its [TransactionsGraph]: a work queue of transactions
    whose dependencies are met. Calls run without interference; the queue
    ([crossbeam]'s [ArrayQueue]) is a list bounded by its capacity, whose
    overflow makes the [unwrap] of a push panic. *)

From S2P Require Import Prelude Types.

(** ** The interface *)

(** [trait TaskProvider]. *)
Class TaskProvider (S : Type) : Type := {
  provider_next_task : M S (option nat);
  provider_finish_task : nat -> M S unit;
  provider_num_tasks : S -> nat;
}.

(** ** [NormalProvider] *)

Record NormalProvider : Type := mkNormalProvider {
  np_block_size : nat;
  np_execution_idx : nat;
}.

Definition NormalProvider_new (block_size : nat) : NormalProvider := mkNormalProvider block_size 0.

#[export] Instance NormalProvider_provider : TaskProvider NormalProvider := {|
  provider_next_task := fun p =>
    let tx_idx := np_execution_idx p in
    Return (if tx_idx <? np_block_size p then Some tx_idx else None,
            mkNormalProvider (np_block_size p) (usize_add tx_idx 1));
  provider_finish_task := fun _ => mret tt;
  provider_num_tasks := np_block_size;
|}.

(** ** [TransactionsGraph] *)

Record TransactionsGraph : Type := mkTransactionsGraph {
  graph_block_size : nat;
  num_done : nat;
  queue : list TxIdx;
  degree : list nat;
  dependency : list (list TxIdx);
}.

(** [ArrayQueue::push(..).unwrap()], with the capacity of the block size. *)
Definition queue_push (i : TxIdx) : M TransactionsGraph unit := fun g =>
  if length (queue g) <? graph_block_size g then
    Return (tt, mkTransactionsGraph (graph_block_size g) (num_done g) (queue g ++ [i]) (degree g) (dependency g))
  else Panic.

(** [self.degree[i].fetch_add/fetch_sub]: a checked index, then a wrapping update. *)
Definition update_degree (f : nat -> nat) (i : TxIdx) : M TransactionsGraph nat := fun g =>
  match degree g !! i with
  | Some k =>
      Return (k, mkTransactionsGraph (graph_block_size g) (num_done g) (queue g) (<[i := f k]> (degree g))
                   (dependency g))
  | None => Panic
  end.

Definition set_dependents (i : TxIdx) (l : list TxIdx) : M TransactionsGraph unit := fun g =>
  match dependency g !! i with
  | Some _ =>
      Return (tt, mkTransactionsGraph (graph_block_size g) (num_done g) (queue g) (degree g)
                    (<[i := l]> (dependency g)))
  | None => UB
  end.

Definition get_dependents (i : TxIdx) : M TransactionsGraph (list TxIdx) := fun g =>
  match dependency g !! i with Some l => Return (l, g) | None => UB end.

Definition graph_add_dependency (tx blocking_tx_idx : TxIdx) : M TransactionsGraph unit :=
  blocking_dependents ← get_dependents blocking_tx_idx;
  _ ← set_dependents blocking_tx_idx (blocking_dependents ++ [tx]);
  _ ← update_degree (fun k => usize_add k 1) tx;
  mret tt.

(** One dependent of a finished transaction. The test is on the value
    [fetch_sub] returns, the one before the subtraction. *)
Definition release (txid : TxIdx) : M TransactionsGraph unit :=
  d ← update_degree (fun k => usize_sub k 1) txid;
  if d =? 0 then queue_push txid else mret tt.

Definition remove_dependency (blocking_tx_idx : TxIdx) : M TransactionsGraph unit :=
  blocking_dependents ← get_dependents blocking_tx_idx;
  _ ← for_each blocking_dependents release;
  set_dependents blocking_tx_idx [].

Definition graph_pop : M TransactionsGraph (option TxIdx) := fun g =>
  match queue g with
  | txid :: rest =>
      Return (Some txid, mkTransactionsGraph (graph_block_size g) (usize_sub (num_done g) 1) rest
                           (degree g) (dependency g))
  | [] => Return (None, g)
  end.

(** [init]: queue what depends on nothing. *)
Definition init_one (i : TxIdx) : M TransactionsGraph unit := fun g =>
  match degree g !! i with
  | Some 0 => queue_push i g
  | Some _ => Return (tt, g)
  | None => Panic
  end.

Definition graph_init : M TransactionsGraph unit := fun g =>
  for_each (seq 0 (graph_block_size g)) init_one g.

(** [ArrayQueue::new] panics on capacity zero. *)
Definition TransactionsGraph_new (block_size : nat) (dependencies : list (TxIdx * TxIdx)) :
    outcome TransactionsGraph :=
  if block_size =? 0 then Panic else
  let graph := mkTransactionsGraph block_size 0 [] (replicate block_size 0) (replicate block_size []) in
  match for_each dependencies (fun '(tx, blocking) => graph_add_dependency tx blocking) graph with
  | Return (_, g) => Return g
  | Panic => Panic
  | UB => UB
  end.

(** ** [DAGProvider] *)

Definition DAGProvider_new (block_size : nat) : outcome TransactionsGraph :=
  match TransactionsGraph_new block_size [] with
  | Return g => match graph_init g with Return (_, g') => Return g' | Panic => Panic | UB => UB end
  | Panic => Panic
  | UB => UB
  end.

#[export] Instance DAGProvider_provider : TaskProvider TransactionsGraph := {|
  provider_next_task := graph_pop;
  provider_finish_task := remove_dependency;
  provider_num_tasks := graph_block_size;
|}.

(** ** What the providers hand out *)

(** [k] calls of [next_task] in a row. *)
Fixpoint take_tasks {S : Type} `{TaskProvider S} (k : nat) : M S (list (option nat)) :=
  match k with
  | O => mret []
  | S k' => t ← provider_next_task; ts ← take_tasks k'; mret (t :: ts)
  end.

Lemma normal_take (k i n : nat) :
  (Z.of_nat (i + k) < 2 ^ 64)%Z -> i + k <= n ->
  take_tasks k (mkNormalProvider n i) = Return (Some <$> seq i k, mkNormalProvider n (i + k)).
Proof.
  revert i. induction k as [|k IH]; intros i Hs Hle; cbn [take_tasks].
  - by rewrite Nat.add_0_r.
  - unfold mbind, M_bind. cbn [provider_next_task NormalProvider_provider np_execution_idx np_block_size].
    rewrite (proj2 (Nat.ltb_lt i n)) by lia. autorewrite with rust.
    rewrite IH by lia. replace (i + 1) with (S i) by lia. by replace (S i + k) with (i + S k) by lia.
Qed.

(** The normal provider hands out every transaction exactly once, in block order,
    and then nothing. *)
Lemma normal_provider_hands_out (n : nat) (Hn : (Z.of_nat n + 1 < 2 ^ 64)%Z) :
  exists p, take_tasks n (NormalProvider_new n) = Return (Some <$> seq 0 n, p) /\
    exists p', provider_next_task p = Return (None, p').
Proof.
  exists (mkNormalProvider n n). split; [exact (normal_take n 0 n ltac:(lia) ltac:(lia))|].
  eexists. cbn [provider_next_task NormalProvider_provider np_execution_idx np_block_size].
  by rewrite Nat.ltb_irrefl.
Qed.

Lemma normal_provider_hands_out_witness :
  exists p, take_tasks 3 (NormalProvider_new 3) = Return ([Some 0; Some 1; Some 2], p).
Proof.
  destruct (normal_provider_hands_out 3 ltac:(lia)) as (p & Hp & _). exists p. exact Hp.
Defined.

(** *** The dependency graph *)

(** Releasing a dependent that is still counted as dependent does not queue it. *)
Lemma release_keeps_queue (ds : list TxIdx) (g : TransactionsGraph) :
  NoDup ds -> (forall d, d ∈ ds -> exists k, degree g !! d = Some k /\ 0 < k) ->
  exists g', for_each ds release g = Return (tt, g') /\ queue g' = queue g /\
    dependency g' = dependency g /\ graph_block_size g' = graph_block_size g.
Proof.
  revert g. induction ds as [|d ds IH]; intros g Hnd Hdeg; [by exists g|].
  apply list.NoDup_cons in Hnd as [Hd Hnd]. destruct (Hdeg d ltac:(by left)) as (k & Hk & Hpos).
  set (g1 := mkTransactionsGraph (graph_block_size g) (num_done g) (queue g)
    (<[d := usize_sub k 1]> (degree g)) (dependency g)).
  destruct (IH g1 Hnd) as (g' & Hrun & Hq & Hdep & Hb).
  { intros x Hx. destruct (Hdeg x ltac:(by right)) as (j & Hj & Hjp). exists j. split; [|done].
    cbn [degree g1]. rewrite list_lookup_insert_ne; [done|]. intros ->. done. }
  exists g'. split; [|done]. cbn [for_each]. unfold release, update_degree, mbind, M_bind. rewrite Hk.
  rewrite (proj2 (Nat.eqb_neq k 0)) by lia. exact Hrun.
Qed.

(** [remove_dependency] never queues the transactions it releases: it queues one
    whose count was zero before the decrement, but a waiting transaction counts at
    least the dependency that is being removed. *)
Lemma remove_dependency_never_queues (g : TransactionsGraph) (b : TxIdx) (ds : list TxIdx)
    (Hds : dependency g !! b = Some ds) (Hnd : NoDup ds)
    (Hdeg : forall d, d ∈ ds -> exists k, degree g !! d = Some k /\ 0 < k) :
  exists g', remove_dependency b g = Return (tt, g') /\ queue g' = queue g.
Proof.
  destruct (release_keeps_queue ds g Hnd Hdeg) as (g1 & Hrun & Hq & Hdep & _).
  unfold remove_dependency, get_dependents, set_dependents, mbind, M_bind. rewrite Hds, Hrun, Hdep, Hds.
  eexists. split; [reflexivity|done].
Qed.

(** Two transactions, the second depending on the first. *)
Definition example_graph : TransactionsGraph :=
  mkTransactionsGraph 2 0 [0] [0; 1] [[1]; []].

Lemma example_graph_built :
  match TransactionsGraph_new 2 [(1, 0)] with
  | Return g => graph_init g = Return (tt, example_graph)
  | _ => False
  end.
Proof. reflexivity. Qed.

Lemma remove_dependency_never_queues_witness :
  exists g', remove_dependency 0 example_graph = Return (tt, g') /\ queue g' = [0].
Proof.
  apply (remove_dependency_never_queues example_graph 0 [1]).
  - reflexivity.
  - apply NoDup_singleton.
  - intros d Hd. apply list_elem_of_singleton in Hd as ->. exists 1. split; [reflexivity|lia].
Defined.

(** Taking the first task of a fresh graph makes [num_done], meant to count the
    executed transactions, wrap around to the largest [usize]. *)
Lemma graph_pop_wraps (g g1 : TransactionsGraph) (i : TxIdx)
    (Hg : num_done g = 0) (Hpop : graph_pop g = Return (Some i, g1)) :
  Z.of_nat (num_done g1) = (2 ^ 64 - 1)%Z.
Proof.
  unfold graph_pop in Hpop. destruct (queue g); simplify_eq/=. rewrite Hg.
  unfold usize_sub, usize_wrap. rewrite Z2Nat.id; [reflexivity|vm_compute; discriminate].
Qed.

Lemma graph_pop_wraps_witness :
  exists g1, graph_pop example_graph = Return (Some 0, g1) /\ Z.of_nat (num_done g1) = (2 ^ 64 - 1)%Z.
Proof.
  eexists. split; [reflexivity|]. exact (graph_pop_wraps example_graph _ 0 eq_refl eq_refl).
Defined.
