(* ===== verification/Scheduler.v ===== *)
(** * The collaborative scheduler (crates/pe/src/scheduler.rs)

    The scheduler's shared state as a record, and each of its methods as a
    computation over it, run without interference. [Workers] runs the same
    methods one atomic access at a time under interleaving.

    [index_mutex!] is an unchecked index: an index outside a vector is
    undefined behaviour ([UB]). [debug_assert_eq!] panics when it fails. *)

From S2P Require Import Prelude Types.

(** ** State *)

Record Scheduler : Type := mkScheduler {
  block_size : nat;
  tx_status : list TxStatus;
  tx_dependency : list (list TxIdx);
  execution_idx : nat;
  validation_idx : nat;
  min_validation_idx : nat;
  num_validated : nat;
  aborted : bool;
}.

Definition set_tx_status (f : list TxStatus -> list TxStatus) (s : Scheduler) : Scheduler :=
  mkScheduler (block_size s) (f (tx_status s)) (tx_dependency s) (execution_idx s)
    (validation_idx s) (min_validation_idx s) (num_validated s) (aborted s).
Definition set_tx_dependency (f : list (list TxIdx) -> list (list TxIdx)) (s : Scheduler) : Scheduler :=
  mkScheduler (block_size s) (tx_status s) (f (tx_dependency s)) (execution_idx s)
    (validation_idx s) (min_validation_idx s) (num_validated s) (aborted s).
Definition set_execution_idx (f : nat -> nat) (s : Scheduler) : Scheduler :=
  mkScheduler (block_size s) (tx_status s) (tx_dependency s) (f (execution_idx s))
    (validation_idx s) (min_validation_idx s) (num_validated s) (aborted s).
Definition set_validation_idx (f : nat -> nat) (s : Scheduler) : Scheduler :=
  mkScheduler (block_size s) (tx_status s) (tx_dependency s) (execution_idx s)
    (f (validation_idx s)) (min_validation_idx s) (num_validated s) (aborted s).
Definition set_min_validation_idx (f : nat -> nat) (s : Scheduler) : Scheduler :=
  mkScheduler (block_size s) (tx_status s) (tx_dependency s) (execution_idx s)
    (validation_idx s) (f (min_validation_idx s)) (num_validated s) (aborted s).
Definition set_num_validated (f : nat -> nat) (s : Scheduler) : Scheduler :=
  mkScheduler (block_size s) (tx_status s) (tx_dependency s) (execution_idx s)
    (validation_idx s) (min_validation_idx s) (f (num_validated s)) (aborted s).
Definition set_aborted (b : bool) (s : Scheduler) : Scheduler :=
  mkScheduler (block_size s) (tx_status s) (tx_dependency s) (execution_idx s)
    (validation_idx s) (min_validation_idx s) (num_validated s) b.

(** [Scheduler::new(provider)], where [block_size = provider.num_tasks()]. *)
Definition Scheduler_new (block_size : nat) : Scheduler :=
  mkScheduler block_size
    (replicate block_size (mkTxStatus 0 ReadyToExecute))
    (replicate block_size [])
    0 block_size block_size 0 false.

(** ** Atomic counters and unchecked mutexes *)

Definition fetch_add_execution_idx : M Scheduler nat :=
  fun s => Return (execution_idx s, set_execution_idx (fun v => usize_add v 1) s).
Definition fetch_add_validation_idx : M Scheduler nat :=
  fun s => Return (validation_idx s, set_validation_idx (fun v => usize_add v 1) s).
Definition fetch_add_num_validated : M Scheduler nat :=
  fun s => Return (num_validated s, set_num_validated (fun v => usize_add v 1) s).
Definition fetch_sub_num_validated : M Scheduler nat :=
  fun s => Return (num_validated s, set_num_validated (fun v => usize_sub v 1) s).
Definition fetch_min_execution_idx (i : nat) : M Scheduler nat :=
  fun s => Return (execution_idx s, set_execution_idx (fun v => v `min` i) s).
Definition fetch_min_validation_idx (i : nat) : M Scheduler nat :=
  fun s => Return (validation_idx s, set_validation_idx (fun v => v `min` i) s).
Definition fetch_min_min_validation_idx (i : nat) : M Scheduler nat :=
  fun s => Return (min_validation_idx s, set_min_validation_idx (fun v => v `min` i) s).

(** [index_mutex!(self.tx_status, i)]: read and write under the lock. *)
Definition status_of (i : TxIdx) : M Scheduler TxStatus :=
  fun s => match tx_status s !! i with Some t => Return (t, s) | None => UB end.
Definition write_status (i : TxIdx) (t : TxStatus) : M Scheduler unit :=
  fun s => match tx_status s !! i with
           | Some _ => Return (tt, set_tx_status (fun l => <[i:=t]> l) s)
           | None => UB
           end.

(** [index_mutex!(self.tx_dependency, i)]. *)
Definition dependents_of (i : TxIdx) : M Scheduler (list TxIdx) :=
  fun s => match tx_dependency s !! i with Some l => Return (l, s) | None => UB end.
Definition write_dependents (i : TxIdx) (l : list TxIdx) : M Scheduler unit :=
  fun s => match tx_dependency s !! i with
           | Some _ => Return (tt, set_tx_dependency (fun d => <[i:=l]> d) s)
           | None => UB
           end.

Definition with_status (t : TxStatus) (st : IncarnationStatus) : TxStatus :=
  mkTxStatus (incarnation t) st.

(** [matches!(status, Executed | Validated)]. *)
Definition is_finished (st : IncarnationStatus) : bool :=
  match st with Executed | Validated => true | _ => false end.

(** ** Methods *)

Definition abort : M Scheduler unit := modify (set_aborted true).

Definition try_execute (tx : TxIdx) : M Scheduler (option TxVersion) :=
  n ← gets block_size;
  if tx <? n then
    t ← status_of tx;
    if bool_decide (status t = ReadyToExecute) then
      _ ← write_status tx (with_status t Executing);
      mret (Some (mkTxVersion tx (incarnation t)))
    else mret None
  else mret None.

(** One iteration of the [while] loop of [next_task]. *)
Inductive LoopStep : Type :=
| LBreak                (* leave the loop and return [None] *)
| LYield                (* [thread::yield_now(); continue] *)
| LContinue             (* go round again *)
| LReturn (t : Task).

Definition try_execute_next : M Scheduler LoopStep :=
  i ← fetch_add_execution_idx;
  r ← try_execute i;
  mret (match r with Some v => LReturn (Execution v) | None => LContinue end).

(** The branch [validation_idx < execution_idx]: look at the next transaction to
    validate, and fall through to the execution counter. *)
Definition inspect_next : M Scheduler LoopStep :=
  n ← gets block_size;
  i ← fetch_add_validation_idx;
  if i <? n then
    t ← status_of i;
    if bool_decide (status t = ReadyToExecute) then
      _ ← write_status i (with_status t Executing);
      mret (LReturn (Execution (mkTxVersion i (incarnation t))))
    else if is_finished (status t) then
      mret (LReturn (Validation (mkTxVersion i (incarnation t))))
    else if bool_decide (status t = Aborted) then mret LContinue
    else try_execute_next
  else try_execute_next.

Definition next_task_iter : M Scheduler LoopStep :=
  stop ← gets aborted;
  if (stop : bool) then mret LBreak else
  n ← gets block_size;
  e ← gets execution_idx;
  v ← gets validation_idx;
  if (n <=? e) && (n <=? v) then
    k ← gets num_validated;
    m ← gets min_validation_idx;
    mret (if usize_sub n m <=? k then LBreak else LYield)
  else if v <? e then inspect_next
  else try_execute_next.

(** [next_task] with at most [fuel] iterations; [None] when they run out. *)
Fixpoint next_task (fuel : nat) : M Scheduler (option (option Task)) :=
  match fuel with
  | O => mret None
  | S fuel' =>
      r ← next_task_iter;
      match r with
      | LBreak => mret (Some None)
      | LReturn t => mret (Some (Some t))
      | LYield | LContinue => next_task fuel'
      end
  end.

Definition add_dependency (tx blocking_tx_idx : TxIdx) : M Scheduler bool :=
  blocking_tx ← status_of blocking_tx_idx;
  if is_finished (status blocking_tx) then mret false
  else
    t ← status_of tx;
    _ ← write_status tx (with_status t Aborted);
    blocking_dependents ← dependents_of blocking_tx_idx;
    _ ← write_dependents blocking_tx_idx (blocking_dependents ++ [tx]);
    mret true.

Definition set_ready_status (tx : TxIdx) : M Scheduler unit :=
  t ← status_of tx;
  write_status tx (mkTxStatus (usize_add (incarnation t) 1) ReadyToExecute).

(** Resume one dependent: set it ready and let the execution counter reach it. *)
Definition resume_dependent (tx : TxIdx) : M Scheduler unit :=
  _ ← set_ready_status tx;
  _ ← fetch_min_execution_idx tx;
  mret tt.

Definition finish_execution (ver : TxVersion) (flags : FinishExecFlags) : M Scheduler (option Task) :=
  let tx := tx_idx ver in
  t ← status_of tx;
  _ ← debug_assert (bool_decide (status t = Executing));
  _ ← debug_assert (incarnation t =? tx_incarnation ver);
  dependents ← dependents_of tx;
  _ ← write_dependents tx [];
  _ ← for_each dependents resume_dependent;
  min_val ←
    (if flags_contains flags NeedValidation then
       old ← fetch_min_min_validation_idx tx; mret (old `min` tx)
     else gets min_validation_idx);
  n ← gets block_size;
  let finish : M Scheduler (option Task) :=
    if flags_contains flags NeedValidation then
      _ ← write_status tx (with_status t Executed); mret None
    else
      _ ← write_status tx (with_status t Validated);
      _ ← fetch_add_num_validated; mret None in
  if min_val <? n then
    if tx <? min_val then
      (if flags_contains flags WroteNewLocation then
         _ ← fetch_min_validation_idx min_val; finish
       else finish)
    else
      v ← gets validation_idx;
      if tx <? v then
        _ ← (if flags_contains flags WroteNewLocation then
               _ ← fetch_min_validation_idx (usize_add tx 1); mret tt
             else mret tt);
        if flags_contains flags NeedValidation then
          _ ← write_status tx (with_status t Executed);
          mret (Some (Validation ver))
        else
          _ ← write_status tx (with_status t Validated);
          _ ← fetch_add_num_validated;
          finish
      else finish
  else finish.

Definition try_validation_abort (ver : TxVersion) : M Scheduler bool :=
  t ← status_of (tx_idx ver);
  _ ← (if bool_decide (status t = Validated) then _ ← fetch_sub_num_validated; mret tt
       else mret tt);
  if is_finished (status t) then
    _ ← write_status (tx_idx ver) (with_status t Aborted);
    mret true
  else mret false.

Definition finish_validation (ver : TxVersion) (was_aborted : bool) : M Scheduler (option Task) :=
  let tx := tx_idx ver in
  if was_aborted then
    _ ← set_ready_status tx;
    _ ← fetch_min_validation_idx (usize_add tx 1);
    e ← gets execution_idx;
    if tx <? e then
      r ← try_execute tx; mret (Execution <$> r)
    else mret None
  else
    t ← status_of tx;
    if bool_decide (status t = Executed) then
      _ ← write_status tx (with_status t Validated);
      _ ← fetch_add_num_validated;
      mret None
    else mret None.

(** ** Running the methods *)

(** The vectors have one entry per transaction and the size fits a [usize]. *)
Record wf (s : Scheduler) : Prop := mkWf {
  wf_size : (Z.of_nat (block_size s) < 2 ^ 64)%Z;
  wf_status : length (tx_status s) = block_size s;
  wf_dep : length (tx_dependency s) = block_size s;
}.

Lemma Scheduler_new_wf (n : nat) : (Z.of_nat n < 2 ^ 64)%Z -> wf (Scheduler_new n).
Proof. intros. constructor; simpl; rewrite ?length_replicate; done. Qed.

(** What [next_task] waits for when it yields. *)
Definition waiting (s : Scheduler) : Prop :=
  aborted s = false /\ block_size s <= execution_idx s /\ block_size s <= validation_idx s /\
  num_validated s < usize_sub (block_size s) (min_validation_idx s).

(** How far the two counters are from the end of the block. *)
Definition distance (s : Scheduler) : nat :=
  (block_size s - execution_idx s) + (block_size s - validation_idx s).

(** The guarantee of a returned task: its transaction is now [Executing] at the
    incarnation of the task and was ready before, or is executed and to be
    validated at its incarnation. *)
Definition task_ok (s s' : Scheduler) (t : Task) : Prop :=
  match t with
  | Execution v =>
      tx_status s !! tx_idx v = Some (mkTxStatus (tx_incarnation v) ReadyToExecute) /\
      tx_status s' = <[tx_idx v := mkTxStatus (tx_incarnation v) Executing]> (tx_status s)
  | Validation v =>
      (exists st, tx_status s !! tx_idx v = Some (mkTxStatus (tx_incarnation v) st) /\
         is_finished st = true) /\
      tx_status s' = tx_status s
  end.

(** Only the status of one transaction and the two counters change. *)
Definition iter_frame (s s' : Scheduler) : Prop :=
  block_size s' = block_size s /\ tx_dependency s' = tx_dependency s /\
  length (tx_status s') = length (tx_status s) /\
  min_validation_idx s' = min_validation_idx s /\ num_validated s' = num_validated s /\
  aborted s' = aborted s.

Ltac run_method :=
  repeat progress (
    cbv beta iota zeta delta [mbind M_bind mret M_ret gets get modify debug_assert status_of write_status
      dependents_of write_dependents fetch_add_execution_idx fetch_add_validation_idx
      fetch_add_num_validated fetch_sub_num_validated fetch_min_execution_idx
      fetch_min_validation_idx fetch_min_min_validation_idx set_tx_status set_tx_dependency
      set_execution_idx set_validation_idx set_min_validation_idx set_num_validated set_aborted] in *;
    cbn [block_size tx_status tx_dependency execution_idx validation_idx min_validation_idx
      num_validated aborted status incarnation] in *).

Lemma try_execute_next_spec (s : Scheduler) :
  wf s -> (Z.of_nat (execution_idx s) + 1 < 2 ^ 64)%Z ->
  exists r s', try_execute_next s = Return (r, s') /\ iter_frame s s' /\
    execution_idx s' = execution_idx s + 1 /\ validation_idx s' = validation_idx s /\
    match r with
    | LReturn t => task_ok s s' t
    | LContinue => tx_status s' = tx_status s
    | _ => False
    end.
Proof.
  intros Hwf He. unfold try_execute_next, try_execute. run_method.
  rewrite usize_add_small by lia.
  destruct (execution_idx s <? block_size s) eqn:Hlt; run_method.
  - apply Nat.ltb_lt in Hlt.
    destruct (lookup_lt_is_Some_2 (tx_status s) (execution_idx s)) as [[i st] Hx].
    { by rewrite (wf_status s Hwf). }
    rewrite Hx. unfold bool_decide. run_method.
    case_decide as Hst; run_method; rewrite ?Hx; run_method; do 2 eexists; (split; [reflexivity|]);
      unfold iter_frame; run_method; rewrite ?length_insert; simpl in *; subst; auto 10.
  - do 2 eexists. split; [reflexivity|]. unfold iter_frame. run_method. auto 10.
Qed.

Lemma wf_frame (s s' : Scheduler) : wf s -> iter_frame s s' -> wf s'.
Proof.
  intros [H1 H2 H3] (Hb & Hd & Hl & _). constructor; rewrite ?Hb, ?Hd, ?Hl; done.
Qed.

Lemma iter_frame_trans (s1 s2 s3 : Scheduler) :
  iter_frame s1 s2 -> iter_frame s2 s3 -> iter_frame s1 s3.
Proof. unfold iter_frame. intuition congruence. Qed.

Lemma task_ok_eq (s1 s2 s3 : Scheduler) (t : Task) :
  tx_status s2 = tx_status s1 -> task_ok s2 s3 t -> task_ok s1 s3 t.
Proof. intros H. unfold task_ok. by rewrite H. Qed.

(** The outcome of one iteration of the loop. *)
Definition iter_ok (s : Scheduler) (r : LoopStep) (s' : Scheduler) : Prop :=
  match r with
  | LBreak => s' = s /\ (aborted s = true \/
      (block_size s <= execution_idx s /\ block_size s <= validation_idx s /\
       usize_sub (block_size s) (min_validation_idx s) <= num_validated s))
  | LYield => s' = s /\ waiting s
  | LContinue => tx_status s' = tx_status s /\ distance s' < distance s
  | LReturn t => task_ok s s' t
  end.

Lemma next_task_iter_spec (s : Scheduler) :
  wf s -> (Z.of_nat (execution_idx s) + 1 < 2 ^ 64)%Z ->
  exists r s', next_task_iter s = Return (r, s') /\ iter_frame s s' /\
    execution_idx s' <= execution_idx s + 1 /\ iter_ok s r s'.
Proof.
  intros Hwf Hover. pose proof (wf_size s Hwf) as Hsz.
  assert (Hsame : iter_frame s s) by (unfold iter_frame; auto 10).
  destruct (aborted s) eqn:Ha.
  { exists LBreak, s. unfold next_task_iter. run_method. rewrite Ha. simpl.
    repeat split; auto; lia. }
  destruct ((block_size s <=? execution_idx s) && (block_size s <=? validation_idx s)) eqn:Hend.
  { unfold next_task_iter. run_method. rewrite Ha, Hend. run_method.
    apply andb_true_iff in Hend as [He Hv]. apply Nat.leb_le in He, Hv.
    destruct (usize_sub _ _ <=? _) eqn:Hk; [apply Nat.leb_le in Hk|apply Nat.leb_gt in Hk];
      do 2 eexists; (split; [reflexivity|]); (split; [done|]); (split; [lia|]);
      unfold iter_ok, waiting; auto 10. }
  assert (Hstep : next_task_iter s =
    if validation_idx s <? execution_idx s then inspect_next s else try_execute_next s).
  { unfold next_task_iter. run_method. rewrite Ha, Hend. by destruct (validation_idx s <? _). }
  rewrite Hstep. clear Hstep. apply andb_false_iff in Hend. rewrite !Nat.leb_gt in Hend.
  destruct (validation_idx s <? execution_idx s) eqn:Hve.
  - apply Nat.ltb_lt in Hve. set (s1 := set_validation_idx (fun v => usize_add v 1) s).
    assert (Hv1 : validation_idx s1 = validation_idx s + 1) by (apply usize_add_small; lia).
    assert (Hf1 : iter_frame s s1) by (unfold iter_frame; auto 10).
    destruct (try_execute_next_spec s1 (wf_frame _ _ Hwf Hf1) Hover)
      as (r & s2 & Hr & Hf2 & He2 & Hv2 & Hk2).
    destruct (lookup_lt_is_Some_2 (tx_status s) (validation_idx s)) as [[i st] Hx].
    { rewrite (wf_status s Hwf). lia. }
    unfold inspect_next. run_method. rewrite (proj2 (Nat.ltb_lt (validation_idx s) _)) by lia. run_method.
    rewrite Hx.
    unfold bool_decide. run_method.
    destruct st; simpl; run_method; rewrite ?Hx; run_method;
      try (do 2 eexists; split; [reflexivity|]; unfold iter_frame, iter_ok, distance; run_method;
           rewrite ?length_insert, ?usize_add_small by lia; simpl; repeat split; eauto; lia).
    exists r, s2. rewrite <- Hr. split; [done|]. split; [by eapply iter_frame_trans|].
    split; [simpl in *; lia|]. destruct Hf2 as (Hb & _). destruct r; simpl in *; try done.
    split; [done|]. unfold distance. rewrite He2, Hv2, Hb. simpl in *. lia.
  - apply Nat.ltb_ge in Hve.
    destruct (try_execute_next_spec s Hwf Hover) as (r & s2 & Hr & Hf2 & He2 & Hv2 & Hk2).
    exists r, s2. split; [done|]. split; [done|]. split; [lia|].
    destruct Hf2 as (Hb & _). destruct r; simpl in *; try done.
    split; [done|]. unfold distance. rewrite He2, Hv2, Hb. lia.
Qed.

(** What [next_task] leaves behind: it waits for other threads with nothing left
    to hand out, or it returned, and then its answer is right. *)
Definition next_task_outcome (fuel : nat) (s : Scheduler) : Prop :=
  (exists s', iter_frame s s' /\ tx_status s' = tx_status s /\ waiting s' /\
     next_task fuel s = Return (None, s')) \/
  (exists r s', iter_frame s s' /\ next_task fuel s = Return (Some r, s') /\
     match r with
     | Some t => task_ok s s' t
     | None => tx_status s' = tx_status s /\ (aborted s = true \/
         (block_size s <= execution_idx s' /\ block_size s <= validation_idx s' /\
          usize_sub (block_size s) (min_validation_idx s) <= num_validated s))
     end).

(** C23. [next_task] run without interference never goes round more often than
    the two counters have room, hence at most [2 * block_size + 1] times: by then
    it has returned a task whose transaction it moved to [Executing] from
    [ReadyToExecute] (or one that is executed and to be validated), or [None]
    because of an abort or a finished block, or it yields, waiting for
    validations other threads are working on. *)
Theorem next_task_settles (fuel : nat) (s : Scheduler)
    (Hwf : wf s) (Hfuel : distance s < fuel)
    (Hover : (Z.of_nat (execution_idx s + fuel) < 2 ^ 64)%Z) :
  next_task_outcome fuel s.
Proof.
  unfold next_task_outcome in *.
  revert s Hwf Hfuel Hover. induction fuel as [|fuel IH]; intros s Hwf Hfuel Hover; [lia|].
  destruct (next_task_iter_spec s Hwf ltac:(lia)) as (r & s1 & Hr & Hf & He & Hok).
  cbn [next_task]. rewrite (bind_Return _ _ _ _ _ Hr).
  destruct r as [| | |t]; simpl in Hok.
  - right. exists None, s. destruct Hok as [-> ?]. auto.
  - left. destruct Hok as [-> Hw]. exists s. split; [done|split; [done|split; [done|]]].
    clear IH Hfuel Hover He Hr. induction fuel as [|fuel IH]; [done|].
    cbn [next_task]. destruct Hw as (Ha & Hx & Hv & Hn).
    rewrite (bind_Return _ _ _ s LYield); [done|]. unfold next_task_iter. run_method.
    rewrite Ha. run_method. rewrite !(proj2 (Nat.leb_le (block_size s) _)) by done. simpl.
    by rewrite (proj2 (Nat.leb_gt _ _)).
  - destruct Hok as [Hst Hdist]. destruct (IH s1 (wf_frame _ _ Hwf Hf)) as [Hw|Hret]; [lia|lia|left|right].
    + destruct Hw as (s2 & Hf2 & Hst2 & Hw & Hrun). exists s2.
      split; [by eapply iter_frame_trans|]. split; [congruence|done].
    + destruct Hret as (t & s2 & Hf2 & Hrun & Ht). exists t, s2.
      split; [by eapply iter_frame_trans|]. split; [done|].
      destruct t as [t|]; [by eapply task_ok_eq|]. destruct Hf as (Hb & _ & _ & Hm & Hnv & Hab).
      rewrite Hst, Hb, Hm, Hnv, Hab in Ht. done.
  - right. exists (Some t), s1. auto.
Qed.

Lemma next_task_settles_witness : next_task_outcome 7 (Scheduler_new 3).
Proof.
  apply next_task_settles; [apply Scheduler_new_wf; lia| |vm_compute; reflexivity].
  unfold distance. simpl. lia.
Defined.

(** ** The other methods, on every branch *)

(** The status of a transaction whose next incarnation may start. *)
Definition next_incarnation (t : TxStatus) : TxStatus :=
  mkTxStatus (usize_add (incarnation t) 1) ReadyToExecute.

(** The statuses after all of [ds] were resumed. *)
Definition resume_all (ds : list TxIdx) (l : list TxStatus) : list TxStatus :=
  foldl (fun l d => alter next_incarnation d l) l ds.

Lemma resume_all_lookup_ne (ds : list TxIdx) (l : list TxStatus) (i : nat) :
  i ∉ ds -> resume_all ds l !! i = l !! i.
Proof.
  revert l. induction ds as [|d ds IH]; intros l Hi; [done|]. apply not_elem_of_cons in Hi as [? ?].
  simpl. rewrite IH by done. by apply list_lookup_alter_ne.
Qed.

Lemma resume_all_lookup (ds : list TxIdx) (l : list TxStatus) (i : nat) :
  NoDup ds -> i ∈ ds -> resume_all ds l !! i = next_incarnation <$> l !! i.
Proof.
  revert l. induction ds as [|d ds IH]; intros l Hnd Hi; [by apply elem_of_nil in Hi|].
  apply list.NoDup_cons in Hnd as [Hd Hnd]. apply elem_of_cons in Hi as [->|Hi]; simpl.
  - rewrite resume_all_lookup_ne by done. apply list_lookup_alter_eq.
  - rewrite IH by done. rewrite list_lookup_alter_ne by congruence. done.
Qed.

Lemma list_alter_insert (f : TxStatus -> TxStatus) (l : list TxStatus) (i : nat) (x : TxStatus) :
  l !! i = Some x -> alter f i l = <[i:=f x]> l.
Proof.
  intros Hx. apply list_eq. intros j. destruct (decide (j = i)) as [->|Hne].
  - rewrite list_lookup_alter_eq, list_lookup_insert_eq, Hx; [done|by eapply lookup_lt_Some].
  - by rewrite list_lookup_alter_ne, list_lookup_insert_ne by congruence.
Qed.

Lemma resume_loop (ds : list TxIdx) (s : Scheduler) :
  Forall (fun d => d < length (tx_status s)) ds ->
  for_each ds resume_dependent s =
  Return (tt, set_execution_idx (fun e => foldl Nat.min e ds)
    (set_tx_status (resume_all ds) s)).
Proof.
  revert s. induction ds as [|d ds IH]; intros s Hds.
  - destruct s. done.
  - apply list.Forall_cons in Hds as [Hd Hds]. cbn [for_each].
    destruct (lookup_lt_is_Some_2 (tx_status s) d Hd) as [t Ht].
    set (s1 := set_execution_idx (fun e => e `min` d)
      (set_tx_status (fun l => alter next_incarnation d l) s)).
    rewrite (bind_Return _ _ _ s1 tt).
    + rewrite IH; [done|]. simpl. by rewrite length_alter.
    + unfold resume_dependent, set_ready_status. run_method. rewrite Ht. run_method. rewrite Ht.
      unfold s1. run_method. do 3 f_equal. symmetry. exact (list_alter_insert next_incarnation _ _ _ Ht).
Qed.


(** [add_dependency]: a transaction that has finished meanwhile blocks nobody;
    otherwise the blocked transaction is aborted and enlisted at its blocker. *)
Lemma add_dependency_spec (s : Scheduler) (tx b : TxIdx) (tb t : TxStatus) (l : list TxIdx)
    (Hb : tx_status s !! b = Some tb) (Ht : tx_status s !! tx = Some t)
    (Hl : tx_dependency s !! b = Some l) :
  add_dependency tx b s =
  if is_finished (status tb) then Return (false, s)
  else Return (true, set_tx_dependency (fun d => <[b := l ++ [tx]]> d)
         (set_tx_status (fun m => <[tx := mkTxStatus (incarnation t) Aborted]> m) s)).
Proof.
  unfold add_dependency. run_method. rewrite Hb. run_method. case_match; [done|].
  run_method. rewrite Ht. run_method. rewrite Ht. run_method. rewrite Hl. run_method.
  by rewrite Hl.
Qed.

(** A block of three where the first two transactions are executing. *)
Definition example_state : Scheduler :=
  mkScheduler 3 [mkTxStatus 0 Executing; mkTxStatus 0 Executing; mkTxStatus 0 ReadyToExecute]
    [[]; []; []] 2 3 3 0 false.

(** The second was found to depend on the first. *)
Definition example_blocked : Scheduler :=
  mkScheduler 3 [mkTxStatus 0 Executing; mkTxStatus 0 Aborted; mkTxStatus 0 ReadyToExecute]
    [[1]; []; []] 2 3 3 0 false.

Lemma add_dependency_spec_witness :
  add_dependency 1 0 example_state = Return (true, example_blocked).
Proof.
  exact (add_dependency_spec example_state 1 0 (mkTxStatus 0 Executing) (mkTxStatus 0 Executing) []
    eq_refl eq_refl eq_refl).
Defined.

(** The state after an execution finished. [ds] are the dependents of [tx]. *)
Definition executed (s : Scheduler) (tx : TxIdx) (inc : TxIncarnation) (flags : FinishExecFlags)
    (ds : list TxIdx) : Scheduler :=
  mkScheduler (block_size s)
    (<[tx := mkTxStatus inc Executed]> (resume_all ds (tx_status s)))
    (<[tx := []]> (tx_dependency s))
    (foldl Nat.min (execution_idx s) ds)
    (if (tx <? validation_idx s) && flags_contains flags WroteNewLocation
     then validation_idx s `min` (tx + 1) else validation_idx s)
    (min_validation_idx s `min` tx) (num_validated s) (aborted s).

(** C24. [finish_execution] of the incarnation that is executing, whose dependents are
    later transactions of the block, neither panics nor leaves a dependent behind: every
    dependent gets its next incarnation and the execution counter is lowered to reach it,
    the dependency list is emptied, the transaction becomes [Executed],
    [min_validation_idx] is lowered to it, and the caller gets its validation as the next
    task exactly when the validation counter is already past it; writing a new location
    then lowers the validation counter to the next transaction. This is so for every set
    of flags: the transactions that need no validation according to the comment at
    [FinishExecFlags], the first one and lazy ones, are handed out for validation like any
    other, as [NeedValidation] has the value 0, which every set contains. *)
Theorem finish_execution_spec (s : Scheduler) (ver : TxVersion) (flags : FinishExecFlags)
    (ds : list TxIdx) (Hwf : wf s) (Hlt : tx_idx ver < block_size s)
    (Hst : tx_status s !! tx_idx ver = Some (mkTxStatus (tx_incarnation ver) Executing))
    (Hds : tx_dependency s !! tx_idx ver = Some ds)
    (Hrange : Forall (fun d => tx_idx ver < d < block_size s) ds) :
  finish_execution ver flags s =
  Return (if tx_idx ver <? validation_idx s then Some (Validation ver) else None,
          executed s (tx_idx ver) (tx_incarnation ver) flags ds).
Proof.
  pose proof (wf_size s Hwf). pose proof (wf_status s Hwf).
  assert (Hkeep : resume_all ds (tx_status s) !! tx_idx ver =
    Some (mkTxStatus (tx_incarnation ver) Executing)).
  { rewrite resume_all_lookup_ne; [done|]. intros Hin. rewrite list.Forall_forall in Hrange.
    specialize (Hrange _ Hin). lia. }
  unfold finish_execution. run_method. rewrite Hst.
  run_method. rewrite bool_decide_eq_true_2 by done. run_method. rewrite Nat.eqb_refl. run_method. rewrite Hds. run_method.
  rewrite Hds. run_method. rewrite resume_loop.
  2: { eapply list.Forall_impl; [exact Hrange|]. simpl. lia. }
  run_method. rewrite contains_NeedValidation. run_method.
  rewrite (proj2 (Nat.ltb_lt (_ `min` _) _)) by lia.
  rewrite (proj2 (Nat.ltb_ge (tx_idx ver) (_ `min` _))) by lia. run_method.
  unfold executed. destruct (tx_idx ver <? validation_idx s); simpl;
    [destruct (flags_contains flags WroteNewLocation)|]; run_method; rewrite Hkeep; run_method;
    autorewrite with rust; done.
Qed.

Lemma finish_execution_spec_witness :
  finish_execution (mkTxVersion 0 0) WroteNewLocation example_blocked =
  Return (Some (Validation (mkTxVersion 0 0)),
    mkScheduler 3 [mkTxStatus 0 Executed; mkTxStatus 1 ReadyToExecute; mkTxStatus 0 ReadyToExecute]
      [[]; []; []] 1 1 0 0 false).
Proof.
  rewrite (finish_execution_spec example_blocked (mkTxVersion 0 0) WroteNewLocation [1]);
    [reflexivity|constructor; simpl; lia|simpl; lia|reflexivity|reflexivity|].
  repeat constructor; simpl; lia.
Defined.

(** [try_validation_abort]: an executed or validated transaction becomes
    [Aborted], and a validated one is no longer counted; any other is left
    alone. *)
Lemma try_validation_abort_spec (s : Scheduler) (ver : TxVersion) (t : TxStatus)
    (Ht : tx_status s !! tx_idx ver = Some t) :
  try_validation_abort ver s =
  match status t with
  | Executed =>
      Return (true, set_tx_status (fun l => <[tx_idx ver := mkTxStatus (incarnation t) Aborted]> l) s)
  | Validated =>
      Return (true, set_tx_status (fun l => <[tx_idx ver := mkTxStatus (incarnation t) Aborted]> l)
        (set_num_validated (fun k => usize_sub k 1) s))
  | _ => Return (false, s)
  end.
Proof.
  unfold try_validation_abort. run_method. rewrite Ht. destruct t as [i []]; run_method; simpl;
    run_method; rewrite ?Ht; done.
Qed.

Lemma try_validation_abort_spec_witness :
  try_validation_abort (mkTxVersion 0 0) example_state = Return (false, example_state).
Proof. exact (try_validation_abort_spec example_state (mkTxVersion 0 0) _ eq_refl). Defined.

(** [finish_validation] after an abort: the transaction gets its next
    incarnation, everything above it is validated again, and if the execution
    counter is already past it, the caller gets the new incarnation to execute. *)
Lemma finish_validation_aborted (s : Scheduler) (ver : TxVersion) (t : TxStatus)
    (Hwf : wf s) (Hlt : tx_idx ver < block_size s)
    (Ht : tx_status s !! tx_idx ver = Some t) :
  let inc := usize_add (incarnation t) 1 in
  let again := tx_idx ver <? execution_idx s in
  finish_validation ver true s =
  Return (if again then Some (Execution (mkTxVersion (tx_idx ver) inc)) else None,
    set_validation_idx (fun v => v `min` (tx_idx ver + 1))
      (set_tx_status (fun l => <[tx_idx ver := mkTxStatus inc
        (if again then Executing else ReadyToExecute)]> l) s)).
Proof.
  intros inc again. pose proof (wf_size s Hwf). pose proof (lookup_lt_Some _ _ _ Ht).
  unfold finish_validation, set_ready_status, try_execute. run_method. rewrite Ht. run_method.
  rewrite Ht. run_method. rewrite (usize_add_small (tx_idx ver) 1) by lia.
  change (tx_idx ver <? execution_idx s) with again. destruct again; run_method; [|done].
  rewrite (proj2 (Nat.ltb_lt _ _)) by done. run_method.
  rewrite list_lookup_insert_eq by done. run_method. rewrite bool_decide_eq_true_2 by done.
  run_method. rewrite list_lookup_insert_eq by done. run_method. by rewrite list_insert_insert_eq.
Qed.

Lemma finish_validation_aborted_witness :
  finish_validation (mkTxVersion 1 0) true example_blocked =
  Return (Some (Execution (mkTxVersion 1 1)),
    mkScheduler 3 [mkTxStatus 0 Executing; mkTxStatus 1 Executing; mkTxStatus 0 ReadyToExecute]
      [[1]; []; []] 2 2 3 0 false).
Proof.
  rewrite (finish_validation_aborted example_blocked (mkTxVersion 1 0) (mkTxStatus 0 Aborted));
    [reflexivity|constructor; simpl; lia|simpl; lia|reflexivity].
Defined.

(** [finish_validation] of a valid read set: only an executed transaction is
    marked and counted, so it is counted once however often it is validated. *)
Lemma finish_validation_valid (s : Scheduler) (ver : TxVersion) (t : TxStatus)
    (Ht : tx_status s !! tx_idx ver = Some t) :
  finish_validation ver false s =
  Return (None,
    if decide (status t = Executed)
    then set_num_validated (fun k => usize_add k 1)
      (set_tx_status (fun l => <[tx_idx ver := mkTxStatus (incarnation t) Validated]> l) s)
    else s).
Proof.
  unfold finish_validation. run_method. rewrite Ht. run_method.
  destruct (decide (status t = Executed)) as [He|He].
  - rewrite bool_decide_eq_true_2 by done. run_method. by rewrite Ht.
  - by rewrite bool_decide_eq_false_2.
Qed.
