(* ===== verification/Workers.v ===== *)
(** * Worker threads over the scheduler (executor.rs, scheduler.rs)

    The loop each thread of [ParallelExecutor::execute] runs, broken into the
    atomic accesses to shared state it makes: one transition is one load,
    store or read-modify-write of an atomic, or one critical section of a
    [Mutex] that touches nothing else. Threads interleave arbitrarily.

    The [tx_status] mutexes that stay locked across several accesses (in
    [add_dependency], [finish_execution], [try_validation_abort] and
    [finish_validation]) are held by the thread's program counter: [holds].
    A [tx_dependency] mutex is only ever taken while the [tx_status] mutex of
    the same transaction is held, so it never blocks on its own.

    What the EVM does with a transaction, and whether a read set validates, is
    an oracle here: any outcome, except that a transaction is only ever blocked
    by a lower one (see [VmDb]). *)

From S2P Require Import Prelude Types Scheduler.

(** ** Threads and shared state *)

(** The variants of [AbortReason] and of [VmExecutionError] (result.rs), without
    the error payload. *)
Inductive Reason : Type :=
| FallbackToSequential
| ExecutionError.

Inductive VmOutcome : Type :=
| Vm_Retry
| Vm_Fallback
| Vm_Blocking (blocking_tx_idx : TxIdx)
| Vm_ExecutionError
| Vm_Ok (flags : FinishExecFlags).

Record Oracle : Type := mkOracle {
  vm_execute : VmOutcome;
  read_set_valid : bool;
}.

(** [execution_results] is kept as which slots are [Some]. *)
Record Shared : Type := mkShared {
  sched : Scheduler;
  abort_reason : option Reason;
  results : list bool;
}.

Definition set_sched (f : Scheduler -> Scheduler) (g : Shared) : Shared :=
  mkShared (f (sched g)) (abort_reason g) (results g).

(** Where a worker is. [NT_*] is [next_task], [TE_*] and [AD_*] are
    [ParallelExecutor::try_execute] and [add_dependency], [FE_*] is
    [finish_execution], [TVA_*] and [FV_*] are [try_validate]'s
    [try_validation_abort] and [finish_validation], [W_*] the worker loop. *)
Inductive pc : Type :=
| NT_Top
| NT_LoadExec
| NT_LoadVal (e : nat)
| NT_LoadNum
| NT_LoadMin (k : nat)
| NT_FetchVal
| NT_InspectVal (i : nat)
| NT_FetchExec
| NT_TryExec (i : nat)
| W_Execute (v : TxVersion)
| W_Validate (v : TxVersion)
| W_Check (next : option Task)
| W_Done
| TE_Retry (v : TxVersion)
| TE_Abort (v : TxVersion) (r : Reason)
| TE_SetReason (v : TxVersion) (r : Reason)
| TE_Store (v : TxVersion) (f : FinishExecFlags)
| AD_Lock (v : TxVersion) (b : TxIdx)
| AD_SetAborted (v : TxVersion) (b : TxIdx)
| AD_Push (v : TxVersion) (b : TxIdx)
| FE_Lock (v : TxVersion) (f : FinishExecFlags)
| FE_Ready (v : TxVersion) (f : FinishExecFlags) (ds : list TxIdx)
| FE_MinExec (v : TxVersion) (f : FinishExecFlags) (d : TxIdx) (ds : list TxIdx)
| FE_MinVal (v : TxVersion) (f : FinishExecFlags)
| FE_LoadVal (v : TxVersion) (f : FinishExecFlags) (m : nat)
| FE_LowerVal (v : TxVersion) (f : FinishExecFlags) (i : nat) (early : bool)
| FE_Status (v : TxVersion) (f : FinishExecFlags) (early : bool)
| FE_NumAdd (v : TxVersion) (f : FinishExecFlags) (early : bool)
| TVA_Lock (v : TxVersion)
| TVA_Sub (v : TxVersion)
| TVA_Set (v : TxVersion)
| W_Convert (v : TxVersion)
| FV_Ready (v : TxVersion)
| FV_LowerVal (v : TxVersion)
| FV_LoadExec (v : TxVersion)
| FV_TryExec (v : TxVersion)
| FV_Mark (v : TxVersion)
| FV_NumAdd (v : TxVersion).

(** The [tx_status] mutexes a thread holds between two of its transitions. *)
Definition holds (p : pc) : list TxIdx :=
  match p with
  | AD_SetAborted _ b => [b]
  | AD_Push v b => [b; tx_idx v]
  | FE_Ready v _ _ | FE_MinExec v _ _ _ | FE_MinVal v _ | FE_LoadVal v _ _
  | FE_LowerVal v _ _ _ | FE_Status v _ _ | FE_NumAdd v _ _
  | TVA_Sub v | TVA_Set v | FV_NumAdd v => [tx_idx v]
  | _ => []
  end.

(** The mutex a thread has to take for its next transition. *)
Definition wants (n : nat) (p : pc) : option TxIdx :=
  match p with
  | NT_InspectVal i => Some i
  | NT_TryExec i => if i <? n then Some i else None
  | AD_Lock _ b => Some b
  | AD_SetAborted v _ => Some (tx_idx v)
  | FE_Lock v _ => Some (tx_idx v)
  | FE_Ready _ _ (d :: _) => Some d
  | TVA_Lock v | FV_Ready v | FV_TryExec v | FV_Mark v => Some (tx_idx v)
  | _ => None
  end.

(** ** One transition of a thread *)

(** [Crash]: an unchecked index out of range or a failed [debug_assert]. *)
Inductive sres : Type :=
| Blocked
| Crash
| Next (g : Shared) (p : pc).

Definition dispatch (t : Task) : pc :=
  match t with Execution v => W_Execute v | Validation v => W_Validate v end.

(** Read the status of [i] under its mutex, taken for this access only. *)
Definition locked (free : TxIdx -> bool) (g : Shared) (i : TxIdx) (k : TxStatus -> sres) : sres :=
  if free i then
    match tx_status (sched g) !! i with Some t => k t | None => Crash end
  else Blocked.

(** Read the status of [i], whose mutex the thread holds. *)
Definition held (g : Shared) (i : TxIdx) (k : TxStatus -> sres) : sres :=
  match tx_status (sched g) !! i with Some t => k t | None => Crash end.

Definition put_status (i : TxIdx) (t : TxStatus) (g : Shared) : Shared :=
  set_sched (set_tx_status (fun l => <[i:=t]> l)) g.

(** [try_execute(i)] in one critical section, continuing at [hit] or [miss]. *)
Definition try_exec_at (free : TxIdx -> bool) (g : Shared) (i : TxIdx)
    (hit : TxVersion -> pc) (miss : pc) : sres :=
  if i <? block_size (sched g) then
    locked free g i (fun t =>
      if bool_decide (status t = ReadyToExecute)
      then Next (put_status i (with_status t Executing) g) (hit (mkTxVersion i (incarnation t)))
      else Next g miss)
  else Next g miss.

Definition step_next_task (free : TxIdx -> bool) (g : Shared) (p : pc) : sres :=
  let s := sched g in
  let n := block_size s in
  match p with
  | NT_Top => Next g (if aborted s then W_Done else NT_LoadExec)
  | NT_LoadExec => Next g (NT_LoadVal (execution_idx s))
  | NT_LoadVal e =>
      let v := validation_idx s in
      Next g (if (n <=? e) && (n <=? v) then NT_LoadNum
              else if v <? e then NT_FetchVal else NT_FetchExec)
  | NT_LoadNum => Next g (NT_LoadMin (num_validated s))
  | NT_LoadMin k =>
      Next g (if usize_sub n (min_validation_idx s) <=? k then W_Done else NT_Top)
  | NT_FetchVal =>
      let i := validation_idx s in
      Next (set_sched (set_validation_idx (fun v => usize_add v 1)) g)
           (if i <? n then NT_InspectVal i else NT_FetchExec)
  | NT_InspectVal i =>
      locked free g i (fun t =>
        if bool_decide (status t = ReadyToExecute) then
          Next (put_status i (with_status t Executing) g)
               (W_Execute (mkTxVersion i (incarnation t)))
        else if is_finished (status t) then
          Next g (W_Validate (mkTxVersion i (incarnation t)))
        else if bool_decide (status t = Aborted) then Next g NT_Top
        else Next g NT_FetchExec)
  | NT_FetchExec =>
      let i := execution_idx s in
      Next (set_sched (set_execution_idx (fun v => usize_add v 1)) g) (NT_TryExec i)
  | NT_TryExec i => try_exec_at free g i W_Execute NT_Top
  | _ => Blocked
  end.

Definition step_add_dependency (free : TxIdx -> bool) (g : Shared) (p : pc) : sres :=
  match p with
  | AD_Lock v b =>
      locked free g b (fun t =>
        if is_finished (status t) then Next g (TE_Retry v) else Next g (AD_SetAborted v b))
  | AD_SetAborted v b =>
      locked free g (tx_idx v) (fun t =>
        Next (put_status (tx_idx v) (with_status t Aborted) g) (AD_Push v b))
  | AD_Push v b =>
      match tx_dependency (sched g) !! b with
      | Some l =>
          Next (set_sched (set_tx_dependency (fun d => <[b:=l ++ [tx_idx v]]> d)) g) (W_Check None)
      | None => Crash
      end
  | _ => Blocked
  end.

Definition step_finish_execution (free : TxIdx -> bool) (g : Shared) (p : pc) : sres :=
  let s := sched g in
  match p with
  | FE_Lock v f =>
      locked free g (tx_idx v) (fun t =>
        if bool_decide (status t = Executing) && (incarnation t =? tx_incarnation v) then
          match tx_dependency s !! tx_idx v with
          | Some ds =>
              Next (set_sched (set_tx_dependency (fun d => <[tx_idx v:=[]]> d)) g) (FE_Ready v f ds)
          | None => Crash
          end
        else Crash)
  | FE_Ready v f [] => Next g (FE_MinVal v f)
  | FE_Ready v f (d :: ds) =>
      locked free g d (fun t =>
        Next (put_status d (mkTxStatus (usize_add (incarnation t) 1) ReadyToExecute) g)
             (FE_MinExec v f d ds))
  | FE_MinExec v f d ds =>
      Next (set_sched (set_execution_idx (fun e => e `min` d)) g) (FE_Ready v f ds)
  | FE_MinVal v f =>
      if flags_contains f NeedValidation then
        Next (set_sched (set_min_validation_idx (fun m => m `min` tx_idx v)) g)
             (FE_LoadVal v f (min_validation_idx s `min` tx_idx v))
      else Next g (FE_LoadVal v f (min_validation_idx s))
  | FE_LoadVal v f m =>
      if m <? block_size s then
        if tx_idx v <? m then
          if flags_contains f WroteNewLocation then Next g (FE_LowerVal v f m false)
          else Next g (FE_Status v f false)
        else if tx_idx v <? validation_idx s then
          if flags_contains f WroteNewLocation
          then Next g (FE_LowerVal v f (usize_add (tx_idx v) 1) true)
          else Next g (FE_Status v f true)
        else Next g (FE_Status v f false)
      else Next g (FE_Status v f false)
  | FE_LowerVal v f i early =>
      Next (set_sched (set_validation_idx (fun x => x `min` i)) g) (FE_Status v f early)
  | FE_Status v f early =>
      held g (tx_idx v) (fun t =>
        if flags_contains f NeedValidation then
          Next (put_status (tx_idx v) (with_status t Executed) g)
               (W_Check (if early : bool then Some (Validation v) else None))
        else
          Next (put_status (tx_idx v) (with_status t Validated) g) (FE_NumAdd v f early))
  | FE_NumAdd v f early =>
      Next (set_sched (set_num_validated (fun k => usize_add k 1)) g)
           (if early : bool then FE_Status v f false else W_Check None)
  | _ => Blocked
  end.

Definition step_try_validate (o : Oracle) (free : TxIdx -> bool) (g : Shared) (p : pc) : sres :=
  let s := sched g in
  match p with
  | W_Validate v => Next g (if read_set_valid o then FV_Mark v else TVA_Lock v)
  | TVA_Lock v =>
      locked free g (tx_idx v) (fun t =>
        match status t with
        | Validated => Next g (TVA_Sub v)
        | Executed => Next (put_status (tx_idx v) (with_status t Aborted) g) (W_Convert v)
        | _ => Next g (FV_Mark v)
        end)
  | TVA_Sub v => Next (set_sched (set_num_validated (fun k => usize_sub k 1)) g) (TVA_Set v)
  | TVA_Set v =>
      held g (tx_idx v) (fun t =>
        Next (put_status (tx_idx v) (with_status t Aborted) g) (W_Convert v))
  | W_Convert v => Next g (FV_Ready v)
  | FV_Ready v =>
      locked free g (tx_idx v) (fun t =>
        Next (put_status (tx_idx v) (mkTxStatus (usize_add (incarnation t) 1) ReadyToExecute) g)
             (FV_LowerVal v))
  | FV_LowerVal v =>
      Next (set_sched (set_validation_idx (fun x => x `min` usize_add (tx_idx v) 1)) g) (FV_LoadExec v)
  | FV_LoadExec v =>
      Next g (if tx_idx v <? execution_idx s then FV_TryExec v else W_Check None)
  | FV_TryExec v =>
      try_exec_at free g (tx_idx v) (fun w => W_Check (Some (Execution w))) (W_Check None)
  | FV_Mark v =>
      locked free g (tx_idx v) (fun t =>
        if bool_decide (status t = Executed)
        then Next (put_status (tx_idx v) (with_status t Validated) g) (FV_NumAdd v)
        else Next g (W_Check None))
  | FV_NumAdd v => Next (set_sched (set_num_validated (fun k => usize_add k 1)) g) (W_Check None)
  | _ => Blocked
  end.

Definition step_try_execute (o : Oracle) (g : Shared) (p : pc) : sres :=
  match p with
  | W_Execute v =>
      match vm_execute o with
      | Vm_Retry => Next g (TE_Retry v)
      | Vm_Fallback => Next g (TE_Abort v FallbackToSequential)
      | Vm_Blocking b => if b <? tx_idx v then Next g (AD_Lock v b) else Blocked
      | Vm_ExecutionError => Next g (TE_Abort v ExecutionError)
      | Vm_Ok f => Next g (TE_Store v f)
      end
  | TE_Retry v =>
      Next g (match abort_reason g with None => W_Execute v | Some _ => W_Check None end)
  | TE_Abort v r => Next (set_sched (set_aborted true) g) (TE_SetReason v r)
  | TE_SetReason v r =>
      Next (mkShared (sched g) (Some (default r (abort_reason g))) (results g)) (W_Check None)
  | TE_Store v f =>
      match results g !! tx_idx v with
      | Some _ =>
          Next (mkShared (sched g) (abort_reason g) (<[tx_idx v:=true]> (results g))) (FE_Lock v f)
      | None => Crash
      end
  | _ => Blocked
  end.

Definition tstep (o : Oracle) (free : TxIdx -> bool) (g : Shared) (p : pc) : sres :=
  match p with
  | NT_Top | NT_LoadExec | NT_LoadVal _ | NT_LoadNum | NT_LoadMin _ | NT_FetchVal
  | NT_InspectVal _ | NT_FetchExec | NT_TryExec _ => step_next_task free g p
  | W_Execute _ | TE_Retry _ | TE_Abort _ _ | TE_SetReason _ _ | TE_Store _ _ =>
      step_try_execute o g p
  | AD_Lock _ _ | AD_SetAborted _ _ | AD_Push _ _ => step_add_dependency free g p
  | FE_Lock _ _ | FE_Ready _ _ _ | FE_MinExec _ _ _ _ | FE_MinVal _ _ | FE_LoadVal _ _ _
  | FE_LowerVal _ _ _ _ | FE_Status _ _ _ | FE_NumAdd _ _ _ => step_finish_execution free g p
  | W_Validate _ | TVA_Lock _ | TVA_Sub _ | TVA_Set _ | W_Convert _ | FV_Ready _
  | FV_LowerVal _ | FV_LoadExec _ | FV_TryExec _ | FV_Mark _ | FV_NumAdd _ =>
      step_try_validate o free g p
  | W_Check next =>
      Next g (match abort_reason g with
              | Some _ => W_Done
              | None => match next with Some t => dispatch t | None => NT_Top end
              end)
  | W_Done => Blocked
  end.

(** ** The whole system *)

Record Global : Type := mkGlobal {
  shared : Shared;
  threads : list pc;
}.

(** No thread holds the mutex of [i]. *)
Definition lock_free (ts : list pc) (i : TxIdx) : bool :=
  forallb (fun p => bool_decide (i ∉ holds p)) ts.

Definition gstep (g : Global) (i : nat) (o : Oracle) : option Global :=
  match threads g !! i with
  | Some p =>
      match tstep o (lock_free (threads g)) (shared g) p with
      | Next sh p' => Some (mkGlobal sh (<[i:=p']> (threads g)))
      | _ => None
      end
  | None => None
  end.

(** [n] transactions, [k] worker threads, before any thread has run. *)
Definition Shared_init (n : nat) : Shared :=
  mkShared (Scheduler_new n) None (replicate n false).
Definition Global_init (n k : nat) : Global :=
  mkGlobal (Shared_init n) (replicate k NT_Top).

Inductive reachable (n k : nat) : Global -> Prop :=
| reach_init : reachable n k (Global_init n k)
| reach_step g i o g' : reachable n k g -> gstep g i o = Some g' -> reachable n k g'.

(** Run a schedule: who moves, and what the EVM and the validation answer. A
    thread that cannot move is skipped. *)
Fixpoint run_schedule (g : Global) (sc : list (nat * Oracle)) : Global :=
  match sc with
  | [] => g
  | (i, o) :: sc' => run_schedule (default g (gstep g i o)) sc'
  end.
