(* ===== verification/WorkersInv.v ===== *)
(** * Invariants of the worker threads

    The inductive invariant of the interleaving semantics of [Workers]: who is
    in charge of a transaction in each status, which mutexes are held, what the
    counters count, and that no transaction that still needs work is lost. *)

From S2P Require Import Prelude Types Scheduler Workers.

(** ** Weights of a program counter

    How much a thread at [p] contributes to each count about transaction [t]. *)

Definition ind (t u : nat) : nat := if decide (t = u) then 1 else 0.
Definition cnt (t : nat) (l : list nat) : nat := sum_list_with (ind t) l.

(** The thread executes [t]: nobody else may move it out of [Executing]. *)
Definition own (t : nat) (p : pc) : nat :=
  match p with
  | W_Execute v | TE_Retry v | TE_Abort v _ | TE_SetReason v _ | TE_Store v _
  | AD_Lock v _ | AD_SetAborted v _ | FE_Lock v _ | FE_Ready v _ _ | FE_MinExec v _ _ _
  | FE_MinVal v _ | FE_LoadVal v _ _ | FE_LowerVal v _ _ _ | FE_Status v _ _
  | W_Check (Some (Execution v)) => ind t (tx_idx v)
  | _ => 0
  end.

(** The thread is going to make the aborted [t] ready, or to enlist it. *)
Definition pend (t : nat) (p : pc) : nat :=
  match p with
  | AD_Push v _ | W_Convert v | FV_Ready v => ind t (tx_idx v)
  | FE_Ready _ _ ds | FE_MinExec _ _ _ ds => cnt t ds
  | _ => 0
  end.

(** The thread is going to try [t], or to lower the execution counter to it. *)
Definition cov (t : nat) (p : pc) : nat :=
  match p with
  | NT_TryExec i => ind t i
  | FE_MinExec _ _ d _ => ind t d
  | FV_LowerVal v | FV_LoadExec v | FV_TryExec v => ind t (tx_idx v)
  | _ => 0
  end.

(** The thread holds the mutex of [t]. *)
Definition lk (t : nat) (p : pc) : nat := cnt t (holds p).

(** Pending updates of [num_validated]. *)
Definition pinc (t : nat) (p : pc) : nat :=
  match p with FV_NumAdd v => ind t (tx_idx v) | _ => 0 end.
Definition pdec (t : nat) (p : pc) : nat :=
  match p with TVA_Set v => ind t (tx_idx v) | _ => 0 end.

(** The transaction has status [s] in [l]: 1, else 0. *)
Definition st_is (s : IncarnationStatus) (l : list TxStatus) (t : nat) : nat :=
  match l !! t with
  | Some x => if decide (status x = s) then 1 else 0
  | None => 0
  end.

Definition finished_at (l : list TxStatus) (t : nat) : Prop :=
  exists x, l !! t = Some x /\ is_finished (status x) = true.

Definition unfinished_at (l : list TxStatus) (t : nat) : Prop :=
  exists x, l !! t = Some x /\ is_finished (status x) = false.

(** ** What holds of a thread at [p] *)

(** Its indices are inside the block, and blockers are below. *)
Definition pc_ok (n : nat) (p : pc) : Prop :=
  match p with
  | NT_InspectVal i => i < n
  | W_Execute v | W_Validate v | TE_Retry v | TE_Abort v _ | TE_SetReason v _ | TE_Store v _
  | FE_Lock v _ | FE_MinVal v _ | FE_LoadVal v _ _ | FE_LowerVal v _ _ _ | FE_Status v _ _
  | TVA_Lock v | TVA_Sub v | TVA_Set v | W_Convert v | FV_Ready v | FV_LowerVal v
  | FV_LoadExec v | FV_TryExec v | FV_Mark v | FV_NumAdd v
  | W_Check (Some (Execution v)) | W_Check (Some (Validation v)) => tx_idx v < n
  | AD_Lock v b | AD_SetAborted v b | AD_Push v b => b < tx_idx v < n
  | FE_Ready v _ ds => tx_idx v < n /\ Forall (fun d => tx_idx v < d < n) ds
  | FE_MinExec v _ d ds => tx_idx v < d < n /\ Forall (fun d => tx_idx v < d < n) ds
  | FE_NumAdd _ _ _ => False
  | _ => True
  end.

(** The version it executes, if it is in charge of one. *)
Definition version_of (p : pc) : option TxVersion :=
  match p with
  | W_Execute v | TE_Retry v | TE_Abort v _ | TE_SetReason v _ | TE_Store v _
  | AD_Lock v _ | AD_SetAborted v _ | FE_Lock v _ | FE_Ready v _ _ | FE_MinExec v _ _ _
  | FE_MinVal v _ | FE_LoadVal v _ _ | FE_LowerVal v _ _ _ | FE_Status v _ _
  | W_Check (Some (Execution v)) => Some v
  | _ => None
  end.

Definition executing_at (s : Scheduler) (v : TxVersion) : Prop :=
  tx_status s !! tx_idx v = Some (mkTxStatus (tx_incarnation v) Executing).

(** Facts a thread keeps about the shared state while it holds a mutex or is in
    charge of a transaction. *)
Definition pc_inv (g : Shared) (p : pc) : Prop :=
  let s := sched g in
  (forall v, version_of p = Some v -> executing_at s v) /\
  match p with
  | TVA_Sub v | TVA_Set v | FV_NumAdd v => st_is Validated (tx_status s) (tx_idx v) = 1
  | AD_SetAborted _ b | AD_Push _ b => unfinished_at (tx_status s) b
  | FE_Lock v _ => results g !! tx_idx v = Some true
  | FE_Ready v _ _ | FE_MinExec v _ _ _ | FE_MinVal v _ =>
      results g !! tx_idx v = Some true /\ tx_dependency s !! tx_idx v = Some []
  | FE_LoadVal v _ _ | FE_LowerVal v _ _ _ | FE_Status v _ _ =>
      results g !! tx_idx v = Some true /\ tx_dependency s !! tx_idx v = Some [] /\
      min_validation_idx s <= tx_idx v
  | _ => True
  end.

(** ** The invariant *)

Record Inv (n : nat) (g : Global) : Prop := mkInv {
  inv_size : (Z.of_nat n < 2 ^ 64)%Z;
  inv_block : block_size (sched (shared g)) = n;
  inv_len_status : length (tx_status (sched (shared g))) = n;
  inv_len_dep : length (tx_dependency (sched (shared g))) = n;
  inv_len_res : length (results (shared g)) = n;
  inv_min_le : min_validation_idx (sched (shared g)) <= n;
  inv_pc : forall i p, threads g !! i = Some p -> pc_ok n p /\ pc_inv (shared g) p;
  inv_lock : forall t, sum_list_with (lk t) (threads g) <= 1;
  inv_own : forall t,
    sum_list_with (own t) (threads g) <= st_is Executing (tx_status (sched (shared g))) t /\
    (abort_reason (shared g) = None ->
     sum_list_with (own t) (threads g) = st_is Executing (tx_status (sched (shared g))) t);
  inv_wait : forall t,
    sum_list_with (cnt t) (tx_dependency (sched (shared g))) +
      sum_list_with (pend t) (threads g) = st_is Aborted (tx_status (sched (shared g))) t;
  inv_dep_range : forall b l, tx_dependency (sched (shared g)) !! b = Some l ->
    Forall (fun d => b < d < n) l;
  inv_dep_open : forall b d l, tx_dependency (sched (shared g)) !! b = Some (d :: l) ->
    unfinished_at (tx_status (sched (shared g))) b;
  inv_ready : forall t, st_is ReadyToExecute (tx_status (sched (shared g))) t = 1 ->
    execution_idx (sched (shared g)) <= t \/ 0 < sum_list_with (cov t) (threads g);
  inv_done : forall t, finished_at (tx_status (sched (shared g))) t ->
    results (shared g) !! t = Some true /\ min_validation_idx (sched (shared g)) <= t;
}.

(** What the moving thread may rely on. *)
Record Facts (n : nat) (g : Shared) (p : pc) : Prop := mkFacts {
  f_size : (Z.of_nat n < 2 ^ 64)%Z;
  f_block : block_size (sched g) = n;
  f_len_status : length (tx_status (sched g)) = n;
  f_len_dep : length (tx_dependency (sched g)) = n;
  f_len_res : length (results g) = n;
  f_ok : pc_ok n p;
  f_inv : pc_inv g p;
  f_pend : forall t, pend t p <= st_is Aborted (tx_status (sched g)) t;
  f_dep_range : forall b l, tx_dependency (sched g) !! b = Some l -> Forall (fun d => b < d < n) l;
}.

Lemma Inv_facts (n : nat) (g : Global) (i : nat) (p : pc) :
  Inv n g -> threads g !! i = Some p -> Facts n (shared g) p.
Proof.
  intros HI Hp. destruct (inv_pc _ _ HI _ _ Hp) as [Hok Hinv].
  constructor; try apply HI; try done.
  intros t. pose proof (inv_wait _ _ HI t).
  pose proof (sum_list_with_elem_le (pend t) _ _ _ Hp). lia.
Qed.

(** ** Counting lemmas *)

Lemma ind_eq (t : nat) : ind t t = 1.
Proof. unfold ind. by case_decide. Qed.

Lemma ind_ne (t u : nat) : t ≠ u -> ind t u = 0.
Proof. unfold ind. by case_decide. Qed.

Lemma ind_pos (t u : nat) : 0 < ind t u -> t = u.
Proof. unfold ind. case_decide; [done|lia]. Qed.

Lemma cnt_app (t : nat) (l k : list nat) : cnt t (l ++ k) = cnt t l + cnt t k.
Proof. unfold cnt. induction l; simpl; lia. Qed.

Lemma cnt_pos (t : nat) (l : list nat) : 0 < cnt t l <-> t ∈ l.
Proof.
  unfold cnt. induction l as [|u l IH]; simpl.
  - rewrite elem_of_nil. lia.
  - rewrite elem_of_cons, <- IH. unfold ind. case_decide; [subst|]; intuition (lia || congruence).
Qed.

Lemma st_is_insert (s : IncarnationStatus) (l : list TxStatus) (i t : nat) (x y : TxStatus) :
  l !! i = Some y ->
  st_is s (<[i:=x]> l) t =
  if decide (t = i) then (if decide (status x = s) then 1 else 0) else st_is s l t.
Proof.
  intros Hi. unfold st_is. case_decide as Ht; [subst|].
  - rewrite list_lookup_insert_eq by (by eapply lookup_lt_Some). done.
  - by rewrite list_lookup_insert_ne by done.
Qed.

Lemma st_is_lookup (s : IncarnationStatus) (l : list TxStatus) (t : nat) (x : TxStatus) :
  l !! t = Some x -> st_is s l t = if decide (status x = s) then 1 else 0.
Proof. intros Ht. unfold st_is. by rewrite Ht. Qed.

Lemma st_is_le (s : IncarnationStatus) (l : list TxStatus) (t : nat) : st_is s l t <= 1.
Proof. unfold st_is. repeat case_match; lia. Qed.

Lemma st_is_1 (s : IncarnationStatus) (l : list TxStatus) (t : nat) :
  st_is s l t = 1 <-> exists x, l !! t = Some x /\ status x = s.
Proof.
  unfold st_is. split.
  - destruct (l !! t) as [x|]; [|done]. case_decide; [|done]. eauto.
  - intros (x & -> & Hx). by rewrite decide_True.
Qed.

(** Two statuses exclude each other. *)
Lemma st_is_excl (s s' : IncarnationStatus) (l : list TxStatus) (t : nat) :
  s ≠ s' -> st_is s l t = 1 -> st_is s' l t = 0.
Proof.
  intros Hne (x & Hx & Hs)%st_is_1. unfold st_is. rewrite Hx, decide_False; [done|congruence].
Qed.

Lemma lock_free_sum (ts : list pc) (t : nat) :
  lock_free ts t = true <-> sum_list_with (lk t) ts = 0.
Proof.
  unfold lock_free. induction ts as [|p ts IH]; simpl; [done|].
  rewrite andb_true_iff, IH, bool_decide_eq_true. change (lk t p) with (cnt t (holds p)).
  pose proof (cnt_pos t (holds p)) as Hc.
  destruct (decide (t ∈ holds p)) as [He|He].
  - apply Hc in He as Hpos. split; [tauto|lia].
  - rewrite <- Hc in He. split; [intros [_ ?]; lia|]. intros ?. rewrite <- Hc. lia.
Qed.

(** ** Case analysis on a transition *)

(** Split a successful transition into its cases. *)
Ltac step_cases H :=
  match type of H with
  | tstep _ _ _ ?p = Next _ _ =>
      destruct p; cbn [tstep step_next_task step_add_dependency step_finish_execution
        step_try_validate step_try_execute] in H; try discriminate H;
      unfold try_exec_at, locked, held in H; repeat case_match; simplify_eq;
      try match goal with t : Task |- _ => destruct t end
  end.

(** Bring the hypotheses about statuses, flags and locks to a usable form. *)
Ltac step_norm :=
  repeat match goal with
  | H : bool_decide _ = true |- _ => apply bool_decide_eq_true in H
  | H : bool_decide _ = false |- _ => apply bool_decide_eq_false in H
  | H : (_ && _)%bool = true |- _ => apply andb_true_iff in H as [? ?]
  | H : (_ =? _)%nat = true |- _ => apply Nat.eqb_eq in H
  | H : (_ <? _)%nat = true |- _ => apply Nat.ltb_lt in H
  | H : (_ <? _)%nat = false |- _ => apply Nat.ltb_ge in H
  | H : flags_contains _ NeedValidation = false |- _ =>
      rewrite contains_NeedValidation in H; discriminate H
  end.

(** Reduce the projections of an updated state. *)
Ltac proj :=
  cbn [own pend cov lk pinc pdec holds dispatch sched abort_reason results set_sched put_status
       set_tx_status set_tx_dependency set_execution_idx set_validation_idx
       set_min_validation_idx set_num_validated set_aborted tx_status tx_dependency
       execution_idx validation_idx min_validation_idx num_validated aborted block_size
       tx_idx tx_incarnation version_of pc_ok threads shared] in *.

(** Unpack the facts about the moving thread. *)
Ltac facts F :=
  destruct F as [Hsize Hblock Hls Hld Hlr Hok Hinv Hpend Hrng];
  destruct Hinv as [Hver Hinv]; proj;
  try (specialize (Hver _ eq_refl); unfold executing_at in Hver).

(** Evaluate a status test on an updated status vector, or on a known entry. *)
Ltac st_rewrite :=
  repeat match goal with
  | H : tx_status _ !! ?i = Some ?y |- context [st_is ?s (<[?i:=?x]> ?l) ?t] =>
      rewrite (st_is_insert s l i t x y H)
  | H : tx_status _ !! ?i = Some ?y, K : context [st_is ?s (<[?i:=?x]> ?l) ?t] |- _ =>
      rewrite (st_is_insert s l i t x y H) in K
  end.

Ltac st_known :=
  repeat match goal with
  | H : tx_status _ !! ?i = Some _ |- context [st_is ?s ?l ?i] => rewrite (st_is_lookup s l i _ H)
  | H : tx_status _ !! ?i = Some _, K : context [st_is ?s ?l ?i] |- _ =>
      rewrite (st_is_lookup s l i _ H) in K
  end.

(** Decide a goal about the counts of transaction [t]. *)
Ltac count t :=
  try match goal with H : forall u, _ <= st_is Aborted _ u |- _ => specialize (H t) end;
  proj; st_rewrite; unfold ind in *; repeat case_match; subst; try congruence;
  proj; unfold cnt, ind in *; simpl in *; repeat case_match; subst; try congruence; st_known;
  cbn [status with_status incarnation] in *;
  repeat case_decide; subst; simplify_eq/=; try congruence; try lia.

(** ** Local effect of a transition on each count *)

Section Step.
Context (n : nat) (o : Oracle) (free : TxIdx -> bool) (g g' : Shared) (p p' : pc).
Context (F : Facts n g p) (H : tstep o free g p = Next g' p').

Lemma own_step (t : nat) :
  own t p' + st_is Executing (tx_status (sched g)) t <=
    own t p + st_is Executing (tx_status (sched g')) t /\
  (abort_reason g' = None ->
   own t p' + st_is Executing (tx_status (sched g)) t =
    own t p + st_is Executing (tx_status (sched g')) t).
Proof using F H. step_cases H; step_norm; facts F; (split; [|intros Hr]); count t. Qed.

Lemma wait_step (t : nat) :
  sum_list_with (cnt t) (tx_dependency (sched g')) + pend t p' +
    st_is Aborted (tx_status (sched g)) t =
  sum_list_with (cnt t) (tx_dependency (sched g)) + pend t p +
    st_is Aborted (tx_status (sched g')) t.
Proof using F H.
  step_cases H; step_norm; facts F;
  try match goal with K : tx_dependency _ !! ?i = Some ?x |- context [<[?i:=?y]> (tx_dependency _)] =>
      pose proof (sum_list_with_insert (cnt t) _ i x y K); rewrite ?cnt_app in * end; count t.
Qed.

Lemma lk_step (t : nat) : lk t p' <= lk t p \/ (free t = true /\ lk t p' <= 1).
Proof using F H.
  step_cases H; step_norm; facts F; unfold lk; proj; try (left; lia);
    unfold cnt, ind; simpl; repeat case_match; subst; try (left; lia); try (right; split; [done|lia]).
Qed.

(** Without the mutex of [t], its status and dependents stay as they are. *)
Lemma frame_step (t : nat) :
  free t = false -> lk t p = 0 ->
  tx_status (sched g') !! t = tx_status (sched g) !! t /\
  tx_dependency (sched g') !! t = tx_dependency (sched g) !! t.
Proof using F H.
  intros Hfree Hlk. unfold lk in Hlk.
  step_cases H; step_norm; facts F; try done; unfold cnt, ind in Hlk; simpl in Hlk;
    repeat case_match; try lia; rewrite ?list_lookup_insert_ne by congruence; done.
Qed.

(** A transaction being executed is only moved by the thread in charge. *)
Lemma own_frame (t : nat) (x : TxStatus) :
  tx_status (sched g) !! t = Some x -> status x = Executing -> own t p = 0 ->
  tx_status (sched g') !! t = Some x.
Proof using F H.
  intros Hx Hs Hown. specialize (f_pend _ _ _ F t) as Hp. rewrite (st_is_lookup _ _ _ _ Hx) in Hp.
  rewrite decide_False in Hp by congruence.
  step_cases H; step_norm; facts F; try done;
    match goal with |- <[?i:=_]> _ !! _ = _ => destruct (decide (t = i)); [subst|] end;
    rewrite ?list_lookup_insert_ne by congruence; try done; exfalso;
    unfold cnt in Hp; rewrite ?ind_eq in *; simpl in Hp; rewrite ?ind_eq in *; try lia; try congruence.
  st_known. case_decide; congruence.
Qed.

Lemma sizes_step :
  block_size (sched g') = n /\ length (tx_status (sched g')) = n /\
  length (tx_dependency (sched g')) = n /\ length (results g') = n.
Proof using F H.
  step_cases H; destruct F; proj; rewrite ?length_insert; done.
Qed.

Lemma mono_step :
  min_validation_idx (sched g') <= min_validation_idx (sched g) /\
  (forall t, results g !! t = Some true -> results g' !! t = Some true) /\
  (abort_reason g = None \/ is_Some (abort_reason g')) /\
  (aborted (sched g) = true -> aborted (sched g') = true).
Proof using F H.
  step_cases H; proj; split_and!; try lia; try done; try (by destruct (abort_reason _); eauto).
  intros t Ht. destruct (decide (t = tx_idx v)) as [->|Hne].
  - rewrite list_lookup_insert_eq; [done|]. by eapply lookup_lt_Some.
  - by rewrite list_lookup_insert_ne.
Qed.

Lemma pc_ok_step : pc_ok n p'.
Proof using F H.
  step_cases H; step_norm; facts F; try done; try lia; try (split; lia);
    repeat match goal with
    | K : tx_dependency _ !! _ = Some _ |- _ => apply Hrng in K
    | K : Forall _ (_ :: _) |- _ => inversion K; subst; clear K
    | K : _ /\ _ |- _ => destruct K
    end; try done; try lia; split; (done || lia || (by auto)).
Qed.

Lemma ready_step (t : nat) (X : Prop) :
  t < n ->
  (st_is ReadyToExecute (tx_status (sched g)) t = 1 ->
   execution_idx (sched g) <= t \/ 0 < cov t p \/ X) ->
  st_is ReadyToExecute (tx_status (sched g')) t = 1 ->
  execution_idx (sched g') <= t \/ 0 < cov t p' \/ X.
Proof using F H.
  intros Ht Hold Hnew.
  step_cases H; step_norm; facts F; st_rewrite; unfold ind in *; repeat case_match; subst;
    st_known; repeat case_decide; try lia; try done; try (by apply Hold); try (by auto);
    pose proof (usize_add_le (execution_idx (sched g)));
    destruct (Hold Hnew) as [?|[?|?]]; auto; left; lia.
Qed.

Lemma unfinished_insert (l : list TxStatus) (i t : nat) (x y : TxStatus) :
  l !! i = Some y -> is_finished (status x) = false ->
  unfinished_at l t -> unfinished_at (<[i:=x]> l) t.
Proof using.
  intros Hi Hx (z & Hz & Hs). destruct (decide (t = i)) as [->|Hne].
  - exists x. split; [|done]. rewrite list_lookup_insert_eq; [done|]. by eapply lookup_lt_Some.
  - exists z. by rewrite list_lookup_insert_ne.
Qed.

(** The facts the moving thread needs at its new program counter. *)
Lemma pc_inv_step : pc_inv g' p'.
Proof using F H.
  step_cases H; step_norm; facts F; split; try done; proj;
    try (intros w Hw; simplify_eq/=; unfold executing_at; proj;
         rewrite ?list_lookup_insert_eq, ?list_lookup_insert_ne by
           (try (by eapply lookup_lt_Some); lia || congruence); done).
  - rewrite list_lookup_insert_eq; [done|]. by eapply lookup_lt_Some.
  - by eexists.
  - by eapply unfinished_insert.
  - split; [done|]. rewrite list_lookup_insert_eq; [done|]. by eapply lookup_lt_Some.
  - intros w Hw. simplify_eq. unfold executing_at; proj. destruct Hok as [_ Hds].
    inversion Hds; subst. by rewrite list_lookup_insert_ne by lia.
  - destruct Hinv as [? ?]. split_and!; try done. lia.
  - st_known. by rewrite decide_True.
  - st_rewrite. rewrite !decide_True; done.
Qed.

(** The facts of another thread survive the transition. *)
Lemma pc_inv_stable (q : pc) :
  (forall t, 0 < lk t q -> free t = false /\ lk t p = 0) ->
  (forall t, 0 < own t q -> own t p = 0) ->
  pc_inv g q -> pc_inv g' q.
Proof using F H.
  intros Hlk Hown [Hver Hq]. destruct mono_step as (Hmin & Hres & _). split.
  - intros v Hv. specialize (Hver v Hv). eapply own_frame; [done..|]. apply Hown.
    destruct q as [| | | | | | | | | | |[[]|]| | | | | | | | | | | | | | | | | | | | | | | | | |];
      simplify_eq/=; rewrite ind_eq; lia.
  - assert (Hst : forall t, 0 < lk t q ->
      tx_status (sched g') !! t = tx_status (sched g) !! t /\
      tx_dependency (sched g') !! t = tx_dependency (sched g) !! t).
    { intros t Ht. destruct (Hlk t Ht). by apply frame_step. }
    assert (Hheld : forall t l, holds q = t :: l -> 0 < lk t q).
    { intros t l Hl. unfold lk, cnt. rewrite Hl. simpl. rewrite ind_eq. lia. }
    destruct q; try done; try specialize (Hst _ (Hheld _ _ eq_refl)) as [Hst Hdep];
      unfold st_is, unfinished_at in *; rewrite ?Hst, ?Hdep;
      repeat match goal with K : _ /\ _ |- _ => destruct K end; split_and?; auto; lia.
Qed.

Lemma dep_range_step (b : nat) (l : list nat) :
  tx_dependency (sched g') !! b = Some l -> Forall (fun d => b < d < n) l.
Proof using F H.
  intros Hl. step_cases H; step_norm; facts F; try (by eapply Hrng);
    apply lookup_insert_cases in Hl as [(-> & -> & _)|[_ Hl]]; try (by eapply Hrng); try done.
  apply Forall_app. split; [by eapply Hrng|]. by repeat constructor; lia.
Qed.

Lemma dep_open_step :
  (forall b d l, tx_dependency (sched g) !! b = Some (d :: l) -> unfinished_at (tx_status (sched g)) b) ->
  forall b d l, tx_dependency (sched g') !! b = Some (d :: l) -> unfinished_at (tx_status (sched g')) b.
Proof using F H.
  intros Hold b d l Hl.
  assert (Hkeep : forall i x, b ≠ i -> unfinished_at (tx_status (sched g)) b ->
    unfinished_at (<[i:=x]> (tx_status (sched g))) b).
  { intros i x Hne (y & Hy & Hs). exists y. by rewrite list_lookup_insert_ne. }
  step_cases H; step_norm; facts F; try (by eapply Hold);
    try (eapply unfinished_insert; [done..|by eapply Hold]).
  - by apply lookup_insert_cases in Hl as [(-> & _ & _)|[_ Hl]]; [|eapply Hold].
  - apply lookup_insert_cases in Hl as [(_ & ? & _)|[_ Hl]]; [done|by eapply Hold].
  - apply Hkeep; [by intros ->; destruct Hinv as (_ & ? & _); congruence|by eapply Hold].
  - apply Hkeep; [by intros ->; destruct Hinv as (_ & ? & _); congruence|by eapply Hold].
  - apply Hkeep; [|by eapply Hold]. intros ->. destruct (Hold _ _ _ Hl) as (x & Hx & Hs).
    simplify_eq. by rewrite H2 in Hs.
Qed.

Lemma done_step :
  (forall t, finished_at (tx_status (sched g)) t ->
    results g !! t = Some true /\ min_validation_idx (sched g) <= t) ->
  forall t, finished_at (tx_status (sched g')) t ->
    results g' !! t = Some true /\ min_validation_idx (sched g') <= t.
Proof using F H.
  intros Hold t Hfin. destruct mono_step as (Hmin & Hres & _).
  assert (Hkeep : finished_at (tx_status (sched g)) t ->
    results g' !! t = Some true /\ min_validation_idx (sched g') <= t).
  { intros Ht. destruct (Hold t Ht). split; [by apply Hres|lia]. }
  step_cases H; step_norm; facts F; try (by apply Hkeep);
    destruct Hfin as (x & Hx & Hf);
    apply lookup_insert_cases in Hx as [(-> & -> & _)|[_ Hx]]; try discriminate Hf;
    try (by apply Hkeep; eexists); try (by destruct Hinv as (? & _ & ?)).
  apply Hkeep. exists t0. split; [done|]. by rewrite H2.
Qed.

End Step.

(** ** The invariant holds in every reachable state *)

Lemma Inv_init (n k : nat) : (Z.of_nat n < 2 ^ 64)%Z -> Inv n (Global_init n k).
Proof.
  intros Hn.
  assert (Hst : forall t x, replicate n (mkTxStatus 0 ReadyToExecute) !! t = Some x ->
    x = mkTxStatus 0 ReadyToExecute) by (intros t x Hx; by apply lookup_replicate in Hx as [-> _]).
  assert (Hthr : forall (f : pc -> nat), f NT_Top = 0 -> sum_list_with f (replicate k NT_Top) = 0).
  { intros f Hf. apply sum_list_with_zero. intros i x Hx. by apply lookup_replicate in Hx as [-> _]. }
  assert (Hdep : forall b l, replicate n (@nil nat) !! b = Some l -> l = []).
  { intros b l Hl. by apply lookup_replicate in Hl as [-> _]. }
  constructor; cbn; try done; try (by apply length_replicate).
  - intros i p Hp. apply lookup_replicate in Hp as [-> _]. done.
  - intros t. rewrite (Hthr (lk t)) by done. lia.
  - intros t. rewrite (Hthr (own t)) by done. unfold st_is.
    destruct (replicate n _ !! t) as [x|] eqn:Hx; [apply Hst in Hx as ->; cbn|]; split; (done || lia).
  - intros t. rewrite (Hthr (pend t)) by done. rewrite sum_list_with_zero.
    + unfold st_is. destruct (replicate n _ !! t) as [x|] eqn:Hx; [by apply Hst in Hx as ->|done].
    + intros i x Hx. by apply Hdep in Hx as ->.
  - intros b l Hl. by apply Hdep in Hl as ->.
  - intros b d l Hl. by apply Hdep in Hl.
  - intros t _. lia.
  - intros t (x & Hx & Hf). by apply Hst in Hx as ->.
Qed.

Lemma gstep_inv (g : Global) (i : nat) (o : Oracle) (g' : Global) :
  gstep g i o = Some g' -> exists p sh p',
    threads g !! i = Some p /\ tstep o (lock_free (threads g)) (shared g) p = Next sh p' /\
    g' = mkGlobal sh (<[i:=p']> (threads g)).
Proof.
  unfold gstep. intros Hg. destruct (threads g !! i) as [p|] eqn:Hp; [|done].
  destruct (tstep _ _ _ p) as [| |sh p'] eqn:Ht; simplify_eq. eauto 10.
Qed.

(** Another thread holds no mutex that is free, and none that the mover holds. *)
Lemma other_locks (n : nat) (g : Global) (i j : nat) (p q : pc) (t : nat) :
  Inv n g -> threads g !! i = Some p -> threads g !! j = Some q -> i ≠ j ->
  0 < lk t q -> lock_free (threads g) t = false /\ lk t p = 0.
Proof.
  intros HI Hp Hq Hij Hl. split.
  - destruct (lock_free (threads g) t) eqn:Hf; [|done]. apply lock_free_sum in Hf.
    pose proof (sum_list_with_elem_le (lk t) _ _ _ Hq). lia.
  - pose proof (sum_list_with_two_le (lk t) _ _ _ _ _ Hij Hp Hq). pose proof (inv_lock _ _ HI t). lia.
Qed.

Lemma other_own (n : nat) (g : Global) (i j : nat) (p q : pc) (t : nat) :
  Inv n g -> threads g !! i = Some p -> threads g !! j = Some q -> i ≠ j ->
  0 < own t q -> own t p = 0.
Proof.
  intros HI Hp Hq Hij Hl. destruct (inv_own _ _ HI t) as [Hle _].
  pose proof (sum_list_with_two_le (own t) _ _ _ _ _ Hij Hp Hq).
  pose proof (st_is_le Executing (tx_status (sched (shared g))) t). lia.
Qed.

(** A sum over the threads that one thread does not account for is due to another. *)
Lemma sum_other (f : pc -> nat) (ts : list pc) (i : nat) (p p' : pc) :
  ts !! i = Some p -> f p < sum_list_with f ts -> 0 < sum_list_with f (<[i:=p']> ts).
Proof. intros Hp Hlt. pose proof (sum_list_with_insert f ts i p p' Hp). lia. Qed.

Lemma Inv_step (n : nat) (g : Global) (i : nat) (o : Oracle) (g' : Global) :
  Inv n g -> gstep g i o = Some g' -> Inv n g'.
Proof.
  intros HI (p & sh & p' & Hp & Ht & ->)%gstep_inv.
  pose proof (Inv_facts _ _ _ _ HI Hp) as F.
  pose proof (fun f => sum_list_with_insert f _ _ _ p' Hp) as Hsum.
  destruct (sizes_step _ _ _ _ _ _ _ F Ht) as (Hb & Hls & Hld & Hlr).
  destruct (mono_step _ _ _ _ _ _ _ F Ht) as (Hmin & Hres & Hreason & _).
  constructor; cbn [shared threads]; try done.
  - apply HI.
  - pose proof (inv_min_le _ _ HI). lia.
  - intros j q Hq. apply lookup_insert_cases in Hq as [(-> & -> & _)|[Hne Hq]].
    + split; [eapply pc_ok_step; eauto|eapply pc_inv_step; eauto].
    + destruct (inv_pc _ _ HI _ _ Hq) as [Hok Hinv]. split; [done|].
      eapply (pc_inv_stable _ _ _ _ _ _ _ F Ht q); [intros u|intros u|done].
      * by eapply other_locks.
      * by eapply other_own.
  - intros t. specialize (Hsum (lk t)). pose proof (inv_lock _ _ HI t).
    destruct (lk_step _ _ _ _ _ _ _ F Ht t) as [?|[Hfree ?]]; [lia|].
    apply lock_free_sum in Hfree. lia.
  - intros t. specialize (Hsum (own t)). destruct (inv_own _ _ HI t) as [Hle Heq].
    destruct (own_step _ _ _ _ _ _ _ F Ht t) as [Hle' Heq']. split; [lia|]. intros Hr.
    specialize (Heq' Hr). destruct Hreason as [Hr'|[r Hr']]; [|congruence]. specialize (Heq Hr'). lia.
  - intros t. specialize (Hsum (pend t)). pose proof (inv_wait _ _ HI t).
    pose proof (wait_step _ _ _ _ _ _ _ F Ht t). lia.
  - intros b l. eapply dep_range_step; eauto.
  - eapply dep_open_step; eauto. apply HI.
  - intros t Hrdy. assert (Htn : t < n).
    { apply st_is_1 in Hrdy as (x & Hx & _). apply lookup_lt_Some in Hx. lia. }
    assert (Hold := inv_ready _ _ HI t). pose proof (Hsum (cov t)) as Hc.
    pose proof (sum_list_with_elem_le (cov t) _ _ _ Hp).
    destruct (ready_step _ _ _ _ _ _ _ F Ht t
      (cov t p < sum_list_with (cov t) (threads g)) Htn) as [?|[?|?]]; [|done|by left|right; lia|].
    + intros Hr. destruct (Hold Hr); [by left|right]. destruct (decide (0 < cov t p)); [by left|right; lia].
    + right. by eapply sum_other.
  - eapply done_step; eauto. apply HI.
Qed.

Lemma reachable_Inv (n k : nat) (g : Global) :
  (Z.of_nat n < 2 ^ 64)%Z -> reachable n k g -> Inv n g.
Proof. intros Hn. induction 1; [by apply Inv_init|by eapply Inv_step]. Qed.
