(* ===== verification/WorkersSafety.v ===== *)
(** * What the workers guarantee

    Consequences of the invariant of [WorkersInv] for every interleaving:
    memory safety of the unchecked accesses, mutual exclusion, the meaning of
    [num_validated], freedom from deadlock, and that the workers only stop when
    the block is completely executed and validated. *)

From S2P Require Import Prelude Types Scheduler Workers WorkersInv.

(** ** What [num_validated] counts *)

Definition count_validated (l : list TxStatus) : nat :=
  sum_list_with (fun x => if decide (status x = Validated) then 1 else 0) l.

(** A thread about to add one, or that has taken one off but not yet changed the
    status. *)
Definition pnum (p : pc) : nat :=
  match p with FV_NumAdd _ | TVA_Set _ => 1 | _ => 0 end.

(** A thread holding the mutex of the validated [t] in order to move it. *)
Definition vkey (t : nat) (p : pc) : nat :=
  match p with
  | FV_NumAdd v | TVA_Set v | TVA_Sub v => ind t (tx_idx v)
  | _ => 0
  end.

Definition num_ok (g : Global) : Prop :=
  num_validated (sched (shared g)) + sum_list_with pnum (threads g) =
  count_validated (tx_status (sched (shared g))).

Lemma sum_list_with_exchange {A B : Type} (f : A -> B -> nat) (l : list A) (k : list B) :
  sum_list_with (fun a => sum_list_with (f a) k) l =
  sum_list_with (fun b => sum_list_with (fun a => f a b) l) k.
Proof.
  induction l as [|a l IH]; simpl.
  - induction k; simpl; auto.
  - rewrite IH. clear IH. induction k as [|b k IH]; simpl; [done|]. lia.
Qed.

Lemma sum_list_with_le {A : Type} (f h : A -> nat) (l : list A) :
  (forall x, x ∈ l -> f x <= h x) -> sum_list_with f l <= sum_list_with h l.
Proof.
  induction l as [|a l IH]; simpl; intros Hle; [done|].
  pose proof (Hle a ltac:(left)). pose proof (IH ltac:(intros x Hx; apply Hle; by right)). lia.
Qed.

Lemma sum_list_with_fmap {A B : Type} (f : B -> nat) (h : A -> B) (l : list A) :
  sum_list_with f (h <$> l) = sum_list_with (fun a => f (h a)) l.
Proof. induction l; simpl; auto. Qed.

Lemma count_validated_seq (l : list TxStatus) :
  count_validated l = sum_list_with (st_is Validated l) (seq 0 (length l)).
Proof.
  unfold count_validated. induction l as [|x l IH]; [done|]. cbn [length seq sum_list_with].
  rewrite IH, <- fmap_S_seq, sum_list_with_fmap. done.
Qed.

Lemma sum_ind_seq (u j n : nat) : j <= u < j + n -> sum_list_with (fun t => ind t u) (seq j n) = 1.
Proof.
  revert j. induction n as [|n IH]; intros j Hu; [lia|]. simpl.
  destruct (decide (j = u)) as [->|Hne].
  - rewrite ind_eq. f_equal. apply sum_list_with_zero. intros i x Hx.
    apply list_elem_of_lookup_2, elem_of_seq in Hx. apply ind_ne. lia.
  - rewrite ind_ne by done. apply IH. lia.
Qed.

Lemma vkey_le_lk (t : nat) (p : pc) : vkey t p <= lk t p.
Proof. destruct p; simpl; unfold lk, cnt; simpl; lia. Qed.

Lemma vkey_validated (n : nat) (g : Global) (t : nat) :
  Inv n g -> sum_list_with (vkey t) (threads g) <= st_is Validated (tx_status (sched (shared g))) t.
Proof.
  intros HI. destruct (decide (sum_list_with (vkey t) (threads g) = 0)) as [->|Hne]; [lia|].
  destruct (sum_list_with_pos (vkey t) (threads g)) as (i & p & Hp & Hpos); [lia|].
  destruct (inv_pc _ _ HI _ _ Hp) as [_ [_ Hv]].
  pose proof (inv_lock _ _ HI t).
  pose proof (sum_list_with_le (vkey t) (lk t) (threads g) (fun q _ => vkey_le_lk t q)).
  destruct p; simpl in *; try lia; apply ind_pos in Hpos as ->; lia.
Qed.

(** The threads that hold the mutex of a validated transaction in order to move
    it are at most as many as the validated transactions. *)
Lemma movers_le_validated (n : nat) (g : Global) :
  Inv n g ->
  sum_list_with (fun p => sum_list_with (fun t => vkey t p) (seq 0 n)) (threads g) <=
  count_validated (tx_status (sched (shared g))).
Proof.
  intros HI. rewrite count_validated_seq, sum_list_with_exchange.
  rewrite (inv_len_status n g HI).
  apply sum_list_with_le. intros t _. by apply (vkey_validated n).
Qed.

Lemma pnum_vkey (n : nat) (p : pc) :
  pc_ok n p -> pnum p + match p with TVA_Sub _ => 1 | _ => 0 end =
  sum_list_with (fun t => vkey t p) (seq 0 n).
Proof.
  intros Hok. assert (Hz : sum_list_with (fun _ : nat => 0) (seq 0 n) = 0)
    by (by apply sum_list_with_zero).
  destruct p; cbn [pnum vkey]; rewrite ?Hz; try done; simpl in Hok; rewrite sum_ind_seq; lia.
Qed.

(** Taking one off [num_validated] never goes below zero. *)
Lemma num_positive (n : nat) (g : Global) (i : nat) (v : TxVersion) :
  Inv n g -> num_ok g -> threads g !! i = Some (TVA_Sub v) ->
  1 <= num_validated (sched (shared g)).
Proof.
  intros HI Hnum Hp. unfold num_ok in Hnum. pose proof (movers_le_validated _ _ HI) as Hm.
  assert (Hs : sum_list_with pnum (threads g) + 1 <=
    sum_list_with (fun p => sum_list_with (fun t => vkey t p) (seq 0 n)) (threads g)).
  { pose proof (sum_list_with_insert pnum _ _ _ W_Done Hp) as H1.
    pose proof (sum_list_with_insert
      (fun p => sum_list_with (fun t => vkey t p) (seq 0 n)) _ _ _ W_Done Hp) as H2.
    destruct (inv_pc _ _ HI _ _ Hp) as [Hok _].
    pose proof (pnum_vkey _ _ Hok) as H3. pose proof (pnum_vkey n W_Done I) as H4.
    assert (H5 : sum_list_with pnum (<[i:=W_Done]> (threads g)) <=
      sum_list_with (fun p => sum_list_with (fun t => vkey t p) (seq 0 n)) (<[i:=W_Done]> (threads g))).
    { apply sum_list_with_le. intros q Hq. apply list_elem_of_lookup in Hq as (j & Hj).
      apply lookup_insert_cases in Hj as [(-> & -> & _)|[_ Hj]].
      - rewrite <- H4. lia.
      - destruct (inv_pc _ _ HI _ _ Hj) as [Hokq _]. pose proof (pnum_vkey _ _ Hokq). lia. }
    simpl in *. lia. }
  lia.
Qed.

Lemma count_validated_le (l : list TxStatus) : count_validated l <= length l.
Proof.
  unfold count_validated. induction l as [|x l IH]; simpl; [done|]. case_decide; lia.
Qed.

Lemma count_validated_insert (l : list TxStatus) (i : nat) (x y : TxStatus) :
  l !! i = Some x ->
  count_validated (<[i:=y]> l) + (if decide (status x = Validated) then 1 else 0) =
  count_validated l + (if decide (status y = Validated) then 1 else 0).
Proof.
  intros Hi. unfold count_validated.
  exact (sum_list_with_insert (fun x => if decide (status x = Validated) then 1 else 0) l i x y Hi).
Qed.

Lemma num_step (n : nat) (o : Oracle) (free : TxIdx -> bool) (g g' : Shared) (p p' : pc) :
  Facts n g p -> tstep o free g p = Next g' p' ->
  num_validated (sched g) <= n -> (forall v, p = TVA_Sub v -> 1 <= num_validated (sched g)) ->
  (forall v, p = FV_NumAdd v -> num_validated (sched g) + 1 <= n) ->
  num_validated (sched g') + pnum p' + count_validated (tx_status (sched g)) =
  num_validated (sched g) + pnum p + count_validated (tx_status (sched g')).
Proof.
  intros F H Hn Hsub Hadd.
  step_cases H; step_norm; facts F; cbn [pnum];
    try match goal with K : tx_status _ !! ?i = Some ?x |- context [<[?i:=?y]> (tx_status _)] =>
      pose proof (count_validated_insert _ i x y K);
      match goal with P : forall t, _ <= st_is Aborted _ t |- _ => specialize (P i) end end;
    simplify_eq/=; st_known; unfold cnt in *; simpl in *; rewrite ?ind_eq in *;
    repeat case_decide; try congruence; try lia.
  - specialize (Hsub _ eq_refl). rewrite usize_sub_small by lia. lia.
  - specialize (Hadd _ eq_refl). rewrite usize_add_small by lia. lia.
Qed.

Lemma reachable_num (n k : nat) (g : Global) :
  (Z.of_nat n < 2 ^ 64)%Z -> reachable n k g -> num_ok g.
Proof.
  intros Hn. induction 1 as [|g i o g' Hr IH Hg].
  - unfold num_ok. cbn. rewrite (sum_list_with_zero pnum), count_validated_seq, sum_list_with_zero; [done|..].
    + intros j t _. unfold st_is. destruct (_ !! t) as [x|] eqn:Hx; [|done].
      by apply lookup_replicate in Hx as [-> _].
    + intros j p Hp. by apply lookup_replicate in Hp as [-> _].
  - pose proof (reachable_Inv _ _ _ Hn Hr) as HI.
    apply gstep_inv in Hg as (p & sh & p' & Hp & Ht & ->).
    pose proof (Inv_facts _ _ _ _ HI Hp) as F. unfold num_ok in *. cbn [shared threads].
    pose proof (sum_list_with_insert pnum _ _ _ p' Hp).
    pose proof (sum_list_with_elem_le pnum _ _ _ Hp).
    pose proof (count_validated_le (tx_status (sched (shared g)))) as Hle.
    rewrite (inv_len_status n g HI) in Hle.
    pose proof (num_step _ _ _ _ _ _ _ F Ht) as Hs.
    assert (Hs' := Hs ltac:(lia) ltac:(intros v ->; by eapply num_positive)
                      ltac:(intros v ->; simpl in *; lia)). lia.
Qed.

(** ** The termination test of [next_task]

    A thread leaves the loop after reading the three counters one by one, while
    others keep changing them. What makes the test sound is that whenever a
    counter says there is work left, some thread has still to look at it. *)

Definition looks_exec (n : nat) (p : pc) : nat :=
  match p with
  | NT_LoadVal e => if decide (n <= e) then 0 else 1
  | NT_LoadNum | NT_LoadMin _ | W_Done => 0
  | _ => 1
  end.

Definition looks_val (p : pc) : nat :=
  match p with
  | NT_LoadNum | NT_LoadMin _ | W_Done => 0
  | _ => 1
  end.

Definition looks_num (n m : nat) (p : pc) : nat :=
  match p with
  | NT_LoadMin k => if decide (n - m <= k) then 0 else 1
  | W_Done => 0
  | _ => 1
  end.

(** A thread between setting the abort flag and recording the reason. *)
Definition aborting (p : pc) : nat := match p with TE_SetReason _ _ => 1 | _ => 0 end.

Record Watch (n : nat) (g : Global) : Prop := mkWatch {
  w_exec : aborted (sched (shared g)) = false -> abort_reason (shared g) = None ->
    execution_idx (sched (shared g)) < n -> 0 < sum_list_with (looks_exec n) (threads g);
  w_val : aborted (sched (shared g)) = false -> abort_reason (shared g) = None ->
    validation_idx (sched (shared g)) < n -> 0 < sum_list_with looks_val (threads g);
  w_num : aborted (sched (shared g)) = false -> abort_reason (shared g) = None ->
    num_validated (sched (shared g)) < n - min_validation_idx (sched (shared g)) ->
    0 < sum_list_with (looks_num n (min_validation_idx (sched (shared g)))) (threads g);
  w_abort : aborted (sched (shared g)) = true ->
    is_Some (abort_reason (shared g)) \/ 0 < sum_list_with aborting (threads g);
}.

Section WatchStep.
Context (n : nat) (o : Oracle) (free : TxIdx -> bool) (g g' : Shared) (p p' : pc).
Context (F : Facts n g p) (H : tstep o free g p = Next g' p').
Context (Hrun : aborted (sched g') = false) (Hreason : abort_reason g' = None).

Ltac watch :=
  step_cases H; step_norm; facts F; cbn [looks_exec looks_val looks_num] in *; try (by left);
    repeat match goal with
    | K : (_ && _)%bool = true |- _ => apply andb_true_iff in K as [? ?]
    | K : (_ <=? _)%nat = true |- _ => apply Nat.leb_le in K
    | K : (_ <=? _)%nat = false |- _ => apply Nat.leb_gt in K
    end; repeat case_decide; try (by left); try (right; split; [done|lia]); try congruence; try lia.

Lemma looks_exec_step :
  execution_idx (sched g') < n ->
  looks_exec n p' = 1 \/ (looks_exec n p = 0 /\ execution_idx (sched g) < n).
Proof using F H Hrun Hreason. intros Hlt. watch. Qed.

Lemma looks_val_step :
  validation_idx (sched g') < n ->
  looks_val p' = 1 \/ (looks_val p = 0 /\ validation_idx (sched g) < n).
Proof using F H Hrun Hreason. intros Hlt. watch. Qed.

Lemma looks_num_step :
  min_validation_idx (sched g) <= n ->
  num_validated (sched g') < n - min_validation_idx (sched g') ->
  looks_num n (min_validation_idx (sched g')) p' = 1 \/
  (looks_num n (min_validation_idx (sched g)) p = 0 /\
   num_validated (sched g) < n - min_validation_idx (sched g)).
Proof using F H Hrun Hreason.
  intros Hm Hlt. watch. rewrite usize_sub_small in *; lia.
Qed.

End WatchStep.

Lemma abort_step (o : Oracle) (free : TxIdx -> bool) (g g' : Shared) (p p' : pc) :
  tstep o free g p = Next g' p' ->
  (is_Some (abort_reason g) -> is_Some (abort_reason g')) /\
  (aborted (sched g') = true ->
   is_Some (abort_reason g') \/ aborting p' = 1 \/ (aborting p = 0 /\ aborted (sched g) = true)).
Proof.
  intros H. step_cases H; proj; cbn [aborting]; (split; [by eauto|]); intros Ha; try congruence;
    first [by (left; eauto) | by (right; left) | by (right; right)].
Qed.

(** Raising a weight of some threads keeps a positive total positive. *)
Lemma watch_sum (f f' : pc -> nat) (ts : list pc) (i : nat) (p p' : pc) (X : Prop) :
  ts !! i = Some p -> (forall q, f q <= f' q) ->
  (X -> 0 < sum_list_with f ts) ->
  f' p' = 1 \/ (f p = 0 /\ X) -> 0 < sum_list_with f' (<[i:=p']> ts).
Proof.
  intros Hp Hle Hold Hcase.
  pose proof (sum_list_with_le f f' ts (fun q _ => Hle q)).
  pose proof (sum_list_with_insert f' _ _ _ p' Hp).
  pose proof (sum_list_with_insert f _ _ _ p' Hp).
  pose proof (sum_list_with_le f f' (<[i:=p']> ts) (fun q _ => Hle q)).
  pose proof (sum_list_with_elem_le f' _ _ _ Hp).
  destruct Hcase as [?|[? Hx]]; [lia|]. specialize (Hold Hx). lia.
Qed.

Lemma reachable_Watch (n k : nat) (g : Global) :
  (Z.of_nat n < 2 ^ 64)%Z -> 0 < k -> reachable n k g -> Watch n g.
Proof.
  intros Hn Hk. induction 1 as [|g i o g' Hr IH Hg].
  - destruct k as [|k]; [lia|]. constructor; cbn; (lia || done).
  - pose proof (reachable_Inv _ _ _ Hn Hr) as HI.
    apply gstep_inv in Hg as (p & sh & p' & Hp & Ht & ->).
    pose proof (Inv_facts _ _ _ _ HI Hp) as F.
    destruct (mono_step _ _ _ _ _ _ _ F Ht) as (Hmin & _ & Hreason & Haborted).
    assert (Hback : aborted (sched sh) = false -> abort_reason sh = None ->
      aborted (sched (shared g)) = false /\ abort_reason (shared g) = None).
    { intros Ha Hb. split.
      - destruct (aborted (sched (shared g))); [|done]. rewrite Haborted in Ha; done.
      - destruct Hreason as [?|[r Hr']]; congruence. }
    constructor; cbn [shared threads].
    + intros Ha Hb Hlt. destruct (Hback Ha Hb) as [Ha' Hb'].
      eapply watch_sum; [done|done|exact (w_exec _ _ IH Ha' Hb')|].
      eapply looks_exec_step; eauto.
    + intros Ha Hb Hlt. destruct (Hback Ha Hb) as [Ha' Hb'].
      eapply watch_sum; [done|done|exact (w_val _ _ IH Ha' Hb')|].
      eapply looks_val_step; eauto.
    + intros Ha Hb Hlt. destruct (Hback Ha Hb) as [Ha' Hb'].
      eapply watch_sum; [done| |exact (w_num _ _ IH Ha' Hb')|eapply looks_num_step; eauto; apply HI].
      intros q. destruct q; simpl; try lia. repeat case_decide; lia.
    + intros Ha. destruct (abort_step _ _ _ _ _ _ Ht) as [Hs Hab].
      destruct (Hab Ha) as [?|Hc]; [by left|].
      destruct (abort_reason sh) as [r|] eqn:Hrs; [by left|right].
      eapply watch_sum; [done|done| |destruct Hc as [?|[? HX]]; [by left|right; split; [done|exact HX]]].
      intros HX. destruct (w_abort _ _ IH HX) as [Hsome|?]; [|done].
      apply Hs in Hsome as [? ?]. done.
Qed.

(** ** Quiescence *)

Definition all_done (g : Global) : Prop := forall i p, threads g !! i = Some p -> p = W_Done.

Lemma all_done_sum (f : pc -> nat) (g : Global) :
  all_done g -> f W_Done = 0 -> sum_list_with f (threads g) = 0.
Proof. intros Hd Hf. apply sum_list_with_zero. intros i p Hp. by rewrite (Hd i p Hp). Qed.

(** With all threads gone, an aborted transaction would wait for a lower one
    that is itself aborted, and so on down. *)
Lemma no_aborted_at_rest (n : nat) (g : Global) :
  Inv n g -> all_done g -> n <= execution_idx (sched (shared g)) ->
  abort_reason (shared g) = None ->
  forall t, st_is Aborted (tx_status (sched (shared g))) t = 0.
Proof.
  intros HI Hd He Hr t. induction (lt_wf t) as [t _ IH].
  pose proof (inv_wait _ _ HI t) as Hw. rewrite (all_done_sum (pend t)) in Hw by done.
  pose proof (st_is_le Aborted (tx_status (sched (shared g))) t).
  destruct (decide (st_is Aborted (tx_status (sched (shared g))) t = 0)); [done|exfalso].
  destruct (sum_list_with_pos (cnt t) (tx_dependency (sched (shared g)))) as (b & l & Hl & Hc); [lia|].
  apply cnt_pos in Hc as Hin. destruct l as [|d l]; [by apply elem_of_nil in Hin|].
  pose proof (inv_dep_range _ _ HI _ _ Hl) as Hrng. rewrite Forall_forall in Hrng.
  specialize (Hrng t ltac:(by apply list_elem_of_In)). destruct (inv_dep_open _ _ HI _ _ _ Hl) as (x & Hx & Hf).
  destruct (inv_own _ _ HI b) as [_ Hown]. specialize (Hown Hr). rewrite all_done_sum in Hown by done.
  specialize (IH b ltac:(lia)). pose proof (inv_ready _ _ HI b) as Hrd.
  rewrite (all_done_sum (cov b)) in Hrd by done.
  st_known. destruct (status x); simpl in *; try done; lia.
Qed.

Lemma all_executed_at_rest (n : nat) (g : Global) :
  Inv n g -> all_done g -> n <= execution_idx (sched (shared g)) ->
  abort_reason (shared g) = None ->
  forall t, t < n -> finished_at (tx_status (sched (shared g))) t.
Proof.
  intros HI Hd He Hr t Ht.
  destruct (lookup_lt_is_Some_2 (tx_status (sched (shared g))) t) as [x Hx].
  { by rewrite (inv_len_status n g HI). }
  exists x. split; [done|].
  pose proof (no_aborted_at_rest _ _ HI Hd He Hr t) as Hab.
  destruct (inv_own _ _ HI t) as [_ Hown]. specialize (Hown Hr). rewrite all_done_sum in Hown by done.
  pose proof (inv_ready _ _ HI t) as Hrd. rewrite (all_done_sum (cov t)) in Hrd by done.
  st_known. destruct (status x); simpl in *; try done; lia.
Qed.

(** A schedule that is run from the start leads to a reachable state. *)
Lemma run_schedule_reachable (n k : nat) (sc : list (nat * Oracle)) (g : Global) :
  reachable n k g -> reachable n k (run_schedule g sc).
Proof.
  revert g. induction sc as [|[i o] sc IH]; intros g Hg; simpl; [done|].
  apply IH. destruct (gstep g i o) eqn:E; simpl; [by eapply reach_step|done].
Qed.

(** ** Progress of a single thread *)

(** The EVM only reports blocking transactions below the one it executes. *)
Definition oracle_ok (o : Oracle) (p : pc) : Prop :=
  forall v b, p = W_Execute v -> vm_execute o = Vm_Blocking b -> b < tx_idx v.

Lemma entry_is_some {A : Type} (l : list A) (n i : nat) :
  length l = n -> i < n -> is_Some (l !! i).
Proof. intros <- ?. by apply lookup_lt_is_Some_2. Qed.

Section Progress.
Context (n : nat) (o : Oracle) (free : TxIdx -> bool) (g : Shared) (p : pc).
Context (F : Facts n g p).

Ltac entries :=
  repeat match goal with
  | H : length (tx_status (sched g)) = _, K : tx_status (sched g) !! ?i = None |- _ =>
      apply lookup_ge_None_1 in K
  | H : length (tx_dependency (sched g)) = _, K : tx_dependency (sched g) !! ?i = None |- _ =>
      apply lookup_ge_None_1 in K
  | H : length (results g) = _, K : results g !! ?i = None |- _ =>
      apply lookup_ge_None_1 in K
  end.

Lemma tstep_no_crash : tstep o free g p ≠ Crash.
Proof using F.
  intros H. destruct p; cbn [tstep step_next_task step_add_dependency step_finish_execution
    step_try_validate step_try_execute] in H; try discriminate H;
    unfold try_exec_at, locked, held in H; repeat case_match; try discriminate H;
    step_norm; facts F; entries; simplify_eq/=; try lia;
    try match goal with K : _ /\ Forall _ (_ :: _) |- _ => destruct K as [? K]; inversion K; subst; lia end;
    try match goal with K : (_ =? _) = false |- _ => by rewrite Nat.eqb_refl in K end.
Qed.

Lemma tstep_progress :
  (forall t, wants n p = Some t -> free t = true) -> oracle_ok o p -> p ≠ W_Done ->
  exists g' p', tstep o free g p = Next g' p'.
Proof using F.
  intros Hw Ho Hd. pose proof tstep_no_crash as Hnc.
  destruct (tstep o free g p) as [| |g' p'] eqn:H; [exfalso|done|eauto].
  clear Hnc. destruct p; cbn [tstep step_next_task step_add_dependency step_finish_execution
    step_try_validate step_try_execute wants] in *; try discriminate H; try done;
    unfold try_exec_at, locked, held in H; repeat case_match; try discriminate H; try done;
    facts F; simplify_eq/=; try (specialize (Hw _ eq_refl); congruence);
    try congruence; step_norm; specialize (Ho _ _ eq_refl ltac:(eassumption)); lia.
Qed.

End Progress.

(** ** Mutual exclusion and lock order *)

Lemma held_by (ts : list pc) (t : TxIdx) :
  lock_free ts t = false -> exists i p, ts !! i = Some p /\ t ∈ holds p.
Proof.
  intros H. induction ts as [|q ts IH]; simpl in H; [done|].
  apply andb_false_iff in H as [H|H].
  - apply bool_decide_eq_false in H. exists 0, q. split; [done|].
    destruct (decide (t ∈ holds q)); [done|done].
  - destruct (IH H) as (i & p & Hp & Hin). by exists (S i), p.
Qed.

(** Whoever waits for a mutex while holding one waits for a higher one. *)
Lemma lock_order (n : nat) (p : pc) (t u : TxIdx) :
  pc_ok n p -> t ∈ holds p -> wants n p = Some u -> t < u < n.
Proof.
  intros Hok Hin Hw. destruct p; simpl in *; try (by apply elem_of_nil in Hin); try discriminate Hw.
  - apply list_elem_of_singleton in Hin as ->. by simplify_eq.
  - apply list_elem_of_singleton in Hin as ->. destruct ds; [done|]. simplify_eq.
    destruct Hok as [_ Hok]. by inversion Hok.
Qed.

(** A thread that waits for [t] means some thread can move: the holder of the
    highest awaited mutex. *)
Lemma some_thread_moves (n : nat) (g : Global) (o : Oracle) :
  Inv n g -> (forall i p, threads g !! i = Some p -> oracle_ok o p) ->
  forall m t i p, n - t <= m -> threads g !! i = Some p ->
  (forall u, wants n p = Some u -> t <= u < n) -> p ≠ W_Done ->
  exists j g', gstep g j o = Some g'.
Proof.
  intros HI Ho m. induction m as [|m IH]; intros t i p Hm Hp Hw Hd.
  all: destruct (wants n p) as [u|] eqn:Hwu; [|].
  1: specialize (Hw u eq_refl); lia.
  2: specialize (Hw u eq_refl); destruct (lock_free (threads g) u) eqn:Hfree.
  3: { destruct (held_by _ _ Hfree) as (j & q & Hq & Hin).
       destruct (inv_pc _ _ HI _ _ Hq) as [Hok _].
       apply (IH (S u) j q); [lia|done| |intros ->; by apply elem_of_nil in Hin].
       intros x Hx. pose proof (lock_order _ _ _ _ Hok Hin Hx). lia. }
  all: destruct (tstep_progress n o (lock_free (threads g)) (shared g) p) as (sh & p' & Hs);
    [by eapply Inv_facts|congruence|by eapply Ho|done|];
    exists i, (mkGlobal sh (<[i:=p']> (threads g))); unfold gstep; by rewrite Hp, Hs.
Qed.

Lemma wants_range (n : nat) (p : pc) (u : TxIdx) : pc_ok n p -> wants n p = Some u -> u < n.
Proof.
  intros Hok Hw. destruct p; simpl in *; repeat case_match; simplify_eq/=; step_norm; try lia.
  destruct Hok as [_ Hok]. inversion Hok; subst. lia.
Qed.

(** ** The life cycle of a transaction *)

(** The transitions listed in the documentation of [IncarnationStatus]. *)
Inductive life_cycle : TxStatus -> TxStatus -> Prop :=
| lc_stay x : life_cycle x x
| lc_execute i : life_cycle (mkTxStatus i ReadyToExecute) (mkTxStatus i Executing)
| lc_executed i : life_cycle (mkTxStatus i Executing) (mkTxStatus i Executed)
| lc_validated i : life_cycle (mkTxStatus i Executed) (mkTxStatus i Validated)
| lc_abort_executed i : life_cycle (mkTxStatus i Executed) (mkTxStatus i Aborted)
| lc_abort_validated i : life_cycle (mkTxStatus i Validated) (mkTxStatus i Aborted)
| lc_blocked i : life_cycle (mkTxStatus i Executing) (mkTxStatus i Aborted)
| lc_resume i : life_cycle (mkTxStatus i Aborted) (mkTxStatus (usize_add i 1) ReadyToExecute).

Lemma life_cycle_step (n : nat) (o : Oracle) (free : TxIdx -> bool) (g g' : Shared) (p p' : pc) :
  Facts n g p -> tstep o free g p = Next g' p' ->
  forall t x y, tx_status (sched g) !! t = Some x -> tx_status (sched g') !! t = Some y ->
  life_cycle x y.
Proof.
  intros F H t x y Hx Hy. step_cases H; step_norm; facts F;
    try (simplify_eq; exact (lc_stay _));
    apply lookup_insert_cases in Hy as [(-> & -> & _)|[_ Hy]];
    try (simplify_eq; exact (lc_stay _)); simplify_eq;
    match goal with P : forall t, _ <= st_is Aborted _ t, K : tx_status _ !! ?i = Some ?x |- _ =>
      specialize (P i) end; st_known; unfold with_status in *;
    repeat match goal with x : TxStatus |- _ => destruct x end; simpl in *; unfold cnt in *; simpl in *;
    rewrite ?ind_eq in *; subst; repeat case_decide; simplify_eq/=; try lia; try solve [constructor].
Qed.

(** ** Properties *)

Lemma results_at_rest (n : nat) (g : Global) :
  Inv n g -> (forall t, t < n -> finished_at (tx_status (sched (shared g))) t) ->
  results (shared g) = replicate n true.
Proof.
  intros HI Hf. apply list_eq. intros t. destruct (decide (t < n)) as [Ht|Ht].
  - destruct (inv_done _ _ HI t (Hf t Ht)) as [-> _].
    symmetry. by apply lookup_replicate_2.
  - rewrite !lookup_ge_None_2; rewrite ?length_replicate, ?(inv_len_res n g HI); [done|lia|lia].
Qed.

Lemma running_at_rest (n k : nat) (g : Global) :
  (Z.of_nat n < 2 ^ 64)%Z -> 0 < k -> reachable n k g -> all_done g ->
  abort_reason (shared g) = None ->
  aborted (sched (shared g)) = false /\ n <= execution_idx (sched (shared g)) /\
  n - min_validation_idx (sched (shared g)) <= num_validated (sched (shared g)).
Proof.
  intros Hn Hk Hr Hd Hreason. pose proof (reachable_Watch _ _ _ Hn Hk Hr) as W.
  destruct (aborted (sched (shared g))) eqn:Ha.
  - destruct (w_abort _ _ W Ha) as [[r Hs]|Hs]; [congruence|]. rewrite all_done_sum in Hs by done. lia.
  - split; [done|split].
    + destruct (decide (n <= execution_idx (sched (shared g)))); [done|].
      pose proof (w_exec _ _ W Ha Hreason ltac:(lia)) as Hs. rewrite all_done_sum in Hs by done. lia.
    + destruct (decide (num_validated (sched (shared g)) < n - min_validation_idx (sched (shared g))))
        as [Hlt|]; [|lia].
      pose proof (w_num _ _ W Ha Hreason Hlt) as Hs. rewrite all_done_sum in Hs by done. lia.
Qed.

(** Schedules used as examples: [k] threads taking turns, every oracle [o]. *)
Definition round_robin (k rounds : nat) (o : Oracle) : list (nat * Oracle) :=
  concat (replicate rounds ((fun i => (i, o)) <$> seq 0 k)).

Definition example_run (o : Oracle) : Global :=
  run_schedule (Global_init 3 2) (round_robin 2 60 o).

Lemma example_run_reachable (o : Oracle) : reachable 3 2 (example_run o).
Proof. exact (run_schedule_reachable 3 2 _ _ (reach_init 3 2)). Qed.

(** C6. When all worker threads have left their loops and no abort reason was
    recorded, then whatever the interleaving was and whatever the EVM and the
    validations answered, the block is complete: the scheduler was not aborted,
    every transaction is [Validated], every slot of [execution_results] is
    filled (the unchecked unwraps that follow are sound), [num_validated] is the
    block size, and no dependent is left waiting. *)
Theorem workers_complete (n k : nat) (g : Global)
    (Hn : (Z.of_nat n < 2 ^ 64)%Z) (Hk : 0 < k) (Hr : reachable n k g)
    (Hd : all_done g) (Hreason : abort_reason (shared g) = None) :
  aborted (sched (shared g)) = false /\
  (forall t, t < n -> exists i, tx_status (sched (shared g)) !! t = Some (mkTxStatus i Validated)) /\
  results (shared g) = replicate n true /\
  num_validated (sched (shared g)) = n /\
  tx_dependency (sched (shared g)) = replicate n [].
Proof.
  pose proof (reachable_Inv _ _ _ Hn Hr) as HI. pose proof (reachable_num _ _ _ Hn Hr) as Hnum.
  destruct (running_at_rest _ _ _ Hn Hk Hr Hd Hreason) as (Ha & He & Hm).
  pose proof (all_executed_at_rest _ _ HI Hd He Hreason) as Hf.
  unfold num_ok in Hnum. rewrite all_done_sum in Hnum by done.
  pose proof (count_validated_le (tx_status (sched (shared g)))) as Hc.
  rewrite (inv_len_status n g HI) in Hc.
  assert (Hmin : n = 0 \/ min_validation_idx (sched (shared g)) = 0).
  { destruct n; [by left|right]. destruct (inv_done _ _ HI 0 (Hf 0 ltac:(lia))). lia. }
  split; [done|split; [|split; [|split]]].
  - intros t Ht. destruct (entry_is_some _ _ t (inv_len_status n g HI) Ht) as [[i s] Hx].
    exists i. assert (status (mkTxStatus i s) = Validated) as <-; [|done].
    assert (Hfull := sum_list_with_full (fun x => if decide (status x = Validated) then 1 else 0)
      (tx_status (sched (shared g)))).
    fold (count_validated (tx_status (sched (shared g)))) in Hfull.
    rewrite (inv_len_status n g HI) in Hfull.
    specialize (Hfull ltac:(intros; case_decide; lia) ltac:(lia) t _ Hx). by case_decide.
  - by apply results_at_rest.
  - lia.
  - apply list_eq. intros t. destruct (decide (t < n)) as [Ht|Ht].
    + destruct (entry_is_some _ _ t (inv_len_dep n g HI) Ht) as [l Hl]. rewrite Hl.
      rewrite lookup_replicate_2 by done. destruct l as [|d l]; [done|].
      destruct (inv_dep_open _ _ HI _ _ _ Hl) as (x & Hx & Hxf).
      destruct (Hf t Ht) as (y & Hy & Hyf). congruence.
    + rewrite !lookup_ge_None_2; rewrite ?length_replicate, ?(inv_len_dep n g HI); [done|lia|lia].
Qed.

Lemma all_done_intro (k : nat) (g : Global) : threads g = replicate k W_Done -> all_done g.
Proof. intros H i p Hp. rewrite H in Hp. by apply lookup_replicate in Hp as [-> _]. Qed.

Lemma workers_complete_witness :
  let g := example_run (mkOracle (Vm_Ok WroteNewLocation) true) in
  abort_reason (shared g) = None /\ results (shared g) = replicate 3 true.
Proof.
  split; [vm_compute; reflexivity|].
  apply (workers_complete 3 2); [lia|lia|apply example_run_reachable|apply (all_done_intro 2); vm_compute; reflexivity|].
  vm_compute; reflexivity.
Defined.

(** C8. No interleaving makes a worker use an unchecked index outside the
    scheduler's or the executor's vectors ([index_mutex!]), or fail one of the
    [debug_assert]s of [finish_execution]. *)
Theorem workers_memory_safe (n k : nat) (g : Global) (i : nat) (p : pc) (o : Oracle)
    (Hn : (Z.of_nat n < 2 ^ 64)%Z) (Hr : reachable n k g) (Hp : threads g !! i = Some p) :
  tstep o (lock_free (threads g)) (shared g) p ≠ Crash.
Proof.
  apply (tstep_no_crash n). eapply Inv_facts; [by eapply reachable_Inv|done].
Qed.

Lemma workers_memory_safe_witness :
  tstep (mkOracle Vm_Retry true) (lock_free (replicate 2 NT_Top)) (Shared_init 3) NT_Top ≠ Crash.
Proof.
  apply (workers_memory_safe 3 2 (Global_init 3 2) 0); [lia|apply reach_init|reflexivity].
Defined.

(** C9. An incarnation is executed by one thread at a time: two threads that are
    executing, storing or finishing the same transaction are the same thread, and
    its status is then [Executing] at exactly the incarnation it was given. *)
Theorem workers_exclusive (n k : nat) (g : Global) (i j : nat) (p q : pc) (v w : TxVersion)
    (Hn : (Z.of_nat n < 2 ^ 64)%Z) (Hr : reachable n k g)
    (Hp : threads g !! i = Some p) (Hq : threads g !! j = Some q)
    (Hv : version_of p = Some v) (Hw : version_of q = Some w) (Heq : tx_idx v = tx_idx w) :
  i = j /\ tx_status (sched (shared g)) !! tx_idx v = Some (mkTxStatus (tx_incarnation v) Executing).
Proof.
  pose proof (reachable_Inv _ _ _ Hn Hr) as HI. split.
  - destruct (decide (i = j)) as [|Hne]; [done|exfalso].
    destruct (inv_own _ _ HI (tx_idx v)) as [Hle _].
    pose proof (st_is_le Executing (tx_status (sched (shared g))) (tx_idx v)).
    pose proof (sum_list_with_two_le (own (tx_idx v)) _ _ _ _ _ Hne Hp Hq).
    assert (forall r u, version_of r = Some u -> own (tx_idx u) r = 1) as Hown.
    { intros r u Hu. destruct r; simpl in *; repeat case_match; simplify_eq; apply ind_eq. }
    pose proof (Hown _ _ Hv). pose proof (Hown _ _ Hw). rewrite <- Heq in *. lia.
  - destruct (inv_pc _ _ HI _ _ Hp) as [_ [Hver _]]. by apply Hver.
Qed.

Lemma workers_exclusive_witness :
  let g := run_schedule (Global_init 3 2) (round_robin 1 5 (mkOracle Vm_Retry true)) in
  exists v, threads g !! 0 = Some (W_Execute v) /\
    tx_status (sched (shared g)) !! tx_idx v = Some (mkTxStatus (tx_incarnation v) Executing).
Proof.
  intros g. exists (mkTxVersion 0 0). split; [vm_compute; reflexivity|].
  eapply (workers_exclusive 3 2 g 0 0 (W_Execute (mkTxVersion 0 0)) (W_Execute (mkTxVersion 0 0)));
    [lia|exact (run_schedule_reachable 3 2 _ _ (reach_init 3 2))|vm_compute; reflexivity..].
Defined.

#[local] Instance W_Done_dec (p : pc) : Decision (p = W_Done).
Proof. destruct p; first [by left | by right]. Defined.

(** C10. The workers never deadlock on the [tx_status] mutexes: as long as some
    thread has not left its loop, some thread can make its next access, for any
    answer of the EVM that blocks a transaction on a lower one only. *)
Theorem workers_deadlock_free (n k : nat) (g : Global) (o : Oracle)
    (Hn : (Z.of_nat n < 2 ^ 64)%Z) (Hr : reachable n k g)
    (Ho : forall i p, threads g !! i = Some p -> oracle_ok o p)
    (Hd : ~ all_done g) :
  exists j g', gstep g j o = Some g'.
Proof.
  pose proof (reachable_Inv _ _ _ Hn Hr) as HI.
  assert (Hex : exists i p, threads g !! i = Some p /\ p ≠ W_Done).
  { destruct (decide (Exists (fun p => p ≠ W_Done) (threads g))) as [He|He].
    - apply Exists_exists in He as (p & Hin & Hp). apply list_elem_of_In, list_elem_of_lookup in Hin as (i & Hi). eauto.
    - exfalso. apply Hd. intros i p Hp. destruct (decide (p = W_Done)) as [|Hne]; [done|].
      exfalso. apply He, Exists_exists. exists p. split; [by eapply list_elem_of_In, list_elem_of_lookup_2|done]. }
  destruct Hex as (i & p & Hp & Hne).
  eapply (some_thread_moves n g o HI Ho n 0 i p); [lia|done| |done].
  intros u Hu. destruct (inv_pc _ _ HI _ _ Hp) as [Hok _]. split; [lia|by eapply wants_range].
Qed.

Lemma workers_deadlock_free_witness :
  exists j g', gstep (Global_init 3 2) j (mkOracle (Vm_Blocking 0) true) = Some g'.
Proof.
  apply (workers_deadlock_free 3 2); [lia|apply reach_init| |].
  - intros i p Hp v b ->. by apply lookup_replicate in Hp as [? _].
  - intros Hd. specialize (Hd 0 NT_Top eq_refl). discriminate.
Defined.

(** C18. [num_validated] is the number of validated transactions up to the
    updates that are still on their way: the threads that have marked a
    transaction [Validated] but not counted it, or uncounted one they are about
    to abort. In particular it never exceeds the block size and taking one off
    never wraps around. *)
Theorem num_validated_exact (n k : nat) (g : Global)
    (Hn : (Z.of_nat n < 2 ^ 64)%Z) (Hr : reachable n k g) :
  num_validated (sched (shared g)) + sum_list_with pnum (threads g) =
    count_validated (tx_status (sched (shared g))) /\
  num_validated (sched (shared g)) <= n /\
  (forall i v, threads g !! i = Some (TVA_Sub v) -> 1 <= num_validated (sched (shared g))).
Proof.
  pose proof (reachable_Inv _ _ _ Hn Hr) as HI. pose proof (reachable_num _ _ _ Hn Hr) as Hnum.
  unfold num_ok in Hnum. pose proof (count_validated_le (tx_status (sched (shared g)))) as Hle.
  rewrite (inv_len_status n g HI) in Hle.
  split; [done|split; [lia|]]. intros i v Hp. by eapply num_positive.
Qed.

Lemma num_validated_exact_witness :
  num_validated (sched (shared (example_run (mkOracle (Vm_Ok NeedValidation) true)))) <= 3.
Proof.
  apply (num_validated_exact 3 2 (example_run (mkOracle (Vm_Ok NeedValidation) true))).
  - lia.
  - apply example_run_reachable.
Defined.

(** When the scheduler has been told to stop, then by the time all threads
    are done an abort reason is recorded: the executor never takes an
    interrupted run for a completed one. *)
Lemma aborted_has_reason (n k : nat) (g : Global)
    (Hn : (Z.of_nat n < 2 ^ 64)%Z) (Hk : 0 < k) (Hr : reachable n k g) (Hd : all_done g)
    (Ha : aborted (sched (shared g)) = true) :
  exists r, abort_reason (shared g) = Some r.
Proof.
  destruct (w_abort _ _ (reachable_Watch _ _ _ Hn Hk Hr) Ha) as [?|Hs]; [done|].
  rewrite all_done_sum in Hs by done. lia.
Qed.

Lemma aborted_has_reason_witness :
  exists r, abort_reason (shared (example_run (mkOracle Vm_Fallback true))) = Some r.
Proof.
  apply (aborted_has_reason 3 2 (example_run (mkOracle Vm_Fallback true)));
    [lia|lia|apply example_run_reachable|apply (all_done_intro 2); vm_compute; reflexivity|
     vm_compute; reflexivity].
Defined.

(** Every access of every thread moves each transaction along the life cycle
    documented at [IncarnationStatus], and in particular a new incarnation is
    only ever started from [Aborted]. *)
Lemma transactions_follow_life_cycle (n k : nat) (g g' : Global) (i : nat) (o : Oracle)
    (Hn : (Z.of_nat n < 2 ^ 64)%Z) (Hr : reachable n k g) (Hs : gstep g i o = Some g')
    (t : TxIdx) (x y : TxStatus)
    (Hx : tx_status (sched (shared g)) !! t = Some x)
    (Hy : tx_status (sched (shared g')) !! t = Some y) :
  life_cycle x y.
Proof.
  apply gstep_inv in Hs as (p & sh & p' & Hp & Ht & ->).
  eapply life_cycle_step; [|exact Ht|exact Hx|exact Hy].
  eapply Inv_facts; [by eapply reachable_Inv|done].
Qed.

Lemma transactions_follow_life_cycle_witness :
  life_cycle (mkTxStatus 0 ReadyToExecute) (mkTxStatus 0 Executing).
Proof.
  set (o := mkOracle Vm_Retry true).
  apply (transactions_follow_life_cycle 3 2 (run_schedule (Global_init 3 2) (round_robin 1 4 o))
    (run_schedule (Global_init 3 2) (round_robin 1 5 o)) 0 o) with (t := 0);
    [lia|exact (run_schedule_reachable 3 2 _ _ (reach_init 3 2))|vm_compute; reflexivity..].
Defined.
