(* ===== verification/WorkersRefine.v ===== *)
(** * The interleaved steps implement the scheduler's methods

    [Scheduler] translates each method as one computation, [Workers] as a
    sequence of atomic accesses. A thread that runs undisturbed from the entry
    of a method to its exit has the effect and the result of the method. *)

From S2P Require Import Prelude Types Scheduler Workers.

(** Accesses of one thread in a row, all mutexes free. *)
Definition solo_step (o : Oracle) (a b : Shared * pc) : Prop :=
  tstep o (fun _ => true) a.1 a.2 = Next b.1 b.2.
Definition solo (o : Oracle) : Shared * pc -> Shared * pc -> Prop := rtc (solo_step o).

Definition with_sched (g : Shared) (s : Scheduler) : Shared := set_sched (fun _ => s) g.

Lemma solo_next (o : Oracle) (g g' : Shared) (p p' : pc) (x : Shared * pc) :
  tstep o (fun _ => true) g p = Next g' p' -> solo o (g', p') x -> solo o (g, p) x.
Proof. intros H Hx. by apply (rtc_l _ _ (g', p')). Qed.

Lemma with_sched_id (g : Shared) : with_sched g (sched g) = g.
Proof. by destruct g. Qed.

(** Follow the steps of a thread whose branches the hypotheses decide. *)
Ltac solo_compute :=
  repeat progress (
    cbv beta iota zeta delta [tstep step_next_task step_add_dependency step_finish_execution
      step_try_validate step_try_execute try_exec_at locked held put_status set_sched with_sched
      set_tx_status set_tx_dependency set_execution_idx set_validation_idx set_min_validation_idx
      set_num_validated set_aborted dispatch];
    cbn [sched abort_reason results block_size tx_status tx_dependency execution_idx validation_idx
      min_validation_idx num_validated aborted status incarnation tx_idx tx_incarnation];
    try match goal with
    | H : ?x = _ |- context [?x] => rewrite H
    end).
Ltac solo_go :=
  repeat first
    [ solve [solo_compute; apply rtc_refl]
    | eapply solo_next; [solo_compute; reflexivity|] ].

Lemma add_dependency_solo (o : Oracle) (g : Shared) (v : TxVersion) (b : TxIdx) (r : bool)
    (s' : Scheduler) :
  add_dependency (tx_idx v) b (sched g) = Return (r, s') ->
  solo o (g, AD_Lock v b) (with_sched g s', if r then W_Check None else TE_Retry v).
Proof.
  destruct g as [s ar rs]. unfold add_dependency. run_method.
  intros H. simpl in H. repeat (case_match; simplify_eq/=; run_method); solo_go.
Qed.

Lemma resume_solo (o : Oracle) (v : TxVersion) (f : FinishExecFlags) (ds : list TxIdx) (g : Shared)
    (s' : Scheduler) :
  for_each ds resume_dependent (sched g) = Return (tt, s') ->
  solo o (g, FE_Ready v f ds) (with_sched g s', FE_MinVal v f).
Proof.
  revert g. induction ds as [|d ds IH]; intros g H.
  - injection H as <-. rewrite with_sched_id. solo_go.
  - cbn [for_each] in H. unfold mbind at 1, M_bind at 1 in H.
    destruct (resume_dependent d (sched g)) as [[[] s1]| |] eqn:Hd; try discriminate H.
    assert (Hstep : solo o (g, FE_Ready v f (d :: ds)) (with_sched g s1, FE_Ready v f ds)).
    { clear H. destruct g as [s ar rs]. unfold resume_dependent, set_ready_status in Hd. run_method.
      simpl in Hd. repeat (case_match; simplify_eq/=; run_method). solo_go. }
    eapply rtc_trans; [exact Hstep|]. apply (IH (with_sched g s1) H).
Qed.

Lemma resume_keeps (ds : list TxIdx) (s s' : Scheduler) (u : unit) (i : TxIdx) :
  for_each ds resume_dependent s = Return (u, s') -> i ∉ ds ->
  tx_status s' !! i = tx_status s !! i.
Proof.
  revert s. induction ds as [|d ds IH]; intros s H Hi; [by injection H as _ <-|].
  apply not_elem_of_cons in Hi as [Hne Hi]. cbn [for_each] in H. unfold mbind at 1, M_bind at 1 in H.
  destruct (resume_dependent d s) as [[[] s1]| |] eqn:Hd; try discriminate H.
  rewrite (IH s1 H Hi). clear H. unfold resume_dependent, set_ready_status in Hd. run_method.
  repeat (case_match; simplify_eq/=; run_method). by apply list_lookup_insert_ne.
Qed.

Lemma finish_execution_solo (o : Oracle) (g : Shared) (v : TxVersion) (f : FinishExecFlags)
    (r : option Task) (s' : Scheduler) :
  (forall ds, tx_dependency (sched g) !! tx_idx v = Some ds -> tx_idx v ∉ ds) ->
  finish_execution v f (sched g) = Return (r, s') ->
  solo o (g, FE_Lock v f) (with_sched g s', W_Check r).
Proof.
  intros Hself H. unfold finish_execution in H. rewrite !contains_NeedValidation in H. run_method.
  destruct (tx_status (sched g) !! tx_idx v) as [t|] eqn:Ht; [|discriminate H]. run_method.
  destruct (bool_decide _) eqn:He; [|discriminate H]. run_method.
  destruct (_ =? _) eqn:Hinc; [|discriminate H]. run_method.
  destruct (tx_dependency (sched g) !! tx_idx v) as [ds|] eqn:Hds; [|discriminate H]. run_method.
  rewrite Hds in H. run_method.
  destruct (for_each _ _ _) as [[[] s1]| |] eqn:Hloop; try discriminate H. run_method.
  pose proof (resume_keeps _ _ _ _ _ Hloop (Hself ds eq_refl)) as Hkeep. simpl in Hkeep.
  rewrite Ht in Hkeep. eapply (solo_next _ _ (with_sched g _)); [solo_compute; reflexivity|].
  eapply rtc_trans; [by apply (resume_solo o v f ds (with_sched g _) s1)|].
  pose proof (contains_NeedValidation f). clear Hloop He Hinc Hds Ht Hself.
  repeat (case_match; simplify_eq/=; run_method); solo_go.
Qed.

Lemma next_task_iter_solo (o : Oracle) (g : Shared) (r : LoopStep) (s' : Scheduler) :
  next_task_iter (sched g) = Return (r, s') ->
  solo o (g, NT_Top) (with_sched g s',
    match r with LBreak => W_Done | LYield | LContinue => NT_Top | LReturn t => dispatch t end).
Proof.
  destruct g as [s ar rs]. unfold next_task_iter, inspect_next, try_execute_next, try_execute.
  intros H. run_method. cbn [sched] in *.
  repeat (case_match; simplify_eq/=; run_method); solo_go.
Qed.

Lemma next_task_solo (o : Oracle) (fuel : nat) (g : Shared) (r : option Task) (s' : Scheduler) :
  next_task fuel (sched g) = Return (Some r, s') ->
  solo o (g, NT_Top) (with_sched g s', match r with Some t => dispatch t | None => W_Done end).
Proof.
  revert g. induction fuel as [|fuel IH]; intros g H; [discriminate H|].
  cbn [next_task] in H. unfold mbind, M_bind in H.
  destruct (next_task_iter (sched g)) as [[x s1]| |] eqn:Hi; try discriminate H.
  pose proof (next_task_iter_solo o g x s1 Hi) as Hstep.
  destruct x; [injection H as <- <-; exact Hstep| | |injection H as <- <-; exact Hstep].
  all: eapply rtc_trans; [exact Hstep|]; exact (IH (with_sched g s1) H).
Qed.

(** [try_validate] of the executor: with a valid read set the validation is
    finished, otherwise the transaction is aborted first if it still can be. *)
Definition validate (ver : TxVersion) (valid : bool) : M Scheduler (option Task) :=
  was_aborted ← (if valid then mret false else try_validation_abort ver);
  finish_validation ver was_aborted.

Lemma validate_solo (o : Oracle) (g : Shared) (v : TxVersion) (r : option Task) (s' : Scheduler) :
  validate v (read_set_valid o) (sched g) = Return (r, s') ->
  solo o (g, W_Validate v) (with_sched g s', W_Check r).
Proof.
  destruct g as [s ar rs].
  unfold validate, try_validation_abort, finish_validation, set_ready_status, try_execute.
  intros H. run_method. cbn [sched] in *.
  destruct (read_set_valid o) eqn:Hvalid; run_method;
    (destruct (tx_status s !! tx_idx v) as [[i st]|] eqn:Ht; [|discriminate H]);
    destruct st; simpl in H; simplify_eq/=; repeat (case_match; simplify_eq/=; run_method); solo_go.
Qed.

(** C11. The interleaved machine implements the scheduler's methods: a thread that
    runs undisturbed through [next_task], [add_dependency], [finish_execution]
    (of a transaction that does not depend on itself) or the validation of
    [try_validate] ends with the state and the result the method computes. *)
Theorem workers_refine_methods (o : Oracle) (g : Shared) (v : TxVersion) :
  (forall fuel r s', next_task fuel (sched g) = Return (Some r, s') ->
     solo o (g, NT_Top) (with_sched g s', match r with Some t => dispatch t | None => W_Done end)) /\
  (forall b r s', add_dependency (tx_idx v) b (sched g) = Return (r, s') ->
     solo o (g, AD_Lock v b) (with_sched g s', if r then W_Check None else TE_Retry v)) /\
  (forall f r s', (forall ds, tx_dependency (sched g) !! tx_idx v = Some ds -> tx_idx v ∉ ds) ->
     finish_execution v f (sched g) = Return (r, s') ->
     solo o (g, FE_Lock v f) (with_sched g s', W_Check r)) /\
  (forall r s', validate v (read_set_valid o) (sched g) = Return (r, s') ->
     solo o (g, W_Validate v) (with_sched g s', W_Check r)).
Proof.
  split; [|split; [|split]]; intros.
  - by eapply next_task_solo.
  - by eapply add_dependency_solo.
  - by eapply finish_execution_solo.
  - by eapply validate_solo.
Qed.

Lemma workers_refine_methods_witness :
  let g := mkShared example_blocked None [false; false; false] in
  solo (mkOracle Vm_Retry true) (g, FE_Lock (mkTxVersion 0 0) NeedValidation)
    (with_sched g (executed example_blocked 0 0 NeedValidation [1]),
     W_Check (Some (Validation (mkTxVersion 0 0)))).
Proof.
  apply workers_refine_methods; [|vm_compute; reflexivity].
  intros ds Hds. injection Hds as <-. by apply not_elem_of_cons; split; [|apply not_elem_of_nil].
Defined.
