(* ===== verification/WorkersMem.v ===== *)
(** * Worker threads over the multi-version memory (executor.rs, mv_memory.rs)

    [Workers] leaves open what executions write and whether validations succeed.
    Here the threads work on the shared [MvMemory]: what [record],
    [validate_read_locations] and [convert_writes_to_estimates] do to it is taken
    apart into their accesses to single locations, interleaved with everything
    else. The verdict of a validation is the one it finds; what an execution reads
    and writes is still arbitrary.

    The mutex of [locations[tx_idx]] is held for the whole of each of the three
    operations, so its content can be updated step by step in place. *)

From S2P Require Import Prelude Types MvMemory Scheduler Workers.

Section MemWorkers.
Context `{Revm}.

(** ** Threads *)

(** Where a thread is inside an operation of the memory. [M_Drop] and [M_Enter] are
    the two loops of [record], [M_Check] the loop of [validate_read_locations],
    [M_Conv] that of [convert_writes_to_estimates]. *)
Inductive mpc : Type :=
| M_Idle
| M_Drop (v : TxVersion) (write_set : WriteSet) (location_idx : nat)
| M_Enter (v : TxVersion) (todo : list (LocationHash * LocationValue)) (wrote_new_location : bool)
| M_Check (v : TxVersion) (todo : list (LocationHash * list ReadOrigin))
| M_Conv (v : TxVersion) (todo : list LocationHash).

(** The [locations] mutex a thread holds. *)
Definition loc_holds (a : mpc) : option TxIdx :=
  match a with
  | M_Idle => None
  | M_Drop v _ _ | M_Enter v _ _ | M_Check v _ | M_Conv v _ => Some (tx_idx v)
  end.

Definition loc_free (aux : list mpc) (t : TxIdx) : bool :=
  forallb (fun a => bool_decide (loc_holds a ≠ Some t)) aux.

Record MGlobal : Type := mkMGlobal {
  base : Global;
  mem : MvMemory;
  aux : list mpc;
}.

(** What a thread does next, where the code leaves it open: a step of the scheduler
    machine, publishing new bytecode or lazy addresses from [Vm::execute], entering
    [record] with the outcome of an execution, or the next access of an operation
    of the memory; [fails] is the error of the transaction's type after [record]. *)
Inductive MOracle : Type :=
| O_Base (o : Oracle)
| O_Deploy (code_hash : Z) (code : Bytecode)
| O_Lazy (addresses : list Address)
| O_Record (read_set : ReadSet) (write_set : WriteSet)
| O_Memory (fails : bool).

(** ** Accesses *)

Definition set_locations (t : TxIdx) (locs : ReadWriteSet) (m : MvMemory) : MvMemory :=
  mkMvMemory (data m) (<[t := locs]> (locations m)) (lazy_addresses m) (new_bytecodes m).

(** [new_bytecodes.entry(code_hash).or_insert_with(..)]. *)
Definition deploy (h : Z) (c : Bytecode) (m : MvMemory) : MvMemory :=
  mkMvMemory (data m) (locations m) (lazy_addresses m)
    (match new_bytecodes m !! h with Some _ => new_bytecodes m | None => <[h := c]> (new_bytecodes m) end).

(** One round of the first loop of [record]. *)
Definition drop_step (v : TxVersion) (ws : WriteSet) (k : nat) (locs : ReadWriteSet) (m : MvMemory) :
    MvMemory * mpc :=
  match rw_write locs !! k with
  | None => (m, M_Enter v (map_to_list ws) false)
  | Some x =>
      match ws !! x with
      | None => (set_locations (tx_idx v) (mkReadWriteSet (rw_read locs) (swap_remove k (rw_write locs)))
                   (set_data (alter (delete (tx_idx v)) x) m), M_Drop v ws k)
      | Some _ => (m, M_Drop v ws (k + 1))
      end
  end.

(** One round of the second loop. *)
Definition enter_step (v : TxVersion) (w : LocationHash * LocationValue)
    (todo : list (LocationHash * LocationValue)) (wrote_new : bool) (locs : ReadWriteSet) (m : MvMemory) :
    MvMemory * mpc :=
  let '(d, write, wrote_new') := enter_write v (data m, rw_write locs, wrote_new) w in
  (set_locations (tx_idx v) (mkReadWriteSet (rw_read locs) write) (set_data (fun _ => d) m),
   M_Enter v todo wrote_new').

(** One round of the loop of [convert_writes_to_estimates]. *)
Definition conv_step (t : TxIdx) (x : LocationHash) (m : MvMemory) : MvMemory :=
  set_data (alter (fun written_txs => <[t := Estimate]> written_txs) x) m.

(** The flags of a finished execution; [NeedValidation] and the empty set are the
    same. *)
Definition exec_flags (wrote_new : bool) : FinishExecFlags :=
  if wrote_new then flags_union NeedValidation WroteNewLocation else NeedValidation.

(** ** Transitions *)

Definition base_step (g : MGlobal) (i : nat) (o : Oracle) (m : MvMemory) : option MGlobal :=
  match gstep (base g) i o with
  | Some b => Some (mkMGlobal b m (<[i := M_Idle]> (aux g)))
  | None => None
  end.

Definition mem_step (g : MGlobal) (i : nat) (r : MvMemory * mpc) : option MGlobal :=
  Some (mkMGlobal (base g) r.1 (<[i := r.2]> (aux g))).

(** A thread outside the operations of the memory. *)
Definition idle_step (g : MGlobal) (i : nat) (p : pc) (o : MOracle) : option MGlobal :=
  let m := mem g in
  match p, o with
  | W_Execute v, O_Record rs ws =>
      match loc_free (aux g) (tx_idx v), locations m !! tx_idx v with
      | true, Some locs =>
          mem_step g i (set_locations (tx_idx v) (mkReadWriteSet rs (rw_write locs)) m, M_Drop v ws 0)
      | _, _ => None
      end
  | W_Execute v, O_Deploy h c => mem_step g i (deploy h c m, M_Idle)
  | W_Execute v, O_Lazy l => mem_step g i (add_lazy_addresses l m, M_Idle)
  | W_Execute v, O_Base o =>
      match vm_execute o with Vm_Ok _ => None | _ => base_step g i o m end
  | W_Validate v, O_Memory _ =>
      match loc_free (aux g) (tx_idx v), locations m !! tx_idx v with
      | true, Some locs => mem_step g i (m, M_Check v (map_to_list (rw_read locs)))
      | _, _ => None
      end
  | W_Convert v, O_Memory _ =>
      match loc_free (aux g) (tx_idx v), locations m !! tx_idx v with
      | true, Some locs => mem_step g i (m, M_Conv v (rw_write locs))
      | _, _ => None
      end
  | (W_Validate _ | W_Convert _), _ => None
  | _, O_Base o => base_step g i o m
  | _, _ => None
  end.

Definition mgstep (g : MGlobal) (i : nat) (o : MOracle) : option MGlobal :=
  let m := mem g in
  match threads (base g) !! i, aux g !! i with
  | Some p, Some a =>
      match a, o with
      | M_Idle, _ => idle_step g i p o
      | M_Drop v ws k, O_Memory _ =>
          match locations m !! tx_idx v with
          | Some locs => mem_step g i (drop_step v ws k locs m)
          | None => None
          end
      | M_Enter v [] wrote_new, O_Memory fails =>
          base_step g i (mkOracle (if fails : bool then Vm_ExecutionError else Vm_Ok (exec_flags wrote_new)) true) m
      | M_Enter v (w :: todo) wrote_new, O_Memory _ =>
          match locations m !! tx_idx v with
          | Some locs => mem_step g i (enter_step v w todo wrote_new locs m)
          | None => None
          end
      | M_Check v [], O_Memory _ => base_step g i (mkOracle Vm_Retry true) m
      | M_Check v ((x, os) :: todo), O_Memory _ =>
          if validate_location m (tx_idx v) x os then mem_step g i (m, M_Check v todo)
          else base_step g i (mkOracle Vm_Retry false) m
      | M_Conv v [], O_Memory _ => base_step g i (mkOracle Vm_Retry true) m
      | M_Conv v (x :: todo), O_Memory _ => mem_step g i (conv_step (tx_idx v) x m, M_Conv v todo)
      | _, _ => None
      end
  | _, _ => None
  end.

(** [n] transactions, [k] threads, over a fresh memory. *)
Definition MGlobal_init (n k : nat) (est : gmap LocationHash (list TxIdx)) (lazy : list Address) : MGlobal :=
  mkMGlobal (Global_init n k) (MvMemory_new n est lazy) (replicate k M_Idle).

Inductive mreachable (n k : nat) (est : gmap LocationHash (list TxIdx)) (lazy : list Address) :
    MGlobal -> Prop :=
| mreach_init : mreachable n k est lazy (MGlobal_init n k est lazy)
| mreach_step g i o g' : mreachable n k est lazy g -> mgstep g i o = Some g' ->
    mreachable n k est lazy g'.

Fixpoint run_mschedule (g : MGlobal) (sc : list (nat * MOracle)) : MGlobal :=
  match sc with
  | [] => g
  | (i, o) :: sc' => run_mschedule (default g (mgstep g i o)) sc'
  end.

(** ** The scheduler machine underneath *)

(** A transition is one of the scheduler machine, or leaves it alone. *)
Lemma mgstep_base (g : MGlobal) (i : nat) (o : MOracle) (g' : MGlobal) :
  mgstep g i o = Some g' -> base g' = base g \/ exists bo, gstep (base g) i bo = Some (base g').
Proof.
  unfold mgstep, idle_step, base_step, mem_step. intros Hg.
  repeat case_match; simplify_eq/=; eauto.
Qed.

Lemma mreachable_base (n k : nat) (est : gmap LocationHash (list TxIdx)) (lz : list Address) (g : MGlobal) :
  mreachable n k est lz g -> reachable n k (base g).
Proof.
  induction 1 as [|g i o g' _ IH Hg]; [apply reach_init|].
  destruct (mgstep_base _ _ _ _ Hg) as [->|[bo Hb]]; [done|by eapply reach_step].
Qed.

End MemWorkers.
