(* ===== verification/WorkersMemRefine.v ===== *)
(** * The interleaved accesses implement the operations of the memory

    [MvMemory] translates [record], [validate_read_locations] and
    [convert_writes_to_estimates] as one computation each, [WorkersMem] as a
    sequence of accesses to single locations. A thread that runs undisturbed from
    the entry of an operation to its exit has its effect and its result. *)

From S2P Require Import Prelude Types MvMemory Scheduler Workers WorkersMem.

Section Refine.
Context `{Revm}.
Context (i : nat).

(** Accesses of thread [i] in a row. *)
Definition msolo_step (a b : MGlobal) : Prop := mgstep a i (O_Memory false) = Some b.
Definition msolo : MGlobal -> MGlobal -> Prop := rtc msolo_step.

(** Thread [i] is at [p] and [a]. *)
Definition at_pc (g : MGlobal) (p : pc) (a : mpc) : Prop :=
  threads (base g) !! i = Some p /\ aux g !! i = Some a.

(** The same state with another memory, and thread [i] at [a], or at [p] outside the
    operations. *)
Definition with_mem (g : MGlobal) (m : MvMemory) (a : mpc) : MGlobal :=
  mkMGlobal (base g) m (<[i := a]> (aux g)).
Definition with_pc (g : MGlobal) (m : MvMemory) (p : pc) : MGlobal :=
  mkMGlobal (mkGlobal (shared (base g)) (<[i := p]> (threads (base g)))) m (<[i := M_Idle]> (aux g)).

Definition with_locs (m : MvMemory) (d : gmap LocationHash (gmap TxIdx Entry)) (t : TxIdx) (locs : ReadWriteSet) : MvMemory :=
  mkMvMemory d (<[t := locs]> (locations m)) (lazy_addresses m) (new_bytecodes m).

Lemma at_with_mem (g : MGlobal) (m : MvMemory) (p : pc) (a a' : mpc) :
  at_pc g p a -> at_pc (with_mem g m a') p a'.
Proof. intros [Hp Ha]. split; [done|]. cbn. rewrite list_lookup_insert_eq; [done|]. by eapply lookup_lt_Some. Qed.

Lemma with_mem_twice (g : MGlobal) (m m' : MvMemory) (a a' : mpc) :
  with_mem (with_mem g m a) m' a' = with_mem g m' a'.
Proof. unfold with_mem. cbn. by rewrite list_insert_insert_eq. Qed.

Lemma with_pc_mem (g : MGlobal) (m m' : MvMemory) (a : mpc) (p : pc) :
  with_pc (with_mem g m a) m' p = with_pc g m' p.
Proof. unfold with_mem, with_pc. cbn. by rewrite list_insert_insert_eq. Qed.

Lemma with_locs_lookup (m : MvMemory) (d : gmap LocationHash (gmap TxIdx Entry)) (t : TxIdx) (l l' : ReadWriteSet) :
  locations m !! t = Some l -> locations (with_locs m d t l') !! t = Some l'.
Proof. intros Hl. cbn. rewrite list_lookup_insert_eq; [done|]. by eapply lookup_lt_Some. Qed.

Lemma with_locs_twice (m : MvMemory) (d d' : gmap LocationHash (gmap TxIdx Entry)) (t : TxIdx) (l l' : ReadWriteSet) :
  with_locs (with_locs m d t l) d' t l' = with_locs m d' t l'.
Proof. unfold with_locs. cbn. by rewrite list_insert_insert_eq. Qed.

Lemma with_locs_id (m : MvMemory) (t : TxIdx) (l : ReadWriteSet) :
  locations m !! t = Some l -> with_locs m (data m) t l = m.
Proof. intros Hl. unfold with_locs. rewrite list_insert_id by done. by destruct m. Qed.

(** ** [record] *)

Lemma drop_solo (v : TxVersion) (ws : WriteSet) (fuel k : nat) (g : MGlobal) (locs : ReadWriteSet) :
  at_pc g (W_Execute v) (M_Drop v ws k) -> locations (mem g) !! tx_idx v = Some locs ->
  length (rw_write locs) - k <= fuel ->
  let r := drop_stale fuel ws (tx_idx v) k (rw_write locs) (data (mem g)) in
  msolo g (with_mem g (with_locs (mem g) r.2 (tx_idx v) (mkReadWriteSet (rw_read locs) r.1))
    (M_Enter v (map_to_list ws) false)).
Proof.
  revert k g locs. induction fuel as [|fuel IH]; intros k g locs [Hp Ha] Hl Hf.
  - apply rtc_once. unfold msolo_step, mgstep. rewrite Hp, Ha, Hl. unfold mem_step, drop_step.
    rewrite lookup_ge_None_2 by lia. cbn. destruct locs. cbn. by rewrite with_locs_id.
  - cbn [drop_stale]. destruct (rw_write locs !! k) as [x|] eqn:Hk.
    + pose proof (lookup_lt_Some _ _ _ Hk). destruct (ws !! x) as [val|] eqn:Hx.
      * eapply rtc_l; [|].
        { unfold msolo_step, mgstep. rewrite Hp, Ha, Hl. unfold mem_step, drop_step. rewrite Hk, Hx. reflexivity. }
        cbn [fst snd]. change (mkMGlobal (base g) (mem g) (<[i := M_Drop v ws (k + 1)]> (aux g)))
          with (with_mem g (mem g) (M_Drop v ws (k + 1))).
        specialize (IH (k + 1) (with_mem g (mem g) (M_Drop v ws (k + 1))) locs). cbv zeta in IH. rewrite with_mem_twice in IH.
        apply IH; [by eapply at_with_mem; split|done|lia].
      * set (m1 := with_locs (mem g) (alter (delete (tx_idx v)) x (data (mem g))) (tx_idx v)
          (mkReadWriteSet (rw_read locs) (swap_remove k (rw_write locs)))).
        eapply (rtc_l _ _ (with_mem g m1 (M_Drop v ws k))).
        { unfold msolo_step, mgstep. rewrite Hp, Ha, Hl. unfold mem_step, drop_step. by rewrite Hk, Hx. }
        specialize (IH k (with_mem g m1 (M_Drop v ws k)) (mkReadWriteSet (rw_read locs) (swap_remove k (rw_write locs)))).
        cbv zeta in IH. rewrite with_mem_twice in IH. cbn [mem with_mem] in IH.
        unfold m1 in IH. rewrite with_locs_twice in IH. fold m1 in IH. apply IH.
        -- by eapply at_with_mem; split.
        -- by eapply with_locs_lookup.
        -- pose proof (Permutation_length (swap_remove_perm _ _ _ Hk)) as Hlen. cbn [length] in Hlen.
           cbn [rw_write]. lia.
    + apply rtc_once. unfold msolo_step, mgstep. rewrite Hp, Ha, Hl. unfold mem_step, drop_step.
      rewrite Hk. cbn. destruct locs. cbn. by rewrite with_locs_id.
Qed.

Lemma enter_solo (v : TxVersion) (todo : list (LocationHash * LocationValue)) (wn : bool) (g : MGlobal) (locs : ReadWriteSet) :
  at_pc g (W_Execute v) (M_Enter v todo wn) -> locations (mem g) !! tx_idx v = Some locs ->
  let r := foldl (enter_write v) (data (mem g), rw_write locs, wn) todo in
  msolo g (with_mem g (with_locs (mem g) r.1.1 (tx_idx v) (mkReadWriteSet (rw_read locs) r.1.2)) (M_Enter v [] r.2)).
Proof.
  revert wn g locs. induction todo as [|w todo IH]; intros wn g locs [Hp Ha] Hl.
  - cbn. destruct locs as [rd wr]. cbn. rewrite with_locs_id by done. unfold with_mem. rewrite list_insert_id by done.
    destruct g. apply rtc_refl.
  - cbn [foldl]. destruct (enter_write v (data (mem g), rw_write locs, wn) w) as [[d wr] wn'] eqn:Hw.
    set (m1 := with_locs (mem g) d (tx_idx v) (mkReadWriteSet (rw_read locs) wr)).
    eapply (rtc_l _ _ (with_mem g m1 (M_Enter v todo wn'))).
    { unfold msolo_step, mgstep. rewrite Hp, Ha, Hl. unfold mem_step, enter_step. by rewrite Hw. }
    specialize (IH wn' (with_mem g m1 (M_Enter v todo wn')) (mkReadWriteSet (rw_read locs) wr)).
    cbv zeta in IH. rewrite with_mem_twice in IH. cbn [mem with_mem] in IH.
        unfold m1 in IH. rewrite with_locs_twice in IH. fold m1 in IH. apply IH.
    + by eapply at_with_mem; split.
    + by eapply with_locs_lookup.
Qed.

(** ** The operations *)

Lemma record_solo (v : TxVersion) (rs : ReadSet) (ws : WriteSet) (g : MGlobal) (wrote : bool) (m' : MvMemory) :
  at_pc g (W_Execute v) M_Idle -> loc_free (aux g) (tx_idx v) = true ->
  record v rs ws (mem g) = Return (wrote, m') ->
  exists g1, mgstep g i (O_Record rs ws) = Some g1 /\ msolo g1 (with_pc g m' (TE_Store v (exec_flags wrote))).
Proof.
  intros [Hp Ha] Hfree Hrec. unfold record in Hrec.
  destruct (locations (mem g) !! tx_idx v) as [locs|] eqn:Hl; [|done].
  set (m0 := with_locs (mem g) (data (mem g)) (tx_idx v) (mkReadWriteSet rs (rw_write locs))).
  exists (with_mem g m0 (M_Drop v ws 0)). split.
  { unfold mgstep. rewrite Hp, Ha. cbn. by rewrite Hfree, Hl. }
  destruct (drop_stale _ _ _ _ _ _) as [write d] eqn:Hdrop.
  destruct (foldl _ _ _) as [[d' write'] w] eqn:Hent. injection Hrec as <- <-.
  assert (H0 : at_pc (with_mem g m0 (M_Drop v ws 0)) (W_Execute v) (M_Drop v ws 0)) by (by eapply at_with_mem; split).
  assert (Hl0 : locations m0 !! tx_idx v = Some (mkReadWriteSet rs (rw_write locs))) by (by eapply with_locs_lookup).
  pose proof (drop_solo v ws (length (rw_write locs)) 0 _ _ H0 Hl0) as H1. cbn [rw_write mem with_mem] in H1.
  specialize (H1 ltac:(lia)). change (data m0) with (data (mem g)) in H1. rewrite Hdrop in H1. cbn [fst snd rw_read] in H1.
  rewrite with_mem_twice in H1. unfold m0 in H1. rewrite with_locs_twice in H1. fold m0 in H1.
  etrans; [exact H1|]. set (m1 := with_locs (mem g) d (tx_idx v) (mkReadWriteSet rs write)).
  pose proof (enter_solo v (map_to_list ws) false (with_mem g m1 (M_Enter v (map_to_list ws) false))
    (mkReadWriteSet rs write)) as H2. cbv zeta in H2. cbn [rw_write rw_read mem with_mem] in H2.
  change (data m1) with d in H2. rewrite Hent in H2. cbn [fst snd] in H2.
  rewrite with_mem_twice in H2. unfold m1 in H2. rewrite with_locs_twice in H2. fold m1 in H2.
  etrans; [apply H2; [by eapply at_with_mem; split|by eapply with_locs_lookup]|].
  apply rtc_once. unfold msolo_step, mgstep, with_mem. cbn [base aux mem]. rewrite Hp.
  rewrite list_lookup_insert_eq by (by eapply lookup_lt_Some). unfold base_step, gstep. cbn [base]. rewrite Hp. cbn.
  unfold with_pc. by rewrite list_insert_insert_eq.
Qed.

(** The verdict of a validation. *)
Lemma check_solo (v : TxVersion) (todo : list (LocationHash * list ReadOrigin)) (g : MGlobal) :
  at_pc g (W_Validate v) (M_Check v todo) ->
  msolo g (with_pc g (mem g)
    (if forallb (fun '(x, os) => validate_location (mem g) (tx_idx v) x os) todo then FV_Mark v else TVA_Lock v)).
Proof.
  revert g. induction todo as [|[x os] todo IH]; intros g [Hp Ha].
  - apply rtc_once. unfold msolo_step, mgstep. rewrite Hp, Ha. unfold base_step, gstep. by rewrite Hp.
  - cbn [forallb]. destruct (validate_location (mem g) (tx_idx v) x os) eqn:Hv; cbn [andb].
    + eapply (rtc_l _ _ (with_mem g (mem g) (M_Check v todo))).
      { unfold msolo_step, mgstep. by rewrite Hp, Ha, Hv. }
      specialize (IH (with_mem g (mem g) (M_Check v todo))). rewrite with_pc_mem in IH.
      apply IH. by eapply at_with_mem; split.
    + apply rtc_once. unfold msolo_step, mgstep. rewrite Hp, Ha, Hv. unfold base_step, gstep. by rewrite Hp.
Qed.

Lemma validate_solo_mem (v : TxVersion) (g : MGlobal) (b : bool) :
  at_pc g (W_Validate v) M_Idle -> loc_free (aux g) (tx_idx v) = true ->
  validate_read_locations (tx_idx v) (mem g) = Return b ->
  msolo g (with_pc g (mem g) (if b then FV_Mark v else TVA_Lock v)).
Proof.
  intros [Hp Ha] Hfree Hval. unfold validate_read_locations in Hval.
  destruct (locations (mem g) !! tx_idx v) as [locs|] eqn:Hl; [|done]. injection Hval as <-.
  eapply (rtc_l _ _ (with_mem g (mem g) (M_Check v (map_to_list (rw_read locs))))).
  { unfold msolo_step, mgstep. rewrite Hp, Ha. cbn. by rewrite Hfree, Hl. }
  pose proof (check_solo v (map_to_list (rw_read locs)) (with_mem g (mem g) (M_Check v (map_to_list (rw_read locs))))) as Hc.
  rewrite with_pc_mem in Hc. apply Hc. by eapply at_with_mem; split.
Qed.

Lemma conv_solo (v : TxVersion) (todo : list LocationHash) (g : MGlobal) :
  at_pc g (W_Convert v) (M_Conv v todo) ->
  msolo g (with_pc g (foldl (fun m x => conv_step (tx_idx v) x m) (mem g) todo) (FV_Ready v)).
Proof.
  revert g. induction todo as [|x todo IH]; intros g [Hp Ha].
  - apply rtc_once. unfold msolo_step, mgstep. rewrite Hp, Ha. unfold base_step, gstep. by rewrite Hp.
  - eapply (rtc_l _ _ (with_mem g (conv_step (tx_idx v) x (mem g)) (M_Conv v todo))).
    { unfold msolo_step, mgstep. by rewrite Hp, Ha. }
    specialize (IH (with_mem g (conv_step (tx_idx v) x (mem g)) (M_Conv v todo))). rewrite with_pc_mem in IH.
    apply IH. by eapply at_with_mem; split.
Qed.

Lemma convert_solo (v : TxVersion) (g : MGlobal) (m' : MvMemory) :
  at_pc g (W_Convert v) M_Idle -> loc_free (aux g) (tx_idx v) = true ->
  convert_writes_to_estimates (tx_idx v) (mem g) = Return (tt, m') ->
  msolo g (with_pc g m' (FV_Ready v)).
Proof.
  intros [Hp Ha] Hfree Hc. unfold convert_writes_to_estimates in Hc.
  destruct (locations (mem g) !! tx_idx v) as [locs|] eqn:Hl; [|done]. injection Hc as <-.
  eapply (rtc_l _ _ (with_mem g (mem g) (M_Conv v (rw_write locs)))).
  { unfold msolo_step, mgstep. rewrite Hp, Ha. cbn. by rewrite Hfree, Hl. }
  pose proof (conv_solo v (rw_write locs) (with_mem g (mem g) (M_Conv v (rw_write locs)))) as Hs.
  rewrite with_pc_mem in Hs. cbn [mem with_mem] in Hs.
  assert (Hfold : forall l m, foldl (fun m x => conv_step (tx_idx v) x m) m l = set_data (fun d =>
    foldl (fun d x => alter (fun written_txs => <[tx_idx v := Estimate]> written_txs) x d) d l) m).
  { induction l as [|x l IHl]; intros m; [by destruct m|]. cbn [foldl]. rewrite IHl. done. }
  rewrite Hfold in Hs. apply Hs. by eapply at_with_mem; split.
Qed.

(** ** Properties *)

(** C12. The accesses of the interleaved machine implement the operations of the
    memory: a thread that runs undisturbed from its entry leaves the memory as
    [record] leaves it and goes on with the flag [record] returns; it accepts a
    transaction exactly when [validate_read_locations] does; and it leaves the memory
    as [convert_writes_to_estimates] does. *)
Theorem memory_steps_refine (v : TxVersion) (g : MGlobal) (Hfree : loc_free (aux g) (tx_idx v) = true) :
  (forall rs ws wrote m', at_pc g (W_Execute v) M_Idle -> record v rs ws (mem g) = Return (wrote, m') ->
     exists g1, mgstep g i (O_Record rs ws) = Some g1 /\ msolo g1 (with_pc g m' (TE_Store v (exec_flags wrote)))) /\
  (forall b, at_pc g (W_Validate v) M_Idle -> validate_read_locations (tx_idx v) (mem g) = Return b ->
     msolo g (with_pc g (mem g) (if b then FV_Mark v else TVA_Lock v))) /\
  (forall m', at_pc g (W_Convert v) M_Idle -> convert_writes_to_estimates (tx_idx v) (mem g) = Return (tt, m') ->
     msolo g (with_pc g m' (FV_Ready v))).
Proof.
  split; [|split].
  - intros. by apply record_solo.
  - intros. by apply validate_solo_mem.
  - intros. by apply convert_solo.
Qed.

End Refine.

(** ** Examples *)

Section Examples.
#[local] Existing Instance example_revm.
Local Open Scope Z_scope.

(** The first transaction, about to record a write. *)
Definition example_recording : MGlobal :=
  mkMGlobal (mkGlobal (Shared_init 1) [W_Execute (mkTxVersion 0 0)]) (MvMemory_new 1 ∅ []) [M_Idle].

Lemma memory_steps_refine_witness :
  exists g1, mgstep example_recording 0 (O_Record ∅ {[ 5 := LV_Storage 7 ]}) = Some g1 /\
    exists g2, msolo 0 g1 g2 /\ threads (base g2) = [TE_Store (mkTxVersion 0 0) WroteNewLocation] /\
      entry (mem g2) 5 0 = Some (Data 0 (LV_Storage 7)).
Proof.
  destruct (record (mkTxVersion 0 0) ∅ {[ 5 := LV_Storage 7 ]} (mem example_recording)) as [[wrote m']| |] eqn:Hr;
    try (vm_compute in Hr; discriminate Hr).
  assert (Hfree : loc_free (aux example_recording) 0%nat = true) by reflexivity.
  destruct (proj1 (memory_steps_refine 0 (mkTxVersion 0 0) example_recording Hfree) ∅ {[ 5 := LV_Storage 7 ]} wrote m')
    as (g1 & Hg & Hs); [by split|exact Hr|].
  exists g1. split; [exact Hg|]. eexists. split; [exact Hs|]. vm_compute in Hr. injection Hr as <- <-.
  split; reflexivity.
Defined.

End Examples.
