(* ===== verification/WorkersMemInv.v ===== *)
(** * Invariant of the worker threads over the memory

    The invariant behind the correctness of optimistic execution: whenever a finished
    transaction has read something that is no longer current, somebody is going to
    validate it again. Also: the data of a transaction can only be read while it is
    finished, or by accident of an incarnation that is being recorded or aborted. *)

From S2P Require Import Prelude Types MvMemory Scheduler Workers WorkersInv WorkersMem.

Section MemInv.
Context `{Revm}.

(** ** When a read stays valid *)

Lemma match_origins_mono (w w' : gmap TxIdx Entry) (i : TxIdx) (os : list ReadOrigin) :
  (forall u, u < i -> w !! u = w' !! u \/ w !! u = Some Estimate) ->
  match_origins (range_below w i) os = true -> match_origins (range_below w' i) os = true.
Proof.
  revert os. induction i as [|i IH]; intros os Hw Hm; [done|].
  assert (Hw' : forall u, u < i -> w !! u = w' !! u \/ w !! u = Some Estimate) by (intros; apply Hw; lia).
  rewrite range_below_S in Hm |- *. destruct (Hw i ltac:(lia)) as [<-|He].
  - destruct (w !! i) as [[inc val|]|]; [|by destruct os as [|[]]|by apply IH].
    destruct os as [|[v|] os]; cbn [match_origins] in *; [done| |done].
    case_match; [by apply IH|done].
  - rewrite He in Hm. destruct os as [|[]]; [by destruct (w' !! i)|done|done].
Qed.

Lemma below_mono (m m' : MvMemory) (i : TxIdx) (x : LocationHash) (os : list ReadOrigin) :
  (forall u, u < i -> entry m x u = entry m' x u \/ entry m x u = Some Estimate) ->
  match_origins (below m i x) os = true -> match_origins (below m' i x) os = true.
Proof.
  assert (Hb : forall w, below w i x = range_below (default ∅ (data w !! x)) i).
  { intros w. unfold below. destruct (data w !! x); [done|]. symmetry. by apply range_below_nil. }
  assert (He : forall w u, entry w x u = default ∅ (data w !! x) !! u)
    by (intros w u; unfold entry; by destruct (data w !! x)).
  intros Hu. rewrite !Hb. apply match_origins_mono. intros u Hlt. rewrite <- !He. by apply Hu.
Qed.

(** Overwriting or removing an estimate, and changes at or above the reader, do not
    make a valid read invalid. *)
Lemma validate_location_mono (m m' : MvMemory) (i : TxIdx) (x : LocationHash) (os : list ReadOrigin) :
  (forall u, u < i -> entry m x u = entry m' x u \/ entry m x u = Some Estimate) ->
  (is_Some (data m !! x) -> is_Some (data m' !! x)) ->
  validate_location m i x os = true -> validate_location m' i x os = true.
Proof.
  unfold entry, validate_location. intros He Hd Hv. destruct (data m !! x) as [w|].
  - destruct Hd as [w' Hw']; [by eexists|]. rewrite Hw' in *. by eapply match_origins_mono.
  - apply bool_decide_eq_true in Hv as ->. destruct (data m' !! x) as [w'|]; [|done].
    rewrite (proj2 (range_below_nil w' i)); [done|]. intros u Hu.
    destruct (He u Hu) as [Heq|Heq]; [by symmetry|done].
Qed.

(** ** Who takes care of a transaction that has to be validated again *)

(** A thread outside the memory's operations at [p] will have [i] validated again,
    or lower the validation index to it, or stop the block. *)
Definition covers (i : TxIdx) (p : pc) : Prop :=
  match p with
  | NT_InspectVal j => j = i
  | W_Validate v | W_Check (Some (Validation v)) | TVA_Lock v | TVA_Sub v | TVA_Set v => tx_idx v = i
  | W_Convert v | FV_Ready v | FV_LowerVal v => tx_idx v < i
  | TE_Store v f | FE_Lock v f | FE_Ready v f _ | FE_MinExec v f _ _ | FE_MinVal v f | FE_LoadVal v f _ =>
      flags_contains f WroteNewLocation = true /\ tx_idx v < i
  | FE_LowerVal v f k _ => k <= i
  | TE_Abort _ _ | TE_SetReason _ _ => True
  | _ => False
  end.

(** The same with the operations of the memory, for the read of [x] from [os]. *)
Definition covering (i : TxIdx) (x : LocationHash) (os : list ReadOrigin) (p : pc) (a : mpc) : Prop :=
  match a with
  | M_Idle => covers i p
  | M_Drop _ _ _ => False
  | M_Enter v _ wrote_new => wrote_new = true /\ tx_idx v < i
  | M_Check v todo => tx_idx v = i /\ (x, os) ∈ todo
  | M_Conv v _ => tx_idx v < i
  end.

(** The thread is why [t], though not finished, has data at [x]: it has recorded it
    and is finishing the execution, or it is converting it to an estimate. *)
Definition data_owner (t : TxIdx) (x : LocationHash) (p : pc) (a : mpc) : Prop :=
  match a with
  | M_Idle =>
      match p with
      | TE_Store v _ | FE_Lock v _ | FE_Ready v _ _ | FE_MinExec v _ _ _ | FE_MinVal v _
      | FE_LoadVal v _ _ | FE_LowerVal v _ _ _ | FE_Status v _ _ | TE_Abort v _ | TE_SetReason v _
      | W_Convert v => tx_idx v = t
      | _ => False
      end
  | M_Enter v todo _ => tx_idx v = t /\ x ∉ todo.*1
  | M_Conv v todo => tx_idx v = t /\ x ∈ todo
  | _ => False
  end.

(** Which operation of the memory belongs to which place in the loop. *)
Definition aux_ok (p : pc) (a : mpc) : Prop :=
  match a with
  | M_Idle => True
  | M_Drop v _ _ => p = W_Execute v
  | M_Enter v todo _ => p = W_Execute v /\ NoDup todo.*1
  | M_Check v _ => p = W_Validate v
  | M_Conv v _ => p = W_Convert v
  end.

Definition pc_more (p : pc) : Prop :=
  match p with
  | FE_LoadVal v _ m => m <= tx_idx v
  | FE_LowerVal v _ k early => k <= tx_idx v + 1 /\ early = true
  | _ => True
  end.

(** ** Some thread *)

Definition someone (ts : list pc) (l : list mpc) (P : pc -> mpc -> Prop) : Prop :=
  exists k p a, ts !! k = Some p /\ l !! k = Some a /\ P p a.

Lemma someone_keep (ts : list pc) (l : list mpc) (P : pc -> mpc -> Prop) (i : nat) (p p' : pc) (a a' : mpc) :
  ts !! i = Some p -> l !! i = Some a -> someone ts l P ->
  P p a \/ someone (<[i := p']> ts) (<[i := a']> l) P.
Proof.
  intros Hp Ha (k & q & b & Hq & Hb & HP). destruct (decide (k = i)) as [->|Hne].
  - left. by simplify_eq.
  - right. exists k, q, b. by rewrite !list_lookup_insert_ne by congruence.
Qed.

Lemma someone_new (ts : list pc) (l : list mpc) (P : pc -> mpc -> Prop) (i : nat) (p p' : pc) (a a' : mpc) :
  ts !! i = Some p -> l !! i = Some a -> P p' a' -> someone (<[i := p']> ts) (<[i := a']> l) P.
Proof.
  intros Hp Ha HP. exists i, p', a'. rewrite !list_lookup_insert_eq; [done| |]; by eapply lookup_lt_Some.
Qed.

(** ** The invariant *)

Record MInv (n : nat) (g : MGlobal) : Prop := mkMInv {
  mi_len_loc : length (locations (mem g)) = n;
  mi_wf : mv_wf (mem g);
  mi_aux : forall k p a, threads (base g) !! k = Some p -> aux g !! k = Some a -> aux_ok p a /\ pc_more p;
  mi_len_aux : length (aux g) = length (threads (base g));
  mi_pre : abort_reason (shared (base g)) = None ->
    forall k v f, threads (base g) !! k = Some (FE_Status v f false) ->
    validation_idx (sched (shared (base g))) <= tx_idx v \/
    exists j, threads (base g) !! j = Some (NT_InspectVal (tx_idx v)) /\ aux g !! j = Some M_Idle;
  mi_data : abort_reason (shared (base g)) = None ->
    forall x t inc val, entry (mem g) x t = Some (Data inc val) ->
    finished_at (tx_status (sched (shared (base g)))) t \/
    someone (threads (base g)) (aux g) (data_owner t x);
  mi_reads : abort_reason (shared (base g)) = None ->
    forall i locs x os, finished_at (tx_status (sched (shared (base g)))) i ->
    locations (mem g) !! i = Some locs -> rw_read locs !! x = Some os ->
    validate_location (mem g) i x os = true \/
    validation_idx (sched (shared (base g))) <= i \/
    someone (threads (base g)) (aux g) (covering i x os);
}.

(** ** Transitions of the scheduler machine *)

Section Step.
Context (n : nat) (o : Oracle) (free : TxIdx -> bool) (g g' : Shared) (p p' : pc).
Context (F : Facts n g p) (H0 : tstep o free g p = Next g' p').

Lemma pc_more_step : pc_more p -> pc_more p'.
Proof using F H0.
  intros Hm. step_cases H0; step_norm; facts F; cbn [pc_more] in *; try done; try lia.
  split; [|done]. pose proof (usize_add_le (tx_idx v)). lia.
Qed.

(** The validation index only passes [i] when the thread takes [i] for inspection. *)
Lemma validation_idx_step (i : TxIdx) :
  i < n -> validation_idx (sched g) <= i ->
  validation_idx (sched g') <= i \/ p' = NT_InspectVal i.
Proof using F H0.
  intros Hi Hle. step_cases H0; step_norm; facts F; try (left; lia).
  all: pose proof (usize_add_le (validation_idx (sched g)));
    destruct (decide (validation_idx (sched g) = i)) as [<-|]; [|left; lia]; try (by right); lia.
Qed.

Lemma finished_step (i : TxIdx) :
  finished_at (tx_status (sched g')) i ->
  finished_at (tx_status (sched g)) i \/
  exists v f early, p = FE_Status v f early /\ tx_idx v = i /\
    validation_idx (sched g') = validation_idx (sched g) /\
    p' = W_Check (if early : bool then Some (Validation v) else None).
Proof using F H0.
  intros Hfin. step_cases H0; step_norm; facts F; try (by left);
    destruct Hfin as (x & Hx & Hf); apply lookup_insert_cases in Hx as [(-> & -> & _)|[_ Hx]];
    try discriminate Hf; try (by left; eexists); try (by right; eauto 10).
  left. exists t. split; [done|]. by match goal with K : status t = _ |- _ => rewrite K end.
Qed.

Lemma covers_step (i : TxIdx) (X : Prop) :
  i < n -> pc_more p -> abort_reason g' = None -> (forall v, p ≠ W_Validate v) ->
  (forall v f, p = FE_Status v f false -> tx_idx v = i -> validation_idx (sched g) <= i \/ X) ->
  (finished_at (tx_status (sched g)) i -> validation_idx (sched g) <= i \/ covers i p \/ X) ->
  finished_at (tx_status (sched g')) i ->
  validation_idx (sched g') <= i \/ covers i p' \/ X.
Proof using F H0.
  intros Hi Hm Hr Hval Hpre Hold Hfin.
  destruct (finished_step i Hfin) as [Hf|(v & f & early & -> & Hv & Hidx & ->)].
  - destruct (Hold Hf) as [Hle|[Hc|HX]]; [|clear Hold Hpre|by auto].
    { destruct (validation_idx_step i Hi Hle) as [?| ->]; [by left|by right; left]. }
    destruct Hf as (x & Hx & Hs).
    step_cases H0; step_norm; facts F; cbn [covers pc_more] in *; try done; subst; simplify_eq;
      try (by right; left); try (by left; lia); try (by exfalso; eapply Hval).
    all: try match goal with K : status ?t = _, L : is_finished (status ?t) = true |- _ =>
      rewrite K in L; discriminate L end.
    all: try (pose proof (usize_add_le (tx_idx v)); first [left; lia|right; left; lia|exfalso; lia]).
    all: try congruence; try (destruct Hc; congruence).
    all: destruct Hfin as (y & Hy & Hyf); apply lookup_insert_cases in Hy as [(_ & -> & _)|[? _]];
      [discriminate Hyf|congruence].
  - rewrite Hidx. destruct early; [by right; left|]. destruct (Hpre v f eq_refl Hv); auto.
Qed.
(** Data of an unfinished transaction keeps its owner. *)
Lemma data_owner_step (t : TxIdx) (x : LocationHash) (X : Prop) :
  abort_reason g' = None -> (forall v, p ≠ W_Convert v) ->
  finished_at (tx_status (sched g)) t \/ data_owner t x p M_Idle \/ X ->
  finished_at (tx_status (sched g')) t \/ data_owner t x p' M_Idle \/ X.
Proof using F H0.
  intros Hr Hconv [Hf|[Ho|HX]]; [| |by auto].
  - assert (Hst : tx_status (sched g') = tx_status (sched g) -> finished_at (tx_status (sched g')) t)
      by (by intros ->).
    destruct Hf as (y & Hy & Hs). pose proof (f_pend _ _ _ F t) as Hp.
    rewrite (st_is_lookup _ _ _ _ Hy) in Hp. rewrite decide_False in Hp by (intros E; by rewrite E in Hs).
    step_cases H0; step_norm; facts F; try (by left; apply Hst); clear Hst;
      match goal with |- finished_at (<[?i:=?z]> _) _ \/ _ => destruct (decide (t = i)) as [->|Hne] end;
      try (left; exists y; rewrite list_lookup_insert_ne by congruence; done);
      simplify_eq; try (by right; left);
      try (left; eexists; rewrite list_lookup_insert_eq by (by eapply lookup_lt_Some); done); exfalso;
      try match goal with K : status ?z = _, L : is_finished (status ?z) = true |- _ =>
        rewrite K in L; discriminate L end;
      cbn [cnt sum_list_with] in Hp; unfold cnt in Hp; simpl in Hp; rewrite ?ind_eq in Hp;
      try lia; try discriminate Hs.
  - step_cases H0; step_norm; facts F; cbn [data_owner] in *; try done; subst; auto;
      try (by exfalso; eapply Hconv); try discriminate Hr.
    all: left; eexists; rewrite list_lookup_insert_eq by (by eapply lookup_lt_Some); done.
Qed.

(** What makes the pending test of [finish_execution] cover its transaction. *)
Lemma pre_step (v : TxVersion) (f : FinishExecFlags) :
  pc_more p -> p' = FE_Status v f false -> validation_idx (sched g') <= tx_idx v.
Proof using F H0.
  intros Hm Hp'. step_cases H0; step_norm; facts F; cbn [pc_more] in *; try done; simplify_eq; try lia.
Qed.

(** Nobody inspects a transaction whose mutex is held. *)
Lemma inspect_blocked (i : TxIdx) : p = NT_InspectVal i -> free i = true.
Proof using F H0. intros ->. cbn in H0. unfold locked in H0. by destruct (free i). Qed.

End Step.

(** A step of a thread that is not in an operation of the memory. *)
Lemma MInv_base (n : nat) (g : MGlobal) (i : nat) (p : pc) (o : Oracle) (b : Global) :
  Inv n (base g) -> MInv n g -> threads (base g) !! i = Some p -> aux g !! i = Some M_Idle ->
  (forall v, p ≠ W_Validate v) -> (forall v, p ≠ W_Convert v) ->
  gstep (base g) i o = Some b -> MInv n (mkMGlobal b (mem g) (<[i := M_Idle]> (aux g))).
Proof.
  intros HI HM Hp Ha Hval Hconv (q & sh & p' & Hq & Ht & ->)%gstep_inv.
  assert (q = p) as -> by congruence.
  pose proof (Inv_facts _ _ _ _ HI Hp) as F. destruct (mi_aux _ _ HM _ _ _ Hp Ha) as [_ Hmore].
  destruct (mono_step _ _ _ _ _ _ _ F Ht) as (_ & _ & Hreason & _).
  assert (Hback : abort_reason sh = None -> abort_reason (shared (base g)) = None)
    by (intros E; destruct Hreason as [?|[r Hr]]; congruence).
  constructor; cbn [base mem aux shared threads].
  - apply HM.
  - apply HM.
  - intros k r a Hr Hl. apply lookup_insert_cases in Hl as [(-> & -> & _)|[Hne Hl]].
    + rewrite list_lookup_insert_eq in Hr by (by eapply lookup_lt_Some). simplify_eq.
      split; [done|]. by eapply pc_more_step.
    + rewrite list_lookup_insert_ne in Hr by congruence. by eapply (mi_aux _ _ HM).
  - rewrite !length_insert. apply HM.
  - intros Hr k v f Hk. apply lookup_insert_cases in Hk as [(-> & Hk & _)|[Hne Hk]].
    + left. by eapply pre_step.
    + assert (Hv : tx_idx v < n) by (by destruct (inv_pc _ _ HI _ _ Hk)).
      destruct (mi_pre _ _ HM (Hback Hr) _ _ _ Hk) as [Hle|(j & Hj & Hja)].
      * destruct (validation_idx_step _ _ _ _ _ _ _ F Ht _ Hv Hle) as [?| ->]; [by left|right].
        exists i. rewrite !list_lookup_insert_eq by (by eapply lookup_lt_Some). done.
      * destruct (decide (j = i)) as [->|Hji].
        { exfalso. simplify_eq. pose proof (inspect_blocked _ _ _ _ _ _ _ F Ht _ eq_refl) as Hfree.
          destruct (other_locks n (base g) i k _ _ (tx_idx v) HI Hp Hk ltac:(congruence)) as [Hf _].
          { unfold lk, cnt. simpl. rewrite ind_eq. lia. }
          congruence. }
        right. exists j. by rewrite !list_lookup_insert_ne by congruence.
  - intros Hr x t inc val He. destruct (data_owner_step _ _ _ _ _ _ _ F Ht t x
      (someone (<[i:=p']> (threads (base g))) (<[i:=M_Idle]> (aux g)) (data_owner t x)) Hr Hconv) as [?|[Ho|?]];
      [|by left|right; by eapply someone_new|by right].
    destruct (mi_data _ _ HM (Hback Hr) _ _ _ _ He) as [?|Hs]; [by left|right].
    by eapply someone_keep.
  - intros Hr j locs x os Hfin Hl Hos.
    assert (Hj : j < n) by (apply lookup_lt_Some in Hl; by rewrite (mi_len_loc _ _ HM) in Hl).
    set (X := validate_location (mem g) j x os = true \/
      someone (<[i:=p']> (threads (base g))) (<[i:=M_Idle]> (aux g)) (covering j x os)).
    destruct (covers_step _ _ _ _ _ _ _ F Ht j X Hj Hmore Hr Hval) as [?|[Hc|[?|?]]]; try done.
    + intros v f -> Hv. destruct (mi_pre _ _ HM (Hback Hr) _ _ _ Hp) as [Hle|(k & Hk & Hka)]; [left; lia|].
      right; right. exists k, (NT_InspectVal (tx_idx v)), M_Idle.
      assert (k ≠ i) by (intros ->; congruence). by rewrite !list_lookup_insert_ne by congruence.
    + intros Hf. destruct (mi_reads _ _ HM (Hback Hr) _ _ _ _ Hf Hl Hos) as [?|[?|Hs]];
        [by right; right; left|by left|right].
      destruct (someone_keep _ _ _ _ _ p' _ M_Idle Hp Ha Hs) as [?|?]; [by left|by right; right].
    + by right; left.
    + right; right. by eapply someone_new.
    + by left.
    + by right; right.
Qed.

(** A step that leaves the scheduler alone: a thread outside of [next_task] and
    [finish_execution] moves from [p], [a] to [p'], [a'] and the memory to [m']. *)
Lemma MInv_update (n : nat) (g : MGlobal) (i : nat) (p p' : pc) (a a' : mpc) (m' : MvMemory) :
  Inv n (base g) -> MInv n g -> threads (base g) !! i = Some p -> aux g !! i = Some a ->
  length (locations m') = n -> mv_wf m' -> aux_ok p' a' -> pc_more p' ->
  (forall j, p ≠ NT_InspectVal j) -> (forall v f, p' ≠ FE_Status v f false) ->
  (abort_reason (shared (base g)) = None ->
   forall x t inc val, entry m' x t = Some (Data inc val) -> data_owner t x p' a' \/
     exists inc' val', entry (mem g) x t = Some (Data inc' val') /\ (data_owner t x p a -> data_owner t x p' a')) ->
  (abort_reason (shared (base g)) = None ->
   forall j locs' x os, finished_at (tx_status (sched (shared (base g)))) j ->
     locations m' !! j = Some locs' -> rw_read locs' !! x = Some os ->
     (exists locs, locations (mem g) !! j = Some locs /\ rw_read locs !! x = Some os) /\
     (validate_location (mem g) j x os = true \/ covering j x os p a ->
      validate_location m' j x os = true \/ covering j x os p' a')) ->
  MInv n (mkMGlobal (mkGlobal (shared (base g)) (<[i := p']> (threads (base g)))) m' (<[i := a']> (aux g))).
Proof.
  intros HI HM Hp Ha Hlen Hwf Hok Hmore Hni Hns Hdata Hreads.
  constructor; cbn [base mem aux shared threads]; try done.
  - intros k r c Hr Hl. apply lookup_insert_cases in Hl as [(-> & -> & _)|[Hne Hl]].
    + rewrite list_lookup_insert_eq in Hr by (by eapply lookup_lt_Some). by simplify_eq.
    + rewrite list_lookup_insert_ne in Hr by congruence. by eapply (mi_aux _ _ HM).
  - rewrite !length_insert. apply HM.
  - intros Hr k v f Hk. apply lookup_insert_cases in Hk as [(-> & Hk & _)|[Hne Hk]]; [by destruct (Hns v f)|].
    destruct (mi_pre _ _ HM Hr _ _ _ Hk) as [?|(j & Hj & Hja)]; [by left|right].
    exists j. assert (j ≠ i) by (intros ->; simplify_eq; by eapply Hni).
    by rewrite !list_lookup_insert_ne by congruence.
  - intros Hr x t inc val He. destruct (Hdata Hr _ _ _ _ He) as [Ho|(inc' & val' & He' & Ho)].
    + right. by eapply someone_new.
    + destruct (mi_data _ _ HM Hr _ _ _ _ He') as [?|Hs]; [by left|right].
      destruct (someone_keep _ _ _ _ _ p' _ a' Hp Ha Hs) as [?|?]; [|done].
      eapply someone_new; eauto.
  - intros Hr j locs' x os Hfin Hl Hos. destruct (Hreads Hr _ _ _ _ Hfin Hl Hos) as [(locs & Hl0 & Hos0) Hkeep].
    assert (Hnew : validate_location (mem g) j x os = true \/ covering j x os p a ->
      validate_location m' j x os = true \/ validation_idx (sched (shared (base g))) <= j \/
      someone (<[i := p']> (threads (base g))) (<[i := a']> (aux g)) (covering j x os)).
    { intros Hc. destruct (Hkeep Hc); [by left|right; right]. by eapply someone_new. }
    destruct (mi_reads _ _ HM Hr _ _ _ _ Hfin Hl0 Hos0) as [?|[?|Hs]]; [auto|auto|].
    destruct (someone_keep _ _ _ _ _ p' _ a' Hp Ha Hs) as [?|?]; auto.
Qed.

(** ** Operations of the memory *)

Lemma entry_drop (m : MvMemory) (x y : LocationHash) (t u : TxIdx) :
  entry (set_data (alter (delete t) x) m) y u = if decide (y = x /\ u = t) then None else entry m y u.
Proof.
  unfold entry. cbn [data set_data]. destruct (decide (y = x)) as [->|Hne].
  - rewrite lookup_alter_eq. destruct (data m !! x) as [w|]; cbn; [|by case_decide].
    destruct (decide (u = t)) as [->|Hu].
    + by rewrite lookup_delete_eq, decide_True.
    + rewrite lookup_delete_ne by congruence. by rewrite decide_False by tauto.
  - rewrite lookup_alter_ne by congruence. by rewrite decide_False by tauto.
Qed.

Lemma entry_conv (m : MvMemory) (x y : LocationHash) (t u : TxIdx) :
  entry (conv_step t x m) y u =
  if decide (y = x /\ u = t /\ is_Some (data m !! x)) then Some Estimate else entry m y u.
Proof.
  unfold entry, conv_step. cbn [data set_data]. destruct (decide (y = x)) as [->|Hne].
  - rewrite lookup_alter_eq. destruct (data m !! x) as [w|] eqn:Hx; cbn.
    + destruct (decide (u = t)) as [->|Hu].
      * rewrite lookup_insert_eq, decide_True; [done|]. split; [done|split; [done|by eexists]].
      * rewrite lookup_insert_ne by congruence. by rewrite decide_False by tauto.
    + rewrite decide_False; [done|]. by intros (_ & _ & [? ?]).
  - rewrite lookup_alter_ne by congruence. by rewrite decide_False by tauto.
Qed.

Lemma data_alter_some (m : MvMemory) (f : gmap TxIdx Entry -> gmap TxIdx Entry) (x y : LocationHash) :
  is_Some (data m !! y) -> is_Some (data (set_data (alter f x) m) !! y).
Proof. intros Hy. cbn. by rewrite lookup_alter_is_Some. Qed.

Lemma drop_wf (m : MvMemory) (t : TxIdx) (locs : ReadWriteSet) (k : nat) (x : LocationHash) :
  mv_wf m -> locations m !! t = Some locs -> rw_write locs !! k = Some x ->
  mv_wf (set_locations t (mkReadWriteSet (rw_read locs) (swap_remove k (rw_write locs)))
           (set_data (alter (delete t) x) m)).
Proof.
  intros W Hl Hk. set (m1 := set_data (alter (delete t) x) m).
  pose proof (swap_remove_perm _ _ _ Hk) as Hperm. pose proof (wf_nodup m W _ _ Hl) as Hnd.
  rewrite <- Hperm in Hnd. apply list.NoDup_cons in Hnd as [Hx Hnd].
  assert (Hin : forall y, y ∈ rw_write locs <-> y = x \/ y ∈ swap_remove k (rw_write locs))
    by (intros y; rewrite <- elem_of_cons; by rewrite Hperm).
  assert (Hent : forall y u, entry (set_locations t (mkReadWriteSet (rw_read locs) (swap_remove k (rw_write locs))) m1) y u
    = entry m1 y u) by done.
  constructor.
  - intros u l Hu. cbn in Hu. apply lookup_insert_cases in Hu as [(-> & -> & _)|[_ Hu]]; [done|].
    by eapply (wf_nodup m W).
  - intros y u inc val He. rewrite Hent in He. unfold m1 in He. rewrite entry_drop in He. case_decide as Hd; [done|].
    destruct (wf_data m W _ _ _ _ He) as (l & Hu & Hy). cbn.
    destruct (decide (u = t)) as [->|Hne].
    + rewrite list_lookup_insert_eq by (by eapply lookup_lt_Some). eexists. split; [done|]. cbn.
      simplify_eq. apply Hin in Hy as [->|]; [tauto|done].
    + rewrite list_lookup_insert_ne by congruence. eauto.
  - intros y u l Hu Hy. rewrite Hent. unfold m1. rewrite entry_drop. cbn in Hu.
    apply lookup_insert_cases in Hu as [(-> & -> & _)|[Hne Hu]].
    + rewrite decide_False by (intros [-> _]; done). eapply (wf_written m W); [done|]. apply Hin. by right.
    + rewrite decide_False by tauto. by eapply (wf_written m W).
Qed.

Lemma conv_wf (m : MvMemory) (t : TxIdx) (x : LocationHash) : mv_wf m -> mv_wf (conv_step t x m).
Proof.
  intros W. constructor.
  - intros u l Hu. by eapply (wf_nodup m W).
  - intros y u inc val He. rewrite entry_conv in He. case_decide; [done|]. by eapply (wf_data m W).
  - intros y u l Hu Hy. rewrite entry_conv. case_decide; [by eexists|]. by eapply (wf_written m W).
Qed.

(** What [enter_step] leaves. *)
Lemma enter_step_spec (v : TxVersion) (x : LocationHash) (val : LocationValue)
    (todo : list (LocationHash * LocationValue)) (wn : bool) (locs : ReadWriteSet) (m : MvMemory) :
  mv_wf m -> locations m !! tx_idx v = Some locs ->
  exists m' wn', enter_step v (x, val) todo wn locs m = (m', M_Enter v todo wn') /\ mv_wf m' /\
    length (locations m') = length (locations m) /\
    (forall y u, entry m' y u = if decide (y = x /\ u = tx_idx v) then Some (Data (tx_incarnation v) val) else entry m y u) /\
    (forall y, is_Some (data m !! y) -> is_Some (data m' !! y)) /\
    (forall j, rw_read <$> locations m' !! j = rw_read <$> locations m !! j) /\
    (wn = true -> wn' = true) /\ (wn' = true \/ x ∈ rw_write locs).
Proof.
  intros W Hl. unfold enter_step, enter_write.
  set (d' := <[x := <[tx_idx v := Data (tx_incarnation v) val]> (default ∅ (data m !! x))]> (data m)).
  assert (Hent : forall y u, entry_in d' y u =
    if decide (y = x /\ u = tx_idx v) then Some (Data (tx_incarnation v) val) else entry m y u)
    by (intros; apply entry_insert).
  assert (Hsome : forall y, is_Some (data m !! y) -> is_Some (d' !! y)).
  { intros y Hy. unfold d'. destruct (decide (y = x)) as [->|]; [rewrite lookup_insert_eq; by eexists|].
    by rewrite lookup_insert_ne by congruence. }
  assert (Hlt : tx_idx v < length (locations m)) by (by eapply lookup_lt_Some).
  assert (Hgen : forall write, NoDup write -> (forall y, y ∈ write <-> y ∈ rw_write locs \/ y = x) ->
    mv_wf (set_locations (tx_idx v) (mkReadWriteSet (rw_read locs) write) (set_data (fun _ => d') m))).
  { intros write Hnd Hw. constructor.
    - intros u l Hu. cbn in Hu. apply lookup_insert_cases in Hu as [(-> & -> & _)|[_ Hu]]; [done|].
      by eapply (wf_nodup m W).
    - intros y u inc w He. change (entry_in d' y u = Some (Data inc w)) in He. rewrite Hent in He. cbn.
      destruct (decide (u = tx_idx v)) as [->|Hne].
      + rewrite list_lookup_insert_eq by done. eexists. split; [done|]. cbn. apply Hw.
        case_decide as Hd; [right; tauto|left]. destruct (wf_data m W _ _ _ _ He) as (l & Hu & Hy). by simplify_eq.
      + rewrite list_lookup_insert_ne by congruence. rewrite decide_False in He by tauto.
        by eapply (wf_data m W).
    - intros y u l Hu Hy. change (is_Some (entry_in d' y u)). rewrite Hent. case_decide as Hd; [by eexists|].
      cbn in Hu. apply lookup_insert_cases in Hu as [(-> & -> & _)|[Hne Hu]]; [|by eapply (wf_written m W)].
      cbn in Hy. apply Hw in Hy as [Hy| ->]; [by eapply (wf_written m W)|tauto]. }
  assert (Hread : forall write j, rw_read <$> <[tx_idx v := mkReadWriteSet (rw_read locs) write]> (locations m) !! j =
    rw_read <$> locations m !! j).
  { intros write j. destruct (decide (j = tx_idx v)) as [->|Hne].
    - by rewrite list_lookup_insert_eq, Hl by done.
    - by rewrite list_lookup_insert_ne by congruence. }
  pose proof (wf_nodup m W _ _ Hl) as Hnd.
  case_bool_decide as Hx; do 2 eexists; (split; [reflexivity|]); (split; [apply Hgen|]);
    try (split; [by cbn; rewrite length_insert|split; [exact Hent|split; [exact Hsome|split; [apply Hread|]]]]).
  - done.
  - intros y. split; [by left|]. by intros [?| ->].
  - split; [done|by right].
  - apply list.NoDup_app. split; [done|split; [|apply NoDup_singleton]].
    intros y Hy Hs. apply list_elem_of_singleton in Hs as ->. done.
  - intros y. rewrite elem_of_app, list_elem_of_singleton. done.
  - split; [done|by left].
Qed.

(** ** While a transaction is being recorded *)

Lemma executing_unfinished (s : Scheduler) (v : TxVersion) :
  executing_at s v -> finished_at (tx_status s) (tx_idx v) -> False.
Proof. unfold executing_at. intros He (x & Hx & Hf). rewrite He in Hx. by simplify_eq. Qed.

Lemma owner_weight (t : TxIdx) (x : LocationHash) (q : pc) (b : mpc) :
  aux_ok q b -> data_owner t x q b -> 0 < own t q \/ 0 < pend t q.
Proof.
  intros Hok Ho. destruct b; cbn in Hok, Ho; try done.
  - destruct q; try done; cbn; subst; rewrite ind_eq; lia.
  - destruct Hok as [-> _]. destruct Ho as [<- _]. cbn. rewrite ind_eq. lia.
  - subst. destruct Ho as [<- _]. cbn. rewrite ind_eq. lia.
Qed.

(** Data that the recording thread has not entered itself is not there. *)
Lemma recording_estimates (n : nat) (g : MGlobal) (i : nat) (v : TxVersion) (a : mpc) (x : LocationHash) (e : Entry) :
  Inv n (base g) -> MInv n g -> abort_reason (shared (base g)) = None ->
  threads (base g) !! i = Some (W_Execute v) -> aux g !! i = Some a ->
  (data_owner (tx_idx v) x (W_Execute v) a -> False) ->
  entry (mem g) x (tx_idx v) = Some e -> e = Estimate.
Proof.
  intros HI HM Hr Hp Ha Hno He. destruct e as [inc val|]; [exfalso|done].
  assert (Hexec : executing_at (sched (shared (base g))) v)
    by (destruct (inv_pc _ _ HI _ _ Hp) as [_ [Hver _]]; by apply Hver).
  assert (Hst : st_is Executing (tx_status (sched (shared (base g)))) (tx_idx v) = 1)
    by (apply st_is_1; by eexists).
  destruct (mi_data _ _ HM Hr _ _ _ _ He) as [Hf|(k & q & b & Hq & Hb & Ho)].
  - by eapply executing_unfinished.
  - destruct (decide (k = i)) as [->|Hne]; [simplify_eq; by apply Hno|].
    destruct (mi_aux _ _ HM _ _ _ Hq Hb) as [Hok _].
    destruct (owner_weight _ _ _ _ Hok Ho) as [Hw|Hw].
    + pose proof (sum_list_with_two_le (own (tx_idx v)) _ _ _ _ _ Hne Hq Hp) as Hs.
      cbn [own] in Hs. rewrite ind_eq in Hs. destruct (inv_own _ _ HI (tx_idx v)). lia.
    + pose proof (sum_list_with_elem_le (pend (tx_idx v)) _ _ _ Hq).
      pose proof (inv_wait _ _ HI (tx_idx v)).
      rewrite (st_is_excl Executing Aborted) in * by done. lia.
Qed.

(** ** Each step of an operation *)

Section MemStep.
Context (n : nat) (g : MGlobal) (i : nat) (p : pc) (a : mpc).
Context (HI : Inv n (base g)) (HM : MInv n g).
Context (Hp : threads (base g) !! i = Some p) (Ha : aux g !! i = Some a).

(** The places of the loop where a thread works on the memory. *)
Definition in_memory (q : pc) : Prop :=
  match q with W_Execute _ | W_Validate _ | W_Convert _ => True | _ => False end.

Lemma MInv_mem (a' : mpc) (m' : MvMemory) :
  in_memory p -> length (locations m') = n -> mv_wf m' -> aux_ok p a' ->
  (abort_reason (shared (base g)) = None ->
   forall x t inc val, entry m' x t = Some (Data inc val) -> data_owner t x p a' \/
     exists inc' val', entry (mem g) x t = Some (Data inc' val') /\ (data_owner t x p a -> data_owner t x p a')) ->
  (abort_reason (shared (base g)) = None ->
   forall j locs' x os, finished_at (tx_status (sched (shared (base g)))) j ->
     locations m' !! j = Some locs' -> rw_read locs' !! x = Some os ->
     (exists locs, locations (mem g) !! j = Some locs /\ rw_read locs !! x = Some os) /\
     (validate_location (mem g) j x os = true \/ covering j x os p a ->
      validate_location m' j x os = true \/ covering j x os p a')) ->
  MInv n (mkMGlobal (base g) m' (<[i := a']> (aux g))).
Proof using HI HM Hp Ha.
  intros Hin Hlen Hwf Hok Hdata Hreads.
  pose proof (MInv_update n g i p p a a' m' HI HM Hp Ha Hlen Hwf Hok) as Hu.
  rewrite list_insert_id in Hu by done.
  replace (mkGlobal (shared (base g)) (threads (base g))) with (base g) in Hu by (by destruct (base g)).
  apply Hu; try done.
  - by destruct p.
  - intros j ->. done.
  - intros v f ->. done.
Qed.

(** The end of an operation, where the loop goes on at [p']. *)
Lemma MInv_end (o : Oracle) (p' : pc) (b : Global) :
  in_memory p ->
  gstep (base g) i o = Some b ->
  tstep o (lock_free (threads (base g))) (shared (base g)) p = Next (shared (base g)) p' ->
  pc_more p' -> (forall v f, p' ≠ FE_Status v f false) ->
  (forall x t, data_owner t x p a -> data_owner t x p' M_Idle) ->
  (forall j x os, covering j x os p a -> covers j p') ->
  MInv n (mkMGlobal b (mem g) (<[i := M_Idle]> (aux g))).
Proof using HI HM Hp Ha.
  intros Hin Hg Ht Hmore Hns Hdata Hcov.
  assert (b = mkGlobal (shared (base g)) (<[i := p']> (threads (base g)))) as ->.
  { unfold gstep in Hg. rewrite Hp, Ht in Hg. by simplify_eq. }
  apply (MInv_update n g i p p' a M_Idle (mem g)); try done.
  - apply HM.
  - apply HM.
  - intros j ->. done.
  - intros _ x t inc val He. right. eauto 10.
  - intros _ j locs x os _ Hl Hos. split; [by eauto|]. intros [?|Hc]; [by left|right]. by eapply Hcov.
Qed.

(** Steps that leave the data and the written locations alone. *)
Lemma MInv_quiet (a' : mpc) (m' : MvMemory) :
  in_memory p -> data m' = data (mem g) -> length (locations m') = n ->
  (forall t locs', locations m' !! t = Some locs' ->
     exists locs, locations (mem g) !! t = Some locs /\ rw_write locs' = rw_write locs /\
       (rw_read locs' = rw_read locs \/ exists v, p = W_Execute v /\ tx_idx v = t)) ->
  aux_ok p a' ->
  (forall x t, is_Some (entry (mem g) x t) -> (forall locs, locations (mem g) !! t = Some locs -> x ∈ rw_write locs) ->
     data_owner t x p a -> data_owner t x p a') ->
  (forall j locs x os, locations (mem g) !! j = Some locs -> rw_read locs !! x = Some os ->
     covering j x os p a -> validate_location (mem g) j x os = true \/ covering j x os p a') ->
  MInv n (mkMGlobal (base g) m' (<[i := a']> (aux g))).
Proof using HI HM Hp Ha.
  intros Hin Hd Hlen Hloc Hok Hdata Hcov. pose proof (mi_wf _ _ HM) as W.
  assert (Hent : forall x t, entry m' x t = entry (mem g) x t) by (intros; unfold entry; by rewrite Hd).
  assert (Hval : forall j x os, validate_location m' j x os = validate_location (mem g) j x os)
    by (intros; unfold validate_location; by rewrite Hd).
  assert (Hlt : forall t, is_Some (locations (mem g) !! t) -> is_Some (locations m' !! t)).
  { intros t Ht. apply lookup_lt_is_Some. rewrite Hlen, <- (mi_len_loc _ _ HM). by apply lookup_lt_is_Some. }
  apply MInv_mem; try done.
  - constructor.
    + intros t locs' Hl. destruct (Hloc _ _ Hl) as (locs & Hl0 & -> & _). by eapply (wf_nodup _ W).
    + intros x t inc val He. rewrite Hent in He. destruct (wf_data _ W _ _ _ _ He) as (locs & Hl & Hx).
      destruct (Hlt t) as [locs' Hl']; [by eexists|]. exists locs'. split; [done|].
      destruct (Hloc _ _ Hl') as (l & Hl0 & -> & _). congruence.
    + intros x t locs' Hl Hx. rewrite Hent. destruct (Hloc _ _ Hl) as (locs & Hl0 & Hw & _).
      eapply (wf_written _ W); [done|]. by rewrite <- Hw.
  - intros _ x t inc val He. rewrite Hent in He. right. exists inc, val. split; [done|]. apply Hdata; [by eexists|].
    intros locs Hl. destruct (wf_data _ W _ _ _ _ He) as (l & Hl0 & Hx). congruence.
  - intros _ j locs' x os Hfin Hl Hos. destruct (Hloc _ _ Hl) as (locs & Hl0 & _ & Hr).
    assert (Hos0 : rw_read locs !! x = Some os).
    { destruct Hr as [<-|(v & -> & <-)]; [done|]. exfalso.
      destruct (inv_pc _ _ HI _ _ Hp) as [_ [Hver _]]. eapply executing_unfinished; [|done]. by apply Hver. }
    split; [by eauto|]. rewrite Hval. intros [?|Hc]; [by left|]. by eapply Hcov.
Qed.

(** Steps that leave the memory alone. *)
Lemma MInv_still (a' : mpc) :
  in_memory p -> aux_ok p a' ->
  (forall x t, is_Some (entry (mem g) x t) -> (forall locs, locations (mem g) !! t = Some locs -> x ∈ rw_write locs) ->
     data_owner t x p a -> data_owner t x p a') ->
  (forall j locs x os, locations (mem g) !! j = Some locs -> rw_read locs !! x = Some os ->
     covering j x os p a -> validate_location (mem g) j x os = true \/ covering j x os p a') ->
  MInv n (mkMGlobal (base g) (mem g) (<[i := a']> (aux g))).
Proof using HI HM Hp Ha.
  intros Hin Hok Hd Hc. apply MInv_quiet; try done; [apply HM|].
  intros t locs Hl. exists locs. split; [done|split; [done|by left]].
Qed.

End MemStep.

Lemma MInv_drop (n : nat) (g : MGlobal) (i : nat) (v : TxVersion) (ws : WriteSet) (k : nat) (locs : ReadWriteSet) (x : LocationHash) :
  Inv n (base g) -> MInv n g -> threads (base g) !! i = Some (W_Execute v) -> aux g !! i = Some (M_Drop v ws k) -> locations (mem g) !! tx_idx v = Some locs ->
  rw_write locs !! k = Some x ->
  MInv n (mkMGlobal (base g)
    (set_locations (tx_idx v) (mkReadWriteSet (rw_read locs) (swap_remove k (rw_write locs)))
       (set_data (alter (delete (tx_idx v)) x) (mem g)))
    (<[i := M_Drop v ws k]> (aux g))).
Proof.
  intros HI HM Hp Ha Hl Hk. pose proof (mi_wf _ _ HM) as W.
  assert (Hx : x ∈ rw_write locs) by (by eapply list_elem_of_lookup_2).
  eapply MInv_mem; eauto; cbn [in_memory aux_ok]; try done.
  - cbn. rewrite length_insert. apply HM.
  - by apply drop_wf.
  - intros _ y u inc val He. right. exists inc, val. split; [|done].
    change (entry (set_data (alter (delete (tx_idx v)) x) (mem g)) y u = Some (Data inc val)) in He.
    rewrite entry_drop in He. by case_decide.
  - intros Hr j locs' y os Hfin Hl' Hos. cbn in Hl'. split.
    { apply lookup_insert_cases in Hl' as [(-> & -> & _)|[_ Hl']]; eauto. }
    intros [Hv|Hc]; [left|by right]. eapply validate_location_mono; [| |exact Hv].
    + intros u Hu. change (entry (mem g) y u = entry (set_data (alter (delete (tx_idx v)) x) (mem g)) y u \/
        entry (mem g) y u = Some Estimate). rewrite entry_drop. case_decide as Hd; [|by left].
      destruct Hd as [-> ->]. right. destruct (wf_written _ W _ _ _ Hl Hx) as [e He]. rewrite He. f_equal.
      by eapply (recording_estimates n g i v _ x).
    + intros Hs. by apply data_alter_some.
Qed.

Lemma MInv_enter (n : nat) (g : MGlobal) (i : nat) (v : TxVersion) (x : LocationHash) (val : LocationValue)
    (todo : list (LocationHash * LocationValue)) (wn : bool) (locs : ReadWriteSet) :
  Inv n (base g) -> MInv n g -> threads (base g) !! i = Some (W_Execute v) -> aux g !! i = Some (M_Enter v ((x, val) :: todo) wn) -> locations (mem g) !! tx_idx v = Some locs ->
  MInv n (mkMGlobal (base g) (enter_step v (x, val) todo wn locs (mem g)).1
    (<[i := (enter_step v (x, val) todo wn locs (mem g)).2]> (aux g))).
Proof.
  intros HI HM Hp Ha Hl. pose proof (mi_wf _ _ HM) as W.
  destruct (mi_aux _ _ HM _ _ _ Hp Ha) as [[_ Hnd] _]. cbn in Hnd. apply list.NoDup_cons in Hnd as [Hx Hnd].
  destruct (enter_step_spec v x val todo wn locs (mem g) W Hl)
    as (m' & wn' & -> & W' & Hlen & Hent & Hsome & Hread & Hwn & Hnew). cbn [fst snd].
  eapply MInv_mem; eauto; cbn [in_memory aux_ok]; try done.
  - rewrite Hlen. apply HM.
  - intros _ y u inc w He. rewrite Hent in He. case_decide as Hd.
    + left. destruct Hd as [-> ->]. done.
    + right. exists inc, w. split; [done|]. cbn. intros [<- Hy]. split; [done|].
      intros Hin. apply Hy. by right.
  - intros Hr j locs' y os Hfin Hl' Hos. pose proof (Hread j) as Hj. rewrite Hl' in Hj. split.
    { destruct (locations (mem g) !! j) as [l|]; [|done]. injection Hj as Hj. exists l. by rewrite <- Hj. }
    cbn [covering]. intros [Hv|[Ht Hlt]]; [|right; by auto].
    destruct (decide (tx_idx v < j)) as [Hlt|Hge].
    + destruct Hnew as [Hnew|Hin]; [by right|left]. eapply validate_location_mono; [| |exact Hv]; [|by auto].
      intros u Hu. rewrite Hent. case_decide as Hd; [|by left]. destruct Hd as [-> ->]. right.
      destruct (wf_written _ W _ _ _ Hl Hin) as [e He]. rewrite He. f_equal.
      eapply (recording_estimates n g i v _ x); eauto. cbn. intros [_ Hno]. apply Hno. by left.
    + left. eapply validate_location_mono; [| |exact Hv]; [|by auto].
      intros u Hu. rewrite Hent, decide_False; [by left|]. intros [_ ->]. lia.
Qed.

Lemma MInv_conv (n : nat) (g : MGlobal) (i : nat) (v : TxVersion) (x : LocationHash) (todo : list LocationHash) :
  Inv n (base g) -> MInv n g -> threads (base g) !! i = Some (W_Convert v) -> aux g !! i = Some (M_Conv v (x :: todo)) ->
  MInv n (mkMGlobal (base g) (conv_step (tx_idx v) x (mem g)) (<[i := M_Conv v todo]> (aux g))).
Proof.
  intros HI HM Hp Ha. pose proof (mi_wf _ _ HM) as W.
  eapply MInv_mem; eauto; cbn [in_memory aux_ok]; try done.
  - apply HM.
  - by apply conv_wf.
  - intros _ y u inc w He. right. rewrite entry_conv in He. case_decide as Hd; [done|].
    exists inc, w. split; [done|]. cbn. intros [<- Hin]. split; [done|].
    apply elem_of_cons in Hin as [->|?]; [|done]. exfalso. apply Hd. split; [done|split; [done|]].
    unfold entry in He. destruct (data (mem g) !! x); [by eexists|done].
  - intros Hr j locs' y os Hfin Hl' Hos. split; [by eauto|]. cbn [covering].
    intros [Hv|Hlt]; [|by right]. destruct (decide (tx_idx v < j)) as [Hlt|Hge]; [by right|left].
    eapply validate_location_mono; [| |exact Hv].
    + intros u Hu. rewrite entry_conv, decide_False; [by left|]. intros (_ & -> & _). lia.
    + apply data_alter_some.
Qed.

Lemma set_locations_length (t : TxIdx) (l : ReadWriteSet) (m : MvMemory) :
  length (locations (set_locations t l m)) = length (locations m).
Proof. cbn. apply length_insert. Qed.

(** A thread that enters an operation, or publishes code or lazy addresses. *)
Lemma MInv_idle (n : nat) (g g' : MGlobal) (i : nat) (p : pc) (o : MOracle) :
  Inv n (base g) -> MInv n g -> threads (base g) !! i = Some p -> aux g !! i = Some M_Idle ->
  idle_step g i p o = Some g' -> MInv n g'.
Proof.
  intros HI HM Hp Ha Hg.
  assert (Hbase : forall bo, (forall v, p ≠ W_Validate v) -> (forall v, p ≠ W_Convert v) ->
    base_step g i bo (mem g) = Some g' -> MInv n g').
  { intros bo Hv Hc. unfold base_step. destruct (gstep (base g) i bo) as [b|] eqn:Hb; [|done].
    intros Heq. simplify_eq. by eapply MInv_base. }
  assert (Hsame : forall m', data m' = data (mem g) -> locations m' = locations (mem g) ->
    in_memory p -> MInv n (mkMGlobal (base g) m' (<[i := M_Idle]> (aux g)))).
  { intros m' Hd Hl Hin. apply (MInv_quiet n g i _ _ HI HM Hp Ha); try done; rewrite ?Hl; [apply HM| |by right].
    intros t locs Hlt. exists locs. split; [done|split; [done|by left]]. }
  unfold idle_step in Hg.
  destruct p; try (destruct o; try done; by eapply Hbase); destruct o; try done; unfold mem_step in Hg.
  - destruct (vm_execute o); try done; by eapply Hbase.
  - simplify_eq. by apply Hsame.
  - simplify_eq. by apply Hsame.
  - destruct (loc_free _ _); [|done]. destruct (locations (mem g) !! tx_idx v) as [locs|] eqn:Hl; [|done].
    simplify_eq. cbn [fst snd]. apply (MInv_quiet n g i _ _ HI HM Hp Ha); try done.
    + rewrite set_locations_length. apply HM.
    + intros t l Ht. cbn in Ht. apply lookup_insert_cases in Ht as [(-> & -> & _)|[_ Ht]].
      * exists locs. split; [done|split; [done|]]. right. by exists v.
      * exists l. split; [done|split; [done|by left]].
  - destruct (loc_free _ _); [|done]. destruct (locations (mem g) !! tx_idx v) as [locs|] eqn:Hl; [|done].
    simplify_eq. cbn [fst snd]. apply (MInv_still n g i _ _ HI HM Hp Ha); try done.
    intros j l x os Hj Hx Hc. right. cbn in Hc |- *. subst j. split; [done|].
    apply elem_of_map_to_list. congruence.
  - destruct (loc_free _ _); [|done]. destruct (locations (mem g) !! tx_idx v) as [locs|] eqn:Hl; [|done].
    simplify_eq. cbn [fst snd]. apply (MInv_still n g i _ _ HI HM Hp Ha); try done.
    + intros x t _ Hw Ho. cbn in Ho |- *. subst t. auto.
    + intros j l x os _ _ Hc. by right.
Qed.

Lemma MInv_step (n : nat) (g g' : MGlobal) (i : nat) (o : MOracle) :
  Inv n (base g) -> MInv n g -> mgstep g i o = Some g' -> MInv n g'.
Proof.
  intros HI HM Hg. unfold mgstep in Hg.
  destruct (threads (base g) !! i) as [p|] eqn:Hp; [|done]. destruct (aux g !! i) as [a|] eqn:Ha; [|done].
  destruct (mi_aux _ _ HM _ _ _ Hp Ha) as [Hok _].
  assert (Hend : forall bo p', base_step g i bo (mem g) = Some g' -> in_memory p ->
    tstep bo (lock_free (threads (base g))) (shared (base g)) p = Next (shared (base g)) p' ->
    pc_more p' -> (forall v f, p' ≠ FE_Status v f false) ->
    (forall x t, data_owner t x p a -> data_owner t x p' M_Idle) ->
    (forall j x os, covering j x os p a -> covers j p') -> MInv n g').
  { intros bo p' Hb Hin Ht Hmore Hns Hd Hc. unfold base_step in Hb.
    destruct (gstep (base g) i bo) as [b|] eqn:Hs; [|done]. simplify_eq. by eapply MInv_end. }
  destruct a as [|v ws k|v [|[x val] todo] wn|v [|[x os] todo]|v [|x todo]]; cbn [aux_ok] in Hok.
  - by eapply MInv_idle.
  - subst p. destruct o; try done. destruct (locations (mem g) !! tx_idx v) as [locs|] eqn:Hl; [|done].
    unfold mem_step, drop_step in Hg. destruct (rw_write locs !! k) as [x|] eqn:Hk.
    + destruct (ws !! x) eqn:Hx; simplify_eq; cbn [fst snd].
      * apply (MInv_still n g i _ _ HI HM Hp Ha); try done.
      * by eapply MInv_drop.
    + simplify_eq. cbn [fst snd]. apply (MInv_still n g i _ _ HI HM Hp Ha); try done.
      split; [done|]. apply NoDup_fst_map_to_list.
  - destruct Hok as [-> _]. destruct o; try done. destruct fails.
    + eapply Hend; [done|done|reflexivity|done|done| |done]. by cbn; intros x t [-> _].
    + eapply Hend; [done|done|reflexivity|done|done| |].
      * by cbn; intros x t [-> _].
      * cbn. intros j x os [-> ?]. by split.
  - destruct Hok as [-> _]. destruct o; try done.
    destruct (locations (mem g) !! tx_idx v) as [locs|] eqn:Hl; [|done]. unfold mem_step in Hg. simplify_eq.
    by eapply MInv_enter.
  - subst p. destruct o; try done. eapply Hend; [done|done|reflexivity|done|done|done|].
    cbn. intros j x os [_ Hin]. by apply elem_of_nil in Hin.
  - subst p. destruct o; try done. destruct (validate_location _ _ _ _) eqn:Hv.
    + unfold mem_step in Hg. simplify_eq. cbn [fst snd].
      apply (MInv_still n g i _ _ HI HM Hp Ha); try done.
      intros j l y os' _ _ Hc. cbn in Hc |- *. destruct Hc as [<- Hc].
      apply elem_of_cons in Hc as [Hc|Hc]; [simplify_eq; by left|by right].
    + eapply Hend; [done|done|reflexivity|done|done|done|]. by cbn; intros j y os' [-> _].
  - subst p. destruct o; try done. eapply Hend; [done|done|reflexivity|done|done| |done].
    cbn. intros x t [_ Hin]. by apply elem_of_nil in Hin.
  - subst p. destruct o; try done. unfold mem_step in Hg. simplify_eq. cbn [fst snd]. by eapply MInv_conv.
Qed.

Lemma MInv_init (n k : nat) (est : gmap LocationHash (list TxIdx)) (lz : list Address) :
  MInv n (MGlobal_init n k est lz).
Proof.
  constructor; cbn [base mem aux MGlobal_init Global_init threads shared].
  - apply length_replicate.
  - apply MvMemory_new_wf.
  - intros j p a Hj Ha. apply lookup_replicate in Hj as [-> _]. by apply lookup_replicate in Ha as [-> _].
  - by rewrite !length_replicate.
  - intros _ j v f Hj. by apply lookup_replicate in Hj as [? _].
  - intros _ x t inc val He. by apply MvMemory_new_estimates in He.
  - intros _ i locs x os _ Hl Hos. cbn in Hl. apply lookup_replicate in Hl as [-> _]. done.
Qed.

Lemma mreachable_MInv (n k : nat) (est : gmap LocationHash (list TxIdx)) (lz : list Address) (g : MGlobal) :
  (Z.of_nat n < 2 ^ 64)%Z -> mreachable n k est lz g -> MInv n g.
Proof.
  intros Hn. induction 1 as [|g i o g' Hr IH Hg]; [apply MInv_init|].
  eapply MInv_step; [|done|done]. eapply reachable_Inv; [done|by eapply mreachable_base].
Qed.

End MemInv.
