(* ===== verification/WorkersRun.v ===== *)
(** * Runs of the worker threads

    [WorkersMem] lets an execution record anything. Here an execution records what
    running the transaction on memories the run has gone through gives: [executed]
    says so, left abstract until [WorkersSerial]. The invariant keeps a log of what
    each version, a transaction with its incarnation, has recorded: a version
    records once, its data is always what it has recorded, and the data of a
    finished transaction is what its current incarnation has recorded. *)

From S2P Require Import Prelude Types MvMemory VmDb Scheduler Workers WorkersInv WorkersMem WorkersMemInv.

Section Runs.
Context `{Revm}.

(** What executing transaction [t] against the memories [h] can record, and the code
    of a code hash. *)
Context (executed : list MvMemory -> TxIdx -> ReadSet -> WriteSet -> Prop) (code_of : Z -> Bytecode).

(** ** Runs *)

(** What a thread records comes from an execution; the bytecode it publishes is that
    of the hash. *)
Definition lawful (h : list MvMemory) (g : MGlobal) (i : nat) (o : MOracle) : Prop :=
  match o with
  | O_Record rs ws => forall v, threads (base g) !! i = Some (W_Execute v) -> executed h (tx_idx v) rs ws
  | O_Deploy code_hash code => code = code_of code_hash
  | _ => True
  end.

(** A run with the memories it has gone through, the current one first. *)
Inductive runs (n k : nat) (est : gmap LocationHash (list TxIdx)) (lazy : list Address) :
    list MvMemory -> MGlobal -> Prop :=
| runs_init : runs n k est lazy [mem (MGlobal_init n k est lazy)] (MGlobal_init n k est lazy)
| runs_step h g i o g' : runs n k est lazy h g -> lawful h g i o -> mgstep g i o = Some g' ->
    runs n k est lazy (mem g' :: h) g'.

Lemma runs_mreachable (n k : nat) (est : gmap LocationHash (list TxIdx)) (lz : list Address)
    (h : list MvMemory) (g : MGlobal) :
  runs n k est lz h g -> mreachable n k est lz g.
Proof. induction 1; [apply mreach_init|by eapply mreach_step]. Qed.

(** ** Versions *)

Definition key (v : TxVersion) : nat * nat := (tx_idx v, tx_incarnation v).

(** The version a thread is going to execute, again if need be. *)
Definition pre_version (p : pc) : option TxVersion :=
  match p with
  | W_Execute v | TE_Retry v | AD_Lock v _ | AD_SetAborted v _ | W_Check (Some (Execution v)) => Some v
  | _ => None
  end.

(** The version whose execution it finishes. *)
Definition post_version (p : pc) : option TxVersion :=
  match p with
  | TE_Store v _ | FE_Lock v _ | FE_Ready v _ _ | FE_MinExec v _ _ _ | FE_MinVal v _
  | FE_LoadVal v _ _ | FE_LowerVal v _ _ _ | FE_Status v _ _ => Some v
  | _ => None
  end.

(** It has recorded [v] up to the locations [todo]. *)
Definition settling (p : pc) (a : mpc) (v : TxVersion) (todo : list LocationHash) : Prop :=
  match a with
  | M_Idle => post_version p = Some v /\ todo = []
  | M_Enter w l _ => w = v /\ todo = l.*1
  | _ => False
  end.

Local Abbreviation Log := (gmap (nat * nat) (ReadSet * WriteSet)).

(** The memory has what [v] recorded, up to [todo], and no other data of the
    transaction. *)
Definition settled (log : Log) (m : MvMemory) (v : TxVersion) (todo : list LocationHash) : Prop :=
  exists rs ws, log !! key v = Some (rs, ws) /\ rw_read <$> locations m !! tx_idx v = Some rs /\
    forall x i val, entry m x (tx_idx v) = Some (Data i val) <->
      i = tx_incarnation v /\ ws !! x = Some val /\ x ∉ todo.

(** ** The invariant *)

Record EInv (log : Log) (h : list MvMemory) (g : MGlobal) : Prop := mkEInv {
  ei_hist : mem g ∈ h;
  ei_inc : forall t x, tx_status (sched (shared (base g))) !! t = Some x -> incarnation x < length h;
  ei_exec : forall t inc rs ws, log !! (t, inc) = Some (rs, ws) -> executed h t rs ws;
  ei_log : forall t inc, is_Some (log !! (t, inc)) ->
    exists x, tx_status (sched (shared (base g))) !! t = Some x /\ inc <= incarnation x /\
      (status x = ReadyToExecute -> inc < incarnation x);
  ei_pre : forall k p v, threads (base g) !! k = Some p -> aux g !! k = Some M_Idle ->
    pre_version p = Some v -> log !! key v = None;
  ei_data : forall m x t inc val, m ∈ h -> entry m x t = Some (Data inc val) ->
    exists rs ws, log !! (t, inc) = Some (rs, ws) /\ ws !! x = Some val;
  ei_drop : forall k v ws j, aux g !! k = Some (M_Drop v ws j) ->
    exists rs, log !! key v = Some (rs, ws) /\ rw_read <$> locations (mem g) !! tx_idx v = Some rs;
  ei_todo : forall k v l b, aux g !! k = Some (M_Enter v l b) ->
    exists rs ws, log !! key v = Some (rs, ws) /\ forall x val, (x, val) ∈ l -> ws !! x = Some val;
  ei_thread : forall k p a v todo, threads (base g) !! k = Some p -> aux g !! k = Some a ->
    settling p a v todo -> settled log (mem g) v todo;
  ei_done : forall t x, tx_status (sched (shared (base g))) !! t = Some x -> is_finished (status x) = true ->
    settled log (mem g) (mkTxVersion t (incarnation x)) [];
  ei_code : forall ch c, new_bytecodes (mem g) !! ch = Some c -> c = code_of ch;
  ei_codes : forall m ch c, m ∈ h -> new_bytecodes m !! ch = Some c -> new_bytecodes (mem g) !! ch = Some c;
}.

(** ** Transitions of the scheduler machine *)

Section Step.
Context (n : nat) (o : Oracle) (free : TxIdx -> bool) (g g' : Shared) (p p' : pc).
Context (F : Facts n g p) (H0 : tstep o free g p = Next g' p').

(** What a transition does to an incarnation number, as long as it does not overflow. *)
Lemma incarnation_step (t : TxIdx) (x : TxStatus) :
  tx_status (sched g) !! t = Some x -> (Z.of_nat (incarnation x) + 1 < 2 ^ 64)%Z ->
  exists x', tx_status (sched g') !! t = Some x' /\
    ((incarnation x' = incarnation x /\ (status x' = ReadyToExecute -> status x = ReadyToExecute)) \/
     incarnation x' = incarnation x + 1).
Proof using F H0.
  intros Hx Hlt.
  assert (Hk : tx_status (sched g') = tx_status (sched g) -> exists x', tx_status (sched g') !! t = Some x' /\
    ((incarnation x' = incarnation x /\ (status x' = ReadyToExecute -> status x = ReadyToExecute)) \/
     incarnation x' = incarnation x + 1)).
  { intros ->. exists x. split; [done|by left]. }
  assert (Hi : forall i y, tx_status (sched g') = <[i := y]> (tx_status (sched g)) ->
    (i = t -> (incarnation y = incarnation x /\ status y ≠ ReadyToExecute) \/ incarnation y = incarnation x + 1) ->
    exists x', tx_status (sched g') !! t = Some x' /\
    ((incarnation x' = incarnation x /\ (status x' = ReadyToExecute -> status x = ReadyToExecute)) \/
     incarnation x' = incarnation x + 1)).
  { intros i y -> Hy. destruct (decide (i = t)) as [->|Hne].
    - exists y. rewrite list_lookup_insert_eq by (by eapply lookup_lt_Some). split; [done|].
      destruct (Hy eq_refl) as [[? ?]|?]; [by left|by right].
    - exists x. rewrite list_lookup_insert_ne by done. split; [done|by left]. }
  step_cases H0; step_norm; facts F; try (by apply Hk); (eapply Hi; [reflexivity|]); intros Heq; subst; simplify_eq;
    try (by left); right; cbn; rewrite usize_add_small by lia; done.
Qed.

(** A thread starts to execute what was ready. *)
Lemma pre_version_step (v : TxVersion) :
  pre_version p' = Some v ->
  pre_version p = Some v \/ tx_status (sched g) !! tx_idx v = Some (mkTxStatus (tx_incarnation v) ReadyToExecute).
Proof using F H0.
  intros Hv. step_cases H0; step_norm; facts F; cbn [pre_version] in *; simplify_eq; try (by left); try done;
    right; cbn; match goal with K : tx_status _ !! _ = Some ?t |- _ => destruct t; cbn in *; by subst end.
Qed.

Lemma post_version_step (v : TxVersion) :
  post_version p' = Some v -> post_version p = Some v \/ p = W_Execute v.
Proof using F H0.
  intros Hv. step_cases H0; step_norm; facts F; cbn [post_version] in *; simplify_eq; try (by left); try done; by right.
Qed.

(** A transaction is finished as the version that was executed. *)
Lemma finished_incarnation (t : TxIdx) (x : TxStatus) :
  tx_status (sched g') !! t = Some x -> is_finished (status x) = true ->
  (exists y, tx_status (sched g) !! t = Some y /\ is_finished (status y) = true /\ incarnation y = incarnation x) \/
  post_version p = Some (mkTxVersion t (incarnation x)).
Proof using F H0.
  intros Hx Hf.
  step_cases H0; step_norm; facts F; try (by left; eauto);
    apply lookup_insert_cases in Hx as [(-> & -> & _)|[_ Hx]]; try discriminate Hf; try (by left; eauto).
  1-2: right; simplify_eq; by destruct v.
  left. eexists. split; [done|]. cbn. match goal with K : status _ = Executed |- _ => by rewrite K end.
Qed.

End Step.

(** A thread after one has moved: the one that moved, or another as it was. *)
Lemma thread_cases (ts : list pc) (l : list mpc) (i k : nat) (p' q : pc) (a' b : mpc) :
  <[i := p']> ts !! k = Some q -> <[i := a']> l !! k = Some b ->
  (k = i /\ q = p' /\ b = a') \/ (k ≠ i /\ ts !! k = Some q /\ l !! k = Some b).
Proof.
  intros [(-> & -> & _)|[Hne Hq]]%lookup_insert_cases [(Hk & -> & _)|[Hk Hb]]%lookup_insert_cases; try done; auto.
Qed.

Context (executed_mono : forall h m t rs ws, executed h t rs ws -> executed (m :: h) t rs ws).

Lemma post_idle (p : pc) (a : mpc) (v : TxVersion) : aux_ok p a -> post_version p = Some v -> a = M_Idle.
Proof. by destruct a; cbn; try done; [intros ->|intros [-> _]|intros ->|intros ->]. Qed.

(** A transition of the scheduler machine; the operation of the memory, if any, ends. *)
Lemma EInv_base (n : nat) (log : Log) (h : list MvMemory) (g : MGlobal) (i : nat) (p p' : pc) (a : mpc)
    (o : Oracle) (sh : Shared) :
  Inv n (base g) -> MInv n g -> EInv log h g -> (Z.of_nat (length h) < 2 ^ 64)%Z ->
  threads (base g) !! i = Some p -> aux g !! i = Some a ->
  tstep o (lock_free (threads (base g))) (shared (base g)) p = Next sh p' ->
  a = M_Idle \/ pre_version p' = None ->
  (forall v, post_version p' = Some v -> settling p a v []) ->
  EInv log (mem g :: h)
    (mkMGlobal (mkGlobal sh (<[i := p']> (threads (base g)))) (mem g) (<[i := M_Idle]> (aux g))).
Proof using executed_mono.
  intros HI HM E Hlen Hp Ha Ht Hpre Hpost. pose proof (Inv_facts _ _ _ _ HI Hp) as F.
  destruct (mi_aux _ _ HM _ _ _ Hp Ha) as [Hok _].
  assert (Hback : forall x, tx_status (sched sh) !! x = None \/ exists y y',
    tx_status (sched (shared (base g))) !! x = Some y /\ tx_status (sched sh) !! x = Some y' /\
    incarnation y < length h /\
    ((incarnation y' = incarnation y /\ (status y' = ReadyToExecute -> status y = ReadyToExecute)) \/
     incarnation y' = incarnation y + 1)).
  { intros x. destruct (tx_status (sched sh) !! x) as [y'|] eqn:Hy'; [right|by left].
    destruct (lookup_lt_is_Some_2 (tx_status (sched (shared (base g)))) x) as [y Hy].
    { apply lookup_lt_Some in Hy'. destruct (sizes_step _ _ _ _ _ _ _ F Ht) as (_ & Hl & _).
      rewrite (inv_len_status _ _ HI). lia. }
    pose proof (ei_inc _ _ _ E _ _ Hy).
    destruct (incarnation_step _ _ _ _ _ _ _ F Ht x y Hy ltac:(lia)) as (z & Hz & Hc).
    assert (z = y') as -> by congruence. exists y, y'. auto. }
  constructor; cbn [base mem aux shared threads].
  - by left.
  - intros t x Hx. destruct (Hback t) as [?|(y & y' & Hy & Hy' & Hlt & Hc)]; [congruence|].
    assert (y' = x) as -> by congruence. cbn. destruct Hc as [[? _]|?]; lia.
  - intros. by eapply executed_mono, (ei_exec _ _ _ E).
  - intros t inc Hl. destruct (ei_log _ _ _ E _ _ Hl) as (x & Hx & Hle & Hrdy).
    destruct (incarnation_step _ _ _ _ _ _ _ F Ht t x Hx) as (x' & Hx' & Hc).
    { pose proof (ei_inc _ _ _ E _ _ Hx). lia. }
    exists x'. split; [done|]. destruct Hc as [[-> Hc]| ->]; [|lia]. auto.
  - intros k q v Hq Hk Hv. destruct (thread_cases _ _ _ _ _ _ _ _ Hq Hk) as [(-> & -> & _)|(_ & Hq' & Hk')];
      [|by eapply (ei_pre _ _ _ E)].
    destruct Hpre as [->|Hn]; [|congruence].
    destruct (pre_version_step _ _ _ _ _ _ _ F Ht _ Hv) as [?|Hr]; [by eapply (ei_pre _ _ _ E)|].
    destruct (log !! key v) eqn:Hlog; [|done].
    destruct (ei_log _ _ _ E (tx_idx v) (tx_incarnation v)) as (x & Hx & _ & Hlt); [by eexists|].
    simplify_eq. cbn in Hlt. specialize (Hlt eq_refl). lia.
  - intros m x t inc val Hm. apply (ei_data _ _ _ E). apply elem_of_cons in Hm as [->|]; [apply E|done].
  - intros k v ws j Hk. apply lookup_insert_cases in Hk as [(_ & ? & _)|[_ Hk]]; [done|by eapply (ei_drop _ _ _ E)].
  - intros k v l b Hk. apply lookup_insert_cases in Hk as [(_ & ? & _)|[_ Hk]]; [done|by eapply (ei_todo _ _ _ E)].
  - intros k q c v todo Hq Hk Hs.
    destruct (thread_cases _ _ _ _ _ _ _ _ Hq Hk) as [(-> & -> & ->)|(_ & Hq' & Hk')]; [|by eapply (ei_thread _ _ _ E)].
    destruct Hs as [Hv ->]. by eapply (ei_thread _ _ _ E), Hpost.
  - intros t x Hx Hf. destruct (finished_incarnation _ _ _ _ _ _ _ F Ht _ _ Hx Hf) as [(y & Hy & Hfy & <-)|Hv].
    + by eapply (ei_done _ _ _ E).
    + eapply (ei_thread _ _ _ E); [done|done|]. by rewrite (post_idle _ _ _ Hok Hv).
  - apply E.
  - intros m ch c Hm Hc. apply elem_of_cons in Hm as [->|]; [done|by eapply (ei_codes _ _ _ E)].
Qed.

(** ** Operations of the memory *)

(** The memories have the same data and reads of [t]. *)
Definition same_at (m m' : MvMemory) (t : TxIdx) : Prop :=
  rw_read <$> locations m' !! t = rw_read <$> locations m !! t /\ forall x, entry m' x t = entry m x t.

Lemma settled_frame (log log' : Log) (m m' : MvMemory) (v : TxVersion) (todo : list LocationHash) :
  log ⊆ log' -> same_at m m' (tx_idx v) -> settled log m v todo -> settled log' m' v todo.
Proof using.
  intros Hlog [Hr He] (rs & ws & Hl & Hrs & Hent). exists rs, ws.
  split; [by eapply lookup_weaken|]. rewrite Hr. split; [done|]. intros. by rewrite He.
Qed.

(** The thread is in charge of [t], or about to make it ready. *)
Definition in_charge (t : TxIdx) (p : pc) : Prop := 0 < own t p \/ 0 < pend t p.

Lemma executing_not_charged (n : nat) (g : Global) (i k : nat) (p q : pc) (t : TxIdx) :
  Inv n g -> threads g !! i = Some p -> threads g !! k = Some q -> k ≠ i -> 0 < own t q -> ~ in_charge t p.
Proof using.
  intros HI Hp Hq Hne Ho [Hc|Hc].
  - pose proof (other_own _ _ _ _ _ _ t HI Hp Hq ltac:(congruence) Ho). lia.
  - pose proof (f_pend _ _ _ (Inv_facts _ _ _ _ HI Hp) t). destruct (inv_own _ _ HI t) as [Hle _].
    pose proof (sum_list_with_elem_le (own t) _ _ _ Hq).
    pose proof (st_is_le Executing (tx_status (sched (shared g))) t).
    rewrite (st_is_excl Executing Aborted) in H0 by (done || lia). lia.
Qed.

Lemma finished_not_charged (n : nat) (g : Global) (i : nat) (p : pc) (t : TxIdx) :
  Inv n g -> threads g !! i = Some p -> finished_at (tx_status (sched (shared g))) t -> ~ in_charge t p.
Proof using.
  intros HI Hp (x & Hx & Hf) [Hc|Hc].
  - destruct (inv_own _ _ HI t) as [Hle _]. pose proof (sum_list_with_elem_le (own t) _ _ _ Hp).
    rewrite (st_is_lookup _ _ _ _ Hx) in Hle. case_decide as Hs; [by rewrite Hs in Hf|lia].
  - pose proof (f_pend _ _ _ (Inv_facts _ _ _ _ HI Hp) t) as Hle.
    rewrite (st_is_lookup _ _ _ _ Hx) in Hle. case_decide as Hs; [by rewrite Hs in Hf|lia].
Qed.

Lemma settling_own (p : pc) (a : mpc) (v : TxVersion) (todo : list LocationHash) :
  aux_ok p a -> settling p a v todo -> 0 < own (tx_idx v) p.
Proof using.
  destruct a; cbn; try done.
  - intros _ [Hv _]. destruct p; cbn in *; simplify_eq; rewrite ind_eq; lia.
  - intros [-> _] [-> _]. cbn. rewrite ind_eq. lia.
Qed.

(** A step that leaves the scheduler alone. *)
Lemma EInv_mem (n : nat) (log log' : Log) (h : list MvMemory) (g : MGlobal) (i : nat) (p : pc) (a a' : mpc)
    (m' : MvMemory) :
  Inv n (base g) -> MInv n g -> EInv log h g -> threads (base g) !! i = Some p -> aux g !! i = Some a ->
  log ⊆ log' ->
  (forall v rs ws, log' !! key v = Some (rs, ws) -> log !! key v = None ->
     p = W_Execute v /\ a' ≠ M_Idle /\ executed h (tx_idx v) rs ws) ->
  (a' = M_Idle -> a = M_Idle) ->
  (forall x t inc val, entry m' x t = Some (Data inc val) -> entry (mem g) x t = Some (Data inc val) \/
     exists rs ws, log' !! (t, inc) = Some (rs, ws) /\ ws !! x = Some val) ->
  (forall t, ~ in_charge t p -> same_at (mem g) m' t) ->
  (forall v ws j, a' = M_Drop v ws j ->
     exists rs, log' !! key v = Some (rs, ws) /\ rw_read <$> locations m' !! tx_idx v = Some rs) ->
  (forall v l b, a' = M_Enter v l b ->
     exists rs ws, log' !! key v = Some (rs, ws) /\ forall x val, (x, val) ∈ l -> ws !! x = Some val) ->
  (forall v todo, settling p a' v todo -> settled log' m' v todo) ->
  (forall ch c, new_bytecodes m' !! ch = Some c -> c = code_of ch) ->
  new_bytecodes (mem g) ⊆ new_bytecodes m' ->
  EInv log' (m' :: h) (mkMGlobal (base g) m' (<[i := a']> (aux g))).
Proof using executed_mono.
  intros HI HM E Hp Ha Hsub Hnew Hidle Hdata Hframe Hdrop Htodo Hset Hcode Hcodes.
  assert (Hts : <[i := p]> (threads (base g)) = threads (base g)) by (by apply list_insert_id).
  assert (Hcase : forall k q b, threads (base g) !! k = Some q -> <[i := a']> (aux g) !! k = Some b ->
    (k = i /\ q = p /\ b = a') \/ (k ≠ i /\ threads (base g) !! k = Some q /\ aux g !! k = Some b)).
  { intros k q b Hq Hb. rewrite <- Hts in Hq. by eapply thread_cases. }
  assert (Hold : forall v r, log' !! key v = Some r -> log !! key v = Some r \/ log !! key v = None).
  { intros v r Hv. destruct (log !! key v) as [r'|] eqn:Hl; [left|by right].
    pose proof (lookup_weaken _ _ _ _ Hl Hsub). congruence. }
  constructor; cbn [base mem aux].
  - by left.
  - intros t x Hx. pose proof (ei_inc _ _ _ E _ _ Hx). cbn. lia.
  - intros t inc rs ws Hl. apply executed_mono.
    destruct (Hold (mkTxVersion t inc) _ Hl) as [?|Hn]; [by eapply (ei_exec _ _ _ E)|].
    by destruct (Hnew (mkTxVersion t inc) _ _ Hl Hn) as (_ & _ & ?).
  - intros t inc [[rs ws] Hl]. destruct (Hold (mkTxVersion t inc) _ Hl) as [Hl'|Hn]; [by eapply (ei_log _ _ _ E); eexists|].
    destruct (Hnew (mkTxVersion t inc) _ _ Hl Hn) as (-> & _).
    destruct (inv_pc _ _ HI _ _ Hp) as [_ [Hver _]]. specialize (Hver _ eq_refl).
    exists (mkTxStatus inc Executing). by split; [|cbn].
  - intros k q v Hq Hk Hv. destruct (log' !! key v) as [[rs ws]|] eqn:Hl; [exfalso|done].
    destruct (Hcase _ _ _ Hq Hk) as [(-> & -> & <-)|(Hne & _ & Hk')].
    + pose proof (ei_pre _ _ _ E _ _ _ Hp ltac:(by rewrite <- Hidle) Hv) as Hn.
      by destruct (Hnew _ _ _ Hl Hn) as (_ & ? & _).
    + pose proof (ei_pre _ _ _ E _ _ _ Hq Hk' Hv) as Hn. destruct (Hnew _ _ _ Hl Hn) as (-> & _).
      eapply (executing_not_charged n (base g) k i q _ (tx_idx v)); eauto.
      * cbn. rewrite ind_eq. lia.
      * left. by destruct q as [| | | | | | | | | | |[[]|]| | | | | | | | | | | | | | | | | | | | | | | | | |];
          cbn in *; simplify_eq; rewrite ind_eq; lia.
  - intros m x t inc val Hm He. apply elem_of_cons in Hm as [->|Hm].
    + destruct (Hdata _ _ _ _ He) as [He'|?]; [|done].
      destruct (ei_data _ _ _ E _ _ _ _ _ (ei_hist _ _ _ E) He') as (rs & ws & Hl & ?).
      exists rs, ws. split; [by eapply lookup_weaken|done].
    + destruct (ei_data _ _ _ E _ _ _ _ _ Hm He) as (rs & ws & Hl & ?).
      exists rs, ws. split; [by eapply lookup_weaken|done].
  - intros k v ws j Hk. apply lookup_insert_cases in Hk as [(-> & <- & _)|[Hne Hk]]; [by eapply Hdrop|].
    destruct (ei_drop _ _ _ E _ _ _ _ Hk) as (rs & Hl & Hrs). exists rs. split; [by eapply lookup_weaken|].
    destruct (lookup_lt_is_Some_2 (threads (base g)) k) as [q Hq].
    { rewrite <- (mi_len_aux _ _ HM). by eapply lookup_lt_Some. }
    destruct (mi_aux _ _ HM _ _ _ Hq Hk) as [Hok _]. cbn in Hok. subst q.
    destruct (Hframe (tx_idx v)) as [-> _]; [|done].
    eapply (executing_not_charged n (base g)); eauto. cbn. rewrite ind_eq. lia.
  - intros k v l b Hk. apply lookup_insert_cases in Hk as [(-> & <- & _)|[Hne Hk]]; [by eapply Htodo|].
    destruct (ei_todo _ _ _ E _ _ _ _ Hk) as (rs & ws & Hl & ?). exists rs, ws. split; [by eapply lookup_weaken|done].
  - intros k q c v todo Hq Hk Hs. destruct (Hcase _ _ _ Hq Hk) as [(-> & -> & ->)|(Hne & _ & Hk')]; [by apply Hset|].
    eapply settled_frame; [done| |by eapply (ei_thread _ _ _ E)]. apply Hframe.
    eapply (executing_not_charged n (base g)); eauto. eapply settling_own; [|done]. by eapply (mi_aux _ _ HM).
  - intros t x Hx Hf. eapply settled_frame; [done| |by eapply (ei_done _ _ _ E)]. apply Hframe.
    eapply (finished_not_charged n (base g)); eauto. by exists x.
  - done.
  - intros m ch c Hm Hc. apply elem_of_cons in Hm as [->|Hm]; [done|].
    eapply lookup_weaken; [by eapply (ei_codes _ _ _ E)|done].
Qed.

Lemma not_charged_execute (t : TxIdx) (v : TxVersion) : ~ in_charge t (W_Execute v) -> t ≠ tx_idx v.
Proof using. intros Hn ->. apply Hn. left. cbn. rewrite ind_eq. lia. Qed.

Lemma not_charged_convert (t : TxIdx) (v : TxVersion) : ~ in_charge t (W_Convert v) -> t ≠ tx_idx v.
Proof using. intros Hn ->. apply Hn. right. cbn. rewrite ind_eq. lia. Qed.

Section MemStep.
Context (n : nat) (log : Log) (h : list MvMemory) (g : MGlobal) (i : nat) (p : pc) (a : mpc).
Context (HI : Inv n (base g)) (HM : MInv n g) (E : EInv log h g).
Context (Hp : threads (base g) !! i = Some p) (Ha : aux g !! i = Some a).

(** Steps that change neither data nor reads. *)
Lemma EInv_quiet (a' : mpc) (m' : MvMemory) :
  (forall t, same_at (mem g) m' t) -> (a' = M_Idle -> a = M_Idle) ->
  (forall v ws j, a' = M_Drop v ws j -> exists j', a = M_Drop v ws j') ->
  (forall v l b, a' = M_Enter v l b -> exists rs ws, log !! key v = Some (rs, ws) /\
     forall x val, (x, val) ∈ l -> ws !! x = Some val) ->
  (forall v todo, settling p a' v todo -> settled log (mem g) v todo) ->
  (forall ch c, new_bytecodes m' !! ch = Some c -> c = code_of ch) ->
  new_bytecodes (mem g) ⊆ new_bytecodes m' ->
  EInv log (m' :: h) (mkMGlobal (base g) m' (<[i := a']> (aux g))).
Proof using executed_mono HI HM E Hp Ha.
  intros Hsame Hidle Hdrop Htodo Hset Hc Hcs.
  eapply EInv_mem; eauto; [congruence|..].
  - intros x t inc val He. left. by rewrite <- (proj2 (Hsame t)).
  - intros v ws j Hj. destruct (Hdrop _ _ _ Hj) as [j' ->].
    rewrite (proj1 (Hsame (tx_idx v))). by eapply (ei_drop _ _ _ E).
  - intros v todo Hs. eapply settled_frame; [done|apply Hsame|by apply Hset].
Qed.

Lemma EInv_still (a' : mpc) :
  (a' = M_Idle -> a = M_Idle) ->
  (forall v ws j, a' = M_Drop v ws j -> exists j', a = M_Drop v ws j') ->
  (forall v l b, a' = M_Enter v l b -> exists rs ws, log !! key v = Some (rs, ws) /\
     forall x val, (x, val) ∈ l -> ws !! x = Some val) ->
  (forall v todo, settling p a' v todo -> settled log (mem g) v todo) ->
  EInv log (mem g :: h) (mkMGlobal (base g) (mem g) (<[i := a']> (aux g))).
Proof using executed_mono HI HM E Hp Ha. intros. eapply EInv_quiet; eauto; [done|apply E]. Qed.

End MemStep.

(** Entering [record] logs the version. *)
Lemma EInv_record (n : nat) (log : Log) (h : list MvMemory) (g : MGlobal) (i : nat) (v : TxVersion)
    (rs : ReadSet) (ws : WriteSet) (locs : ReadWriteSet) :
  Inv n (base g) -> MInv n g -> EInv log h g ->
  threads (base g) !! i = Some (W_Execute v) -> aux g !! i = Some M_Idle ->
  locations (mem g) !! tx_idx v = Some locs -> executed h (tx_idx v) rs ws ->
  let m' := set_locations (tx_idx v) (mkReadWriteSet rs (rw_write locs)) (mem g) in
  EInv (<[key v := (rs, ws)]> log) (m' :: h) (mkMGlobal (base g) m' (<[i := M_Drop v ws 0]> (aux g))).
Proof using executed_mono.
  intros HI HM E Hp Ha Hl Hex m'. pose proof (ei_pre _ _ _ E _ _ _ Hp Ha eq_refl) as Hfresh.
  eapply EInv_mem; eauto; try done.
  - by apply insert_subseteq.
  - intros w rs' ws' Hw Hn. destruct (decide (key w = key v)) as [Heq|Hne].
    + destruct w, v. unfold key in *. cbn in *. simplify_eq. rewrite lookup_insert_eq in Hw. by simplify_eq.
    + rewrite lookup_insert_ne in Hw by congruence. congruence.
  - intros t Ht%not_charged_execute. split; [|done]. unfold m'. cbn. by rewrite list_lookup_insert_ne by congruence.
  - intros w ws' j Heq. simplify_eq. exists rs. rewrite lookup_insert_eq. split; [done|].
    unfold m'. cbn. by rewrite list_lookup_insert_eq by (by eapply lookup_lt_Some).
  - apply E.
Qed.

(** The loop that drops what is no longer written. *)
Lemma EInv_drop (n : nat) (log : Log) (h : list MvMemory) (g : MGlobal) (i : nat) (v : TxVersion)
    (ws : WriteSet) (k : nat) (locs : ReadWriteSet) :
  Inv n (base g) -> MInv n g -> EInv log h g -> abort_reason (shared (base g)) = None ->
  threads (base g) !! i = Some (W_Execute v) -> aux g !! i = Some (M_Drop v ws k) ->
  locations (mem g) !! tx_idx v = Some locs ->
  let r := drop_step v ws k locs (mem g) in
  EInv log (r.1 :: h) (mkMGlobal (base g) r.1 (<[i := r.2]> (aux g))).
Proof using executed_mono.
  intros HI HM E Hr Hp Ha Hl r. unfold r, drop_step.
  destruct (ei_drop _ _ _ E _ _ _ _ Ha) as (rs & Hlog & Hrs).
  destruct (rw_write locs !! k) as [x|] eqn:Hk; [destruct (ws !! x) as [val|] eqn:Hx|]; cbn [fst snd].
  - eapply EInv_still; eauto; try done. intros w ws' j Heq. simplify_eq. by eexists.
  - eapply EInv_mem; eauto; try done; try (by apply E); [congruence|..].
    + intros y t inc val He. left.
      change (entry (set_data (alter (delete (tx_idx v)) x) (mem g)) y t = Some (Data inc val)) in He.
      rewrite entry_drop in He. by case_decide.
    + intros t Ht%not_charged_execute. split.
      * cbn. by rewrite list_lookup_insert_ne by congruence.
      * intros y. change (entry (set_data (alter (delete (tx_idx v)) x) (mem g)) y t = entry (mem g) y t).
        rewrite entry_drop. by rewrite decide_False by tauto.
    + intros w ws' j Heq. simplify_eq. exists rs. split; [done|]. cbn.
      rewrite list_lookup_insert_eq by (by eapply lookup_lt_Some). cbn. by rewrite Hl in Hrs.
  - eapply EInv_still; eauto; try done.
    + intros w l b Heq. simplify_eq. exists rs, ws. split; [done|]. intros y val. apply elem_of_map_to_list.
    + cbn. intros w todo [<- ->]. exists rs, ws. do 2 (split; [done|]). intros y inc val. split.
      * intros He. by pose proof (recording_estimates n g i v _ y _ HI HM Hr Hp Ha (fun F => F) He).
      * intros (_ & Hy & Hno). exfalso. apply Hno. apply list_elem_of_fmap. exists (y, val).
        split; [done|]. by apply elem_of_map_to_list.
Qed.

(** The loop that enters the new data. *)
Lemma EInv_enter (n : nat) (log : Log) (h : list MvMemory) (g : MGlobal) (i : nat) (v : TxVersion)
    (x : LocationHash) (val : LocationValue) (todo : list (LocationHash * LocationValue)) (wn : bool)
    (locs : ReadWriteSet) :
  Inv n (base g) -> MInv n g -> EInv log h g ->
  threads (base g) !! i = Some (W_Execute v) -> aux g !! i = Some (M_Enter v ((x, val) :: todo) wn) ->
  locations (mem g) !! tx_idx v = Some locs ->
  let r := enter_step v (x, val) todo wn locs (mem g) in
  new_bytecodes r.1 = new_bytecodes (mem g) ->
  EInv log (r.1 :: h) (mkMGlobal (base g) r.1 (<[i := r.2]> (aux g))).
Proof using executed_mono.
  intros HI HM E Hp Ha Hl r Hnb.
  destruct (mi_aux _ _ HM _ _ _ Hp Ha) as [[_ Hnd] _]. cbn in Hnd. apply list.NoDup_cons in Hnd as [Hx _].
  destruct (ei_todo _ _ _ E _ _ _ _ Ha) as (rs & ws & Hlog & Hin).
  destruct (ei_thread _ _ _ E _ _ _ v (x :: todo.*1) Hp Ha) as (rs' & ws' & Hlog' & Hrs & Hset); [done|].
  assert (ws' = ws) as -> by congruence. assert (rs' = rs) as -> by congruence.
  destruct (enter_step_spec v x val todo wn locs (mem g) (mi_wf _ _ HM) Hl)
    as (m' & wn' & Heq & _ & _ & Hent & _ & Hread & _). unfold r in *. rewrite Heq in *. cbn [fst snd] in *.
  eapply EInv_mem; eauto; try done; rewrite ?Hnb; try (by apply E); [congruence|..].
  - intros y t inc w He. rewrite Hent in He. case_decide as Hd; [right|by left].
    destruct Hd as [-> ->]. simplify_eq. exists rs, ws. split; [done|]. apply Hin. by left.
  - intros t Ht%not_charged_execute. split; [apply Hread|]. intros y. rewrite Hent. by rewrite decide_False by tauto.
  - intros w l b Hw. simplify_eq. exists rs, ws. split; [done|]. intros y z Hy. apply Hin. by right.
  - cbn. intros w td [<- ->]. exists rs, ws. split; [done|]. rewrite Hread. split; [done|].
    intros y inc z. rewrite Hent. case_decide as Hd.
    + destruct Hd as [-> _]. split.
      * intros ?. simplify_eq. split; [done|]. split; [apply Hin; by left|done].
      * intros (-> & Hz & _). by rewrite (Hin x val) in Hz by (by left); simplify_eq.
    + assert (y ≠ x) by (intros ->; by apply Hd). rewrite Hset, not_elem_of_cons. tauto.
  - done.
Qed.

(** The loop that turns data into estimates. *)
Lemma EInv_conv (n : nat) (log : Log) (h : list MvMemory) (g : MGlobal) (i : nat) (v : TxVersion)
    (x : LocationHash) (todo : list LocationHash) :
  Inv n (base g) -> MInv n g -> EInv log h g ->
  threads (base g) !! i = Some (W_Convert v) -> aux g !! i = Some (M_Conv v (x :: todo)) ->
  EInv log (conv_step (tx_idx v) x (mem g) :: h)
    (mkMGlobal (base g) (conv_step (tx_idx v) x (mem g)) (<[i := M_Conv v todo]> (aux g))).
Proof using executed_mono.
  intros HI HM E Hp Ha. eapply EInv_mem; eauto; try done; try (by apply E); [congruence|..].
  - intros y t inc val He. rewrite entry_conv in He. case_decide; [done|by left].
  - intros t Ht%not_charged_convert. split; [done|]. intros y. rewrite entry_conv. by rewrite decide_False by tauto.
Qed.

(** ** Every step *)

Lemma deploy_codes (ch : Z) (m : MvMemory) :
  (forall c' v, new_bytecodes m !! c' = Some v -> v = code_of c') ->
  new_bytecodes m ⊆ new_bytecodes (deploy ch (code_of ch) m) /\
  forall c' v, new_bytecodes (deploy ch (code_of ch) m) !! c' = Some v -> v = code_of c'.
Proof using.
  intros Hm. cbn. destruct (new_bytecodes m !! ch) eqn:Hc; [done|]. split; [by apply insert_subseteq|].
  intros c' v Hv. apply lookup_insert_Some in Hv as [[<- <-]|[_ Hv]]; [done|by apply Hm].
Qed.

(** What a step logs: entering [record] logs the version. *)
Definition logged (g : MGlobal) (i : nat) (o : MOracle) (log : Log) : Log :=
  match threads (base g) !! i, aux g !! i, o with
  | Some (W_Execute v), Some M_Idle, O_Record rs ws => <[key v := (rs, ws)]> log
  | _, _, _ => log
  end.

Lemma logged_other (g : MGlobal) (i : nat) (o : MOracle) (log : Log) :
  (forall rs ws, o ≠ O_Record rs ws) -> logged g i o log = log.
Proof using. intros Ho. unfold logged. repeat case_match; try done. by edestruct Ho. Qed.

Lemma logged_busy (g : MGlobal) (i : nat) (o : MOracle) (log : Log) (a : mpc) :
  aux g !! i = Some a -> a ≠ M_Idle -> logged g i o log = log.
Proof using. intros Ha Hne. unfold logged. rewrite Ha. by repeat case_match. Qed.

(** A thread outside the operations of the memory. *)
Lemma EInv_idle (n : nat) (log : Log) (h : list MvMemory) (g g' : MGlobal) (i : nat) (p : pc) (o : MOracle) :
  Inv n (base g) -> MInv n g -> EInv log h g -> (Z.of_nat (length h) < 2 ^ 64)%Z ->
  threads (base g) !! i = Some p -> aux g !! i = Some M_Idle -> lawful h g i o ->
  idle_step g i p o = Some g' -> EInv (logged g i o log) (mem g' :: h) g'.
Proof using executed_mono.
  intros HI HM E Hlen Hp Ha Hlaw Hg.
  assert (Hbase : forall bo, (forall v f, p = W_Execute v -> vm_execute bo = Vm_Ok f -> False) ->
    base_step g i bo (mem g) = Some g' -> EInv log (mem g' :: h) g').
  { intros bo Hno Hb. unfold base_step in Hb. destruct (gstep (base g) i bo) as [b|] eqn:Hs; [|done].
    injection Hb as <-. apply gstep_inv in Hs as (q & sh & p' & Hq & Ht & ->).
    assert (q = p) as -> by congruence. cbn [mem].
    apply (EInv_base n log h g i p p' M_Idle bo sh); auto. intros v Hv.
    destruct (post_version_step _ _ _ _ _ _ _ (Inv_facts _ _ _ _ HI Hp) Ht _ Hv) as [?| ->]; [done|].
    cbn in Ht. destruct (vm_execute bo) eqn:Hvm; try (repeat case_match; simplify_eq; done).
    exfalso. by eapply Hno. }
  unfold idle_step in Hg.
  destruct p; try (destruct o; try done; rewrite logged_other by done; by eapply Hbase);
    destruct o; try done; unfold mem_step in Hg;
    try (rewrite logged_other by done).
  - destruct (vm_execute o) eqn:Hvm; try done; (eapply Hbase; [|done]); congruence.
  - injection Hg as <-. cbn in Hlaw. subst. destruct (deploy_codes code_hash (mem g)) as [? ?]; [apply E|].
    eapply (EInv_quiet n); eauto; try done. by intros v' todo [? _].
  - injection Hg as <-. cbn [mem fst snd]. eapply (EInv_quiet n); eauto; try done; [by intros v' todo [? _]|by apply E].
  - destruct (loc_free _ _); [|done]. destruct (locations (mem g) !! tx_idx v) as [locs|] eqn:Hl; [|done].
    injection Hg as <-. cbn [mem fst snd].
    unfold logged. rewrite Hp, Ha. eapply EInv_record; eauto.
  - destruct (loc_free _ _); [|done]. destruct (locations (mem g) !! tx_idx v) as [locs|] eqn:Hl; [|done].
    injection Hg as <-. cbn [mem fst snd]. by eapply (EInv_still n).
  - destruct (loc_free _ _); [|done]. destruct (locations (mem g) !! tx_idx v) as [locs|] eqn:Hl; [|done].
    injection Hg as <-. cbn [mem fst snd]. by eapply (EInv_still n).
Qed.

Lemma EInv_step (n : nat) (log : Log) (h : list MvMemory) (g g' : MGlobal) (i : nat) (o : MOracle) :
  Inv n (base g) -> MInv n g -> EInv log h g -> (Z.of_nat (length h) < 2 ^ 64)%Z ->
  abort_reason (shared (base g)) = None -> lawful h g i o ->
  mgstep g i o = Some g' -> EInv (logged g i o log) (mem g' :: h) g'.
Proof using executed_mono.
  intros HI HM E Hlen Hr Hlaw Hg. unfold mgstep in Hg.
  destruct (threads (base g) !! i) as [p|] eqn:Hp; [|done]. destruct (aux g !! i) as [a|] eqn:Ha; [|done].
  destruct (mi_aux _ _ HM _ _ _ Hp Ha) as [Hok _].
  assert (Hend : forall bo p', base_step g i bo (mem g) = Some g' ->
    tstep bo (lock_free (threads (base g))) (shared (base g)) p = Next (shared (base g)) p' ->
    pre_version p' = None -> (forall v, post_version p' = Some v -> settling p a v []) ->
    EInv log (mem g' :: h) g').
  { intros bo p' Hb Ht Hpre Hpost. unfold base_step in Hb.
    destruct (gstep (base g) i bo) as [b|] eqn:Hs; [|done]. injection Hb as <-.
    apply gstep_inv in Hs as (q & sh & p'' & Hq & Ht' & ->). assert (q = p) as -> by congruence.
    rewrite Ht in Ht'. injection Ht' as <- <-. cbn [mem].
    apply (EInv_base n log h g i p p' a bo (shared (base g))); auto. }
  destruct a as [|v ws k|v [|[x val] todo] wn|v [|[x os] todo]|v [|x todo]]; cbn [aux_ok] in Hok;
    [by eapply EInv_idle|rewrite (logged_busy _ _ _ _ _ Ha) by done; destruct o; try done..].
  - subst p. destruct (locations (mem g) !! tx_idx v) as [locs|] eqn:Hl; [|done].
    unfold mem_step in Hg. injection Hg as <-. cbn [mem]. by eapply EInv_drop.
  - destruct Hok as [-> _]. destruct fails; (eapply Hend; [done|reflexivity|done|]); cbn; [done|].
    intros w Hw. by simplify_eq.
  - destruct Hok as [-> _]. destruct (locations (mem g) !! tx_idx v) as [locs|] eqn:Hl; [|done].
    unfold mem_step in Hg. injection Hg as <-. cbn [mem]. eapply EInv_enter; eauto.
    unfold enter_step. by destruct (enter_write _ _ _) as [[? ?] ?].
  - subst p. by eapply Hend.
  - subst p. destruct (validate_location _ _ _ _).
    + unfold mem_step in Hg. injection Hg as <-. cbn [mem fst snd]. by eapply (EInv_still n).
    + by eapply Hend.
  - subst p. by eapply Hend.
  - subst p. unfold mem_step in Hg. injection Hg as <-. cbn [mem fst snd]. by eapply EInv_conv.
Qed.

Lemma EInv_init (n k : nat) (est : gmap LocationHash (list TxIdx)) (lz : list Address) :
  EInv ∅ [mem (MGlobal_init n k est lz)] (MGlobal_init n k est lz).
Proof using.
  constructor; cbn [base mem aux MGlobal_init Global_init threads shared].
  - by left.
  - intros t x Hx. apply lookup_replicate in Hx as [-> _]. cbn. lia.
  - done.
  - intros t inc [? ?]. done.
  - done.
  - intros m x t inc val Hm%list_elem_of_singleton He. subst m. by apply MvMemory_new_estimates in He.
  - intros j v ws l Hj. by apply lookup_replicate in Hj as [? _].
  - intros j v l b Hj. by apply lookup_replicate in Hj as [? _].
  - intros j p a v todo Hj Hja. apply lookup_replicate in Hj as [-> _].
    apply lookup_replicate in Hja as [-> _]. by intros [? _].
  - intros t x Hx. apply lookup_replicate in Hx as [-> _]. done.
  - done.
  - intros m ch c Hm%list_elem_of_singleton Hc. by subst m.
Qed.

(** An abort reason stays. *)
Lemma reason_step (n : nat) (g g' : MGlobal) (i : nat) (o : MOracle) :
  Inv n (base g) -> mgstep g i o = Some g' -> abort_reason (shared (base g')) = None ->
  abort_reason (shared (base g)) = None.
Proof using.
  intros HI Hg Hr. destruct (mgstep_base _ _ _ _ Hg) as [<-|[bo Hb]]; [done|].
  apply gstep_inv in Hb as (p & sh & p' & Hp & Ht & Heq). rewrite Heq in Hr. cbn in Hr.
  destruct (mono_step _ _ _ _ _ _ _ (Inv_facts _ _ _ _ HI Hp) Ht) as (_ & _ & [?|[r Hs]] & _); [done|congruence].
Qed.

Lemma runs_EInv (n k : nat) (est : gmap LocationHash (list TxIdx)) (lz : list Address)
    (h : list MvMemory) (g : MGlobal) :
  (Z.of_nat n < 2 ^ 64)%Z -> runs n k est lz h g -> (Z.of_nat (length h) < 2 ^ 64)%Z ->
  abort_reason (shared (base g)) = None -> exists log, EInv log h g.
Proof using executed_mono.
  intros Hn. induction 1 as [|h g i o g' Hrun IH Hlaw Hg]; intros Hlen Hr; [eexists; apply EInv_init|].
  cbn in Hlen. pose proof (runs_mreachable _ _ _ _ _ _ Hrun) as Hm.
  pose proof (reachable_Inv _ _ _ Hn (mreachable_base _ _ _ _ _ Hm)) as HI.
  pose proof (reason_step n g g' i o HI Hg Hr) as Hr0.
  destruct IH as [log E]; [lia|done|]. eexists.
  eapply EInv_step; eauto; [by eapply mreachable_MInv|lia].
Qed.

End Runs.
