(* ===== verification/WorkersResults.v ===== *)
(** * The results the worker threads leave (executor.rs, [try_execute])

    [WorkersRun] follows what executions read and write. Here the threads also carry
    the result of an execution from [Vm::execute] to the slot of its transaction in
    [execution_results]; slots may hold results of an earlier block, and a slot is
    written again by each incarnation. When a transaction is finished, its slot holds
    the result of the execution whose writes are in the memory. *)

From S2P Require Import Prelude Types MvMemory VmDb Scheduler Workers WorkersInv WorkersMem WorkersMemInv WorkersRun.

(** ** The kinds of steps *)

Section Kinds.
Context `{Revm}.

(** Only [Vm::execute] leads to [TE_Store]. *)
Lemma store_step (o : Oracle) (free : TxIdx -> bool) (g g' : Shared) (p : pc) (v : TxVersion) (f : FinishExecFlags) :
  tstep o free g p = Next g' (TE_Store v f) -> p = W_Execute v /\ vm_execute o = Vm_Ok f.
Proof. intros Ht. by step_cases Ht. Qed.

(** The steps that leave the scheduler alone: a thread at [p] and [a] changes the
    memory to [m'] and goes on at [a']. *)
Inductive mem_moves (g : MGlobal) (p : pc) : mpc -> MOracle -> MvMemory -> mpc -> Prop :=
| moves_record v rs ws locs : p = W_Execute v -> locations (mem g) !! tx_idx v = Some locs ->
    mem_moves g p M_Idle (O_Record rs ws)
      (set_locations (tx_idx v) (mkReadWriteSet rs (rw_write locs)) (mem g)) (M_Drop v ws 0)
| moves_deploy v ch c : p = W_Execute v -> mem_moves g p M_Idle (O_Deploy ch c) (deploy ch c (mem g)) M_Idle
| moves_lazy v l : p = W_Execute v -> mem_moves g p M_Idle (O_Lazy l) (add_lazy_addresses l (mem g)) M_Idle
| moves_validate v f locs : p = W_Validate v -> locations (mem g) !! tx_idx v = Some locs ->
    mem_moves g p M_Idle (O_Memory f) (mem g) (M_Check v (map_to_list (rw_read locs)))
| moves_convert v f locs : p = W_Convert v -> locations (mem g) !! tx_idx v = Some locs ->
    mem_moves g p M_Idle (O_Memory f) (mem g) (M_Conv v (rw_write locs))
| moves_drop v ws k f locs : p = W_Execute v -> locations (mem g) !! tx_idx v = Some locs ->
    mem_moves g p (M_Drop v ws k) (O_Memory f) (drop_step v ws k locs (mem g)).1 (drop_step v ws k locs (mem g)).2
| moves_enter v w todo wn f locs : p = W_Execute v -> locations (mem g) !! tx_idx v = Some locs ->
    mem_moves g p (M_Enter v (w :: todo) wn) (O_Memory f)
      (enter_step v w todo wn locs (mem g)).1 (enter_step v w todo wn locs (mem g)).2
| moves_check v x os todo f : p = W_Validate v ->
    mem_moves g p (M_Check v ((x, os) :: todo)) (O_Memory f) (mem g) (M_Check v todo)
| moves_conv v x todo f : p = W_Convert v ->
    mem_moves g p (M_Conv v (x :: todo)) (O_Memory f) (conv_step (tx_idx v) x (mem g)) (M_Conv v todo).

(** Every step is one of those, or a transition of the scheduler machine. *)
Lemma mgstep_kind (n : nat) (g g' : MGlobal) (i : nat) (o : MOracle) (p : pc) (a : mpc) :
  MInv n g -> threads (base g) !! i = Some p -> aux g !! i = Some a -> mgstep g i o = Some g' ->
  (exists bo sh p', tstep bo (lock_free (threads (base g))) (shared (base g)) p = Next sh p' /\
     g' = mkMGlobal (mkGlobal sh (<[i := p']> (threads (base g)))) (mem g) (<[i := M_Idle]> (aux g)) /\
     (forall rs ws, o ≠ O_Record rs ws) /\
     (forall v f, p' = TE_Store v f -> exists wn, a = M_Enter v [] wn /\ o = O_Memory false)) \/
  (exists m' a', g' = mkMGlobal (base g) m' (<[i := a']> (aux g)) /\ mem_moves g p a o m' a').
Proof.
  intros HM Hp Ha Hg. destruct (mi_aux _ _ HM _ _ _ Hp Ha) as [Hok _].
  unfold mgstep in Hg. rewrite Hp, Ha in Hg.
  match goal with |- ?L \/ _ => assert (Hbase : forall bo, base_step g i bo (mem g) = Some g' ->
    (forall rs ws, o ≠ O_Record rs ws) ->
    (forall v f sh, tstep bo (lock_free (threads (base g))) (shared (base g)) p = Next sh (TE_Store v f) ->
       exists wn, a = M_Enter v [] wn /\ o = O_Memory false) -> L) end.
  { intros bo Hb Ho Hst. unfold base_step in Hb. destruct (gstep (base g) i bo) as [b|] eqn:Hs; [|done].
    injection Hb as <-. apply gstep_inv in Hs as (q & sh & p' & Hq & Ht & ->). assert (q = p) as -> by congruence.
    exists bo, sh, p'. do 3 (split; [done|]). intros v f ->. by eapply Hst. }
  unfold mem_step in Hg.
  destruct a as [|v ws k|v [|w todo] wn|v [|[x os] todo]|v [|x todo]]; cbn [aux_ok] in Hok;
    [|destruct o; try done..].
  - unfold idle_step, mem_step in Hg.
    destruct p; try (destruct o; try done; left; eapply Hbase; [done|done|]; by intros ? ? ? [? _]%store_step);
      destruct o; try done;
      [|right; repeat case_match; try done; injection Hg as <-; do 2 eexists; (split; [done|]); by econstructor..].
    left. destruct (vm_execute o) eqn:Hvm; try done; (eapply Hbase; [done|done|]); intros ? ? ? [_ ?]%store_step; congruence.
  - right. destruct (locations (mem g) !! tx_idx v) eqn:Hl; [|done]. injection Hg as <-.
    do 2 eexists. split; [done|by constructor].
  - left. destruct Hok as [-> _]. eapply Hbase; [done|done|]. cbn. intros w f sh Hst.
    destruct fails; simplify_eq/=. by eexists.
  - right. destruct Hok as [-> _]. destruct (locations (mem g) !! tx_idx v) eqn:Hl; [|done]. injection Hg as <-.
    do 2 eexists. split; [done|by constructor].
  - left. subst p. by eapply Hbase.
  - subst p. destruct (validate_location _ _ _ _); [right|left; by eapply Hbase].
    injection Hg as <-. do 2 eexists. split; [done|by econstructor].
  - left. subst p. by eapply Hbase.
  - right. subst p. injection Hg as <-. do 2 eexists. split; [done|by constructor].
Qed.

End Kinds.

(** ** Results *)

Section Results.
Context `{Revm} {R : Type}.

(** What executing transaction [t] against the memories [h] can record, with its
    result; without one when its type is not known, an error found after [record]. *)
Context (produces : list MvMemory -> TxIdx -> ReadSet -> WriteSet -> option R -> Prop) (code_of : Z -> Bytecode).

Definition some_result (h : list MvMemory) (t : TxIdx) (rs : ReadSet) (ws : WriteSet) : Prop :=
  exists res, produces h t rs ws res.

(** ** Runs *)

(** A thread that enters [record] keeps the result of the execution; [TE_Store] moves
    it to the slot. *)
Definition keeps (o : MOracle) (i : nat) (res : option R) (pending : list (option R)) : list (option R) :=
  match o with O_Record _ _ => <[i := res]> pending | _ => pending end.

Definition stores (g : MGlobal) (i : nat) (pending slots : list (option R)) : list (option R) :=
  match threads (base g) !! i with
  | Some (TE_Store v _) => <[tx_idx v := default None (pending !! i)]> slots
  | _ => slots
  end.

(** An execution fails after [record] exactly when it has no result. *)
Definition fails_without (g : MGlobal) (i : nat) (o : MOracle) (pending : list (option R)) : Prop :=
  match aux g !! i, o with
  | Some (M_Enter _ [] _), O_Memory fails => fails = true <-> pending !! i = Some None
  | _, _ => True
  end.

Inductive result_runs (n k : nat) (est : gmap LocationHash (list TxIdx)) (lazy : list Address) (slots0 : list (option R)) :
    list MvMemory -> MGlobal -> list (option R) -> list (option R) -> Prop :=
| result_runs_init :
    result_runs n k est lazy slots0 [mem (MGlobal_init n k est lazy)] (MGlobal_init n k est lazy)
      (replicate k None) slots0
| result_runs_step h g pending slots i o res g' :
    result_runs n k est lazy slots0 h g pending slots ->
    lawful (fun h t rs ws => produces h t rs ws res) code_of h g i o ->
    fails_without g i o pending -> mgstep g i o = Some g' ->
    result_runs n k est lazy slots0 (mem g' :: h) g' (keeps o i res pending) (stores g i pending slots).

Lemma result_runs_runs (n k : nat) (est : gmap LocationHash (list TxIdx)) (lz : list Address)
    (slots0 : list (option R)) (h : list MvMemory) (g : MGlobal) (pending slots : list (option R)) :
  result_runs n k est lz slots0 h g pending slots -> runs some_result code_of n k est lz h g.
Proof.
  induction 1 as [|h g pe sl i o res g' _ IH Hl _ Hg]; [apply runs_init|].
  eapply runs_step; [done| |done]. destruct o; try done. intros v Hv. exists res. by apply Hl.
Qed.

(** ** The invariant *)

(** The thread carries the result of [v]. *)
Definition carrying (p : pc) (a : mpc) (v : TxVersion) : Prop :=
  match a with
  | M_Drop w _ _ | M_Enter w _ _ => w = v
  | M_Idle => exists f, p = TE_Store v f
  | _ => False
  end.

(** The thread has stored it. *)
Definition stored (p : pc) (v : TxVersion) : Prop := post_version p = Some v /\ forall f, p ≠ TE_Store v f.

Local Abbreviation Log := (gmap (nat * nat) (ReadSet * WriteSet)).

Definition in_slot (log : Log) (h : list MvMemory) (slots : list (option R)) (v : TxVersion) : Prop :=
  exists rs ws r, log !! key v = Some (rs, ws) /\ slots !! tx_idx v = Some (Some r) /\
    produces h (tx_idx v) rs ws (Some r).

Record RInv (n : nat) (log : Log) (h : list MvMemory) (g : MGlobal) (pending slots : list (option R)) : Prop := mkRInv {
  ri_pending : length pending = length (threads (base g));
  ri_slots : n <= length slots;
  ri_carry : forall k p a v, threads (base g) !! k = Some p -> aux g !! k = Some a -> carrying p a v ->
    exists rs ws res, log !! key v = Some (rs, ws) /\ pending !! k = Some res /\
      produces h (tx_idx v) rs ws res /\ (a = M_Idle -> res ≠ None);
  ri_stored : forall k p v, threads (base g) !! k = Some p -> stored p v -> in_slot log h slots v;
  ri_done : forall t x, tx_status (sched (shared (base g))) !! t = Some x -> is_finished (status x) = true ->
    in_slot log h slots (mkTxVersion t (incarnation x));
}.

Context (produces_mono : forall h m t rs ws res, produces h t rs ws res -> produces (m :: h) t rs ws res).

Lemma in_slot_mono (log log' : Log) (h : list MvMemory) (m : MvMemory) (slots slots' : list (option R)) (v : TxVersion) :
  log ⊆ log' -> slots' !! tx_idx v = slots !! tx_idx v -> in_slot log h slots v -> in_slot log' (m :: h) slots' v.
Proof using produces_mono.
  intros Hlog Hs (rs & ws & r & Hl & Hr & Hp). exists rs, ws, r. rewrite Hs.
  split; [by eapply lookup_weaken|]. split; [done|by apply produces_mono].
Qed.

Lemma stored_own (p : pc) (v : TxVersion) : stored p v -> 0 < own (tx_idx v) p.
Proof using. intros [Hv _]. destruct p; cbn in *; simplify_eq; rewrite ind_eq; lia. Qed.

(** A transition of the scheduler machine takes a version to where its result is
    stored only from [TE_Store]. *)
Lemma stored_step (n : nat) (o : Oracle) (free : TxIdx -> bool) (g g' : Shared) (p p' : pc) (v : TxVersion) :
  Facts n g p -> tstep o free g p = Next g' p' -> stored p' v -> stored p v \/ exists f, p = TE_Store v f.
Proof using.
  intros F Ht [Hv Hne]. destruct (post_version_step _ _ _ _ _ _ _ F Ht _ Hv) as [Hp| ->].
  - destruct p; cbn in Hp; simplify_eq; try (by left); by right; eexists.
  - exfalso. cbn in Ht. repeat case_match; simplify_eq/=. by eapply Hne.
Qed.

(** What a step of the memory does to what a thread carries. *)
Lemma carrying_moves (g : MGlobal) (p : pc) (a a' : mpc) (o : MOracle) (m' : MvMemory) :
  mem_moves g p a o m' a' ->
  (forall v f, p ≠ TE_Store v f) /\
  ((exists v rs ws, o = O_Record rs ws /\ p = W_Execute v /\ a = M_Idle /\ a' = M_Drop v ws 0) \/
   ((forall rs ws, o ≠ O_Record rs ws) /\ forall v, carrying p a' v -> carrying p a v)).
Proof using.
  intros Hm; destruct Hm; subst; (split; [done|]); try (by right; split); [by left; do 3 eexists|..];
    right; (split; [done|]); intros u.
  - unfold drop_step. by repeat case_match.
  - unfold enter_step. by destruct (enter_write _ _ _) as [[? ?] ?].
Qed.

Lemma logged_mono (log : Log) (h : list MvMemory) (g : MGlobal) (i : nat) (o : MOracle) :
  EInv some_result code_of log h g -> log ⊆ logged g i o log.
Proof using.
  intros E. unfold logged. destruct (threads (base g) !! i) as [[]|] eqn:Hp; try done.
  destruct (aux g !! i) as [[]|] eqn:Ha; try done. destruct o; try done.
  apply insert_subseteq. by eapply (ei_pre _ _ _ _ _ E).
Qed.

(** A step of a thread that is not in charge of [t] leaves its slot. *)
Lemma stores_other (g : MGlobal) (i : nat) (p : pc) (pending slots : list (option R)) (t : TxIdx) :
  threads (base g) !! i = Some p -> ~ in_charge t p -> stores g i pending slots !! t = slots !! t.
Proof using.
  intros Hp Hc. unfold stores. rewrite Hp. destruct p; try done. apply list_lookup_insert_ne.
  intros <-. apply Hc. left. cbn. rewrite ind_eq. lia.
Qed.

Lemma stores_none (g : MGlobal) (i : nat) (p : pc) (pending slots : list (option R)) :
  threads (base g) !! i = Some p -> (forall v f, p ≠ TE_Store v f) -> stores g i pending slots = slots.
Proof using. intros Hp Hne. unfold stores. rewrite Hp. destruct p; try done. by edestruct Hne. Qed.

Section Step.
Context (n : nat) (log : Log) (h : list MvMemory) (g : MGlobal) (pending slots : list (option R)).
Context (i : nat) (p : pc) (a : mpc).
Context (HI : Inv n (base g)) (HM : MInv n g) (E : EInv some_result code_of log h g) (B : RInv n log h g pending slots).
Context (Hp : threads (base g) !! i = Some p) (Ha : aux g !! i = Some a).

(** [TE_Store] puts the result into the slot. *)
Lemma store_in_slot (v : TxVersion) (f : FinishExecFlags) (m : MvMemory) :
  p = TE_Store v f -> in_slot log (m :: h) (stores g i pending slots) v.
Proof using produces_mono HI HM B Hp Ha.
  intros ->. destruct (mi_aux _ _ HM _ _ _ Hp Ha) as [Hok _].
  assert (a = M_Idle) as -> by (by eapply post_idle). destruct (inv_pc _ _ HI _ _ Hp) as [Hlt _]. cbn in Hlt.
  destruct (ri_carry _ _ _ _ _ _ B _ _ _ v Hp Ha) as (rs & ws & [r|] & Hl & Hr & Hprod & Hsome); [by eexists| |by destruct Hsome].
  exists rs, ws, r. split; [done|]. split; [|by apply produces_mono]. unfold stores. rewrite Hp, Hr.
  apply list_lookup_insert_eq. pose proof (ri_slots _ _ _ _ _ _ B). lia.
Qed.

Lemma RInv_base (o : MOracle) (bo : Oracle) (sh : Shared) (p' : pc) :
  tstep bo (lock_free (threads (base g))) (shared (base g)) p = Next sh p' -> fails_without g i o pending ->
  (forall v f, p' = TE_Store v f -> exists wn, a = M_Enter v [] wn /\ o = O_Memory false) ->
  RInv n log (mem g :: h) (mkMGlobal (mkGlobal sh (<[i := p']> (threads (base g)))) (mem g) (<[i := M_Idle]> (aux g)))
    pending (stores g i pending slots).
Proof using produces_mono HI HM E B Hp Ha.
  intros Ht Hfail Hstore. pose proof (Inv_facts _ _ _ _ HI Hp) as F.
  assert (Hkeep : forall v, stored p v -> in_slot log (mem g :: h) (stores g i pending slots) v).
  { intros v Hv. eapply in_slot_mono; [done| |by eapply (ri_stored _ _ _ _ _ _ B)].
    rewrite (stores_none _ _ _ _ _ Hp); [done|]. intros w f ->. destruct Hv as [Hv Hne]. cbn in Hv. simplify_eq. by eapply Hne. }
  constructor; cbn [base threads aux shared].
  - rewrite length_insert. apply B.
  - unfold stores. repeat case_match; rewrite ?length_insert; apply B.
  - intros k q b v Hq Hb Hc. destruct (thread_cases _ _ _ _ _ _ _ _ Hq Hb) as [(-> & -> & ->)|(_ & Hq' & Hb')].
    + destruct Hc as [f Hc]. destruct (Hstore _ _ Hc) as (wn & -> & ->). unfold fails_without in Hfail. rewrite Ha in Hfail.
      destruct (ri_carry _ _ _ _ _ _ B _ _ _ v Hp Ha eq_refl) as (rs & ws & res & Hl & Hr & Hprod & _).
      exists rs, ws, res. do 2 (split; [done|]). split; [by apply produces_mono|]. intros _ ->.
      by apply Hfail in Hr.
    + destruct (ri_carry _ _ _ _ _ _ B _ _ _ v Hq' Hb' Hc) as (rs & ws & res & Hl & Hr & Hprod & Hs).
      exists rs, ws, res. do 2 (split; [done|]). split; [by apply produces_mono|done].
  - intros k q v Hq Hs. apply lookup_insert_cases in Hq as [(-> & -> & _)|[Hne Hq]].
    + destruct (stored_step _ _ _ _ _ _ _ _ F Ht Hs) as [?|[f Hf]]; [by apply Hkeep|by eapply store_in_slot].
    + eapply in_slot_mono; [done| |by eapply (ri_stored _ _ _ _ _ _ B)]. eapply stores_other; [done|].
      eapply (executing_not_charged n (base g)); eauto. by apply stored_own.
  - intros t x Hx Hf.
    assert (Hold : forall y, tx_status (sched (shared (base g))) !! t = Some y -> is_finished (status y) = true ->
      in_slot log (mem g :: h) (stores g i pending slots) (mkTxVersion t (incarnation y))).
    { intros y Hy Hfy. eapply in_slot_mono; [done| |by eapply (ri_done _ _ _ _ _ _ B)]. eapply stores_other; [done|].
      eapply (finished_not_charged n (base g)); eauto. by exists y. }
    destruct (finished_incarnation _ _ _ _ _ _ _ F Ht _ _ Hx Hf) as [(y & Hy & Hfy & <-)|Hv]; [by apply Hold|].
    destruct p; cbn in Hv; simplify_eq; try (by apply Hkeep).
    apply Hold; [|done]. cbn in Ht. repeat case_match; simplify_eq/=. done.
Qed.

Lemma RInv_mem (o : MOracle) (res : option R) (m' : MvMemory) (a' : mpc) :
  lawful (fun h t rs ws => produces h t rs ws res) code_of h g i o -> (forall v f, p ≠ TE_Store v f) ->
  (exists v rs ws, o = O_Record rs ws /\ p = W_Execute v /\ a = M_Idle /\ a' = M_Drop v ws 0) \/
  ((forall rs ws, o ≠ O_Record rs ws) /\ forall v, carrying p a' v -> carrying p a v) ->
  RInv n (logged g i o log) (m' :: h) (mkMGlobal (base g) m' (<[i := a']> (aux g)))
    (keeps o i res pending) (stores g i pending slots).
Proof using produces_mono HI E B Hp Ha.
  intros Hlaw Hne Hkind. pose proof (logged_mono log h g i o E) as Hsub. rewrite (stores_none _ _ _ _ _ Hp Hne).
  constructor; cbn [base threads aux].
  - unfold keeps. case_match; rewrite ?length_insert; apply B.
  - apply B.
  - intros k q b v Hq Hb Hc. destruct (decide (k = i)) as [->|Hk].
    + assert (q = p) as -> by congruence. apply lookup_insert_cases in Hb as [(_ & -> & _)|[? _]]; [|done].
      destruct Hkind as [(w & rs & ws & -> & -> & -> & ->)|[Ho Hcarry]].
      * cbn in Hc. subst w. exists rs, ws, res. unfold logged. rewrite Hp, Ha, lookup_insert_eq. split; [done|].
        split; [|split; [apply produces_mono; by apply Hlaw|done]]. cbn. apply list_lookup_insert_eq.
        rewrite (ri_pending _ _ _ _ _ _ B). by eapply lookup_lt_Some.
      * destruct (ri_carry _ _ _ _ _ _ B _ _ _ v Hp Ha (Hcarry _ Hc)) as (rs & ws & r & Hl & Hr & Hprod & _).
        exists rs, ws, r. split; [by eapply lookup_weaken|]. split; [|split; [by apply produces_mono|]].
        -- destruct o; try done. by edestruct Ho.
        -- intros ->. destruct Hc as [f Hc]. by edestruct Hne.
    + rewrite list_lookup_insert_ne in Hb by congruence.
      destruct (ri_carry _ _ _ _ _ _ B _ _ _ v Hq Hb Hc) as (rs & ws & r & Hl & Hr & Hprod & Hs).
      exists rs, ws, r. split; [by eapply lookup_weaken|]. split; [|split; [by apply produces_mono|done]].
      destruct o; try done. cbn. by rewrite list_lookup_insert_ne by congruence.
  - intros k q v Hq Hs. eapply in_slot_mono; [done|done|]. by eapply (ri_stored _ _ _ _ _ _ B).
  - intros t x Hx Hf. eapply in_slot_mono; [done|done|]. by eapply (ri_done _ _ _ _ _ _ B).
Qed.

End Step.

Lemma RInv_step (n : nat) (log : Log) (h : list MvMemory) (g g' : MGlobal) (pending slots : list (option R)) (i : nat)
    (o : MOracle) (res : option R) :
  Inv n (base g) -> MInv n g -> EInv some_result code_of log h g -> RInv n log h g pending slots ->
  lawful (fun h t rs ws => produces h t rs ws res) code_of h g i o -> fails_without g i o pending ->
  mgstep g i o = Some g' ->
  RInv n (logged g i o log) (mem g' :: h) g' (keeps o i res pending) (stores g i pending slots).
Proof using produces_mono.
  intros HI HM E B Hlaw Hfail Hg.
  destruct (threads (base g) !! i) as [p|] eqn:Hp; [|unfold mgstep in Hg; by rewrite Hp in Hg].
  destruct (aux g !! i) as [a|] eqn:Ha; [|unfold mgstep in Hg; by rewrite Hp, Ha in Hg].
  destruct (mgstep_kind n g g' i o p a HM Hp Ha Hg) as [(bo & sh & p' & Ht & -> & Ho & Hs)|(m' & a' & -> & Hmv)].
  - rewrite logged_other by done. assert (Hke : keeps o i res pending = pending) by (destruct o; try done; by edestruct Ho).
    rewrite Hke. cbn [mem]. by eapply RInv_base.
  - cbn [mem]. destruct (carrying_moves _ _ _ _ _ _ Hmv) as [Hne Hk]. by eapply RInv_mem.
Qed.

Lemma result_runs_inv (n k : nat) (est : gmap LocationHash (list TxIdx)) (lz : list Address)
    (slots0 : list (option R)) (h : list MvMemory) (g : MGlobal) (pending slots : list (option R)) :
  (Z.of_nat n < 2 ^ 64)%Z -> n <= length slots0 -> result_runs n k est lz slots0 h g pending slots ->
  (Z.of_nat (length h) < 2 ^ 64)%Z -> abort_reason (shared (base g)) = None ->
  exists log, EInv some_result code_of log h g /\ RInv n log h g pending slots.
Proof using produces_mono.
  intros Hn Hlen0. induction 1 as [|h g pe sl i o res g' Hrun IH Hlaw Hfail Hg]; intros Hlen Hr.
  - exists ∅. split; [apply EInv_init|]. constructor; cbn [base threads aux shared MGlobal_init Global_init].
    + by rewrite !length_replicate.
    + done.
    + intros j p a v Hj Hja. apply lookup_replicate in Hj as [-> _].
      apply lookup_replicate in Hja as [-> _]. by intros [f ?].
    + intros j p v Hj. apply lookup_replicate in Hj as [-> _]. by intros [? _].
    + intros t x Hx. apply lookup_replicate in Hx as [-> _]. done.
  - cbn in Hlen. pose proof (runs_mreachable _ _ _ _ _ _ _ _ (result_runs_runs _ _ _ _ _ _ _ _ _ Hrun)) as Hm.
    pose proof (reachable_Inv _ _ _ Hn (mreachable_base _ _ _ _ _ Hm)) as HI.
    pose proof (reason_step n g g' i o HI Hg Hr) as Hr0.
    pose proof (mreachable_MInv _ _ _ _ _ Hn Hm) as HM. destruct IH as (log & E & B); [lia|done|].
    exists (logged g i o log). split; [|by eapply RInv_step].
    eapply EInv_step; eauto; [|lia|].
    + intros h' m t rs ws [r ?]. exists r. by apply produces_mono.
    + destruct o; try done. intros v Hv. exists res. by apply Hlaw.
Qed.

End Results.
