(* ===== verification/WorkersEst.v ===== *)
(** * Estimates during a run

    An estimate stands for a value that an aborted execution had written, or that was
    expected at the start of the block. The next incarnation of the transaction
    overwrites the estimate or drops the location: what a finished transaction has
    listed as written is what it has recorded, so that the only estimates left of it
    are initial ones it has never written to. *)

From S2P Require Import Prelude Types MvMemory VmDb Scheduler Workers WorkersInv WorkersMem WorkersMemInv WorkersRun.
From S2P Require Import WorkersResults.

Section Estimates.
Context `{Revm}.
Context (executed : list MvMemory -> TxIdx -> ReadSet -> WriteSet -> Prop) (code_of : Z -> Bytecode).
Context (executed_mono : forall h m t rs ws, executed h t rs ws -> executed (m :: h) t rs ws).
Context (est : gmap LocationHash (list TxIdx)).

Local Abbreviation Log := (gmap (nat * nat) (ReadSet * WriteSet)).

(** ** The invariant *)

(** The locations the memory lists as written by a transaction. *)
Definition listed (m : MvMemory) (t : TxIdx) (x : LocationHash) : Prop :=
  exists locs, locations m !! t = Some locs /\ x ∈ rw_write locs.

(** There was an estimate at the start. *)
Definition initial (x : LocationHash) (t : TxIdx) : Prop := exists idxs, est !! x = Some idxs /\ t ∈ idxs.

(** All that is listed of [v] is what it has recorded. *)
Definition within (log : Log) (m : MvMemory) (v : TxVersion) : Prop :=
  exists rs ws, log !! key v = Some (rs, ws) /\ forall x, listed m (tx_idx v) x -> is_Some (ws !! x).

Record WInv (log : Log) (g : MGlobal) : Prop := mkWInv {
  wi_est : forall x t, entry (mem g) x t = Some Estimate -> initial x t \/ listed (mem g) t x;
  wi_drop : forall k v ws j locs, aux g !! k = Some (M_Drop v ws j) -> locations (mem g) !! tx_idx v = Some locs ->
    forall l x, l < j -> rw_write locs !! l = Some x -> is_Some (ws !! x);
  wi_conv : forall k v todo x, aux g !! k = Some (M_Conv v todo) -> x ∈ todo -> listed (mem g) (tx_idx v) x;
  wi_thread : forall k p a v todo, threads (base g) !! k = Some p -> aux g !! k = Some a ->
    settling p a v todo -> within log (mem g) v;
  wi_done : forall t x, tx_status (sched (shared (base g))) !! t = Some x -> is_finished (status x) = true ->
    within log (mem g) (mkTxVersion t (incarnation x));
}.

(** ** What changes what is listed *)

(** Two memories list the same of [t]. *)
Definition same_list (m m' : MvMemory) (t : TxIdx) : Prop :=
  rw_write <$> locations m' !! t = rw_write <$> locations m !! t.

Lemma listed_same (m m' : MvMemory) (t : TxIdx) (x : LocationHash) :
  same_list m m' t -> listed m' t x <-> listed m t x.
Proof.
  unfold same_list, listed. intros Hs. split; intros (locs & Hl & Hx); rewrite Hl in Hs; cbn in Hs.
  - destruct (locations m !! t) as [l|]; [|done]. cbn in Hs. injection Hs as Hs. exists l. by rewrite <- Hs.
  - destruct (locations m' !! t) as [l|]; [|done]. cbn in Hs. injection Hs as Hs. exists l. by rewrite Hs.
Qed.

Lemma within_frame (log log' : Log) (m m' : MvMemory) (v : TxVersion) :
  log ⊆ log' -> same_list m m' (tx_idx v) -> within log m v -> within log' m' v.
Proof.
  intros Hlog Hs (rs & ws & Hl & Hw). exists rs, ws. split; [by eapply lookup_weaken|].
  intros x Hx. apply Hw. by apply (listed_same _ _ _ _ Hs).
Qed.

(** A location dropped, and a location entered. *)
Lemma drop_listed (m : MvMemory) (t : TxIdx) (locs : ReadWriteSet) (k : nat) (x y : LocationHash) :
  locations m !! t = Some locs -> rw_write locs !! k = Some x -> listed m t y -> y ≠ x ->
  listed (set_locations t (mkReadWriteSet (rw_read locs) (swap_remove k (rw_write locs)))
            (set_data (alter (delete t) x) m)) t y.
Proof.
  intros Hl Hk (l & Hl' & Hy) Hne. simplify_eq. eexists. cbn.
  rewrite list_lookup_insert_eq by (by eapply lookup_lt_Some). split; [done|]. cbn.
  rewrite <- (swap_remove_perm _ _ _ Hk) in Hy. by apply elem_of_cons in Hy as [?|?].
Qed.

Lemma enter_listed (v : TxVersion) (w : LocationHash * LocationValue) (todo : list (LocationHash * LocationValue))
    (wn : bool) (locs : ReadWriteSet) (m : MvMemory) (t : TxIdx) (y : LocationHash) :
  locations m !! tx_idx v = Some locs ->
  listed (enter_step v w todo wn locs m).1 t y <-> listed m t y \/ (t = tx_idx v /\ y = w.1).
Proof.
  intros Hl. assert (Hlt : tx_idx v < length (locations m)) by (by eapply lookup_lt_Some).
  assert (Hgen : forall write d, (y ∈ write <-> y ∈ rw_write locs \/ y = w.1) ->
    listed (set_locations (tx_idx v) (mkReadWriteSet (rw_read locs) write) (set_data (fun _ => d) m)) t y <->
    listed m t y \/ (t = tx_idx v /\ y = w.1)).
  { intros write d Hw. unfold listed. cbn. destruct (decide (t = tx_idx v)) as [->|Hne].
    - rewrite list_lookup_insert_eq by done. split.
      + intros (l & Heq & Hy). simplify_eq. cbn in Hy. apply Hw in Hy as [Hy| ->]; [left; eauto|by right].
      + intros [(l & Heq & Hy)|[_ ->]]; eexists; (split; [done|]); cbn; apply Hw; [left; congruence|by right].
    - rewrite list_lookup_insert_ne by congruence. split; [by left|]. by intros [?|[? _]]. }
  unfold enter_step, enter_write. destruct w as [x val]. case_bool_decide as Hx; apply Hgen; cbn.
  - split; [by left|]. by intros [?| ->].
  - by rewrite elem_of_app, list_elem_of_singleton.
Qed.

(** ** Steps *)

Lemma charged_once (n : nat) (g : Global) (i k : nat) (p q : pc) (t : TxIdx) :
  Inv n g -> threads g !! i = Some p -> threads g !! k = Some q -> k ≠ i -> in_charge t q -> ~ in_charge t p.
Proof.
  intros HI Hp Hq Hne [Ho|Hpe]; [by eapply executing_not_charged|]. intros [Ho|Hpe'].
  - eapply (executing_not_charged n g k i q p t); eauto. by right.
  - pose proof (sum_list_with_two_le (pend t) _ _ _ _ _ Hne Hq Hp). pose proof (inv_wait _ _ HI t).
    pose proof (st_is_le Aborted (tx_status (sched (shared g))) t). lia.
Qed.

(** A step that leaves the scheduler alone. *)
Lemma WInv_mem (n : nat) (log log' : Log) (g : MGlobal) (i : nat) (p : pc) (a a' : mpc) (m' : MvMemory) :
  Inv n (base g) -> MInv n g -> WInv log g -> threads (base g) !! i = Some p -> aux g !! i = Some a -> log ⊆ log' ->
  (forall t, ~ in_charge t p -> same_list (mem g) m' t) ->
  (forall x t, entry m' x t = Some Estimate -> initial x t \/ listed m' t x) ->
  (forall v ws j locs, a' = M_Drop v ws j -> locations m' !! tx_idx v = Some locs ->
     forall l x, l < j -> rw_write locs !! l = Some x -> is_Some (ws !! x)) ->
  (forall v todo x, a' = M_Conv v todo -> x ∈ todo -> listed m' (tx_idx v) x) ->
  (forall v todo, settling p a' v todo -> within log' m' v) ->
  WInv log' (mkMGlobal (base g) m' (<[i := a']> (aux g))).
Proof.
  intros HI HM W Hp Ha Hsub Hframe Hest Hdrop Hconv Hset.
  assert (Hother : forall k b, aux g !! k = Some b -> k ≠ i -> exists q, threads (base g) !! k = Some q /\ aux_ok q b).
  { intros k b Hk Hne. destruct (lookup_lt_is_Some_2 (threads (base g)) k) as [q Hq].
    { rewrite <- (mi_len_aux _ _ HM). by eapply lookup_lt_Some. }
    exists q. split; [done|]. by eapply (mi_aux _ _ HM). }
  constructor; cbn [base mem aux].
  - done.
  - intros k v ws j locs Hk Hl l x Hlt Hx. apply lookup_insert_cases in Hk as [(-> & <- & _)|[Hne Hk]]; [by eapply Hdrop|].
    destruct (Hother _ _ Hk Hne) as (q & Hq & Hok). cbn in Hok. subst q.
    assert (Hs : same_list (mem g) m' (tx_idx v)).
    { apply Hframe. eapply (charged_once n (base g)); eauto. left. cbn. rewrite ind_eq. lia. }
    unfold same_list in Hs. rewrite Hl in Hs. destruct (locations (mem g) !! tx_idx v) as [l0|] eqn:Hl0; [|done].
    cbn in Hs. injection Hs as Hs. rewrite Hs in Hx. by eapply (wi_drop _ _ W).
  - intros k v todo x Hk Hx. apply lookup_insert_cases in Hk as [(-> & <- & _)|[Hne Hk]]; [by eapply Hconv|].
    destruct (Hother _ _ Hk Hne) as (q & Hq & Hok). cbn in Hok. subst q.
    apply (listed_same (mem g)); [|by eapply (wi_conv _ _ W)]. apply Hframe. eapply (charged_once n (base g)); eauto.
    right. cbn. rewrite ind_eq. lia.
  - intros k q b v todo Hq Hb Hs. apply lookup_insert_cases in Hb as [(-> & -> & _)|[Hne Hb]].
    + assert (q = p) as -> by congruence. by eapply Hset.
    + eapply within_frame; [done| |by eapply (wi_thread _ _ W)]. apply Hframe. eapply (charged_once n (base g)); eauto.
      left. eapply settling_own; [|done]. by eapply (mi_aux _ _ HM).
  - intros t x Hx Hf. eapply within_frame; [done| |by eapply (wi_done _ _ W)]. apply Hframe.
    eapply (finished_not_charged n (base g)); eauto. by exists x.
Qed.

(** A transition of the scheduler machine. *)
Lemma WInv_base (n : nat) (log : Log) (g : MGlobal) (i : nat) (p p' : pc) (a : mpc) (o : MOracle) (bo : Oracle) (sh : Shared) :
  Inv n (base g) -> MInv n g -> WInv log g -> threads (base g) !! i = Some p -> aux g !! i = Some a ->
  tstep bo (lock_free (threads (base g))) (shared (base g)) p = Next sh p' ->
  (forall v f, p' = TE_Store v f -> exists wn, a = M_Enter v [] wn /\ o = O_Memory false) ->
  WInv log (mkMGlobal (mkGlobal sh (<[i := p']> (threads (base g)))) (mem g) (<[i := M_Idle]> (aux g))).
Proof.
  intros HI HM W Hp Ha Ht Hstore. pose proof (Inv_facts _ _ _ _ HI Hp) as F.
  destruct (mi_aux _ _ HM _ _ _ Hp Ha) as [Hok _].
  constructor; cbn [base mem aux shared threads].
  - apply W.
  - intros k v ws j locs Hk. apply lookup_insert_cases in Hk as [(_ & ? & _)|[_ Hk]]; [done|by eapply (wi_drop _ _ W)].
  - intros k v todo x Hk. apply lookup_insert_cases in Hk as [(_ & ? & _)|[_ Hk]]; [done|by eapply (wi_conv _ _ W)].
  - intros k q b v todo Hq Hb Hs. destruct (thread_cases _ _ _ _ _ _ _ _ Hq Hb) as [(-> & -> & ->)|(_ & Hq' & Hb')];
      [|by eapply (wi_thread _ _ W)].
    destruct Hs as [Hv ->]. eapply (wi_thread _ _ W i p a v []); [done|done|].
    destruct (post_version_step _ _ _ _ _ _ _ F Ht _ Hv) as [Hv'| ->].
    + by rewrite (post_idle _ _ _ Hok Hv').
    + assert (Hp' : exists f, p' = TE_Store v f) by (cbn in Ht; repeat case_match; simplify_eq/=; eauto).
      destruct Hp' as [f Hf]. by destruct (Hstore _ _ Hf) as (wn & -> & _).
  - intros t x Hx Hf. destruct (finished_incarnation _ _ _ _ _ _ _ F Ht _ _ Hx Hf) as [(y & Hy & Hfy & <-)|Hv].
    + by eapply (wi_done _ _ W).
    + eapply (wi_thread _ _ W i p a _ []); [done|done|]. by rewrite (post_idle _ _ _ Hok Hv).
Qed.

(** ** Every step *)

Lemma WInv_drop (n : nat) (log : Log) (h : list MvMemory) (g : MGlobal) (i : nat) (v : TxVersion)
    (ws : WriteSet) (k : nat) (locs : ReadWriteSet) :
  Inv n (base g) -> MInv n g -> EInv executed code_of log h g -> WInv log g ->
  threads (base g) !! i = Some (W_Execute v) -> aux g !! i = Some (M_Drop v ws k) ->
  locations (mem g) !! tx_idx v = Some locs ->
  let r := drop_step v ws k locs (mem g) in
  WInv log (mkMGlobal (base g) r.1 (<[i := r.2]> (aux g))).
Proof.
  intros HI HM E W Hp Ha Hl r. unfold r, drop_step.
  pose proof (wi_drop _ _ W _ _ _ _ _ Ha Hl) as Hpre.
  destruct (rw_write locs !! k) as [x|] eqn:Hk; [destruct (ws !! x) as [val|] eqn:Hx|]; cbn [fst snd].
  - eapply WInv_mem; eauto; try done; [by apply W|]. intros w ws' j locs' Heq Hl' l y Hlt Hy. simplify_eq.
    destruct (decide (l = k)) as [->|]; [simplify_eq; by eexists|]. eapply Hpre; [|done]. lia.
  - eapply WInv_mem; eauto; try done.
    + intros t Ht%not_charged_execute. unfold same_list. cbn. by rewrite list_lookup_insert_ne by congruence.
    + intros y t He.
      change (entry (set_data (alter (delete (tx_idx v)) x) (mem g)) y t = Some Estimate) in He.
      rewrite entry_drop in He. case_decide as Hd; [done|]. destruct (wi_est _ _ W _ _ He) as [?|Hy]; [by left|right].
      destruct (decide (t = tx_idx v)) as [->|Hne]; [by apply drop_listed; [..|naive_solver]|].
      destruct Hy as (l & Hl' & Hy). exists l. cbn. by rewrite list_lookup_insert_ne by congruence.
    + intros w ws' j locs' Heq Hl' l y Hlt Hy. simplify_eq. cbn in Hl'.
      rewrite list_lookup_insert_eq in Hl' by (by eapply lookup_lt_Some). injection Hl' as <-. cbn in Hy.
      rewrite swap_remove_lookup_lt in Hy by (done || by eapply lookup_lt_Some). by eapply Hpre.
  - eapply WInv_mem; eauto; try done; [by apply W|]. intros w todo [<- _].
    destruct (ei_drop _ _ _ _ _ E _ _ _ _ Ha) as (rs & Hlog & _). exists rs, ws. split; [done|].
    intros y (l & Hl' & Hy). simplify_eq. apply list_elem_of_lookup in Hy as [j Hj]. eapply Hpre; [|done].
    apply lookup_ge_None in Hk. apply lookup_lt_Some in Hj. lia.
Qed.

Lemma WInv_enter (n : nat) (log : Log) (h : list MvMemory) (g : MGlobal) (i : nat) (v : TxVersion)
    (w : LocationHash * LocationValue) (todo : list (LocationHash * LocationValue)) (wn : bool) (locs : ReadWriteSet) :
  Inv n (base g) -> MInv n g -> EInv executed code_of log h g -> WInv log g ->
  threads (base g) !! i = Some (W_Execute v) -> aux g !! i = Some (M_Enter v (w :: todo) wn) ->
  locations (mem g) !! tx_idx v = Some locs ->
  let r := enter_step v w todo wn locs (mem g) in
  WInv log (mkMGlobal (base g) r.1 (<[i := r.2]> (aux g))).
Proof.
  intros HI HM E W Hp Ha Hl r. unfold r.
  pose proof (enter_listed v w todo wn locs (mem g)) as Hlist.
  destruct w as [x val]. destruct (enter_step_spec v x val todo wn locs (mem g) (mi_wf _ _ HM) Hl)
    as (m' & wn' & Heq & _ & _ & Hent & _). rewrite Heq in *. cbn [fst snd] in *.
  destruct (wi_thread _ _ W _ _ _ v (x :: todo.*1) Hp Ha) as (rs & ws & Hlog & Hw); [done|].
  destruct (ei_todo _ _ _ _ _ E _ _ _ _ Ha) as (rs' & ws' & Hlog' & Hin). simplify_eq.
  eapply WInv_mem; eauto; try done.
  - intros t Ht%not_charged_execute. unfold enter_step in Heq. destruct (enter_write _ _ _) as [[? ?] ?].
    injection Heq as <- _. unfold same_list. cbn. by rewrite list_lookup_insert_ne by congruence.
  - intros y t He. rewrite Hent in He. case_decide; [done|].
    destruct (wi_est _ _ W _ _ He) as [?|Hy]; [by left|right]. apply Hlist; [done|by left].
  - cbn. intros u td [<- _]. exists rs, ws. split; [done|]. intros y Hy.
    apply Hlist in Hy as [Hy|[_ ->]]; [by apply Hw|rewrite (Hin x val); [by eexists|by left]|done].
Qed.

Lemma WInv_step (n : nat) (log : Log) (h : list MvMemory) (g g' : MGlobal) (i : nat) (o : MOracle) :
  Inv n (base g) -> MInv n g -> EInv executed code_of log h g -> WInv log g ->
  mgstep g i o = Some g' -> WInv (logged g i o log) g'.
Proof.
  intros HI HM E W Hg.
  destruct (threads (base g) !! i) as [p|] eqn:Hp; [|unfold mgstep in Hg; by rewrite Hp in Hg].
  destruct (aux g !! i) as [a|] eqn:Ha; [|unfold mgstep in Hg; by rewrite Hp, Ha in Hg].
  destruct (mgstep_kind n g g' i o p a HM Hp Ha Hg) as [(bo & sh & p' & Ht & -> & Ho & Hs)|(m' & a' & -> & Hmv)].
  { rewrite logged_other by done. by eapply WInv_base. }
  destruct Hmv; subst; try (rewrite logged_other by done).
  - unfold logged. rewrite Hp, Ha.
    assert (Hsame : forall t, same_list (mem g) (set_locations (tx_idx v) (mkReadWriteSet rs (rw_write locs)) (mem g)) t).
    { intros t. unfold same_list. cbn. destruct (decide (t = tx_idx v)) as [->|Hne].
      - by rewrite list_lookup_insert_eq, H1 by (by eapply lookup_lt_Some).
      - by rewrite list_lookup_insert_ne by congruence. }
    eapply WInv_mem; eauto; try done.
    + apply insert_subseteq. by eapply (ei_pre _ _ _ _ _ E).
    + intros x t He. destruct (wi_est _ _ W _ _ He) as [?|Hx]; [by left|right]. by apply (listed_same (mem g)).
    + intros w ws' j locs' Heq. simplify_eq. lia.
  - eapply WInv_mem; eauto; try done; [by apply W|]. by intros w todo [? _].
  - eapply WInv_mem; eauto; try done; [by apply W|]. by intros w todo [? _].
  - eapply WInv_mem; eauto; try done. by apply W.
  - eapply WInv_mem; eauto; try done; [by apply W|]. intros w todo x Heq Hx. simplify_eq. by eexists.
  - by eapply WInv_drop.
  - by eapply WInv_enter.
  - eapply WInv_mem; eauto; try done. by apply W.
  - eapply WInv_mem; eauto; try done.
    + intros y t He. rewrite entry_conv in He. case_decide as Hd.
      * destruct Hd as (-> & -> & _). right. eapply (wi_conv _ _ W _ _ _ _ Ha). by left.
      * by apply (wi_est _ _ W).
    + intros w td y Heq Hy. simplify_eq. eapply (wi_conv _ _ W _ _ _ y Ha). by right.
Qed.

Lemma runs_WInv (n k : nat) (lz : list Address) (h : list MvMemory) (g : MGlobal) :
  (Z.of_nat n < 2 ^ 64)%Z -> runs executed code_of n k est lz h g -> (Z.of_nat (length h) < 2 ^ 64)%Z ->
  abort_reason (shared (base g)) = None -> exists log, EInv executed code_of log h g /\ WInv log g.
Proof using executed_mono.
  intros Hn. induction 1 as [|h g i o g' Hrun IH Hlaw Hg]; intros Hlen Hr.
  - exists ∅. split; [apply EInv_init|]. constructor; cbn [base mem aux MGlobal_init Global_init threads shared].
    + intros x t He. left. unfold entry, MvMemory_new in He. cbn in He. rewrite lookup_fmap in He.
      destruct (est !! x) as [idxs|] eqn:Hx; [|done]. cbn in He. exists idxs. split; [done|].
      apply elem_of_list_to_map_2, list_elem_of_fmap in He as (j & Heq & Hj). by simplify_eq.
    + intros j v ws l locs Hj. by apply lookup_replicate in Hj as [? _].
    + intros j v todo x Hj. by apply lookup_replicate in Hj as [? _].
    + intros j p a v todo Hj Hja. apply lookup_replicate in Hj as [-> _].
      apply lookup_replicate in Hja as [-> _]. by intros [? _].
    + intros t x Hx. apply lookup_replicate in Hx as [-> _]. done.
  - cbn in Hlen. pose proof (runs_mreachable _ _ _ _ _ _ _ _ Hrun) as Hm.
    pose proof (reachable_Inv _ _ _ Hn (mreachable_base _ _ _ _ _ Hm)) as HI.
    pose proof (reason_step n g g' i o HI Hg Hr) as Hr0.
    pose proof (mreachable_MInv _ _ _ _ _ Hn Hm) as HM. destruct IH as (log & E & W); [lia|done|].
    exists (logged g i o log). split; [|by eapply WInv_step]. eapply EInv_step; eauto. lia.
Qed.

(** An estimate left when all transactions are finished is an initial one. *)
Lemma estimate_left (n : nat) (log : Log) (h : list MvMemory) (g : MGlobal) (x : LocationHash) (t : TxIdx) :
  Inv n (base g) -> MInv n g -> EInv executed code_of log h g -> WInv log g ->
  (forall u, u < n -> finished_at (tx_status (sched (shared (base g)))) u) ->
  entry (mem g) x t = Some Estimate -> initial x t.
Proof.
  intros HI HM E W Hall He. destruct (wi_est _ _ W _ _ He) as [?|(locs & Hl & Hx)]; [done|exfalso].
  destruct (Hall t) as (y & Hy & Hf); [rewrite <- (mi_len_loc _ _ HM); by eapply lookup_lt_Some|].
  destruct (wi_done _ _ W _ _ Hy Hf) as (rs & ws & Hlog & Hw). destruct (Hw x) as [val Hv]; [by exists locs|].
  destruct (ei_done _ _ _ _ _ E _ _ Hy Hf) as (rs' & ws' & Hlog' & _ & Hent).
  assert (ws' = ws) as -> by congruence. cbn in Hent.
  assert (Hd : entry (mem g) x t = Some (Data (incarnation y) val)); [|congruence].
  apply Hent. split; [done|]. split; [done|apply not_elem_of_nil].
Qed.

End Estimates.
