(* ===== verification/WorkersSerial.v ===== *)
(** * Serializability of the parallel execution

    What the invariant of [WorkersMemInv] gives when the threads are done: every read
    of every transaction is current in the final memory; and, when what an execution
    records is what running the transaction on the memories it saw gives, the final
    memory holds for every transaction what running it on the final memory gives. *)

From S2P Require Import Prelude Primitives Types Results MvMemory VmDb Vm Scheduler Workers WorkersInv WorkersSafety.
From S2P Require Import WorkersMem WorkersMemInv WorkersRun WorkersResults.

Section Serial.
Context `{Revm}.

(** ** The reads of a finished block *)

(** Without threads, nobody covers a transaction any more, and the validation index
    has passed all of them. *)
Lemma validation_idx_at_rest (n k : nat) (g : Global) :
  (Z.of_nat n < 2 ^ 64)%Z -> 0 < k -> reachable n k g -> all_done g ->
  abort_reason (shared g) = None -> n <= validation_idx (sched (shared g)).
Proof.
  intros Hn Hk Hr Hd Hreason. destruct (running_at_rest _ _ _ Hn Hk Hr Hd Hreason) as (Ha & _).
  destruct (decide (n <= validation_idx (sched (shared g)))); [done|].
  pose proof (w_val _ _ (reachable_Watch _ _ _ Hn Hk Hr) Ha Hreason ltac:(lia)) as Hs.
  rewrite all_done_sum in Hs by done. lia.
Qed.

Lemma someone_at_rest (n : nat) (g : MGlobal) (P : pc -> mpc -> Prop) :
  MInv n g -> all_done (base g) -> (P W_Done M_Idle -> False) -> someone (threads (base g)) (aux g) P -> False.
Proof.
  intros HM Hd HP (k & p & a & Hp & Ha & Hpa). destruct (mi_aux _ _ HM _ _ _ Hp Ha) as [Hok _].
  assert (p = W_Done) as -> by (by eapply Hd). destruct a; cbn in Hok; try done; first [by apply HP|by destruct Hok].
Qed.

Lemma reads_at_rest (n k : nat) (est : gmap LocationHash (list TxIdx)) (lz : list Address) (g : MGlobal) :
  (Z.of_nat n < 2 ^ 64)%Z -> 0 < k -> mreachable n k est lz g -> all_done (base g) ->
  abort_reason (shared (base g)) = None ->
  forall i locs x os, locations (mem g) !! i = Some locs -> rw_read locs !! x = Some os ->
  validate_location (mem g) i x os = true.
Proof.
  intros Hn Hk Hr Hd Hreason i locs x os Hl Hos.
  pose proof (mreachable_base _ _ _ _ _ Hr) as Hb. pose proof (reachable_Inv _ _ _ Hn Hb) as HI.
  pose proof (mreachable_MInv _ _ _ _ _ Hn Hr) as HM.
  assert (Hi : i < n) by (apply lookup_lt_Some in Hl; by rewrite (mi_len_loc _ _ HM) in Hl).
  destruct (running_at_rest _ _ _ Hn Hk Hb Hd Hreason) as (_ & He & _).
  pose proof (validation_idx_at_rest _ _ _ Hn Hk Hb Hd Hreason).
  destruct (mi_reads _ _ HM Hreason i locs x os) as [?|[?|Hs]]; try done; [|lia|].
  - by eapply all_executed_at_rest.
  - exfalso. by apply (someone_at_rest n g (covering i x os)).
Qed.

(** ** Driving the machine *)

(** Run a schedule in which the choices of a thread depend on where it is. *)
Fixpoint drive (pick : MGlobal -> nat -> MOracle) (sc : list nat) (g : MGlobal) : MGlobal :=
  match sc with
  | [] => g
  | i :: sc' => drive pick sc' (default g (mgstep g i (pick g i)))
  end.

Lemma drive_reachable (n k : nat) (est : gmap LocationHash (list TxIdx)) (lz : list Address)
    (pick : MGlobal -> nat -> MOracle) (sc : list nat) (g : MGlobal) :
  mreachable n k est lz g -> mreachable n k est lz (drive pick sc g).
Proof.
  revert g. induction sc as [|i sc IH]; intros g Hg; [done|]. cbn [drive]. apply IH.
  destruct (mgstep g i (pick g i)) eqn:E; [by eapply mreach_step|done].
Qed.

(** C5. When all threads have left their loops without an abort, then whatever the
    interleaving was, every location every transaction has read still has the
    origin it was read from: validating any transaction against the final memory
    succeeds. No stale read survives. *)
Theorem workers_reads_valid (n k : nat) (est : gmap LocationHash (list TxIdx)) (lz : list Address) (g : MGlobal)
    (Hn : (Z.of_nat n < 2 ^ 64)%Z) (Hk : 0 < k) (Hr : mreachable n k est lz g)
    (Hd : all_done (base g)) (Hreason : abort_reason (shared (base g)) = None) :
  forall i, i < n -> validate_read_locations i (mem g) = Return true.
Proof.
  intros i Hi. pose proof (mreachable_MInv _ _ _ _ _ Hn Hr) as HM.
  destruct (lookup_lt_is_Some_2 (locations (mem g)) i) as [locs Hl]; [by rewrite (mi_len_loc _ _ HM)|].
  unfold validate_read_locations. rewrite Hl. f_equal.
  apply forallb_forall. intros [x os] Hx. apply list_elem_of_In, elem_of_map_to_list in Hx.
  by eapply reads_at_rest.
Qed.

End Serial.

(** ** What an execution records *)

Section Execution.
Context `{Revm} `{!DatabaseRef} `{!Evm}.
Context (hash_deterministic : Location -> LocationHash).
Context (evm_env : EvmEnv) (txs : list TxEnv).

(** The result of an execution; there is none when the type of the transaction is
    unknown. *)
Definition vm_result (tx : TxEnv) (r : ExecutionResult) (st : EvmState) : option TxExecutionResult :=
  match tx_type_try_from (tx_type tx) with Ok ty => Some (from_raw ty r st) | Err _ => None end.

(** [Vm::execute] of transaction [t], reading from [views], calls [record] with the
    read set [rs] and the write set [ws], and then returns [res]. *)
Definition records (views : nat -> MvMemory) (t : TxIdx) (rs : ReadSet) (ws : WriteSet) (res : option TxExecutionResult) : Prop :=
  exists tx db db' r st, txs !! t = Some tx /\
    VmDB_new hash_deterministic (views 0%nat) (views 1%nat) t tx
      (hash_deterministic (Loc_Basic (caller tx)))
      ((fun a => hash_deterministic (Loc_Basic a)) <$> kind_to (kind tx)) = Return (Ok db) /\
    run_prog hash_deterministic (fun k => views (2 + k)%nat) 0 (evm_program false evm_env tx) db
      = Return (Ok (Ok (r, st), db')) /\
    rs = read_set db' /\
    apply_rewards hash_deterministic evm_env (write_state hash_deterministic evm_env db' st ∅).1 tx
      (result_gas_used r) = Ok ws /\
    res = vm_result tx r st.

(** What the memories [h] of a run let transaction [t] record and return. *)
Definition produced (h : list MvMemory) (t : TxIdx) (rs : ReadSet) (ws : WriteSet) (res : option TxExecutionResult) : Prop :=
  exists views, (forall k, views k ∈ h) /\ records views t rs ws res.

Definition executed : list MvMemory -> TxIdx -> ReadSet -> WriteSet -> Prop := some_result produced.

(** Reading from [m] alone; [m'] is what decided whether the transaction is lazy. *)
Definition reading (m m' : MvMemory) (k : nat) : MvMemory := if (k =? 1)%nat then m' else m.

Lemma write_account_fst (db : VmDB) (acc acc' : gmap LocationHash LocationValue * gmap Z Bytecode)
    (a : Address * Account) :
  acc.1 = acc'.1 ->
  (write_account hash_deterministic evm_env db acc a).1 = (write_account hash_deterministic evm_env db acc' a).1.
Proof.
  destruct acc as [ws bc], acc' as [ws' bc'], a as [ad ac]. cbn. intros ->. unfold write_account, write_code.
  repeat case_match; simplify_eq/=; done.
Qed.

(** The bytecodes known so far do not matter for the write set. *)
Lemma write_state_fst (db : VmDB) (st : EvmState) (bc bc' : gmap Z Bytecode) :
  (write_state hash_deterministic evm_env db st bc).1 = (write_state hash_deterministic evm_env db st bc').1.
Proof.
  unfold write_state. assert (Hacc : (∅ : gmap LocationHash LocationValue, bc).1 = (∅, bc').1) by done.
  revert Hacc. generalize (∅ : gmap LocationHash LocationValue, bc) (∅ : gmap LocationHash LocationValue, bc').
  induction (map_to_list st) as [|a l IH]; intros acc acc' Hacc; [done|]. cbn. apply IH. by apply write_account_fst.
Qed.

Context (no_collision : forall a x, plain_location hash_deterministic x ->
  hash_deterministic (Loc_Basic a) ≠ x).

(** [records] is what [execute] does: when it succeeds, it has recorded that and
    returns the result. *)
Lemma execute_records (views : nat -> MvMemory) (ver : TxVersion) (m m' : MvMemory) (res : VmExecutionResult) :
  execute hash_deterministic evm_env txs views ver m = Return (Ok res, m') ->
  exists rs ws m1 wrote, records views (tx_idx ver) rs ws (Some (execution_result res)) /\ data m1 = data m /\ locations m1 = locations m /\
    record ver rs ws m1 = Return (wrote, m').
Proof using no_collision.
  intros Hx. destruct (txs !! tx_idx ver) as [tx|] eqn:Htx; [|unfold execute in Hx; by rewrite Htx in Hx].
  destruct (execute_run hash_deterministic evm_env txs no_collision views ver m tx Htx)
    as [(e & He & _)|[(err & He)|(db & db' & r & st & Hnew & Hrun & Hdtx & He)]];
    rewrite He in Hx; [discriminate Hx|discriminate Hx|]. unfold commit in Hx.
  destruct (write_state _ _ db' st (new_bytecodes m)) as [ws0 bc] eqn:Hws.
  destruct (apply_rewards _ _ ws0 _ _) as [ws|e] eqn:Hrew; [|discriminate Hx].
  set (m2 := if is_lazy db' then _ else _) in Hx.
  destruct (record ver (read_set db') ws m2) as [[wrote m3]| |] eqn:Hrec; try discriminate Hx.
  destruct (tx_type_try_from _) as [ty|] eqn:Hty; [|discriminate Hx]. injection Hx as <- <-.
  exists (read_set db'), ws, m2, wrote. split; [|by unfold m2; destruct (is_lazy db')].
  exists tx, db, db', r, st. do 4 (split; [done|]). rewrite <- Hdtx in *. split.
  - by rewrite (write_state_fst db' st ∅ (new_bytecodes m)), Hws.
  - unfold vm_result. by rewrite Hty.
Qed.

(** Reads that match in [m] make the execution the same when it reads from [m] alone. *)
Lemma records_replay (views : nat -> MvMemory) (m : MvMemory) (t : TxIdx) (rs : ReadSet) (ws : WriteSet)
    (res : option TxExecutionResult) :
  (forall k, versions_agree (views k) m) -> (forall k, codes_agree (views k) m) -> records views t rs ws res ->
  (forall x os, rs !! x = Some os -> match_origins (below m t x) os = true) ->
  records (reading m (views 1%nat)) t rs ws res.
Proof using no_collision.
  intros Hv Hc (tx & db & db' & r & st & Htx & Hnew & Hrun & -> & Hrew & Hres) Hm.
  destruct (VmDB_new_ok _ _ _ _ _ _ Hnew) as (Hok & Ht & _).
  destruct (run_prog_grows _ no_collision _ _ _ _ _ _ Hok Hrun) as [He _].
  assert (Hmatch : reads_match m db') by (intros x os Hx; destruct He as [-> _]; rewrite Ht; by apply Hm).
  exists tx, db, db', r, st. split; [done|]. split; [by eapply VmDB_new_replay|].
  split; [|done]. change (fun k => reading m (views 1%nat) (2 + k)%nat) with (fun _ : nat => m).
  eapply (run_prog_replay _ no_collision (fun k => views (2 + k)%nat) m); eauto.
Qed.

(** ** One transaction after the other *)

(** Code is addressed by its hash, also in the chain's state. *)
Context (code_of : Z -> Bytecode) (db_codes : forall ch c, code_by_hash_ref ch = Ok c -> c = code_of ch).

Definition with_codes (codes : gmap Z Bytecode) (m : MvMemory) : MvMemory :=
  mkMvMemory (data m) (locations m) (lazy_addresses m) codes.

(** The transactions below the index have been executed in block order, each on the
    memory the ones before it have left, and recorded, with these results. The codes
    deployed in the block are known; what makes a transaction lazy is what made it in
    the run [h]. *)
Inductive serial (n : nat) (codes : gmap Z Bytecode) (h : list MvMemory) :
    nat -> MvMemory -> list (option TxExecutionResult) -> Prop :=
| serial_start : serial n codes h 0 (with_codes codes (MvMemory_new n ∅ [])) []
| serial_next t m m1 inc rs ws res wrote m' outs : serial n codes h t m outs -> m1 ∈ h ->
    records (reading m m1) t rs ws res -> record (mkTxVersion t inc) rs ws m = Return (wrote, m') ->
    serial n codes h (S t) m' (outs ++ [res]).

Lemma produced_mono (h : list MvMemory) (m : MvMemory) (t : TxIdx) (rs : ReadSet) (ws : WriteSet)
    (res : option TxExecutionResult) :
  produced h t rs ws res -> produced (m :: h) t rs ws res.
Proof using. intros (views & Hin & Hr). exists views. split; [|done]. intros k. by right. Qed.

Lemma executed_mono (h : list MvMemory) (m : MvMemory) (t : TxIdx) (rs : ReadSet) (ws : WriteSet) :
  executed h t rs ws -> executed (m :: h) t rs ws.
Proof using. intros [res Hr]. exists res. by apply produced_mono. Qed.

(** A memory with a part of the data of the current one agrees with the past. *)
Lemma run_versions_agree (log : gmap (nat * nat) (ReadSet * WriteSet)) (h : list MvMemory) (g : MGlobal) (m1 m : MvMemory) :
  EInv executed code_of log h g -> m1 ∈ h ->
  (forall x t i v, entry m x t = Some (Data i v) -> entry (mem g) x t = Some (Data i v)) -> versions_agree m1 m.
Proof using.
  intros E Hin Hsub x t i v v' He1 He2%Hsub.
  destruct (ei_data _ _ _ _ _ E _ _ _ _ _ Hin He1) as (rs & ws & Hl & Hv).
  destruct (ei_data _ _ _ _ _ E _ _ _ _ _ (ei_hist _ _ _ _ _ E) He2) as (rs' & ws' & Hl' & Hv'). congruence.
Qed.

Lemma run_codes_agree (log : gmap (nat * nat) (ReadSet * WriteSet)) (h : list MvMemory) (g : MGlobal) (m1 m : MvMemory) :
  EInv executed code_of log h g -> m1 ∈ h -> new_bytecodes m = new_bytecodes (mem g) -> codes_agree m1 m.
Proof using db_codes.
  intros E Hin Hm ch c Hc. unfold code_of_hash in *. rewrite Hm.
  destruct (new_bytecodes m1 !! ch) as [c1|] eqn:Hc1.
  - rewrite (ei_codes _ _ _ _ _ E _ _ _ Hin Hc1). done.
  - destruct (code_by_hash_ref ch) as [c2|e] eqn:Hdb; [|done]. cbn in Hc. injection Hc as ->.
    destruct (new_bytecodes (mem g) !! ch) as [c3|] eqn:Hc3; [|done].
    by rewrite (ei_code _ _ _ _ _ E _ _ Hc3), (db_codes _ _ Hdb).
Qed.

Section AtRest.
Context (n k : nat) (est : gmap LocationHash (list TxIdx)) (lz : list Address) (h : list MvMemory) (g : MGlobal).
Context (log : gmap (nat * nat) (ReadSet * WriteSet)).
Context (Hn : (Z.of_nat n < 2 ^ 64)%Z) (Hk : 0 < k) (Hr : runs executed code_of n k est lz h g).
Context (Hd : all_done (base g)) (Hreason : abort_reason (shared (base g)) = None).
Context (E : EInv executed code_of log h g).

(** What transaction [t] has left in the final memory, what it has read there, and
    the result it gave. *)
Definition final_record (t : TxIdx) (res : option TxExecutionResult) : Prop :=
  exists inc rs ws views, (forall j, views j ∈ h) /\ records views t rs ws res /\
    (forall x i v, entry (mem g) x t = Some (Data i v) <-> i = inc /\ ws !! x = Some v) /\
    (forall x os, rs !! x = Some os -> match_origins (below (mem g) t x) os = true).

Lemma final_status (t : TxIdx) :
  t < n -> exists x, tx_status (sched (shared (base g))) !! t = Some x /\ is_finished (status x) = true.
Proof using Hn Hk Hr Hd Hreason.
  intros Ht. pose proof (mreachable_base _ _ _ _ _ (runs_mreachable _ _ _ _ _ _ _ _ Hr)) as Hb.
  pose proof (reachable_Inv _ _ _ Hn Hb) as HI. destruct (running_at_rest _ _ _ Hn Hk Hb Hd Hreason) as (_ & He & _).
  by eapply all_executed_at_rest.
Qed.

(** What the log has of a finished transaction is final. *)
Lemma final_entry (t : TxIdx) (x : TxStatus) (rs : ReadSet) (ws : WriteSet) (res : option TxExecutionResult) :
  tx_status (sched (shared (base g))) !! t = Some x -> is_finished (status x) = true ->
  log !! (t, incarnation x) = Some (rs, ws) -> produced h t rs ws res -> final_record t res.
Proof using Hn Hk Hr Hd Hreason E.
  intros Hx Hf Hlog (views & Hin & Hrec). destruct (ei_done _ _ _ _ _ E _ _ Hx Hf) as (rs' & ws' & Hl & Hrs & Hent).
  unfold key in Hl. cbn in Hl, Hrs, Hent. assert (rs' = rs /\ ws' = ws) as [-> ->] by (split; congruence).
  exists (incarnation x), rs, ws, views. do 2 (split; [done|]). split.
  - intros y i v. rewrite Hent. pose proof (not_elem_of_nil y). tauto.
  - intros y os Hy. destruct (locations (mem g) !! t) as [locs|] eqn:Hl'; [|done]. cbn in Hrs. injection Hrs as <-.
    eapply validate_location_match, (reads_at_rest n k est lz); eauto. by eapply runs_mreachable.
Qed.

Lemma final_entries (t : TxIdx) : t < n -> exists res, final_record t res.
Proof using Hn Hk Hr Hd Hreason E.
  intros Ht. destruct (final_status t Ht) as (x & Hx & Hf).
  destruct (ei_done _ _ _ _ _ E _ _ Hx Hf) as (rs & ws & Hlog & _).
  destruct (ei_exec _ _ _ _ _ E _ _ _ _ Hlog) as [res Hres]. exists res. by eapply final_entry.
Qed.

(** Executing the transactions in order gives the data of the final memory, from the
    first one up, and results [out] knows. *)
Lemma serial_prefix (out : TxIdx -> option TxExecutionResult -> Prop) (t : TxIdx) :
  (forall u, u < n -> exists res, final_record u res /\ out u res) ->
  t <= n -> exists m outs, serial n (new_bytecodes (mem g)) h t m outs /\
    length outs = t /\ (forall u res, outs !! u = Some res -> out u res) /\ mv_wf m /\ length (locations m) = n /\
    new_bytecodes m = new_bytecodes (mem g) /\ (forall x u, entry m x u ≠ Some Estimate) /\
    (forall x u i v, entry m x u = Some (Data i v) <-> u < t /\ entry (mem g) x u = Some (Data i v)).
Proof using Hn Hk Hr Hd Hreason E no_collision db_codes.
  intros Hout. induction t as [|t IH]; intros Ht.
  { do 2 eexists. split; [apply serial_start|]. do 2 (split; [done|]). split; [|split; [apply length_replicate|split; [done|split; [done|]]]].
    - destruct (MvMemory_new_wf n ∅ []). by constructor.
    - intros. split; [done|lia]. }
  destruct IH as (m & outs & Hs & Hlo & Hos & Hwf & Hlen & Hcodes & Hest & Hent); [lia|].
  destruct (Hout t ltac:(lia)) as (res & (inc & rs & ws & views & Hin & Hrec & Hfin & Hmatch) & Hres).
  destruct (lookup_lt_is_Some_2 (locations m) t) as [locs Hl]; [lia|].
  destruct (record_run (mkTxVersion t inc) rs ws m locs Hl (wf_nodup m Hwf _ _ Hl))
    as (wrote & m' & write' & Hrun & Hlocs & _ & Hnb & _ & _ & Hent' & _).
  cbn [tx_idx tx_incarnation] in *.
  assert (Hnone : forall x, entry m x t = None).
  { intros x. destruct (entry m x t) as [[i v|]|] eqn:He; [|by apply Hest in He|done]. apply Hent in He. lia. }
  exists m', (outs ++ [res]).
  split; [|split; [|split; [|split; [by eapply record_wf|split; [by rewrite Hlocs, length_insert|split; [congruence|split]]]]]].
  - eapply serial_next; [done|apply (Hin 1)| |done]. eapply records_replay; [| |done|].
    + intros j. eapply run_versions_agree; [done|done|]. intros x u i v He. by apply Hent in He as [_ ?].
    + intros j. by eapply run_codes_agree.
    + intros x os Hx. eapply below_mono; [|by apply Hmatch]. intros u Hu.
      destruct (entry (mem g) x u) as [[i v|]|] eqn:He; [left|by right|left].
      * symmetry. by apply Hent.
      * destruct (entry m x u) as [[i v|]|] eqn:He'; [|by apply Hest in He'|done].
        apply Hent in He' as [_ ?]. congruence.
  - rewrite length_app, Hlo. cbn. lia.
  - intros u r Hu. apply lookup_app_Some in Hu as [Hu|[Hge Hu]]; [by apply Hos|].
    apply list_lookup_singleton_Some in Hu as [Hu <-]. assert (u = t) as -> by lia. done.
  - intros x u. rewrite Hent'. case_decide as Hu; [subst|by apply Hest].
    destruct (ws !! x); [done|]. rewrite Hnone. by case_decide.
  - intros x u i v. rewrite Hent'. case_decide as Hu.
    + subst u. rewrite Hfin, Hnone. destruct (ws !! x) as [w|].
      * split; [intros Heq; simplify_eq; split; [lia|done]|]. by intros (_ & -> & Hw); simplify_eq.
      * split; [by case_decide|by intros (_ & _ & ?)].
    + rewrite Hent. split; intros [? ?]; (split; [lia|done]).
Qed.

End AtRest.

(** ** A run that executes on the memory it finds *)

Definition record_of (m : MvMemory) (t : TxIdx) : option (ReadSet * WriteSet * option TxExecutionResult) :=
  match txs !! t with
  | Some tx =>
      match VmDB_new hash_deterministic m m t tx (hash_deterministic (Loc_Basic (caller tx)))
              ((fun a => hash_deterministic (Loc_Basic a)) <$> kind_to (kind tx)) with
      | Return (Ok db) =>
          match run_prog hash_deterministic (fun _ => m) 0 (evm_program false evm_env tx) db with
          | Return (Ok (Ok (r, st), db')) =>
              match apply_rewards hash_deterministic evm_env
                      (write_state hash_deterministic evm_env db' st ∅).1 tx (result_gas_used r) with
              | Ok ws => Some (read_set db', ws, vm_result tx r st)
              | Err _ => None
              end
          | _ => None
          end
      | _ => None
      end
  | None => None
  end.

Lemma record_of_produced (h : list MvMemory) (m : MvMemory) (t : TxIdx) (rs : ReadSet) (ws : WriteSet)
    (res : option TxExecutionResult) :
  m ∈ h -> record_of m t = Some (rs, ws, res) -> produced h t rs ws res.
Proof using.
  intros Hin Hrec. exists (fun _ => m). split; [done|]. unfold record_of in Hrec.
  destruct (txs !! t) as [tx|] eqn:Htx; [|done].
  destruct (VmDB_new _ m m t tx _ _) as [[db|]| |] eqn:Hnew; try done.
  destruct (run_prog _ _ 0 _ db) as [[[[[r st]|] db']|]| |] eqn:Hrun; try done.
  destruct (apply_rewards _ _ _ _ _) as [ws'|] eqn:Hrew; [|done]. injection Hrec as <- <- <-.
  exists tx, db, db', r, st. repeat (split; [done|]). done.
Qed.

(** A run with its history and its results. *)
Record RunState : Type := mkRunState {
  run_hist : list MvMemory;
  run_global : MGlobal;
  run_pending : list (option TxExecutionResult);
  run_slots : list (option TxExecutionResult);
}.

(** What thread [i] does next, executing on the current memory; a transaction that
    cannot be executed waits for the one before it. *)
Definition next_oracle (r : RunState) (i : nat) : MOracle * option TxExecutionResult :=
  let g := run_global r in
  let memory := O_Memory (match run_pending r !! i with Some None => true | _ => false end) in
  match threads (base g) !! i, aux g !! i with
  | Some (W_Execute v), Some M_Idle =>
      match record_of (mem g) (tx_idx v) with
      | Some (rs, ws, res) => (O_Record rs ws, res)
      | None => (O_Base (mkOracle (Vm_Blocking (tx_idx v - 1)) true), None)
      end
  | Some (W_Validate _ | W_Convert _), _ => (memory, None)
  | Some _, Some M_Idle => (O_Base (mkOracle Vm_Retry true), None)
  | _, _ => (memory, None)
  end.

Definition run_step (r : RunState) (i : nat) : RunState :=
  let '(o, res) := next_oracle r i in
  match mgstep (run_global r) i o with
  | Some g' => mkRunState (mem g' :: run_hist r) g' (keeps o i res (run_pending r))
                 (stores (run_global r) i (run_pending r) (run_slots r))
  | None => r
  end.

Definition run_init (n k : nat) (est : gmap LocationHash (list TxIdx)) (lz : list Address)
    (slots : list (option TxExecutionResult)) : RunState :=
  mkRunState [mem (MGlobal_init n k est lz)] (MGlobal_init n k est lz) (replicate k None) slots.

Definition run_from : list nat -> RunState -> RunState := fun sc r => foldl run_step r sc.

Lemma next_oracle_fails (r : RunState) (i : nat) :
  fails_without (run_global r) i (next_oracle r i).1 (run_pending r).
Proof using.
  unfold fails_without, next_oracle. destruct (aux (run_global r) !! i) as [a|] eqn:Ha; [|done].
  destruct a as [|v ws j|v [|w todo] wn|v todo|v todo]; try done. repeat case_match; simplify_eq/=; try done;
    naive_solver.
Qed.

Definition run_ok (n k : nat) (est : gmap LocationHash (list TxIdx)) (lz : list Address)
    (slots0 : list (option TxExecutionResult)) (r : RunState) : Prop :=
  mem (run_global r) ∈ run_hist r /\
  result_runs produced code_of n k est lz slots0 (run_hist r) (run_global r) (run_pending r) (run_slots r).

Lemma run_step_ok (n k : nat) (est : gmap LocationHash (list TxIdx)) (lz : list Address)
    (slots0 : list (option TxExecutionResult)) (r : RunState) (i : nat) :
  run_ok n k est lz slots0 r -> run_ok n k est lz slots0 (run_step r i).
Proof using.
  intros [Hin Hr]. unfold run_step. pose proof (next_oracle_fails r i) as Hfail.
  destruct (next_oracle r i) as [o res] eqn:Ho. destruct (mgstep (run_global r) i o) as [g'|] eqn:Hg; [|done].
  split; cbn; [by left|]. eapply result_runs_step; [done| |done|done].
  unfold lawful, next_oracle in *. repeat case_match; simplify_eq; try done.
  intros v' Hv'. simplify_eq. by eapply record_of_produced.
Qed.

Lemma run_from_runs (n k : nat) (est : gmap LocationHash (list TxIdx)) (lz : list Address)
    (slots0 : list (option TxExecutionResult)) (sc : list nat) :
  let r := run_from sc (run_init n k est lz slots0) in
  result_runs produced code_of n k est lz slots0 (run_hist r) (run_global r) (run_pending r) (run_slots r).
Proof using.
  assert (Hgen : forall r, run_ok n k est lz slots0 r -> run_ok n k est lz slots0 (run_from sc r)).
  { induction sc as [|i sc' IH]; intros r Hr; [done|]. by apply IH, run_step_ok. }
  apply Hgen. split; [by left|apply result_runs_init].
Qed.

(** ** Properties *)

(** C4. Parallel execution is serializable: when the threads are done without an
    abort, what the final memory holds of a transaction is what executing the
    transaction alone against the final memory writes. The executions themselves
    have read from memories that changed under them, and some were aborted; only
    the choice to treat a transaction as lazy is as it was made during the run. *)
Theorem workers_serializable (n k : nat) (est : gmap LocationHash (list TxIdx)) (lz : list Address)
    (h : list MvMemory) (g : MGlobal)
    (Hn : (Z.of_nat n < 2 ^ 64)%Z) (Hk : 0 < k) (Hlen : (Z.of_nat (length h) < 2 ^ 64)%Z)
    (Hr : runs executed code_of n k est lz h g)
    (Hd : all_done (base g)) (Hreason : abort_reason (shared (base g)) = None) :
  forall t, t < n -> exists m1 rs ws res inc, m1 ∈ h /\ records (reading (mem g) m1) t rs ws res /\
    forall x i v, entry (mem g) x t = Some (Data i v) <-> i = inc /\ ws !! x = Some v.
Proof using no_collision db_codes.
  intros t Ht. destruct (runs_EInv _ _ executed_mono _ _ _ _ _ _ Hn Hr Hlen Hreason) as [log E].
  destruct (final_entries n k est lz h g log Hn Hk Hr Hd Hreason E t Ht)
    as (res & inc & rs & ws & views & Hin & Hrec & Hfin & Hmatch).
  exists (views 1), rs, ws, res, inc. split; [apply Hin|]. split; [|done].
  eapply records_replay; [| |done|done].
  - intros j. by eapply run_versions_agree.
  - intros j. by eapply run_codes_agree.
Qed.

(** C3. Parallel execution is sequential execution: when the threads are done without
    an abort, there is an execution of the transactions in block order, one after
    the other on a memory without estimates, that leaves the same data of every
    transaction at every location. *)
Theorem workers_sequential (n k : nat) (est : gmap LocationHash (list TxIdx)) (lz : list Address)
    (h : list MvMemory) (g : MGlobal)
    (Hn : (Z.of_nat n < 2 ^ 64)%Z) (Hk : 0 < k) (Hlen : (Z.of_nat (length h) < 2 ^ 64)%Z)
    (Hr : runs executed code_of n k est lz h g)
    (Hd : all_done (base g)) (Hreason : abort_reason (shared (base g)) = None) :
  exists m outs, serial n (new_bytecodes (mem g)) h n m outs /\ (forall x t, entry m x t ≠ Some Estimate) /\
    forall x t i v, entry m x t = Some (Data i v) <-> entry (mem g) x t = Some (Data i v).
Proof using no_collision db_codes.
  destruct (runs_EInv _ _ executed_mono _ _ _ _ _ _ Hn Hr Hlen Hreason) as [log E].
  destruct (serial_prefix n k est lz h g log Hn Hk Hr Hd Hreason E (fun _ _ => True) n)
    as (m & outs & Hs & _ & _ & _ & _ & _ & Hest & Hent); [|lia|].
  { intros u Hu. destruct (final_entries n k est lz h g log Hn Hk Hr Hd Hreason E u Hu) as [res ?]. by exists res. }
  exists m, outs. do 2 (split; [done|]). intros x t i v. rewrite Hent. split; [by intros [_ ?]|]. intros He. split; [|done].
  pose proof (mreachable_MInv _ _ _ _ _ Hn (runs_mreachable _ _ _ _ _ _ _ _ Hr)) as HM.
  destruct (wf_data _ (mi_wf _ _ HM) _ _ _ _ He) as (locs & Hl & _).
  apply lookup_lt_Some in Hl. by rewrite (mi_len_loc _ _ HM) in Hl.
Qed.

End Execution.

(** ** Examples *)

Section Examples.
#[local] Existing Instance example_revm.
Local Open Scope Z_scope.

(** Transaction [t] reads location 0 and, all but the last, writes it; each thread
    goes on with whatever comes next. *)
Definition example_reads_of (g : MGlobal) (t : TxIdx) : ReadSet :=
  match below (mem g) t 0 with
  | (u, Data inc _) :: _ => {[ 0 := [Origin_MvMemory (mkTxVersion u inc)] ]}
  | _ => {[ 0 := [Origin_Storage] ]}
  end.

Definition example_pick (g : MGlobal) (i : nat) : MOracle :=
  match threads (base g) !! i, aux g !! i with
  | Some (W_Execute v), Some M_Idle =>
      O_Record (example_reads_of g (tx_idx v)) (if (tx_idx v =? 2)%nat then ∅ else {[ 0 := LV_Storage 7 ]})
  | Some (W_Validate _ | W_Convert _), _ => O_Memory false
  | Some _, Some M_Idle => O_Base (mkOracle (Vm_Ok NeedValidation) true)
  | _, _ => O_Memory false
  end.

(** Three transactions, two threads. The second thread takes the second transaction
    and finishes it before the first one has written: it has to be executed again. *)
Definition example_schedule : list nat := replicate 6 0%nat ++ replicate 30 1%nat ++ concat (replicate 120 [0%nat; 1%nat]).
Definition example_final : MGlobal :=
  drive example_pick example_schedule (MGlobal_init 3 2 ∅ []).

(** The aborted incarnation does not survive. *)
Lemma workers_reads_valid_witness :
  tx_status (sched (shared (base example_final))) !! 1%nat = Some (mkTxStatus 1 Validated) /\
  validate_read_locations 1 (mem example_final) = Return true.
Proof.
  split; [reflexivity|].
  apply (workers_reads_valid 3 2 ∅ [] example_final); [lia|lia| | |reflexivity|lia].
  - change example_final with (drive example_pick example_schedule (MGlobal_init 3 2 ∅ [])).
    apply drive_reachable, mreach_init.
  - assert (threads (base example_final) = [W_Done; W_Done]) as Ht by reflexivity.
    intros i p. rewrite Ht. clear Ht. intros Hp%list_elem_of_lookup_2.
    by apply elem_of_cons in Hp as [->|Hp%list_elem_of_singleton].
Defined.

(** A block of three transactions that increment a counter, slot 0 of account 1. *)
#[local] Existing Instance example_db.

Definition example_counter (v : Z) : Account := mkAccount (mkAccountInfo v 1 0 None) ∅ (false, true) tt.

#[local] Instance example_counter_evm : Evm := {|
  evm_program := fun _ _ tx => ReadStorage 1 0 (fun v => Ret (Ok (Success 21000 [], {[ 1 := example_counter v ]})));
  changed_storage_slots := fun account =>
    [(0, mkStorageSlot (ai_balance (info account)) (ai_balance (info account) + 1))];
  tx_type_try_from := fun t => Ok t;
|}.

Definition example_counter_txs : list TxEnv := replicate 3 example_tx.

(** Three threads; the second and the third transaction are executed before the
    first one, and again later. *)
Definition example_counter_schedule : list nat :=
  replicate 6 0%nat ++ replicate 20 1%nat ++ concat (replicate 120 [0%nat; 1%nat; 2%nat]).
Definition example_counter_run : RunState :=
  run_from encode_hash example_env example_counter_txs example_counter_schedule (run_init 3 3 ∅ [] (replicate 3 None)).

Lemma example_db_codes (ch : Z) (c : Bytecode) : code_by_hash_ref ch = Ok c -> c = 0.
Proof. cbn. congruence. Qed.

Lemma example_counter_done : all_done (base (run_global example_counter_run)).
Proof.
  assert (threads (base (run_global example_counter_run)) = replicate 3 W_Done) as Ht by (vm_compute; reflexivity).
  intros i p. rewrite Ht. by intros [-> _]%lookup_replicate.
Qed.

Lemma example_counter_runs :
  runs (executed encode_hash example_env example_counter_txs) (fun _ => 0) 3 3 ∅ []
    (run_hist example_counter_run) (run_global example_counter_run).
Proof. eapply result_runs_runs, run_from_runs. Qed.

Lemma workers_serializable_witness :
  tx_status (sched (shared (base (run_global example_counter_run)))) !! 2%nat = Some (mkTxStatus 2 Validated) /\
  exists m1 rs ws res, m1 ∈ (run_hist example_counter_run) /\
    records encode_hash example_env example_counter_txs (reading (mem (run_global example_counter_run)) m1) 2 rs ws res.
Proof.
  split; [vm_compute; reflexivity|].
  destruct (workers_serializable encode_hash example_env example_counter_txs encode_hash_no_collision (fun _ => 0)
    example_db_codes 3 3 ∅ [] (run_hist example_counter_run) (run_global example_counter_run)) with (t := 2%nat)
    as (m1 & rs & ws & res & inc & Hin & Hrec & _).
  - lia.
  - lia.
  - vm_compute. reflexivity.
  - exact example_counter_runs.
  - exact example_counter_done.
  - vm_compute. reflexivity.
  - lia.
  - exists m1, rs, ws, res. split; [exact Hin|exact Hrec].
Defined.

(** Whatever was aborted, the counter ends at 3. *)
Lemma workers_sequential_witness :
  exists m outs, serial encode_hash example_env example_counter_txs 3 (new_bytecodes (mem (run_global example_counter_run)))
    (run_hist example_counter_run) 3 m outs /\ entry m (encode_hash (Loc_Storage 1 0)) 2 = Some (Data 2 (LV_Storage 3)).
Proof.
  destruct (workers_sequential encode_hash example_env example_counter_txs encode_hash_no_collision (fun _ => 0)
    example_db_codes 3 3 ∅ [] (run_hist example_counter_run) (run_global example_counter_run)) as (m & outs & Hs & _ & He).
  - lia.
  - lia.
  - vm_compute. reflexivity.
  - exact example_counter_runs.
  - exact example_counter_done.
  - vm_compute. reflexivity.
  - exists m, outs. split; [exact Hs|]. apply He. vm_compute. reflexivity.
Defined.

End Examples.
