(* ===== verification/WorkersBlock.v ===== *)
(** * A block from end to end (executor.rs, [ParallelExecutor::execute])

    The worker threads of [WorkersSerial] with the results of [WorkersResults],
    followed by what [execute] does after they have joined ([Executor]): the block's
    results are those of executing its transactions in order, with running totals of
    the gas and the lazily updated accounts evaluated as [Evaluation] says. *)

From S2P Require Import Prelude Primitives Types Results MvMemory VmDb Vm Executor Evaluation Scheduler Workers WorkersInv WorkersSafety.
From S2P Require Import WorkersMem WorkersMemInv WorkersRun WorkersResults WorkersEst WorkersSerial.

Section Block.
Context `{Revm} `{!DatabaseRef} `{!Evm}.
Context (hash_deterministic : Location -> LocationHash) (cache_db : list EvmState -> DbView).
Context (evm_env : EvmEnv) (txs : list TxEnv).
Context (no_collision : forall a x, plain_location hash_deterministic x ->
  hash_deterministic (Loc_Basic a) ≠ x).
Context (code_of : Z -> Bytecode) (db_codes : forall ch c, code_by_hash_ref ch = Ok c -> c = code_of ch).

Local Abbreviation basic_hash a := (hash_deterministic (Loc_Basic a)).

(** ** What is written to accounts *)

(** Only balances are written to the location of an account. *)
Definition accounts_hold_balances (ws : gmap LocationHash LocationValue) : Prop :=
  forall a v, ws !! basic_hash a = Some v -> balance_value v.

Lemma balances_insert (ws : gmap LocationHash LocationValue) (x : LocationHash) (v : LocationValue) :
  accounts_hold_balances ws -> balance_value v -> accounts_hold_balances (<[x := v]> ws).
Proof. intros Hws Hv a w [[_ <-]|[_ Hw]]%lookup_insert_Some; [done|by eapply Hws]. Qed.

Lemma balances_plain (ws : gmap LocationHash LocationValue) (x : LocationHash) (v : LocationValue) :
  accounts_hold_balances ws -> plain_location hash_deterministic x -> accounts_hold_balances (<[x := v]> ws).
Proof using no_collision.
  intros Hws Hx a w [[Heq _]|[_ Hw]]%lookup_insert_Some; [|by eapply Hws]. by destruct (no_collision a x Hx).
Qed.

Lemma write_account_balances (db : VmDB) (acc : gmap LocationHash LocationValue * gmap Z Bytecode) (a : Address * Account) :
  accounts_hold_balances acc.1 -> accounts_hold_balances (write_account hash_deterministic evm_env db acc a).1.
Proof using no_collision.
  destruct acc as [ws bc], a as [address account]. cbn [fst]. intros Hws. unfold write_account.
  assert (Hcode : plain_location hash_deterministic (hash_deterministic (Loc_CodeHash address))) by (left; by eexists).
  destruct (is_selfdestructed account); [by apply balances_plain|].
  assert (Hinfo : accounts_hold_balances (write_info hash_deterministic evm_env db address account ws)).
  { unfold write_info. repeat case_match; try done; by apply balances_insert. }
  destruct (if is_touched account then _ else _) as [ws1 bc1] eqn:Hw1. cbn [fst].
  assert (Hws1 : accounts_hold_balances ws1).
  { destruct (is_touched account); simplify_eq; [|done]. unfold write_code in Hw1.
    destruct (negb _ && _); simplify_eq; [by apply balances_plain|done]. }
  clear Hw1. revert ws1 Hws1. induction (changed_storage_slots account) as [|s l IH]; intros ws1 Hws1; [done|].
  cbn [foldl]. apply IH. apply balances_plain; [done|]. right. by do 2 eexists.
Qed.

Lemma records_balances (views : nat -> MvMemory) (t : TxIdx) (rs : ReadSet) (ws : WriteSet) (res : option TxExecutionResult) :
  records hash_deterministic evm_env txs views t rs ws res ->
  accounts_hold_balances ws /\ is_Some (ws !! basic_hash (beneficiary evm_env)).
Proof using no_collision.
  intros (tx & db & db' & r & st & _ & _ & _ & _ & Hrew & _).
  destruct (apply_rewards_Ok _ _ _ _ _ _ Hrew) as [(v & Hv & Hbal) Hother]. split; [|by exists v].
  intros a w Hw. destruct (decide (basic_hash a = beneficiary_location_hash hash_deterministic evm_env)) as [Heq|Hne].
  - rewrite Heq, Hv in Hw. by simplify_eq.
  - rewrite Hother in Hw by done. revert a w Hne Hw. unfold write_state.
    assert (Hacc : accounts_hold_balances (∅ : gmap LocationHash LocationValue, ∅ : gmap Z Bytecode).1) by (intros a w Hw; done).
    revert Hacc. generalize (∅ : gmap LocationHash LocationValue, ∅ : gmap Z Bytecode) as acc.
    induction (map_to_list st) as [|e l IH]; intros acc Hacc a w Hne Hw; [by eapply Hacc|].
    cbn [foldl] in Hw. eapply IH; [|done|done]. by apply write_account_balances.
Qed.

(** ** The block *)

(** The estimates of [build_mv_memory]: the beneficiary's account, by everybody. *)
Definition block_estimates : gmap LocationHash (list TxIdx) :=
  {[ basic_hash (beneficiary evm_env) := seq 0 (length txs) ]}.

(** The worker threads of [execute] on a fresh memory, with the slots as they are. *)
Definition block_runs (k : nat) (slots0 : list (option TxExecutionResult)) : list MvMemory -> MGlobal ->
    list (option TxExecutionResult) -> list (option TxExecutionResult) -> Prop :=
  result_runs (produced hash_deterministic evm_env txs) code_of (length txs) k block_estimates [beneficiary evm_env] slots0.

Lemma block_runs_start (k : nat) :
  mem (MGlobal_init (length txs) k block_estimates [beneficiary evm_env]) =
  build_mv_memory hash_deterministic (beneficiary evm_env) (length txs).
Proof. done. Qed.

Section Done.
Context (k : nat) (slots0 : list (option TxExecutionResult)) (h : list MvMemory) (g : MGlobal).
Context (pending slots : list (option TxExecutionResult)).
Context (Hn : (Z.of_nat (length txs) < 2 ^ 64)%Z) (Hk : 0 < k) (Hlen : (Z.of_nat (length h) < 2 ^ 64)%Z).
Context (Hslots : length txs <= length slots0) (Hr : block_runs k slots0 h g pending slots).
Context (Hd : all_done (base g)) (Hreason : abort_reason (shared (base g)) = None).

(** Every slot has the result of the execution that is in the final memory. *)
Lemma block_slot (t : TxIdx) :
  t < length txs -> exists r, slots !! t = Some (Some r) /\
    final_record hash_deterministic evm_env txs h g t (Some r).
Proof using Hn Hk Hlen Hslots Hr Hd Hreason.
  intros Ht. pose proof (result_runs_runs _ _ _ _ _ _ _ _ _ _ _ Hr) as Hrun.
  destruct (result_runs_inv _ _ (produced_mono hash_deterministic evm_env txs) _ _ _ _ _ _ _ _ _ Hn Hslots Hr Hlen Hreason)
    as (log & E & B).
  destruct (final_status hash_deterministic evm_env txs code_of _ _ _ _ _ _ Hn Hk Hrun Hd Hreason t Ht) as (x & Hx & Hf).
  destruct (ri_done _ _ _ _ _ _ _ B _ _ Hx Hf) as (rs & ws & r & Hl & Hs & Hp). exists r. split; [done|].
  eapply (final_entry hash_deterministic evm_env txs code_of _ _ _ _ _ _ log Hn Hk Hrun Hd Hreason E t x); done.
Qed.

(** No estimate is left. *)
Lemma block_no_estimate (x : LocationHash) (t : TxIdx) : entry (mem g) x t ≠ Some Estimate.
Proof using no_collision Hn Hk Hlen Hslots Hr Hd Hreason.
  intros He. pose proof (result_runs_runs _ _ _ _ _ _ _ _ _ _ _ Hr) as Hrun.
  pose proof (runs_mreachable _ _ _ _ _ _ _ _ Hrun) as Hm.
  pose proof (reachable_Inv _ _ _ Hn (mreachable_base _ _ _ _ _ Hm)) as HI.
  destruct (runs_WInv _ _ (executed_mono hash_deterministic evm_env txs) _ _ _ _ _ _ Hn Hrun Hlen Hreason) as (log & E & W).
  destruct (estimate_left _ _ _ _ _ _ _ x t HI (mreachable_MInv _ _ _ _ _ Hn Hm) E W) as (idxs & Hx & Ht); [|done|].
  { intros u Hu. exact (final_status hash_deterministic evm_env txs code_of _ _ _ _ _ _ Hn Hk Hrun Hd Hreason u Hu). }
  unfold block_estimates in Hx. apply lookup_singleton_Some in Hx as [<- <-]. apply elem_of_seq in Ht.
  destruct (block_slot t ltac:(lia)) as (r & _ & inc & rs & ws & views & _ & Hrec & Hfin & _).
  destruct (records_balances _ _ _ _ _ Hrec) as [_ [v Hv]].
  assert (Hdata : entry (mem g) (basic_hash (beneficiary evm_env)) t = Some (Data inc v)) by (by apply Hfin). congruence.
Qed.

(** Accounts have entries of this block only, absolute or lazy. *)
Lemma block_expected (a : Address) : expected hash_deterministic txs (mem g) a.
Proof using no_collision Hn Hk Hlen Hslots Hr Hd Hreason.
  intros t e He. destruct e as [inc v|]; [|by destruct (block_no_estimate _ _ He)].
  pose proof (runs_mreachable _ _ _ _ _ _ _ _ (result_runs_runs _ _ _ _ _ _ _ _ _ _ _ Hr)) as Hm.
  pose proof (mreachable_MInv _ _ _ _ _ Hn Hm) as HM.
  assert (Ht : t < length txs).
  { destruct (wf_data _ (mi_wf _ _ HM) _ _ _ _ He) as (locs & Hl & _). apply lookup_lt_Some in Hl.
    by rewrite (mi_len_loc _ _ HM) in Hl. }
  split; [done|]. destruct (block_slot t Ht) as (r & _ & inc' & rs & ws & views & _ & Hrec & Hfin & _).
  apply Hfin in He as He'. destruct He' as [_ Hv]. exists inc, v. split; [done|].
  exact (proj1 (records_balances _ _ _ _ _ Hrec) _ _ Hv).
Qed.

(** The execution in block order that gives the slots and the memory. *)
Lemma block_serial :
  exists m raw,
    serial hash_deterministic evm_env txs (length txs) (new_bytecodes (mem g)) h (length txs) m (Some <$> raw) /\
    (forall x t, entry m x t = entry (mem g) x t) /\
    take_results slots (length txs) = Return raw /\
    (forall ch c, new_bytecodes (mem g) !! ch = Some c -> c = code_of ch).
Proof using no_collision db_codes Hn Hk Hlen Hslots Hr Hd Hreason.
  pose proof (result_runs_runs _ _ _ _ _ _ _ _ _ _ _ Hr) as Hrun.
  destruct (runs_EInv _ _ (executed_mono hash_deterministic evm_env txs) _ _ _ _ _ _ Hn Hrun Hlen Hreason) as [log E].
  destruct (take_results_all slots (length txs)) as (raw & Htake & Hraw & Hlook).
  { intros i Hi. destruct (block_slot i Hi) as (r & Hs & _). by exists r. }
  destruct (serial_prefix hash_deterministic evm_env txs no_collision code_of db_codes _ _ _ _ _ _ _ Hn Hk Hrun Hd Hreason E
    (fun u res => slots !! u = Some res) (length txs)) as (m & outs & Hs & Hlo & Hos & _ & _ & _ & Hestm & Hent); [|done|].
  { intros u Hu. destruct (block_slot u Hu) as (r & Hsl & Hf). by exists (Some r). }
  exists m, raw. split; [|split; [|split; [done|exact (ei_code _ _ _ _ _ E)]]].
  - assert (outs = Some <$> raw) as <-; [|done]. apply list_eq_same_length with (length txs).
    + by rewrite length_fmap, Hraw.
    + done.
    + intros i x y Hi Hx Hy. apply list_lookup_fmap_Some in Hy as (r & -> & Hy).
      apply Hos in Hx. rewrite Hlook, Hy in Hx by lia. congruence.
  - intros x t. destruct (entry m x t) as [[i v|]|] eqn:He; [|by apply Hestm in He|].
    + apply Hent in He as [_ He]. done.
    + destruct (entry (mem g) x t) as [[i v|]|] eqn:He'; [|by apply block_no_estimate in He'|done]. exfalso.
      pose proof (mreachable_MInv _ _ _ _ _ Hn (runs_mreachable _ _ _ _ _ _ _ _ Hrun)) as HM.
      destruct (wf_data _ (mi_wf _ _ HM) _ _ _ _ He') as (locs & Hl & _). apply lookup_lt_Some in Hl.
      rewrite (mi_len_loc _ _ HM) in Hl. rewrite (proj2 (Hent x t i v)) in He by done. done.
Qed.

End Done.

(** C2. A block executed in parallel, from end to end. Let the worker threads run on
    the memory [build_mv_memory] makes, in any interleaving, with result slots that
    may be left from an earlier block, until they are done without an abort. Then
    there are results [raw], those of executing the transactions in block order one
    after the other, and the memory has the data of these executions and no estimate.
    What [execute] goes on to return is one of three things. Either it returns [raw] with
    the gas of each receipt replaced by the total so far, and in the state of each
    transaction every lazily updated account that it changed as [account_before] says it
    is after it, all else being as in [raw]; then every lazy sender could pay and every
    caller had the nonce of its transaction. Or it returns an error, for a lazily updated
    account whose code cannot be read, whose lazy sender cannot pay or whose nonce is
    not that of a caller. Or it panics, at the debug assertion that no lazily updated
    account was written with neither balance nor nonce. It makes no access out of range. *)
Theorem parallel_block (k : nat) (slots0 : list (option TxExecutionResult)) (h : list MvMemory) (g : MGlobal)
    (pending slots : list (option TxExecutionResult))
    (Hfees : forall t tx, txs !! t = Some tx ->
       (0 <= gas_limit tx * gas_price tx /\ 0 <= value tx /\ 0 <= total_blob_gas tx * max_fee_per_blob_gas tx)%Z)
    (Hn : (Z.of_nat (length txs) < 2 ^ 64)%Z) (Hk : 0 < k) (Hlen : (Z.of_nat (length h) < 2 ^ 64)%Z)
    (Hslots : length txs <= length slots0) (Hr : block_runs k slots0 h g pending slots)
    (Hd : all_done (base g)) (Hreason : abort_reason (shared (base g)) = None) :
  exists m raw,
    serial hash_deterministic evm_env txs (length txs) (new_bytecodes (mem g)) h (length txs) m (Some <$> raw) /\
    (forall x t, entry m x t = entry (mem g) x t) /\ (forall x t, entry m x t ≠ Some Estimate) /\
    match finish_block hash_deterministic cache_db evm_env txs None slots (mem g) with
    | Return (Ok rs) =>
        block_results hash_deterministic evm_env (mem g) raw rs /\
        forall a t, a ∈ consume_lazy_addresses (mem g) ->
          goes_through hash_deterministic txs (mem g) a t /\ ~ written_empty hash_deterministic (mem g) a t
    | Return (Err _) => exists a, a ∈ consume_lazy_addresses (mem g) /\
        (unreadable a \/ exists t, ~ goes_through hash_deterministic txs (mem g) a t)
    | Panic => exists a t, a ∈ consume_lazy_addresses (mem g) /\ written_empty hash_deterministic (mem g) a t
    | UB => False
    end.
Proof using no_collision db_codes.
  destruct (block_serial k slots0 h g pending slots Hn Hk Hlen Hslots Hr Hd Hreason) as (m & raw & Hs & Hent & Htake & _).
  exists m, raw. split; [done|]. split; [done|]. split; [intros x t; rewrite Hent; by eapply block_no_estimate|].
  apply (finish_block_spec hash_deterministic cache_db evm_env txs Hfees slots (mem g) raw Htake).
  intros a _. by eapply block_expected.
Qed.

End Block.

(** ** Examples *)

Section Examples.
#[local] Existing Instance example_revm.
#[local] Existing Instance example_db.
#[local] Existing Instance example_counter_evm.
Local Open Scope Z_scope.

(** The block of [example_counter_txs] with the beneficiary's estimates; its slots
    are left from another block. *)
Definition example_block_run : RunState :=
  run_from encode_hash example_env example_counter_txs example_counter_schedule
    (run_init 3 3 (block_estimates encode_hash example_env example_counter_txs) [100] (replicate 4 (Some (example_result 5)))).

Definition gas_of (r : Step (list TxExecutionResult)) : list Z :=
  match r with Return (Ok rs) => (fun x => cumulative_gas_used (receipt x)) <$> rs | _ => [] end.

(** The third transaction was executed three times; the block has the results of
    executing the three in order. *)
Lemma parallel_block_witness :
  tx_status (sched (shared (base (run_global example_block_run)))) !! 2%nat = Some (mkTxStatus 2 Validated) /\
  exists raw rs,
    finish_block encode_hash example_cache example_env example_counter_txs None (run_slots example_block_run)
      (mem (run_global example_block_run)) = Return (Ok rs) /\
    block_results encode_hash example_env (mem (run_global example_block_run)) raw rs /\
    (fun x => cumulative_gas_used (receipt x)) <$> rs = [21000; 42000; 63000].
Proof.
  split; [vm_compute; reflexivity|].
  assert (Hg : gas_of (finish_block encode_hash example_cache example_env example_counter_txs None (run_slots example_block_run)
      (mem (run_global example_block_run))) = [21000; 42000; 63000]) by (vm_compute; reflexivity).
  destruct (parallel_block encode_hash example_cache example_env example_counter_txs encode_hash_no_collision (fun _ => 0)
    example_db_codes 3 (replicate 4 (Some (example_result 5))) (run_hist example_block_run) (run_global example_block_run)
    (run_pending example_block_run) (run_slots example_block_run)) as (m & raw & _ & _ & _ & Hfin).
  - intros t tx Ht. do 3 (destruct t as [|t]; [injection Ht as <-; vm_compute; repeat split; discriminate|]). discriminate Ht.
  - vm_compute. reflexivity.
  - lia.
  - vm_compute. reflexivity.
  - cbn. lia.
  - apply (run_from_runs encode_hash example_env example_counter_txs (fun _ => 0) 3 3).
  - assert (threads (base (run_global example_block_run)) = replicate 3 W_Done) as Ht by (vm_compute; reflexivity).
    intros i p. rewrite Ht. by intros [-> _]%lookup_replicate.
  - vm_compute. reflexivity.
  - destruct (finish_block _ _ _ _ _ _ _) as [[rs|e]| |]; [|discriminate Hg..].
    exists raw, rs. split; [reflexivity|]. split; [exact (proj1 Hfin)|exact Hg].
Defined.

End Examples.
