(* ===== verification/OpWorkers.v ===== *)
(** * The Optimism executor's threads (crates/pe/src/op_executor.rs)

    [OpParallelExecutor] runs the same worker loop as [ParallelExecutor], on [OpVm].
    The machine is that of [Workers]; an execution answers what [op_execute] answers, and
    if that is a panic the thread is gone. Since no execution succeeds ([OpVm]), no block
    ends with results of the threads. *)

From S2P Require Import Prelude Primitives Types Results MvMemory VmDb Vm Executor OpVm Scheduler Workers WorkersInv WorkersSafety.
From S2P Require Import WorkersMem WorkersMemInv WorkersRun WorkersResults.

Section OpWorkers.
Context `{Revm} `{!DatabaseRef} `{!Evm} `{!OpEvm}.
Context (hash_deterministic : Location -> LocationHash).
Context (L1_FEE_RECIPIENT BASE_FEE_RECIPIENT : Address).
Context (evm_env : EvmEnv) (txs : list TxEnv).

(** ** The threads *)

(** What [try_execute] makes of the answer of [OpVm::execute]; a panic ends the thread,
    and with it [execute]. *)
Definition op_vm_outcome (r : outcome (result VmExecutionResult VmExecutionError * MvMemory)) : option VmOutcome :=
  match r with
  | Return (Err VE_Retry, _) => Some Vm_Retry
  | Return (Err VE_FallbackToSequential, _) => Some Vm_Fallback
  | Return (Err (VE_Blocking b), _) => Some (Vm_Blocking b)
  | Return (Err (VE_ExecutionError _), _) => Some Vm_ExecutionError
  | Return (Ok res, _) => Some (Vm_Ok (flags res))
  | Panic | UB => None
  end.

Definition op_try_execute : Oracle -> Shared -> pc -> sres := step_try_execute.
Definition op_try_validate : Oracle -> (TxIdx -> bool) -> Shared -> pc -> sres := step_try_validate.
Definition op_worker : Oracle -> (TxIdx -> bool) -> Shared -> pc -> sres := tstep.
Definition op_reserve_slots : nat -> list (option TxExecutionResult) -> list (option TxExecutionResult) := reserve_slots.

(** The worker threads, with the set of those that have panicked: an execution sees some
    memories of the run and answers what [OpVm::execute] answers, or panics, which ends
    the thread. A thread holds no lock while it executes. *)
Inductive op_reachable (k : nat) : Global -> gset nat -> Prop :=
| op_init : op_reachable k (Global_init (length txs) k) ∅
| op_step g dead i o g' : op_reachable k g dead -> i ∉ dead ->
    (forall v, threads g !! i = Some (W_Execute v) -> exists views m,
       op_vm_outcome (op_execute hash_deterministic L1_FEE_RECIPIENT BASE_FEE_RECIPIENT evm_env txs views v m) = Some (vm_execute o)) ->
    gstep g i o = Some g' -> op_reachable k g' dead
| op_panic g dead i v views m : op_reachable k g dead -> i ∉ dead -> threads g !! i = Some (W_Execute v) ->
    op_execute hash_deterministic L1_FEE_RECIPIENT BASE_FEE_RECIPIENT evm_env txs views v m = Panic ->
    op_reachable k g ({[ i ]} ∪ dead).

(** Every thread has left its loop or panicked. *)
Definition op_ended (g : Global) (dead : gset nat) : Prop :=
  forall i p, threads g !! i = Some p -> i ∈ dead \/ p = W_Done.

(** [execute]: an empty block has no results. *)
Definition op_execute_block (cache_db : list EvmState -> DbView)
    (workers : option AbortReason * list (option TxExecutionResult) * MvMemory) : Step (list TxExecutionResult) :=
  match txs with
  | [] => Return (Ok [])
  | _ => let '(abort_reason, slots, m) := workers in op_finish_block hash_deterministic evm_env txs cache_db abort_reason slots m
  end.

(** [thread::scope] panics when one of its threads has. *)
Definition op_joined (cache_db : list EvmState -> DbView) (dead : gset nat)
    (workers : option AbortReason * list (option TxExecutionResult) * MvMemory) : Step (list TxExecutionResult) :=
  if decide (dead = ∅) then op_execute_block cache_db workers else Panic.

(** The recorded reason, with its error. *)
Definition reason_of (r : AbortReason) : Reason :=
  match r with AR_FallbackToSequential => FallbackToSequential | AR_ExecutionError _ => ExecutionError end.

(** ** No results *)

Lemma op_reachable_reachable (k : nat) (g : Global) (dead : gset nat) : op_reachable k g dead -> reachable (length txs) k g.
Proof. induction 1 as [|g dead i o g' _ IH _ _ Hst|]; [constructor| |done]. by eapply reach_step. Qed.

(** Only [TE_Store] fills a slot. *)
Lemma results_step (o : Oracle) (free : TxIdx -> bool) (g g' : Shared) (p p' : pc) :
  tstep o free g p = Next g' p' -> (forall v f, p ≠ TE_Store v f) -> results g' = results g.
Proof. intros Ht Hp. step_cases Ht; try done; exfalso; by eapply Hp. Qed.

Context (no_bytes : forall tx, enveloped_tx tx = None).
Context (no_deposit_type : is_ok (tx_type_try_from DEPOSIT_TRANSACTION_TYPE) = false).

(** An execution that the EVM brings to its end panics unless it is a deposit's. *)
Lemma op_execute_panics (views : nat -> MvMemory) (ver : TxVersion) (m : MvMemory) (tx : TxEnv) (db db' : VmDB)
    (r : ExecutionResult) (st : EvmState)
    (no_collision : forall a x, plain_location hash_deterministic x -> hash_deterministic (Loc_Basic a) ≠ x) :
  txs !! tx_idx ver = Some tx ->
  OpVmDB_new hash_deterministic (views 0) (views 1) (tx_idx ver) tx (hash_deterministic (Loc_Basic (caller tx)))
    ((fun a => hash_deterministic (Loc_Basic a)) <$> kind_to (kind tx)) = Return (Ok db) ->
  run_prog hash_deterministic (fun k => views (2 + k)) 0 (op_evm_program false tx) db = Return (Ok (Ok (r, st), db')) ->
  tx_type tx ≠ DEPOSIT_TRANSACTION_TYPE ->
  op_execute hash_deterministic L1_FEE_RECIPIENT BASE_FEE_RECIPIENT evm_env txs views ver m = Panic.
Proof using no_bytes.
  intros Htx Hnew Hrun Hty. unfold op_execute. rewrite Htx, Hnew, Hrun. unfold op_commit.
  destruct (VmDB_new_ok _ _ _ _ _ _ Hnew) as (Hok & _ & Hdb).
  destruct (run_prog_grows _ no_collision _ _ _ _ _ _ Hok Hrun) as [(_ & Htx' & _) _].
  destruct (op_write_state _ _ _ _ _) as [ws bc]. unfold op_apply_rewards, op_rewards.
  destruct (op_reward_policy _ _ _) as [l1 vault]. by rewrite Htx', Hdb, (proj2 (Z.eqb_neq _ _)), no_bytes.
Qed.

Lemma op_results_empty (k : nat) (g : Global) (dead : gset nat) :
  op_reachable k g dead -> results (shared g) = replicate (length txs) false /\
    forall i v f, threads g !! i ≠ Some (TE_Store v f).
Proof using no_bytes no_deposit_type.
  induction 1 as [|g dead i o g' Hr [IHres IHst] _ Ho Hst|]; [| |done].
  - split; [done|]. intros i v f Hi. by apply lookup_replicate in Hi as [? _].
  - apply gstep_inv in Hst as (p & sh & p' & Hp & Ht & ->). cbn. split.
    + rewrite <- IHres. eapply results_step; [exact Ht|]. intros v f ->. by eapply IHst.
    + intros j v f Hj. apply lookup_insert_cases in Hj as [(-> & Heq & _)|[_ Hj]]; [|by eapply IHst].
      subst p'. apply store_step in Ht as [-> Hok]. destruct (Ho v Hp) as (views & m & Hx). rewrite Hok in Hx.
      destruct (op_execute _ _ _ _ _ views v m) as [[[r|e] m']| |] eqn:He; [|by destruct e|done..].
      by eapply op_execute_never_succeeds in He.
Qed.

(** C34. On Optimism no block that is not empty ends with results of the worker threads.
    [OpTransaction::new] carries no enveloped bytes and [TxType] has no code for deposits,
    so that an execution which the EVM brings to its end panics ([op_execute_panics]) or,
    for a deposit, fails. In whatever way the threads interleave, and whichever of them
    panic, once each has left its loop or panicked no result slot has been filled, and
    either a thread has panicked, and [execute] with it, or there is an abort reason, and
    [execute] returns an execution error or what the sequential fallback returns. *)
Theorem op_block_aborts (cache_db : list EvmState -> DbView) (k : nat) (g : Global) (dead : gset nat)
    (reason : option AbortReason) (slots : list (option TxExecutionResult)) (m : MvMemory)
    (Hn : (Z.of_nat (length txs) < 2 ^ 64)%Z) (Hk : 0 < k)
    (Hne : txs ≠ []) (Hr : op_reachable k g dead) (Hd : op_ended g dead)
    (Hreason : reason_of <$> reason = abort_reason (shared g)) :
  results (shared g) = replicate (length txs) false /\
  ((dead ≠ ∅ /\ op_joined cache_db dead (reason, slots, m) = Panic) \/
   (exists err, reason = Some (AR_ExecutionError err) /\
      op_joined cache_db dead (reason, slots, m) = Return (Err (PE_ExecutionError err))) \/
   (reason = Some AR_FallbackToSequential /\
      op_joined cache_db dead (reason, slots, m) = Return (op_execute_sequential cache_db evm_env txs))).
Proof using no_bytes no_deposit_type.
  destruct (op_results_empty k g dead Hr) as [Hres _]. split; [done|]. unfold op_joined.
  destruct (decide (dead = ∅)) as [->|Hdead]; [right|by left].
  assert (Hdone : all_done g) by (intros i p Hp; by destruct (Hd i p Hp)).
  destruct reason as [[|err]|]; [right|left; exists err|exfalso].
  - split; [done|]. unfold op_execute_block. destruct txs eqn:Htxs; [done|]. by rewrite <- Htxs.
  - split; [done|]. unfold op_execute_block. by destruct txs.
  - cbn in Hreason. symmetry in Hreason.
    pose proof (op_reachable_reachable _ _ _ Hr) as Hrr. pose proof (reachable_Inv _ _ _ Hn Hrr) as HI.
    destruct (running_at_rest _ _ _ Hn Hk Hrr Hdone Hreason) as (_ & He & _).
    rewrite (results_at_rest _ _ HI (all_executed_at_rest _ _ HI Hdone He Hreason)) in Hres.
    destruct txs as [|tx l]; [done|]. cbn in Hres. done.
Qed.

End OpWorkers.

(** ** Examples *)

Section Examples.
#[local] Existing Instance example_revm.
#[local] Existing Instance example_db.
#[local] Existing Instance typed_evm.
#[local] Existing Instance bare_op_evm.

(** A block of two deposits on two threads: the first to be executed ends it. *)
Definition deposits : list TxEnv := [deposit_tx; deposit_tx].
Definition op_example_run : Global :=
  run_schedule (Global_init 2 2) (concat (replicate 20 [(0, mkOracle Vm_ExecutionError true); (1, mkOracle Vm_ExecutionError true)])).

Lemma deposits_fail (v : TxVersion) :
  tx_idx v < 2 -> op_vm_outcome (op_execute encode_hash 200 300 example_env deposits (fun _ => example_empty_mem) v
    example_empty_mem) = Some Vm_ExecutionError.
Proof. destruct v as [[|[|t]] inc]; cbn [tx_idx]; intros Ht; [vm_compute; reflexivity..|lia]. Qed.

Lemma deposits_reachable (sc : list (nat * Oracle)) (g : Global) :
  Forall (fun x => vm_execute x.2 = Vm_ExecutionError) sc ->
  op_reachable encode_hash 200 300 example_env deposits 2 g ∅ ->
  op_reachable encode_hash 200 300 example_env deposits 2 (run_schedule g sc) ∅.
Proof.
  intros Hall. revert g. induction Hall as [|[i o] sc Ho _ IH]; intros g Hg; [done|]. cbn [run_schedule]. apply IH.
  destruct (gstep g i o) as [g'|] eqn:Hst; [|done]. cbn. eapply op_step; [exact Hg|apply not_elem_of_empty| |exact Hst]. intros v Hv.
  exists (fun _ => example_empty_mem), example_empty_mem. cbn in Ho. rewrite Ho. apply deposits_fail.
  pose proof (reachable_Inv 2 2 g ltac:(lia) (op_reachable_reachable _ _ _ _ _ _ _ _ Hg)) as HI.
  destruct (inv_pc _ _ HI _ _ Hv) as [Hok _]. exact Hok.
Qed.

(** Steps of threads that are not executing. *)
Fixpoint quiet (g : Global) (sc : list (nat * Oracle)) : bool :=
  match sc with
  | [] => true
  | (i, o) :: sc' =>
      match threads g !! i with Some (W_Execute _) => false | _ => quiet (default g (gstep g i o)) sc' end
  end.

Lemma quiet_reachable (txs : list TxEnv) (k : nat) (sc : list (nat * Oracle)) (g : Global) :
  quiet g sc = true -> op_reachable encode_hash 200 300 example_env txs k g ∅ ->
  op_reachable encode_hash 200 300 example_env txs k (run_schedule g sc) ∅.
Proof.
  revert g. induction sc as [|[i o] sc IH]; intros g Hq Hg; [done|]. cbn [run_schedule quiet] in *.
  destruct (threads g !! i) as [p|] eqn:Hp; [|apply IH; [done|]; unfold gstep; by rewrite Hp].
  assert (Hno : forall v, p ≠ W_Execute v) by (intros v ->; done).
  apply IH; [by destruct p|]. destruct (gstep g i o) as [g'|] eqn:Hst; [|done].
  eapply op_step; [exact Hg|apply not_elem_of_empty| |exact Hst]. intros v Hv. rewrite Hp in Hv. injection Hv as ->. by destruct (Hno v).
Qed.

(** A block with one plain transaction, on one thread: the thread panics. *)
Definition plain : list TxEnv := [example_tx].
Definition op_plain_run : Global := run_schedule (Global_init 1 1) (replicate 5 (0, mkOracle Vm_ExecutionError true)).

Lemma plain_reachable : op_reachable encode_hash 200 300 example_env plain 1 op_plain_run ({[ 0 ]} ∪ ∅).
Proof.
  eapply (op_panic _ _ _ _ _ _ _ _ 0 (mkTxVersion 0 0) (fun _ => example_empty_mem) example_empty_mem).
  - apply quiet_reachable; [reflexivity|apply op_init].
  - apply not_elem_of_empty.
  - reflexivity.
  - vm_compute. reflexivity.
Qed.

(** The block of deposits is refused, the block with the plain transaction panics. *)
Lemma op_block_aborts_witness :
  op_joined encode_hash example_env deposits example_cache ∅ (Some (AR_ExecutionError (EE_Custom String.EmptyString)), [], example_empty_mem) =
    Return (Err (PE_ExecutionError (EE_Custom String.EmptyString))) /\
  op_joined encode_hash example_env plain example_cache ({[ 0 ]} ∪ ∅) (None, [], example_empty_mem) = Panic.
Proof.
  split.
  - destruct (op_block_aborts (H1 := typed_evm) (H2 := bare_op_evm) encode_hash 200 300 example_env deposits (fun _ => eq_refl) eq_refl
      example_cache 2 op_example_run ∅ (Some (AR_ExecutionError (EE_Custom String.EmptyString))) [] example_empty_mem)
      as (_ & [[He _]|[(err & [= <-] & Ho)|[? _]]]); [cbn; lia|lia|discriminate| | |vm_compute; reflexivity|done|exact Ho|done].
    + apply deposits_reachable; [|apply op_init]. vm_compute. repeat constructor.
    + intros i p Hp. right. revert i p Hp. apply (all_done_intro 2). vm_compute. reflexivity.
  - destruct (op_block_aborts (H1 := typed_evm) (H2 := bare_op_evm) encode_hash 200 300 example_env plain (fun _ => eq_refl) eq_refl
      example_cache 1 op_plain_run ({[ 0 ]} ∪ ∅) None [] example_empty_mem)
      as (_ & [[_ Ho]|[(err & [=] & _)|[[=] _]]]); [cbn; lia|lia|discriminate| | |vm_compute; reflexivity|exact Ho].
    + exact plain_reachable.
    + intros i p Hp. left. apply lookup_lt_Some in Hp. assert (i = 0) as ->; [|set_solver].
      assert (Hlen : length (threads op_plain_run) = 1) by (vm_compute; reflexivity). lia.
Defined.

End Examples.
