(* ===== verification/Sequential.v ===== *)
(** * The parallel executor against the sequential one

    [ParallelExecutor::execute] and [execute_sequential] (executor.rs) run the same
    transactions on different databases: the multi-version memory, where the
    beneficiary's rewards are added up lazily, and [CacheDB], on which the states are
    committed one by one. Here is what has to hold of the block, the chain, the EVM and
    [CacheDB] for the two to give the same receipts, and that they do. *)

From S2P Require Import Prelude Primitives Types Results MvMemory VmDb Vm Executor Views Scheduler Workers WorkersInv WorkersSafety.
From S2P Require Import WorkersMem WorkersMemInv WorkersRun WorkersResults WorkersEst WorkersSerial WorkersBlock.
Local Open Scope Z_scope.

(** ** The memory after a transaction *)

Section Below.
Context `{Revm}.

Lemma below_omap (m : MvMemory) (t : TxIdx) (x : LocationHash) :
  below m t x = omap (fun i => pair i <$> entry m x i) (reverse (seq 0 t)).
Proof.
  unfold below, range_below, entry. destruct (data m !! x) as [w|]; [done|].
  induction (reverse (seq 0 t)) as [|i l IH]; [done|]. cbn. exact IH.
Qed.

Lemma below_ext (m m' : MvMemory) (t : TxIdx) (x : LocationHash) :
  (forall u, (u < t)%nat -> entry m' x u = entry m x u) -> below m' t x = below m t x.
Proof.
  intros Heq. rewrite !below_omap. apply list_omap_ext, Forall2_same_length_lookup_2; [done|].
  intros i u u' Hu Hu'. rewrite Hu in Hu'. injection Hu' as <-. rewrite Heq; [done|].
  apply list_elem_of_lookup_2, elem_of_reverse, elem_of_seq in Hu. lia.
Qed.

Lemma below_next (m m' : MvMemory) (t : TxIdx) (x : LocationHash) :
  (forall u, (u < t)%nat -> entry m' x u = entry m x u) ->
  below m' (S t) x = match entry m' x t with Some e => (t, e) :: below m t x | None => below m t x end.
Proof.
  intros Heq. rewrite <- (below_ext m m' t x Heq). apply below_S.
Qed.

(** The lazily updated accounts are never forgotten. *)
Lemma lazy_moves (g : MGlobal) (p : pc) (x x' : mpc) (o : MOracle) (m' : MvMemory) :
  mem_moves g p x o m' x' -> lazy_addresses (mem g) ⊆ lazy_addresses m'.
Proof.
  intros [| |v l _| | |v ws k f locs _ _|v w todo wn f locs _ _| |]; try done.
  - cbn. generalize (lazy_addresses (mem g)) as s. induction l as [|b l IH]; intros s; [done|]. cbn. specialize (IH ({[b]} ∪ s)). set_solver.
  - unfold drop_step. repeat case_match; done.
  - unfold enter_step. by repeat case_match.
Qed.

Lemma lazy_addresses_kept (n k : nat) (est : gmap LocationHash (list TxIdx)) (lz : list Address) (g : MGlobal) (a : Address) :
  (Z.of_nat n < 2 ^ 64) -> mreachable n k est lz g -> a ∈ lz -> a ∈ lazy_addresses (mem g).
Proof.
  intros Hn Hr Ha. induction Hr as [|g i o g' Hr IH Hst]; [cbn; set_solver|].
  pose proof (mreachable_MInv _ _ _ _ _ Hn Hr) as HM.
  assert (exists p x, threads (base g) !! i = Some p /\ aux g !! i = Some x) as (p & x & Hp & Hx).
  { unfold mgstep in Hst. repeat case_match; try done; by do 2 eexists. }
  destruct (mgstep_kind n g g' i o p x HM Hp Hx Hst) as [(bo & sh & p' & _ & -> & _)|(m' & x' & -> & Hm)]; [done|].
  apply lazy_moves in Hm. cbn. set_solver.
Qed.

End Below.

(** ** What the two executors rely on *)

Section Sequential.
Context `{Revm} `{!DatabaseRef} `{!Evm}.
Context (hash_deterministic : Location -> LocationHash) (cache_db : list EvmState -> DbView).
Context (evm_env : EvmEnv) (txs : list TxEnv) (code_of : Z -> Bytecode).

Local Abbreviation basic_hash a := (hash_deterministic (Loc_Basic a)).
Local Abbreviation ben := (beneficiary evm_env).

(** The chain: it answers, its numbers are of their widths, and code is found by its
    hash. *)
Record chain_laws : Prop := mkChainLaws {
  ch_basic : forall a, exists o, basic_ref a = Ok o;
  ch_typed : forall a i, basic_ref a = Ok (Some i) -> info_typed i;
  ch_codes : forall h c, code_by_hash_ref h = Ok c -> c = code_of h;
  ch_code : forall a i, basic_ref a = Ok (Some i) -> code_by_hash_ref (ai_code_hash i) = Ok (code_of (ai_code_hash i));
  ch_empty : code_by_hash_ref KECCAK_EMPTY = Ok Bytecode_default;
}.

Definition same_info (i i' : AccountInfo) : Prop :=
  ai_balance i = ai_balance i' /\ ai_nonce i = ai_nonce i' /\ ai_code_hash i = ai_code_hash i'.

(** Accounts that differ at most in whether the code has been loaded. *)
Record same_account (acc acc' : Account) : Prop := mkSameAccount {
  sa_info : same_info (info acc) (info acc');
  sa_storage : storage acc = storage acc';
  sa_slots : changed_storage_slots acc = changed_storage_slots acc';
  sa_status : status_ acc = status_ acc';
  sa_rest : account_rest acc = account_rest acc';
}.

Definition code_loaded (v : DbView) (acc acc' : Account) : Prop :=
  ai_code (info acc) = ai_code (info acc') \/
  (ai_code (info acc') = None /\ exists c, ai_code (info acc) = Some c /\ view_code v (ai_code_hash (info acc)) = Ok c).

Definition same_entry (R : Account -> Account -> Prop) (o o' : option Account) : Prop :=
  match o, o' with Some acc, Some acc' => R acc acc' | None, None => True | _, _ => False end.

(** The state [st] is [st'] with codes of the view [v] loaded. *)
Definition same_state (v : DbView) (st st' : EvmState) : Prop :=
  forall a, same_entry (fun acc acc' => same_account acc acc' /\ code_loaded v acc acc') (st !! a) (st' !! a).

(** The codes of a state belong to their hashes. *)
Definition codes_ok (st : EvmState) : Prop :=
  forall a acc c, st !! a = Some acc -> ai_code (info acc) = Some c -> c = code_of (ai_code_hash (info acc)).

(** [CacheDB]: the chain's state, and what [commit] of a state changes. *)
Record cache_laws : Prop := mkCacheLaws {
  cl_nil : forall a i h, view_basic (cache_db []) a = basic_ref a /\ view_code (cache_db []) h = code_by_hash_ref h /\
    view_storage (cache_db []) a i = storage_ref a i;
  cl_codes : forall cs a i c, Forall codes_ok cs -> view_basic (cache_db cs) a = Ok (Some i) -> ai_code i = Some c ->
    c = code_of (ai_code_hash i);
  cl_view_codes : forall cs h c, Forall codes_ok cs -> view_code (cache_db cs) h = Ok c -> c = code_of h;
  cl_block_hash : forall cs n, view_block_hash (cache_db cs) n = block_hash_ref n;
  cl_touched : forall cs st a acc, st !! a = Some acc -> is_touched acc = true -> is_selfdestructed acc = false ->
    exists i, view_basic (cache_db (cs ++ [st])) a = Ok (Some i) /\ same_info i (info acc);
  cl_untouched : forall cs st a, (forall acc, st !! a = Some acc -> is_touched acc = false) ->
    view_basic (cache_db (cs ++ [st])) a = view_basic (cache_db cs) a;
  cl_slot : forall cs st a acc i slot, st !! a = Some acc -> is_touched acc = true -> is_selfdestructed acc = false ->
    NoDup (changed_storage_slots acc).*1 -> (i, slot) ∈ changed_storage_slots acc ->
    view_storage (cache_db (cs ++ [st])) a i = Ok (present_value slot);
  cl_no_slot : forall cs st a i, (forall acc, st !! a = Some acc -> is_touched acc = false \/
      (is_selfdestructed acc = false /\ i ∉ (changed_storage_slots acc).*1)) ->
    view_storage (cache_db (cs ++ [st])) a i = view_storage (cache_db cs) a i;
  cl_code_stays : forall cs st h c, Forall codes_ok (cs ++ [st]) -> view_code (cache_db cs) h = Ok c ->
    view_code (cache_db (cs ++ [st])) h = Ok c;
  cl_code_new : forall cs st a acc c, Forall codes_ok (cs ++ [st]) -> st !! a = Some acc -> is_touched acc = true ->
    is_selfdestructed acc = false -> ai_code (info acc) = Some c ->
    view_code (cache_db (cs ++ [st])) (ai_code_hash (info acc)) = Ok c;
}.

(** The beneficiary's reward, added to its account in [st] or to that of the
    database. *)
Record rewarded (v : DbView) (amount : Z) (st st' : EvmState) : Prop := mkRewarded {
  rw_other : forall a, a ≠ ben -> st' !! a = st !! a;
  rw_ben : exists acc' i, st' !! ben = Some acc' /\ is_touched acc' = true /\ is_selfdestructed acc' = false /\
    match st !! ben with Some acc => i = info acc | None => view_basic v ben = Ok (Some i) end /\
    info acc' = mkAccountInfo (saturating_add 256 (ai_balance i) amount) (ai_nonce i) (ai_code_hash i) (ai_code i) /\
    changed_storage_slots acc' = match st !! ben with Some acc => changed_storage_slots acc | None => [] end;
}.

Definition reward_amount (tx : TxEnv) (r : ExecutionResult) : Z :=
  saturating_mul 256 (reward_gas_price evm_env tx) (result_gas_used r).

(** The EVM: it asks for the code of an account that comes without, where it needs it;
    with the beneficiary's reward on it does what it does without, and pays; and it
    raises the caller's nonce. *)
Record evm_laws : Prop := mkEvmLaws {
  el_code : forall tx v r st, run_view (loaded v) (evm_program false evm_env tx) = Ok (Ok (r, st)) ->
    exists st', run_view v (evm_program false evm_env tx) = Ok (Ok (r, st')) /\ same_state v st st';
  el_reward : forall tx v r st i, run_view v (evm_program false evm_env tx) = Ok (Ok (r, st)) ->
    view_basic v ben = Ok (Some i) -> (forall acc, st !! ben = Some acc -> is_selfdestructed acc = false) ->
    exists st', run_view v (evm_program true evm_env tx) = Ok (Ok (r, st')) /\ rewarded v (reward_amount tx r) st st';
  el_nonce : forall tx v r st, run_view v (evm_program false evm_env tx) = Ok (Ok (r, st)) ->
    exists acc, st !! caller tx = Some acc /\ is_touched acc = true /\ ai_nonce (info acc) = nonce tx + 1;
}.

(** What a transaction may do to the accounts of the view [v]: destroy none, leave
    none empty that the fork would clear, and give new code only to an account that
    did not exist. *)
Record tame_account (v : DbView) (a : Address) (acc : Account) : Prop := mkTame {
  ta_alive : is_selfdestructed acc = false;
  ta_slots : NoDup (changed_storage_slots acc).*1;
  ta_loaded : is_touched acc = false -> changed_storage_slots acc = [] /\
    forall i, view_basic v a = Ok (Some i) -> same_info (info acc) i;
  ta_kept : is_touched acc = true -> kept evm_env acc;
  ta_typed : is_touched acc = true -> info_typed (info acc);
  ta_live : is_touched acc = true -> ai_balance (info acc) ≠ 0 \/ ai_nonce (info acc) ≠ 0;
  ta_empty : is_touched acc = true -> is_empty_code_hash (ai_code_hash (info acc)) = true ->
    ai_code_hash (info acc) = KECCAK_EMPTY;
  ta_code : forall i, is_touched acc = true -> view_basic v a = Ok (Some i) ->
    ai_code_hash (info acc) = ai_code_hash i;
  ta_new_code : is_touched acc = true -> view_basic v a = Ok None ->
    is_empty_code_hash (ai_code_hash (info acc)) = false -> is_Some (ai_code (info acc));
}.

Definition tame (v : DbView) (st : EvmState) : Prop :=
  codes_ok st /\ forall a acc, st !! a = Some acc -> tame_account v a acc.

(** The states committed by executing the first [t] transactions in order, with the
    results. *)
Inductive seq_prefix : nat -> list EvmState -> list TxExecutionResult -> Prop :=
| seq_start : seq_prefix 0 [] []
| seq_next t cs raw tx ty r st : seq_prefix t cs raw -> txs !! t = Some tx -> tx_type_try_from (tx_type tx) = Ok ty ->
    transact cache_db evm_env cs tx = Ok (r, st) -> seq_prefix (S t) (cs ++ [st]) (raw ++ [from_raw ty r st]).

(** The block: every recipient and the beneficiary are accounts of the chain, and no
    transaction, executed in order, does anything that is not tame. *)
Record block_laws : Prop := mkBlockLaws {
  bl_recipients : forall tx a, tx ∈ txs -> kind tx = Call a -> exists i, basic_ref a = Ok (Some i);
  bl_nonces : forall tx, tx ∈ txs -> 0 <= nonce tx;
  bl_beneficiary : exists i, basic_ref ben = Ok (Some i);
  bl_tame : forall t cs raw tx r st, seq_prefix t cs raw -> txs !! t = Some tx ->
    run_view (cache_db cs) (evm_program false evm_env tx) = Ok (Ok (r, st)) -> tame (cache_db cs) st;
  bl_gas : forall t cs raw tx r st, seq_prefix t cs raw -> txs !! t = Some tx ->
    run_view (cache_db cs) (evm_program false evm_env tx) = Ok (Ok (r, st)) -> 0 <= reward_amount tx r;
}.

Context (hash_inj : forall l l', hash_deterministic l = hash_deterministic l' -> l = l').
Context (Hchain : chain_laws) (Hcache : cache_laws) (Hevm : evm_laws) (Hblock : block_laws).

Local Abbreviation agrees := (agree hash_deterministic code_of).

Lemma chain_account_typed (a : Address) (i : AccountInfo) : chain_account a = Some i -> info_typed i.
Proof using Hchain. unfold chain_account. destruct (ch_basic Hchain a) as [o Ho]. rewrite Ho. intros ->. by eapply Hchain. Qed.

Lemma code_of_empty : code_of KECCAK_EMPTY = Bytecode_default.
Proof using Hchain. symmetry. apply (ch_codes Hchain), Hchain. Qed.

(** ** A transaction on both databases *)

(** With an existing recipient a transaction is not lazy. *)
Lemma VmDB_new_reads (m m1 : MvMemory) (t : TxIdx) (tx : TxEnv) (d : VmDB) :
  tx ∈ txs -> VmDB_new hash_deterministic m m1 t tx (basic_hash (caller tx)) ((fun a => basic_hash a) <$> kind_to (kind tx))
    = Return (Ok d) ->
  db_reads hash_deterministic m d /\ db_tx_idx d = t.
Proof using hash_inj Hblock.
  intros Hin Hn. destruct (VmDB_new_ok _ _ _ _ _ _ Hn) as (Hok & Ht & _). split; [|done].
  destruct (VmDB_new_inv _ _ _ _ _ _ _ _ Hn) as [[Hk ->]|(a & h & d1 & Hk & Hh & Hd)].
  - constructor; [done|done|done|]. rewrite Hk. done.
  - destruct (get_code_hash_mem _ _ _ _ _ _ Hh) as [Hc Hra]. cbn [db_tx_idx read_accounts] in Hc, Hra.
    destruct (bl_recipients Hblock _ _ Hin Hk) as [i Hi].
    assert (Hs : is_Some h).
    { rewrite Hc. unfold mem_code, chain_account. rewrite Hi. repeat case_match; by eexists. }
    assert (Hl : is_lazy d = false).
    { unfold VmDB_new in Hn. destruct Hs as [x ->]. rewrite Hk in Hh, Hn. rewrite Hh in Hn. by injection Hn as <-. }
    rewrite Hl in Hd. subst d. constructor; cbn [is_lazy read_accounts to_hash to_code_hash db_tx_idx]; [done|done| |].
    + intros b meta Hb. rewrite Hra in Hb. done.
    + intros b Hb. rewrite Hk in Hb. cbn in Hb. injection Hb as Hb. apply hash_inj in Hb as [= <-]. done.
Qed.

(** What a recorded execution does on the view. *)
Lemma records_view (m m1 : MvMemory) (t : TxIdx) (v : DbView) (rs : ReadSet) (ws : WriteSet) (res : option TxExecutionResult) :
  agrees m t v -> (forall h c, new_bytecodes m !! h = Some c -> c = code_of h) ->
  records hash_deterministic evm_env txs (reading m m1) t rs ws res ->
  exists tx d r st st', txs !! t = Some tx /\ run_view v (evm_program false evm_env tx) = Ok (Ok (r, st')) /\
    same_state v st st' /\ db_reads hash_deterministic m d /\ db_tx_idx d = t /\ from_hash d = basic_hash (caller tx) /\ res = vm_result tx r st /\
    apply_rewards hash_deterministic evm_env (write_state hash_deterministic evm_env d st ∅).1 tx (result_gas_used r) = Ok ws.
Proof using hash_inj Hchain Hevm Hblock.
  intros Hag Hcodes (tx & db & db' & r & st & Htx & Hnew & Hrun & _ & Hrew & Hres).
  change (reading m m1 0%nat) with m in Hnew. change (reading m m1 1%nat) with m1 in Hnew.
  change (fun k => reading m m1 (2 + k)%nat) with (fun _ : nat => m) in Hrun.
  destruct (VmDB_new_reads m m1 t tx db (list_elem_of_lookup_2 _ _ _ Htx) Hnew) as [Hd Ht].
  destruct (run_prog_view hash_deterministic hash_inj chain_account_typed code_of code_of_empty (ch_codes Hchain) m t v _ 0 db db' _
    Hag Hcodes Hd Ht Hrun) as (Hv & Hd' & Ht').
  destruct (el_code Hevm _ _ _ _ Hv) as (st' & Hv' & Hsame).
  exists tx, db', r, st, st'. do 5 (split; [done|]). split; [|done].
  rewrite (ok_from _ _ (dr_ok _ _ _ Hd')).
  destruct (run_prog_grows _ (no_collision _ hash_inj) _ _ _ _ _ _ (dr_ok _ _ _ Hd) Hrun) as [(_ & E & _) _].
  destruct (VmDB_new_ok _ _ _ _ _ _ Hnew) as (_ & _ & Etx). congruence.
Qed.

(** ** The accounts after a transaction *)

(** Loading codes does not make a state less tame. *)
Lemma tame_loaded (v : DbView) (st st' : EvmState) :
  (forall h c, view_code v h = Ok c -> c = code_of h) -> same_state v st st' -> tame v st' -> tame v st.
Proof using.
  intros Hcodes Hsame [Hok Hacc]. assert (Hat : forall a acc, st !! a = Some acc -> exists acc', st' !! a = Some acc' /\
    same_account acc acc' /\ code_loaded v acc acc').
  { intros a acc Ha. specialize (Hsame a). rewrite Ha in Hsame. destruct (st' !! a) as [acc'|]; [|done]. by exists acc'. }
  split.
  - intros a acc c Ha Hc. destruct (Hat _ _ Ha) as (acc' & Ha' & [(_ & _ & Hh) _ _ _ _] & [Heq|(_ & c' & Hc' & Hv)]).
    + rewrite Hh. apply (Hok a); [done|congruence].
    + apply Hcodes. congruence.
  - intros a acc Ha. destruct (Hat _ _ Ha) as (acc' & Ha' & [(Hb & Hn & Hh) _ Hslots Hst _] & Hcode).
    destruct (Hacc _ _ Ha') as [T1 T2 T3 T4 T5 T6 T7 T8 T9].
    unfold is_selfdestructed, is_touched, kept, account_is_empty, info_typed, same_info in *. rewrite <- Hst, <- ?Hslots, <- ?Hb, <- ?Hn, <- ?Hh in *.
    constructor; unfold is_touched, is_selfdestructed, kept, account_is_empty, info_typed, same_info; try done.
    intros Htc Hv He. destruct (T9 Htc Hv He) as [c Hc]. destruct Hcode as [->|(Hn' & _)]; [by exists c|congruence].
Qed.

Section Written.
Context (m : MvMemory) (t : TxIdx) (v : DbView) (d : VmDB) (st : EvmState).
Context (Hag : agrees m t v) (Hd : db_reads hash_deterministic m d) (Ht : db_tx_idx d = t) (Htame : tame v st).

Local Abbreviation written x := ((write_state hash_deterministic evm_env d st ∅).1 !! x).

(** The account, in the state or in the view. *)
Definition after (a : Address) : option AccountInfo :=
  match st !! a with
  | Some acc => if is_touched acc then Some (info acc) else match view_basic v a with Ok o => o | Err _ => None end
  | None => match view_basic v a with Ok o => o | Err _ => None end
  end.

Definition live (i : AccountInfo) : Prop := ai_balance i ≠ 0 \/ ai_nonce i ≠ 0.
Definition proper (i : AccountInfo) : Prop := info_typed i /\ live i.

Definition numbers (i : AccountInfo) : Z * Z := (ai_balance i, ai_nonce i).

Lemma view_numbers (a : Address) :
  exists o, view_basic v a = Ok o /\ mem_basic hash_deterministic m t a = numbers <$> o /\
    match o with
    | Some i => ai_code_hash i = default KECCAK_EMPTY (mem_code hash_deterministic m t a)
    | None => mem_code hash_deterministic m t a = None
    end.
Proof using Hag.
  pose proof (ag_basic _ _ _ _ _ Hag a) as Ha. destruct (mem_basic _ m t a) as [[b n]|].
  - destruct Ha as (i & Hi & <- & <- & Hh). by exists (Some i).
  - destruct Ha as [Hv Hc]. by exists None.
Qed.

(** What is written to an account, or else what was there. *)
Lemma written_basic (a : Address) :
  (exists acc, st !! a = Some acc /\ written (basic_hash a) = Some (LV_Basic (info acc)) /\ proper (info acc) /\
     after a = Some (info acc)) \/
  (written (basic_hash a) = None /\ mem_basic hash_deterministic m t a = numbers <$> after a).
Proof using hash_inj Hag Hd Ht Htame.
  destruct (view_numbers a) as (o & Ho & Hmem & _). destruct Htame as [_ Hacc]. unfold after. rewrite Ho.
  destruct (st !! a) as [acc|] eqn:Hst; [|right; split; [|done]; by apply (write_state_absent _ _ hash_inj d st (Loc_Basic a))].
  destruct (Hacc _ _ Hst) as [Halive _ Hload Hkept Htyped Hlive _ _ _]. destruct (is_touched acc) eqn:Htc.
  2: { right. split; [|done]. destruct (Hload eq_refl) as [Hs _].
       by apply (write_state_untouched _ _ hash_inj d st (Loc_Basic a) acc). }
  rewrite (write_state_basic _ evm_env hash_inj d st a acc Hst Halive Htc (dr_lazy _ _ _ Hd) (Hkept eq_refl)).
  destruct (info_written _ d a acc) eqn:Hw; [left; exists acc; split; [done|]; split; [done|]; split; [split; [by apply Htyped|by apply Hlive]|done]|right; split; [done|]].
  unfold info_written in Hw. destruct (read_accounts d !! basic_hash a) as [meta|] eqn:Hm.
  - apply (dr_accounts _ _ _ Hd) in Hm. rewrite Ht in Hm. rewrite Hm. cbn. unfold numbers. f_equal.
    apply orb_false_iff in Hw as [_ Hw]. unfold meta_changed in Hw.
    apply andb_false_iff in Hw as [Hw|Hw]; apply negb_false_iff, bool_decide_eq_true in Hw as ->; done.
  - apply orb_false_iff in Hw as [Hw _]. apply orb_false_iff in Hw as [_ Hw]. by rewrite bool_decide_eq_true_2 in Hw.
Qed.

(** The code hash that goes with it. *)
Definition code_after (a : Address) : option Z :=
  match written (hash_deterministic (Loc_CodeHash a)) with
  | Some (LV_CodeHash h) => Some h
  | _ => mem_code hash_deterministic m t a
  end.

Lemma written_code (a : Address) :
  match after a with
  | Some i => ai_code_hash i = default KECCAK_EMPTY (code_after a)
  | None => code_after a = None
  end.
Proof using hash_inj Hag Hd Ht Htame.
  destruct (view_numbers a) as (o & Ho & Hmem & Hcode). destruct Htame as [_ Hacc]. unfold after, code_after. rewrite Ho.
  destruct (st !! a) as [acc|] eqn:Hst; [|by rewrite (write_state_absent _ _ hash_inj d st (Loc_CodeHash a) Hst)].
  destruct (Hacc _ _ Hst) as [Halive _ Hload _ _ _ Hempty Hsame _]. destruct (is_touched acc) eqn:Htc.
  2: { destruct (Hload eq_refl) as [Hs _].
       by rewrite (write_state_untouched _ _ hash_inj d st (Loc_CodeHash a) acc Hst Halive Htc Hs). }
  rewrite (write_state_code _ evm_env hash_inj d st a acc Hst Halive Htc).
  destruct o as [i|].
  - rewrite (Hsame i eq_refl Ho). destruct (negb _ && _); [done|exact Hcode].
  - rewrite Hcode. destruct (read_accounts d !! basic_hash a) as [meta|] eqn:Hm.
    + apply (dr_accounts _ _ _ Hd) in Hm. rewrite Ht in Hm. by rewrite Hm in Hmem.
    + cbn. rewrite andb_true_r. destruct (is_empty_code_hash _) eqn:He; cbn; [by apply Hempty|done].
Qed.

Lemma written_code_shape (a : Address) :
  written (hash_deterministic (Loc_CodeHash a)) = None \/
  exists h, written (hash_deterministic (Loc_CodeHash a)) = Some (LV_CodeHash h).
Proof using hash_inj Htame.
  destruct Htame as [_ Hacc].
  destruct (st !! a) as [acc|] eqn:Hst; [|left; by rewrite (write_state_absent _ _ hash_inj d st (Loc_CodeHash a) Hst)].
  destruct (Hacc _ _ Hst) as [Halive _ Hload _ _ _ _ _ _]. destruct (is_touched acc) eqn:Htc.
  - rewrite (write_state_code _ evm_env hash_inj d st a acc Hst Halive Htc). case_match; [right; by eexists|by left].
  - destruct (Hload eq_refl) as [Hs _]. left. by rewrite (write_state_untouched _ _ hash_inj d st (Loc_CodeHash a) acc).
Qed.

(** ** The reward *)

Context (tx : TxEnv) (r : ExecutionResult) (inc : TxIncarnation) (ws : WriteSet) (m' : MvMemory).
Context (Hamount : 0 <= reward_amount tx r).
Context (Hws : apply_rewards hash_deterministic evm_env (write_state hash_deterministic evm_env d st ∅).1 tx
  (result_gas_used r) = Ok ws).
Context (Hm' : forall x u, entry m' x u = if decide (u = t) then Data inc <$> ws !! x else entry m x u).

Definition pay (a : Address) (i : AccountInfo) : AccountInfo :=
  if decide (a = ben) then
    mkAccountInfo (saturating_add 256 (ai_balance i) (reward_amount tx r)) (ai_nonce i) (ai_code_hash i) (ai_code i)
  else i.

Lemma reward_in_range : in_range 256 (reward_amount tx r).
Proof using Hamount.
  split; [exact Hamount|]. unfold reward_amount, saturating_mul. change (uint_max 256) with (2 ^ 256 - 1). clear. lia.
Qed.

Lemma saturating_add_nonzero (b x : Z) : 0 <= b -> 0 <= x -> b ≠ 0 -> saturating_add 256 b x ≠ 0.
Proof using. unfold saturating_add. change (uint_max 256) with (2 ^ 256 - 1). clear. lia. Qed.

Lemma below_after (x : LocationHash) :
  below m' (S t) x = match ws !! x with Some e => (t, Data inc e) :: below m t x | None => below m t x end.
Proof using Hm'.
  rewrite (below_next m m'); [|intros u Hu; rewrite Hm'; by rewrite decide_False by (clear -Hu; lia)].
  rewrite Hm', decide_True by done. by destruct (ws !! x).
Qed.

Lemma ws_beneficiary :
  add_reward (write_state hash_deterministic evm_env d st ∅).1 (basic_hash ben, reward_amount tx r) = Ok ws.
Proof using Hws.
  pose proof Hws as Hr. unfold apply_rewards, rewards, vm_reward_policy, reward_policy in Hr. cbn [add_rewards] in Hr.
  unfold beneficiary_location_hash in Hr. fold (reward_amount tx r) in Hr. destruct (add_reward _ _); [exact Hr|done].
Qed.

Lemma ws_other (x : LocationHash) : x ≠ basic_hash ben -> ws !! x = written x.
Proof using Hws. intros Hx. by apply (apply_rewards_Ok _ _ _ _ _ _ Hws). Qed.

(** The account's entry after the rewards. *)
Lemma ws_basic (a : Address) :
  (exists acc, st !! a = Some acc /\ ws !! basic_hash a = Some (LV_Basic (pay a (info acc))) /\
     proper (pay a (info acc)) /\ after a = Some (info acc)) \/
  (a ≠ ben /\ ws !! basic_hash a = None /\ mem_basic hash_deterministic m t a = numbers <$> after a) \/
  (a = ben /\ ws !! basic_hash a = Some (LV_LazyRecipient (reward_amount tx r)) /\
   mem_basic hash_deterministic m t a = numbers <$> after a).
Proof using hash_inj Hag Hd Ht Htame Hamount Hws.
  destruct (written_basic a) as [(acc & Hst & Hw & Hi & Ha)|[Hw Ha]]; unfold pay; case_decide as Hb.
  - left. exists acc. split; [done|]. subst a. pose proof ws_beneficiary as Hr. cbn [add_reward] in Hr. rewrite Hw in Hr. injection Hr as Hr.
    rewrite <- Hr, lookup_insert_eq. split; [done|]. split; [|done]. destruct Hi as [[Hib Hin] Hli].
    split; [split; [|done]; apply saturating_add_range; [done|done|apply reward_in_range]|].
    destruct Hli as [Hl|Hl]; [left|by right]. cbn. apply saturating_add_nonzero; [apply Hib|done|done].
  - left. exists acc. split; [done|]. split; [|done]. rewrite ws_other; [done|]. intros [= Heq]%hash_inj. done.
  - right; right. subst a. split; [done|]. split; [|done]. pose proof ws_beneficiary as Hr. cbn [add_reward] in Hr.
    rewrite Hw in Hr. injection Hr as Hr. by rewrite <- Hr, lookup_insert_eq.
  - right; left. split; [done|]. split; [|done]. rewrite ws_other; [done|]. intros [= Heq]%hash_inj. done.
Qed.

Lemma mem_basic_after (a : Address) : mem_basic hash_deterministic m' (S t) a = numbers ∘ pay a <$> after a.
Proof using hash_inj Hag Hd Ht Htame Hamount Hws Hm'.
  unfold mem_basic. rewrite below_after. destruct (ws_basic a) as [(acc & _ & -> & _ & ->)|[(Hb & -> & Ha)|(Hb & -> & Ha)]].
  - done.
  - unfold mem_basic in Ha. rewrite Ha. apply option_fmap_ext. intros i. cbn. unfold pay. by rewrite decide_False.
  - cbn [resolve]. unfold mem_basic in Ha. rewrite Ha, <- option_fmap_compose. apply option_fmap_ext. intros i. cbn. unfold pay.
    by rewrite decide_True.
Qed.

Lemma mem_code_after (a : Address) : mem_code hash_deterministic m' (S t) a = code_after a.
Proof using hash_inj Htame Hws Hm'.
  unfold mem_code at 1. rewrite below_after, ws_other by (by intros [= ?]%hash_inj). unfold code_after.
  destruct (written_code_shape a) as [->|[h ->]]; done.
Qed.

Lemma resolvable_after : resolvable_below hash_deterministic m' (S t).
Proof using hash_inj Hag Hd Ht Htame Hamount Hws Hm' Hblock.
  destruct (ag_resolvable _ _ _ _ _ Hag) as [He Ha]. constructor; intros a.
  - rewrite below_after. destruct (ws_basic a) as [(acc & _ & -> & Hi & _)|[(_ & -> & _)|(_ & -> & _)]]; [|done|];
      constructor; [apply Hi|done|apply reward_in_range|done].
  - intros Hc. rewrite below_after. destruct (ws_basic a) as [(acc & _ & -> & _)|[(_ & -> & _)|(-> & _)]].
    + constructor; [done|by apply Ha].
    + by apply Ha.
    + destruct (bl_beneficiary Hblock) as [i Hi]. unfold chain_account in Hc. by rewrite Hi in Hc.
Qed.

(** ** The committed state *)

Lemma beneficiary_in_view : exists i, view_basic v ben = Ok (Some i).
Proof using Hag Hblock.
  destruct (view_numbers ben) as (o & Ho & Hmem & _). destruct o as [i|]; [by exists i|]. exfalso. cbn in Hmem.
  destruct (bl_beneficiary Hblock) as [i Hi]. unfold mem_basic, chain_account in Hmem. rewrite Hi in Hmem. cbn in Hmem.
  pose proof (rb_entries _ _ _ (ag_resolvable _ _ _ _ _ Hag) ben) as Hall. revert Hmem.
  induction Hall as [|[u e] l He _ IH]; [done|]. cbn. destruct e as [? w|]; [|done]. destruct w; try done.
  by destruct (resolve _ l); [|done].
Qed.

Context (cs : list EvmState) (Hv : v = cache_db cs) (Hcs : Forall codes_ok cs).
Context (st2 st' : EvmState) (Hsame2 : same_state v st st2) (Htame2 : tame v st2).
Context (Hrw : rewarded v (reward_amount tx r) st2 st').

Lemma same_at (a : Address) :
  (st !! a = None /\ st2 !! a = None) \/
  exists acc acc2, st !! a = Some acc /\ st2 !! a = Some acc2 /\ same_account acc acc2.
Proof using Hsame2.
  pose proof (Hsame2 a) as Ha. destruct (st !! a) as [acc|], (st2 !! a) as [acc2|]; try done; [right|by left].
  exists acc, acc2. by destruct Ha.
Qed.

Local Abbreviation v' := (cache_db (cs ++ [st'])).

(** The rewarded beneficiary. *)
Lemma beneficiary_after :
  exists acc' i, st' !! ben = Some acc' /\ is_touched acc' = true /\ is_selfdestructed acc' = false /\
    after ben = Some i /\ same_info (info acc') (pay ben i) /\
    changed_storage_slots acc' = match st !! ben with Some acc => changed_storage_slots acc | None => [] end /\
    (forall c, ai_code (info acc') = Some c -> c = code_of (ai_code_hash (info acc'))).
Proof using Hag Hblock Hcache Htame Hrw Hv Hcs Hsame2 Htame2.
  destruct (rw_ben _ _ _ _ Hrw) as (acc' & i & Hst' & Htc & Hsd & Hi & Hinfo & Hslots).
  destruct beneficiary_in_view as [i0 Hi0]. destruct Htame as [Hcodes Hacc].
  assert (Hcode : forall c, ai_code i = Some c -> c = code_of (ai_code_hash i)).
  { destruct (st2 !! ben) as [acc|] eqn:Hst; [subst i; intros c; by apply (proj1 Htame2) with ben|]. rewrite Hv in Hi.
    intros c. by apply (cl_codes Hcache cs ben). }
  assert (exists j, after ben = Some j /\ same_info i j) as (j & Hj & Hb & Hn & Hh).
  { unfold after. destruct (same_at ben) as [[Hst E]|(acc & acc2 & Hst & E & Hsa)]; rewrite E in Hi; rewrite Hst.
    - rewrite Hi. by exists i.
    - subst i. destruct Hsa as [(Hb & Hn & Hh) _ _ _ _]. destruct (is_touched acc) eqn:Ht1.
      + exists (info acc). split; [done|]. unfold same_info. by rewrite Hb, Hn, Hh.
      + rewrite Hi0. exists i0. split; [done|]. destruct (ta_loaded _ _ _ (Hacc _ _ Hst) Ht1) as [_ Hl].
        destruct (Hl _ Hi0) as (E1 & E2 & E3). unfold same_info. by rewrite <- Hb, <- Hn, <- Hh. }
  assert (Hslots' : changed_storage_slots acc' = match st !! ben with Some acc => changed_storage_slots acc | None => [] end).
  { destruct (same_at ben) as [[-> E]|(acc & acc2 & -> & E & Hsa)]; rewrite E in Hslots; [done|]. by rewrite (sa_slots _ _ Hsa). }
  exists acc', j. do 4 (split; [done|]). split; [|split; [done|]].
  - rewrite Hinfo. unfold pay, same_info. rewrite decide_True by done. cbn. by rewrite Hb, Hn, Hh.
  - rewrite Hinfo. exact Hcode.
Qed.

Lemma codes_after : Forall codes_ok (cs ++ [st']).
Proof using Hag Hblock Hcache Htame Hrw Hv Hcs Hsame2 Htame2.
  apply Forall_app. split; [done|]. constructor; [|done]. intros a acc c Ha Hc. destruct (decide (a = ben)) as [->|Hne].
  - destruct beneficiary_after as (acc' & _ & Hst' & _ & _ & _ & _ & _ & Hcode). rewrite Ha in Hst'. injection Hst' as ->.
    by apply Hcode.
  - rewrite (rw_other _ _ _ _ Hrw _ Hne) in Ha. destruct Htame2 as [Hcodes _]. by eapply Hcodes.
Qed.

Lemma view_after (a : Address) :
  exists o, view_basic v' a = Ok o /\
    match o, after a with Some i', Some i => same_info i' (pay a i) | None, None => True | _, _ => False end.
Proof using Hag Hblock Hcache Htame Hrw Hv Hcs Hsame2 Htame2.
  destruct (decide (a = ben)) as [->|Hne].
  - destruct beneficiary_after as (acc' & i & Hst' & Htc & Hsd & Hi & Hsame & _).
    destruct (cl_touched Hcache cs st' ben acc' Hst' Htc Hsd) as (i' & Hi' & Hs'). exists (Some i'). split; [done|].
    rewrite Hi. unfold same_info in *. intuition congruence.
  - assert (Hpay : forall i, pay a i = i) by (intros i; unfold pay; by rewrite decide_False).
    unfold after. destruct (view_numbers a) as (o & Ho & _). rewrite Ho.
    assert (Hun : (forall acc, st !! a = Some acc -> is_touched acc = false) -> view_basic v' a = Ok o).
    { intros Hall. rewrite (cl_untouched Hcache); [by rewrite <- Hv|]. rewrite (rw_other _ _ _ _ Hrw _ Hne). intros acc2 Ha2.
      destruct (same_at a) as [[_ E]|(acc & acc3 & Hst & E & Hsa)]; [congruence|]. assert (acc3 = acc2) as -> by congruence.
      unfold is_touched. rewrite <- (sa_status _ _ Hsa). by apply Hall. }
    assert (Hrefl : match o with Some i' => match o with Some i => same_info i' (pay a i) | None => False end
      | None => match o with Some _ => False | None => True end end) by (destruct o; [by rewrite Hpay|done]).
    destruct (st !! a) as [acc|] eqn:Hst; [|exists o; split; [by apply Hun|exact Hrefl]]. destruct (is_touched acc) eqn:Htc.
    + destruct (same_at a) as [[E _]|(acc1 & acc2 & E & Hst2 & Hsa)]; [congruence|]. assert (acc1 = acc) as -> by congruence.
      assert (Htc2 : is_touched acc2 = true) by (unfold is_touched in *; by rewrite <- (sa_status _ _ Hsa)).
      destruct (cl_touched Hcache cs st' a acc2) as (i' & Hi' & Hs').
      * by rewrite (rw_other _ _ _ _ Hrw _ Hne).
      * done.
      * by apply (ta_alive _ _ _ (proj2 Htame2 _ _ Hst2)).
      * exists (Some i'). split; [done|]. rewrite Hpay. destruct (sa_info _ _ Hsa) as (Hb & Hn & Hh). unfold same_info in *.
        by rewrite Hb, Hn, Hh.
    + exists o. split; [|done]. apply Hun. by intros ? [= <-].
Qed.

Lemma code_stays (h : Z) (c : Bytecode) : view_code v h = Ok c -> view_code v' h = Ok c.
Proof using Hag Hblock Hcache Htame Hrw Hv Hcs Hsame2 Htame2.
  intros Hc. apply (cl_code_stays Hcache); [apply codes_after|by rewrite <- Hv].
Qed.

Lemma code_in_view (a : Address) (i : AccountInfo) :
  after a = Some i -> view_code v' (ai_code_hash i) = Ok (code_of (ai_code_hash i)).
Proof using Hag Hblock Hcache Hchain Htame Hrw Hv Hcs Hsame2 Htame2.
  destruct (view_numbers a) as (o & Ho & _). unfold after. rewrite Ho. destruct Htame as [Hcodes Hacc].
  assert (Hold : forall i, o = Some i -> view_code v' (ai_code_hash i) = Ok (code_of (ai_code_hash i))).
  { intros j ->. apply code_stays. by apply (ag_code _ _ _ _ _ Hag a). }
  destruct (st !! a) as [acc|] eqn:Hst; [|by apply Hold]. destruct (is_touched acc) eqn:Htc; [|by apply Hold].
  intros [= <-]. destruct (Hacc _ _ Hst) as [Halive _ _ _ _ _ Hempty Hsame Hnew]. destruct o as [i0|].
  - rewrite (Hsame _ Htc Ho). by apply Hold.
  - destruct (is_empty_code_hash _) eqn:He.
    + rewrite Hempty by done. apply code_stays. rewrite code_of_empty. apply (ag_chain_code _ _ _ _ _ Hag), Hchain.
    + assert (Hne : a ≠ ben) by (intros ->; destruct beneficiary_in_view; congruence).
      destruct (same_at a) as [[E _]|(acc1 & acc2 & E & Hst2 & Hsa)]; [congruence|]. assert (acc1 = acc) as -> by congruence.
      assert (Htc2 : is_touched acc2 = true) by (unfold is_touched in *; by rewrite <- (sa_status _ _ Hsa)).
      destruct Htame2 as [Hcodes2 Hacc2]. destruct (sa_info _ _ Hsa) as (_ & _ & Hh). rewrite Hh in *.
      destruct (ta_new_code _ _ _ (Hacc2 _ _ Hst2) Htc2 Ho He) as [c Hc]. rewrite <- (Hcodes2 _ _ _ Hst2 Hc).
      apply (cl_code_new Hcache) with a; [apply codes_after| |done|by apply (ta_alive _ _ _ (Hacc2 _ _ Hst2))|done].
      by rewrite (rw_other _ _ _ _ Hrw _ Hne).
Qed.

(** The slots of the rewarded state are those of the state. *)
Lemma slots_after (a : Address) (acc' : Account) :
  st' !! a = Some acc' ->
  is_selfdestructed acc' = false /\
  changed_storage_slots acc' = match st !! a with Some acc => changed_storage_slots acc | None => [] end /\
  (is_touched acc' = false -> changed_storage_slots acc' = []).
Proof using Hag Hblock Hcache Htame Hrw Hv Hcs Hsame2 Htame2.
  intros Ha. destruct (decide (a = ben)) as [->|Hne].
  - destruct beneficiary_after as (acc & i & Hst' & Htc & Hsd & _ & _ & Hslots & _). rewrite Ha in Hst'.
    injection Hst' as ->. split; [done|]. split; [done|congruence].
  - rewrite (rw_other _ _ _ _ Hrw _ Hne) in Ha. destruct Htame2 as [_ Hacc]. destruct (Hacc _ _ Ha) as [Halive _ Hload _ _ _ _ _ _].
    destruct (same_at a) as [[_ E]|(acc & acc2 & -> & E & Hsa)]; [congruence|]. assert (acc2 = acc') as -> by congruence.
    split; [done|]. rewrite (sa_slots _ _ Hsa). split; [done|]. intros Htc. by apply Hload.
Qed.

(** A slot: written with its new value and committed, or neither. *)
Lemma storage_after (a : Address) (i : Z) :
  (exists x, ws !! hash_deterministic (Loc_Storage a i) = Some (LV_Storage x) /\ view_storage v' a i = Ok x) \/
  (ws !! hash_deterministic (Loc_Storage a i) = None /\ view_storage v' a i = view_storage v a i).
Proof using hash_inj Hag Hblock Hcache Htame Hws Hrw Hv Hcs Hsame2 Htame2.
  rewrite ws_other by (by intros [= ?]%hash_inj). destruct Htame as [_ Hacc].
  assert (Hst' : forall acc, st !! a = Some acc -> exists acc', st' !! a = Some acc').
  { intros acc Hst. destruct (decide (a = ben)) as [->|Hne].
    - destruct (rw_ben _ _ _ _ Hrw) as (acc' & _ & Hb & _). by exists acc'.
    - rewrite (rw_other _ _ _ _ Hrw _ Hne). destruct (same_at a) as [[E _]|(? & acc2 & _ & E & _)]; [congruence|by exists acc2]. }
  assert (Hno : (forall acc, st !! a = Some acc -> i ∉ (changed_storage_slots acc).*1) -> view_storage v' a i = view_storage v a i).
  { intros Hall. rewrite (cl_no_slot Hcache); [by rewrite <- Hv|]. intros acc' Ha. right.
    destruct (slots_after _ _ Ha) as (Hsd & Hslots & _). split; [done|]. rewrite Hslots.
    destruct (st !! a) as [acc|]; [by apply Hall|apply not_elem_of_nil]. }
  destruct (st !! a) as [acc|] eqn:Hst.
  2: { right. split; [by apply (write_state_absent _ _ hash_inj d st (Loc_Storage a i))|by apply Hno]. }
  destruct (Hacc _ _ Hst) as [Halive Hnd _ _ _ _ _ _ _]. destruct (decide (i ∈ (changed_storage_slots acc).*1)) as [Hi|Hi].
  - left. apply list_elem_of_fmap in Hi as ([j slot] & -> & Hi). exists (present_value slot). cbn [fst].
    split; [by apply (write_state_slot _ evm_env hash_inj d st a acc)|].
    destruct (Hst' _ eq_refl) as [acc' Ha']. destruct (slots_after _ _ Ha') as (Hsd & Hslots & Hun). rewrite Hst in Hslots.
    apply (cl_slot Hcache) with acc'; [done| |done|by rewrite Hslots..].
    destruct (is_touched acc') eqn:Htc; [done|]. rewrite <- Hslots, Hun in Hi by done. by apply not_elem_of_nil in Hi.
  - right. split; [by apply (write_state_no_slot _ evm_env hash_inj d st a acc)|]. apply Hno. by intros ? [= <-].
Qed.

(** An account with an entry is in the committed state, as the memory has it. *)
Lemma state_after (a : Address) :
  (a = ben \/ is_Some (ws !! basic_hash a)) ->
  is_Some (ws !! basic_hash a) /\
  exists acc, st' !! a = Some acc /\ mem_basic hash_deterministic m' (S t) a = Some (numbers (info acc)).
Proof using hash_inj Hag Hblock Hcache Hd Ht Htame Hamount Hws Hm' Hrw Hv Hcs Hsame2 Htame2.
  intros Hor. rewrite mem_basic_after. destruct (decide (a = ben)) as [->|Hne].
  - split; [destruct (ws_basic ben) as [(acc & _ & -> & _)|[(Hb & _)|(_ & -> & _)]]; done|].
    destruct beneficiary_after as (acc' & i & Hst' & _ & _ & -> & (Hb & Hn & _) & _). exists acc'. split; [done|].
    cbn. unfold numbers. by rewrite Hb, Hn.
  - destruct Hor as [?|He]; [done|]. split; [done|]. rewrite (rw_other _ _ _ _ Hrw _ Hne).
    destruct (ws_basic a) as [(acc & Hst & _ & _ & ->)|[(_ & Hn & _)|(Hb & _)]]; [|rewrite Hn in He; by destruct He|done].
    destruct (same_at a) as [[E _]|(acc1 & acc2 & E & -> & Hsa)]; [congruence|]. assert (acc1 = acc) as -> by congruence.
    exists acc2. split; [done|]. cbn. unfold pay, numbers. rewrite decide_False by done.
    by destruct (sa_info _ _ Hsa) as (-> & -> & _).
Qed.

(** The caller's nonce has been raised. *)
Lemma nonce_after (acc : Account) :
  st !! caller tx = Some acc -> is_touched acc = true -> ai_nonce (info acc) = nonce tx + 1 ->
  exists b, mem_basic hash_deterministic m' (S t) (caller tx) = Some (b, nonce tx + 1).
Proof using hash_inj Hag Hd Ht Htame Hamount Hws Hm'.
  intros Hst Htc Hn. rewrite mem_basic_after. unfold after. rewrite Hst, Htc. cbn. unfold numbers.
  eexists. f_equal. f_equal. rewrite <- Hn. unfold pay. by case_decide.
Qed.

(** The two databases agree again. *)
Lemma agree_after : agrees m' (S t) v'.
Proof using hash_inj Hag Hblock Hcache Hchain Hd Ht Htame Hamount Hws Hm' Hrw Hv Hcs Hsame2 Htame2.
  constructor.
  - apply resolvable_after.
  - intros a. rewrite mem_basic_after, mem_code_after. destruct (view_after a) as (o & Ho & Hs). pose proof (written_code a) as Hc.
    destruct (after a) as [i|], o as [i'|]; try done. cbn. destruct Hs as (Hb & Hn & Hh). exists i'. split; [done|].
    split; [done|]. split; [done|]. rewrite Hh. unfold pay. by case_decide.
  - intros a i' Hi'. destruct (view_after a) as (o & Ho & Hs). assert (o = Some i') as -> by congruence.
    destruct (after a) as [i|] eqn:Ha; [|done]. destruct Hs as (_ & _ & Hh).
    assert (ai_code_hash i' = ai_code_hash i) as -> by (rewrite Hh; unfold pay; by case_decide). by apply code_in_view with a.
  - intros h c Hc. apply code_stays. by apply (ag_chain_code _ _ _ _ _ Hag).
  - intros a i. rewrite below_after. destruct (storage_after a i) as [(x & -> & Hx)|[-> ->]]; [done|].
    apply (ag_storage _ _ _ _ _ Hag).
  - intros n. apply (cl_block_hash Hcache).
Qed.

End Written.

(** ** The whole block *)

(** A result of the parallel executor against one of the sequential one, before the
    rewards are added up. *)
Definition unrewarded (p : option TxExecutionResult) (s : TxExecutionResult) : Prop :=
  exists r, p = Some r /\ receipt r = receipt s /\
    forall a, a ≠ ben -> same_entry same_account (state r !! a) (state s !! a).

(** Where the execution in block order on the multi-version memory is, the sequential
    executor can be. *)
Record in_step (codes : gmap Z Bytecode) (t : nat) (m : MvMemory) (outs : list (option TxExecutionResult))
    (cs : list EvmState) (raw : list TxExecutionResult) : Prop := mkInStep {
  is_prefix : seq_prefix t cs raw;
  is_agree : agrees m t (cache_db cs);
  is_codes : Forall codes_ok cs;
  is_wf : mv_wf m;
  is_fresh : forall x u, (t <= u)%nat -> entry m x u = None;
  is_new_codes : new_bytecodes m = codes;
  is_outs : Forall2 unrewarded outs raw;
  is_states : forall u s a, raw !! u = Some s -> (a = ben \/ is_Some (entry m (basic_hash a) u)) ->
    is_Some (entry m (basic_hash a) u) /\
    exists acc, state s !! a = Some acc /\ mem_basic hash_deterministic m (S u) a = Some (numbers (info acc));
  is_live : forall u a i inc, entry m (basic_hash a) u = Some (Data inc (LV_Basic i)) -> live i;
  is_nonces : forall u tx, (u < t)%nat -> txs !! u = Some tx ->
    exists b, mem_basic hash_deterministic m (S u) (caller tx) = Some (b, nonce tx + 1);
}.

Lemma seq_prefix_length (t : nat) (cs : list EvmState) (raw : list TxExecutionResult) :
  seq_prefix t cs raw -> length raw = t.
Proof using. induction 1; [done|]. rewrite length_app. cbn. lia. Qed.

Lemma agree_start (n : nat) (codes : gmap Z Bytecode) :
  agrees (with_codes codes (MvMemory_new n ∅ [])) 0 (cache_db []).
Proof using Hchain Hcache.
  assert (Hb : forall x, below (with_codes codes (MvMemory_new n ∅ [])) 0 x = []) by (intros x; by rewrite below_omap).
  assert (Hc : forall a, view_basic (cache_db []) a = Ok (chain_account a)).
  { intros a. destruct (cl_nil Hcache a 0 0) as (-> & _). unfold chain_account. by destruct (ch_basic Hchain a) as [o ->]. }
  constructor.
  - by constructor; intros a; rewrite Hb.
  - intros a. unfold mem_basic, mem_code. rewrite !Hb, Hc. cbn. destruct (chain_account a) as [i|]; [|done]. by exists i.
  - intros a i Hi. destruct (cl_nil Hcache a 0 (ai_code_hash i)) as (E1 & -> & _). rewrite E1 in Hi. by eapply Hchain.
  - intros ch c Hch. by destruct (cl_nil Hcache 0 0 ch) as (_ & -> & _).
  - intros a i. rewrite Hb. by destruct (cl_nil Hcache a i 0) as (_ & _ & ->).
  - intros x. apply (cl_block_hash Hcache).
Qed.

Lemma in_step_start (n : nat) (codes : gmap Z Bytecode) :
  in_step codes 0 (with_codes codes (MvMemory_new n ∅ [])) [] [] [].
Proof using Hchain Hcache.
  constructor; [constructor|apply agree_start|done| | |done|done|done| |lia].
  - destruct (MvMemory_new_wf n ∅ []) as [W1 W2 W3]. constructor; [exact W1|exact W2|exact W3].
  - intros x u _. unfold entry. cbn. by rewrite lookup_fmap, lookup_empty.
  - intros u a i inc. unfold entry. cbn. by rewrite lookup_fmap, lookup_empty.
Qed.

Lemma in_step_next (codes : gmap Z Bytecode) (t : nat) (m m1 m' : MvMemory) (outs : list (option TxExecutionResult))
    (cs : list EvmState) (raw : list TxExecutionResult) (inc : TxIncarnation) (rs : ReadSet) (ws : WriteSet)
    (r : TxExecutionResult) (wrote : bool) :
  (forall h c, codes !! h = Some c -> c = code_of h) -> in_step codes t m outs cs raw ->
  records hash_deterministic evm_env txs (reading m m1) t rs ws (Some r) ->
  record (mkTxVersion t inc) rs ws m = Return (wrote, m') ->
  exists st s, in_step codes (S t) m' (outs ++ [Some r]) (cs ++ [st]) (raw ++ [s]).
Proof using hash_inj Hchain Hcache Hevm Hblock.
  intros Hcodes [Hpre Hag Hcs Hwf Hfresh Hnew Houts Hstates Hlive Hnonces] Hrec Hm.
  destruct (records_view m m1 t (cache_db cs) rs ws (Some r) Hag ltac:(by rewrite Hnew) Hrec)
    as (tx & d & x & st & st2 & Htx & Hrun & Hsame & Hd & Ht & _ & Hres & Hws).
  pose proof (bl_tame Hblock _ _ _ _ _ _ Hpre Htx Hrun) as Htame2.
  pose proof (tame_loaded _ _ _ (fun ch c => cl_view_codes Hcache cs ch c Hcs) Hsame Htame2) as Htame.
  destruct (beneficiary_in_view m t _ Hag) as [i Hi].
  destruct (el_reward Hevm _ _ _ _ _ Hrun Hi) as (st' & Hrun' & Hrw).
  { intros acc Hacc. by apply (ta_alive _ _ _ (proj2 Htame2 _ _ Hacc)). }
  unfold vm_result in Hres. destruct (tx_type_try_from (tx_type tx)) as [ty|] eqn:Hty; [|done]. injection Hres as ->.
  destruct (locations m !! t) as [locs|] eqn:Hl; [|unfold record in Hm; cbn in Hm; by rewrite Hl in Hm].
  destruct (record_run (mkTxVersion t inc) rs ws m locs Hl (wf_nodup _ Hwf _ _ Hl))
    as (wrote' & m2 & write' & Hm2 & _ & _ & Hnew' & _ & _ & Hent & _).
  rewrite Hm in Hm2. injection Hm2 as _ <-. cbn [tx_idx tx_incarnation] in Hent.
  assert (Hm' : forall y u, entry m' y u = if decide (u = t) then Data inc <$> ws !! y else entry m y u).
  { intros y u. rewrite Hent. case_decide as Hu; [subst u|done]. destruct (ws !! y); [done|]. rewrite Hfresh by lia. by case_decide. }
  assert (Hold : forall u a, (u < t)%nat -> mem_basic hash_deterministic m' (S u) a = mem_basic hash_deterministic m (S u) a).
  { intros u a Hu. unfold mem_basic. rewrite (below_ext m m'); [done|]. intros w Hw. by rewrite Hm', decide_False by lia. }
  exists st', (from_raw ty x st'). pose proof (bl_gas Hblock _ _ _ _ _ _ Hpre Htx Hrun) as Hgas. constructor.
  - apply seq_next with tx; [done..|]. unfold transact. by rewrite Hrun'.
  - by apply (agree_after m t (cache_db cs) d st Hag Hd Ht Htame tx x inc ws m' Hgas Hws Hm' cs eq_refl Hcs st2).
  - by apply (codes_after m t (cache_db cs) st Hag Htame tx x cs eq_refl Hcs st2).
  - by eapply record_wf.
  - intros y u Hu. rewrite Hm', decide_False by lia. apply Hfresh. lia.
  - congruence.
  - apply Forall2_app; [done|]. constructor; [|done]. eexists. split; [done|]. split; [done|]. intros a Ha. cbn [from_raw state].
    rewrite (rw_other _ _ _ _ Hrw _ Ha). specialize (Hsame a). unfold same_entry in *. repeat case_match; try done. by destruct Hsame.
  - intros u s a Hu. rewrite Hm'. apply lookup_app_Some in Hu as [Hu|[Hlen Hu]].
    + apply lookup_lt_Some in Hu as Hlt. rewrite (seq_prefix_length _ _ _ Hpre) in Hlt. rewrite decide_False by lia.
      intros Hor. destruct (Hstates _ _ _ Hu Hor) as [He (acc & Hacc & Hmem)]. split; [done|]. exists acc. split; [done|].
      by rewrite Hold.
    + apply list_lookup_singleton_Some in Hu as [Hu <-]. rewrite (seq_prefix_length _ _ _ Hpre) in *.
      assert (u = t) as -> by lia. rewrite decide_True, fmap_is_Some by done.
      by apply (state_after m t (cache_db cs) d st Hag Hd Ht Htame tx x inc ws m' Hgas Hws Hm' cs eq_refl Hcs st2).
  - intros u a j inc'. rewrite Hm'. case_decide as Hu; [|by apply Hlive]. intros He.
    destruct (ws_basic m t (cache_db cs) d st Hag Hd Ht Htame tx x ws Hgas Hws a)
      as [(acc & _ & Hw & Hp & _)|[(_ & Hw & _)|(_ & Hw & _)]]; rewrite Hw in He; simplify_eq/=. apply Hp.
  - intros u tx' Hu Htx'. destruct (decide (u = t)) as [->|Hne]; [|rewrite Hold by lia; apply Hnonces; [lia|done]].
    assert (tx' = tx) as -> by congruence. destruct (el_nonce Hevm _ _ _ _ Hrun) as (acc2 & Hst2 & Htc & Hn).
    specialize (Hsame (caller tx)). rewrite Hst2 in Hsame. destruct (st !! caller tx) as [acc|] eqn:Hst; [|done].
    destruct Hsame as [[(_ & En & _) _ _ Es _] _]. unfold is_touched in Htc. rewrite <- Es in Htc. rewrite <- En in Hn.
    by apply (nonce_after m t (cache_db cs) d st Hag Hd Ht Htame tx x inc ws m' Hgas Hws Hm' acc).
Qed.

Lemma serial_in_step (codes : gmap Z Bytecode) (n t : nat) (h : list MvMemory) (m : MvMemory)
    (outs : list (option TxExecutionResult)) :
  (forall ch c, codes !! ch = Some c -> c = code_of ch) -> Forall is_Some outs ->
  serial hash_deterministic evm_env txs n codes h t m outs -> exists cs raw, in_step codes t m outs cs raw.
Proof using hash_inj Hchain Hcache Hevm Hblock.
  intros Hcodes Hall Hs. induction Hs as [|t m m1 inc rs ws res wrote m' outs Hs IH Hin Hrec Hm].
  - exists [], []. apply in_step_start.
  - apply Forall_app in Hall as [Hall Hres]. apply list.Forall_singleton in Hres as [r ->].
    destruct (IH Hall) as (cs & raw & Hstep).
    destruct (in_step_next codes t m m1 m' outs cs raw inc rs ws r wrote Hcodes Hstep Hrec Hm) as (st & s & Hn). by do 2 eexists.
Qed.

Lemma seq_prefix_runs (t : nat) (cs : list EvmState) (raw : list TxExecutionResult) :
  seq_prefix t cs raw -> forall rs, runs_sequentially cache_db evm_env (drop t txs) cs rs ->
  runs_sequentially cache_db evm_env txs [] (raw ++ rs).
Proof using.
  induction 1 as [|t cs raw tx ty r st Hp IH Htx Hty Hrun]; intros rs Hrs; [done|].
  rewrite <- app_assoc. apply IH. rewrite (drop_S _ _ _ Htx). by eapply rs_cons.
Qed.

Lemma accumulate_receipts (ps : list TxExecutionResult) (ss : list TxExecutionResult) (total : Z) :
  Forall2 unrewarded (Some <$> ps) ss -> receipt <$> accumulate_gas total ps = receipt <$> accumulate_gas total ss.
Proof.
  revert total ss. induction ps as [|p ps IH]; intros total ss Hall.
  - apply Forall2_nil_inv_l in Hall as ->. done.
  - rewrite fmap_cons in Hall. apply Forall2_cons_inv_l in Hall as (s & ss' & (r & [= <-] & Hr & _) & Hall & ->).
    cbn. rewrite Hr. f_equal. by apply IH.
Qed.

(** ** The results *)

(** A result of the parallel executor and one of the sequential executor: the same
    receipt, the same accounts, and the same balance and nonce of the beneficiary,
    which the parallel executor may leave out of the state when both are zero. *)
Definition same_beneficiary (p s : TxExecutionResult) : Prop :=
  exists acc, state s !! ben = Some acc /\
    (numbers (info acc) = (0, 0) \/ exists acc', state p !! ben = Some acc' /\ numbers (info acc') = numbers (info acc)).

Definition same_result (p s : TxExecutionResult) : Prop :=
  receipt p = receipt s /\ (forall a, a ≠ ben -> same_entry same_account (state p !! a) (state s !! a)) /\ same_beneficiary p s.

Section Settled.
Context (codes : gmap Z Bytecode) (t : nat) (m mg : MvMemory) (outs : list (option TxExecutionResult)).
Context (cs : list EvmState) (raw ss : list TxExecutionResult).
Context (Hstep : in_step codes t m outs cs raw) (Hent : forall x u, entry m x u = entry mg x u).
Context (Hss : state <$> ss = state <$> raw).

(** The results on the way: [B] tells if the beneficiary has been evaluated. *)
Definition settled (B : Prop) (rs : list TxExecutionResult) : Prop :=
  receipt <$> rs = receipt <$> ss /\
  forall u p s, rs !! u = Some p -> ss !! u = Some s ->
    (forall a, a ≠ ben -> same_entry same_account (state p !! a) (state s !! a)) /\ (B -> same_beneficiary p s).

Lemma mem_basic_mg (u : nat) (a : Address) : mem_basic hash_deterministic mg u a = mem_basic hash_deterministic m u a.
Proof using Hent. unfold mem_basic. rewrite (below_ext m mg); [done|]. intros w _. by rewrite Hent. Qed.

Lemma mg_below (x : LocationHash) (u : nat) (e : Entry) : entry mg x u = Some e -> (u, e) ∈ below m t x.
Proof using Hstep Hent.
  rewrite <- Hent. intros He. assert (u < t)%nat as Hu.
  { destruct (decide (u < t)%nat); [done|]. rewrite (is_fresh _ _ _ _ _ _ Hstep) in He; [done|lia]. }
  rewrite below_omap. apply list_elem_of_omap. exists u. split; [apply elem_of_reverse, elem_of_seq; lia|]. by rewrite He.
Qed.

Lemma eval_address_settled (B : Prop) (rs rs' : list TxExecutionResult) (a : Address) :
  settled B rs -> eval_address hash_deterministic evm_env txs mg rs a = Return (Ok rs') -> settled (B \/ a = ben) rs'.
Proof using Hstep Hent Hss.
  intros [Hrec Hrs] Hev. pose proof (ag_resolvable _ _ _ _ _ (is_agree _ _ _ _ _ _ Hstep)) as [Hres Habs].
  split; [rewrite <- Hrec; by eapply eval_address_receipts|]. intros u p' s Hp' Hs.
  destruct (eval_address_states hash_deterministic evm_env txs mg a) with (rs := rs) (rs' := rs')
    as (ch & code & Hall); [|intros u' e Hc He|done|].
  { intros u' e He. apply mg_below in He. by eapply list.Forall_forall in He; [|apply Hres]. }
  { apply mg_below in He. by eapply list.Forall_forall in He; [|by apply Habs]. }
  destruct (Hall _ _ Hp') as (p & Hp & Hput). destruct (Hrs _ _ _ Hp Hs) as [Hother Hben].
  assert (exists s0, raw !! u = Some s0 /\ state s0 = state s) as (s0 & Hs0 & Est).
  { apply (f_equal (.!! u)) in Hss. rewrite !list_lookup_fmap, Hs in Hss. destruct (raw !! u) as [s0|]; [|done].
    exists s0. split; [done|]. cbn in Hss. congruence. }
  pose proof (is_states _ _ _ _ _ _ Hstep u s0 a Hs0) as Hst. rewrite Hent, Est, <- mem_basic_mg in Hst.
  destruct (entry mg (basic_hash a) u) as [e|] eqn:He.
  2: { subst p'. split; [done|]. intros [HB|Ha]; [by apply Hben|]. subst a; destruct Hst as [[x Hx] _]; [by left|done]. }
  destruct Hput as (bn & Hbn & ->). destruct Hst as [_ (acc & Hacc & Hmem)]; [by right|].
  assert (bn = numbers (info acc)) as -> by congruence. split.
  - intros b Hb. destruct (decide (b = a)) as [->|Hne]; [|rewrite put_account_other by done; by apply Hother].
    specialize (Hother a Hb). rewrite Hacc in *. destruct (state p !! a) as [accp|] eqn:Hp1; [|done].
    destruct (sa_info _ _ Hother) as (E1 & E2 & _). unfold numbers. rewrite <- E1, <- E2. by rewrite (put_account_same _ _ _ _ _ _ Hp1).
  - intros HB. destruct (decide (a = ben)) as [->|Hne].
    + exists acc. split; [done|]. destruct (put_account_numbers evm_env ben ch code (ai_balance (info acc)) (ai_nonce (info acc)) p)
        as [[E1 E2]|(acc' & Ha & E1 & E2)]; [left; unfold numbers; congruence|right].
      exists acc'. split; [exact Ha|]. unfold numbers. congruence.
    + destruct Hben as (accs & Hs1 & Hn); [tauto|]. exists accs. split; [done|]. by rewrite put_account_other.
Qed.

Lemma eval_address_goes_through (rs : list TxExecutionResult) (a : Address) :
  t = length txs -> length rs = length txs ->
  exists rs', eval_address hash_deterministic evm_env txs mg rs a = Return (Ok rs').
Proof using Hstep Hent Hchain Hblock.
  intros Ht Hlen. pose proof (ag_resolvable _ _ _ _ _ (is_agree _ _ _ _ _ _ Hstep)) as [Hres Habs].
  assert (Hbelow : forall u e, entry mg (basic_hash a) u = Some e -> (u < t)%nat).
  { intros u e He. destruct (decide (u < t)%nat); [done|]. rewrite <- Hent, (is_fresh _ _ _ _ _ _ Hstep) in He; [done|lia]. }
  apply eval_address_returns; [| | | | | | |done].
  - intros u e He. apply mg_below in He. by eapply list.Forall_forall in He; [|apply Hres].
  - intros u e Hc He. apply mg_below in He. by eapply list.Forall_forall in He; [|by apply Habs].
  - intros u e He. apply Hbelow in He. lia.
  - intros u inc i. rewrite <- Hent. apply (is_live _ _ _ _ _ _ Hstep).
  - intros u tx e He Htx <-. split; [apply (bl_nonces Hblock); by eapply list_elem_of_lookup_2|].
    rewrite mem_basic_mg. apply (is_nonces _ _ _ _ _ _ Hstep); [by eapply Hbelow|done].
  - eexists. apply (ch_empty Hchain).
  - intros i Hi. eexists. by apply (ch_code Hchain a).
Qed.

Lemma eval_lazy_settled (B : Prop) (rs rs' : list TxExecutionResult) (l : list Address) :
  settled B rs -> step_fold (eval_address hash_deterministic evm_env txs mg) l rs = Return (Ok rs') ->
  settled (B \/ ben ∈ l) rs'.
Proof using Hstep Hent Hss.
  revert B rs. induction l as [|a l IH]; intros B rs Hs Hf; cbn [step_fold] in Hf.
  - injection Hf as <-. destruct Hs as [Hr Hs]. split; [done|]. intros u p s Hp Hq. destruct (Hs _ _ _ Hp Hq) as [Ho Hb].
    split; [done|]. intros [HB|HB]; [by apply Hb|by apply not_elem_of_nil in HB].
  - destruct (eval_address _ _ _ _ rs a) as [[rs1|]| |] eqn:Hev; try done. cbn [step_bind] in Hf.
    destruct (IH _ _ (eval_address_settled _ _ _ _ Hs Hev) Hf) as [Hr Hs']. split; [done|]. intros u p s Hp Hq.
    destruct (Hs' _ _ _ Hp Hq) as [Ho Hb]. split; [done|]. rewrite elem_of_cons. intros HB. apply Hb.
    destruct HB as [?|[?|?]]; auto.
Qed.

Lemma eval_lazy_goes_through (rs : list TxExecutionResult) (l : list Address) :
  t = length txs -> length rs = length txs ->
  exists rs', step_fold (eval_address hash_deterministic evm_env txs mg) l rs = Return (Ok rs').
Proof using Hstep Hent Hchain Hblock.
  intros Ht. revert rs. induction l as [|a l IH]; intros rs Hlen; [by eexists|]. cbn [step_fold].
  destruct (eval_address_goes_through rs a Ht Hlen) as [rs1 Hev]. rewrite Hev. cbn [step_bind]. apply IH.
  apply eval_address_receipts, (f_equal length) in Hev. rewrite !length_fmap in Hev. lia.
Qed.

End Settled.

(** ** The block *)

Lemma accumulate_states (rs : list TxExecutionResult) (total : Z) : state <$> accumulate_gas total rs = state <$> rs.
Proof using. revert total. induction rs as [|r rs IH]; intros total; [done|]. cbn. f_equal. apply IH. Qed.

(** The results before the evaluation. *)
Lemma unrewarded_settled (ps raw : list TxExecutionResult) :
  Forall2 unrewarded (Some <$> ps) raw -> settled (accumulate_gas 0 raw) False (accumulate_gas 0 ps).
Proof using.
  intros Hall. split; [by apply accumulate_receipts|]. intros u p s Hp Hs. split; [|done]. intros a Ha.
  apply (f_equal (fmap state)) in Hp, Hs. rewrite <- list_lookup_fmap, accumulate_states, list_lookup_fmap in Hp, Hs.
  destruct (ps !! u) as [p0|] eqn:Hp0; [|done]. destruct (raw !! u) as [s0|] eqn:Hs0; [|done]. cbn in Hp, Hs.
  injection Hp as <-. injection Hs as <-.
  apply (Forall2_lookup_lr _ _ _ u (Some p0) s0) in Hall; [|by rewrite list_lookup_fmap, Hp0|done].
  destruct Hall as (r & [= <-] & _ & Hst). by apply Hst.
Qed.

(** The evaluation of the results, against those of the sequential executor. *)
Lemma serial_same_results (m mg : MvMemory) (n : nat) (h : list MvMemory) (raw : list TxExecutionResult) :
  (forall ch c, new_bytecodes mg !! ch = Some c -> c = code_of ch) ->
  serial hash_deterministic evm_env txs n (new_bytecodes mg) h (length txs) m (Some <$> raw) ->
  (forall x t, entry m x t = entry mg x t) -> ben ∈ consume_lazy_addresses mg ->
  exists ps ss, eval_lazy hash_deterministic evm_env txs mg (accumulate_gas 0 raw) = Return (Ok ps) /\
    execute_sequential cache_db evm_env txs = Ok ss /\ Forall2 same_result ps ss.
Proof using hash_inj Hchain Hcache Hevm Hblock.
  intros Hcodes Hs Hent Hben.
  assert (Hsome : Forall is_Some (Some <$> raw)) by (apply list.Forall_fmap, list.Forall_true; by eexists).
  destruct (serial_in_step _ _ _ _ _ _ Hcodes Hsome Hs) as (cs & sraw & Hstep).
  pose proof (seq_prefix_length _ _ _ (is_prefix _ _ _ _ _ _ Hstep)) as Hlen.
  pose proof (list.Forall2_length _ _ _ (is_outs _ _ _ _ _ _ Hstep)) as Hlen2. rewrite length_fmap in Hlen2.
  destruct (eval_lazy_goes_through _ _ _ mg _ _ _ Hstep Hent (accumulate_gas 0 raw) (consume_lazy_addresses mg) eq_refl)
    as [ps Hps]; [rewrite accumulate_gas_length; lia|].
  exists ps, (accumulate_gas 0 sraw). split; [exact Hps|]. split.
  - apply sequential_loop_runs. exists sraw. split; [|done]. rewrite <- (app_nil_r sraw).
    apply (seq_prefix_runs _ _ _ (is_prefix _ _ _ _ _ _ Hstep)). rewrite drop_all. constructor.
  - destruct (eval_lazy_settled _ _ _ _ _ _ _ _ Hstep Hent (accumulate_states sraw 0) False _ _ _
      (unrewarded_settled _ _ (is_outs _ _ _ _ _ _ Hstep)) Hps) as [Hrec Hall].
    assert (Hl : length ps = length (accumulate_gas 0 sraw)) by (by rewrite <- (length_fmap receipt ps), Hrec, length_fmap).
    apply Forall2_same_length_lookup_2; [done|]. intros u p s Hp Hq. destruct (Hall _ _ _ Hp Hq) as [Ho Hb].
    split; [|split; [done|apply Hb; by right]]. apply (f_equal (.!! u)) in Hrec. rewrite !list_lookup_fmap, Hp, Hq in Hrec.
    cbn in Hrec. congruence.
Qed.

(** C1. The parallel executor gives what the sequential one gives. Let the worker
    threads run on the memory of the block, in any interleaving, until they are done
    without an abort. If the chain, [CacheDB] and the EVM do what they document
    ([chain_laws], [cache_laws], [evm_laws]), hashes of locations do not collide, and
    the block's transactions pay existing accounts and neither destroy accounts, leave
    them empty nor give new code to existing ones ([block_laws]), then both executors
    succeed, and their results are the same one by one: the same receipt, the same
    state of every account, and the same balance and nonce of the beneficiary, which
    the one adds up lazily and the other pays in every transaction. *)
Theorem parallel_equals_sequential (k : nat) (slots0 : list (option TxExecutionResult)) (h : list MvMemory) (g : MGlobal)
    (pending slots : list (option TxExecutionResult))
    (Hn : Z.of_nat (length txs) < 2 ^ 64) (Hk : (0 < k)%nat) (Hlen : Z.of_nat (length h) < 2 ^ 64)
    (Hslots : (length txs <= length slots0)%nat)
    (Hr : block_runs hash_deterministic evm_env txs code_of k slots0 h g pending slots)
    (Hd : all_done (base g)) (Hreason : abort_reason (shared (base g)) = None) :
  exists ps ss,
    finish_block hash_deterministic cache_db evm_env txs None slots (mem g) = Return (Ok ps) /\
    execute_sequential cache_db evm_env txs = Ok ss /\ Forall2 same_result ps ss.
Proof using hash_inj Hchain Hcache Hevm Hblock.
  destruct (block_serial hash_deterministic evm_env txs (no_collision _ hash_inj) code_of (ch_codes Hchain) k slots0 h g pending slots
    Hn Hk Hlen Hslots Hr Hd Hreason) as (m & raw & Hs & Hent & Htake & Hcodes).
  unfold finish_block. rewrite Htake. apply (serial_same_results m (mem g) _ h raw Hcodes Hs Hent).
  apply elem_of_elements.
  apply (lazy_addresses_kept _ _ _ _ _ _ Hn (runs_mreachable _ _ _ _ _ _ _ _ (result_runs_runs _ _ _ _ _ _ _ _ _ _ _ Hr))).
  by left.
Qed.

End Sequential.


(** ** Examples *)

(** An overlay that keeps what the states say, for examples. *)
Section Overlay.
Context `{Revm} `{!DatabaseRef}.

(** The committed states on top of the chain's. *)
Definition overlay_commit (v : DbView) (st : EvmState) : DbView :=
  mkDbView
    (fun a => match st !! a with
      | Some acc => if is_touched acc then Ok (if is_selfdestructed acc then None else Some (info acc)) else view_basic v a
      | None => view_basic v a
      end)
    (view_code v)
    (fun a i => match st !! a with
      | Some acc => if is_touched acc then
          if is_selfdestructed acc then Ok 0
          else match storage acc !! i with Some s => Ok (present_value s) | None => view_storage v a i end
          else view_storage v a i
      | None => view_storage v a i
      end)
    (view_block_hash v).

Definition overlay (cs : list EvmState) : DbView :=
  foldl overlay_commit (mkDbView basic_ref code_by_hash_ref storage_ref block_hash_ref) cs.

End Overlay.

Section Examples.
#[local] Existing Instance example_revm.

(** A chain on which every address has an account with balance 1000 and nonce 1. *)
#[local] Instance ledger_db : DatabaseRef := {|
  DbError := unit; err_to_string := fun _ => String.EmptyString;
  basic_ref := fun _ => Ok (Some (mkAccountInfo 1000 1 0 None)); code_by_hash_ref := fun _ => Ok 0;
  storage_ref := fun _ _ => Ok 0; block_hash_ref := fun _ => Ok 0;
|}.

Definition ledger_touched (b n h : Z) (slots : gmap Z StorageSlot) : Account :=
  mkAccount (mkAccountInfo b n h None) slots (false, true) tt.

Definition ledger_paid (env : EvmEnv) (tx : TxEnv) (i : AccountInfo) (slots : gmap Z StorageSlot) : Account :=
  mkAccount (mkAccountInfo (saturating_add 256 (ai_balance i) (reward_amount env tx (Success 21000 []))) (ai_nonce i)
    (ai_code_hash i) (ai_code i)) slots (false, true) tt.

(** The reward, on top of the state of a transaction. *)
Definition ledger_reward (env : EvmEnv) (tx : TxEnv) (st : EvmState) :
    Prog (result (ExecutionResult * EvmState) (EVMError Empty_set)) :=
  match st !! beneficiary env with
  | Some acc => Ret (Ok (Success 21000 [], <[beneficiary env := ledger_paid env tx (info acc) (storage acc)]> st))
  | None => ReadBasic (beneficiary env) (fun o =>
      match o with
      | Some i => Ret (Ok (Success 21000 [], <[beneficiary env := ledger_paid env tx i ∅]> st))
      | None => Ret (Err (EE_Custom String.EmptyString))
      end)
  end.

(** Transactions that raise the nonce of their caller, take the fee and count in the
    caller's slot 0. *)
#[local] Instance ledger_evm : Evm := {|
  evm_program := fun reward env tx => ReadBasic (caller tx) (fun o =>
    match o with
    | Some i =>
        if negb (ai_nonce i =? nonce tx) then Ret (Err (EE_Custom String.EmptyString)) else
        ReadStorage (caller tx) 0 (fun x =>
          let st := {[ caller tx := ledger_touched (wrapping 256 (ai_balance i - 21)) (nonce tx + 1) (ai_code_hash i)
                                      {[ 0 := mkStorageSlot x (x + 1) ]} ]} in
          if reward : bool then ledger_reward env tx st else Ret (Ok (Success 21000 [], st)))
    | None => Ret (Err (EE_Custom String.EmptyString))
    end);
  changed_storage_slots := fun account => map_to_list (storage account);
  tx_type_try_from := fun t => Ok t;
|}.

Definition ledger_cache : list EvmState -> DbView := overlay.

Lemma ledger_cache_snoc (cs : list EvmState) (st : EvmState) :
  ledger_cache (cs ++ [st]) = overlay_commit (ledger_cache cs) st.
Proof. unfold ledger_cache, overlay. by rewrite foldl_app. Qed.

Lemma ledger_cache_code (cs : list EvmState) (h : Z) : view_code (ledger_cache cs) h = Ok 0.
Proof. induction cs as [|st cs IH] using rev_ind; [done|]. by rewrite ledger_cache_snoc. Qed.

Lemma ledger_chain_laws : chain_laws (fun _ => 0).
Proof.
  constructor; try done.
  - intros a. by eexists.
  - intros a i [= <-]. split; done.
  - by intros h c [= <-].
Qed.

Lemma ledger_cache_laws : cache_laws ledger_cache (fun _ => 0).
Proof.
  constructor.
  - done.
  - intros cs a i c Hok. revert i c. induction cs as [|st cs IH] using rev_ind; intros i c; [by intros [= <-]|].
    apply Forall_app in Hok as [Hok Hst]. rewrite list.Forall_singleton in Hst. rewrite ledger_cache_snoc. cbn [overlay_commit view_basic].
    destruct (st !! a) as [acc|] eqn:Ha; [|by apply IH]. destruct (is_touched acc); [|by apply IH].
    destruct (is_selfdestructed acc); [done|]. intros [= <-] Hc. exact (Hst a acc c Ha Hc).
  - intros cs h c _. rewrite ledger_cache_code. by intros [= <-].
  - intros cs n. induction cs as [|st cs IH] using rev_ind; [done|]. by rewrite ledger_cache_snoc.
  - intros cs st a acc Ha Ht Hs. exists (info acc). split; [|done]. rewrite ledger_cache_snoc. cbn [overlay_commit view_basic view_storage]. by rewrite Ha, Ht, Hs.
  - intros cs st a Hall. rewrite ledger_cache_snoc. cbn [overlay_commit view_basic view_storage]. destruct (st !! a) as [acc|]; [|done]. by rewrite Hall.
  - intros cs st a acc i slot Ha Ht Hs _ Hin. rewrite ledger_cache_snoc. cbn [overlay_commit view_basic view_storage]. rewrite Ha, Ht, Hs.
    apply elem_of_map_to_list in Hin. by rewrite Hin.
  - intros cs st a i Hall. rewrite ledger_cache_snoc. cbn [overlay_commit view_basic view_storage]. destruct (st !! a) as [acc|]; [|done].
    destruct (Hall _ eq_refl) as [->|[-> Hi]]; [done|]. destruct (is_touched acc); [|done].
    destruct (storage acc !! i) as [s|] eqn:Hsl; [|done]. destruct Hi. apply list_elem_of_fmap. exists (i, s).
    split; [done|]. by apply elem_of_map_to_list.
  - intros cs st h c _. by rewrite !ledger_cache_code.
  - intros cs st a acc c Hok Ha _ _ Hc. rewrite ledger_cache_code. f_equal. symmetry.
    apply Forall_app in Hok as [_ Hst]. rewrite list.Forall_singleton in Hst. exact (Hst a acc c Ha Hc).
Qed.

(** What a transaction of the example does. *)
Lemma ledger_run (v : DbView) (env : EvmEnv) (tx : TxEnv) (r : ExecutionResult) (st : EvmState) :
  run_view v (evm_program false env tx) = Ok (Ok (r, st)) ->
  exists i x, view_basic v (caller tx) = Ok (Some i) /\ ai_nonce i = nonce tx /\ view_storage v (caller tx) 0 = Ok x /\
    r = Success 21000 [] /\
    st = {[ caller tx := ledger_touched (wrapping 256 (ai_balance i - 21)) (nonce tx + 1) (ai_code_hash i)
                           {[ 0 := mkStorageSlot x (x + 1) ]} ]}.
Proof.
  cbn. destruct (view_basic v (caller tx)) as [[i|]|]; try done. cbn. destruct (Z.eqb_spec (ai_nonce i) (nonce tx)); [|done]. cbn.
  destruct (view_storage v (caller tx) 0) as [x|]; [|done]. cbn. intros [= <- <-]. by exists i, x.
Qed.

Lemma ledger_evm_laws (env : EvmEnv) : evm_laws env.
Proof.
  constructor.
  - intros tx v r st Hrun. exists st. apply ledger_run in Hrun as (i & x & Hi & Hn & Hx & -> & ->). split.
    + cbn in Hi, Hx |- *. destruct (view_basic v (caller tx)) as [[j|]|]; try done. cbn in Hi. injection Hi as <-.
      assert (E : ai_balance (load_code v j) = ai_balance j /\ ai_nonce (load_code v j) = ai_nonce j /\
        ai_code_hash (load_code v j) = ai_code_hash j) by (unfold load_code; by case_match).
      destruct E as (-> & E & ->). rewrite E in Hn. cbn. rewrite Hn, Z.eqb_refl. cbn. by rewrite Hx.
    + intros a. unfold same_entry. case_match; [|done]. split; [|by left]. by constructor.
  - intros tx v r st j Hrun Hj _. apply ledger_run in Hrun as (i & x & Hi & Hn & Hx & -> & ->).
    set (st := {[ caller tx := _ ]}). exists (match st !! beneficiary env with
      | Some acc => <[beneficiary env := ledger_paid env tx (info acc) (storage acc)]> st
      | None => <[beneficiary env := ledger_paid env tx j ∅]> st
      end). split.
    + cbn. rewrite Hi. cbn. rewrite Hn, Z.eqb_refl. cbn. rewrite Hx. cbn. fold st. unfold ledger_reward.
      destruct (st !! beneficiary env); [done|]. cbn. by rewrite Hj.
    + constructor.
      * intros a Ha. destruct (st !! beneficiary env); by rewrite lookup_insert_ne.
      * destruct (st !! beneficiary env) as [acc|]; rewrite lookup_insert_eq; [by eexists; exists (info acc)|by eexists; exists j].
  - intros tx v r st Hrun. apply ledger_run in Hrun as (i & x & _ & _ & _ & _ & ->). rewrite lookup_singleton_eq. by eexists.
Qed.

(** A block of three transactions, two of the same caller, one of them to the
    beneficiary. *)
Definition ledger_tx (from : Address) (k : TxKind) (n : Z) : TxEnv := mkTxEnv from k n 0 21000 30 None 0 0 0 tt.
Definition ledger_txs : list TxEnv := [ledger_tx 5 Create 1; ledger_tx 6 (Call 5) 1; ledger_tx 5 (Call 100) 2].

Lemma ledger_txs_lookup (t : nat) (tx : TxEnv) : ledger_txs !! t = Some tx ->
  (nonce tx = 1 \/ nonce tx = 2) /\ reward_gas_price example_env tx = 20.
Proof. intros Ht. destruct t as [|[|[|t]]]; try done; injection Ht as <-; (split; [cbn; lia|done]). Qed.

Lemma ledger_block_laws : block_laws ledger_cache example_env ledger_txs (fun _ => 0).
Proof.
  constructor.
  - intros tx a _ _. by eexists.
  - intros tx [t Ht]%list_elem_of_lookup_1. apply ledger_txs_lookup in Ht as [Hn _]. lia.
  - by eexists.
  - intros t cs raw tx r st _ Htx Hrun. apply ledger_txs_lookup in Htx as [Hnonce _].
    apply ledger_run in Hrun as (i & x & Hi & Hn & _ & _ & ->). split.
    + intros a acc c [<- <-]%lookup_singleton_Some. done.
    + intros a acc [<- <-]%lookup_singleton_Some. constructor; try done.
      * apply NoDup_fst_map_to_list.
      * intros _. unfold kept, account_is_empty. cbn. destruct (Z.eqb_spec (nonce tx + 1) 0); [lia|]. by rewrite andb_false_r.
      * intros _. split; cbn; [apply Z.mod_pos_bound; lia|unfold in_range; lia].
      * intros _. right. cbn. lia.
      * intros _. cbn. lia.
      * intros j _ Hj. cbn. congruence.
      * intros _ Hj. congruence.
  - intros t cs raw tx r st _ Htx Hrun. apply ledger_txs_lookup in Htx as [_ Hp].
    apply ledger_run in Hrun as (i & x & _ & _ & _ & -> & _). unfold reward_amount. rewrite Hp. done.
Qed.

(** The three transactions on three threads. *)
Definition ledger_run_state : RunState :=
  run_from encode_hash example_env ledger_txs example_counter_schedule
    (run_init 3 3 (block_estimates encode_hash example_env ledger_txs) [100] (replicate 3 None)).

(** The balance of the beneficiary and the gas, from result to result. *)
Definition ledger_totals (rs : list TxExecutionResult) : list (option Z * Z) :=
  (fun r => ((fun acc => ai_balance (info acc)) <$> state r !! 100, cumulative_gas_used (receipt r))) <$> rs.

(** The third transaction depends on the first one, of the same caller, and pays the
    beneficiary; both executors add 420000 to the beneficiary for each of the three. *)
Lemma parallel_equals_sequential_witness :
  exists ps ss,
    finish_block encode_hash ledger_cache example_env ledger_txs None (run_slots ledger_run_state)
      (mem (run_global ledger_run_state)) = Return (Ok ps) /\
    execute_sequential ledger_cache example_env ledger_txs = Ok ss /\ Forall2 (same_result example_env) ps ss /\
    match execute_sequential ledger_cache example_env ledger_txs with
    | Ok rs => ledger_totals rs = [(Some 421000, 21000); (Some 841000, 42000); (Some 1261000, 63000)]
    | Err _ => False
    end.
Proof.
  destruct (parallel_equals_sequential encode_hash ledger_cache example_env ledger_txs (fun _ => 0) encode_hash_inj
    ledger_chain_laws ledger_cache_laws (ledger_evm_laws example_env) ledger_block_laws 3 (replicate 3 None)
    (run_hist ledger_run_state) (run_global ledger_run_state) (run_pending ledger_run_state) (run_slots ledger_run_state))
    as (ps & ss & Hps & Hss & Hall).
  - vm_compute. reflexivity.
  - lia.
  - vm_compute. reflexivity.
  - cbn. lia.
  - apply (run_from_runs encode_hash example_env ledger_txs (fun _ => 0) 3 3).
  - assert (threads (base (run_global ledger_run_state)) = replicate 3 W_Done) as Ht by (vm_compute; reflexivity).
    intros i p. rewrite Ht. by intros [-> _]%lookup_replicate.
  - vm_compute. reflexivity.
  - exists ps, ss. split; [exact Hps|]. split; [exact Hss|]. split; [exact Hall|]. vm_compute. reflexivity.
Defined.

End Examples.
