(* ===== verification/Divergence.v ===== *)
(** * Where the two executors differ

    Blocks on which [ParallelExecutor::execute] does not give what
    [execute_sequential] gives, executed by the model: what the hypotheses of
    [Sequential] exclude. Two concern the code of accounts, two lazy transfers. *)

From S2P Require Import Prelude Primitives Types Results MvMemory VmDb Vm Executor Views Scheduler Workers WorkersInv WorkersSafety.
From S2P Require Import WorkersMem WorkersMemInv WorkersRun WorkersResults WorkersEst WorkersSerial WorkersBlock Sequential.
Local Open Scope Z_scope.

Section Divergence.
#[local] Existing Instance example_revm.

(** Every address has an account with balance 1000 and nonce 1; only address 100, the
    beneficiary, has code, with hash 7. *)
#[local] Instance code_db : DatabaseRef := {|
  DbError := unit; err_to_string := fun _ => String.EmptyString;
  basic_ref := fun a => Ok (Some (mkAccountInfo 1000 1 (if a =? 100 then 7 else 0) None)); code_by_hash_ref := fun h => Ok h;
  storage_ref := fun _ _ => Ok 0; block_hash_ref := fun _ => Ok 0;
|}.

Local Abbreviation EvmProg := (Prog (result (ExecutionResult * EvmState) (EVMError Empty_set))).
Local Abbreviation nothing := (Ret (Err (EE_Custom String.EmptyString)) : EvmProg).

Definition read_account (a : Address) (k : AccountInfo -> EvmProg) : EvmProg :=
  ReadBasic a (fun o => match o with Some i => k i | None => nothing end).

Definition touched (i : AccountInfo) : Account := mkAccount i ∅ (false, true) tt.

(** The end of a transaction: the caller's nonce, and the reward if it is on. *)
Definition finish_tx (reward : bool) (env : EvmEnv) (tx : TxEnv) (gas : Z) (st : EvmState) : EvmProg :=
  if reward then
    let paid (i : AccountInfo) := touched (mkAccountInfo
      (saturating_add 256 (ai_balance i) (saturating_mul 256 (reward_gas_price env tx) gas)) (ai_nonce i) (ai_code_hash i) (ai_code i)) in
    match st !! beneficiary env with
    | Some acc => Ret (Ok (Success gas [], <[beneficiary env := paid (info acc)]> st))
    | None => read_account (beneficiary env) (fun i => Ret (Ok (Success gas [], <[beneficiary env := paid i]> st)))
    end
  else Ret (Ok (Success gas [], st)).

(** By its value a transaction gives account 8 the code with hash 9, uses as much more
    gas as the hash of account 8's code, or pays 5 to the beneficiary. *)
#[local] Instance code_evm : Evm := {|
  evm_program := fun reward env tx => read_account (caller tx) (fun i =>
    let st : EvmState := {[ caller tx := touched (mkAccountInfo (ai_balance i) (nonce tx + 1) (ai_code_hash i) (ai_code i)) ]} in
    if value tx =? 1 then
      read_account 8 (fun j => finish_tx reward env tx 21000 (<[8 := touched (mkAccountInfo (ai_balance j) (ai_nonce j) 9 (Some 9))]> st))
    else if value tx =? 2 then
      read_account 8 (fun j => finish_tx reward env tx (21000 + ai_code_hash j) st)
    else if value tx =? 3 then
      read_account 100 (fun j => finish_tx reward env tx 21000
        (<[100 := touched (mkAccountInfo (ai_balance j + 5) (ai_nonce j) (ai_code_hash j) (ai_code j))]> st))
    else finish_tx reward env tx 21000 st);
  changed_storage_slots := fun account => map_to_list (storage account);
  tx_type_try_from := fun t => Ok t;
|}.

Definition code_tx (from v : Z) : TxEnv := mkTxEnv from (Call 3) 1 v 21000 30 None 0 0 0 tt.

(** One worker thread, on a block of two transactions. *)
Definition block_of (txs : list TxEnv) : RunState :=
  run_from encode_hash example_env txs (replicate 200 0%nat)
    (run_init (length txs) 1 (block_estimates encode_hash example_env txs) [100] (replicate (length txs) None)).

Definition parallel_results (txs : list TxEnv) : Step (list TxExecutionResult) :=
  finish_block encode_hash overlay example_env txs None (run_slots (block_of txs)) (mem (run_global (block_of txs))).

Definition gas_of_sequential (txs : list TxEnv) : list Z :=
  match execute_sequential overlay example_env txs with
  | Ok rs => (fun x => cumulative_gas_used (receipt x)) <$> rs
  | Err _ => []
  end.

(** The runs are such as [Sequential] speaks of. *)
Lemma block_of_runs (txs : list TxEnv) :
  block_runs encode_hash example_env txs (fun h => h) 1 (replicate (length txs) None) (run_hist (block_of txs))
    (run_global (block_of txs)) (run_pending (block_of txs)) (run_slots (block_of txs)).
Proof.
  unfold block_of. generalize (replicate 200 0%nat) as sc. intros sc.
  apply (run_from_runs encode_hash example_env txs (fun h => h) (length txs) 1).
Qed.

(** ** New code of an account of the chain *)

Definition deploys : list TxEnv := [code_tx 5 1; code_tx 6 2].

(** The second transaction does not see the code the first one gave to account 8. An
    account of the chain always has a code hash, if only that of no code, so that the
    account counts as one with code ([basic], vm.rs) and new code is not recorded
    ([write_code]). *)
Lemma new_code_of_account_lost :
  threads (base (run_global (block_of deploys))) = [W_Done] /\
  abort_reason (shared (base (run_global (block_of deploys)))) = None /\
  entry (mem (run_global (block_of deploys))) (encode_hash (Loc_CodeHash 8)) 0 = None /\
  gas_of (parallel_results deploys) = [21000; 42000] /\ gas_of_sequential deploys = [21000; 42009].
Proof. vm_compute. done. Qed.

(** ** The code of the beneficiary *)

Definition pays : list TxEnv := [code_tx 5 3; code_tx 6 0].

(** The beneficiary's balance and code hash in the state of every result. *)
Definition beneficiary_of (rs : list TxExecutionResult) : list (option (Z * Z)) :=
  (fun r => (fun acc => (ai_balance (info acc), ai_code_hash (info acc))) <$> state r !! 100) <$> rs.

(** When the first entry of the beneficiary is absolute, the evaluation at the end of
    the block starts with the hash of no code ([eval_base], executor.rs) and puts it
    into the states of later transactions: the contract loses its code. *)
Lemma beneficiary_code_lost :
  (exists rs, parallel_results pays = Return (Ok rs) /\ beneficiary_of rs = [Some (421005, 7); Some (841005, 0)]) /\
  (exists rs, execute_sequential overlay example_env pays = Ok rs /\
     beneficiary_of rs = [Some (421005, 7); Some (841005, 7)]).
Proof. split; eexists; (split; [vm_compute; reflexivity|vm_compute; reflexivity]). Qed.

End Divergence.

(** ** Lazy transfers *)

Section LazyTransfers.
#[local] Existing Instance example_revm.

Local Abbreviation EvmProg := (Prog (result (ExecutionResult * EvmState) (EVMError Empty_set))).

(** Every address has an account with nonce 1, but 50; only account 7 has code. *)
#[local] Instance transfer_db : DatabaseRef := {|
  DbError := unit; err_to_string := fun _ => String.EmptyString;
  basic_ref := fun a => Ok (if a =? 50 then None else Some (mkAccountInfo 10000000 1 (if a =? 7 then 9 else 0) None));
  code_by_hash_ref := fun h => Ok h; storage_ref := fun _ _ => Ok 0; block_hash_ref := fun _ => Ok 0;
|}.

(** The caller pays the value to the recipient, unless the caller has code, which
    EIP-3607 forbids; a transaction of type 4 also raises the nonce of account 8, which
    has authorized it (EIP-7702). The nonce of the recipient shows in the gas. *)
Definition transfer (tx : TxEnv) (to : Address) (k : Z -> EvmState -> EvmProg) : EvmProg :=
  read_account (caller tx) (fun i =>
    if negb (is_empty_code_hash (ai_code_hash i)) then Ret (Err (EE_Custom String.EmptyString))
    else ReadBasic to (fun o =>
      let j := default (mkAccountInfo 0 0 KECCAK_EMPTY None) o in
      k (21000 + ai_nonce j)
        (<[to := touched (mkAccountInfo (ai_balance j + value tx) (ai_nonce j) (ai_code_hash j) (ai_code j))]>
          {[ caller tx := touched (mkAccountInfo (ai_balance i - value tx) (nonce tx + 1) (ai_code_hash i) (ai_code i)) ]}))).

#[local] Instance transfer_evm : Evm := {|
  evm_program := fun reward env tx =>
    match kind tx with
    | Call to =>
        transfer tx to (fun gas st =>
          if tx_type tx =? 4 then
            read_account 8 (fun i => finish_tx reward env tx gas
              (<[8 := touched (mkAccountInfo (ai_balance i) (ai_nonce i + 1) (ai_code_hash i) (ai_code i))]> st))
          else finish_tx reward env tx gas st)
    | Create => Ret (Err (EE_Custom String.EmptyString))
    end;
  changed_storage_slots := fun account => map_to_list (storage account);
  tx_type_try_from := fun t => Ok t;
|}.

Definition transfer_tx (from to n ty : Z) : TxEnv := mkTxEnv from (Call to) n 1 21000 30 None 0 0 ty tt.

(** A thread, which after a lazy execution first adds the addresses to the memory. *)
Definition lazy_of (txs : list TxEnv) (m : MvMemory) (t : TxIdx) : list Address :=
  match txs !! t with
  | Some tx =>
      match VmDB_new encode_hash m m t tx (encode_hash (Loc_Basic (caller tx)))
              ((fun a => encode_hash (Loc_Basic a)) <$> kind_to (kind tx)) with
      | Return (Ok db) => if is_lazy db then filter (fun a => a ∉ lazy_addresses m) (lazy_parties tx) else []
      | _ => []
      end
  | None => []
  end.

Definition lazy_step (txs : list TxEnv) (r : RunState) (i : nat) : RunState :=
  let g := run_global r in
  match threads (base g) !! i, aux g !! i with
  | Some (W_Execute v), Some M_Idle =>
      match lazy_of txs (mem g) (tx_idx v) with
      | [] => run_step encode_hash example_env txs r i
      | l =>
          match mgstep g i (O_Lazy l) with
          | Some g' => mkRunState (mem g' :: run_hist r) g' (keeps (O_Lazy l) i None (run_pending r))
                         (stores g i (run_pending r) (run_slots r))
          | None => r
          end
      end
  | _, _ => run_step encode_hash example_env txs r i
  end.

Definition lazy_block (txs : list TxEnv) : RunState :=
  foldl (lazy_step txs)
    (run_init (length txs) 1 (block_estimates encode_hash example_env txs) [100] (replicate (length txs) None))
    (replicate 200 0%nat).

(** These, too, are runs such as [Sequential] speaks of. *)
Lemma lazy_step_ok (txs : list TxEnv) (n k : nat) (est : gmap LocationHash (list TxIdx)) (lz : list Address)
    (slots0 : list (option TxExecutionResult)) (r : RunState) (i : nat) :
  run_ok encode_hash example_env txs (fun h => h) n k est lz slots0 r ->
  run_ok encode_hash example_env txs (fun h => h) n k est lz slots0 (lazy_step txs r i).
Proof.
  intros Hok. unfold lazy_step. destruct (threads _ !! i) as [p|] eqn:Hp; [|by apply run_step_ok].
  destruct p; try by apply run_step_ok. destruct (aux _ !! i) as [a|] eqn:Ha; [|by apply run_step_ok].
  destruct a; try by apply run_step_ok. destruct (lazy_of _ _ _) as [|x l]; [by apply run_step_ok|].
  destruct (mgstep _ _ _) as [g'|] eqn:Hg; [|done]. destruct Hok as [Hin Hr]. split; [by left|].
  cbn [run_hist run_global run_pending run_slots].
  eapply result_runs_step; [done|done| |done]. unfold fails_without. by rewrite Ha.
Qed.

Lemma lazy_block_runs (txs : list TxEnv) :
  block_runs encode_hash example_env txs (fun h => h) 1 (replicate (length txs) None) (run_hist (lazy_block txs))
    (run_global (lazy_block txs)) (run_pending (lazy_block txs)) (run_slots (lazy_block txs)).
Proof.
  unfold lazy_block. generalize (replicate 200 0%nat) as sc. intros sc.
  assert (Hgen : forall r, run_ok encode_hash example_env txs (fun h => h) (length txs) 1 (block_estimates encode_hash example_env txs)
      [100] (replicate (length txs) None) r ->
    run_ok encode_hash example_env txs (fun h => h) (length txs) 1 (block_estimates encode_hash example_env txs)
      [100] (replicate (length txs) None) (foldl (lazy_step txs) r sc)).
  { induction sc as [|i sc' IH]; intros r Hr; [done|]. by apply IH, lazy_step_ok. }
  apply Hgen. split; [by left|apply result_runs_init].
Qed.

Definition lazy_results (txs : list TxEnv) : Step (list TxExecutionResult) :=
  finish_block encode_hash overlay example_env txs None (run_slots (lazy_block txs)) (mem (run_global (lazy_block txs))).

(** When the threads are done without an abort. *)
Definition went_through (txs : list TxEnv) : Prop :=
  threads (base (run_global (lazy_block txs))) = [W_Done] /\
  abort_reason (shared (base (run_global (lazy_block txs)))) = None.

Definition gases (rs : list TxExecutionResult) : list Z := (fun x => cumulative_gas_used (receipt x)) <$> rs.

(** A lazy transfer from a contract goes through, which is no transaction at all when
    the block is executed in order: the caller is answered with a mock without code
    ([basic], vm.rs), so that the EVM cannot see that the caller has code. *)
Definition from_contract : list TxEnv := [transfer_tx 5 7 1 0; transfer_tx 7 50 1 0].

Lemma contract_sender_accepted :
  went_through from_contract /\ gas_of (lazy_results from_contract) = [21001; 42001] /\
  execute_sequential overlay example_env from_contract = Err (PE_ExecutionError (EE_Custom String.EmptyString)).
Proof. vm_compute. done. Qed.

(** What a lazy transaction does to other accounts than the caller and the recipient is
    not written ([write_info]): the nonce of account 8, raised by the second transaction,
    is the old one for the third, whose gas shows it. *)
Definition authorized : list TxEnv := [transfer_tx 5 6 1 0; transfer_tx 5 50 2 4; transfer_tx 6 8 1 0].

Lemma other_accounts_lost :
  went_through authorized /\ entry (mem (run_global (lazy_block authorized))) (encode_hash (Loc_Basic 8)) 1 = None /\
  gas_of (lazy_results authorized) = [21001; 42001; 63002] /\
  (exists rs, execute_sequential overlay example_env authorized = Ok rs /\ gases rs = [21001; 42001; 63003]).
Proof. split; [vm_compute; done|]. do 2 (split; [vm_compute; done|]). eexists. split; [vm_compute; reflexivity|done]. Qed.

End LazyTransfers.
